(* ===== verification/_CoqProject ===== *)
-Q . S2P
Prelude.v
Endian.v
Buffer.v
Channel.v
Poller.v
EPollPoller.v
PollPoller.v
Reactor.v
Timestamp.v
Sockets.v
SocketCalls.v
TimerQueue.v
EventLoop.v
LoopTimers.v
EventLoopThreads.v
TcpConnection.v
ConnProgress.v
Echo.v
ConnChannel.v
Sync.v
Thread.v
ThreadPool.v
PoolLife.v
Connector.v
TcpServer.v
Acceptor.v
TcpClient.v
LoopLife.v
ServerAccept.v
ServerConns.v
ServerLife.v
ClientConns.v
ClientLoop.v
LoopRun.v
LoopProgress.v
ConnectorLoop.v
