(* ===== verification/Prelude.v ===== *)
(** * kaycc: a verified model of an event-driven TCP library

    kaycc is a C++ network library in the reactor style.  One [EventLoop] runs
    per I/O thread; descriptors are wrapped in [Channel]s, which the loop's
    [Poller] (epoll or poll) watches; timers are one more channel, on a timerfd;
    other threads reach a loop by queueing functors and writing to its eventfd.
    On top of that stand [TcpConnection], [Acceptor] and [TcpServer], [Connector]
    and [TcpClient]; below it threads, mutexes, latches and a thread pool.  This
    development translates those classes, method by method, into executable
    definitions and proves what makes each of them correct.

    ** How the code is read

    A method is a function from the object's state to an [outcome] of its new
    state.  The build never defines [NDEBUG], so a false [assert] is the outcome
    [Fail AssertFailure]; [abort()] is [Aborted], undefined behaviour is [UB] and
    an exception of [std::vector] is [LengthError].  "Nothing aborts" is thus a
    statement that the outcome is [Ok].  Machine integers are [Z], wrapped where
    the code's type wraps and [UB] where signed arithmetic overflows.  There is
    no fuel: loops over containers are structural recursions, and what runs for
    ever ([EventLoop::loop], the threads) is a step relation.

    Objects that code shares through pointers (channels, timers, connections)
    live in finite maps from addresses.  Kernel and C-library answers are inputs
    of the operations or parameters with documented laws ([EpollCtl], [EpollKernel],
    [Inet], [Descriptors], [Kernel], [readv_bounded], [write_ok]); so are user
    callbacks.

    ** The files

    - [Prelude]: outcomes and their monad, reasoning about them ([safe], [returns]),
      machine integers, list and map lemmas, shared tactics.
    - [Endian] (net/endian.h): byte orders of both kinds of host.
    - [Buffer] (net/buffer.h, .cpp): the vector with its two indices.
    - [Channel] (net/channel.h, .cpp): event masks and dispatch to callbacks.
    - [Poller] (net/poller.h, .cpp): the two pollers' common part and the type
      class of what a poller promises the loop.
    - [EPollPoller], [PollPoller] (net/poller/): the two implementations, each
      with its instance of the class.
    - [Reactor] (the channel side of net/eventloop.cpp, and
      [Channel::update]/[remove]): proved once, against the class.
    - [Timestamp] (base/timestamp.h, .cpp, base/atomic.h): times as int64_t with
      overflow, conversions with IEEE doubles, printing; atomic integers of any
      width.
    - [Sockets] (net/inetaddress.h, .cpp, the parts of net/socketsops.cpp and
      net/socket.cpp that compute something): addresses as the bytes of the union.
    - [SocketCalls] (the rest of net/socketsops.cpp and net/socket.cpp): the system
      calls as programs, how an acceptor sets its socket up, TCP_INFO as text.
    - [TimerQueue] (net/timer.h, timerid.h, timerqueue.h, .cpp): the two sets of
      timers, the timerfd, the heap of timers.
    - [EventLoop] (the threading side of net/eventloop.cpp): functors, wakeup and
      [loop()], as interleavings of the loop's thread with any others.
    - [LoopTimers] ([runAt], [runAfter], [runEvery], [cancel] of
      net/eventloop.cpp): [EventLoop]'s functors carrying other threads' calls to
      the [TimerQueue].
    - [EventLoopThreads] (net/eventloopthread.cpp, eventloopthreadpool.cpp): the
      handshake that starts an I/O thread, and the pool of loops.
    - [TcpConnection] (net/tcpconnection.h, .cpp): the connection's life, with
      its channel, buffers, queued functors and callbacks, and the weak callback
      (base/weakcallback.h) of a delayed [forceClose].
    - [ConnProgress]: that a connection's output and its shutdown arrive, by
      relations every operation respects.
    - [Echo] (net/tests/echoserver_unittest.cpp): an application, its callbacks as
      the user of a [TcpConnection].
    - [ConnChannel]: the same connection with its channel on a loop of [Reactor]
      with [EPollPoller].
    - [Sync] (base/mutex.h, condition.cpp, count_down_latch.cpp): a mutex that
      knows its holder, timed waits, the latch.
    - [Thread] (base/thread.h, .cpp, current_thread.h): the handshake of [start],
      and the thread's cached id and name.
    - [ThreadPool] (base/threadpool.h, .cpp): workers and callers over a bounded
      queue with two condition variables.
    - [PoolLife] (the rest of base/threadpool.cpp): [start] with the workers'
      callback, [stop] with its joins, and the destructor, in the owner's thread.
    - [Connector] (net/connector.h, .cpp): connecting, retrying, backing off.
    - [ConnectorLoop]: the connector with its channel as an object on a loop of
      [Reactor] with any poller, among the channels of others.
    - [TcpServer] (net/tcpserver.h, .cpp): names, the connection map, and what is
      posted on the connections' loops.
    - [Acceptor] (net/acceptor.h, .cpp): accepting, the idle descriptor, and the
      acceptor's life on a loop.
    - [TcpClient] (net/tcpclient.h, .cpp): the connections made of a connector's
      sockets, over the [Connector] model itself.
    - [ServerAccept]: a server with its acceptor and the sockets of its
      connections: who owns which descriptor.
    - [ServerConns]: a server with its [TcpConnection] objects: who calls whom, and
      when a connection is freed.
    - [ServerLife]: the destructor of such a server, and the connections it leaves.
    - [ClientConns]: the same for a client, its connector and its connections, to
      the client's destructor and beyond.
    - [ClientLoop]: such a client on one loop: polls, dispatches and the one queue of
      functors, which keep the order [ClientConns] asks for.
    - [LoopLife]: construction and destruction of an [EventLoop] and its
      [TimerQueue], with their channels and descriptors, against the class
      [Poller].
    - [LoopRun] ([loop] and [doPendingFunctors] of net/eventloop.cpp): polling,
      dispatch and functors in one machine, against the classes [Poller] and
      [Polls].
    - [LoopProgress]: the same machine in infinite executions: with a fair scheduler
      the loop gets things done.

    The layers meet in nine places.  [Channel] states dispatch for any world
    with a [ChannelStore], [TcpConnection] and [ConnectorLoop] instantiate it.
    [Reactor] uses pollers through the class [Poller] only, and [Acceptor] and
    [LoopLife] use [Reactor]'s lemmas about registered channels.  [LoopTimers],
    [TcpClient] and [ServerAccept] run the models below them, [EventLoop] with
    [TimerQueue], [Connector], and [TcpServer] with [Acceptor], as they are.
    [LoopRun] runs [Reactor] and [EventLoop] together, and refines [EventLoop].
    [ConnChannel] shows that the answers [TcpConnection] gives itself for its
    channel are those of [Reactor] and [EPollPoller]; [ConnectorLoop] runs the
    connector's operations with its channel on [Reactor] and refines [Connector],
    whose state it shares ([Connector C], [C] being a channel or the address of
    one).  [ServerConns] and [ClientConns] run [TcpServer] and [TcpClient] with
    their [TcpConnection]s and so prove what each assumes of the other; [ClientLoop]
    gives [ClientConns] the loop's order of events and functors.  [Echo] is an instance of the user callbacks
    that [TcpConnection] has as a parameter.  Otherwise [TcpConnection], [Connector] and
    [TcpServer] see their loop as the functors and timers they leave with it, which
    is the part of the loop that [EventLoop] and [TimerQueue] justify: a queued
    functor runs exactly once, in order; a timer fires when due.

    ** What the theorems show

    - Data: [Buffer.buffer_implements_queue] is a refinement of a byte queue by
      the index arithmetic; [integers_roundtrip], [readFd_receives],
      [find_first_line_end] and [shrink_keeps_contents] cover the other
      operations; [Timestamp.toString_roundtrip]; [constructors_encode],
      [address_roundtrip] and [isSelfConnect_compares_endpoints] for addresses.
    - Reactor: [EPollPoller.index_tracks_kernel] relates a channel's [index_] to
      the kernel's interest list in every execution, also when the kernel refuses
      what [update] asks of it;
      [Reactor.channel_lifecycle] is what a user of a channel may rely on with
      either poller; [handleEvent_dispatches], [poll_reports_all] and
      [poll_poller_reports] follow an event from the kernel to its callback;
      [loop_runs] puts the loop together: no step fails, active channels stay alive;
      [loop_progresses]: every functor is started and [quit] ends the loop, woken by
      nothing but the loop's own eventfd.
    - Timers: [timer_queue_invariant] (sets, heap and timerfd agree in every
      execution), [handleRead_fires_due], [cancel_effects]; through the loop,
      [run_calls_schedule] and [queued_timer_calls] (a cancelled timer never fires
      again, whichever threads took part).
    - Lives of objects: [loop_lifecycle] and [acceptor_lifecycle] account for
      every descriptor, channel and timer from constructor to destructor, and
      [server_owns_sockets] for the sockets of a server's connections.
    - System calls: [acceptor_listens] (the calls that set a listening socket up, and
      what each refusal leaves behind), [builds_differ] (VALGRIND builds and builds
      without accept4), [tcp_info_readable].
    - Threads: [no_lost_wakeup] and [functors_run_once_in_order] for every
      interleaving of [queueInLoop], [quit] and [loop];
      [startLoop_returns_running_loop] and [thread_handshake];
      [holder_is_exact] and [latch_opens]; [pool_runs_each_task_once],
      [pool_keeps_moving], [pool_finishes] and [pool_stop_returns] (termination, by
      measures) for the thread pool.
    - Connections: [connection_never_aborts], [connection_streams] (what was
      written plus what is buffered is what was accepted, in order) and
      [connection_lifecycle] (UP once, DOWN once) over all sequences of loop
      events, functors, user calls, single accesses of other threads' calls and
      delayed closes, the last also after the connection was freed;
      [connection_delivers] and [shutdown_completes] (output arrives, and then the
      end of it, after as many writes as there are bytes); [echo_replies] (what an
      application on top of all this says to its peer);
      [connection_runs_on_loop] (each operation is one of the real channel, and the
      kernel watches what the state says); [server_and_connections] and
      [client_and_connections] (owner, connections and references agree, nothing is
      freed early); [server_destroyed_cleanly] (a server on one loop may go before its
      connections); [client_on_one_loop] (the order of the latter's events and functors
      is the loop's doing);
      [connector_owns_one_socket], [connector_runs_on_loop] (on any poller, also when
      the descriptor has a new channel before the old one is deleted) and
      [retries_back_off];
      [server_tracks_connections]; [client_tracks_connection] and
      [destroyed_client_is_left_alone]; [acceptor_handles_every_answer].
    - Limits: the theorems about [expiry_tie_aborts], [retry_before_reset_aborts],
      [late_calls_are_fatal], [late_write_closes_twice], [stop_abandons_tasks_and_callers],
      [nested_run_deadlocks], [nested_run_hangs_stop], [startLoop_may_return_null],
      [timer_id_may_dangle],
      [busy_client_destructor_aborts], [second_stop_aborts],
      [destroyed_server_is_called] and their like exhibit executions in which the
      code aborts, hangs or loses data.  They mark where the assumptions of
      the theorems above come from.

    ** Assumptions

    The invariants of [TcpConnection], [Connector] and [TcpServer] range over all
    sequences of operations whose [op_ok] holds.  [op_ok] says what the
    surrounding code and the kernel guarantee (an event only for a channel that
    watches something; functors run on the loop) and which calls of the user the
    code does not survive, each of the latter with a theorem that exhibits the
    failure.

    Other threads' calls on a connection are not atomic.  Such a call reads [state_]
    and then writes it and queues a functor, and the loop may run between any two
    of these; each access is an operation of its own ([OpOther]), allowed whether or
    not the test before it would still succeed.  Excluded is only the write that
    comes after [handleClose] ([late_write_closes_twice]), and a connection that is
    freed while a functor with a raw pointer is queued ([late_calls_are_fatal]).  An
    operation of the loop's own thread (a handler, a functor, a callback with the
    calls it makes) is one step: other threads touch nothing of a connection but
    [state_], which they only change from [kConnected] to [kDisconnecting], and the
    mutex-protected queue.

    A wait on a condition variable may return for no reason; a task of the pool may
    call [run], and keeps its worker meanwhile.  [EPollPoller] is verified for a
    kernel that may refuse any change ([EpollCtl]); the layers that rely on being
    woken up ([epoll_poller] and what uses it, [ConnChannel]) assume one that grants
    what epoll_ctl(2) allows, the descriptors being open and resources sufficient
    ([EpollKernel]).

    Vectors hold fewer than 2^63 bytes ([vec_max]); the server's
    connection numbers stay below 2^31 - 1, where the C++ [int] would overflow;
    timestamps are below 2^63 microseconds.

    ** Not modelled

    Logging, typedefs and tag classes (base/log.h, types.h, copyable.h,
    net/callbacks.h), getters and the setters of callbacks, and the test programs
    except the echo server's callbacks (its [main] is the client of [TcpServer] and
    [EventLoop] that their own files describe).  Exceptions thrown by the
    tasks of a pool.  The singleton template, which is not used and does not compile.
    Of [EventLoop], [context_], which nothing reads.  Code under [__cplusplus >= 201103L]
    repeats the operations for rvalues (some of it behind a misspelt macro, so never
    compiled; the constructor of [Thread] there does not compile).

    ** Order of work

    The reactor and the connection, on which all else rests, came first; then
    threads and pool, connector and server; then acceptor and client, addresses,
    threads, latches, timed waits, and the compositions of loop and timers and of
    server and acceptor; then the whole loop, the connection on its channel, the
    server and the client with their connections, the system calls, the connector
    on its loop, and the client on its loop; then the progress of loop and
    connection, the life of the pool, the end of a server, and an application.
    What could follow is the server scheduled on its loops as [ClientLoop] schedules
    a client ([ServerConns] lets its functors and events come in any order, so
    nothing rests on that), and the destruction of a server with I/O threads, which
    joins them while connections may still be theirs. *)
From stdpp Require Export prelude.
From stdpp Require Import list numbers relations.
From Stdlib Require Export Lia.

Open Scope Z_scope.

(** ** Outcomes of C++ code

    The library is compiled with its assertions on ([CMakeLists.txt] never
    defines [NDEBUG]), so a failed [assert] ends the process.  A piece of code
    either returns a value or stops with one of these faults. *)
Inductive fault :=
  | AssertFailure   (* assert(...) is false *)
  | UB              (* the C++ standard gives the execution no meaning *)
  | LengthError     (* std::length_error, thrown by std::vector *)
  | Aborted.        (* abort() *)

Inductive outcome (A : Type) :=
  | Ok (a : A)
  | Fail (f : fault).
Arguments Ok {A} a.
Arguments Fail {A} f.

#[export] Instance fault_eq_dec : EqDecision fault.
Proof. solve_decision. Defined.
#[export] Instance outcome_eq_dec `{EqDecision A} : EqDecision (outcome A).
Proof. solve_decision. Defined.

#[export] Instance outcome_ret : MRet outcome := @Ok.
#[export] Instance outcome_bind : MBind outcome := λ A B k m,
  match m with Ok a => k a | Fail f => Fail f end.
#[export] Instance outcome_fmap : FMap outcome := λ A B g m,
  match m with Ok a => Ok (g a) | Fail f => Fail f end.

Definition assert_ (b : bool) : outcome unit :=
  if b then Ok tt else Fail AssertFailure.

Declare Scope kaycc_scope.
Delimit Scope kaycc_scope with kaycc.
Notation "'assert!' b ;; k" := (mbind (λ _, k) (assert_ b))
  (at level 100, b at level 99, right associativity) : kaycc_scope.
Open Scope kaycc_scope.

Definition is_ok {A} (m : outcome A) : bool :=
  match m with Ok _ => true | Fail _ => false end.

(** The result, or [d]: to name the states of a concrete execution. *)
Definition from_ok {A} (d : A) (m : outcome A) : A := match m with Ok a => a | Fail _ => d end.

Lemma outcome_bind_ok {A B} (m : outcome A) (k : A → outcome B) b :
  m ≫= k = Ok b ↔ ∃ a, m = Ok a ∧ k a = Ok b.
Proof.
  destruct m as [a|f]; simpl; split; [eauto| |done|].
  - by intros (? & [= <-] & ?).
  - by intros (? & [=] & _).
Qed.

Lemma outcome_bind_fail {A B} (m : outcome A) (k : A → outcome B) f :
  m ≫= k = Fail f ↔ m = Fail f ∨ ∃ a, m = Ok a ∧ k a = Fail f.
Proof.
  destruct m as [a|f']; simpl; split; eauto.
  - by intros [[=]|(? & [= <-] & ?)].
  - intros [= ->]. by left.
  - by intros [[= ->]|(? & [=] & _)].
Qed.

Lemma outcome_fmap_ok {A B} (g : A → B) (m : outcome A) b :
  g <$> m = Ok b ↔ ∃ a, m = Ok a ∧ b = g a.
Proof.
  destruct m as [a|f]; simpl; split; [|by intros (? & [= <-] & ->)|done|].
  - intros [= <-]. eauto.
  - by intros (? & [=] & _).
Qed.

Lemma assert_ok b : assert_ b = Ok tt ↔ b = true.
Proof. by destruct b. Qed.

Lemma assert_bind_true {A} b (k : outcome A) : b = true → (assert! b;; k) = k.
Proof. by intros ->. Qed.

Lemma assert_bind_false {A} b (k : outcome A) :
  b = false → (assert! b;; k) = Fail AssertFailure.
Proof. by intros ->. Qed.

Lemma assert_bind_ok {A} b (k : outcome A) r :
  (assert! b;; k) = Ok r ↔ b = true ∧ k = Ok r.
Proof. destruct b; simpl; split; [done| by intros [_ ?] | done | by intros [? _]]. Qed.

(** [safe m P]: [m] trips no assertion and does nothing undefined; when it
    returns (it may run out of memory), the result satisfies [P]. *)
Definition safe {A} (m : outcome A) (P : A → Prop) : Prop :=
  match m with Ok a => P a | Fail e => e = LengthError end.

Lemma safe_bind {A B} (m : outcome A) (k : A → outcome B) P Q :
  safe m P → (∀ a, P a → safe (k a) Q) → safe (m ≫= k) Q.
Proof. destruct m as [a|e]; simpl; [intros HP Hk; by apply Hk|by intros ->]. Qed.

Lemma safe_assert {A} b (k : outcome A) Q : b = true → safe k Q → safe (assert! b;; k) Q.
Proof. by intros ->. Qed.

Lemma safe_mono {A} (m : outcome A) (P Q : A → Prop) : safe m P → (∀ a, P a → Q a) → safe m Q.
Proof. destruct m as [a|e]; simpl; auto. Qed.

Lemma safe_ok {A} (m : outcome A) P a : safe m P → m = Ok a → P a.
Proof. by intros H ->. Qed.

(** [returns m P]: [m] returns, and what it returns satisfies [P]. *)
Definition returns {A} (m : outcome A) (P : A → Prop) : Prop :=
  match m with Ok a => P a | Fail _ => False end.

Lemma returns_iff {A} (m : outcome A) P : returns m P ↔ ∃ a, m = Ok a ∧ P a.
Proof.
  destruct m as [a|f]; simpl; split; [by exists a| |done|by intros (? & ? & _)].
  by intros (? & [= ->] & ?).
Qed.

Lemma returns_bind {A B} (m : outcome A) (k : A → outcome B) P Q :
  returns m P → (∀ a, P a → returns (k a) Q) → returns (m ≫= k) Q.
Proof. destruct m as [a|]; simpl; auto. Qed.

Lemma returns_mono {A} (m : outcome A) (P Q : A → Prop) :
  returns m P → (∀ a, P a → Q a) → returns m Q.
Proof. destruct m as [a|]; simpl; auto. Qed.

(** [inv_ok] takes a hypothesis [... = Ok _] about a chain of monadic calls
    apart, one equation per call. *)
Ltac inv_ok :=
  repeat match goal with
  | H : (assert! _;; _) = Ok _ |- _ => apply assert_bind_ok in H; destruct H as [? H]
  | H : _ ≫= _ = Ok _ |- _ => apply outcome_bind_ok in H; destruct H as (? & ? & H)
  | H : _ <$> _ = Ok _ |- _ => apply outcome_fmap_ok in H; destruct H as (? & ? & H)
  | H : assert_ _ = Ok _ |- _ => apply assert_ok in H
  | H : mret _ = Ok _ |- _ => injection H as H
  | H : Ok _ = Ok _ |- _ => injection H as H
  | H : Fail _ = Ok _ |- _ => discriminate H
  | H : (_, _) = (_, _) |- _ => injection H as H
  | H : unit |- _ => destruct H
  end.

(** ** Machine integers

    A [w]-bit unsigned integer is a [Z] in [0, 2^w); [u64] and its brothers
    are the conversion to that type.  [swrap w] is the conversion to the
    two's-complement signed type. *)
Definition uwrap (w z : Z) : Z := z mod 2 ^ w.
Definition swrap (w z : Z) : Z := (z + 2 ^ (w - 1)) mod 2 ^ w - 2 ^ (w - 1).
Abbreviation u8 := (uwrap 8).
Abbreviation u16 := (uwrap 16).
Abbreviation u32 := (uwrap 32).
Abbreviation u64 := (uwrap 64).
Abbreviation s8 := (swrap 8).
Abbreviation s16 := (swrap 16).
Abbreviation s32 := (swrap 32).
Abbreviation s64 := (swrap 64).

Definition in_signed (w z : Z) : Prop := - 2 ^ (w - 1) ≤ z < 2 ^ (w - 1).

Lemma uwrap_small w z : 0 ≤ z < 2 ^ w → uwrap w z = z.
Proof. apply Z.mod_small. Qed.

Lemma uwrap_range w z : 0 ≤ w → 0 ≤ uwrap w z < 2 ^ w.
Proof. intros. apply Z.mod_pos_bound. lia. Qed.

Lemma pow2_half w : 0 < w → 2 ^ w = 2 * 2 ^ (w - 1).
Proof. intros. rewrite <-Z.pow_succ_r by lia. f_equal; lia. Qed.

Lemma swrap_small w z : 0 < w → in_signed w z → swrap w z = z.
Proof.
  unfold swrap, in_signed. intros Hw Hz. pose proof (pow2_half w Hw).
  rewrite Z.mod_small by lia. lia.
Qed.

Lemma swrap_range w z : 0 < w → in_signed w (swrap w z).
Proof.
  unfold swrap, in_signed. intros Hw. pose proof (pow2_half w Hw).
  pose proof (Z.mod_pos_bound (z + 2 ^ (w - 1)) (2 ^ w)). lia.
Qed.

Lemma swrap_uwrap w z : 0 ≤ w → swrap w (uwrap w z) = swrap w z.
Proof. intros. unfold swrap, uwrap. by rewrite Zplus_mod_idemp_l. Qed.

Lemma swrap_eqm w z : ∃ k, swrap w z = z - k * 2 ^ w.
Proof.
  unfold swrap. exists ((z + 2 ^ (w - 1)) / 2 ^ w).
  pose proof (Z_div_mod_eq_full (z + 2 ^ (w - 1)) (2 ^ w)). lia.
Qed.

Lemma uwrap_swrap w z : 0 ≤ w → uwrap w (swrap w z) = uwrap w z.
Proof.
  intros. destruct (swrap_eqm w z) as [k ->]. unfold uwrap.
  rewrite <-(Z.mod_add z (-k) (2 ^ w)) by (pose proof (Z.pow_pos_nonneg 2 w); lia).
  f_equal. lia.
Qed.

(** ** Arrays of chars

    [sz] is the [size()] of a vector or string, as a [size_t]. *)
Definition sz {A} (l : list A) : Z := Z.of_nat (length l).

Lemma sz_nonneg {A} (l : list A) : 0 ≤ sz l.
Proof. unfold sz. lia. Qed.
Lemma sz_app {A} (l k : list A) : sz (l ++ k) = sz l + sz k.
Proof. unfold sz. rewrite length_app. lia. Qed.
Lemma sz_nil {A} : sz (@nil A) = 0.
Proof. done. Qed.
Lemma sz_cons {A} (x : A) l : sz (x :: l) = 1 + sz l.
Proof. unfold sz. simpl. lia. Qed.
Lemma sz_replicate {A} n (x : A) : sz (replicate n x) = Z.of_nat n.
Proof. unfold sz. by rewrite length_replicate. Qed.
Lemma sz_take {A} n (l : list A) : sz (take n l) = Z.min (Z.of_nat n) (sz l).
Proof. unfold sz. rewrite length_take. lia. Qed.
Lemma sz_drop {A} n (l : list A) : sz (drop n l) = Z.max 0 (sz l - Z.of_nat n).
Proof. unfold sz. rewrite length_drop. lia. Qed.
Lemma sz_zero {A} (l : list A) : sz l = 0 ↔ l = [].
Proof. unfold sz. destruct l; simpl; split; intros; (done || lia). Qed.

Create HintDb kaycc.
Create Rewrite HintDb sizes.
#[export] Hint Resolve sz_nonneg : kaycc.
#[export] Hint Rewrite @sz_app @sz_nil @sz_cons @sz_replicate @sz_take @sz_drop : sizes.

(** The [n] elements from offset [i]. *)
Definition slice {A} (i n : Z) (l : list A) : list A :=
  take (Z.to_nat n) (drop (Z.to_nat i) l).

(** [l] with the elements from offset [i] overwritten by [d]. *)
Definition splice {A} (i : Z) (d l : list A) : list A :=
  take (Z.to_nat i) l ++ d ++ drop (Z.to_nat i + length d) l.

Lemma sz_slice {A} i n (l : list A) :
  0 ≤ i → 0 ≤ n → i + n ≤ sz l → sz (slice i n l) = n.
Proof. intros. unfold slice. rewrite sz_take, sz_drop. lia. Qed.

Lemma sz_splice {A} i (d l : list A) :
  0 ≤ i → i + sz d ≤ sz l → sz (splice i d l) = sz l.
Proof.
  intros. unfold splice. rewrite !sz_app, sz_take, sz_drop. unfold sz in *. lia.
Qed.

Lemma slice_nil {A} i n (l : list A) : n ≤ 0 → slice i n l = [].
Proof. intros. unfold slice. by replace (Z.to_nat n) with 0%nat by lia. Qed.

Lemma slice_full {A} (l : list A) : slice 0 (sz l) l = l.
Proof. unfold slice, sz. rewrite Nat2Z.id. simpl. by rewrite firstn_all. Qed.

(** Growing an array at its end does not change what it held. *)
Lemma slice_app_l {A} i n (l k : list A) :
  0 ≤ i → i + n ≤ sz l → slice i n (l ++ k) = slice i n l.
Proof.
  intros. unfold slice, sz in *.
  destruct (decide (n ≤ 0)); [by replace (Z.to_nat n) with 0%nat by lia|].
  rewrite drop_app_le by lia. by rewrite take_app_le by (rewrite length_drop; lia).
Qed.

(** A slice is cut at any point. *)
Lemma slice_split {A} i n m (l : list A) :
  0 ≤ i → 0 ≤ n → 0 ≤ m → slice i (n + m) l = slice i n l ++ slice (i + n) m l.
Proof.
  intros. unfold slice. rewrite !Z2Nat.inj_add by lia.
  by rewrite <-take_take_drop, drop_drop.
Qed.

Lemma slice_splice_same {A} i (d l : list A) :
  0 ≤ i → i + sz d ≤ sz l → slice i (sz d) (splice i d l) = d.
Proof.
  intros. unfold slice, splice, sz in *. rewrite Nat2Z.id.
  rewrite drop_app_length' by (rewrite length_take; lia). by rewrite take_app_length.
Qed.

Lemma slice_splice_before {A} j n i (d l : list A) :
  0 ≤ j → 0 ≤ n → j + n ≤ i → i ≤ sz l → slice j n (splice i d l) = slice j n l.
Proof.
  intros. unfold splice. rewrite slice_app_l by (autorewrite with sizes; lia).
  unfold slice. rewrite skipn_firstn_comm, take_take. f_equal. lia.
Qed.

Lemma slice_splice_after {A} j n i (d l : list A) :
  0 ≤ i → i + sz d ≤ j → i + sz d ≤ sz l → slice j n (splice i d l) = slice j n l.
Proof.
  intros. unfold slice, splice, sz in *. f_equal.
  rewrite app_assoc, drop_app_ge by (rewrite length_app, length_take; lia).
  rewrite drop_drop, length_app, length_take. f_equal. lia.
Qed.

(** Writing right behind a slice extends it. *)
Lemma slice_splice_extend {A} i n (d l : list A) :
  0 ≤ i → 0 ≤ n → i + n + sz d ≤ sz l →
  slice i (n + sz d) (splice (i + n) d l) = slice i n l ++ d.
Proof.
  intros. pose proof (sz_nonneg d). rewrite slice_split by lia.
  rewrite slice_splice_before by lia. by rewrite slice_splice_same by lia.
Qed.

(** Writing right in front of a slice prepends to it. *)
Lemma slice_splice_prepend {A} i n (d l : list A) :
  0 ≤ i → 0 ≤ n → i + sz d + n ≤ sz l →
  slice i (sz d + n) (splice i d l) = d ++ slice (i + sz d) n l.
Proof.
  intros. pose proof (sz_nonneg d). rewrite slice_split by lia.
  rewrite slice_splice_same, slice_splice_after by lia. done.
Qed.

Lemma slice_written {A} i n (d l : list A) :
  0 ≤ i → sz d = n → i + n ≤ sz l → slice i n (splice i d l) = d.
Proof. intros ? <- ?. by apply slice_splice_same. Qed.

(** A write inside an array cut at its two ends. *)
Lemma splice_app {A} i (a d' d r : list A) :
  i = sz a → sz d' = sz d → splice i d (a ++ d' ++ r) = a ++ d ++ r.
Proof.
  unfold sz, splice. intros -> Hd. rewrite Nat2Z.id, take_app_length.
  rewrite <-drop_drop, drop_app_length. by rewrite drop_app_length' by lia.
Qed.

Lemma cut_at {A} i n (l : list A) : 0 ≤ i → 0 ≤ n → i + n ≤ sz l →
  ∃ a b r, l = a ++ b ++ r ∧ sz a = i ∧ sz b = n.
Proof.
  intros. exists (take (Z.to_nat i) l), (slice i n l), (drop (Z.to_nat n) (drop (Z.to_nat i) l)).
  split_and!; [by unfold slice; rewrite !take_drop|rewrite sz_take; lia|by apply sz_slice].
Qed.

(** Writes to separate places commute; writing what is there changes nothing. *)
Lemma splice_comm {A} i (d : list A) j e l :
  0 ≤ i → i + sz d ≤ j → j + sz e ≤ sz l →
  splice i d (splice j e l) = splice j e (splice i d l).
Proof.
  intros. pose proof (sz_nonneg d). pose proof (sz_nonneg e).
  destruct (cut_at i (sz d) l) as (a & b & r & -> & Ha & Hb); [lia..|].
  rewrite !sz_app in *.
  destruct (cut_at (j - i - sz d) (sz e) r) as (a' & b' & r' & -> & Ha' & Hb'); [lia..|].
  rewrite (splice_app i) by lia.
  rewrite !(app_assoc b), !(app_assoc a), (splice_app j) by (rewrite ?sz_app; lia).
  rewrite <-!(app_assoc a), <-!(app_assoc b), (splice_app i) by lia.
  rewrite !(app_assoc d), !(app_assoc a), (splice_app j) by (rewrite ?sz_app; lia). done.
Qed.

Lemma splice_same {A} i (d l : list A) :
  slice i (sz d) l = d → 0 ≤ i → i + sz d ≤ sz l → splice i d l = l.
Proof.
  intros Hs ??. pose proof (sz_nonneg d).
  destruct (cut_at i (sz d) l) as (a & b & r & -> & Ha & Hb); [lia..|].
  rewrite splice_app by lia. do 2 f_equal. rewrite <-Hs.
  unfold slice, sz in *. rewrite Nat2Z.id.
  replace (Z.to_nat i) with (length a) by lia. rewrite drop_app_length.
  replace (length d) with (length b) by lia. by rewrite take_app_length.
Qed.

Lemma slice_fill {A} (x : A) i n m l : 0 ≤ i → 0 ≤ n → i + n ≤ m → m ≤ sz l →
  slice i n (splice 0 (replicate (Z.to_nat m) x) l) = replicate (Z.to_nat n) x.
Proof.
  intros. unfold splice. simpl. rewrite slice_app_l by (rewrite ?sz_replicate; lia).
  unfold slice. rewrite drop_replicate, take_replicate. f_equal. lia.
Qed.

Fixpoint sumZ (l : list Z) : Z :=
  match l with [] => 0 | x :: l' => x + sumZ l' end.

Lemma sumZ_fmap_nonneg {A} (f : A → Z) l : (∀ x, 0 ≤ f x) → 0 ≤ sumZ (f <$> l).
Proof. intros Hf. induction l as [|x l]; csimpl; [done|]. specialize (Hf x). lia. Qed.

(** ** Reachability *)
(** An element that occurs once splits a list in one way. *)
Lemma split_at_unique {A} (x : A) l1 l2 : ∀ k1 k2,
  k1 ++ x :: k2 = l1 ++ x :: l2 → (x ∉ l1 ++ l2) → k1 = l1 ∧ k2 = l2.
Proof.
  induction l1 as [|y l1 IH]; intros [|z k1] k2 E Hn; cbn in *; simplify_eq; [done|..].
  - destruct Hn. apply elem_of_app. right. apply elem_of_cons. by left.
  - destruct Hn. apply elem_of_cons. by left.
  - apply not_elem_of_cons in Hn as [_ Hn]. by destruct (IH k1 k2) as [-> ->].
Qed.

Lemma rtc_invariant {S} (R : S → S → Prop) (I : S → Prop) :
  (∀ s s', I s → R s s' → I s') → ∀ s s', rtc R s s' → I s → I s'.
Proof. intros HR s s' Hrtc. induction Hrtc; eauto. Qed.
