(* ===== verification/Endian.v ===== *)
(** Object representation of integers and the byte-order conversions of
    [src/net/endian.h].

    The conversions are glibc's [htobeN]/[beNtoh]: the identity on a big-endian
    host and a byte swap on a little-endian one.  The host's byte order is an
    argument of everything here, so no theorem depends on the machine. *)
From S2P Require Import Prelude.
From Stdlib Require Import Strings.Byte.

Inductive endianness := LittleEndian | BigEndian.

Definition Z_of_byte (b : byte) : Z := Z.of_N (Byte.to_N b).
Definition byte_of_Z (z : Z) : byte :=
  match Byte.of_N (Z.to_N (u8 z)) with Some b => b | None => x00 end.

#[export] Instance byte_eq_decision : EqDecision byte := Byte.byte_eq_dec.

(** The [n] low-order bytes of [z], least significant first, and back. *)
Fixpoint le_encode (n : nat) (z : Z) : list byte :=
  match n with
  | O => []
  | S n' => byte_of_Z z :: le_encode n' (z / 256)
  end.

Fixpoint le_decode (bs : list byte) : Z :=
  match bs with
  | [] => 0
  | b :: bs' => Z_of_byte b + 256 * le_decode bs'
  end.

(** Network order: most significant byte first. *)
Definition be_encode (n : nat) (z : Z) : list byte := rev (le_encode n z).
Definition be_decode (bs : list byte) : Z := le_decode (rev bs).

(** The bytes of an [n]-byte integer in memory, and the unsigned integer an
    array of bytes holds. *)
Definition obj_bytes (host : endianness) (n : nat) (z : Z) : list byte :=
  match host with LittleEndian => le_encode n z | BigEndian => be_encode n z end.
Definition obj_value (host : endianness) (bs : list byte) : Z :=
  match host with LittleEndian => le_decode bs | BigEndian => be_decode bs end.

(** [htobe16/32/64] and [be16/32/64toh] are the same function. *)
Definition bswap (n : nat) (z : Z) : Z := le_decode (rev (le_encode n z)).
Definition htobe (host : endianness) (n : nat) (z : Z) : Z :=
  match host with
  | LittleEndian => bswap n z
  | BigEndian => uwrap (8 * Z.of_nat n) z
  end.

(** *** The functions of endian.h

    [networkToHost32] and [networkToHost16] take a [uint64_t] and narrow it
    only when they call [be32toh]/[be16toh]. *)
Definition hostToNetwork64 (host : endianness) (host64 : Z) : Z := htobe host 8 (u64 host64).
Definition hostToNetwork32 (host : endianness) (host32 : Z) : Z := htobe host 4 (u32 host32).
Definition hostToNetwork16 (host : endianness) (host16 : Z) : Z := htobe host 2 (u16 host16).
Definition networkToHost64 (host : endianness) (net64 : Z) : Z := htobe host 8 (u64 net64).
Definition networkToHost32 (host : endianness) (net32 : Z) : Z := htobe host 4 (u32 (u64 net32)).
Definition networkToHost16 (host : endianness) (net16 : Z) : Z := htobe host 2 (u16 (u64 net16)).

(** ** Bytes *)
Lemma Z_of_byte_range b : 0 ≤ Z_of_byte b < 256.
Proof.
  unfold Z_of_byte. pose proof (Byte.to_N_bounded b). lia.
Qed.

Lemma Z_of_byte_of_Z z : Z_of_byte (byte_of_Z z) = z mod 256.
Proof.
  unfold byte_of_Z, Z_of_byte, uwrap. change (2 ^ 8) with 256.
  pose proof (Z.mod_pos_bound z 256 ltac:(lia)).
  destruct (Byte.of_N (Z.to_N (z mod 256))) as [b|] eqn:E.
  - apply Byte.to_of_N in E. rewrite E. lia.
  - apply Byte.of_N_None_iff in E. lia.
Qed.

Lemma byte_of_Z_of_byte b : byte_of_Z (Z_of_byte b) = b.
Proof.
  unfold byte_of_Z, uwrap. change (2 ^ 8) with 256.
  rewrite Z.mod_small by apply Z_of_byte_range.
  unfold Z_of_byte. by rewrite N2Z.id, Byte.of_to_N.
Qed.

Lemma byte_of_Z_mod z : byte_of_Z (z mod 256) = byte_of_Z z.
Proof. unfold byte_of_Z, uwrap. change (2 ^ 8) with 256. by rewrite Zmod_mod. Qed.

(** ** Encoding and decoding are inverse *)
Lemma length_le_encode n z : length (le_encode n z) = n.
Proof. revert z; induction n; intros; simpl; auto. Qed.

Lemma length_be_encode n z : length (be_encode n z) = n.
Proof. unfold be_encode. by rewrite length_rev, length_le_encode. Qed.

Lemma length_obj_bytes host n z : length (obj_bytes host n z) = n.
Proof. destruct host; [apply length_le_encode | apply length_be_encode]. Qed.

Lemma pow256_succ n : 2 ^ (8 * Z.of_nat (S n)) = 256 * 2 ^ (8 * Z.of_nat n).
Proof. rewrite Nat2Z.inj_succ, Z.mul_succ_r, Z.add_comm, Z.pow_add_r by lia. done. Qed.

Lemma le_decode_encode n z : le_decode (le_encode n z) = uwrap (8 * Z.of_nat n) z.
Proof.
  unfold uwrap. revert z; induction n as [|n IH]; intros z; [by rewrite Z.mod_1_r|].
  cbn [le_encode le_decode]. rewrite IH, Z_of_byte_of_Z, pow256_succ.
  rewrite Z.rem_mul_r; [done|lia|]. apply Z.pow_pos_nonneg; lia.
Qed.

Lemma le_decode_range bs : 0 ≤ le_decode bs < 2 ^ (8 * sz bs).
Proof.
  induction bs as [|b bs IH]; [done|]. unfold sz in *. cbn [le_decode length].
  rewrite pow256_succ. pose proof (Z_of_byte_range b). lia.
Qed.

Lemma le_encode_decode bs : le_encode (length bs) (le_decode bs) = bs.
Proof.
  induction bs as [|b bs IH]; [done|]. cbn [le_decode length le_encode].
  pose proof (Z_of_byte_range b).
  replace (Z_of_byte b + 256 * le_decode bs) with (Z_of_byte b + le_decode bs * 256) by lia.
  f_equal.
  - rewrite <-byte_of_Z_mod, Z.mod_add by lia. by rewrite byte_of_Z_mod, byte_of_Z_of_byte.
  - by rewrite Z.div_add, Z.div_small, Z.add_0_l, IH by lia.
Qed.

Lemma le_encode_uwrap n z : le_encode n (uwrap (8 * Z.of_nat n) z) = le_encode n z.
Proof.
  pose proof (le_encode_decode (le_encode n z)) as H.
  rewrite length_le_encode, le_decode_encode in H. done.
Qed.

Lemma be_decode_encode n z : be_decode (be_encode n z) = uwrap (8 * Z.of_nat n) z.
Proof. unfold be_decode, be_encode. by rewrite rev_involutive, le_decode_encode. Qed.

(** Whatever the host's byte order, the memory of [htobe x] holds the bytes of
    [x] in network order, and [beNtoh] reads them back. *)
Lemma obj_bytes_htobe host n z : obj_bytes host n (htobe host n z) = be_encode n z.
Proof.
  destruct host; simpl; unfold bswap, be_encode.
  - pose proof (le_encode_decode (rev (le_encode n z))) as H.
    by rewrite length_rev, length_le_encode in H.
  - by rewrite le_encode_uwrap.
Qed.

Lemma htobe_obj_value host bs :
  htobe host (length bs) (obj_value host bs) = be_decode bs.
Proof.
  destruct host; simpl; unfold bswap, be_decode.
  - by rewrite le_encode_decode.
  - rewrite uwrap_small; [done|]. pose proof (le_decode_range (rev bs)) as H.
    unfold sz in H. by rewrite length_rev in H.
Qed.

Lemma obj_value_range host bs : 0 ≤ obj_value host bs < 2 ^ (8 * sz bs).
Proof.
  destruct host; simpl; [apply le_decode_range|].
  pose proof (le_decode_range (rev bs)) as H. unfold sz in *. by rewrite length_rev in H.
Qed.

Lemma obj_value_bytes host n z :
  obj_value host (obj_bytes host n z) = uwrap (8 * Z.of_nat n) z.
Proof. destruct host; simpl; [apply le_decode_encode | apply be_decode_encode]. Qed.

Lemma obj_bytes_value host bs : obj_bytes host (length bs) (obj_value host bs) = bs.
Proof.
  destruct host; simpl; [apply le_encode_decode|]. unfold be_encode, be_decode.
  rewrite <-(length_rev bs), le_encode_decode. apply rev_involutive.
Qed.

(** Arrays of one size are equal when the integers they hold are. *)
Lemma obj_value_inj host bs bs' :
  length bs = length bs' → obj_value host bs = obj_value host bs' → bs = bs'.
Proof. intros Hl Hv. rewrite <-(obj_bytes_value host bs), Hl, Hv. apply obj_bytes_value. Qed.

Lemma be_encode_inj n x y : uwrap (8 * Z.of_nat n) x = x → uwrap (8 * Z.of_nat n) y = y →
  be_encode n x = be_encode n y → x = y.
Proof. intros Hx Hy H. rewrite <-Hx, <-Hy, <-!be_decode_encode. by rewrite H. Qed.

Lemma be_encode_uwrap n z : be_encode n (uwrap (8 * Z.of_nat n) z) = be_encode n z.
Proof. unfold be_encode. by rewrite le_encode_uwrap. Qed.

(** [htobe] undoes itself, which is why one macro family serves both ways. *)
Lemma htobe_involutive host n z : htobe host n (htobe host n z) = uwrap (8 * Z.of_nat n) z.
Proof.
  pose proof (htobe_obj_value host (obj_bytes host n (htobe host n z))) as H.
  rewrite length_obj_bytes, obj_value_bytes, obj_bytes_htobe, be_decode_encode in H.
  rewrite <-H. f_equal. destruct host; simpl; unfold bswap.
  - pose proof (le_decode_range (rev (le_encode n z))) as R. unfold sz in R.
    rewrite length_rev, length_le_encode in R. symmetry. by apply uwrap_small.
  - unfold uwrap. by rewrite Zmod_mod.
Qed.
