(* ===== verification/Buffer.v ===== *)
(** [kaycc::net::Buffer] ([src/net/buffer.h], [src/net/buffer.cpp]): the
    application-level byte queue every connection reads into and writes from.

    A [Buffer] is a vector of chars and two [size_t] indices.  Pointers into the
    vector are offsets from [begin()]; a null pointer is [None].  All [size_t]
    arithmetic wraps at 64 bits.  Every operation is an [outcome]: an assertion
    that is false, an access outside the vector and a [std::length_error] are
    faults.

    The second half states what the class promises: [contents] is the queue of
    readable bytes, and every operation acts on it as the comments say. *)
From S2P Require Import Prelude Endian.
From Stdlib Require Import Strings.Byte.

(** ** std::vector<char>, std::copy, std::search, memchr *)

(** [vector<char>::max_size()] is [PTRDIFF_MAX]. *)
Definition vec_max : Z := 2 ^ 63 - 1.

Definition vec_resize (n : Z) (mem : list byte) : outcome (list byte) :=
  if n <=? vec_max
  then Ok (take (Z.to_nat n) mem ++ replicate (Z.to_nat n - length mem) x00)
  else Fail LengthError.

Definition read_mem (mem : list byte) (off n : Z) : outcome (list byte) :=
  if (0 <=? off) && (0 <=? n) && (off + n <=? sz mem)
  then Ok (slice off n mem) else Fail UB.

Definition write_mem (mem : list byte) (off : Z) (d : list byte) : outcome (list byte) :=
  if (0 <=? off) && (off + sz d <=? sz mem)
  then Ok (splice off d mem) else Fail UB.

(** [std::copy] inside one array, element by element from the front: what it
    reads may be what it wrote before. *)
Fixpoint copy_fwd (n : nat) (src dst : nat) (mem : list byte) : list byte :=
  match n with
  | O => mem
  | S n' =>
    match mem !! src with
    | Some c => copy_fwd n' (S src) (S dst) (<[dst := c]> mem)
    | None => mem
    end
  end.

(** [d_first] inside [first, last) is undefined behaviour. *)
Definition std_copy (mem : list byte) (first last d_first : Z) : outcome (list byte) :=
  if (0 <=? first) && (first <=? last) && (last <=? sz mem)
     && (0 <=? d_first) && (d_first + (last - first) <=? sz mem)
     && negb ((first <=? d_first) && (d_first <? last))
  then Ok (copy_fwd (Z.to_nat (last - first)) (Z.to_nat first) (Z.to_nat d_first) mem)
  else Fail UB.

(** Offset of the first occurrence of [pat], the length when there is none. *)
Fixpoint std_search (l pat : list byte) : nat :=
  if decide (pat `prefix_of` l) then O
  else match l with [] => O | _ :: l' => S (std_search l' pat) end.

Fixpoint memchr (c : byte) (l : list byte) : option nat :=
  match l with
  | [] => None
  | x :: l' => if decide (x = c) then Some O else S <$> memchr c l'
  end.

(** ** The class *)
Definition kCheapPrepend : Z := 8.
Definition kInitialSize : Z := 1024.
Definition kCRLF : list byte := [x0d; x0a].

Record Buffer := mkBuffer {
  buffer_ : list byte;
  readerIndex_ : Z;
  writerIndex_ : Z
}.

Definition readableBytes (b : Buffer) : Z := u64 (writerIndex_ b - readerIndex_ b).
Definition writableBytes (b : Buffer) : Z := u64 (sz (buffer_ b) - writerIndex_ b).
Definition prependableBytes (b : Buffer) : Z := readerIndex_ b.
Definition peek (b : Buffer) : Z := readerIndex_ b.
Definition beginWrite (b : Buffer) : Z := writerIndex_ b.

(** [explicit Buffer(size_t initialSize = kInitialSize)] *)
Definition Buffer_ctor (initialSize : Z) : outcome Buffer :=
  buf ← vec_resize (u64 (kCheapPrepend + initialSize)) [];
  let b := mkBuffer buf kCheapPrepend kCheapPrepend in
  assert! readableBytes b =? 0;;
  assert! writableBytes b =? kInitialSize;;
  assert! prependableBytes b =? kCheapPrepend;;
  Ok b.

Definition swap (b rhs : Buffer) : Buffer * Buffer := (rhs, b).

(** *** Searching *)
Definition findCRLF (b : Buffer) : outcome (option Z) :=
  l ← read_mem (buffer_ b) (peek b) (beginWrite b - peek b);
  let crlf := peek b + Z.of_nat (std_search l kCRLF) in
  Ok (if crlf =? beginWrite b then None else Some crlf).

Definition findCRLF_from (b : Buffer) (start : Z) : outcome (option Z) :=
  assert! peek b <=? start;;
  assert! start <=? beginWrite b;;
  l ← read_mem (buffer_ b) start (beginWrite b - start);
  let crlf := start + Z.of_nat (std_search l kCRLF) in
  Ok (if crlf =? beginWrite b then None else Some crlf).

Definition findEOL (b : Buffer) : outcome (option Z) :=
  l ← read_mem (buffer_ b) (peek b) (readableBytes b);
  Ok ((λ i, peek b + Z.of_nat i) <$> memchr x0a l).

Definition findEOL_from (b : Buffer) (start : Z) : outcome (option Z) :=
  assert! peek b <=? start;;
  assert! start <=? beginWrite b;;
  l ← read_mem (buffer_ b) start (u64 (beginWrite b - start));
  Ok ((λ i, start + Z.of_nat i) <$> memchr x0a l).

(** *** Taking bytes out *)
Definition retrieveAll (b : Buffer) : Buffer :=
  mkBuffer (buffer_ b) kCheapPrepend kCheapPrepend.

Definition retrieve (b : Buffer) (len : Z) : outcome Buffer :=
  assert! len <=? readableBytes b;;
  if len <? readableBytes b
  then Ok (mkBuffer (buffer_ b) (u64 (readerIndex_ b + len)) (writerIndex_ b))
  else Ok (retrieveAll b).

(** [end_] is C++'s [end]; the pointer difference is converted to [size_t]. *)
Definition retrieveUnitl (b : Buffer) (end_ : Z) : outcome Buffer :=
  assert! peek b <=? end_;;
  assert! end_ <=? beginWrite b;;
  retrieve b (u64 (end_ - peek b)).

Definition retrieveInt64 (b : Buffer) : outcome Buffer := retrieve b 8.
Definition retrieveInt32 (b : Buffer) : outcome Buffer := retrieve b 4.
Definition retrieveInt16 (b : Buffer) : outcome Buffer := retrieve b 2.
Definition retrieveInt8 (b : Buffer) : outcome Buffer := retrieve b 1.

Definition retrieveAsString (b : Buffer) (len : Z) : outcome (list byte * Buffer) :=
  assert! len <=? readableBytes b;;
  result ← read_mem (buffer_ b) (peek b) len;
  b' ← retrieve b len;
  Ok (result, b').

Definition retrieveAllAsString (b : Buffer) : outcome (list byte * Buffer) :=
  retrieveAsString b (readableBytes b).

(** *** Making room *)
Definition makeSpace (b : Buffer) (len : Z) : outcome Buffer :=
  if u64 (writableBytes b + prependableBytes b) <? u64 (len + kCheapPrepend)
  then
    buf ← vec_resize (u64 (writerIndex_ b + len)) (buffer_ b);
    Ok (mkBuffer buf (readerIndex_ b) (writerIndex_ b))
  else
    assert! kCheapPrepend <? readerIndex_ b;;
    let readable := readableBytes b in
    buf ← std_copy (buffer_ b) (readerIndex_ b) (writerIndex_ b) kCheapPrepend;
    let b' := mkBuffer buf kCheapPrepend (u64 (kCheapPrepend + readable)) in
    assert! readable =? readableBytes b';;
    Ok b'.

Definition ensureWritableBytes (b : Buffer) (len : Z) : outcome Buffer :=
  b' ← (if writableBytes b <? len then makeSpace b len else Ok b);
  assert! len <=? writableBytes b';;
  Ok b'.

(** *** Putting bytes in

    [append(data, len)] gets the [len] chars at [data] as a list; the overload
    on [const void*] only casts. *)
Definition hasWritten (b : Buffer) (len : Z) : outcome Buffer :=
  assert! len <=? writableBytes b;;
  Ok (mkBuffer (buffer_ b) (readerIndex_ b) (u64 (writerIndex_ b + len))).

Definition unwrite (b : Buffer) (len : Z) : outcome Buffer :=
  assert! len <=? readableBytes b;;
  Ok (mkBuffer (buffer_ b) (readerIndex_ b) (u64 (writerIndex_ b - len))).

Definition append (b : Buffer) (data : list byte) : outcome Buffer :=
  b1 ← ensureWritableBytes b (sz data);
  buf ← write_mem (buffer_ b1) (beginWrite b1) data;
  hasWritten (mkBuffer buf (readerIndex_ b1) (writerIndex_ b1)) (sz data).

Definition prepend (b : Buffer) (data : list byte) : outcome Buffer :=
  assert! sz data <=? prependableBytes b;;
  let r := u64 (readerIndex_ b - sz data) in
  buf ← write_mem (buffer_ b) r data;
  Ok (mkBuffer buf r (writerIndex_ b)).

Definition shrink (b : Buffer) (reserve : Z) : outcome Buffer :=
  other ← Buffer_ctor kInitialSize;
  other ← ensureWritableBytes other (u64 (readableBytes b + reserve));
  data ← read_mem (buffer_ b) (peek b) (readableBytes b);
  other ← append other data;
  Ok (swap b other).1.

(** *** Integers in network order *)
Section Integers.
Context (host : endianness).

Definition appendInt64 (b : Buffer) (x : Z) : outcome Buffer :=
  let be64 := s64 (hostToNetwork64 host x) in append b (obj_bytes host 8 be64).
Definition appendInt32 (b : Buffer) (x : Z) : outcome Buffer :=
  let be32 := s32 (hostToNetwork32 host x) in append b (obj_bytes host 4 be32).
Definition appendInt16 (b : Buffer) (x : Z) : outcome Buffer :=
  let be16 := s16 (hostToNetwork16 host x) in append b (obj_bytes host 2 be16).
Definition appendInt8 (b : Buffer) (x : Z) : outcome Buffer :=
  append b (obj_bytes host 1 x).

Definition peekInt64 (b : Buffer) : outcome Z :=
  assert! 8 <=? readableBytes b;;
  mem ← read_mem (buffer_ b) (peek b) 8;
  let be64 := s64 (obj_value host mem) in
  Ok (s64 (networkToHost64 host be64)).
Definition peekInt32 (b : Buffer) : outcome Z :=
  assert! 4 <=? readableBytes b;;
  mem ← read_mem (buffer_ b) (peek b) 4;
  let be32 := s32 (obj_value host mem) in
  Ok (s32 (networkToHost32 host be32)).
(** [peekInt16] copies the two bytes and then runs off its end: no [return]. *)
Definition peekInt16 (b : Buffer) : outcome Z :=
  assert! 2 <=? readableBytes b;;
  mem ← read_mem (buffer_ b) (peek b) 2;
  let be16 := s16 (obj_value host mem) in
  Fail UB.
Definition peekInt8 (b : Buffer) : outcome Z :=
  assert! 1 <=? readableBytes b;;
  mem ← read_mem (buffer_ b) (peek b) 1;
  Ok (s8 (obj_value host mem)).

Definition readInt64 (b : Buffer) : outcome (Z * Buffer) :=
  result ← peekInt64 b; b' ← retrieveInt64 b; Ok (result, b').
Definition readInt32 (b : Buffer) : outcome (Z * Buffer) :=
  result ← peekInt32 b; b' ← retrieveInt32 b; Ok (result, b').
Definition readInt16 (b : Buffer) : outcome (Z * Buffer) :=
  result ← peekInt16 b; b' ← retrieveInt16 b; Ok (result, b').
Definition readInt8 (b : Buffer) : outcome (Z * Buffer) :=
  result ← peekInt8 b; b' ← retrieveInt8 b; Ok (result, b').

Definition prependInt64 (b : Buffer) (x : Z) : outcome Buffer :=
  let be64 := s64 (hostToNetwork64 host x) in prepend b (obj_bytes host 8 be64).
Definition prependInt32 (b : Buffer) (x : Z) : outcome Buffer :=
  let be32 := s32 (hostToNetwork32 host x) in prepend b (obj_bytes host 4 be32).
Definition prependInt16 (b : Buffer) (x : Z) : outcome Buffer :=
  let be16 := s16 (hostToNetwork16 host x) in prepend b (obj_bytes host 2 be16).
Definition prependInt8 (b : Buffer) (x : Z) : outcome Buffer :=
  prepend b (obj_bytes host 1 x).
End Integers.

(** *** Reading from a descriptor

    [readv] is the kernel: given the lengths of the iovec entries it answers
    with an errno or with the bytes it delivers, which fill the entries in
    order.  The result is the new buffer, the return value and the value stored
    in [savedErrno], if one is. *)
Definition extrabuf_size : Z := 65536.

Definition readFd (readv : list Z → Z + list byte) (b : Buffer)
    : outcome (Buffer * Z * option Z) :=
  let writable := writableBytes b in
  let vec := if writable <? extrabuf_size then [writable; extrabuf_size] else [writable] in
  match readv vec with
  | inl errno => Ok (b, -1, Some errno)
  | inr data =>
    let n := sz data in
    buf ← write_mem (buffer_ b) (writerIndex_ b) (take (Z.to_nat writable) data);
    let extrabuf := drop (Z.to_nat writable) data in
    if n <=? writable
    then Ok (mkBuffer buf (readerIndex_ b) (u64 (writerIndex_ b + n)), n, None)
    else
      b' ← append (mkBuffer buf (readerIndex_ b) (sz buf)) (take (Z.to_nat (n - writable)) extrabuf);
      Ok (b', n, None)
  end.

(** ** What the class promises

    [wf] is the picture at the top of buffer.h:
    [0 <= readerIndex <= writerIndex <= size]. *)
Definition wf (b : Buffer) : Prop :=
  0 ≤ readerIndex_ b ∧ readerIndex_ b ≤ writerIndex_ b ∧
  writerIndex_ b ≤ sz (buffer_ b) ∧ sz (buffer_ b) ≤ vec_max.

(** The queue of readable bytes. *)
Definition contents (b : Buffer) : list byte :=
  slice (readerIndex_ b) (writerIndex_ b - readerIndex_ b) (buffer_ b).

(** [room_kept k b b']: the space in front of the queue is still there, up to
    the 8 cheap bytes; the vector did not shrink; and the queue ends at most [k]
    bytes further back. *)
Definition room_kept (k : Z) (b b' : Buffer) : Prop :=
  Z.min kCheapPrepend (readerIndex_ b) ≤ readerIndex_ b' ∧
  sz (buffer_ b) ≤ sz (buffer_ b') ∧
  writerIndex_ b' ≤ Z.max kCheapPrepend (writerIndex_ b) + k.

(** Numeric side conditions about indices. *)
Ltac bwf :=
  unfold wf, room_kept, vec_max, kCheapPrepend, kInitialSize, extrabuf_size, peek, beginWrite in *;
  cbn [buffer_ readerIndex_ writerIndex_] in *;
  repeat match goal with
  | |- context [sz ?l] => lazymatch goal with H : 0 ≤ sz l |- _ => fail | _ => pose proof (sz_nonneg l) end
  end; lia.

Lemma readable_eq b : wf b → readableBytes b = writerIndex_ b - readerIndex_ b.
Proof. intros. apply uwrap_small. bwf. Qed.

Lemma writable_eq b : wf b → writableBytes b = sz (buffer_ b) - writerIndex_ b.
Proof. intros. apply uwrap_small. bwf. Qed.

Lemma sz_contents b : wf b → sz (contents b) = writerIndex_ b - readerIndex_ b.
Proof. intros. apply sz_slice; bwf. Qed.

Lemma readable_contents b : wf b → readableBytes b = sz (contents b).
Proof. intros. by rewrite readable_eq, sz_contents. Qed.

Lemma read_mem_ok mem off n :
  0 ≤ off → 0 ≤ n → off + n ≤ sz mem → read_mem mem off n = Ok (slice off n mem).
Proof.
  intros. unfold read_mem.
  by rewrite (proj2 (Z.leb_le 0 off)), (proj2 (Z.leb_le 0 n)), (proj2 (Z.leb_le (off + n) _)).
Qed.

Lemma write_mem_ok mem off d :
  0 ≤ off → off + sz d ≤ sz mem → write_mem mem off d = Ok (splice off d mem).
Proof.
  intros. unfold write_mem.
  by rewrite (proj2 (Z.leb_le 0 off)), (proj2 (Z.leb_le (off + sz d) _)).
Qed.

Lemma vec_resize_ok n mem :
  sz mem ≤ n → n ≤ vec_max →
  vec_resize n mem = Ok (mem ++ replicate (Z.to_nat n - length mem) x00).
Proof.
  intros. unfold vec_resize. rewrite (proj2 (Z.leb_le _ _)) by done.
  rewrite firstn_all2; [done|]. unfold sz in *. lia.
Qed.

Lemma sz_grown n (mem : list byte) :
  sz mem ≤ n → sz (mem ++ replicate (Z.to_nat n - length mem) x00) = n.
Proof. intros. autorewrite with sizes. unfold sz in *. lia. Qed.

(** *** std::copy towards the front of an array *)
Lemma copy_fwd_lookup n src dst mem i :
  (dst < src)%nat → (src + n ≤ length mem)%nat →
  copy_fwd n src dst mem !! i =
    if decide (dst ≤ i < dst + n)%nat then mem !! (src + (i - dst))%nat else mem !! i.
Proof.
  revert src dst mem. induction n as [|n IH]; intros src dst mem Hlt Hlen; simpl.
  { rewrite decide_False by lia. done. }
  destruct (mem !! src) as [c|] eqn:Hc; [|apply lookup_ge_None in Hc; lia].
  rewrite IH by (rewrite ?length_insert; lia).
  destruct (decide (i = dst)) as [->|Hne].
  - rewrite decide_False, list_lookup_insert_eq, decide_True by lia.
    by rewrite Nat.sub_diag, Nat.add_0_r.
  - repeat case_decide; try lia.
    + rewrite list_lookup_insert_ne by lia. f_equal. lia.
    + by rewrite list_lookup_insert_ne by lia.
Qed.

Lemma length_copy_fwd n src dst mem : length (copy_fwd n src dst mem) = length mem.
Proof.
  revert src dst mem. induction n as [|n IH]; intros; simpl; [done|].
  destruct (mem !! src); [|done]. by rewrite IH, length_insert.
Qed.

Lemma std_copy_front mem first n d :
  0 ≤ d → d < first → 0 ≤ n → first + n ≤ sz mem →
  ∃ mem', std_copy mem first (first + n) d = Ok mem' ∧ sz mem' = sz mem ∧
          slice d n mem' = slice first n mem.
Proof.
  intros. exists (copy_fwd (Z.to_nat n) (Z.to_nat first) (Z.to_nat d) mem).
  split_and!.
  - unfold std_copy. rewrite !(proj2 (Z.leb_le _ _)) by lia.
    rewrite (proj2 (Z.leb_gt first d)) by lia. simpl. do 2 f_equal. lia.
  - unfold sz. by rewrite length_copy_fwd.
  - unfold slice, sz in *. apply list_eq. intros i.
    destruct (decide (i < Z.to_nat n)%nat).
    + rewrite !lookup_take_lt, !lookup_drop by lia.
      rewrite copy_fwd_lookup by lia. rewrite decide_True by lia. f_equal. lia.
    + by rewrite !lookup_take_ge by lia.
Qed.

(** *** Making room keeps the queue *)
Lemma makeSpace_spec b len :
  wf b → writableBytes b < len → len ≤ vec_max →
  (∃ b', makeSpace b len = Ok b' ∧ wf b' ∧ contents b' = contents b ∧
         len ≤ sz (buffer_ b') - writerIndex_ b' ∧ room_kept 0 b b') ∨
  (makeSpace b len = Fail LengthError ∧ vec_max < writerIndex_ b + len).
Proof.
  intros Hwf Hlt Hlen. rewrite writable_eq in Hlt by done. unfold makeSpace.
  rewrite writable_eq by done. unfold prependableBytes.
  rewrite !uwrap_small by bwf.
  destruct (Z.ltb_spec (sz (buffer_ b) - writerIndex_ b + readerIndex_ b) (len + kCheapPrepend)).
  - destruct (decide (writerIndex_ b + len ≤ vec_max)).
    + left. rewrite vec_resize_ok by bwf. simpl. eexists; split; [done|].
      pose proof (sz_grown (writerIndex_ b + len) (buffer_ b) ltac:(bwf)) as Hs.
      split_and!; [bwf|unfold contents; simpl; apply slice_app_l; bwf|bwf..].
    + right. split; [|lia]. unfold vec_resize.
      rewrite (proj2 (Z.leb_gt _ _)) by lia. done.
  - left. rewrite (proj2 (Z.ltb_lt kCheapPrepend _)) by bwf. simpl.
    rewrite readable_eq by done.
    destruct (std_copy_front (buffer_ b) (readerIndex_ b) (writerIndex_ b - readerIndex_ b)
      kCheapPrepend) as (mem & Hc & Hs & Hsl); [bwf..|].
    rewrite Zplus_minus in Hc. rewrite Hc. simpl.
    rewrite uwrap_small by bwf.
    rewrite readable_eq by (unfold wf; simpl; bwf). simpl.
    rewrite (proj2 (Z.eqb_eq _ _)) by lia. simpl. eexists; split; [done|].
    split_and!; unfold wf, contents; simpl; [bwf..| |bwf|bwf].
    rewrite <-Hsl. f_equal. lia.
Qed.

Lemma ensureWritableBytes_spec b len :
  wf b → 0 ≤ len ≤ vec_max →
  (∃ b', ensureWritableBytes b len = Ok b' ∧ wf b' ∧ contents b' = contents b ∧
         len ≤ sz (buffer_ b') - writerIndex_ b' ∧ room_kept 0 b b') ∨
  (ensureWritableBytes b len = Fail LengthError ∧ vec_max < writerIndex_ b + len).
Proof.
  intros Hwf Hlen. unfold ensureWritableBytes.
  destruct (Z.ltb_spec (writableBytes b) len) as [Hlt|Hge].
  - destruct (makeSpace_spec b len) as [(b' & -> & Hwf' & ? & ? & ?)|[-> ?]]; [done..|lia| |].
    + left. simpl. rewrite writable_eq by done. rewrite (proj2 (Z.leb_le _ _)) by done. eauto 7.
    + by right.
  - left. simpl. rewrite writable_eq in * by done.
    rewrite (proj2 (Z.leb_le _ _)) by done. simpl. eexists; split; [done|]. split_and!; try done; bwf.
Qed.

Lemma hasWritten_spec b len :
  wf b → 0 ≤ len ≤ writableBytes b →
  ∃ b', hasWritten b len = Ok b' ∧ wf b' ∧
        buffer_ b' = buffer_ b ∧ readerIndex_ b' = readerIndex_ b ∧
        writerIndex_ b' = writerIndex_ b + len.
Proof.
  intros Hwf Hlen. rewrite writable_eq in Hlen by done. unfold hasWritten.
  rewrite writable_eq by done. rewrite (proj2 (Z.leb_le _ _)) by lia. simpl.
  eexists; split; [done|]. rewrite uwrap_small by bwf. split_and!; simpl; first [done | bwf].
Qed.

(** Storing [d] at [beginWrite] and advancing over it appends [d]. *)
Lemma write_advance b d :
  wf b → sz d ≤ sz (buffer_ b) - writerIndex_ b →
  wf (mkBuffer (splice (writerIndex_ b) d (buffer_ b)) (readerIndex_ b) (writerIndex_ b + sz d)) ∧
  contents (mkBuffer (splice (writerIndex_ b) d (buffer_ b)) (readerIndex_ b)
    (writerIndex_ b + sz d)) = contents b ++ d.
Proof.
  intros Hwf Hd. split.
  - unfold wf; simpl. rewrite sz_splice by bwf. bwf.
  - unfold contents; simpl. pose proof (slice_splice_extend (readerIndex_ b)
      (writerIndex_ b - readerIndex_ b) d (buffer_ b)) as H.
    rewrite Zplus_minus in H. rewrite <-H by bwf. f_equal. lia.
Qed.

Lemma append_spec b d :
  wf b → sz d ≤ vec_max →
  (∃ b', append b d = Ok b' ∧ wf b' ∧ contents b' = contents b ++ d ∧ room_kept (sz d) b b') ∨
  (append b d = Fail LengthError ∧ vec_max < writerIndex_ b + sz d).
Proof.
  intros Hwf Hd. pose proof (sz_nonneg d). unfold append.
  destruct (ensureWritableBytes_spec b (sz d)) as [(b1 & -> & Hwf1 & Hc & Hroom & Hr)|[-> ?]];
    [done|lia| |by right].
  left. simpl. unfold beginWrite. rewrite write_mem_ok by bwf. simpl.
  destruct (write_advance b1 d) as [Hwf2 Hc2]; [done..|].
  unfold hasWritten. rewrite writable_eq by (unfold wf; simpl; rewrite sz_splice; bwf).
  simpl. rewrite sz_splice by bwf. rewrite (proj2 (Z.leb_le _ _)) by done. simpl.
  rewrite uwrap_small by bwf. rewrite Hc in Hc2. eexists; split; [done|].
  split_and!; [done..|]. pose proof (sz_splice (writerIndex_ b1) d (buffer_ b1)). bwf.
Qed.

(** The case a caller can rely on: there is address space for the result. *)
Lemma append_ok b d :
  wf b → writerIndex_ b + sz d ≤ vec_max →
  ∃ b', append b d = Ok b' ∧ wf b' ∧ contents b' = contents b ++ d ∧ room_kept (sz d) b b'.
Proof.
  intros Hwf Hd. destruct (append_spec b d) as [?|[_ ?]]; [done|bwf|done|lia].
Qed.

Lemma retrieveAll_spec b : wf b → kCheapPrepend ≤ sz (buffer_ b) →
  wf (retrieveAll b) ∧ contents (retrieveAll b) = [].
Proof.
  intros. unfold retrieveAll. split; [unfold wf; simpl; bwf|].
  unfold contents; simpl. apply slice_nil. lia.
Qed.

Lemma retrieve_spec b len :
  wf b → kCheapPrepend ≤ sz (buffer_ b) → 0 ≤ len →
  if decide (len ≤ sz (contents b))
  then ∃ b', retrieve b len = Ok b' ∧ wf b' ∧ contents b' = drop (Z.to_nat len) (contents b) ∧
             buffer_ b' = buffer_ b ∧ room_kept 0 b b'
  else retrieve b len = Fail AssertFailure.
Proof.
  intros Hwf Hsz Hlen. unfold retrieve. rewrite readable_contents by done. case_decide as Hd.
  - rewrite (proj2 (Z.leb_le _ _)) by done. simpl. destruct (Z.ltb_spec len (sz (contents b))).
    + eexists; split; [done|]. rewrite sz_contents in * by done.
      rewrite uwrap_small by bwf. split_and!; simpl; [bwf| |done|bwf].
      unfold contents; simpl. unfold slice. rewrite skipn_firstn_comm, drop_drop. f_equal; [lia|].
      f_equal. rewrite Z2Nat.inj_add by bwf. done.
    + eexists; split; [done|]. destruct (retrieveAll_spec b Hwf Hsz) as [? ->].
      split_and!; [done| |done|unfold retrieveAll; bwf].
      rewrite drop_ge; [done|]. unfold sz in *. lia.
  - rewrite (proj2 (Z.leb_gt _ _)) by lia. done.
Qed.

Lemma prepend_spec b d :
  wf b →
  if decide (sz d ≤ readerIndex_ b)
  then ∃ b', prepend b d = Ok b' ∧ wf b' ∧ contents b' = d ++ contents b ∧
             readerIndex_ b' = readerIndex_ b - sz d ∧ writerIndex_ b' = writerIndex_ b ∧
             sz (buffer_ b') = sz (buffer_ b)
  else prepend b d = Fail AssertFailure.
Proof.
  intros Hwf. pose proof (sz_nonneg d). unfold prepend, prependableBytes. case_decide.
  - rewrite (proj2 (Z.leb_le _ _)) by done. simpl. rewrite uwrap_small by bwf.
    rewrite write_mem_ok by bwf. simpl. eexists; split; [done|].
    split_and!; [unfold wf; simpl; rewrite sz_splice; bwf| |done|done|simpl; rewrite sz_splice; bwf].
    unfold contents; simpl.
    pose proof (slice_splice_prepend (readerIndex_ b - sz d) (writerIndex_ b - readerIndex_ b) d
      (buffer_ b)) as Hp.
    rewrite Z.sub_add in Hp. rewrite <-Hp by bwf. f_equal. lia.
  - rewrite (proj2 (Z.leb_gt _ _)) by lia. done.
Qed.

Lemma unwrite_spec b len :
  wf b → 0 ≤ len →
  if decide (len ≤ sz (contents b))
  then ∃ b', unwrite b len = Ok b' ∧ wf b' ∧
             contents b' = take (Z.to_nat (sz (contents b) - len)) (contents b) ∧
             buffer_ b' = buffer_ b ∧ readerIndex_ b' = readerIndex_ b ∧
             writerIndex_ b' ≤ writerIndex_ b
  else unwrite b len = Fail AssertFailure.
Proof.
  intros Hwf Hlen. unfold unwrite. rewrite readable_contents by done. case_decide.
  - rewrite (proj2 (Z.leb_le _ _)) by done. simpl. rewrite sz_contents in * by done.
    rewrite uwrap_small by bwf. eexists; split; [done|].
    split_and!; [bwf| |done|done|bwf].
    unfold contents; simpl. unfold slice. rewrite take_take. f_equal. lia.
  - rewrite (proj2 (Z.leb_gt _ _)) by lia. done.
Qed.

Lemma retrieveAsString_spec b len :
  wf b → kCheapPrepend ≤ sz (buffer_ b) → 0 ≤ len →
  if decide (len ≤ sz (contents b))
  then ∃ b', retrieveAsString b len = Ok (take (Z.to_nat len) (contents b), b') ∧ wf b' ∧
             contents b' = drop (Z.to_nat len) (contents b) ∧ buffer_ b' = buffer_ b ∧
             room_kept 0 b b'
  else retrieveAsString b len = Fail AssertFailure.
Proof.
  intros Hwf Hsz Hlen. pose proof (retrieve_spec b len Hwf Hsz Hlen) as Hr.
  unfold retrieveAsString. rewrite readable_contents by done. case_decide as Hd.
  - destruct Hr as (b' & Hr & ? & ? & ? & ?). rewrite (proj2 (Z.leb_le _ _)) by done. simpl.
    rewrite sz_contents in Hd by done. rewrite read_mem_ok by bwf. simpl. rewrite Hr. simpl.
    eexists; split; [|done]. do 2 f_equal. unfold contents, slice, peek. rewrite take_take.
    f_equal. lia.
  - rewrite (proj2 (Z.leb_gt _ _)) by lia. done.
Qed.

(** *** The constructor *)
Lemma Buffer_ctor_default :
  Buffer_ctor kInitialSize = Ok (mkBuffer (replicate 1032 x00) kCheapPrepend kCheapPrepend).
Proof. by vm_compute. Qed.

(** The second assertion compares the writable bytes with [kInitialSize], not
    with the constructor's argument. *)
Lemma Buffer_ctor_other n :
  0 ≤ n < 2 ^ 64 - 8 → n ≠ kInitialSize →
  Buffer_ctor n = Fail (if decide (n + 8 ≤ vec_max) then AssertFailure else LengthError).
Proof.
  intros Hn Hne. unfold Buffer_ctor, vec_resize, kCheapPrepend.
  rewrite uwrap_small by lia. case_decide.
  - rewrite (proj2 (Z.leb_le _ _)) by lia. simpl. rewrite Nat.sub_0_r, take_nil. simpl.
    unfold writableBytes. simpl. autorewrite with sizes.
    rewrite uwrap_small by bwf. rewrite (proj2 (Z.eqb_neq _ _)) by bwf. done.
  - rewrite (proj2 (Z.leb_gt _ _)) by lia. done.
Qed.

(** *** shrink *)
Lemma ensureWritableBytes_fresh mem len :
  sz mem = kCheapPrepend + kInitialSize → 0 ≤ len → kCheapPrepend + len ≤ vec_max →
  ∃ mem', ensureWritableBytes (mkBuffer mem kCheapPrepend kCheapPrepend) len
            = Ok (mkBuffer mem' kCheapPrepend kCheapPrepend) ∧
          sz mem' = kCheapPrepend + Z.max kInitialSize len.
Proof.
  intros Hs Hlen Hmax. unfold ensureWritableBytes.
  assert (wf (mkBuffer mem kCheapPrepend kCheapPrepend)) as Hwf by (unfold wf; simpl; bwf).
  rewrite writable_eq by done. simpl. rewrite Hs.
  destruct (Z.ltb_spec (kCheapPrepend + kInitialSize - kCheapPrepend) len).
  - unfold makeSpace. rewrite writable_eq by done. unfold prependableBytes. simpl. rewrite Hs.
    rewrite !uwrap_small by bwf. rewrite (proj2 (Z.ltb_lt _ _)) by bwf.
    rewrite vec_resize_ok by bwf. simpl.
    pose proof (sz_grown (kCheapPrepend + len) mem ltac:(bwf)) as Hg.
    set (mem' := mem ++ _) in *. rewrite writable_eq by (unfold wf; simpl; rewrite Hg; bwf).
    simpl. rewrite (proj2 (Z.leb_le _ _)) by (rewrite Hg; lia).
    exists mem'. split; [done|]. rewrite Hg. bwf.
  - simpl. rewrite writable_eq by done. simpl. rewrite Hs.
    rewrite (proj2 (Z.leb_le _ _)) by bwf. exists mem. split; [done|]. bwf.
Qed.

(** [append] without growing. *)
Lemma append_fits b d :
  wf b → sz d ≤ sz (buffer_ b) - writerIndex_ b →
  append b d =
    Ok (mkBuffer (splice (writerIndex_ b) d (buffer_ b)) (readerIndex_ b) (writerIndex_ b + sz d)).
Proof.
  intros Hwf Hd. unfold append, ensureWritableBytes. rewrite writable_eq by done.
  rewrite (proj2 (Z.ltb_ge _ _)) by done. cbn [mbind outcome_bind].
  rewrite writable_eq by done. rewrite (proj2 (Z.leb_le _ _)) by done. simpl.
  unfold beginWrite. rewrite write_mem_ok by bwf. simpl.
  unfold hasWritten. rewrite writable_eq by (unfold wf; simpl; rewrite sz_splice; bwf).
  simpl. rewrite sz_splice by bwf. rewrite (proj2 (Z.leb_le _ _)) by bwf. simpl.
  by rewrite uwrap_small by bwf.
Qed.

Lemma shrink_spec b reserve :
  wf b → 0 ≤ reserve → kCheapPrepend + sz (contents b) + reserve ≤ vec_max →
  ∃ b', shrink b reserve = Ok b' ∧ wf b' ∧ contents b' = contents b ∧
        readerIndex_ b' = kCheapPrepend ∧
        writerIndex_ b' = kCheapPrepend + sz (contents b) ∧
        writableBytes b' = Z.max (kInitialSize - sz (contents b)) reserve.
Proof.
  intros Hwf Hr Hsz. pose proof (sz_contents b Hwf) as Hc.
  unfold shrink. rewrite Buffer_ctor_default. cbn [mbind outcome_bind].
  rewrite readable_contents by done. rewrite uwrap_small by bwf.
  destruct (ensureWritableBytes_fresh (replicate 1032 x00) (sz (contents b) + reserve))
    as (mem & -> & Hs); [done|bwf..|]. cbn [mbind outcome_bind].
  set (o := mkBuffer mem kCheapPrepend kCheapPrepend).
  assert (wf o) as Hwo by (unfold wf; simpl; bwf).
  rewrite read_mem_ok by bwf. cbn [mbind outcome_bind].
  replace (slice (peek b) (sz (contents b)) (buffer_ b)) with (contents b)
    by (rewrite Hc; done).
  assert (sz (contents b) ≤ sz (buffer_ o) - writerIndex_ o) as Hfit by (unfold o; bwf).
  rewrite append_fits by done. simpl.
  destruct (write_advance o (contents b)) as [Hwf2 Hc2]; [done..|].
  eexists; split; [done|]. split_and!; [done| |done|done|].
  - etrans; [exact Hc2|]. by assert (contents o = []) as -> by (apply slice_nil; simpl; lia).
  - rewrite writable_eq by done. simpl. rewrite sz_splice by bwf. bwf.
Qed.

(** *** readFd

    What readv(2) documents: it never delivers more than the entries hold. *)
Definition readv_bounded (readv : list Z → Z + list byte) : Prop :=
  ∀ vec data, readv vec = inr data → sz data ≤ sumZ vec.

Lemma readFd_cases readv b :
  wf b → readv_bounded readv →
  match readv (if writableBytes b <? extrabuf_size then [writableBytes b; extrabuf_size]
               else [writableBytes b]) with
  | inl e => readFd readv b = Ok (b, -1, Some e)
  | inr data =>
    (∃ b', readFd readv b = Ok (b', sz data, None) ∧ wf b' ∧
           contents b' = contents b ++ data ∧ room_kept (sz data) b b' ∧
           sz data ≤ Z.max (writableBytes b) (2 * extrabuf_size - 1)) ∨
    (readFd readv b = Fail LengthError ∧ vec_max < writerIndex_ b + 2 * extrabuf_size)
  end.
Proof.
  intros Hwf Hk. unfold readFd. pose proof (writable_eq b Hwf) as Hw.
  set (vec := if _ <? _ then _ else _). destruct (readv vec) as [e|data] eqn:E; [done|].
  specialize (Hk _ _ E). pose proof (sz_nonneg data).
  assert (sz data ≤ writableBytes b ∨ (writableBytes b < extrabuf_size ∧
    sz data ≤ writableBytes b + extrabuf_size)) as Hsz.
  { subst vec. destruct (Z.ltb_spec (writableBytes b) extrabuf_size); simpl in Hk; bwf. }
  destruct (Z.leb_spec (sz data) (writableBytes b)).
  - left. rewrite firstn_all2 by (unfold sz in *; lia). rewrite write_mem_ok by bwf. simpl.
    rewrite uwrap_small by bwf. eexists; split; [done|].
    destruct (write_advance b data) as [??]; [done|lia|]. split_and!; [done..| |bwf].
    pose proof (sz_splice (writerIndex_ b) data (buffer_ b)). bwf.
  - destruct Hsz as [?|[? ?]]; [lia|].
    set (d1 := take _ data). set (d2 := drop _ data).
    assert (sz d1 = writableBytes b) as Hd1 by (unfold d1; rewrite sz_take; bwf).
    assert (sz d2 = sz data - writableBytes b) as Hd2 by (unfold d2; rewrite sz_drop; bwf).
    rewrite write_mem_ok by bwf. simpl. rewrite sz_splice by bwf.
    replace (take _ d2) with d2 by (rewrite firstn_all2; [done|unfold sz in *; lia]).
    destruct (write_advance b d1) as [Hwf1 Hc1]; [done|lia|].
    rewrite Hd1, Hw, Zplus_minus in Hwf1, Hc1.
    pose proof (sz_splice (writerIndex_ b) d1 (buffer_ b) ltac:(bwf) ltac:(bwf)).
    destruct (append_spec _ d2 Hwf1) as [(b' & -> & ? & Hc' & ?)|[-> ?]]; [bwf| |right; split; [done|bwf]].
    left. simpl. eexists; split; [done|]. split_and!; [done| |bwf|bwf].
    rewrite Hc', Hc1, <-app_assoc. unfold d1, d2. by rewrite take_drop.
Qed.

Lemma readFd_spec readv b :
  wf b → writerIndex_ b + 2 * extrabuf_size ≤ vec_max → readv_bounded readv →
  match readv (if writableBytes b <? extrabuf_size then [writableBytes b; extrabuf_size]
               else [writableBytes b]) with
  | inl e => readFd readv b = Ok (b, -1, Some e)
  | inr data => ∃ b', readFd readv b = Ok (b', sz data, None) ∧ wf b' ∧
                      contents b' = contents b ++ data ∧ room_kept (sz data) b b' ∧
                      sz data ≤ Z.max (writableBytes b) (2 * extrabuf_size - 1)
  end.
Proof.
  intros Hwf Hmax Hk. pose proof (readFd_cases readv b Hwf Hk) as H.
  destruct (readv _); [done|]. destruct H as [?|[_ ?]]; [done|lia].
Qed.

(** *** Integers *)
Lemma read_front b n :
  wf b → 0 ≤ n ≤ sz (contents b) →
  read_mem (buffer_ b) (peek b) n = Ok (take (Z.to_nat n) (contents b)).
Proof.
  intros Hwf Hn. rewrite sz_contents in Hn by done. rewrite read_mem_ok by bwf.
  f_equal. unfold contents, slice, peek. rewrite take_take. f_equal. lia.
Qed.

(** Converting the [n]-byte integer read from memory, through the signed type
    of its width, gives the number its bytes spell in network order. *)
Lemma network_value host n mem :
  length mem = n → (0 < n)%nat →
  htobe host n (uwrap (8 * Z.of_nat n) (swrap (8 * Z.of_nat n) (obj_value host mem)))
    = be_decode mem.
Proof.
  intros <- Hn. rewrite uwrap_swrap by lia.
  rewrite uwrap_small by apply obj_value_range. apply htobe_obj_value.
Qed.

Lemma obj_bytes_swrap host n z :
  (0 < n)%nat → obj_bytes host n (swrap (8 * Z.of_nat n) z) = obj_bytes host n z.
Proof.
  intros. assert (le_encode n (swrap (8 * Z.of_nat n) z) = le_encode n z) as E.
  { rewrite <-le_encode_uwrap, uwrap_swrap by lia. apply le_encode_uwrap. }
  destruct host; simpl; [|unfold be_encode]; by rewrite E.
Qed.

(** The bytes [appendInt*] and [prependInt*] store are in network order. *)
Lemma stored_bytes host n x :
  (0 < n)%nat →
  obj_bytes host n (swrap (8 * Z.of_nat n) (htobe host n (uwrap (8 * Z.of_nat n) x)))
    = be_encode n x.
Proof. intros. by rewrite obj_bytes_swrap, obj_bytes_htobe, be_encode_uwrap. Qed.

Lemma obj_bytes_1 host x : obj_bytes host 1 x = be_encode 1 x.
Proof. by destruct host. Qed.

Lemma appendInt_bytes host b x :
  appendInt64 host b x = append b (be_encode 8 x) ∧
  appendInt32 host b x = append b (be_encode 4 x) ∧
  appendInt16 host b x = append b (be_encode 2 x) ∧
  appendInt8 host b x = append b (be_encode 1 x).
Proof.
  split_and!.
  - unfold appendInt64, hostToNetwork64. by rewrite (stored_bytes host 8) by lia.
  - unfold appendInt32, hostToNetwork32. by rewrite (stored_bytes host 4) by lia.
  - unfold appendInt16, hostToNetwork16. by rewrite (stored_bytes host 2) by lia.
  - unfold appendInt8. by rewrite obj_bytes_1.
Qed.

Lemma prependInt_bytes host b x :
  prependInt64 host b x = prepend b (be_encode 8 x) ∧
  prependInt32 host b x = prepend b (be_encode 4 x) ∧
  prependInt16 host b x = prepend b (be_encode 2 x) ∧
  prependInt8 host b x = prepend b (be_encode 1 x).
Proof.
  split_and!.
  - unfold prependInt64, hostToNetwork64. by rewrite (stored_bytes host 8) by lia.
  - unfold prependInt32, hostToNetwork32. by rewrite (stored_bytes host 4) by lia.
  - unfold prependInt16, hostToNetwork16. by rewrite (stored_bytes host 2) by lia.
  - unfold prependInt8. by rewrite obj_bytes_1.
Qed.

Lemma u32_u64 x : u32 (u64 x) = u32 x.
Proof.
  unfold uwrap. change (2 ^ 64) with (2 ^ 32 * 2 ^ 32).
  rewrite Z.rem_mul_r by lia. rewrite Z.mul_comm, Z.mod_add by lia. by rewrite Zmod_mod.
Qed.

Lemma take_front {A} (l : list A) n : Z.of_nat n ≤ sz l → length (take n l) = n.
Proof. intros. rewrite length_take. unfold sz in *. lia. Qed.

Lemma peekInt64_spec host b :
  wf b → 8 ≤ sz (contents b) →
  peekInt64 host b = Ok (s64 (be_decode (take 8 (contents b)))).
Proof.
  intros Hwf Hsz. unfold peekInt64. rewrite readable_contents by done.
  rewrite (proj2 (Z.leb_le _ _)) by done. simpl. rewrite read_front by (done || lia). simpl.
  unfold networkToHost64. by rewrite (network_value host 8) by (lia || by apply (take_front _ 8)).
Qed.

Lemma peekInt32_spec host b :
  wf b → 4 ≤ sz (contents b) →
  peekInt32 host b = Ok (s32 (be_decode (take 4 (contents b)))).
Proof.
  intros Hwf Hsz. unfold peekInt32. rewrite readable_contents by done.
  rewrite (proj2 (Z.leb_le _ _)) by done. simpl. rewrite read_front by (done || lia). simpl.
  unfold networkToHost32. rewrite u32_u64.
  by rewrite (network_value host 4) by (lia || by apply (take_front _ 4)).
Qed.

Lemma peekInt8_spec host b :
  wf b → 1 ≤ sz (contents b) →
  peekInt8 host b = Ok (s8 (be_decode (take 1 (contents b)))).
Proof.
  intros Hwf Hsz. unfold peekInt8. rewrite readable_contents by done.
  rewrite (proj2 (Z.leb_le _ _)) by done. simpl. rewrite read_front by (done || lia). simpl.
  do 3 f_equal. destruct host; [|done]. unfold obj_value, be_decode.
  destruct (contents b) as [|x [|y l]]; done.
Qed.

(** Reading back what starts the queue. *)
Lemma be_front n x rest k :
  n = Z.to_nat k → take (Z.to_nat k) (be_encode n x ++ rest) = be_encode n x ∧
                   drop (Z.to_nat k) (be_encode n x ++ rest) = rest.
Proof.
  intros ->. split; [rewrite take_app_length' | rewrite drop_app_length'];
    by rewrite ?length_be_encode.
Qed.

Lemma readInt_front b x rest (w : Z) (n : nat)
    (peekI : Buffer → outcome Z) :
  wf b → kCheapPrepend ≤ sz (buffer_ b) → contents b = be_encode n x ++ rest →
  w = 8 * Z.of_nat n → (0 < n)%nat → in_signed w x →
  (∀ b, wf b → Z.of_nat n ≤ sz (contents b) →
        peekI b = Ok (swrap w (be_decode (take n (contents b))))) →
  ∃ b', (result ← peekI b; b' ← retrieve b (Z.of_nat n); Ok (result, b')) = Ok (x, b') ∧
        wf b' ∧ contents b' = rest.
Proof.
  intros Hwf Hsz Hc -> Hn Hx Hpeek.
  destruct (be_front n x rest (Z.of_nat n)) as [Ht Hd]; [lia|]. rewrite Nat2Z.id in Ht, Hd.
  assert (Z.of_nat n ≤ sz (contents b)) as Hlen.
  { rewrite Hc, sz_app. unfold sz. rewrite length_be_encode. lia. }
  rewrite Hpeek by done. simpl.
  pose proof (retrieve_spec b (Z.of_nat n) Hwf Hsz ltac:(lia)) as Hr.
  rewrite decide_True in Hr by done. destruct Hr as (b' & -> & ? & Hc' & _). simpl.
  exists b'. rewrite Hc in Hc' |- *. rewrite Ht, be_decode_encode, swrap_uwrap by lia.
  rewrite swrap_small by (lia || done). rewrite Nat2Z.id in Hc'. by rewrite Hc', Hd.
Qed.

Lemma readInt64_front host b x rest :
  wf b → kCheapPrepend ≤ sz (buffer_ b) → contents b = be_encode 8 x ++ rest → in_signed 64 x →
  ∃ b', readInt64 host b = Ok (x, b') ∧ wf b' ∧ contents b' = rest.
Proof.
  intros. apply (readInt_front b x rest 64 8 (peekInt64 host)); try done; [lia|].
  intros. by apply peekInt64_spec.
Qed.

Lemma readInt32_front host b x rest :
  wf b → kCheapPrepend ≤ sz (buffer_ b) → contents b = be_encode 4 x ++ rest → in_signed 32 x →
  ∃ b', readInt32 host b = Ok (x, b') ∧ wf b' ∧ contents b' = rest.
Proof.
  intros. apply (readInt_front b x rest 32 4 (peekInt32 host)); try done; [lia|].
  intros. by apply peekInt32_spec.
Qed.

Lemma readInt8_front host b x rest :
  wf b → kCheapPrepend ≤ sz (buffer_ b) → contents b = be_encode 1 x ++ rest → in_signed 8 x →
  ∃ b', readInt8 host b = Ok (x, b') ∧ wf b' ∧ contents b' = rest.
Proof.
  intros. apply (readInt_front b x rest 8 1 (peekInt8 host)); try done; [lia|].
  intros. by apply peekInt8_spec.
Qed.

(** *** Searching *)
Definition crlf_at (l : list byte) (i : nat) : Prop := l !! i = Some x0d ∧ l !! S i = Some x0a.

Lemma prefix_crlf l : kCRLF `prefix_of` l ↔ crlf_at l 0.
Proof.
  unfold crlf_at, kCRLF. split.
  - intros [k ->]. done.
  - intros [H0 H1]. destruct l as [|a [|c l]]; simplify_eq/=. by exists l.
Qed.

Lemma std_search_crlf l :
  (std_search l kCRLF ≤ length l)%nat ∧
  (∀ j, (j < std_search l kCRLF)%nat → ¬ crlf_at l j) ∧
  (std_search l kCRLF < length l → crlf_at l (std_search l kCRLF))%nat.
Proof.
  induction l as [|a l (IH1 & IH2 & IH3)].
  { unfold std_search. case_decide as H; simpl; [|split_and!; lia].
    apply prefix_crlf in H. destruct H as [H _]. done. }
  cbn [std_search]. case_decide as H; rewrite prefix_crlf in H.
  { split_and!; [lia|lia|done]. }
  simpl. split_and!; [lia| |].
  - intros [|j] Hj; [done|]. apply IH2. lia.
  - intros Hlt. apply IH3. lia.
Qed.

Lemma crlf_at_bound l i : crlf_at l i → (S i < length l)%nat.
Proof. intros [_ H]. by apply lookup_lt_Some in H. Qed.

Lemma memchr_spec c l :
  match memchr c l with
  | Some i => l !! i = Some c ∧ ∀ j, (j < i)%nat → l !! j ≠ Some c
  | None => c ∉ l
  end.
Proof.
  induction l as [|a l IH]; [apply not_elem_of_nil|]. simpl. case_decide as H.
  - subst. split; [done|lia].
  - destruct (memchr c l) as [i|]; simpl.
    + destruct IH as [? IH]. split; [done|]. intros [|j] Hj; [by intros [= ?]|]. apply IH. lia.
    + apply not_elem_of_cons. split; [by intros ->|done].
Qed.

(** The readable bytes from pointer [start] on. *)
Lemma read_from b start :
  wf b → peek b ≤ start ≤ beginWrite b →
  read_mem (buffer_ b) start (beginWrite b - start)
    = Ok (drop (Z.to_nat (start - peek b)) (contents b)).
Proof.
  intros Hwf Hs. rewrite read_mem_ok by bwf. f_equal. unfold contents, slice, peek, beginWrite in *.
  rewrite skipn_firstn_comm, drop_drop. f_equal; [bwf|]. f_equal. bwf.
Qed.

Lemma findCRLF_from_spec b start :
  wf b → peek b ≤ start ≤ beginWrite b →
  ∃ r, findCRLF_from b start = Ok r ∧
  match r with
  | Some p => ∃ i, p = start + Z.of_nat i ∧
      crlf_at (drop (Z.to_nat (start - peek b)) (contents b)) i ∧
      ∀ j, (j < i)%nat → ¬ crlf_at (drop (Z.to_nat (start - peek b)) (contents b)) j
  | None => ∀ j, ¬ crlf_at (drop (Z.to_nat (start - peek b)) (contents b)) j
  end.
Proof.
  intros Hwf Hs. unfold findCRLF_from. rewrite !(proj2 (Z.leb_le _ _)) by lia. simpl.
  rewrite read_from by done. simpl. set (l := drop _ _).
  destruct (std_search_crlf l) as (H1 & H2 & H3).
  assert (sz l = beginWrite b - start) as Hl.
  { unfold l. rewrite sz_drop, sz_contents by done. bwf. }
  unfold sz in Hl. eexists; split; [done|]. destruct (Z.eqb_spec (start + Z.of_nat (std_search l kCRLF)) (beginWrite b)).
  - intros j Hj. pose proof (crlf_at_bound _ _ Hj). apply (H2 j); [lia|done].
  - eexists; split; [done|]. split; [apply H3; lia|done].
Qed.

Lemma findCRLF_as_from b : wf b → findCRLF b = findCRLF_from b (peek b).
Proof.
  intros Hwf. unfold findCRLF, findCRLF_from.
  by rewrite !(proj2 (Z.leb_le _ _)) by bwf.
Qed.

Lemma findEOL_from_spec b start :
  wf b → peek b ≤ start ≤ beginWrite b →
  findEOL_from b start =
    Ok ((λ i, start + Z.of_nat i) <$>
        memchr x0a (drop (Z.to_nat (start - peek b)) (contents b))).
Proof.
  intros Hwf Hs. unfold findEOL_from. rewrite !(proj2 (Z.leb_le _ _)) by lia. simpl.
  rewrite uwrap_small by bwf. by rewrite read_from by done.
Qed.

(** ** The abstract byte queue

    What a user of the class may think of: a queue of bytes [q] with at least
    [h] free bytes in front of it.  [spec_op] is [None] where the class asserts. *)
Inductive buffer_op :=
  | OAppend (d : list byte)
  | OPrepend (d : list byte)
  | ORetrieve (n : nat)
  | ORetrieveAll
  | ORetrieveAsString (n : nat)
  | OUnwrite (n : nat)
  | OEnsureWritable (n : nat)
  | OShrink (reserve : nat).

Definition run_op (o : buffer_op) (b : Buffer) : outcome (Buffer * list byte) :=
  match o with
  | OAppend d => (λ b', (b', [])) <$> append b d
  | OPrepend d => (λ b', (b', [])) <$> prepend b d
  | ORetrieve n => (λ b', (b', [])) <$> retrieve b (Z.of_nat n)
  | ORetrieveAll => Ok (retrieveAll b, [])
  | ORetrieveAsString n => (λ '(s, b'), (b', s)) <$> retrieveAsString b (Z.of_nat n)
  | OUnwrite n => (λ b', (b', [])) <$> unwrite b (Z.of_nat n)
  | OEnsureWritable n => (λ b', (b', [])) <$> ensureWritableBytes b (Z.of_nat n)
  | OShrink n => (λ b', (b', [])) <$> shrink b (Z.of_nat n)
  end.

Fixpoint run_ops (os : list buffer_op) (b : Buffer) : outcome (Buffer * list byte) :=
  match os with
  | [] => Ok (b, [])
  | o :: os' =>
    '(b1, out1) ← run_op o b;
    '(b2, out2) ← run_ops os' b1;
    Ok (b2, out1 ++ out2)
  end.

Definition queue : Type := list byte * Z.

Definition spec_op (o : buffer_op) (s : queue) : option (queue * list byte) :=
  let '(q, h) := s in
  match o with
  | OAppend d => Some ((q ++ d, Z.min kCheapPrepend h), [])
  | OPrepend d => if decide (sz d ≤ h) then Some ((d ++ q, h - sz d), []) else None
  | ORetrieve n =>
    if decide (n ≤ length q)%nat then Some ((drop n q, Z.min kCheapPrepend h), []) else None
  | ORetrieveAll => Some (([], kCheapPrepend), [])
  | ORetrieveAsString n =>
    if decide (n ≤ length q)%nat then Some ((drop n q, Z.min kCheapPrepend h), take n q) else None
  | OUnwrite n =>
    if decide (n ≤ length q)%nat then Some ((take (length q - n) q, h), []) else None
  | OEnsureWritable _ => Some ((q, Z.min kCheapPrepend h), [])
  | OShrink _ => Some ((q, kCheapPrepend), [])
  end.

Fixpoint spec_ops (os : list buffer_op) (s : queue) : option (queue * list byte) :=
  match os with
  | [] => Some (s, [])
  | o :: os' =>
    '(s1, out1) ← spec_op o s;
    '(s2, out2) ← spec_ops os' s1;
    Some (s2, out1 ++ out2)
  end.

(** How far one operation can push the end of the vector. *)
Definition op_cost (o : buffer_op) : Z :=
  match o with
  | OAppend d | OPrepend d => sz d
  | OEnsureWritable n => Z.of_nat n
  | OShrink n => kCheapPrepend + Z.of_nat n
  | _ => 0
  end.

Lemma op_cost_nonneg o : 0 ≤ op_cost o.
Proof. pose proof @sz_nonneg. destruct o; simpl; unfold kCheapPrepend; eauto; lia. Qed.

(** The concrete buffer implements the queue, [used] bytes into its budget. *)
Definition represents (used : Z) (s : queue) (b : Buffer) : Prop :=
  wf b ∧ kCheapPrepend ≤ sz (buffer_ b) ∧ contents b = s.1 ∧ 0 ≤ s.2 ≤ readerIndex_ b ∧
  writerIndex_ b ≤ kCheapPrepend + used ∧ 0 ≤ used.


Lemma run_op_refines used o s b s' out :
  represents used s b → spec_op o s = Some (s', out) →
  kCheapPrepend + used + op_cost o ≤ vec_max →
  ∃ b', run_op o b = Ok (b', out) ∧ represents (used + op_cost o) s' b'.
Proof.
  destruct s as [q h]. intros (Hwf & H8 & Hc & Hh & Hw & Hu) Hs Hmax.
  pose proof (op_cost_nonneg o). pose proof (sz_contents b Hwf) as Hlen.
  destruct o; simpl in Hs, Hc, Hh; cbn [op_cost] in *; repeat case_decide; simplify_eq/=.
  - destruct (append_ok b d Hwf) as (b' & -> & ? & ? & ?); [bwf|].
    eexists; split; [done|]. unfold represents; simpl. split_and!; try done; bwf.
  - pose proof (prepend_spec b d Hwf) as Hp. rewrite decide_True in Hp by lia.
    destruct Hp as (b' & -> & ? & ? & ? & ? & ?).
    eexists; split; [done|]. unfold represents; simpl. split_and!; try done; bwf.
  - pose proof (retrieve_spec b (Z.of_nat n) Hwf H8 ltac:(lia)) as Hp.
    rewrite decide_True in Hp by (unfold sz; lia). destruct Hp as (b' & -> & ? & Hd & Hb & ?).
    rewrite Nat2Z.id in Hd.
    eexists; split; [done|]. unfold represents; simpl. split_and!; try done; bwf.
  - destruct (retrieveAll_spec b Hwf H8) as [? ?]. eexists; split; [done|].
    unfold represents; simpl. split_and!; try done; unfold retrieveAll; bwf.
  - pose proof (retrieveAsString_spec b (Z.of_nat n) Hwf H8 ltac:(lia)) as Hp.
    rewrite decide_True in Hp by (unfold sz; lia). destruct Hp as (b' & -> & ? & Hd & Hb & ?).
    rewrite Nat2Z.id in *.
    eexists; split; [done|]. unfold represents; simpl. split_and!; try done; bwf.
  - pose proof (unwrite_spec b (Z.of_nat n) Hwf ltac:(lia)) as Hp.
    rewrite decide_True in Hp by (unfold sz; lia). destruct Hp as (b' & -> & ? & Hd & Hb & Hr & ?).
    eexists; split; [done|]. unfold represents; simpl. rewrite Hb, Hr.
    split_and!; try done; try bwf. rewrite Hd. f_equal. unfold sz. lia.
  - destruct (ensureWritableBytes_spec b (Z.of_nat n) Hwf) as [(b' & -> & ? & ? & ? & ?)|[? ?]];
      [bwf| |bwf].
    eexists; split; [done|]. unfold represents; simpl. split_and!; try done; bwf.
  - destruct (shrink_spec b (Z.of_nat reserve) Hwf) as (b' & -> & Hwf' & Hc' & Hr & Hw' & Hwr);
      [lia|bwf|].
    eexists; split; [done|]. rewrite writable_eq in Hwr by done.
    unfold represents; simpl. split_and!; try done; bwf.
Qed.

Lemma run_ops_refines os : ∀ used s b s' out,
  represents used s b → spec_ops os s = Some (s', out) →
  kCheapPrepend + used + sumZ (op_cost <$> os) ≤ vec_max →
  ∃ b', run_ops os b = Ok (b', out) ∧ represents (used + sumZ (op_cost <$> os)) s' b'.
Proof.
  induction os as [|o os IH]; intros used s b s' out Hrep Hs Hmax; csimpl in *.
  { simplify_eq. exists b. by rewrite Z.add_0_r. }
  destruct (spec_op o s) as [[s1 out1]|] eqn:E1; simplify_eq/=.
  destruct (spec_ops os s1) as [[s2 out2]|] eqn:E2; simplify_eq/=.
  pose proof (sumZ_fmap_nonneg op_cost os op_cost_nonneg).
  destruct (run_op_refines used o s b s1 out1) as (b1 & -> & Hrep1); [done..|lia|].
  destruct (IH _ _ _ _ _ Hrep1 E2) as (b2 & E & Hrep2); [lia|].
  simpl. rewrite E. simpl. exists b2. by rewrite Z.add_assoc.
Qed.

(** Written, then read back behind what the queue held; or put in front of it
    and read first.  [n] is the width in bytes. *)
Definition writes_then_reads (n : Z) (app pre : Buffer → Z → outcome Buffer)
    (rd : Buffer → outcome (Z * Buffer)) (b : Buffer) (x : Z) : Prop :=
  (∃ b1 b2 b3, app b x = Ok b1 ∧ retrieve b1 (sz (contents b)) = Ok b2 ∧
               rd b2 = Ok (x, b3) ∧ contents b3 = []) ∧
  (n ≤ prependableBytes b →
   ∃ b1 b2, pre b x = Ok b1 ∧ rd b1 = Ok (x, b2) ∧ contents b2 = contents b).

Lemma writes_then_reads_intro n app pre rd b x :
  wf b → kCheapPrepend ≤ sz (buffer_ b) → writerIndex_ b + 8 ≤ vec_max → (n ≤ 8)%nat →
  app b x = append b (be_encode n x) → pre b x = prepend b (be_encode n x) →
  (∀ b rest, wf b → kCheapPrepend ≤ sz (buffer_ b) → contents b = be_encode n x ++ rest →
     ∃ b', rd b = Ok (x, b') ∧ wf b' ∧ contents b' = rest) →
  writes_then_reads (Z.of_nat n) app pre rd b x.
Proof.
  intros Hwf H8 Hmax Hn Happ Hpre Hrd.
  assert (sz (be_encode n x) = Z.of_nat n) as Hsz by (unfold sz; by rewrite length_be_encode).
  split.
  - destruct (append_ok b (be_encode n x) Hwf) as (b1 & E & Hwf1 & Hc1 & Hk); [lia|].
    rewrite Hsz in *.
    pose proof (retrieve_spec b1 (sz (contents b)) Hwf1 ltac:(bwf) (sz_nonneg _)) as Hr.
    rewrite decide_True in Hr by (rewrite Hc1, sz_app; lia).
    destruct Hr as (b2 & E2 & Hwf2 & Hc2 & Hb2 & _).
    destruct (Hrd b2 []) as (b3 & E3 & _ & Hc3); [done|rewrite Hb2; bwf| |].
    { rewrite Hc2, Hc1, app_nil_r. unfold sz. by rewrite Nat2Z.id, drop_app_length. }
    exists b1, b2, b3. by rewrite Happ.
  - intros Hp. unfold prependableBytes in Hp.
    pose proof (prepend_spec b (be_encode n x) Hwf) as Hr. rewrite Hsz, decide_True in Hr by lia.
    destruct Hr as (b1 & E & Hwf1 & Hc1 & _ & _ & Hs1).
    destruct (Hrd b1 (contents b)) as (b2 & E2 & _ & Hc2); [done|by rewrite Hs1|done|].
    exists b1, b2. by rewrite Hpre.
Qed.

(** ** Properties *)

(** C15: a [Buffer] is the byte queue it claims to be: every sequence of
    operations that the queue specification allows runs without a failed
    assertion, an access outside the vector or an exception, returns the bytes
    the specification returns, and leaves the readable bytes and at least the
    front space the specification predicts. *)
Theorem buffer_implements_queue os s out :
  spec_ops os ([], kCheapPrepend) = Some (s, out) →
  kCheapPrepend + sumZ (op_cost <$> os) ≤ vec_max →
  ∃ b b', Buffer_ctor kInitialSize = Ok b ∧ run_ops os b = Ok (b', out) ∧
          contents b' = s.1 ∧ readableBytes b' = sz s.1 ∧ s.2 ≤ prependableBytes b'.
Proof.
  intros Hs Hmax. eexists. rewrite Buffer_ctor_default.
  destruct (run_ops_refines os 0 ([], kCheapPrepend)
    (mkBuffer (replicate 1032 x00) kCheapPrepend kCheapPrepend) s out)
    as (b' & E & Hwf & _ & Hc & Hh & _); [|done|lia|].
  { unfold represents, wf, vec_max; simpl. by vm_compute. }
  exists b'. split_and!; [done..| |].
  - by rewrite readable_contents, Hc.
  - unfold prependableBytes. lia.
Qed.

Lemma buffer_implements_queue_witness :
  ∃ b b', Buffer_ctor kInitialSize = Ok b ∧
    run_ops [OAppend [x61; x62; x63]; ORetrieve 1; OPrepend [x7a]; ORetrieveAsString 2; OShrink 3] b
      = Ok (b', [x7a; x62]) ∧
    contents b' = [x63] ∧ readableBytes b' = 1 ∧ 8 ≤ prependableBytes b'.
Proof.
  apply (buffer_implements_queue
    [OAppend [x61; x62; x63]; ORetrieve 1; OPrepend [x7a]; ORetrieveAsString 2; OShrink 3]
    ([x63], 8) [x7a; x62]).
  - reflexivity.
  - vm_compute. discriminate.
Defined.

(** C38: [readFd] appends exactly the bytes the kernel delivered (through the
    extra buffer when they do not fit), returns their number and at most 128k-1
    when the extra buffer is in use; on an error it stores the errno, returns -1
    and leaves the buffer alone. *)
Theorem readFd_receives readv b :
  wf b → writerIndex_ b + 2 * extrabuf_size ≤ vec_max → readv_bounded readv →
  match readv (if writableBytes b <? extrabuf_size then [writableBytes b; extrabuf_size]
               else [writableBytes b]) with
  | inl e => readFd readv b = Ok (b, -1, Some e)
  | inr data => ∃ b', readFd readv b = Ok (b', sz data, None) ∧ wf b' ∧
                      contents b' = contents b ++ data ∧
                      sz data ≤ Z.max (writableBytes b) (2 * extrabuf_size - 1)
  end.
Proof.
  intros Hwf Hmax Hk. pose proof (readFd_spec readv b Hwf Hmax Hk) as H.
  destruct (readv _); [done|]. destruct H as (b' & ? & ? & ? & _ & ?). eauto.
Qed.

Definition readv_abc (vec : list Z) : Z + list byte :=
  if decide (3 ≤ sumZ vec) then inr [x61; x62; x63] else inl 11.

Lemma readFd_receives_witness :
  ∃ b', readFd readv_abc (mkBuffer [x00; x00; x00] 1 2) = Ok (b', 3, None) ∧ wf b' ∧
        contents b' = [x00; x61; x62; x63] ∧ 3 ≤ 2 * extrabuf_size - 1.
Proof.
  pose proof (readFd_receives readv_abc (mkBuffer [x00; x00; x00] 1 2)) as H.
  apply H.
  - unfold wf, vec_max. simpl. unfold sz. simpl. lia.
  - vm_compute. discriminate.
  - intros vec data. unfold readv_abc. case_decide; intros E; [|discriminate E].
    injection E as <-. exact H0.
Defined.

(** C39: integers written by one host are read back unchanged by any other,
    whatever the two byte orders: a 64-, 32- or 8-bit integer appended behind a
    queue is what [readInt*] returns once the queue has been retrieved, and one
    prepended in front of it is read first and leaves the queue as it was. *)
Theorem integers_roundtrip writer reader b x :
  wf b → kCheapPrepend ≤ sz (buffer_ b) → writerIndex_ b + 8 ≤ vec_max →
  (in_signed 64 x →
    writes_then_reads 8 (appendInt64 writer) (prependInt64 writer) (readInt64 reader) b x) ∧
  (in_signed 32 x →
    writes_then_reads 4 (appendInt32 writer) (prependInt32 writer) (readInt32 reader) b x) ∧
  (in_signed 8 x →
    writes_then_reads 1 (appendInt8 writer) (prependInt8 writer) (readInt8 reader) b x).
Proof.
  intros Hwf H8 Hmax.
  destruct (appendInt_bytes writer b x) as (Ha64 & Ha32 & _ & Ha8).
  destruct (prependInt_bytes writer b x) as (Hp64 & Hp32 & _ & Hp8).
  split_and!; intros Hx.
  - apply (writes_then_reads_intro 8); [done..|lia|done|done|]. intros. by apply readInt64_front.
  - apply (writes_then_reads_intro 4); [done..|lia|done|done|]. intros. by apply readInt32_front.
  - apply (writes_then_reads_intro 1); [done..|lia|done|done|]. intros. by apply readInt8_front.
Qed.

Lemma integers_roundtrip_witness :
  let b := mkBuffer (replicate 16 x41) 8 10 in
  writes_then_reads 8 (appendInt64 LittleEndian) (prependInt64 LittleEndian)
    (readInt64 BigEndian) b (-2).
Proof.
  intros b. apply (integers_roundtrip LittleEndian BigEndian b (-2)).
  - unfold wf, vec_max, b. simpl. unfold sz. simpl. lia.
  - vm_compute. discriminate.
  - vm_compute. discriminate.
  - unfold in_signed. lia.
Defined.

(** [readInt16] never returns a value: with two readable bytes it runs off
    the end of [peekInt16], which has no [return], and with fewer the assertion
    fails. *)
Theorem readInt16_never_returns host b :
  wf b →
  readInt16 host b = Fail (if decide (2 ≤ sz (contents b)) then UB else AssertFailure).
Proof.
  intros Hwf. unfold readInt16, peekInt16. rewrite readable_contents by done. case_decide.
  - rewrite (proj2 (Z.leb_le _ _)) by done. simpl. by rewrite read_front by (done || lia).
  - by rewrite (proj2 (Z.leb_gt _ _)) by lia.
Qed.

Lemma readInt16_never_returns_witness :
  ∃ b, appendInt16 LittleEndian (mkBuffer (replicate 16 x00) 8 8) 513 = Ok b ∧
       readInt16 LittleEndian b = Fail UB.
Proof.
  eexists. split; [vm_compute; reflexivity|]. refine (readInt16_never_returns LittleEndian _ _).
  unfold wf, vec_max. simpl. unfold sz. simpl. lia.
Defined.

(** The constructor accepts no size but the default one: for every other
    [initialSize] it fails an assertion (or the vector cannot be made), because
    it compares the writable bytes with [kInitialSize]. *)
Theorem ctor_only_default_size n :
  0 ≤ n < 2 ^ 64 → is_ok (Buffer_ctor n) = true ↔ n = kInitialSize.
Proof.
  intros Hn. split; [|by intros ->].
  destruct (decide (n = kInitialSize)) as [|Hne]; [done|].
  destruct (decide (n < 2 ^ 64 - 8)).
  - rewrite Buffer_ctor_other by lia. by case_decide.
  - unfold Buffer_ctor, kCheapPrepend, uwrap. replace (8 + n) with (n - (2 ^ 64 - 8) + 1 * 2 ^ 64) by lia.
    rewrite Z.mod_add, Z.mod_small by lia. rewrite vec_resize_ok by (rewrite ?sz_nil; bwf). simpl.
    unfold writableBytes. simpl.
    pose proof (sz_grown (n - (2 ^ 64 - 8)) [] ltac:(rewrite sz_nil; lia)) as Hg.
    simpl in Hg. rewrite Hg. unfold uwrap.
    replace (n - (2 ^ 64 - 8) - 8) with (n + (-1) * 2 ^ 64) by lia.
    rewrite Z.mod_add, Z.mod_small by lia. by rewrite (proj2 (Z.eqb_neq _ _)).
Qed.

Lemma ctor_only_default_size_witness : is_ok (Buffer_ctor 512) = true ↔ 512 = kInitialSize.
Proof. apply (ctor_only_default_size 512). lia. Defined.

(** [findCRLF] and [findEOL] return the first CRLF and the first newline of
    the readable bytes, and a null pointer exactly when there is none; they
    never read outside the readable bytes. *)
Theorem find_first_line_end b :
  wf b →
  (∃ r, findCRLF b = Ok r ∧
    match r with
    | Some p => ∃ i, p = peek b + Z.of_nat i ∧ crlf_at (contents b) i ∧
                     ∀ j, (j < i)%nat → ¬ crlf_at (contents b) j
    | None => ∀ j, ¬ crlf_at (contents b) j
    end) ∧
  (∃ r, findEOL b = Ok r ∧
    match r with
    | Some p => ∃ i, p = peek b + Z.of_nat i ∧ contents b !! i = Some x0a ∧
                     ∀ j, (j < i)%nat → contents b !! j ≠ Some x0a
    | None => x0a ∉ contents b
    end).
Proof.
  intros Hwf. split.
  - rewrite findCRLF_as_from by done. destruct (findCRLF_from_spec b (peek b)) as (r & -> & Hr).
    { done. } { bwf. } rewrite Z.sub_diag in Hr. by exists r.
  - unfold findEOL. rewrite readable_contents, read_front by (done || pose proof (sz_nonneg (contents b)); lia).
    simpl. unfold sz. rewrite Nat2Z.id, firstn_all. eexists; split; [done|].
    pose proof (memchr_spec x0a (contents b)) as H. destruct (memchr _ _); simpl; eauto.
Qed.

Lemma find_first_line_end_witness :
  let b := mkBuffer [x00; x61; x0d; x0a; x62] 1 5 in
  (∃ r, findCRLF b = Ok r ∧
    match r with
    | Some p => ∃ i, p = peek b + Z.of_nat i ∧ crlf_at (contents b) i ∧
                     ∀ j, (j < i)%nat → ¬ crlf_at (contents b) j
    | None => ∀ j, ¬ crlf_at (contents b) j
    end) ∧ findCRLF b = Ok (Some 2).
Proof.
  intros b. split; [|reflexivity]. apply (find_first_line_end b).
  unfold wf, vec_max, b. simpl. unfold sz. simpl. lia.
Defined.

(** [shrink reserve] keeps the readable bytes, moves them to the front of a
    new vector and leaves [reserve] writable bytes, or what is left of
    [kInitialSize] when that is more: a small [reserve] is not honoured. *)
Theorem shrink_keeps_contents b reserve :
  wf b → 0 ≤ reserve → kCheapPrepend + sz (contents b) + reserve ≤ vec_max →
  ∃ b', shrink b reserve = Ok b' ∧ wf b' ∧ contents b' = contents b ∧
        prependableBytes b' = kCheapPrepend ∧
        writableBytes b' = Z.max (kInitialSize - sz (contents b)) reserve.
Proof.
  intros Hwf Hr Hmax. destruct (shrink_spec b reserve Hwf Hr Hmax) as (b' & ? & ? & ? & ? & _ & ?).
  by exists b'.
Qed.

Lemma shrink_keeps_contents_witness :
  ∃ b', shrink (mkBuffer [x00; x61; x62] 1 3) 5 = Ok b' ∧ wf b' ∧ contents b' = [x61; x62] ∧
        prependableBytes b' = 8 ∧ writableBytes b' = 1022.
Proof.
  apply (shrink_keeps_contents (mkBuffer [x00; x61; x62] 1 3) 5).
  - unfold wf, vec_max. simpl. unfold sz. simpl. lia.
  - lia.
  - vm_compute. discriminate.
Defined.
