(* ===== verification/Channel.v ===== *)
(** [kaycc::net::Channel] ([src/net/channel.h], [src/net/channel.cpp]): the
    events a descriptor is watched for, and the dispatch of the events that
    happened to its callbacks.

    A channel is an object with an address ([Ptr]).  What a callback is, is left
    open ([CB]); the client that owns the channel says how one runs.  The channel
    reaches its loop and its poller through [Poller.v]. *)
From stdpp Require Import strings pretty gmap.
From S2P Require Import Prelude.

Abbreviation Ptr := Z (only parsing).

(** <poll.h> on Linux; epollpoller.cpp asserts that epoll uses the same values. *)
Definition POLLIN : Z := 1.
Definition POLLPRI : Z := 2.
Definition POLLOUT : Z := 4.
Definition POLLERR : Z := 8.
Definition POLLHUP : Z := 16.
Definition POLLNVAL : Z := 32.
Definition POLLRDHUP : Z := 8192.

Definition kNoneEvent : Z := 0.
Definition kReadEvent : Z := Z.lor POLLIN POLLPRI.
Definition kWriteEvent : Z := POLLOUT.

(** [x & m] as a condition. *)
Definition has (x m : Z) : bool := negb (Z.land x m =? 0).

(** [index_] values of the epoll poller; -1 also means "new" to the poll one. *)
Definition kNew : Z := -1.
Definition kAdded : Z := 1.
Definition kDeleted : Z := 2.

Record Channel (CB : Type) := mkChannel {
  loop_ : Ptr;
  fd_ : Z;
  events_ : Z;
  revents_ : Z;
  index_ : Z;
  tie_ : Ptr;
  tied_ : bool;
  eventHandling_ : bool;
  addedToLoop_ : bool;
  readCallback_ : option CB;
  writeCallback_ : option CB;
  closeCallback_ : option CB;
  errorCallback_ : option CB
}.
Arguments mkChannel {CB}.
Arguments loop_ {CB}. Arguments fd_ {CB}. Arguments events_ {CB}. Arguments revents_ {CB}.
Arguments index_ {CB}. Arguments tie_ {CB}. Arguments tied_ {CB}.
Arguments eventHandling_ {CB}. Arguments addedToLoop_ {CB}.
Arguments readCallback_ {CB}. Arguments writeCallback_ {CB}.
Arguments closeCallback_ {CB}. Arguments errorCallback_ {CB}.

Section Channel.
Context {CB : Type}.
Implicit Types c : Channel CB.

Definition Channel_ctor (loop : Ptr) (fd : Z) : Channel CB :=
  mkChannel loop fd 0 0 (-1) 0 false false false None None None None.

(** *** Member functions that only touch the object *)
Definition set_events (e : Z) c : Channel CB :=
  mkChannel (loop_ c) (fd_ c) e (revents_ c) (index_ c) (tie_ c) (tied_ c)
    (eventHandling_ c) (addedToLoop_ c) (readCallback_ c) (writeCallback_ c)
    (closeCallback_ c) (errorCallback_ c).
Definition set_revents (revt : Z) c : Channel CB :=
  mkChannel (loop_ c) (fd_ c) (events_ c) revt (index_ c) (tie_ c) (tied_ c)
    (eventHandling_ c) (addedToLoop_ c) (readCallback_ c) (writeCallback_ c)
    (closeCallback_ c) (errorCallback_ c).
Definition set_index (idx : Z) c : Channel CB :=
  mkChannel (loop_ c) (fd_ c) (events_ c) (revents_ c) idx (tie_ c) (tied_ c)
    (eventHandling_ c) (addedToLoop_ c) (readCallback_ c) (writeCallback_ c)
    (closeCallback_ c) (errorCallback_ c).
Definition set_eventHandling (b : bool) c : Channel CB :=
  mkChannel (loop_ c) (fd_ c) (events_ c) (revents_ c) (index_ c) (tie_ c) (tied_ c)
    b (addedToLoop_ c) (readCallback_ c) (writeCallback_ c)
    (closeCallback_ c) (errorCallback_ c).
Definition set_addedToLoop (b : bool) c : Channel CB :=
  mkChannel (loop_ c) (fd_ c) (events_ c) (revents_ c) (index_ c) (tie_ c) (tied_ c)
    (eventHandling_ c) b (readCallback_ c) (writeCallback_ c)
    (closeCallback_ c) (errorCallback_ c).
Definition tie (obj : Ptr) c : Channel CB :=
  mkChannel (loop_ c) (fd_ c) (events_ c) (revents_ c) (index_ c) obj true
    (eventHandling_ c) (addedToLoop_ c) (readCallback_ c) (writeCallback_ c)
    (closeCallback_ c) (errorCallback_ c).
Definition setReadCallback (cb : CB) c : Channel CB :=
  mkChannel (loop_ c) (fd_ c) (events_ c) (revents_ c) (index_ c) (tie_ c) (tied_ c)
    (eventHandling_ c) (addedToLoop_ c) (Some cb) (writeCallback_ c)
    (closeCallback_ c) (errorCallback_ c).
Definition setWriteCallback (cb : CB) c : Channel CB :=
  mkChannel (loop_ c) (fd_ c) (events_ c) (revents_ c) (index_ c) (tie_ c) (tied_ c)
    (eventHandling_ c) (addedToLoop_ c) (readCallback_ c) (Some cb)
    (closeCallback_ c) (errorCallback_ c).
Definition setCloseCallback (cb : CB) c : Channel CB :=
  mkChannel (loop_ c) (fd_ c) (events_ c) (revents_ c) (index_ c) (tie_ c) (tied_ c)
    (eventHandling_ c) (addedToLoop_ c) (readCallback_ c) (writeCallback_ c)
    (Some cb) (errorCallback_ c).
Definition setErrorCallback (cb : CB) c : Channel CB :=
  mkChannel (loop_ c) (fd_ c) (events_ c) (revents_ c) (index_ c) (tie_ c) (tied_ c)
    (eventHandling_ c) (addedToLoop_ c) (readCallback_ c) (writeCallback_ c)
    (closeCallback_ c) (Some cb).

Definition isNoneEvent c : bool := events_ c =? kNoneEvent.
Definition isWriting c : bool := has (events_ c) kWriteEvent.
Definition isReading c : bool := has (events_ c) kReadEvent.

(** The assignment to [events_] each of these makes before it calls [update()]. *)
Definition or_read c : Channel CB := set_events (Z.lor (events_ c) kReadEvent) c.
Definition clear_read c : Channel CB := set_events (Z.land (events_ c) (Z.lnot kReadEvent)) c.
Definition or_write c : Channel CB := set_events (Z.lor (events_ c) kWriteEvent) c.
Definition clear_write c : Channel CB := set_events (Z.land (events_ c) (Z.lnot kWriteEvent)) c.
Definition clear_all c : Channel CB := set_events kNoneEvent c.
End Channel.

(** ** Masks *)
Lemma has_lor_r x m n : has x (Z.lor m n) = has x m || has x n.
Proof.
  unfold has. rewrite Z.land_lor_distr_r.
  destruct (Z.eqb_spec (Z.land x m) 0) as [->|H1]; simpl; [done|].
  apply negb_true_iff, Z.eqb_neq. rewrite Z.lor_eq_0_iff. tauto.
Qed.

Lemma has_lor_l x y m : has (Z.lor x y) m = has x m || has y m.
Proof. unfold has. rewrite !(Z.land_comm _ m). apply has_lor_r. Qed.

(** Clearing the bits of [m] clears what is inside [m] and nothing disjoint. *)
Lemma has_clear_in x m n : Z.land n m = n → has (Z.land x (Z.lnot m)) n = false.
Proof.
  intros H. unfold has. apply negb_false_iff, Z.eqb_eq. rewrite <-H.
  apply Z.bits_inj'. intros i Hi. rewrite !Z.land_spec, Z.lnot_spec, Z.bits_0 by done.
  destruct (Z.testbit x i), (Z.testbit m i), (Z.testbit n i); done.
Qed.

Lemma has_clear_out x m n : Z.land n m = 0 → has (Z.land x (Z.lnot m)) n = has x n.
Proof.
  intros H. unfold has. do 2 f_equal.
  apply Z.bits_inj'. intros i Hi. rewrite !Z.land_spec, Z.lnot_spec by done.
  assert (Z.testbit (Z.land n m) i = false) as Hb by (rewrite H; apply Z.bits_0).
  rewrite Z.land_spec in Hb. destruct (Z.testbit x i), (Z.testbit m i), (Z.testbit n i); done.
Qed.

Section Flags.
Context {CB : Type}.
Implicit Types c : Channel CB.

Lemma isReading_or_read c : isReading (or_read c) = true.
Proof. unfold isReading, or_read; simpl. rewrite has_lor_l. apply orb_true_r. Qed.
Lemma isWriting_or_read c : isWriting (or_read c) = isWriting c.
Proof. unfold isWriting, or_read; simpl. rewrite has_lor_l. apply orb_false_r. Qed.
Lemma isReading_clear_read c : isReading (clear_read c) = false.
Proof. unfold isReading, clear_read; simpl. by apply has_clear_in. Qed.
Lemma isWriting_clear_read c : isWriting (clear_read c) = isWriting c.
Proof. unfold isWriting, clear_read; simpl. by apply has_clear_out. Qed.
Lemma isWriting_or_write c : isWriting (or_write c) = true.
Proof. unfold isWriting, or_write; simpl. rewrite has_lor_l. apply orb_true_r. Qed.
Lemma isReading_or_write c : isReading (or_write c) = isReading c.
Proof. unfold isReading, or_write; simpl. rewrite has_lor_l. apply orb_false_r. Qed.
Lemma isWriting_clear_write c : isWriting (clear_write c) = false.
Proof. unfold isWriting, clear_write; simpl. by apply has_clear_in. Qed.
Lemma isReading_clear_write c : isReading (clear_write c) = isReading c.
Proof. unfold isReading, clear_write; simpl. by apply has_clear_out. Qed.
Lemma isReading_clear_all c : isReading (clear_all c) = false.
Proof. done. Qed.
Lemma isWriting_clear_all c : isWriting (clear_all c) = false.
Proof. done. Qed.
End Flags.

Create Rewrite HintDb flags.
#[export] Hint Rewrite @isReading_or_read @isWriting_or_read @isReading_clear_read
  @isWriting_clear_read @isWriting_or_write @isReading_or_write @isWriting_clear_write
  @isReading_clear_write @isReading_clear_all @isWriting_clear_all : flags.

(** [Channel::eventsToString(fd, ev)] *)
Definition eventsToString (fd ev : Z) : string :=
  (pretty fd +:+ ": "
   +:+ (if has ev POLLIN then "IN " else "")
   +:+ (if has ev POLLPRI then "PRI " else "")
   +:+ (if has ev POLLOUT then "OUT " else "")
   +:+ (if has ev POLLHUP then "HUP " else "")
   +:+ (if has ev POLLRDHUP then "RDHUP " else "")
   +:+ (if has ev POLLERR then "ERR " else "")
   +:+ (if has ev POLLNVAL then "NVAL " else ""))%string.

Definition reventsToString {CB} (c : Channel CB) : string := eventsToString (fd_ c) (revents_ c).

(** ** Where channels live

    A world in which a channel is found by its address.  Looking up an address
    that holds no live channel is undefined behaviour. *)
Class ChannelStore (CB W : Type) := {
  chan_lookup : W → Ptr → option (Channel CB);
  chan_insert : Ptr → Channel CB → W → W;
  chan_lookup_insert w p c : chan_lookup (chan_insert p c w) p = Some c;
  chan_lookup_insert_ne w p q c : p ≠ q → chan_lookup (chan_insert p c w) q = chan_lookup w q
}.
#[global] Hint Mode ChannelStore - ! : typeclass_instances.

#[export] Program Instance gmap_channel_store CB : ChannelStore CB (gmap Ptr (Channel CB)) := {
  chan_lookup w p := w !! p;
  chan_insert p c w := <[p := c]> w
}.
Next Obligation. intros. apply lookup_insert_eq. Qed.
Next Obligation. intros. by apply lookup_insert_ne. Qed.

Section Dispatch.
Context {CB W : Type} `{!ChannelStore CB W}.
(** [call cb now w] runs a callback (only the read callback looks at [now]);
    [lock w p] says whether the weak pointer to owner [p] can still be locked. *)
Context (call : CB → Z → W → outcome W) (lock : W → Ptr → bool).

Definition deref (w : W) (p : Ptr) : outcome (Channel CB) :=
  match chan_lookup w p with Some c => Ok c | None => Fail UB end.

Definition modify (p : Ptr) (f : Channel CB → Channel CB) (w : W) : outcome W :=
  c ← deref w p; Ok (chan_insert p (f c) w).

(** [if (revents_ & ...) if (callback) callback();] *)
Definition dispatch1 (p : Ptr) (now : Z) (test : Z → bool)
    (callback : Channel CB → option CB) (w : W) : outcome W :=
  c ← deref w p;
  if test (revents_ c)
  then match callback c with Some cb => call cb now w | None => Ok w end
  else Ok w.

Definition close_test (revents : Z) : bool := has revents POLLHUP && negb (has revents POLLIN).
Definition error_test (revents : Z) : bool := has revents (Z.lor POLLERR POLLNVAL).
Definition read_test (revents : Z) : bool :=
  has revents (Z.lor (Z.lor POLLIN POLLPRI) POLLRDHUP).
Definition write_test (revents : Z) : bool := has revents POLLOUT.

Definition handleEventWithGuard (p : Ptr) (receiveTime : Z) (w : W) : outcome W :=
  w ← modify p (set_eventHandling true) w;
  w ← dispatch1 p receiveTime close_test closeCallback_ w;
  w ← dispatch1 p receiveTime error_test errorCallback_ w;
  w ← dispatch1 p receiveTime read_test readCallback_ w;
  w ← dispatch1 p receiveTime write_test writeCallback_ w;
  modify p (set_eventHandling false) w.

Definition handleEvent (p : Ptr) (receiveTime : Z) (w : W) : outcome W :=
  c ← deref w p;
  if tied_ c
  then if lock w (tie_ c) then handleEventWithGuard p receiveTime w else Ok w
  else handleEventWithGuard p receiveTime w.

(** ** Which callbacks run *)
Definition fires (test : Z → bool) (callback : option CB) (revents : Z) : list CB :=
  if test revents then option_list callback else [].

Definition fired (c : Channel CB) : list CB :=
  fires close_test (closeCallback_ c) (revents_ c) ++
  fires error_test (errorCallback_ c) (revents_ c) ++
  fires read_test (readCallback_ c) (revents_ c) ++
  fires write_test (writeCallback_ c) (revents_ c).

Fixpoint call_all (cbs : list CB) (now : Z) (w : W) : outcome W :=
  match cbs with
  | [] => Ok w
  | cb :: cbs' => w ← call cb now w; call_all cbs' now w
  end.

(** The part of a channel that decides the dispatch. *)
Definition same_dispatch (c c' : Channel CB) : Prop :=
  revents_ c' = revents_ c ∧
  readCallback_ c' = readCallback_ c ∧ writeCallback_ c' = writeCallback_ c ∧
  closeCallback_ c' = closeCallback_ c ∧ errorCallback_ c' = errorCallback_ c.

(** Callbacks do not destroy the channel that runs them, nor rewire it. *)
Definition calls_keep (p : Ptr) : Prop :=
  ∀ cb now w w' c, call cb now w = Ok w' → chan_lookup w p = Some c →
    ∃ c', chan_lookup w' p = Some c' ∧ same_dispatch c c'.

Lemma call_all_app cbs1 cbs2 now w :
  call_all (cbs1 ++ cbs2) now w = (w ← call_all cbs1 now w; call_all cbs2 now w).
Proof.
  revert w. induction cbs1 as [|cb cbs1 IH]; intros w; simpl; [done|].
  destruct (call cb now w); simpl; [apply IH|done].
Qed.

Lemma modify_ok p f w c :
  chan_lookup w p = Some c → modify p f w = Ok (chan_insert p (f c) w).
Proof. intros Hc. unfold modify, deref. by rewrite Hc. Qed.

Lemma same_dispatch_trans c1 c2 c3 :
  same_dispatch c1 c2 → same_dispatch c2 c3 → same_dispatch c1 c3.
Proof. unfold same_dispatch. intuition congruence. Qed.

Lemma call_all_keeps p cbs : calls_keep p → ∀ now w w' c,
  call_all cbs now w = Ok w' → chan_lookup w p = Some c →
  ∃ c', chan_lookup w' p = Some c' ∧ same_dispatch c c'.
Proof.
  intros Hk. induction cbs as [|cb cbs IH]; intros now w w' c E Hc; simpl in E.
  { injection E as <-. exists c. done. }
  destruct (call cb now w) as [w1|] eqn:E1; simpl in E; [|done].
  destruct (Hk _ _ _ _ _ E1 Hc) as (c1 & Hc1 & Hs1).
  destruct (IH _ _ _ _ E Hc1) as (c2 & Hc2 & Hs2).
  exists c2. eauto using same_dispatch_trans.
Qed.

(** One [if] of [handleEventWithGuard]. *)
Lemma dispatch1_same p now test callback w c0 c :
  calls_keep p → chan_lookup w p = Some c → same_dispatch c0 c →
  (∀ c', same_dispatch c0 c' → callback c' = callback c0) →
  ∃ m, dispatch1 p now test callback w = m ∧
       m = call_all (fires test (callback c0) (revents_ c0)) now w ∧
       ∀ w', m = Ok w' → ∃ c', chan_lookup w' p = Some c' ∧ same_dispatch c0 c'.
Proof.
  intros Hk Hc Hs Hcb. eexists; split; [done|].
  assert (dispatch1 p now test callback w =
    call_all (fires test (callback c0) (revents_ c0)) now w) as E.
  { unfold dispatch1, deref, fires. rewrite Hc. simpl. rewrite (Hcb _ Hs).
    destruct Hs as [-> _]. destruct (test (revents_ c0)); [|done].
    destruct (callback c0) as [cb|]; [|done]. simpl. by destruct (call cb now w). }
  split; [done|]. rewrite E. intros w' E'.
  destruct (call_all_keeps p _ Hk _ _ _ _ E' Hc) as (c' & ? & ?).
  exists c'. eauto using same_dispatch_trans.
Qed.

Lemma handleEventWithGuard_fired p now w c :
  calls_keep p → chan_lookup w p = Some c →
  handleEventWithGuard p now w =
    (w' ← call_all (fired c) now (chan_insert p (set_eventHandling true c) w);
     modify p (set_eventHandling false) w').
Proof.
  intros Hk Hc. unfold handleEventWithGuard. rewrite (modify_ok p _ w c) by done. simpl.
  set (w0 := chan_insert _ _ w). set (c0 := set_eventHandling true c).
  assert (chan_lookup w0 p = Some c0) as Hc0 by apply chan_lookup_insert.
  change (fired c) with (fired c0). clearbody w0 c0. clear c Hc.
  unfold fired. rewrite call_all_app.
  assert (same_dispatch c0 c0) as Hs0 by done.
  destruct (dispatch1_same p now close_test closeCallback_ w0 c0 c0 Hk Hc0 Hs0)
    as (m & -> & E & H); [unfold same_dispatch; intuition congruence|].
  rewrite <-E; clear E. destruct m as [w1|]; [simpl|done].
  destruct (H w1 eq_refl) as (c1 & Hc1 & Hs1); clear H.
  destruct (dispatch1_same p now error_test errorCallback_ w1 c0 c1 Hk Hc1 Hs1)
    as (m & -> & E & H); [unfold same_dispatch; intuition congruence|].
  rewrite call_all_app. rewrite <-E; clear E. destruct m as [w2|]; [simpl|done].
  destruct (H w2 eq_refl) as (c2 & Hc2 & Hs2); clear H.
  destruct (dispatch1_same p now read_test readCallback_ w2 c0 c2 Hk Hc2 Hs2)
    as (m & -> & E & H); [unfold same_dispatch; intuition congruence|].
  rewrite call_all_app. rewrite <-E; clear E. destruct m as [w3|]; [simpl|done].
  destruct (H w3 eq_refl) as (c3 & Hc3 & Hs3); clear H.
  destruct (dispatch1_same p now write_test writeCallback_ w3 c0 c3 Hk Hc3 Hs3)
    as (m & -> & E & _); [unfold same_dispatch; intuition congruence|].
  by rewrite <-E.
Qed.

(** The whole of [handleEvent]: nothing runs for an owner that is gone. *)
Lemma handleEvent_cases p now w c :
  chan_lookup w p = Some c →
  handleEvent p now w =
    if tied_ c && negb (lock w (tie_ c)) then Ok w else handleEventWithGuard p now w.
Proof.
  intros Hc. unfold handleEvent, deref. rewrite Hc. simpl.
  destruct (tied_ c); [|done]. by destruct (lock w (tie_ c)).
Qed.

(** ** Properties of the dispatch *)

(** C32: [handleEvent] runs nothing when the tied owner is gone.  Otherwise it
    brackets the dispatch with [eventHandling_] and calls, once each and in this
    order, the close callback (hang-up with nothing left to read), the error
    callback (error or invalid descriptor), the read callback (data, urgent data
    or the peer's half close) and the write callback, each only if it is set. *)
Theorem handleEvent_dispatches p now w c :
  calls_keep p → chan_lookup w p = Some c →
  handleEvent p now w =
    if tied_ c && negb (lock w (tie_ c)) then Ok w
    else w' ← call_all
           ((if has (revents_ c) POLLHUP && negb (has (revents_ c) POLLIN)
             then option_list (closeCallback_ c) else []) ++
            (if has (revents_ c) POLLERR || has (revents_ c) POLLNVAL
             then option_list (errorCallback_ c) else []) ++
            (if has (revents_ c) POLLIN || has (revents_ c) POLLPRI || has (revents_ c) POLLRDHUP
             then option_list (readCallback_ c) else []) ++
            (if has (revents_ c) POLLOUT then option_list (writeCallback_ c) else []))
           now (chan_insert p (set_eventHandling true c) w);
         modify p (set_eventHandling false) w'.
Proof.
  intros Hk Hc. rewrite (handleEvent_cases p now w c) by done.
  destruct (tied_ c && negb (lock w (tie_ c))); [done|].
  rewrite (handleEventWithGuard_fired p now w c) by done.
  unfold fired, fires, close_test, error_test, read_test, write_test.
  by rewrite !has_lor_r.
Qed.
End Dispatch.

(** *** A world that logs the callbacks it runs, to evaluate a dispatch *)
#[export] Program Instance logging_store CB : ChannelStore CB (gmap Ptr (Channel CB) * list CB) := {
  chan_lookup w p := w.1 !! p;
  chan_insert p c w := (<[p := c]> w.1, w.2)
}.
Next Obligation. intros. apply lookup_insert_eq. Qed.
Next Obligation. intros. by apply lookup_insert_ne. Qed.

Definition log_call {CB} (cb : CB) (now : Z) (w : gmap Ptr (Channel CB) * list CB)
    : outcome (gmap Ptr (Channel CB) * list CB) := Ok (w.1, w.2 ++ [cb]).

Lemma log_call_keeps {CB} (p : Ptr) : calls_keep (@log_call CB) p.
Proof. intros cb now w w' c E Hc. injection E as <-. exists c. done. Qed.

Definition demo_channel : Channel string :=
  set_revents (Z.lor POLLHUP (Z.lor POLLERR POLLOUT))
    (setCloseCallback "close" (setErrorCallback "error" (setReadCallback "read"
      (setWriteCallback "write" (Channel_ctor 1 7)))))%string.

Definition demo_world : gmap Ptr (Channel string) * list string := ({[5 := demo_channel]}, []).

Lemma handleEvent_dispatches_witness :
  calls_keep (@log_call string) 5 ∧
  ∃ w, handleEvent log_call (λ _ _, false) 5 0 demo_world = Ok w ∧
       w.2 = ["close"; "error"; "write"]%string.
Proof.
  split; [apply log_call_keeps|]. eexists. split.
  - rewrite (handleEvent_dispatches log_call (λ _ _, false) 5 0 demo_world demo_channel (log_call_keeps 5)
      ltac:(vm_compute; reflexivity)).
    vm_compute. reflexivity.
  - reflexivity.
Defined.
