(* ===== verification/Poller.v ===== *)
(** [kaycc::net::Poller] ([src/net/poller.h], [src/net/poller.cpp]): what both
    pollers share, and the interface the event loop programs against.

    The state a poller works on is a pair: the channel objects by address, and
    the poller itself.  [Poller] is the class of implementations; its laws are
    what [Reactor.v] relies on and what [EPollPoller.v] and [PollPoller.v] prove. *)
From stdpp Require Import gmap.
From S2P Require Import Prelude Channel.

(** All channel objects, by address. *)
Abbreviation objs CB := (gmap Ptr (Channel CB)).

(** [ownerLoop_->assertInLoopThread()]: [abort()] off the loop's thread. *)
Definition assertInLoopThread (in_loop : bool) : outcome unit :=
  if in_loop then Ok tt else Fail Aborted.

(** The object at an address: undefined behaviour when there is none. *)
Definition obj {CB} (os : objs CB) (ch : Ptr) : outcome (Channel CB) :=
  match os !! ch with Some c => Ok c | None => Fail UB end.

(** [Poller::hasChannel] *)
Definition hasChannel {CB} (in_loop : bool) (os : objs CB) (channels_ : gmap Z Ptr) (ch : Ptr)
    : outcome bool :=
  _ ← assertInLoopThread in_loop;
  c ← obj os ch;
  Ok (match channels_ !! fd_ c with Some ch' => bool_decide (ch' = ch) | None => false end).

(** The second half of [Poller::newDefaultPoller]'s decision: which poller. *)
Inductive poller_kind := PollPollerKind | EPollPollerKind.
Definition newDefaultPoller (env_MUDUO_USE_POLL : bool) : poller_kind :=
  if env_MUDUO_USE_POLL then PollPollerKind else EPollPollerKind.

(** Event masks a channel may ask for: they fit the [short] of [pollfd]. *)
Definition mask_ok (e : Z) : Prop := 0 ≤ e < 2 ^ 15.

(** Descriptors: non-negative, and below the [int] that counts them. *)
Definition fd_ok (fd : Z) : Prop := 0 ≤ fd < 2 ^ 31 - 1.

(** Two versions of a channel that differ in the poller's own field only. *)
Definition same_but_index {CB} (c c' : Channel CB) : Prop := set_index 0 c = set_index 0 c'.

(** Two versions of a channel no poller tells apart. *)
Definition same_for_poller {CB} (c c' : Channel CB) : Prop :=
  fd_ c' = fd_ c ∧ events_ c' = events_ c ∧ index_ c' = index_ c.

(** Channels that are not [ch] may only have their index changed. *)
Definition others_kept {CB} (ch : Ptr) (os os' : objs CB) : Prop :=
  ∀ q, q ≠ ch → option_Forall2 same_but_index (os !! q) (os' !! q).

(** ** The interface

    [watch p] maps a descriptor to the events the kernel will be asked for; a
    descriptor outside it is not watched, one mapped to 0 still reports errors
    and hang-ups. *)
Class Poller (CB P : Type) := {
  channels : P → gmap Z Ptr;
  watch : P → gmap Z Z;
  updateChannel : bool → Ptr → objs CB * P → outcome (objs CB * P);
  removeChannel : bool → Ptr → objs CB * P → outcome (objs CB * P);
  poller_inv : objs CB → P → Prop;

  poller_registered os p fd ch :
    poller_inv os p → channels p !! fd = Some ch → ∃ c, os !! ch = Some c ∧ fd_ c = fd;

  (** Objects come and go, and change in what is not the poller's. *)
  poller_frame os os' p :
    poller_inv os p →
    (∀ fd ch, channels p !! fd = Some ch → option_Forall2 same_for_poller (os !! ch) (os' !! ch)) →
    (∀ ch c', os' !! ch = Some c' →
       index_ c' = -1 ∨ ∃ c, os !! ch = Some c ∧ same_for_poller c c') →
    poller_inv os' p;

  (** [c] is the channel before its [events_] were assigned [e]. *)
  poller_update os p ch c e :
    poller_inv os p → os !! ch = Some c → fd_ok (fd_ c) → mask_ok e →
    channels p !! fd_ c = Some ch ∨ (channels p !! fd_ c = None ∧ index_ c = -1) →
    ∃ os' p' idx,
      updateChannel true ch (<[ch := set_events e c]> os, p) = Ok (os', p') ∧
      poller_inv os' p' ∧
      os' = <[ch := set_index idx (set_events e c)]> os ∧
      channels p' = <[fd_ c := ch]> (channels p) ∧
      (e ≠ 0 → watch p' !! fd_ c = Some e) ∧
      (e = 0 → watch p' !! fd_ c = None ∨ watch p' !! fd_ c = Some 0) ∧
      (e = 0 → is_Some (watch p !! fd_ c) → watch p' !! fd_ c = None) ∧
      ∀ fd, fd ≠ fd_ c → watch p' !! fd = watch p !! fd;

  poller_remove os p ch c :
    poller_inv os p → os !! ch = Some c → channels p !! fd_ c = Some ch →
    events_ c = 0 → watch p !! fd_ c = None →
    ∃ os' p',
      removeChannel true ch (os, p) = Ok (os', p') ∧
      poller_inv os' p' ∧
      option_Forall2 same_but_index (Some c) (os' !! ch) ∧ others_kept ch os os' ∧
      channels p' = delete (fd_ c) (channels p) ∧
      watch p' = watch p
}.
#[global] Hint Mode Poller - ! : typeclass_instances.

(** *** Polling

    [polled st m]: [m] is what [poll] may answer in [st], the kernel being what it
    is: the objects with the reported events stored, the poller, the channels
    reported. *)
Definition same_but_revents {CB} (c c' : Channel CB) : Prop := set_revents 0 c = set_revents 0 c'.

Class Polls (CB P : Type) `{!Poller CB P} := {
  polled : objs CB * P → outcome (objs CB * P * list Ptr) → Prop;
  poll_returns os p m :
    poller_inv os p → polled (os, p) m →
    ∃ os' p' active, m = Ok (os', p', active) ∧ poller_inv os' p' ∧
      channels p' = channels p ∧ watch p' = watch p ∧
      (∀ ch, ch ∈ active → ∃ c, os !! ch = Some c ∧ channels p !! fd_ c = Some ch) ∧
      ∀ q, option_Forall2 same_but_revents (os !! q) (os' !! q)
}.

Lemma same_but_revents_poller {CB} (c c' : Channel CB) : same_but_revents c c' → same_for_poller c c'.
Proof.
  intros H. by split_and!; [apply (f_equal fd_) in H|apply (f_equal events_) in H|apply (f_equal index_) in H].
Qed.

Lemma alter_revents_same {CB} (os os' : objs CB) ch r q :
  option_Forall2 same_but_revents (alter (set_revents r) ch os !! q) (os' !! q) →
  option_Forall2 same_but_revents (os !! q) (os' !! q).
Proof.
  rewrite lookup_alter. case_decide as Hq; [subst q|done]. destruct (os !! ch) as [c|]; simpl; [|done].
  intros H. inversion H as [? c' Hs Heq|]; subst. constructor. exact Hs.
Qed.

Lemma same_but_index_refl {CB} (c : Channel CB) : same_but_index c c.
Proof. done. Qed.

Lemma same_but_index_set {CB} (c : Channel CB) i : same_but_index c (set_index i c).
Proof. done. Qed.

Lemma set_index_same {CB} (c : Channel CB) i : index_ c = i → set_index i c = c.
Proof. intros <-. by destruct c. Qed.

Lemma same_but_index_fields {CB} (c c' : Channel CB) :
  same_but_index c c' → fd_ c' = fd_ c ∧ events_ c' = events_ c ∧ loop_ c' = loop_ c ∧
  eventHandling_ c' = eventHandling_ c ∧ addedToLoop_ c' = addedToLoop_ c.
Proof. unfold same_but_index. destruct c, c'; simpl. by intros [= -> -> -> -> -> -> -> -> -> -> -> ->]. Qed.

#[export] Hint Resolve same_but_index_refl same_but_index_set : kaycc.
