(* ===== verification/EPollPoller.v ===== *)
(** [kaycc::net::EPollPoller] ([src/net/poller/epollpoller.h],
    [src/net/poller/epollpoller.cpp]).

    epoll itself is the kernel's, and [epollfd_] is the kernel's epoll instance:
    [EpollCtl] is what epoll_ctl(2) documents, [EpollKernel] the same for a kernel
    that refuses no call it could carry out. *)
From stdpp Require Import strings gmap.
From S2P Require Import Prelude Channel Poller.

Inductive epoll_op := EPOLL_CTL_ADD | EPOLL_CTL_DEL | EPOLL_CTL_MOD.
#[export] Instance epoll_op_eq_dec : EqDecision epoll_op.
Proof. solve_decision. Defined.

(** struct epoll_event: the event mask and [data.ptr]. *)
Abbreviation epoll_event := (Z * Ptr)%type.

(** What a call asks of the interest list, and what it does to it. *)
Definition ctl_valid (op : epoll_op) (fd : Z) (l : gmap Z epoll_event) : Prop :=
  match op with EPOLL_CTL_ADD => l !! fd = None | _ => is_Some (l !! fd) end.
Definition ctl_entry (op : epoll_op) (ev : epoll_event) : option epoll_event :=
  match op with EPOLL_CTL_DEL => None | _ => Some ev end.

(** epoll_ctl(2) either does what it is asked and returns 0, or fails and changes
    nothing: with EEXIST or ENOENT when the interest list does not allow it, but
    also with EBADF, EPERM, ENOMEM or ENOSPC.  Taking a watched descriptor out
    does not fail. *)
Class EpollCtl (K : Type) := {
  epoll_ctl : K → epoll_op → Z → epoll_event → K * Z;
  interest : K → gmap Z epoll_event;
  ctl_done k op fd ev : (epoll_ctl k op fd ev).2 = 0 →
    ctl_valid op fd (interest k) ∧
    interest (epoll_ctl k op fd ev).1 = partial_alter (λ _, ctl_entry op ev) fd (interest k);
  ctl_failed k op fd ev : (epoll_ctl k op fd ev).2 ≠ 0 →
    interest (epoll_ctl k op fd ev).1 = interest k;
  ctl_del k fd ev : is_Some (interest k !! fd) → (epoll_ctl k EPOLL_CTL_DEL fd ev).2 = 0
}.
#[global] Hint Mode EpollCtl ! : typeclass_instances.

(** A kernel that refuses nothing it could do (the descriptors are open and of a
    pollable kind, memory and watches do not run out): what the layers above
    assume of the kernel where they rely on being woken up. *)
Class EpollKernel (K : Type) := {
  kernel_ctl :: EpollCtl K;
  ctl_granted (k : K) op fd ev : ctl_valid op fd (interest k) → (epoll_ctl k op fd ev).2 = 0
}.
#[global] Hint Mode EpollKernel ! : typeclass_instances.

Definition kInitEventListSize : Z := 16.

Record EPollPoller (K : Type) := mkEPollPoller {
  channels_ : gmap Z Ptr;
  epollfd_ : K;
  events_size : Z   (* events_.size(): the array epoll_wait fills *)
}.
Arguments mkEPollPoller {K}.
Arguments channels_ {K}. Arguments epollfd_ {K}. Arguments events_size {K}.

Definition operationToString (op : epoll_op) : string :=
  match op with EPOLL_CTL_ADD => "ADD" | EPOLL_CTL_DEL => "DEL" | EPOLL_CTL_MOD => "MOD" end.

Section EPollPoller.
Context {CB K : Type} `{!EpollCtl K}.
Implicit Types (os : objs CB) (p : EPollPoller K) (c : Channel CB).

Definition EPollPoller_ctor (k : K) : EPollPoller K := mkEPollPoller ∅ k kInitEventListSize.

(** [EPollPoller::update]: a failing epoll_ctl is only logged. *)
Definition update (operation : epoll_op) (ch : Ptr) (st : objs CB * EPollPoller K)
    : outcome (objs CB * EPollPoller K) :=
  let '(os, p) := st in
  c ← obj os ch;
  let event := (u32 (events_ c), ch) in
  let '(k', ret) := epoll_ctl (epollfd_ p) operation (fd_ c) event in
  Ok (os, mkEPollPoller (channels_ p) k' (events_size p)).

Definition epoll_set_index (idx : Z) (ch : Ptr) (st : objs CB * EPollPoller K)
    : outcome (objs CB * EPollPoller K) :=
  c ← obj st.1 ch; Ok (<[ch := set_index idx c]> st.1, st.2).

Definition updateChannel (in_loop : bool) (ch : Ptr) (st : objs CB * EPollPoller K)
    : outcome (objs CB * EPollPoller K) :=
  let '(os, p) := st in
  _ ← assertInLoopThread in_loop;
  c ← obj os ch;
  let index := index_ c in
  let fd := fd_ c in
  if (index =? kNew) || (index =? kDeleted) then
    p ← (if index =? kNew then
           assert! bool_decide (channels_ p !! fd = None);;
           Ok (mkEPollPoller (<[fd := ch]> (channels_ p)) (epollfd_ p) (events_size p))
         else
           assert! bool_decide (is_Some (channels_ p !! fd));;
           assert! bool_decide (channels_ p !! fd = Some ch);;
           Ok p);
    st ← epoll_set_index kAdded ch (os, p);
    update EPOLL_CTL_ADD ch st
  else
    assert! bool_decide (is_Some (channels_ p !! fd));;
    assert! bool_decide (channels_ p !! fd = Some ch);;
    assert! index =? kAdded;;
    if isNoneEvent c then
      st ← update EPOLL_CTL_DEL ch (os, p);
      epoll_set_index kDeleted ch st
    else
      update EPOLL_CTL_MOD ch (os, p).

Definition removeChannel (in_loop : bool) (ch : Ptr) (st : objs CB * EPollPoller K)
    : outcome (objs CB * EPollPoller K) :=
  let '(os, p) := st in
  _ ← assertInLoopThread in_loop;
  c ← obj os ch;
  let fd := fd_ c in
  assert! bool_decide (is_Some (channels_ p !! fd));;
  assert! bool_decide (channels_ p !! fd = Some ch);;
  assert! isNoneEvent c;;
  let index := index_ c in
  assert! (index =? kAdded) || (index =? kDeleted);;
  let p := mkEPollPoller (delete fd (channels_ p)) (epollfd_ p) (events_size p) in
  st ← (if index =? kAdded then update EPOLL_CTL_DEL ch (os, p) else Ok (os, p));
  epoll_set_index kNew ch st.

(** [fillActiveChannels] on the [numEvents] entries epoll_wait wrote; the
    checks inside [#ifndef NDEBUG] are on. *)
Fixpoint fillActiveChannels (evs : list epoll_event) (p : EPollPoller K) (os : objs CB)
    (activeChannels : list Ptr) : outcome (objs CB * list Ptr) :=
  match evs with
  | [] => Ok (os, activeChannels)
  | (events, channel) :: evs' =>
    c ← obj os channel;
    assert! bool_decide (is_Some (channels_ p !! fd_ c));;
    assert! bool_decide (channels_ p !! fd_ c = Some channel);;
    fillActiveChannels evs' p (<[channel := set_revents (s32 events) c]> os)
      (activeChannels ++ [channel])
  end.

(** [poll]: [wait] is what epoll_wait answers, given [maxevents]: an errno or
    the events.  The clock is read after it and is the return value. *)
Definition poll (wait : Z → Z + list epoll_event) (now : Z) (activeChannels : list Ptr)
    (st : objs CB * EPollPoller K)
    : outcome (objs CB * EPollPoller K * list Ptr * Z) :=
  let '(os, p) := st in
  match wait (s32 (events_size p)) with
  | inr evs =>
    if 0 <? sz evs then
      assert! sz evs <=? events_size p;;
      '(os, activeChannels) ← fillActiveChannels evs p os activeChannels;
      let p := if sz evs =? events_size p
               then mkEPollPoller (channels_ p) (epollfd_ p) (u64 (events_size p * 2)) else p in
      Ok (os, p, activeChannels, now)
    else Ok (os, p, activeChannels, now)
  | inl savedErrno => Ok (os, p, activeChannels, now)
  end.
End EPollPoller.

(** ** What [index_] means

    [kAdded]: in [channels_] and in the kernel's interest list, with the
    channel's events.  [kDeleted]: in [channels_], not in the interest list, no
    events.  [kNew]: in neither.  [lost] are the channels whose last change the
    kernel refused, which the code only logs: they are [kAdded] all the same,
    and the kernel has no entry for them or an old one. *)
Section Proofs.
Context {CB K : Type} `{!EpollCtl K}.
Implicit Types (os : objs CB) (p : EPollPoller K) (c : Channel CB) (lost : gset Ptr).

Definition entry_as lost (ent : option epoll_event) (ch : Ptr) (c : Channel CB) : Prop :=
  ((ch ∉ lost) ∧ ent = Some (events_ c, ch)) ∨ (ch ∈ lost ∧ ∀ ev, ent = Some ev → ev.2 = ch).

Definition watched_as lost (p : EPollPoller K) (fd : Z) (ch : Ptr) (c : Channel CB) : Prop :=
  fd_ c = fd ∧
  ((index_ c = kAdded ∧ mask_ok (events_ c) ∧ entry_as lost (interest (epollfd_ p) !! fd) ch c) ∨
   (index_ c = kDeleted ∧ events_ c = 0 ∧ (ch ∉ lost) ∧ interest (epollfd_ p) !! fd = None)).

Definition epoll_state lost os p : Prop :=
  (∀ fd ch, channels_ p !! fd = Some ch → ∃ c, os !! ch = Some c ∧ watched_as lost p fd ch c) ∧
  (∀ fd, channels_ p !! fd = None → interest (epollfd_ p) !! fd = None) ∧
  (∀ ch c, os !! ch = Some c → channels_ p !! fd_ c ≠ Some ch → index_ c = kNew) ∧
  (∀ ch, ch ∈ lost → ∃ fd, channels_ p !! fd = Some ch).

(** Nothing was refused. *)
Definition epoll_inv os p : Prop := epoll_state ∅ os p.

Lemma epoll_inv_ctor os k :
  interest k = ∅ → (∀ ch c, os !! ch = Some c → index_ c = kNew) →
  epoll_inv os (EPollPoller_ctor k).
Proof.
  intros Hk Hnew. split_and!; simpl; [by intros ?? ?%lookup_empty_Some| |eauto|set_solver].
  intros. by rewrite Hk, lookup_empty.
Qed.

Lemma u32_mask e : mask_ok e → u32 e = e.
Proof. unfold mask_ok. intros. apply uwrap_small. lia. Qed.

(** What [update] does to the interest list; [granted]: did the kernel do it? *)
Definition granted (op : epoll_op) (p : EPollPoller K) (fd : Z) (ev : epoll_event) : bool :=
  (epoll_ctl (epollfd_ p) op fd ev).2 =? 0.

Lemma update_ok op os p ch c :
  os !! ch = Some c → mask_ok (events_ c) →
  ∃ k', update op ch (os, p) = Ok (os, mkEPollPoller (channels_ p) k' (events_size p)) ∧
        ∀ fd, interest k' !! fd =
          if decide (fd = fd_ c ∧ granted op p (fd_ c) (events_ c, ch) = true)
          then ctl_entry op (events_ c, ch) else interest (epollfd_ p) !! fd.
Proof.
  intros Hc Hm. unfold update, obj. rewrite Hc. simpl. rewrite u32_mask by done.
  exists (epoll_ctl (epollfd_ p) op (fd_ c) (events_ c, ch)).1.
  split; [by destruct (epoll_ctl _ _ _ _)|]. intros fd. unfold granted.
  destruct (Z.eqb_spec (epoll_ctl (epollfd_ p) op (fd_ c) (events_ c, ch)).2 0) as [E|E].
  - destruct (ctl_done _ _ _ _ E) as [_ ->]. destruct (decide (fd = fd_ c)) as [->|Hne].
    + by rewrite lookup_partial_alter_eq, decide_True.
    + by rewrite lookup_partial_alter_ne, decide_False by naive_solver.
  - by rewrite (ctl_failed _ _ _ _ E), decide_False by naive_solver.
Qed.

(** Changing one registered channel together with its kernel entry keeps the
    invariant for the others. *)
Lemma epoll_state_step lost lost' os p ch c0 c k' :
  epoll_state lost os p → os !! ch = Some c0 → fd_ c = fd_ c0 →
  channels_ p !! fd_ c = Some ch ∨ channels_ p !! fd_ c = None →
  (∀ q, q ≠ ch → q ∈ lost' ↔ q ∈ lost) →
  (∀ fd, fd ≠ fd_ c → interest k' !! fd = interest (epollfd_ p) !! fd) →
  (index_ c = kAdded ∧ mask_ok (events_ c) ∧ entry_as lost' (interest k' !! fd_ c) ch c) ∨
  (index_ c = kDeleted ∧ events_ c = 0 ∧ (ch ∉ lost') ∧ interest k' !! fd_ c = None) →
  epoll_state lost' (<[ch := c]> os)
    (mkEPollPoller (<[fd_ c := ch]> (channels_ p)) k' (events_size p)).
Proof.
  intros (H1 & H2 & H3 & H4) Hc0 Hfd Hreg Hlost Hk Hw. split_and!; simpl.
  - intros fd q. rewrite lookup_insert. case_decide as Hf.
    + intros [= <-]. exists c. rewrite lookup_insert_eq. subst fd. by split; [|split].
    + intros Hq. destruct (H1 _ _ Hq) as (cq & Hcq & Hfq & Hwq).
      assert (q ≠ ch) as Hne by congruence.
      exists cq. rewrite lookup_insert_ne by congruence. split; [done|].
      split; [done|]. simpl. rewrite Hk by congruence.
      unfold entry_as in *. by rewrite Hlost.
  - intros fd. rewrite lookup_insert. case_decide; [done|]. intros.
    rewrite Hk by congruence. eauto.
  - intros q cq. rewrite !lookup_insert. repeat case_decide; intros; simplify_eq.
    + apply (H3 q cq); [done|]. destruct Hreg; congruence.
    + eauto.
  - intros q Hq. destruct (decide (q = ch)) as [->|Hne]; [exists (fd_ c); by rewrite lookup_insert_eq|].
    apply Hlost in Hq; [|done]. destruct (H4 q Hq) as [fd Hfq]. exists fd.
    rewrite lookup_insert_ne; [done|]. intros <-. destruct Hreg; congruence.
Qed.

(** The registration state of a channel that may be updated. *)
Lemma registered_cases lost os p ch c :
  epoll_state lost os p → os !! ch = Some c →
  channels_ p !! fd_ c = Some ch ∨ (channels_ p !! fd_ c = None ∧ index_ c = -1) →
  (index_ c = kNew ∧ channels_ p !! fd_ c = None ∧ interest (epollfd_ p) !! fd_ c = None) ∨
  (channels_ p !! fd_ c = Some ch ∧ index_ c = kAdded ∧
   entry_as lost (interest (epollfd_ p) !! fd_ c) ch c) ∨
  (channels_ p !! fd_ c = Some ch ∧ index_ c = kDeleted ∧
   interest (epollfd_ p) !! fd_ c = None).
Proof.
  intros (H1 & H2 & H3 & _) Hc [Hr|[Hr Hi]]; [right|left; eauto].
  destruct (H1 _ _ Hr) as (c' & Hc' & _ & Hw). rewrite Hc in Hc'. injection Hc' as <-. tauto.
Qed.

(** The two paths that end in EPOLL_CTL_ADD. *)
Lemma add_path os p ch c :
  os !! ch = Some c → mask_ok (events_ c) →
  ∃ k', (st ← epoll_set_index kAdded ch (os, p); update EPOLL_CTL_ADD ch st) =
          Ok (<[ch := set_index kAdded c]> os, mkEPollPoller (channels_ p) k' (events_size p)) ∧
        ∀ fd, interest k' !! fd =
          if decide (fd = fd_ c ∧ granted EPOLL_CTL_ADD p (fd_ c) (events_ c, ch) = true)
          then Some (events_ c, ch) else interest (epollfd_ p) !! fd.
Proof.
  intros Hc Hm. unfold epoll_set_index, obj. cbn [fst snd]. rewrite Hc.
  cbn [mbind outcome_bind].
  apply (update_ok EPOLL_CTL_ADD _ p ch (set_index kAdded c)); [apply lookup_insert_eq|done].
Qed.

(** The call of epoll_ctl that [updateChannel] makes when the events become [e],
    whether that leaves the kernel behind, and who has lost his place then. *)
Definition update_op (c : Channel CB) (e : Z) : epoll_op :=
  if index_ c =? kAdded then if e =? 0 then EPOLL_CTL_DEL else EPOLL_CTL_MOD else EPOLL_CTL_ADD.
Definition refused (p : EPollPoller K) (ch : Ptr) (c : Channel CB) (e : Z) : bool :=
  negb (bool_decide (update_op c e = EPOLL_CTL_DEL)) && negb (granted (update_op c e) p (fd_ c) (e, ch)).
Definition lost_by (p : EPollPoller K) (ch : Ptr) (c : Channel CB) (e : Z) lost : gset Ptr :=
  if refused p ch c e then {[ ch ]} ∪ lost else lost ∖ {[ ch ]}.

Lemma lost_by_other p ch c e lost q : q ≠ ch → q ∈ lost_by p ch c e lost ↔ q ∈ lost.
Proof. unfold lost_by. destruct (refused _ _ _ _); set_solver. Qed.

(** The entry of a channel after a call that was not to take it out. *)
Lemma entry_after lost p ch c0 c e (old : option epoll_event) :
  events_ c = e → update_op c0 e ≠ EPOLL_CTL_DEL → (∀ ev, old = Some ev → ev.2 = ch) →
  entry_as (lost_by p ch c0 e lost)
    (if refused p ch c0 e then old else Some (e, ch)) ch c.
Proof.
  intros He Hop Hold. unfold lost_by. destruct (refused p ch c0 e); [right|left].
  - split; [set_solver|done].
  - split; [set_solver|by rewrite He].
Qed.

Lemma refused_granted p ch c e : update_op c e ≠ EPOLL_CTL_DEL →
  refused p ch c e = negb (granted (update_op c e) p (fd_ c) (e, ch)).
Proof. intros Hop. unfold refused. by rewrite bool_decide_false. Qed.

Lemma ctl_kept p p1 ch c e (k' : K) op : epollfd_ p1 = epollfd_ p → update_op c e = op → op ≠ EPOLL_CTL_DEL →
  (∀ fd, interest k' !! fd = if decide (fd = fd_ c ∧ granted op p1 (fd_ c) (e, ch) = true)
     then ctl_entry op (e, ch) else interest (epollfd_ p1) !! fd) →
  ∀ fd, interest k' !! fd = if decide (fd = fd_ c)
    then (if refused p ch c e then interest (epollfd_ p) !! fd else Some (e, ch))
    else interest (epollfd_ p) !! fd.
Proof.
  intros Hp <- Hop Hk fd. rewrite Hk, refused_granted by done.
  assert (granted (update_op c e) p1 (fd_ c) (e, ch) = granted (update_op c e) p (fd_ c) (e, ch)) as ->
    by (unfold granted; by rewrite Hp).
  rewrite Hp.
  assert (ctl_entry (update_op c e) (e, ch) = Some (e, ch)) as -> by (by destruct (update_op c e)).
  clear Hk. destruct (granted (update_op c e) p (fd_ c) (e, ch)); cbn [negb]; destruct (decide (fd = fd_ c)) as [Hf|Hf].
  - by rewrite decide_True.
  - rewrite decide_False; [done|]. by intros [? _].
  - by rewrite decide_False by (by intros [_ ?]).
  - rewrite decide_False; [done|]. by intros [? _].
Qed.

(** Taking a descriptor out never leaves it in. *)
Lemma ctl_del_entry p ev fd0 (k' : K) :
  (∀ fd, interest k' !! fd = if decide (fd = fd0 ∧ granted EPOLL_CTL_DEL p fd0 ev = true)
     then ctl_entry EPOLL_CTL_DEL ev else interest (epollfd_ p) !! fd) →
  ∀ fd, interest k' !! fd = if decide (fd = fd0) then None else interest (epollfd_ p) !! fd.
Proof.
  intros Hk fd. rewrite Hk. unfold granted. destruct (interest (epollfd_ p) !! fd0) as [e|] eqn:Hx.
  - rewrite ctl_del by eauto. cbn. repeat case_decide; intuition congruence.
  - repeat case_decide; intuition congruence.
Qed.

Lemma entry_of lost ent ch c : entry_as lost ent ch c → ∀ ev, ent = Some ev → ev.2 = ch.
Proof. intros [[_ ->]|[_ H]]; [by intros ? [= <-]|exact H]. Qed.

Lemma updateChannel_cases lost os p ch c e :
  epoll_state lost os p → os !! ch = Some c → mask_ok e →
  channels_ p !! fd_ c = Some ch ∨ (channels_ p !! fd_ c = None ∧ index_ c = -1) →
  let gone := bool_decide (e = 0 ∧ index_ c = kAdded) in
  let c' := set_index (if gone then kDeleted else kAdded) (set_events e c) in
  ∃ k',
    let p' := mkEPollPoller (<[fd_ c := ch]> (channels_ p)) k' (events_size p) in
    updateChannel true ch (<[ch := set_events e c]> os, p) = Ok (<[ch := c']> os, p') ∧
    epoll_state (lost_by p ch c e lost) (<[ch := c']> os) p' ∧
    ∀ fd, interest k' !! fd =
      if decide (fd = fd_ c)
      then (if gone then None else if refused p ch c e then interest (epollfd_ p) !! fd else Some (e, ch))
      else interest (epollfd_ p) !! fd.
Proof.
  intros Hinv Hc He Hreg. set (ce := set_events e c).
  set (os1 := <[ch := ce]> os).
  assert (os1 !! ch = Some ce) as Hce by apply lookup_insert_eq.
  unfold updateChannel, obj. rewrite Hce. cbn [mbind outcome_bind assertInLoopThread].
  change (index_ ce) with (index_ c). change (fd_ ce) with (fd_ c).
  destruct (registered_cases lost os p ch c Hinv Hc Hreg) as [(Hi & Hr & Hn)|[(Hr & Hi & Hn)|(Hr & Hi & Hn)]];
    rewrite Hi; cbn [Z.eqb kNew kAdded kDeleted orb Pos.eqb].
  - assert (update_op c e = EPOLL_CTL_ADD) as Hop by (unfold update_op; by rewrite Hi).
    rewrite (bool_decide_true (channels_ p !! fd_ c = None)) by done.
    rewrite (bool_decide_false (e = 0 ∧ _)) by (intros [_ [=]]).
    cbn [mbind outcome_bind assert_].
    destruct (add_path os1 (mkEPollPoller (<[fd_ c:=ch]> (channels_ p)) (epollfd_ p) (events_size p)) ch ce Hce He)
      as (k' & -> & Hk).
    pose proof (ctl_kept p (mkEPollPoller (<[fd_ c:=ch]> (channels_ p)) (epollfd_ p) (events_size p)) ch c e k'
      EPOLL_CTL_ADD eq_refl Hop ltac:(done) Hk) as Hk2.
    exists k'. split_and!.
    + unfold os1. by rewrite insert_insert_eq.
    + eapply (epoll_state_step lost _ os p ch c (set_index kAdded ce)); [done..|by right| | |].
      all: try (intros fd Hf; by rewrite Hk2, decide_False by done).
      { intros q Hq. by apply lost_by_other. }
      left. split_and!; [done..|]. rewrite Hk2, decide_True by done. apply entry_after; [done|by rewrite Hop|].
      intros ev Hx. change (interest (epollfd_ p) !! fd_ c = Some ev) in Hx. congruence.
    + exact Hk2.
  - rewrite (bool_decide_true (is_Some _)) by (rewrite Hr; eauto). rewrite (bool_decide_true (_ = Some ch)) by done.
    cbn [mbind outcome_bind assert_]. unfold isNoneEvent, kNoneEvent. change (events_ ce) with e.
    pose proof (entry_of _ _ _ _ Hn) as Hold.
    destruct (Z.eqb_spec e 0) as [He0|Hne].
    + destruct (update_ok EPOLL_CTL_DEL os1 p ch ce Hce He) as (k' & -> & Hk).
      change (fd_ ce) with (fd_ c) in Hk. change (events_ ce) with e in Hk.
      cbn [mbind outcome_bind]. unfold epoll_set_index, obj. cbn [fst snd]. rewrite Hce.
      cbn [mbind outcome_bind]. rewrite (bool_decide_true (e = 0 ∧ _)) by done.
      pose proof (ctl_del_entry p _ (fd_ c) k' Hk) as Hk2.
      assert (lost_by p ch c e lost = lost ∖ {[ch]}) as ->.
      { unfold lost_by, refused, update_op. by rewrite Hi, He0. }
      exists k'. rewrite (insert_id (channels_ p)) by done. split_and!; [by unfold os1; rewrite insert_insert_eq| |done].
      rewrite <-(insert_id (channels_ p) (fd_ c) ch) by done.
      eapply (epoll_state_step lost _ os p ch c (set_index kDeleted ce)); [done..|by left| | |].
      all: try (intros fd Hf; by rewrite Hk2, decide_False by done).
      { intros q Hq. set_solver. }
      right. split_and!; [done|done|set_solver|]. by rewrite Hk2, decide_True.
    + assert (update_op c e = EPOLL_CTL_MOD) as Hop
        by (unfold update_op; by rewrite Hi, (proj2 (Z.eqb_neq _ _) Hne)).
      destruct (update_ok EPOLL_CTL_MOD os1 p ch ce Hce He) as (k' & -> & Hk).
      change (fd_ ce) with (fd_ c) in Hk. change (events_ ce) with e in Hk.
      rewrite (bool_decide_false (e = 0 ∧ _)) by tauto. rewrite (set_index_same ce) by done.
      pose proof (ctl_kept p _ ch c e k' EPOLL_CTL_MOD eq_refl Hop ltac:(done) Hk) as Hk2.
      exists k'. rewrite (insert_id (channels_ p)) by done. split_and!; [done| |exact Hk2].
      rewrite <-(insert_id (channels_ p) (fd_ c) ch) by done.
      eapply (epoll_state_step lost _ os p ch c ce); [done..|by left| | |].
      all: try (intros fd Hf; by rewrite Hk2, decide_False by done).
      { intros q Hq. by apply lost_by_other. }
      left. split_and!; [done..|]. rewrite Hk2, decide_True by done. apply entry_after; [done|by rewrite Hop|done].
  - assert (update_op c e = EPOLL_CTL_ADD) as Hop by (unfold update_op; by rewrite Hi).
    rewrite (bool_decide_true (is_Some _)) by (rewrite Hr; eauto). rewrite (bool_decide_true (_ = Some ch)) by done.
    rewrite (bool_decide_false (e = 0 ∧ _)) by (intros [_ [=]]).
    cbn [mbind outcome_bind assert_].
    destruct (add_path os1 p ch ce Hce He) as (k' & -> & Hk).
    pose proof (ctl_kept p _ ch c e k' EPOLL_CTL_ADD eq_refl Hop ltac:(done) Hk) as Hk2.
    exists k'. rewrite (insert_id (channels_ p)) by done. split_and!; [by unfold os1; rewrite insert_insert_eq| |exact Hk2].
    rewrite <-(insert_id (channels_ p) (fd_ c) ch) by done.
    eapply (epoll_state_step lost _ os p ch c (set_index kAdded ce)); [done..|by left| | |].
      all: try (intros fd Hf; by rewrite Hk2, decide_False by done).
    { intros q Hq. by apply lost_by_other. }
    left. split_and!; [done..|]. rewrite Hk2, decide_True by done. apply entry_after; [done|by rewrite Hop|].
      intros ev Hx. change (interest (epollfd_ p) !! fd_ c = Some ev) in Hx. congruence.
Qed.

Lemma removeChannel_cases lost os p ch c :
  epoll_state lost os p → os !! ch = Some c → channels_ p !! fd_ c = Some ch → events_ c = 0 →
  ∃ k',
    let p' := mkEPollPoller (delete (fd_ c) (channels_ p)) k' (events_size p) in
    removeChannel true ch (os, p) = Ok (<[ch := set_index kNew c]> os, p') ∧
    epoll_state (lost ∖ {[ ch ]}) (<[ch := set_index kNew c]> os) p' ∧
    ∀ fd, interest k' !! fd =
      if decide (fd = fd_ c) then None else interest (epollfd_ p) !! fd.
Proof.
  intros Hinv Hc Hr Hz. pose proof Hinv as (H1 & H2 & H3 & H4).
  set (p1 := mkEPollPoller (delete (fd_ c) (channels_ p)) (epollfd_ p) (events_size p)).
  assert (∃ k', (if index_ c =? kAdded then update EPOLL_CTL_DEL ch (os, p1) else Ok (os, p1)) =
      Ok (os, mkEPollPoller (channels_ p1) k' (events_size p)) ∧
    ((index_ c =? kAdded) || (index_ c =? kDeleted) = true) ∧
    ∀ fd, interest k' !! fd =
      if decide (fd = fd_ c) then None else interest (epollfd_ p) !! fd) as (k' & E & Hidx & Hk).
  { destruct (registered_cases lost os p ch c Hinv Hc (or_introl Hr)) as [(_ & ? & _)|[(_ & Hi & Hn)|(_ & Hi & Hn)]];
      [congruence|..]; rewrite Hi; cbn [Z.eqb kNew kAdded kDeleted orb Pos.eqb].
    - destruct (update_ok EPOLL_CTL_DEL os p1 ch c Hc) as (k' & E & Hk); [by rewrite Hz|].
      exists k'. split_and!; [done..|]. exact (ctl_del_entry p1 _ (fd_ c) k' Hk).
    - exists (epollfd_ p). split_and!; [done..|]. intros fd. by case_decide; subst. }
  exists k'. cbn zeta. split_and!; [| |done].
  - unfold removeChannel, obj. rewrite Hc. cbn [mbind outcome_bind assertInLoopThread].
    rewrite (bool_decide_true (is_Some _)) by (rewrite Hr; eauto).
    rewrite (bool_decide_true (_ = Some ch)) by done. unfold isNoneEvent. rewrite Hz.
    cbn [mbind outcome_bind assert_ Z.eqb kNoneEvent]. rewrite Hidx. cbn [mbind outcome_bind assert_].
    fold p1. rewrite E. cbn [mbind outcome_bind]. unfold epoll_set_index, obj. cbn [fst snd].
    by rewrite Hc.
  - split_and!; simpl.
    + intros fd q [Hne Hq]%lookup_delete_Some. destruct (H1 _ _ Hq) as (cq & Hcq & Hfq & Hwq).
      assert (q ≠ ch) as Hqc by congruence.
      exists cq. rewrite lookup_insert_ne by congruence. split; [done|]. split; [done|]. simpl.
      rewrite Hk, decide_False by congruence. unfold entry_as in *.
      assert (q ∈ lost ∖ {[ch]} ↔ q ∈ lost) as -> by set_solver. done.
    + intros fd. rewrite lookup_delete, Hk. repeat case_decide; try congruence. eauto.
    + intros q cq. rewrite lookup_insert, lookup_delete.
      case_decide; intros Hcq Hreg; [by simplify_eq|]. case_decide as Hf; [|eauto].
      destruct (decide (channels_ p !! fd_ cq = Some q)) as [Hq|]; [|eauto].
      destruct (H1 _ _ Hq) as (? & ? & ?). congruence.
    + intros q [Hq Hne]%elem_of_difference. destruct (H4 q Hq) as [fd Hfq]. exists fd.
      rewrite lookup_delete_ne; [done|]. intros <-. set_solver.
Qed.
End Proofs.

Lemma epoll_frame {CB K} `{!EpollCtl K} lost (os os' : objs CB) (p : EPollPoller K) n :
  epoll_state lost os p →
  (∀ fd ch, channels_ p !! fd = Some ch → option_Forall2 same_for_poller (os !! ch) (os' !! ch)) →
  (∀ ch c', os' !! ch = Some c' → index_ c' = -1 ∨ ∃ c, os !! ch = Some c ∧ same_for_poller c c') →
  epoll_state lost os' (mkEPollPoller (channels_ p) (epollfd_ p) n).
Proof.
  intros (H1 & H2 & H3 & H4) Hs Hn. split_and!; simpl; [|done| |done].
  - intros fd ch Hch. destruct (H1 _ _ Hch) as (c & Hc & Hw). specialize (Hs fd ch Hch).
    rewrite Hc in Hs. inversion Hs as [? c' (E1 & E2 & E3) Heq|]; subst. exists c'. split; [done|].
    unfold watched_as, entry_as in *. simpl. by rewrite E1, E2, E3.
  - intros ch c' Hc' Hne. destruct (Hn _ _ Hc') as [?|(c & Hc & E1 & E2 & E3)]; [done|].
    rewrite E3. apply (H3 ch); [done|by rewrite <-E1].
Qed.

(** ** With a kernel that refuses nothing *)
Section Granted.
Context {CB K : Type} `{!EpollKernel K}.
Implicit Types (os : objs CB) (p : EPollPoller K) (c : Channel CB).

Lemma registered_state os p ch c :
  epoll_inv os p → os !! ch = Some c →
  channels_ p !! fd_ c = Some ch ∨ (channels_ p !! fd_ c = None ∧ index_ c = -1) →
  (index_ c = kNew ∧ channels_ p !! fd_ c = None ∧ interest (epollfd_ p) !! fd_ c = None) ∨
  (channels_ p !! fd_ c = Some ch ∧ index_ c = kAdded ∧
   interest (epollfd_ p) !! fd_ c = Some (events_ c, ch)) ∨
  (channels_ p !! fd_ c = Some ch ∧ index_ c = kDeleted ∧
   interest (epollfd_ p) !! fd_ c = None).
Proof.
  intros Hinv Hc Hreg.
  destruct (registered_cases ∅ os p ch c Hinv Hc Hreg) as [?|[(? & ? & [[_ ?]|[? _]])|?]]; set_solver.
Qed.

Lemma nothing_refused os p ch c e : epoll_inv os p → os !! ch = Some c →
  channels_ p !! fd_ c = Some ch ∨ (channels_ p !! fd_ c = None ∧ index_ c = -1) →
  refused p ch c e = false.
Proof.
  intros Hinv Hc Hreg. unfold refused, granted, update_op.
  destruct (registered_state os p ch c Hinv Hc Hreg) as [(-> & _ & Hn)|[(_ & -> & Hn)|(_ & -> & Hn)]];
    cbn [Z.eqb kNew kAdded kDeleted Pos.eqb]; [| |].
  - by rewrite ctl_granted.
  - destruct (e =? 0); [done|]. rewrite ctl_granted; [done|]. cbn. by rewrite Hn.
  - by rewrite ctl_granted.
Qed.

Lemma updateChannel_spec os p ch c e :
  epoll_inv os p → os !! ch = Some c → mask_ok e →
  channels_ p !! fd_ c = Some ch ∨ (channels_ p !! fd_ c = None ∧ index_ c = -1) →
  let gone := bool_decide (e = 0 ∧ index_ c = kAdded) in
  let c' := set_index (if gone then kDeleted else kAdded) (set_events e c) in
  ∃ k',
    let p' := mkEPollPoller (<[fd_ c := ch]> (channels_ p)) k' (events_size p) in
    updateChannel true ch (<[ch := set_events e c]> os, p) = Ok (<[ch := c']> os, p') ∧
    epoll_inv (<[ch := c']> os) p' ∧
    ∀ fd, interest k' !! fd =
      if decide (fd = fd_ c) then (if gone then None else Some (e, ch))
      else interest (epollfd_ p) !! fd.
Proof.
  intros Hinv Hc He Hreg. destruct (updateChannel_cases ∅ os p ch c e Hinv Hc He Hreg) as (k' & E & Hs & Hk).
  pose proof (nothing_refused os p ch c e Hinv Hc Hreg) as Hr. exists k'. split; [exact E|]. split.
  - unfold lost_by in Hs. rewrite Hr in Hs.
    replace (∅ ∖ {[ch]} : gset Ptr) with (∅ : gset Ptr) in Hs by set_solver. exact Hs.
  - intros fd. rewrite (Hk fd), Hr. done.
Qed.

Lemma epoll_removeChannel_spec os p ch c :
  epoll_inv os p → os !! ch = Some c → channels_ p !! fd_ c = Some ch → events_ c = 0 →
  ∃ k',
    let p' := mkEPollPoller (delete (fd_ c) (channels_ p)) k' (events_size p) in
    removeChannel true ch (os, p) = Ok (<[ch := set_index kNew c]> os, p') ∧
    epoll_inv (<[ch := set_index kNew c]> os) p' ∧
    ∀ fd, interest k' !! fd =
      if decide (fd = fd_ c) then None else interest (epollfd_ p) !! fd.
Proof.
  intros Hinv Hc Hr Hz. destruct (removeChannel_cases ∅ os p ch c Hinv Hc Hr Hz) as (k' & E & Hs & Hk).
  replace (∅ ∖ {[ch]} : gset Ptr) with (∅ : gset Ptr) in Hs by set_solver. by exists k'.
Qed.
End Granted.

(** ** The poller interface *)
Section Instance.
Context {CB K : Type} `{!EpollKernel K}.

#[export] Program Instance epoll_poller : Poller.Poller CB (EPollPoller K) := {
  channels := channels_;
  watch p := fst <$> interest (epollfd_ p);
  Poller.updateChannel := updateChannel;
  Poller.removeChannel := removeChannel;
  poller_inv := epoll_inv
}.
Next Obligation. intros os p fd ch (H & _) Hch. destruct (H _ _ Hch) as (c & ? & ? & _). eauto. Qed.
Next Obligation.
  intros os os' p Hinv Hs Hn. cbn in *. replace p with (mkEPollPoller (channels_ p) (epollfd_ p) (events_size p))
    by by destruct p. by apply (epoll_frame ∅ os _ p).
Qed.
Next Obligation.
  intros os p ch c e Hinv Hc _ He Hreg. cbn.
  destruct (updateChannel_spec os p ch c e Hinv Hc He Hreg) as (k' & E & Hinv' & Hk).
  eexists _, _, _. split; [exact E|]. cbn. split_and!; [done|done|done|..].
  - intros Hne. rewrite lookup_fmap, Hk, decide_True by done. by rewrite bool_decide_false by tauto.
  - intros ->. rewrite lookup_fmap, Hk, decide_True by done. case_bool_decide; simpl; auto.
  - intros ->. rewrite !lookup_fmap, Hk, decide_True by done.
    destruct (registered_state os p ch c Hinv Hc Hreg) as [(_ & _ & ->)|[(_ & Hi & _)|(_ & _ & ->)]].
    + by intros [? ?].
    + by rewrite bool_decide_true.
    + by intros [? ?].
  - intros fd Hne. by rewrite !lookup_fmap, Hk, decide_False by done.
Qed.
Next Obligation.
  intros os p ch c Hinv Hc Hr Hz Hw. cbn in *.
  destruct (epoll_removeChannel_spec os p ch c Hinv Hc Hr Hz) as (k' & E & Hinv' & Hk).
  eexists _, _. split; [exact E|]. cbn. split_and!; [done|..|done|].
  - rewrite lookup_insert_eq. by constructor.
  - intros q Hq. rewrite lookup_insert_ne by done. destruct (os !! q); by constructor.
  - apply map_eq. intros fd. rewrite !lookup_fmap, Hk. case_decide; [subst|done].
    rewrite lookup_fmap in Hw. by destruct (interest (epollfd_ p) !! fd_ c).
Qed.
End Instance.

(** ** poll *)
Section Poll.
Context {CB K : Type} `{!EpollCtl K}.
Implicit Types (os : objs CB) (p : EPollPoller K) (evs : list epoll_event).

(** The channels with the reported events stored in them. *)
Definition store_revents evs os : objs CB :=
  foldl (λ os '(events, ch), alter (set_revents (s32 events)) ch os) os evs.

Lemma epoll_fillActiveChannels_spec evs p : ∀ os active,
  (∀ ev, ev ∈ evs → ∃ c, os !! ev.2 = Some c ∧ channels_ p !! fd_ c = Some ev.2) →
  fillActiveChannels evs p os active = Ok (store_revents evs os, active ++ evs.*2).
Proof.
  induction evs as [|[e ch] evs IH]; intros os active Hreg; simpl.
  { by rewrite app_nil_r. }
  destruct (Hreg (e, ch)) as (c & Hc & Hch); [set_solver|]. simpl in *.
  unfold obj. rewrite Hc. simpl.
  rewrite (bool_decide_true (is_Some _)) by (rewrite Hch; eauto).
  rewrite (bool_decide_true (_ = Some ch)) by done. simpl. rewrite IH.
  - rewrite <-app_assoc. unfold store_revents. simpl.
    replace (alter (set_revents (s32 e)) ch os) with (<[ch := set_revents (s32 e) c]> os); [done|].
    apply map_eq. intros q. destruct (decide (q = ch)) as [->|].
    + by rewrite lookup_insert_eq, lookup_alter_eq, Hc.
    + by rewrite lookup_insert_ne, lookup_alter_ne by done.
  - intros [e' ch'] Hin. destruct (Hreg (e', ch')) as (c' & Hc' & Hch'); [set_solver|]. simpl in *.
    destruct (decide (ch' = ch)) as [->|].
    + exists (set_revents (s32 e) c). rewrite lookup_insert_eq. by simplify_eq.
    + exists c'. by rewrite lookup_insert_ne.
Qed.

(** What epoll_wait(2) documents: events of registered descriptors only, and no
    more than [maxevents] of them. *)
Definition wait_ok p (wait : Z → Z + list epoll_event) : Prop :=
  ∀ n evs, wait n = inr evs → sz evs ≤ n ∧
    ∀ ev, ev ∈ evs → ∃ fd m, interest (epollfd_ p) !! fd = Some (m, ev.2).

Lemma store_revents_only evs : ∀ os q,
  option_Forall2 same_but_revents (os !! q) (store_revents evs os !! q).
Proof.
  induction evs as [|[e ch] evs IH]; intros os q; simpl.
  { by destruct (os !! q); constructor. }
  apply (alter_revents_same _ _ ch (s32 e)), IH.
Qed.

Lemma store_revents_same evs os q :
  option_Forall2 same_for_poller (os !! q) (store_revents evs os !! q).
Proof.
  destruct (store_revents_only evs os q); constructor. by apply same_but_revents_poller.
Qed.

Lemma wait_registered lost os p wait n evs ev : epoll_state lost os p → wait_ok p wait → wait n = inr evs → ev ∈ evs →
  ∃ c, os !! ev.2 = Some c ∧ channels_ p !! fd_ c = Some ev.2.
Proof.
  intros (H1 & H2 & _) Hw E Hev. destruct (proj2 (Hw _ _ E) _ Hev) as (fd & m & Hm).
  destruct (channels_ p !! fd) as [ch|] eqn:Hch; [|by rewrite (H2 _ Hch) in Hm].
  destruct (H1 _ _ Hch) as (c & Hc & <- & Hwa).
  destruct Hwa as [(_ & _ & Hi)|(_ & _ & _ & Hi)]; [|by rewrite Hi in Hm].
  rewrite (entry_of _ _ _ _ Hi _ Hm : ev.2 = ch). eauto.
Qed.

Lemma poll_reports lost wait now active os p :
  epoll_state lost os p → 0 < events_size p < 2 ^ 31 → wait_ok p wait →
  poll wait now active (os, p) =
    match wait (events_size p) with
    | inl _ => Ok (os, p, active, now)
    | inr evs => Ok (store_revents evs os,
        mkEPollPoller (channels_ p) (epollfd_ p)
          (if decide (sz evs = events_size p) then 2 * events_size p else events_size p),
        active ++ evs.*2, now)
    end.
Proof.
  intros Hinv Hsz Hw. unfold poll. rewrite swrap_small by (unfold in_signed; lia).
  destruct (wait (events_size p)) as [e|evs] eqn:E; [done|]. destruct (Hw _ _ E) as [Hle _].
  destruct (Z.ltb_spec 0 (sz evs)) as [Hpos|Hneg].
  - rewrite (proj2 (Z.leb_le _ _)) by done. cbn [mbind outcome_bind assert_].
    rewrite epoll_fillActiveChannels_spec; cbn [mbind outcome_bind].
    + case_decide as Hf.
      * rewrite (proj2 (Z.eqb_eq _ _)) by done. rewrite uwrap_small by lia.
        by rewrite (Z.mul_comm 2).
      * rewrite (proj2 (Z.eqb_neq _ _)) by done. by destruct p.
    + intros ev Hev. by apply (wait_registered lost os p wait (events_size p) evs).
  - assert (evs = []) as -> by (apply sz_zero; pose proof (sz_nonneg evs); lia).
    simpl. rewrite decide_False by (rewrite sz_nil; lia). rewrite app_nil_r. by destruct p.
Qed.

(** [poll] hands every event the kernel reported to its channel, in the
    kernel's order, without tripping an assertion, and doubles the event array
    exactly when it was filled; on an error or a timeout it reports nothing and
    changes nothing. *)
Theorem poll_reports_all lost wait now active os p :
  epoll_state lost os p → 0 < events_size p < 2 ^ 31 → wait_ok p wait →
  poll wait now active (os, p) =
    match wait (events_size p) with
    | inl _ => Ok (os, p, active, now)
    | inr evs => Ok (store_revents evs os,
        mkEPollPoller (channels_ p) (epollfd_ p)
          (if decide (sz evs = events_size p) then 2 * events_size p else events_size p),
        active ++ evs.*2, now)
    end.
Proof. apply poll_reports. Qed.
End Poll.

Section Polls.
Context {CB K : Type} `{!EpollKernel K}.

#[export] Program Instance epoll_polls : Polls CB (EPollPoller K) := {
  polled st m := ∃ wait now, wait_ok st.2 wait ∧ 0 < events_size st.2 < 2 ^ 31 ∧
    m = (λ r, (r.1.1.1, r.1.1.2, r.1.2)) <$> poll wait now [] st
}.
Next Obligation.
  intros os p m Hinv (wait & now & Hw & Hsz & ->). cbn [fst snd] in *. rewrite (poll_reports ∅) by done.
  destruct (wait (events_size p)) as [e|evs] eqn:E; cbn.
  - eexists _, _, _. split; [reflexivity|]. split_and!; try done; [by intros ch ?%not_elem_of_nil|].
    intros q. destruct (os !! q); by constructor.
  - eexists _, _, _. split; [reflexivity|]. split_and!; try done; [..|apply store_revents_only].
    + apply (epoll_frame ∅ os _ p); [done|..].
      * intros fd q _. apply store_revents_same.
      * intros q c' Hc'. pose proof (store_revents_same evs os q) as Hs. rewrite Hc' in Hs.
        inversion Hs; subst. eauto.
    + intros ch ([e ch'] & -> & Hin)%list_elem_of_fmap.
      by apply (wait_registered ∅ os p wait (events_size p) evs (e, ch')).
Qed.

End Polls.

(** ** All executions

    What a loop may do with its poller: make a channel, change a channel's
    events and update it, remove a channel without events, poll, and destroy a
    channel that is not registered (the destructor's assertion).  The kernel may
    refuse what it is asked; the third component are the channels whose last
    change it refused. *)
Section Reachable.
Context {CB K : Type} `{!EpollCtl K}.
Abbreviation epoll_config := (objs CB * EPollPoller K * gset Ptr)%type.

Inductive epoll_step : epoll_config → epoll_config → Prop :=
  | StepNew os p lost ch loop fd :
      os !! ch = None → epoll_step (os, p, lost) (<[ch := Channel_ctor loop fd]> os, p, lost)
  | StepUpdate os p lost ch c e os' p' :
      os !! ch = Some c → mask_ok e →
      channels_ p !! fd_ c = Some ch ∨ (channels_ p !! fd_ c = None ∧ index_ c = kNew) →
      updateChannel true ch (<[ch := set_events e c]> os, p) = Ok (os', p') →
      epoll_step (os, p, lost) (os', p', lost_by p ch c e lost)
  | StepRemove os p lost ch c os' p' :
      os !! ch = Some c → channels_ p !! fd_ c = Some ch → events_ c = 0 →
      removeChannel true ch (os, p) = Ok (os', p') → epoll_step (os, p, lost) (os', p', lost ∖ {[ ch ]})
  | StepPoll os p lost wait now os' p' act t :
      wait_ok p wait → 0 < events_size p < 2 ^ 31 →
      poll wait now [] (os, p) = Ok (os', p', act, t) → epoll_step (os, p, lost) (os', p', lost)
  | StepDelete os p lost ch c :
      os !! ch = Some c → channels_ p !! fd_ c ≠ Some ch →
      epoll_step (os, p, lost) (delete ch os, p, lost).

Lemma epoll_step_inv st st' : epoll_state st.2 st.1.1 st.1.2 → epoll_step st st' →
  epoll_state st'.2 st'.1.1 st'.1.2.
Proof.
  intros Hinv Hstep. pose proof Hinv as (H1 & H2 & H3 & H4).
  destruct Hstep as [os p lost ch loop fd Hn|os p lost ch c e os' p' Hc He Hr E|os p lost ch c os' p' Hc Hr Hz E
    |os p lost wait now os' p' act t Hw Hsz E|os p lost ch c Hc Hne]; cbn [fst snd] in *.
  - split_and!; [|done| |done].
    + intros fd' q Hq. destruct (H1 _ _ Hq) as (cq & Hcq & Hwq). exists cq.
      by rewrite lookup_insert_ne by congruence.
    + intros q cq [[<- <-]|[? ?]]%lookup_insert_Some; eauto.
  - destruct (updateChannel_cases lost os p ch c e Hinv Hc He Hr) as (k' & E' & Hinv' & _).
    rewrite E' in E. by injection E as <- <-.
  - destruct (removeChannel_cases lost os p ch c Hinv Hc Hr Hz) as (k' & E' & Hinv' & _).
    rewrite E' in E. by injection E as <- <-.
  - rewrite (poll_reports lost) in E by done. destruct (wait (events_size p)) as [|evs].
    + by injection E as <- <- _ _.
    + injection E as <- <- _ _. apply (epoll_frame lost os _ p); [done|..].
      * intros fd q _. apply store_revents_same.
      * intros q c' Hc'. pose proof (store_revents_same evs os q) as Hs. rewrite Hc' in Hs.
        inversion Hs; subst. eauto.
  - split_and!; [|done| |done].
    + intros fd q Hq. destruct (H1 _ _ Hq) as (cq & Hcq & Hwq). exists cq.
      destruct Hwq as [<- ?]. rewrite lookup_delete_ne by congruence. done.
    + intros q cq [? ?]%lookup_delete_Some. eauto.
Qed.

End Reachable.

(** ** Disabling twice *)
Section DisableTwice.
Context {CB K : Type} `{!EpollKernel K}.

(** The first [disableAll()] of a watched channel takes its descriptor out
    of the kernel's interest list; a second one puts it back with an empty
    mask, so the kernel reports errors and hang-ups of it again. *)
Theorem disabling_twice_rewatches (os : objs CB) (p : EPollPoller K) ch c :
  epoll_inv os p → os !! ch = Some c → index_ c = kAdded → channels_ p !! fd_ c = Some ch →
  ∃ os1 p1 os2 p2,
    updateChannel true ch (<[ch := clear_all c]> os, p) = Ok (os1, p1) ∧
    interest (epollfd_ p1) !! fd_ c = None ∧
    updateChannel true ch (alter clear_all ch os1, p1) = Ok (os2, p2) ∧
    interest (epollfd_ p2) !! fd_ c = Some (0, ch).
Proof.
  intros Hinv Hc Hi Hr.
  destruct (updateChannel_spec os p ch c 0 Hinv Hc ltac:(unfold mask_ok; lia) (or_introl Hr))
    as (k1 & E1 & Hinv1 & Hk1).
  cbn zeta in *. rewrite bool_decide_true in E1, Hinv1, Hk1 by done.
  destruct (updateChannel_spec _ _ ch (set_index kDeleted (set_events 0 c)) 0 Hinv1
    (lookup_insert_eq _ _ _) ltac:(unfold mask_ok; lia)) as (k2 & E2 & _ & Hk2).
  { left. cbn. apply lookup_insert_eq. }
  cbn zeta in *. rewrite bool_decide_false in E2, Hk2 by (cbn; intros [_ [=]]).
  assert (alter clear_all ch (<[ch := set_index kDeleted (set_events 0 c)]> os) =
    <[ch := set_events 0 (set_index kDeleted (set_events 0 c))]>
      (<[ch := set_index kDeleted (set_events 0 c)]> os)) as Ha
    by by rewrite alter_insert_eq, insert_insert_eq.
  eexists _, _, _, _. split; [exact E1|]. split.
  { apply (eq_trans (Hk1 (fd_ c))). by rewrite decide_True. }
  rewrite Ha. split; [exact E2|]. apply (eq_trans (Hk2 (fd_ c))). by rewrite decide_True.
Qed.
End DisableTwice.

(** ** Kernels to evaluate the poller with: an interest list that reports errors
    (-1) for what epoll_ctl(2) forbids, and one that also refuses descriptors that
    are not open, here the negative ones. *)
Definition list_ctl (k : gmap Z epoll_event) (op : epoll_op) (fd : Z) (ev : epoll_event)
    : gmap Z epoll_event * Z :=
  match op, k !! fd with
  | EPOLL_CTL_ADD, None => (<[fd := ev]> k, 0)
  | EPOLL_CTL_MOD, Some _ => (<[fd := ev]> k, 0)
  | EPOLL_CTL_DEL, Some _ => (delete fd k, 0)
  | _, _ => (k, -1)
  end.

Lemma list_ctl_done k op fd ev : (list_ctl k op fd ev).2 = 0 →
  ctl_valid op fd k ∧ (list_ctl k op fd ev).1 = partial_alter (λ _, ctl_entry op ev) fd k.
Proof. unfold list_ctl. destruct op, (k !! fd) eqn:E; cbn; rewrite ?E; try done; intros _; split; by eauto. Qed.

Lemma list_ctl_failed k op fd ev : (list_ctl k op fd ev).2 ≠ 0 → (list_ctl k op fd ev).1 = k.
Proof. unfold list_ctl. by destruct op, (k !! fd). Qed.

#[export] Program Instance gmap_ctl : EpollCtl (gmap Z epoll_event) := {
  epoll_ctl := list_ctl;
  interest k := k
}.
Next Obligation. apply list_ctl_done. Qed.
Next Obligation. apply list_ctl_failed. Qed.
Next Obligation. intros k fd ev [? Hn]. unfold list_ctl. by rewrite Hn. Qed.

#[export] Program Instance gmap_kernel : EpollKernel (gmap Z epoll_event) := {
  kernel_ctl := gmap_ctl
}.
Next Obligation. intros k op fd ev. cbn. unfold list_ctl. destruct op; cbn; [by intros ->|by intros [? ->]..]. Qed.

Record strict_list := mkStrict { strict : gmap Z epoll_event }.
Definition strict_ctl (k : strict_list) (op : epoll_op) (fd : Z) (ev : epoll_event) : strict_list * Z :=
  if bool_decide (fd < 0) && bool_decide (strict k !! fd = None) then (k, -1)
  else let '(l, r) := list_ctl (strict k) op fd ev in (mkStrict l, r).

Program Definition strict_kernel : EpollCtl strict_list := {|
  epoll_ctl := strict_ctl;
  interest := strict
|}.
Next Obligation.
  intros k op fd ev. unfold strict_ctl. destruct (_ && _); [done|].
  pose proof (list_ctl_done (strict k) op fd ev) as H. by destruct (list_ctl _ _ _ _).
Qed.
Next Obligation.
  intros k op fd ev. unfold strict_ctl. destruct (_ && _); [done|].
  pose proof (list_ctl_failed (strict k) op fd ev) as H. by destruct (list_ctl _ _ _ _).
Qed.
Next Obligation.
  intros k fd ev [e He]. unfold strict_ctl, list_ctl. rewrite He. by rewrite andb_false_r.
Qed.

Definition demo_objs : objs string :=
  {[ 100 := set_index kAdded (set_events kReadEvent (Channel_ctor 1 7)) ]}.
Definition demo_poller : EPollPoller (gmap Z epoll_event) :=
  mkEPollPoller {[7 := 100]} {[7 := (kReadEvent, 100)]} 2.

Lemma demo_epoll_inv : epoll_inv demo_objs demo_poller.
Proof.
  unfold demo_objs, demo_poller. split_and!; cbn [channels_ epollfd_].
  - intros fd ch [<- <-]%lookup_singleton_Some. eexists. split; [apply lookup_singleton_eq|].
    split; [done|]. left. split_and!; [done|unfold mask_ok; done|].
    left. split; [apply not_elem_of_empty|reflexivity].
  - intros fd Hne%lookup_singleton_None. by apply lookup_singleton_None.
  - intros ch c [<- <-]%lookup_singleton_Some Hne. exfalso. apply Hne. reflexivity.
  - intros ch Hch%not_elem_of_empty. done.
Qed.

(** Both entries of the array filled: the array doubles. *)
Definition demo_wait (maxevents : Z) : Z + list epoll_event :=
  inr [(POLLIN, 100); (POLLHUP, 100)].

Lemma demo_wait_ok : wait_ok demo_poller (λ n, if decide (n < 2) then inl 22 else demo_wait n).
Proof.
  intros n evs E. case_decide; [done|]. injection E as <-. split; [unfold sz; simpl; lia|].
  intros ev Hev. exists 7, kReadEvent.
  repeat (apply elem_of_cons in Hev as [->|Hev]; [reflexivity|]). by apply not_elem_of_nil in Hev.
Qed.

Lemma poll_reports_all_witness :
  ∃ os' p', poll (λ n, if decide (n < 2) then inl 22 else demo_wait n) 99 [] (demo_objs, demo_poller)
    = Ok (os', p', [100; 100], 99) ∧ events_size p' = 4.
Proof.
  eexists _, _. split.
  - rewrite (poll_reports_all ∅ (λ n, if decide (n < 2) then inl 22 else demo_wait n) 99 []
      demo_objs demo_poller demo_epoll_inv ltac:(simpl; lia) demo_wait_ok). vm_compute. reflexivity.
  - reflexivity.
Defined.

Lemma disabling_twice_rewatches_witness :
  ∃ os1 p1 os2 p2,
    updateChannel true 100 (alter clear_all 100 demo_objs, demo_poller) = Ok (os1, p1) ∧
    interest (epollfd_ p1) !! 7 = None ∧
    updateChannel true 100 (alter clear_all 100 os1, p1) = Ok (os2, p2) ∧
    interest (epollfd_ p2) !! 7 = Some (0, 100).
Proof.
  exact (disabling_twice_rewatches demo_objs demo_poller 100
    (set_index kAdded (set_events kReadEvent (Channel_ctor 1 7))) demo_epoll_inv
    ltac:(reflexivity) ltac:(reflexivity) ltac:(reflexivity)).
Defined.

(** A channel is created, enabled for reading and disabled again. *)
Definition demo_trace_end : objs string * EPollPoller (gmap Z epoll_event) * gset Ptr :=
  ({[ 100 := set_index kDeleted (Channel_ctor 1 7) ]}, mkEPollPoller {[7 := 100]} ∅ 16, ∅).

Lemma update_to {K : Type} `{!EpollCtl K} (os : objs string) (p : EPollPoller K) lost ch c e os' p' st :
  os !! ch = Some c → mask_ok e →
  channels_ p !! fd_ c = Some ch ∨ (channels_ p !! fd_ c = None ∧ index_ c = kNew) →
  updateChannel true ch (<[ch := set_events e c]> os, p) = Ok (os', p') →
  (os', p', lost_by p ch c e lost) = st → epoll_step (os, p, lost) st.
Proof. intros Hc He Hr E <-. by apply (StepUpdate _ _ _ ch c e). Qed.

Lemma demo_trace :
  rtc epoll_step (∅, EPollPoller_ctor (∅ : gmap Z epoll_event), ∅) demo_trace_end.
Proof.
  eapply rtc_l; [by apply (StepNew _ _ _ 100 1 7)|].
  eapply (rtc_l _ _ (_, _, ∅)).
  { eapply (update_to _ _ _ 100 (Channel_ctor 1 7) kReadEvent).
    - reflexivity.
    - unfold mask_ok; done.
    - right. split; reflexivity.
    - vm_compute. reflexivity.
    - reflexivity. }
  apply rtc_once.
  eapply (update_to _ _ _ 100 (set_index kAdded (set_events kReadEvent (Channel_ctor 1 7))) 0).
  - reflexivity.
  - unfold mask_ok; done.
  - left. reflexivity.
  - vm_compute. reflexivity.
  - vm_compute. reflexivity.
Qed.

(** A channel of a descriptor that is not open is enabled for reading: nobody
    notices that the kernel does not watch it. *)
Definition refused_end : objs string * EPollPoller strict_list * gset Ptr :=
  ({[ 100 := set_index kAdded (set_events kReadEvent (Channel_ctor 1 (-1))) ]},
   mkEPollPoller {[-1 := 100]} (mkStrict ∅) 16, {[ 100 ]}).

Lemma refused_trace :
  rtc (epoll_step (EpollCtl0 := strict_kernel)) (∅, EPollPoller_ctor (mkStrict ∅), ∅) refused_end.
Proof.
  eapply rtc_l; [by apply (StepNew (EpollCtl0 := strict_kernel) _ _ _ 100 1 (-1))|].
  apply rtc_once.
  eapply (update_to (EpollCtl0 := strict_kernel) _ _ _ 100 (Channel_ctor 1 (-1)) kReadEvent).
  - reflexivity.
  - unfold mask_ok; done.
  - right. split; reflexivity.
  - vm_compute. reflexivity.
  - vm_compute. reflexivity.
Qed.

