(* ===== verification/PollPoller.v ===== *)
(** [kaycc::net::PollPoller] ([src/net/poller/pollpoller.h],
    [src/net/poller/pollpoller.cpp]): the poller over poll(2).

    [pollfds_] is the array handed to the kernel; a channel's [index_] is its
    position in it.  A descriptor without events is muted by storing
    [-fd - 1], which poll(2) ignores. *)
From stdpp Require Import strings gmap.
From S2P Require Import Prelude Channel Poller.

(** struct pollfd *)
Record pollfd := mkPollfd { pfd_fd : Z; pfd_events : Z; pfd_revents : Z }.

Record PollPoller := mkPollPoller {
  channels_ : gmap Z Ptr;
  pollfds_ : list pollfd
}.

(** [static_cast<int>(pollfds_.size())] *)
Definition npfds (pfds : list pollfd) : Z := s32 (sz pfds).

Section PollPoller.
Context {CB : Type}.
Implicit Types (os : objs CB) (p : PollPoller) (c : Channel CB).

Definition PollPoller_ctor : PollPoller := mkPollPoller ∅ [].

(** [channels_[fd] == channel] after [channels_.find(fd) != channels_.end()] *)
Definition assert_known (p : PollPoller) (fd : Z) (ch : Ptr) : outcome unit :=
  assert! bool_decide (is_Some (channels_ p !! fd));;
  assert_ (bool_decide (channels_ p !! fd = Some ch)).

Definition updateChannel (in_loop : bool) (ch : Ptr) (st : objs CB * PollPoller)
    : outcome (objs CB * PollPoller) :=
  let '(os, p) := st in
  _ ← assertInLoopThread in_loop;
  c ← obj os ch;
  if index_ c <? 0 then
    assert! bool_decide (channels_ p !! fd_ c = None);;
    let pfd := mkPollfd (fd_ c) (s16 (events_ c)) 0 in
    let pollfds := pollfds_ p ++ [pfd] in
    let idx := npfds pollfds - 1 in
    Ok (<[ch := set_index idx c]> os, mkPollPoller (<[pfd_fd pfd := ch]> (channels_ p)) pollfds)
  else
    _ ← assert_known p (fd_ c) ch;
    let idx := index_ c in
    assert! (0 <=? idx) && (idx <? npfds (pollfds_ p));;
    match pollfds_ p !! Z.to_nat idx with
    | None => Fail UB
    | Some pfd =>
      assert! (pfd_fd pfd =? fd_ c) || (pfd_fd pfd =? - fd_ c - 1);;
      let fd := if isNoneEvent c then - fd_ c - 1 else fd_ c in
      Ok (os, mkPollPoller (channels_ p)
                (<[Z.to_nat idx := mkPollfd fd (s16 (events_ c)) 0]> (pollfds_ p)))
    end.

(** [iter_swap(begin() + idx, end() - 1)] and [pop_back()]: the last entry
    [l] takes the place of the [idx]-th. *)
Definition swap_pop (idx : nat) (l : pollfd) (pfds : list pollfd) : list pollfd :=
  removelast (<[idx := l]> pfds).

Definition removeChannel (in_loop : bool) (ch : Ptr) (st : objs CB * PollPoller)
    : outcome (objs CB * PollPoller) :=
  let '(os, p) := st in
  _ ← assertInLoopThread in_loop;
  c ← obj os ch;
  _ ← assert_known p (fd_ c) ch;
  assert! isNoneEvent c;;
  let idx := index_ c in
  assert! (0 <=? idx) && (idx <? npfds (pollfds_ p));;
  match pollfds_ p !! Z.to_nat idx with
  | None => Fail UB
  | Some pfd =>
    assert! (pfd_fd pfd =? - fd_ c - 1) && (pfd_events pfd =? events_ c);;
    let chans := delete (fd_ c) (channels_ p) in
    if idx =? sz (pollfds_ p) - 1 then
      Ok (os, mkPollPoller chans (removelast (pollfds_ p)))
    else
      match last (pollfds_ p) with
      | None => Fail UB
      | Some back =>
        let channelAtEnd := if pfd_fd back <? 0 then - pfd_fd back - 1 else pfd_fd back in
        match chans !! channelAtEnd with
        | None => Fail UB   (* channels_[...] inserts a null pointer *)
        | Some q =>
          cq ← obj os q;
          Ok (<[q := set_index idx cq]> os,
              mkPollPoller chans (swap_pop (Z.to_nat idx) back (pollfds_ p)))
        end
      end
  end.

(** The loop of [fillActiveChannels]; the count [numEvents] is decremented
    and never read. *)
Fixpoint fillActiveChannels (pfds : list pollfd) (p : PollPoller) (os : objs CB)
    (activeChannels : list Ptr) : outcome (objs CB * list Ptr) :=
  match pfds with
  | [] => Ok (os, activeChannels)
  | pfd :: pfds' =>
    if 0 <? pfd_revents pfd then
      match channels_ p !! pfd_fd pfd with
      | None => Fail AssertFailure
      | Some channel =>
        c ← obj os channel;
        assert! fd_ c =? pfd_fd pfd;;
        fillActiveChannels pfds' p (<[channel := set_revents (pfd_revents pfd) c]> os)
          (activeChannels ++ [channel])
      end
    else fillActiveChannels pfds' p os activeChannels
  end.

(** [poll]: the kernel answers an errno or the [revents] of each entry, with
    the number of entries that have one. *)
Definition poll (kernel_poll : list pollfd → Z + list Z) (now : Z) (activeChannels : list Ptr)
    (st : objs CB * PollPoller) : outcome (objs CB * PollPoller * list Ptr * Z) :=
  let '(os, p) := st in
  match kernel_poll (pollfds_ p) with
  | inl savedErrno => Ok (os, p, activeChannels, now)
  | inr revs =>
    let pfds := zip_with (λ pfd r, mkPollfd (pfd_fd pfd) (pfd_events pfd) r) (pollfds_ p) revs in
    let numEvents := sz (filter (λ r, r ≠ 0) revs) in
    let p := mkPollPoller (channels_ p) pfds in
    if 0 <? numEvents then
      '(os, activeChannels) ← fillActiveChannels pfds p os activeChannels;
      Ok (os, p, activeChannels, now)
    else Ok (os, p, activeChannels, now)
  end.
End PollPoller.

(** ** The array and the map agree

    Every registered channel owns the entry its [index_] points to, and every
    entry is owned. *)
Section Proofs.
Context {CB : Type}.
Implicit Types (os : objs CB) (p : PollPoller) (c : Channel CB) (i : nat).

Definition pfd_of c (pfd : pollfd) : Prop :=
  pfd_events pfd = events_ c ∧
  (pfd_fd pfd = fd_ c ∨ (pfd_fd pfd = - fd_ c - 1 ∧ events_ c = 0)).

(** Channel [c] at [ch] is registered with entry [i]. *)
Definition owns os p (ch : Ptr) c i (pfd : pollfd) : Prop :=
  os !! ch = Some c ∧ channels_ p !! fd_ c = Some ch ∧ fd_ok (fd_ c) ∧ mask_ok (events_ c) ∧
  index_ c = Z.of_nat i ∧ pollfds_ p !! i = Some pfd ∧ pfd_of c pfd.

Definition poll_inv os p : Prop :=
  (∀ fd ch, channels_ p !! fd = Some ch → ∃ c i pfd, owns os p ch c i pfd ∧ fd_ c = fd) ∧
  (∀ i pfd, pollfds_ p !! i = Some pfd → ∃ ch c, owns os p ch c i pfd).

Lemma poll_inv_ctor os : poll_inv os PollPoller_ctor.
Proof. split; simpl; [by intros ?? ?%lookup_empty_Some|by intros i pfd ?]. Qed.

Lemma s16_mask e : mask_ok e → s16 e = e.
Proof. unfold mask_ok. intros. apply swrap_small; [lia|]. unfold in_signed. simpl. lia. Qed.

(** The descriptor an entry stands for, muted or not. *)
Definition real_fd (pfd : pollfd) : Z :=
  if pfd_fd pfd <? 0 then - pfd_fd pfd - 1 else pfd_fd pfd.

Lemma pfd_of_real_fd c pfd : pfd_of c pfd → fd_ok (fd_ c) → real_fd pfd = fd_ c.
Proof.
  unfold pfd_of, real_fd, fd_ok. intros [_ [->|[-> _]]] ?.
  - by rewrite (proj2 (Z.ltb_ge _ _)) by lia.
  - rewrite (proj2 (Z.ltb_lt _ _)) by lia. lia.
Qed.

(** A channel owns one entry, an entry has one owner. *)
Lemma owns_agree os p ch c i pfd ch' c' i' pfd' :
  owns os p ch c i pfd → owns os p ch' c' i' pfd' →
  (ch = ch' ↔ i = i') ∧ (ch = ch' ↔ fd_ c = fd_ c').
Proof.
  intros (Ho & Hr & Hf & Hm & Hi & He & Hp) (Ho' & Hr' & Hf' & Hm' & Hi' & He' & Hp').
  assert (fd_ c = fd_ c' → ch = ch') by congruence.
  assert (ch = ch' → i = i' ∧ fd_ c = fd_ c').
  { intros ->. assert (c = c') as -> by congruence. split; [lia|done]. }
  assert (i = i' → fd_ c = fd_ c').
  { intros ->. assert (pfd = pfd') as -> by congruence.
    rewrite <-(pfd_of_real_fd _ _ Hp), <-(pfd_of_real_fd _ _ Hp') by done. done. }
  tauto.
Qed.

Lemma real_fds_NoDup os p : poll_inv os p → NoDup (real_fd <$> pollfds_ p).
Proof.
  intros [_ H2]. apply NoDup_alt. intros i j fd.
  rewrite !list_lookup_fmap_Some. intros (pi & -> & Hi) (pj & E & Hj).
  destruct (H2 _ _ Hi) as (ch & c & Ho). destruct (H2 _ _ Hj) as (ch' & c' & Ho').
  destruct (owns_agree _ _ _ _ _ _ _ _ _ _ Ho Ho') as [Ha Hb]. apply Ha, Hb.
  destruct Ho as (_ & _ & ? & _ & _ & _ & Hp), Ho' as (_ & _ & ? & _ & _ & _ & Hp').
  by rewrite <-(pfd_of_real_fd _ _ Hp), <-(pfd_of_real_fd _ _ Hp').
Qed.

Lemma fds_bounded (fds : list Z) : NoDup fds → (∀ fd, fd ∈ fds → fd_ok fd) → sz fds < 2 ^ 31.
Proof.
  intros Hn Hr.
  assert (fds ⊆+ seqZ 0 (2 ^ 31 - 1)) as Hsub%submseteq_length.
  { apply NoDup_submseteq; [done|]. intros fd Hfd. apply elem_of_seqZ.
    specialize (Hr _ Hfd). unfold fd_ok in Hr. lia. }
  rewrite length_seqZ in Hsub. unfold sz. lia.
Qed.

Lemma real_fd_owned os p i pfd ch c :
  owns os p ch c i pfd → real_fd pfd = fd_ c ∧ fd_ok (real_fd pfd) ∧ channels_ p !! real_fd pfd = Some ch.
Proof.
  intros (_ & Hr & Hf & _ & _ & _ & Hp). rewrite (pfd_of_real_fd _ _ Hp) by done. done.
Qed.

(** There is always room for one more descriptor in the [int] index. *)
Lemma pollfds_bounded os p : poll_inv os p →
  sz (pollfds_ p) < 2 ^ 31 ∧
  ∀ fd, fd_ok fd → channels_ p !! fd = None → sz (pollfds_ p) + 1 < 2 ^ 31.
Proof.
  intros Hinv. pose proof (real_fds_NoDup _ _ Hinv) as Hn. destruct Hinv as [_ H2].
  assert (∀ fd, fd ∈ real_fd <$> pollfds_ p → fd_ok fd ∧ is_Some (channels_ p !! fd)) as Hr.
  { intros fd (pfd & -> & [i Hi]%list_elem_of_lookup_1)%list_elem_of_fmap.
    destruct (H2 _ _ Hi) as (ch & c & (? & ? & ?)%real_fd_owned). eauto. }
  split.
  - assert (sz (real_fd <$> pollfds_ p) < 2 ^ 31) as Hb by (apply fds_bounded; [done|by intros fd [? _]%Hr]).
    unfold sz in *. by rewrite length_fmap in Hb.
  - intros fd Hfd Hnone.
    assert (sz (fd :: (real_fd <$> pollfds_ p)) < 2 ^ 31) as Hb.
    { apply fds_bounded.
      - constructor; [|done]. intros [_ [? ?]]%Hr. congruence.
      - intros fd' [->|[? _]%Hr]%elem_of_cons; done. }
    rewrite sz_cons in Hb. unfold sz in *. rewrite length_fmap in Hb. lia.
Qed.

Lemma npfds_eq os p : poll_inv os p → npfds (pollfds_ p) = sz (pollfds_ p).
Proof.
  intros [Hb _]%pollfds_bounded. apply swrap_small; [lia|]. unfold in_signed.
  pose proof (sz_nonneg (pollfds_ p)). lia.
Qed.

(** An owner stays one when its object and its entry are still there. *)
Lemma owns_keep os os' p p' ch c i pfd :
  owns os p ch c i pfd → os' !! ch = Some c → channels_ p' !! fd_ c = Some ch →
  pollfds_ p' !! i = Some pfd → owns os' p' ch c i pfd.
Proof. unfold owns. tauto. Qed.

Definition others_own (ch : Ptr) os p os' p' : Prop :=
  ∀ q cq i pfd, owns os p q cq i pfd → q ≠ ch → owns os' p' q cq i pfd.

Lemma updateChannel_new os p ch c e :
  poll_inv os p → os !! ch = Some c → fd_ok (fd_ c) → mask_ok e →
  channels_ p !! fd_ c = None → index_ c = -1 →
  let c' := set_index (sz (pollfds_ p)) (set_events e c) in
  let p' := mkPollPoller (<[fd_ c := ch]> (channels_ p)) (pollfds_ p ++ [mkPollfd (fd_ c) e 0]) in
  updateChannel true ch (<[ch := set_events e c]> os, p) = Ok (<[ch := c']> os, p') ∧
  poll_inv (<[ch := c']> os) p' ∧
  owns (<[ch := c']> os) p' ch c' (length (pollfds_ p)) (mkPollfd (fd_ c) e 0) ∧
  others_own ch os p (<[ch := c']> os) p'.
Proof.
  intros Hinv Hc Hf He Hn Hi c' p'. destruct (pollfds_bounded _ _ Hinv) as [_ Hb].
  specialize (Hb _ Hf Hn). split.
  - unfold updateChannel, obj. cbn [mbind outcome_bind assertInLoopThread].
    rewrite lookup_insert_eq. cbn [mbind outcome_bind index_ set_events fd_ events_]. rewrite Hi.
    cbn [Z.ltb Z.compare]. rewrite bool_decide_true by done. cbn [assert_ mbind outcome_bind].
    rewrite insert_insert_eq, s16_mask by done. unfold npfds. rewrite sz_app, sz_cons, sz_nil.
    rewrite swrap_small; [|lia|unfold in_signed; pose proof (sz_nonneg (pollfds_ p)); lia].
    unfold c', p'. by replace (sz (pollfds_ p) + (1 + 0) - 1) with (sz (pollfds_ p)) by lia.
  - destruct Hinv as [H1 H2].
    assert (owns (<[ch := c']> os) p' ch c' (length (pollfds_ p)) (mkPollfd (fd_ c) e 0)) as Hnew.
    { unfold owns, c', p'; cbn. split_and!; try done; [apply lookup_insert_eq|apply lookup_insert_eq|..].
      - by apply list_lookup_middle.
      - split; simpl; auto. }
    assert (∀ q cq i pfd, owns os p q cq i pfd → owns (<[ch := c']> os) p' q cq i pfd) as Hold.
    { intros q cq i pfd Ho. pose proof Ho as (? & ? & _ & _ & _ & ? & _).
      assert (fd_ cq ≠ fd_ c) by congruence. assert (q ≠ ch) by congruence.
      eapply owns_keep; [exact Ho|..]; unfold p'; cbn.
      - by rewrite lookup_insert_ne.
      - by rewrite lookup_insert_ne.
      - by apply lookup_app_l_Some. }
    split; [|split; [done|intros q cq i pfd Ho _; by apply Hold]].
    split; cbn [channels_ pollfds_ p'].
    + intros fd q [[<- <-]|[_ Hq]]%lookup_insert_Some; [by eauto 10|].
      destruct (H1 _ _ Hq) as (cq & i & pfd & Ho & Hfd). eauto 10.
    + intros i pfd [Hl|[Hle Hl]]%lookup_app_Some.
      * destruct (H2 _ _ Hl) as (q & cq & Ho). eauto.
      * apply list_lookup_singleton_Some in Hl as [E <-].
        assert (i = length (pollfds_ p)) as -> by lia. eauto.
Qed.

Lemma owns_index os p ch c i pfd :
  poll_inv os p → owns os p ch c i pfd →
  (index_ c <? 0) = false ∧ (0 <=? index_ c) && (index_ c <? npfds (pollfds_ p)) = true ∧
  Z.to_nat (index_ c) = i ∧ (i < length (pollfds_ p))%nat.
Proof.
  intros Hinv (_ & _ & _ & _ & -> & He & _). apply lookup_lt_Some in He.
  rewrite (npfds_eq _ _ Hinv), Nat2Z.id. unfold sz.
  rewrite (proj2 (Z.ltb_ge _ _)) by lia. rewrite (proj2 (Z.leb_le _ _)) by lia.
  by rewrite (proj2 (Z.ltb_lt _ _)) by lia.
Qed.

Lemma assert_known_ok p fd ch : channels_ p !! fd = Some ch → assert_known p fd ch = Ok tt.
Proof. intros E. unfold assert_known. rewrite E. by rewrite !bool_decide_true by eauto. Qed.

Lemma updateChannel_existing os p ch c i pfd e :
  poll_inv os p → owns os p ch c i pfd → mask_ok e →
  let p' := mkPollPoller (channels_ p)
    (<[i := mkPollfd (if e =? 0 then - fd_ c - 1 else fd_ c) e 0]> (pollfds_ p)) in
  updateChannel true ch (<[ch := set_events e c]> os, p) = Ok (<[ch := set_events e c]> os, p') ∧
  poll_inv (<[ch := set_events e c]> os) p' ∧
  owns (<[ch := set_events e c]> os) p' ch (set_events e c) i
    (mkPollfd (if e =? 0 then - fd_ c - 1 else fd_ c) e 0) ∧
  others_own ch os p (<[ch := set_events e c]> os) p'.
Proof.
  intros Hinv Ho He p'.
  destruct (owns_index _ _ _ _ _ _ Hinv Ho) as (I1 & I2 & I3 & I4).
  pose proof Ho as (Hc & Hr & Hf & Hm & Hi & Hl & Hp). split.
  - unfold updateChannel, obj. cbn [mbind outcome_bind assertInLoopThread].
    rewrite lookup_insert_eq. unfold isNoneEvent. cbn [mbind outcome_bind index_ set_events fd_ events_].
    rewrite I1, (assert_known_ok _ _ _ Hr). cbn [mbind outcome_bind]. rewrite I2.
    cbn [assert_ mbind outcome_bind]. rewrite I3, Hl.
    assert ((pfd_fd pfd =? fd_ c) || (pfd_fd pfd =? - fd_ c - 1) = true) as ->.
    { apply orb_true_iff. rewrite !Z.eqb_eq. destruct Hp as [_ [?|[? _]]]; auto. }
    cbn [assert_ mbind outcome_bind]. by rewrite s16_mask.
  - destruct Hinv as [H1 H2].
    set (c' := set_events e c). set (pfd' := mkPollfd _ _ _) in p'.
    assert (owns (<[ch := c']> os) p' ch c' i pfd') as Hnew.
    { unfold owns. split_and!; try done; [apply lookup_insert_eq|by apply list_lookup_insert_eq|].
      split; [done|]. simpl. destruct (Z.eqb_spec e 0); auto. }
    assert (∀ q cq j pfdj, owns os p q cq j pfdj → q ≠ ch →
      owns (<[ch := c']> os) p' q cq j pfdj) as Hold.
    { intros q cq j pfdj Hoj Hne. destruct (owns_agree _ _ _ _ _ _ _ _ _ _ Hoj Ho) as [Ha _].
      pose proof Hoj as (? & ? & _ & _ & _ & ? & _). eapply owns_keep; [exact Hoj|..]; cbn.
      - by rewrite lookup_insert_ne.
      - done.
      - rewrite list_lookup_insert_ne by (intros ?; by apply Hne, Ha). done. }
    split; [|by split]. split; unfold p'; cbn [channels_ pollfds_]; fold p'.
    + intros fd q Hq. destruct (H1 _ _ Hq) as (cq & j & pfdj & Hoj & Hfd).
      destruct (decide (q = ch)) as [->|Hne]; [|by eauto 10].
      exists c', i, pfd'. split; [done|]. destruct Hoj as (? & _). simpl. congruence.
    + intros j pfdj Hj. destruct (decide (j = i)) as [->|Hne].
      * rewrite list_lookup_insert_eq in Hj by done. injection Hj as <-. eauto.
      * rewrite list_lookup_insert_ne in Hj by done. destruct (H2 _ _ Hj) as (q & cq & Hoj).
        exists q, cq. apply Hold; [done|].
        destruct (owns_agree _ _ _ _ _ _ _ _ _ _ Hoj Ho) as [Ha _]. tauto.
Qed.

(** Removing entry [i] renumbers the others by [r]. *)
Definition renumbered os p os' p' ch (r : nat → nat) : Prop :=
  ∀ q cq j pfdj, owns os p q cq j pfdj → q ≠ ch →
    owns os' p' q (set_index (Z.of_nat (r j)) cq) (r j) pfdj.

Lemma renumbered_inv os p os' p' ch c i pfd r :
  poll_inv os p → owns os p ch c i pfd → channels_ p' = delete (fd_ c) (channels_ p) →
  renumbered os p os' p' ch r →
  (∀ k pfdk, pollfds_ p' !! k = Some pfdk → ∃ j, j ≠ i ∧ pollfds_ p !! j = Some pfdk ∧ r j = k) →
  poll_inv os' p'.
Proof.
  intros [H1 H2] Ho Hch HT HS. split.
  - intros fd q. rewrite Hch. intros [Hne Hq]%lookup_delete_Some.
    destruct (H1 _ _ Hq) as (cq & j & pfdj & Hoj & <-).
    destruct (owns_agree _ _ _ _ _ _ _ _ _ _ Hoj Ho) as [_ Hb].
    eexists _, _, _. split; [apply HT; [exact Hoj|]|done]. intros ->. apply Hne. symmetry. by apply Hb.
  - intros k pfdk Hk. destruct (HS _ _ Hk) as (j & Hne & Hj & <-).
    destruct (H2 _ _ Hj) as (q & cq & Hoj).
    destruct (owns_agree _ _ _ _ _ _ _ _ _ _ Hoj Ho) as [Ha _].
    eexists _, _. apply HT; [exact Hoj|]. tauto.
Qed.

(** What [removeChannel] leaves when the removed entry is the last one... *)
Lemma remove_last os p ch c l pfd :
  poll_inv os p → owns os p ch c (length l) pfd → pollfds_ p = l ++ [pfd] →
  renumbered os p os (mkPollPoller (delete (fd_ c) (channels_ p)) l) ch id ∧
  poll_inv os (mkPollPoller (delete (fd_ c) (channels_ p)) l).
Proof.
  intros Hinv Ho El.
  assert (renumbered os p os (mkPollPoller (delete (fd_ c) (channels_ p)) l) ch id) as HT.
  { intros q cq j pfdj Hoj Hne. destruct (owns_agree _ _ _ _ _ _ _ _ _ _ Hoj Ho) as [Ha Hb].
    pose proof Hoj as (Hq & Hr & _ & _ & Hi & Hj & _). rewrite (set_index_same cq) by done.
    eapply owns_keep; [exact Hoj|done|..]; cbn.
    - rewrite lookup_delete_ne; [done|]. intros ?. by apply Hne, Hb.
    - rewrite El in Hj. apply lookup_app_Some in Hj as [?|[Hge Hj]]; [done|].
      apply list_lookup_singleton_Some in Hj as [? _]. exfalso. apply Hne, Ha. unfold id. lia. }
  split; [done|]. eapply (renumbered_inv os p); [done|exact Ho|done|exact HT|].
  cbn. intros k pfdk Hk. exists k. pose proof (lookup_lt_Some _ _ _ Hk).
  split_and!; [lia| |done]. rewrite El. by apply lookup_app_l_Some.
Qed.

(** ... and when another entry moves into its place. *)
Lemma remove_middle os p ch c i pfd l q cq back :
  poll_inv os p → owns os p ch c i pfd → pollfds_ p = l ++ [back] → (i < length l)%nat →
  owns os p q cq (length l) back →
  let os' := <[q := set_index (Z.of_nat i) cq]> os in
  let p' := mkPollPoller (delete (fd_ c) (channels_ p)) (<[i := back]> l) in
  renumbered os p os' p' ch (λ j, if decide (j = length l) then i else j) ∧ poll_inv os' p'.
Proof.
  intros Hinv Ho El Hlt Hoq os' p'. set (r := λ j, _).
  assert (renumbered os p os' p' ch r) as HT.
  { intros q' cq' j pfdj Hoj Hne.
    destruct (owns_agree _ _ _ _ _ _ _ _ _ _ Hoj Ho) as [Ha Hb].
    destruct (owns_agree _ _ _ _ _ _ _ _ _ _ Hoj Hoq) as [Haq _].
    pose proof Hoj as (Hq' & Hr & Hf & Hm & Hi & Hj & Hp).
    assert (delete (fd_ c) (channels_ p) !! fd_ cq' = Some q') as Hreg.
    { rewrite lookup_delete_ne; [done|]. intros ?. by apply Hne, Hb. }
    unfold r. case_decide as Hjl.
    - assert (q' = q) as -> by tauto. destruct Hoq as (Hcq & _ & _ & _ & _ & Hlb & _).
      assert (cq' = cq) as -> by congruence. subst j. rewrite Hj in Hlb. injection Hlb as ->.
      unfold owns, os', p'; cbn. split_and!; try done; [apply lookup_insert_eq|].
      by apply list_lookup_insert_eq.
    - rewrite (set_index_same cq') by done. eapply owns_keep; [exact Hoj|..].
      + unfold os'. rewrite lookup_insert_ne by (intros ->; tauto). done.
      + done.
      + cbn. rewrite El in Hj. rewrite list_lookup_insert_ne by (intros ?; by apply Hne, Ha).
        apply lookup_app_Some in Hj as [?|[Hge Hj]]; [done|].
        apply list_lookup_singleton_Some in Hj as [? _]. lia. }
  split; [done|]. eapply (renumbered_inv os p); [done|exact Ho|done|exact HT|].
  unfold p'; cbn. intros k pfdk Hk. pose proof (lookup_lt_Some _ _ _ Hk) as Hkl.
  rewrite length_insert in Hkl. unfold r. destruct (decide (k = i)) as [->|Hne].
  - exists (length l). rewrite list_lookup_insert_eq in Hk by done. injection Hk as <-.
    rewrite decide_True by done. split_and!; [lia| |done]. rewrite El. by apply list_lookup_middle.
  - exists k. rewrite decide_False by lia. rewrite list_lookup_insert_ne in Hk by done.
    split_and!; [done| |done]. rewrite El. by apply lookup_app_l_Some.
Qed.

Lemma poll_removeChannel_spec os p ch c i pfd :
  poll_inv os p → owns os p ch c i pfd → pfd_fd pfd = - fd_ c - 1 →
  ∃ os' p' r,
    removeChannel true ch (os, p) = Ok (os', p') ∧ poll_inv os' p' ∧
    channels_ p' = delete (fd_ c) (channels_ p) ∧
    os' !! ch = Some c ∧ others_kept ch os os' ∧ renumbered os p os' p' ch r.
Proof.
  intros Hinv Ho Hmute.
  destruct (owns_index _ _ _ _ _ _ Hinv Ho) as (I1 & I2 & I3 & I4).
  pose proof Ho as (Hc & Hr & Hf & Hm & Hi & Hl & Hpe & Hpf).
  assert (events_ c = 0) as Hz by (destruct Hpf as [?|[_ ?]]; [unfold fd_ok in Hf; lia|done]).
  unfold removeChannel, obj. cbn [mbind outcome_bind assertInLoopThread]. rewrite Hc.
  cbn [mbind outcome_bind]. rewrite (assert_known_ok _ _ _ Hr). unfold isNoneEvent.
  cbn [mbind outcome_bind]. rewrite Hz. cbn [Z.eqb kNoneEvent assert_ mbind outcome_bind].
  rewrite I2, I3, Hl. cbn [assert_ mbind outcome_bind].
  rewrite Hmute, Z.eqb_refl, Hpe, Hz. cbn [Z.eqb andb assert_ mbind outcome_bind].
  destruct (last (pollfds_ p)) as [back|] eqn:Elast.
  2:{ apply last_None in Elast. by rewrite Elast in Hl. }
  apply last_Some in Elast as [l El].
  destruct (Z.eqb_spec (index_ c) (sz (pollfds_ p) - 1)) as [Hend|Hend];
    rewrite El, sz_app, sz_cons, sz_nil in Hend; unfold sz in Hend.
  - assert (i = length l) as -> by lia.
    rewrite El, list_lookup_middle in Hl by done. injection Hl as ->.
    destruct (remove_last os p ch c l pfd Hinv Ho El) as [HT Hinv'].
    rewrite El. rewrite removelast_last. eexists _, _, id. split_and!; try done.
    intros q _. destruct (os !! q); by constructor.
  - rewrite El, length_app in I4. simpl in I4. assert (i < length l)%nat as Hlt by lia.
    destruct Hinv as [H1 H2]. destruct (H2 (length l) back) as (q & cq & Hoq).
    { rewrite El. by apply list_lookup_middle. }
    destruct (owns_agree _ _ _ _ _ _ _ _ _ _ Hoq Ho) as [Ha Hb].
    destruct (real_fd_owned _ _ _ _ _ _ Hoq) as (Hrf & _ & Hrq).
    assert (q ≠ ch) as Hne by (intros ->; destruct Ha as [Ha _]; specialize (Ha eq_refl); lia).
    change (if pfd_fd back <? 0 then - pfd_fd back - 1 else pfd_fd back) with (real_fd back).
    rewrite lookup_delete_ne, Hrq by (rewrite Hrf; intros ?; by apply Hne, Hb).
    pose proof Hoq as (-> & _). cbn [mbind outcome_bind]. unfold swap_pop. rewrite El.
    rewrite insert_app_l, removelast_last by done.
    destruct (remove_middle os p ch c i pfd l q cq back) as [HT Hinv']; [by split|done..|].
    rewrite Hi. eexists _, _, _. split_and!; [done|exact Hinv'|done| | |exact HT].
    + by rewrite lookup_insert_ne.
    + intros q' Hq'. destruct (decide (q' = q)) as [->|].
      * rewrite lookup_insert_eq. destruct Hoq as (-> & _). constructor. apply same_but_index_set.
      * rewrite lookup_insert_ne by done. destruct (os !! q'); by constructor.
Qed.

(** *** What the kernel watches *)
Definition active_entries (pfds : list pollfd) : list (Z * Z) :=
  (λ pfd, (pfd_fd pfd, pfd_events pfd)) <$> filter (λ pfd, 0 ≤ pfd_fd pfd) pfds.
Definition poll_watch p : gmap Z Z := list_to_map (active_entries (pollfds_ p)).

Lemma elem_of_active pfds fd e :
  (fd, e) ∈ active_entries pfds ↔
  ∃ i pfd, pfds !! i = Some pfd ∧ 0 ≤ fd ∧ pfd_fd pfd = fd ∧ pfd_events pfd = e.
Proof.
  unfold active_entries. rewrite list_elem_of_fmap. split.
  - intros (pfd & [= -> ->] & [? [i ?]%list_elem_of_lookup_1]%list_elem_of_filter). eauto 10.
  - intros (i & pfd & Hl & ? & <- & <-). exists pfd. split; [done|].
    apply list_elem_of_filter. split; [done|]. by eapply list_elem_of_lookup_2.
Qed.

Lemma entry_unique os p ch c i pfd j pfd' :
  poll_inv os p → owns os p ch c i pfd → pollfds_ p !! j = Some pfd' → pfd_fd pfd' = fd_ c →
  pfd' = pfd.
Proof.
  intros [_ H2] Ho Hj Hfd. destruct (H2 _ _ Hj) as (q & cq & Hoj).
  destruct (real_fd_owned _ _ _ _ _ _ Hoj) as (Hr & _).
  destruct (owns_agree _ _ _ _ _ _ _ _ _ _ Hoj Ho) as [Ha Hb].
  assert (fd_ cq = fd_ c) as Hf.
  { rewrite <-Hr. unfold real_fd. rewrite Hfd. destruct Ho as (_ & _ & [? _] & _).
    by rewrite (proj2 (Z.ltb_ge _ _)) by lia. }
  assert (j = i) as -> by (apply Ha, Hb, Hf).
  destruct Ho as (_ & _ & _ & _ & _ & ? & _). congruence.
Qed.

Lemma watch_owned os p ch c i pfd :
  poll_inv os p → owns os p ch c i pfd →
  poll_watch p !! fd_ c = if decide (pfd_fd pfd = fd_ c) then Some (events_ c) else None.
Proof.
  intros Hinv Ho. pose proof Ho as (_ & _ & [Hf _] & _ & _ & Hl & Hpe & _).
  unfold poll_watch. case_decide as Hd.
  - apply elem_of_list_to_map_1'.
    + intros y (j & pfd' & Hj & _ & Hfd & <-)%elem_of_active.
      by rewrite (entry_unique _ _ _ _ _ _ _ _ Hinv Ho Hj Hfd).
    + apply elem_of_active. eauto 10.
  - destruct (list_to_map (active_entries _) !! _) as [y|] eqn:E; [|done]. apply elem_of_list_to_map_2 in E.
    apply elem_of_active in E as (j & pfd' & Hj & _ & Hfd & _).
    by rewrite (entry_unique _ _ _ _ _ _ _ _ Hinv Ho Hj Hfd) in Hfd.
Qed.

Lemma watch_unregistered os p fd :
  poll_inv os p → channels_ p !! fd = None → poll_watch p !! fd = None.
Proof.
  intros [_ H2] Hn. unfold poll_watch. destruct (list_to_map (active_entries _) !! _) as [y|] eqn:E; [|done].
  apply elem_of_list_to_map_2, elem_of_active in E as (j & pfd & Hj & Hge & Hfd & _).
  destruct (H2 _ _ Hj) as (q & cq & Hoj). destruct (real_fd_owned _ _ _ _ _ _ Hoj) as (Hr & _ & Hq).
  unfold real_fd in Hq. rewrite Hfd, (proj2 (Z.ltb_ge _ _)) in Hq by lia. congruence.
Qed.

(** Both states know the same channels with the same entries: they watch the
    same descriptors. *)
Lemma watch_same os p os' p' fd :
  poll_inv os p → poll_inv os' p' → channels_ p' !! fd = channels_ p !! fd →
  (∀ ch c i pfd, owns os p ch c i pfd → fd_ c = fd →
     ∃ c' i', owns os' p' ch c' i' pfd ∧ fd_ c' = fd) →
  poll_watch p' !! fd = poll_watch p !! fd.
Proof.
  intros Hinv Hinv' Hch Hown. destruct (channels_ p !! fd) as [ch|] eqn:E.
  - pose proof Hinv as [H1 _]. destruct (H1 _ _ E) as (c & i & pfd & Ho & Hfd).
    destruct (Hown _ _ _ _ Ho Hfd) as (c' & i' & Ho' & Hfd').
    rewrite <-Hfd at 2. rewrite (watch_owned _ _ _ _ _ _ Hinv Ho).
    rewrite <-Hfd' at 1. rewrite (watch_owned _ _ _ _ _ _ Hinv' Ho').
    destruct Ho as (_ & _ & _ & _ & _ & _ & He & _), Ho' as (_ & _ & _ & _ & _ & _ & He' & _).
    rewrite <-He, <-He', Hfd, Hfd'. done.
  - rewrite (watch_unregistered os p fd), (watch_unregistered os' p' fd); done.
Qed.

Lemma watch_update os p os' p' ch c' i pfd' :
  poll_inv os p → poll_inv os' p' → owns os' p' ch c' i pfd' →
  channels_ p' = <[fd_ c' := ch]> (channels_ p) → others_own ch os p os' p' →
  poll_watch p' !! fd_ c' = (if decide (pfd_fd pfd' = fd_ c') then Some (events_ c') else None) ∧
  ∀ fd, fd ≠ fd_ c' → poll_watch p' !! fd = poll_watch p !! fd.
Proof.
  intros Hinv Hinv' Ho' Hch Hk. split; [by apply (watch_owned os' p' ch c' i)|].
  intros fd Hne. apply (watch_same os p os'); [done..|by rewrite Hch, lookup_insert_ne|].
  intros q cq j pfdj Hoj <-. exists cq, j. split; [|done]. apply Hk; [done|]. intros ->.
  destruct Ho' as (Hc' & _), Hoj as (_ & Hrj & _), Hinv' as [H1 _].
  destruct (H1 (fd_ cq) ch) as (c2 & _ & _ & (? & _) & ?); [|congruence].
  by rewrite Hch, lookup_insert_ne.
Qed.
End Proofs.

(** ** The poller interface *)
#[export] Program Instance poll_poller CB : Poller CB PollPoller := {
  channels := channels_;
  watch := poll_watch;
  Poller.updateChannel := updateChannel;
  Poller.removeChannel := removeChannel;
  poller_inv := poll_inv
}.
Next Obligation.
  intros CB os p fd ch (H & _) Hch. destruct (H _ _ Hch) as (c & i & pfd & (? & _) & ?). eauto.
Qed.
Next Obligation.
  intros CB os os' p [H1 H2] Hs _. cbn in *.
  assert (∀ ch c i pfd, owns os p ch c i pfd → ∃ c', owns os' p ch c' i pfd ∧ fd_ c' = fd_ c) as Ho.
  { intros ch c i pfd (Hc & Hr & Hf & Hm & Hi & He & Hp). specialize (Hs _ _ Hr). rewrite Hc in Hs.
    inversion Hs as [? c' (E1 & E2 & E3) Heq|]; subst. exists c'.
    unfold owns, pfd_of in *. by rewrite E1, E2, E3. }
  split.
  - intros fd ch Hch. destruct (H1 _ _ Hch) as (c & i & pfd & (c' & ? & E)%Ho & <-). eauto 10.
  - intros i pfd He. destruct (H2 _ _ He) as (ch & c & (c' & ? & _)%Ho). eauto.
Qed.
Next Obligation.
  intros CB os p ch c e Hinv Hc Hf He Hreg.
  destruct (channels_ p !! fd_ c) as [ch'|] eqn:Hr.
  - destruct Hreg as [Hreg|[Hreg _]]; simplify_eq.
    pose proof Hinv as [H1 _]. destruct (H1 _ _ Hr) as (c' & i & pfd & Ho & _).
    assert (c' = c) as -> by (destruct Ho; congruence).
    destruct (updateChannel_existing os p ch c i pfd e Hinv Ho He) as (E & Hinv' & Ho' & Hk).
    eexists _, _, (index_ c). split; [exact E|]. split; [exact Hinv'|].
    destruct (watch_update _ _ _ _ _ _ _ _ Hinv Hinv' Ho') as [Hw Hws]; [by cbn; rewrite insert_id|done|].
    cbn in Hw. unfold fd_ok in Hf.
    split_and!; cbn; [f_equal; by destruct c|by rewrite insert_id|..|exact Hws]; rewrite Hw;
      destruct (Z.eqb_spec e 0); repeat case_decide; (done || lia || auto).
  - destruct Hreg as [|[_ Hi]]; [done|].
    destruct (updateChannel_new os p ch c e Hinv Hc Hf He Hr Hi) as (E & Hinv' & Ho' & Hk).
    eexists _, _, _. split; [exact E|]. split; [exact Hinv'|].
    destruct (watch_update _ _ _ _ _ _ _ _ Hinv Hinv' Ho') as [Hw Hws]; [done|done|].
    cbn in Hw. rewrite decide_True in Hw by done.
    split_and!; cbn; [done|done|..|exact Hws]; rewrite ?Hw; [done|by intros ->; right|].
    intros _ [w Hw']. by rewrite (watch_unregistered os p) in Hw'.
Qed.
Next Obligation.
  intros CB os p ch c Hinv Hc Hr Hz Hw. cbn in *.
  pose proof Hinv as [H1 _]. destruct (H1 _ _ Hr) as (c' & i & pfd & Ho & _).
  assert (c' = c) as -> by (destruct Ho; congruence).
  rewrite (watch_owned _ _ _ _ _ _ Hinv Ho) in Hw. case_decide as Hd; [done|].
  assert (pfd_fd pfd = - fd_ c - 1) as Hm by (destruct Ho as (_ & _ & _ & _ & _ & _ & _ & [?|[? _]]); done).
  destruct (poll_removeChannel_spec os p ch c i pfd Hinv Ho Hm) as (os' & p' & r & E & Hinv' & Hch & Hc' & Hk & HT).
  exists os', p'. split_and!; try done.
  - rewrite Hc'. by constructor.
  - apply map_eq. intros fd. destruct (decide (fd = fd_ c)) as [->|Hne].
    + rewrite (watch_unregistered os' p') by (done || by rewrite Hch, lookup_delete_eq).
      by rewrite (watch_owned _ _ _ _ _ _ Hinv Ho), decide_False.
    + apply (watch_same os p os'); [done..| |].
      * by rewrite Hch, lookup_delete_ne.
      * intros q cq j pfdj Hoj <-. destruct (owns_agree _ _ _ _ _ _ _ _ _ _ Hoj Ho) as [Ha Hb].
        eexists _, _. split; [apply HT; [exact Hoj|tauto]|done].
Qed.

(** ** poll *)
Section Poll.
Context {CB : Type}.
Implicit Types (os : objs CB) (p : PollPoller).

(** poll(2): every entry gets its [revents], none for a negative descriptor. *)
Definition answers (pfds : list pollfd) (revs : list Z) : Prop :=
  Forall2 (λ pfd r, 0 ≤ r < 2 ^ 15 ∧ (pfd_fd pfd < 0 → r = 0)) pfds revs.

Definition with_revents (pfds : list pollfd) (revs : list Z) : list pollfd :=
  zip_with (λ pfd r, mkPollfd (pfd_fd pfd) (pfd_events pfd) r) pfds revs.

(** The channels whose entry got an event, in the order of the array. *)
Fixpoint ready (chans : gmap Z Ptr) (pfds : list pollfd) : list (Ptr * Z) :=
  match pfds with
  | [] => []
  | pfd :: pfds' =>
    match chans !! pfd_fd pfd with
    | Some ch => if 0 <? pfd_revents pfd then (ch, pfd_revents pfd) :: ready chans pfds'
                 else ready chans pfds'
    | None => ready chans pfds'
    end
  end.

Definition store_ready (evs : list (Ptr * Z)) os : objs CB :=
  foldl (λ os '(ch, r), alter (set_revents r) ch os) os evs.

Lemma poll_fillActiveChannels_spec p : ∀ pfds os active,
  (∀ pfd, pfd ∈ pfds → 0 < pfd_revents pfd →
     ∃ ch c, channels_ p !! pfd_fd pfd = Some ch ∧ os !! ch = Some c ∧ fd_ c = pfd_fd pfd) →
  fillActiveChannels pfds p os active =
    Ok (store_ready (ready (channels_ p) pfds) os, active ++ (ready (channels_ p) pfds).*1).
Proof.
  induction pfds as [|pfd pfds IH]; intros os active Hreg; simpl.
  { by rewrite app_nil_r. }
  destruct (Z.ltb_spec 0 (pfd_revents pfd)) as [Hpos|Hz].
  - destruct (Hreg pfd) as (ch & c & Hch & Hc & Hfd); [set_solver|done|].
    rewrite Hch. unfold obj. rewrite Hc. simpl. rewrite (proj2 (Z.eqb_eq _ _)) by done. simpl.
    rewrite IH.
    + rewrite <-app_assoc. unfold store_ready. simpl.
      replace (alter (set_revents (pfd_revents pfd)) ch os)
        with (<[ch := set_revents (pfd_revents pfd) c]> os); [done|].
      apply map_eq. intros q. destruct (decide (q = ch)) as [->|].
      * by rewrite lookup_insert_eq, lookup_alter_eq, Hc.
      * by rewrite lookup_insert_ne, lookup_alter_ne by done.
    + intros pfd' Hin Hpos'. destruct (Hreg pfd') as (ch' & c' & Hch' & Hc' & Hfd'); [set_solver|done|].
      exists ch'. destruct (decide (ch' = ch)) as [->|].
      * exists (set_revents (pfd_revents pfd) c). rewrite lookup_insert_eq. by simplify_eq.
      * exists c'. by rewrite lookup_insert_ne.
  - rewrite IH by set_solver. by destruct (channels_ p !! pfd_fd pfd).
Qed.

Lemma with_revents_active os p revs pfd :
  poll_inv os p → answers (pollfds_ p) revs → pfd ∈ with_revents (pollfds_ p) revs →
  0 < pfd_revents pfd →
  ∃ ch c, channels_ p !! pfd_fd pfd = Some ch ∧ os !! ch = Some c ∧ fd_ c = pfd_fd pfd.
Proof.
  intros [_ H2] Ha [i Hi]%list_elem_of_lookup_1 Hpos.
  apply lookup_zip_with_Some in Hi as (pfd0 & r & -> & Hp & Hr). simpl in *.
  destruct (Forall2_lookup_lr _ _ _ _ _ _ Ha Hp Hr) as [_ Hneg].
  destruct (H2 _ _ Hp) as (ch & c & Ho). destruct (real_fd_owned _ _ _ _ _ _ Ho) as (Hf & _ & Hch).
  assert (real_fd pfd0 = pfd_fd pfd0) as Hreal.
  { unfold real_fd. destruct (Z.ltb_spec (pfd_fd pfd0) 0); [lia|done]. }
  rewrite Hreal in Hf, Hch. destruct Ho as (Hc & _). eauto.
Qed.

Lemma no_events_ready chans pfds :
  (∀ pfd, pfd ∈ pfds → pfd_revents pfd = 0) → ready chans pfds = [].
Proof.
  induction pfds as [|pfd pfds IH]; intros Hz; simpl; [done|].
  rewrite (Hz pfd) by set_solver. rewrite IH by set_solver. by destruct (chans !! _).
Qed.

Lemma poll_reported kernel_poll now active os p :
  poll_inv os p → (∀ revs, kernel_poll (pollfds_ p) = inr revs → answers (pollfds_ p) revs) →
  poll kernel_poll now active (os, p) =
    match kernel_poll (pollfds_ p) with
    | inl _ => Ok (os, p, active, now)
    | inr revs =>
      let pfds := with_revents (pollfds_ p) revs in
      Ok (store_ready (ready (channels_ p) pfds) os, mkPollPoller (channels_ p) pfds,
          active ++ (ready (channels_ p) pfds).*1, now)
    end.
Proof.
  intros Hinv Ha. unfold poll. destruct (kernel_poll (pollfds_ p)) as [e|revs]; [done|].
  specialize (Ha _ eq_refl). cbn zeta. fold (with_revents (pollfds_ p) revs).
  destruct (Z.ltb_spec 0 (sz (filter (λ r, r ≠ 0) revs))) as [Hpos|Hneg].
  - rewrite poll_fillActiveChannels_spec; [done|].
    intros pfd Hin Hp. by apply (with_revents_active os p revs).
  - rewrite no_events_ready; [by rewrite app_nil_r|].
    intros pfd [i Hi]%list_elem_of_lookup_1.
    apply lookup_zip_with_Some in Hi as (pfd0 & r & -> & _ & Hr). simpl.
    destruct (decide (r = 0)) as [|Hne]; [done|exfalso].
    assert (r ∈ filter (λ r, r ≠ 0) revs) as Hin.
    { apply list_elem_of_filter. split; [done|]. by eapply list_elem_of_lookup_2. }
    destruct (filter _ revs) as [|r' l]; [by apply not_elem_of_nil in Hin|]. rewrite sz_cons in Hneg.
    pose proof (sz_nonneg l). lia.
Qed.

Lemma store_ready_only evs : ∀ os q,
  option_Forall2 same_but_revents (os !! q) (store_ready evs os !! q).
Proof.
  induction evs as [|[ch r] evs IH]; intros os q; simpl.
  { by destruct (os !! q); constructor. }
  apply (alter_revents_same _ _ ch r), IH.
Qed.

(** The kernel's answers change the entries' [revents] only. *)
Lemma with_revents_lookup pfds revs i pfd : answers pfds revs → pfds !! i = Some pfd →
  ∃ r, with_revents pfds revs !! i = Some (mkPollfd (pfd_fd pfd) (pfd_events pfd) r).
Proof.
  intros Ha Hi. destruct (Forall2_lookup_l _ _ _ _ _ Ha Hi) as (r & Hr & _). exists r.
  apply lookup_zip_with_Some. eauto 10.
Qed.

Lemma with_revents_inv os p revs : poll_inv os p → answers (pollfds_ p) revs →
  poll_inv os (mkPollPoller (channels_ p) (with_revents (pollfds_ p) revs)).
Proof.
  intros [H1 H2] Ha.
  assert (∀ ch c i pfd, owns os p ch c i pfd → ∃ r, owns os
    (mkPollPoller (channels_ p) (with_revents (pollfds_ p) revs)) ch c i
    (mkPollfd (pfd_fd pfd) (pfd_events pfd) r)) as Ho.
  { intros ch c i pfd (Hc & Hr & Hf & Hm & Hi & He & Hp).
    destruct (with_revents_lookup _ _ _ _ Ha He) as (r & Hr'). exists r. by split_and!. }
  split.
  - intros fd ch Hch. destruct (H1 _ _ Hch) as (c & i & pfd & Hc & <-). destruct (Ho _ _ _ _ Hc). eauto 10.
  - intros i pfd Hi. cbn in Hi. apply lookup_zip_with_Some in Hi as (pfd0 & r & -> & Hp & Hr).
    destruct (H2 _ _ Hp) as (ch & c & Hc). destruct (Ho _ _ _ _ Hc) as (r' & Hc').
    exists ch, c. pose proof Hc' as (_ & _ & _ & _ & _ & Hl & _). cbn in Hl.
    unfold with_revents in Hl. assert (with_revents (pollfds_ p) revs !! i =
      Some (mkPollfd (pfd_fd pfd0) (pfd_events pfd0) r)) as Hl2 by (apply lookup_zip_with_Some; eauto 10).
    unfold with_revents in Hl2. rewrite Hl in Hl2. by injection Hl2 as <-.
Qed.

Lemma with_revents_watch pfds revs : answers pfds revs →
  active_entries (with_revents pfds revs) = active_entries pfds.
Proof.
  unfold active_entries, with_revents. induction 1 as [|pfd r pfds revs _ _ IH]; [done|]. simpl.
  rewrite !filter_cons. cbn [pfd_fd]. case_decide; [|done]. by rewrite !fmap_cons, IH.
Qed.

Lemma ready_entry (chans : gmap Z Ptr) pfds ch r : (ch, r) ∈ ready chans pfds →
  ∃ pfd, pfd ∈ pfds ∧ chans !! pfd_fd pfd = Some ch ∧ 0 < pfd_revents pfd.
Proof.
  induction pfds as [|pfd pfds IH]; simpl; [by intros ?%not_elem_of_nil|]. intros H.
  assert ((ch, r) ∈ ready chans pfds ∨ chans !! pfd_fd pfd = Some ch ∧ 0 < pfd_revents pfd) as [Hr|Hr].
  { revert H. destruct (chans !! pfd_fd pfd) as [ch'|]; [|by left].
    destruct (Z.ltb_spec 0 (pfd_revents pfd)); [|by left]. intros Hin.
    apply elem_of_cons in Hin as [[= -> ->]|]; auto. }
  - destruct (IH Hr) as (pfd' & ? & ? & ?). exists pfd'. split; [|done]. apply elem_of_cons. by right.
  - exists pfd. split; [|done]. apply elem_of_cons. by left.
Qed.

#[export] Program Instance poll_polls : Polls CB PollPoller := {
  polled st m := ∃ kernel_poll now,
    (∀ revs, kernel_poll (pollfds_ st.2) = inr revs → answers (pollfds_ st.2) revs) ∧
    m = (λ r, (r.1.1.1, r.1.1.2, r.1.2)) <$> poll kernel_poll now [] st
}.
Next Obligation.
  intros os p m Hinv (kp & now & Ha & ->). cbn [fst snd] in *. rewrite poll_reported by done.
  destruct (kp (pollfds_ p)) as [e|revs] eqn:E; cbn.
  - eexists _, _, _. split; [reflexivity|]. split_and!; try done; [by intros ch ?%not_elem_of_nil|].
    intros q. destruct (os !! q); by constructor.
  - specialize (Ha _ eq_refl). set (evs := ready _ _).
    eexists _, _, _. split; [reflexivity|]. split_and!; [|done|..|apply store_ready_only].
    + set (p' := mkPollPoller _ _). assert (poller_inv (store_ready evs os) p') as Hx; [|exact Hx].
      apply (poller_frame os); [by apply with_revents_inv|..].
      * intros fd q _. destruct (store_ready_only evs os q); constructor. by apply same_but_revents_poller.
      * intros q c' Hc'. right. pose proof (store_ready_only evs os q) as Hs. rewrite Hc' in Hs.
        inversion Hs as [c ? Hs' Heq|]; subst. exists c. split; [done|]. by apply same_but_revents_poller.
    + exact (f_equal list_to_map (with_revents_watch _ _ Ha)).
    + intros ch ([ch' r] & -> & (pfd & Hpfd & Hch & Hpos)%ready_entry)%list_elem_of_fmap.
      destruct (with_revents_active os p revs pfd Hinv Ha Hpfd Hpos) as (ch2 & c & Hch2 & Hc & Hfd).
      assert (ch2 = ch') as -> by congruence. exists c. cbn. by rewrite Hfd.
Qed.

(** [poll] hands the events of every entry to the channel of its
    descriptor, in the order of the array, without tripping an assertion; on an
    error it reports nothing and changes nothing. *)
Theorem poll_poller_reports kernel_poll now active os p :
  poll_inv os p → (∀ revs, kernel_poll (pollfds_ p) = inr revs → answers (pollfds_ p) revs) →
  poll kernel_poll now active (os, p) =
    match kernel_poll (pollfds_ p) with
    | inl _ => Ok (os, p, active, now)
    | inr revs =>
      let pfds := with_revents (pollfds_ p) revs in
      Ok (store_ready (ready (channels_ p) pfds) os, mkPollPoller (channels_ p) pfds,
          active ++ (ready (channels_ p) pfds).*1, now)
    end.
Proof. apply poll_reported. Qed.

(** ** Differences from the epoll poller *)

(** Two sequences the epoll poller accepts end the process here.  A removed
    channel keeps its old [index_], so adding it again trips an assertion; and a
    channel whose first update asks for no events (a [disableAll] before any
    enable) is stored unmuted, so removing it trips one. *)
Theorem poll_poller_rejects os p ch c i pfd e :
  poll_inv os p →
  (owns os p ch c i pfd → pfd_fd pfd = - fd_ c - 1 → mask_ok e →
     ∃ os' p', removeChannel true ch (os, p) = Ok (os', p') ∧
       updateChannel true ch (<[ch := set_events e c]> os', p') = Fail AssertFailure) ∧
  (os !! ch = Some c → fd_ok (fd_ c) → channels_ p !! fd_ c = None → index_ c = -1 →
     ∃ os' p', updateChannel true ch (<[ch := clear_all c]> os, p) = Ok (os', p') ∧
       removeChannel true ch (os', p') = Fail AssertFailure).
Proof.
  intros Hinv. split.
  - intros Ho Hm He.
    destruct (poll_removeChannel_spec os p ch c i pfd Hinv Ho Hm) as (os' & p' & r & E & _ & Hch & _).
    exists os', p'. split; [done|]. unfold updateChannel, obj. cbn [mbind outcome_bind assertInLoopThread].
    rewrite lookup_insert_eq. cbn [mbind outcome_bind index_ set_events fd_ events_].
    destruct (owns_index _ _ _ _ _ _ Hinv Ho) as (-> & _). unfold assert_known.
    rewrite Hch, lookup_delete_eq. by rewrite (bool_decide_false (is_Some _)) by apply is_Some_None.
  - intros Hc Hf Hn Hi.
    destruct (updateChannel_new os p ch c 0 Hinv Hc Hf ltac:(unfold mask_ok; lia) Hn Hi)
      as (E & Hinv' & Ho & _).
    eexists _, _. split; [exact E|].
    destruct (owns_index _ _ _ _ _ _ Hinv' Ho) as (_ & I2 & I3 & _).
    unfold removeChannel, obj. cbn [mbind outcome_bind assertInLoopThread].
    rewrite lookup_insert_eq. cbn [mbind outcome_bind]. cbn [set_index set_events fd_ index_ events_] in *.
    rewrite assert_known_ok by (cbn; apply lookup_insert_eq). unfold isNoneEvent.
    cbn [mbind outcome_bind events_ Z.eqb kNoneEvent assert_]. rewrite I2, I3.
    cbn [mbind outcome_bind assert_ pollfds_]. rewrite list_lookup_middle by done. cbn [pfd_fd].
    unfold fd_ok in Hf. by rewrite (proj2 (Z.eqb_neq (fd_ c) _)) by lia.
Qed.
End Poll.

(** *** Two registered channels, one of them muted *)
Definition demo_objs : objs string :=
  {[ 100 := set_index 0 (Channel_ctor 1 7);
     200 := set_index 1 (set_events kReadEvent (Channel_ctor 1 8)) ]}.
Definition demo_poller : PollPoller :=
  mkPollPoller {[ 7 := 100; 8 := 200 ]} [mkPollfd (-8) 0 0; mkPollfd 8 kReadEvent 0].

Lemma demo_owns0 : owns demo_objs demo_poller 100 (set_index 0 (Channel_ctor 1 7)) 0 (mkPollfd (-8) 0 0).
Proof. unfold owns, pfd_of, fd_ok, mask_ok. split_and!; try (done || reflexivity). right. done. Qed.
Lemma demo_owns1 : owns demo_objs demo_poller 200
  (set_index 1 (set_events kReadEvent (Channel_ctor 1 8))) 1 (mkPollfd 8 kReadEvent 0).
Proof. unfold owns, pfd_of, fd_ok, mask_ok. split_and!; try (done || reflexivity). by left. Qed.

Lemma demo_poll_inv : poll_inv demo_objs demo_poller.
Proof.
  split.
  - unfold demo_poller at 1; cbn [channels_].
    intros fd ch [[<- <-]|[_ [<- <-]%lookup_singleton_Some]]%lookup_insert_Some.
    + eexists _, _, _. split; [exact demo_owns0|done].
    + eexists _, _, _. split; [exact demo_owns1|done].
  - intros [|[|i]] pfd E; [..|done]; injection E as <-; eexists _, _;
      [exact demo_owns0|exact demo_owns1].
Qed.

Lemma poll_poller_reports_witness :
  ∃ os' p', poll (λ _, inr [0; POLLIN]) 99 [] (demo_objs, demo_poller) = Ok (os', p', [200], 99) ∧
    (revents_ <$> os' !! 200) = Some POLLIN.
Proof.
  eexists _, _. split.
  - rewrite (poll_poller_reports (λ _, inr [0; POLLIN]) 99 [] demo_objs demo_poller demo_poll_inv).
    + vm_compute. reflexivity.
    + intros revs E. injection E as <-. repeat constructor; done.
  - vm_compute. reflexivity.
Defined.

Lemma poll_poller_rejects_witness :
  ∃ os' p', removeChannel true 100 (demo_objs, demo_poller) = Ok (os', p') ∧
    updateChannel true 100 (<[100 := set_events kReadEvent (set_index 0 (Channel_ctor 1 7))]> os', p')
      = Fail AssertFailure.
Proof.
  destruct (poll_poller_rejects demo_objs demo_poller 100 (set_index 0 (Channel_ctor 1 7)) 0
    (mkPollfd (-8) 0 0) kReadEvent demo_poll_inv) as [H _].
  apply H; [exact demo_owns0|reflexivity|unfold mask_ok; done].
Defined.
