(* ===== verification/Reactor.v ===== *)
(** How channels reach their loop's poller: [Channel::update], [remove],
    [enableReading] ... and the destructor ([src/net/channel.h],
    [src/net/channel.cpp]), [EventLoop::updateChannel], [removeChannel] and
    [hasChannel] and the dispatch loop ([src/net/eventloop.cpp]).

    Everything here is proved against the [Poller] interface, for both pollers
    at once. *)
From stdpp Require Import strings gmap.
From S2P Require Import Prelude EPollPoller PollPoller Channel Poller.

(** The part of an event loop that channels work with. *)
Record Loop (P : Type) := mkLoop {
  self : Ptr;
  threadId_ : Z;
  eventHandling_ : bool;
  activeChannels_ : list Ptr;
  currentActiveChannel_ : option Ptr;
  poller_ : P
}.
Arguments mkLoop {P}. Arguments self {P}. Arguments threadId_ {P}.
Arguments eventHandling_ {P}. Arguments activeChannels_ {P}.
Arguments currentActiveChannel_ {P}. Arguments poller_ {P}.

Definition set_poller {P} (p : P) (l : Loop P) : Loop P :=
  mkLoop (self l) (threadId_ l) (eventHandling_ l) (activeChannels_ l) (currentActiveChannel_ l) p.
Definition set_current {P} (ch : option Ptr) (l : Loop P) : Loop P :=
  mkLoop (self l) (threadId_ l) (eventHandling_ l) (activeChannels_ l) ch (poller_ l).
Definition set_handling {P} (b : bool) (l : Loop P) : Loop P :=
  mkLoop (self l) (threadId_ l) b (activeChannels_ l) (currentActiveChannel_ l) (poller_ l).
Definition set_active {P} (chs : list Ptr) (l : Loop P) : Loop P :=
  mkLoop (self l) (threadId_ l) (eventHandling_ l) chs (currentActiveChannel_ l) (poller_ l).

Section Reactor.
Context {CB P : Type} `{!Poller CB P}.
(** The thread that runs the code. *)
Variable tid : Z.
Implicit Types (os : objs CB) (l : Loop P).

Definition isInLoopThread l : bool := threadId_ l =? tid.

(** *** EventLoop *)
Definition loop_updateChannel (ch : Ptr) (st : objs CB * Loop P) : outcome (objs CB * Loop P) :=
  let '(os, l) := st in
  c ← obj os ch;
  assert! loop_ c =? self l;;
  _ ← assertInLoopThread (isInLoopThread l);
  '(os, p) ← updateChannel (isInLoopThread l) ch (os, poller_ l);
  Ok (os, set_poller p l).

Definition loop_removeChannel (ch : Ptr) (st : objs CB * Loop P) : outcome (objs CB * Loop P) :=
  let '(os, l) := st in
  c ← obj os ch;
  assert! loop_ c =? self l;;
  _ ← assertInLoopThread (isInLoopThread l);
  _ ← (if eventHandling_ l then
         assert_ (bool_decide (currentActiveChannel_ l = Some ch)
                  || negb (bool_decide (ch ∈ activeChannels_ l)))
       else Ok tt);
  '(os, p) ← removeChannel (isInLoopThread l) ch (os, poller_ l);
  Ok (os, set_poller p l).

Definition loop_hasChannel (ch : Ptr) (st : objs CB * Loop P) : outcome bool :=
  let '(os, l) := st in
  c ← obj os ch;
  assert! loop_ c =? self l;;
  _ ← assertInLoopThread (isInLoopThread l);
  hasChannel (isInLoopThread l) os (channels (poller_ l)) ch.

(** *** Channel *)
Definition put (ch : Ptr) (f : Channel CB → Channel CB) (st : objs CB * Loop P)
    : outcome (objs CB * Loop P) :=
  c ← obj st.1 ch; Ok (<[ch := f c]> st.1, st.2).

Definition channel_update (ch : Ptr) (st : objs CB * Loop P) : outcome (objs CB * Loop P) :=
  st ← put ch (set_addedToLoop true) st;
  loop_updateChannel ch st.

Definition channel_remove (ch : Ptr) (st : objs CB * Loop P) : outcome (objs CB * Loop P) :=
  c ← obj st.1 ch;
  assert! isNoneEvent c;;
  st ← put ch (set_addedToLoop false) st;
  loop_removeChannel ch st.

Definition enableReading (ch : Ptr) st := st ← put ch or_read st; channel_update ch st.
Definition disableReading (ch : Ptr) st := st ← put ch clear_read st; channel_update ch st.
Definition enableWriting (ch : Ptr) st := st ← put ch or_write st; channel_update ch st.
Definition disableWriting (ch : Ptr) st := st ← put ch clear_write st; channel_update ch st.
Definition disableAll (ch : Ptr) st := st ← put ch clear_all st; channel_update ch st.

(** The destructor; afterwards the address holds no channel. *)
Definition Channel_dtor (ch : Ptr) (st : objs CB * Loop P) : outcome (objs CB * Loop P) :=
  c ← obj st.1 ch;
  assert! negb (Channel.eventHandling_ c);;
  assert! negb (addedToLoop_ c);;
  _ ← (if isInLoopThread st.2 then
         has ← loop_hasChannel ch st; assert_ (negb has)
       else Ok tt);
  Ok (delete ch st.1, st.2).

(** ** A registered channel

    [registered os l ch c]: [c] at [ch] is this loop's, is or may be in the
    poller, and the kernel watches it for what it asks. *)
Definition loop_ok os l : Prop := poller_inv os (poller_ l) ∧ threadId_ l = tid.

Definition registered os l (ch : Ptr) (c : Channel CB) : Prop :=
  os !! ch = Some c ∧ loop_ c = self l ∧ fd_ok (fd_ c) ∧ mask_ok (events_ c) ∧
  channels (poller_ l) !! fd_ c = Some ch ∧ addedToLoop_ c = true ∧
  (events_ c ≠ 0 → watch (poller_ l) !! fd_ c = Some (events_ c)) ∧
  (events_ c = 0 →
     watch (poller_ l) !! fd_ c = None ∨ watch (poller_ l) !! fd_ c = Some 0).

(** A channel nobody has enabled yet. *)
Definition fresh os l (ch : Ptr) (c : Channel CB) : Prop :=
  os !! ch = Some c ∧ loop_ c = self l ∧ fd_ok (fd_ c) ∧
  channels (poller_ l) !! fd_ c = None ∧ index_ c = -1.

Definition known os l ch c : Prop := fresh os l ch c ∨ registered os l ch c.

Lemma known_facts os l ch c : known os l ch c →
  os !! ch = Some c ∧ loop_ c = self l ∧ fd_ok (fd_ c) ∧
  (channels (poller_ l) !! fd_ c = Some ch ∨
   channels (poller_ l) !! fd_ c = None ∧ index_ c = -1).
Proof. intros [(?&?&?&?&?)|(?&?&?&?&?&?)]; auto 10. Qed.

(** Flags and callbacks are not the poller's business. *)
Lemma loop_ok_frame1 os l ch c c' :
  loop_ok os l → os !! ch = Some c → same_for_poller c c' → loop_ok (<[ch := c']> os) l.
Proof.
  intros [Hinv Ht] Hc Hs. split; [|done]. apply (poller_frame os _ _ Hinv).
  - intros fd q _. destruct (decide (q = ch)) as [->|].
    + rewrite Hc, lookup_insert_eq. by constructor.
    + rewrite lookup_insert_ne by done. by destruct (os !! q); constructor.
  - intros q cq [[<- <-]|[_ Hq]]%lookup_insert_Some; right; eauto.
    exists cq. by split.
Qed.

Lemma loop_ok_thread os l : loop_ok os l → isInLoopThread l = true.
Proof. intros [_ Ht]. by apply Z.eqb_eq. Qed.

(** One change of [events_] and the [update()] after it. *)
Lemma update_spec os l ch c e :
  loop_ok os l → known os l ch c → mask_ok e →
  ∃ os' p' c',
    (st ← put ch (set_events e) (os, l); channel_update ch st) = Ok (os', set_poller p' l) ∧
    loop_ok os' (set_poller p' l) ∧ registered os' (set_poller p' l) ch c' ∧
    same_but_index (set_addedToLoop true (set_events e c)) c' ∧
    channels p' = <[fd_ c := ch]> (channels (poller_ l)) ∧
    (e = 0 → is_Some (watch (poller_ l) !! fd_ c) → watch p' !! fd_ c = None) ∧
    (∀ q, q ≠ ch → os' !! q = os !! q) ∧
    ∀ fd, fd ≠ fd_ c → watch p' !! fd = watch (poller_ l) !! fd.
Proof.
  intros Hok Hk He. destruct (known_facts _ _ _ _ Hk) as (Hc & Hl & Hf & Hreg).
  set (c1 := set_addedToLoop true c). set (os1 := <[ch := c1]> os).
  assert (loop_ok os1 l) as [Hinv1 Ht] by by apply (loop_ok_frame1 os l ch c).
  destruct (poller_update os1 (poller_ l) ch c1 e Hinv1 (lookup_insert_eq _ _ _) Hf He Hreg)
    as (os' & p' & idx & E & Hinv' & -> & Hch & W1 & W2 & W3 & W4).
  unfold os1 in *. rewrite !insert_insert_eq in *.
  eexists _, p', (set_index idx (set_events e c1)). split_and!; [..|done].
  - unfold put, obj, channel_update, put, obj, loop_updateChannel, obj.
    cbn [fst snd]. rewrite Hc. cbn [mbind outcome_bind fst snd].
    rewrite lookup_insert_eq. cbn [mbind outcome_bind fst snd].
    rewrite insert_insert_eq, lookup_insert_eq. cbn [mbind outcome_bind].
    change (set_addedToLoop true (set_events e c)) with (set_events e c1).
    change (loop_ (set_events e c1)) with (loop_ c). rewrite Hl, Z.eqb_refl, (loop_ok_thread _ _ Hok). cbn [mbind outcome_bind assert_ assertInLoopThread].
    rewrite E. reflexivity.
  - split; [exact Hinv'|done].
  - unfold registered; cbn. rewrite lookup_insert_eq, Hch, lookup_insert_eq. by split_and!.
  - reflexivity.
  - done.
  - exact W3.
  - intros q Hq. by rewrite lookup_insert_ne.
Qed.

Definition idle l : Prop := eventHandling_ l = false.

(** [EventLoop::removeChannel]'s assertion while events are handled. *)
Definition removable l ch : Prop :=
  eventHandling_ l = true → currentActiveChannel_ l = Some ch ∨ ch ∉ activeChannels_ l.

Lemma idle_removable l ch : idle l → removable l ch.
Proof. unfold idle, removable. congruence. Qed.

Lemma removable_assert l ch : removable l ch →
  (if eventHandling_ l then
     assert_ (bool_decide (currentActiveChannel_ l = Some ch) || negb (bool_decide (ch ∈ activeChannels_ l)))
   else Ok tt) = Ok tt.
Proof.
  unfold removable. destruct (eventHandling_ l); [|done]. intros H. apply assert_ok, orb_true_iff.
  destruct (H eq_refl); [left|right]; [by apply bool_decide_eq_true|].
  by apply negb_true_iff, bool_decide_eq_false.
Qed.

(** [remove] of a channel that watches nothing and is not watched. *)
Lemma remove_spec os l ch c :
  loop_ok os l → registered os l ch c → removable l ch → events_ c = 0 → watch (poller_ l) !! fd_ c = None →
  ∃ os' p' c',
    channel_remove ch (os, l) = Ok (os', set_poller p' l) ∧ loop_ok os' (set_poller p' l) ∧
    os' !! ch = Some c' ∧ same_but_index (set_addedToLoop false c) c' ∧ others_kept ch os os' ∧
    channels p' = delete (fd_ c) (channels (poller_ l)) ∧ watch p' = watch (poller_ l).
Proof.
  intros Hok (Hc & Hl & Hf & Hm & Hr & _ & _ & _) Hrm Hz Hw.
  set (c1 := set_addedToLoop false c).
  assert (loop_ok (<[ch := c1]> os) l) as [Hinv1 Ht] by by apply (loop_ok_frame1 os l ch c).
  destruct (poller_remove (<[ch := c1]> os) (poller_ l) ch c1 Hinv1 (lookup_insert_eq _ _ _) Hr Hz Hw)
    as (os' & p' & E & Hinv' & Hcr & Hk & Hch & Hw').
  inversion Hcr as [? c' Hs Heq|]; subst. exists os', p', c'. split_and!; try done.
  - unfold channel_remove, put, loop_removeChannel, obj. cbn [fst snd]. rewrite Hc.
    unfold isNoneEvent. cbn [mbind outcome_bind fst snd]. rewrite Hz.
    cbn [mbind outcome_bind fst snd Z.eqb kNoneEvent assert_]. rewrite lookup_insert_eq.
    cbn [mbind outcome_bind fst snd]. fold c1. change (loop_ c1) with (loop_ c).
    rewrite Hl, Z.eqb_refl, (loop_ok_thread _ _ Hok), removable_assert by done.
    cbn [mbind outcome_bind assert_ assertInLoopThread].
    rewrite E. reflexivity.
  - intros q Hq. specialize (Hk q Hq). by rewrite lookup_insert_ne in Hk.
Qed.

(** The destructor of a channel the poller does not know; its descriptor may
    already be another channel's. *)
Lemma dtor_spec os l ch c :
  loop_ok os l → os !! ch = Some c → loop_ c = self l →
  Channel.eventHandling_ c = false → addedToLoop_ c = false →
  (∀ fd, channels (poller_ l) !! fd ≠ Some ch) →
  Channel_dtor ch (os, l) = Ok (delete ch os, l) ∧ loop_ok (delete ch os) l.
Proof.
  intros Hok Hc Hl He Ha Hnr. split.
  - unfold Channel_dtor, loop_hasChannel, hasChannel, obj. cbn [fst snd]. rewrite Hc.
    cbn [mbind outcome_bind]. rewrite He, Ha, Hl, Z.eqb_refl, (loop_ok_thread _ _ Hok).
    cbn [mbind outcome_bind assert_ negb assertInLoopThread].
    destruct (channels (poller_ l) !! fd_ c) as [q|] eqn:E; [|done].
    rewrite bool_decide_false; [done|]. intros ->. by apply (Hnr (fd_ c)).
  - destruct Hok as [Hinv Ht]. split; [|done]. apply (poller_frame os _ _ Hinv).
    + intros fd q Hq. rewrite lookup_delete_ne by congruence. by destruct (os !! q); constructor.
    + intros q cq [_ Hq]%lookup_delete_Some. right. exists cq. by split.
Qed.

(** ** The life of a channel *)
Inductive flag_op := EnableReading | DisableReading | EnableWriting | DisableWriting | DisableAll.

Definition run_flag (o : flag_op) (ch : Ptr) (st : objs CB * Loop P) : outcome (objs CB * Loop P) :=
  match o with
  | EnableReading => enableReading ch st
  | DisableReading => disableReading ch st
  | EnableWriting => enableWriting ch st
  | DisableWriting => disableWriting ch st
  | DisableAll => disableAll ch st
  end.

Definition flag_events (o : flag_op) (e : Z) : Z :=
  match o with
  | EnableReading => Z.lor e kReadEvent
  | DisableReading => Z.land e (Z.lnot kReadEvent)
  | EnableWriting => Z.lor e kWriteEvent
  | DisableWriting => Z.land e (Z.lnot kWriteEvent)
  | DisableAll => kNoneEvent
  end.

Fixpoint run_flags (ops : list flag_op) (ch : Ptr) (st : objs CB * Loop P)
    : outcome (objs CB * Loop P) :=
  match ops with [] => Ok st | o :: ops' => st ← run_flag o ch st; run_flags ops' ch st end.

Lemma mask_bits e : mask_ok e ↔ 0 ≤ e ∧ Z.shiftr e 15 = 0.
Proof.
  unfold mask_ok. rewrite Z.shiftr_div_pow2 by lia. change (2 ^ 15) with 32768.
  pose proof (Z.div_small_iff e 32768). lia.
Qed.

Lemma flag_events_ok o e : mask_ok e → mask_ok (flag_events o e).
Proof.
  rewrite !mask_bits. intros [H1 H2]. destruct o; simpl.
  - by rewrite Z.lor_nonneg, Z.shiftr_lor, H2.
  - by rewrite Z.land_nonneg, Z.shiftr_land, H2; auto.
  - by rewrite Z.lor_nonneg, Z.shiftr_lor, H2.
  - by rewrite Z.land_nonneg, Z.shiftr_land, H2; auto.
  - done.
Qed.

Lemma run_flag_put o ch c os l :
  os !! ch = Some c →
  run_flag o ch (os, l) =
    (st ← put ch (set_events (flag_events o (events_ c))) (os, l); channel_update ch st).
Proof.
  intros Hc. destruct o; unfold run_flag, enableReading, disableReading, enableWriting,
    disableWriting, disableAll, put, obj; cbn [fst snd]; rewrite Hc; reflexivity.
Qed.

Lemma same_but_index_more (c c' : Channel CB) :
  same_but_index c c' → events_ c' = events_ c ∧ fd_ c' = fd_ c ∧ loop_ c' = loop_ c ∧
  Channel.eventHandling_ c' = Channel.eventHandling_ c ∧ addedToLoop_ c' = addedToLoop_ c.
Proof. intros (?&?&?&?&?)%same_but_index_fields. done. Qed.

Lemma run_flags_spec ops ch : ∀ os l c,
  loop_ok os l → known os l ch c → mask_ok (events_ c) →
  ∃ os' p' c',
    run_flags ops ch (os, l) = Ok (os', set_poller p' l) ∧ loop_ok os' (set_poller p' l) ∧
    (ops ≠ [] → registered os' (set_poller p' l) ch c' ∧
                channels p' = <[fd_ c := ch]> (channels (poller_ l))) ∧
    events_ c' = foldl (flip flag_events) (events_ c) ops ∧ fd_ c' = fd_ c ∧
    Channel.eventHandling_ c' = Channel.eventHandling_ c ∧
    (∀ q, q ≠ ch → os' !! q = os !! q) ∧
    ∀ fd, fd ≠ fd_ c → watch p' !! fd = watch (poller_ l) !! fd.
Proof.
  induction ops as [|o ops IH]; intros os l c Hok Hk Hm.
  { exists os, (poller_ l), c. replace (set_poller (poller_ l) l) with l by by destruct l.
    by split_and!. }
  destruct (known_facts _ _ _ _ Hk) as (Hc & _ & _ & _). simpl. rewrite (run_flag_put o ch c) by done.
  destruct (update_spec os l ch c (flag_events o (events_ c)) Hok Hk (flag_events_ok _ _ Hm))
    as (os1 & p1 & c1 & E & Hok1 & Hr1 & Hs1 & Hch1 & _ & Ho1 & Hw1).
  rewrite E. cbn [mbind outcome_bind].
  destruct (same_but_index_more _ _ Hs1) as (Ee & Ef & El & Eh & _). cbn in Ee, Ef, El, Eh.
  destruct (IH os1 (set_poller p1 l) c1 Hok1) as (os' & p' & c' & E' & Hok' & Hr' & He' & Hf' & Hh' & Ho' & Hw');
    [by right|rewrite Ee; by apply flag_events_ok|].
  destruct (decide (ops = [])) as [->|Hne].
  - simpl in *. injection E' as <- <-. exists os1, p1, c1. by split_and!.
  - destruct (Hr' Hne) as [Hreg Hch']. exists os', p', c'. cbn in Hch'.
    split_and!; try done.
    + intros _. split; [exact Hreg|]. by rewrite Hch', Hch1, Ef, insert_insert_eq.
    + by rewrite He', Ee.
    + by rewrite Hf', Ef.
    + by rewrite Hh', Eh.
    + intros q Hq. by rewrite Ho', Ho1.
    + intros fd Hfd. rewrite Hw' by by rewrite Ef. by apply Hw1.
Qed.

(** [disableAll], [remove] and the destructor of a channel that watches something. *)
Lemma teardown_spec os l ch c :
  loop_ok os l → idle l → registered os l ch c → events_ c ≠ 0 → Channel.eventHandling_ c = false →
  ∃ os2 p2 os3 p3,
    disableAll ch (os, l) = Ok (os2, set_poller p2 l) ∧ watch p2 !! fd_ c = None ∧
    channel_remove ch (os2, set_poller p2 l) = Ok (os3, set_poller p3 l) ∧
    Channel_dtor ch (os3, set_poller p3 l) = Ok (delete ch os3, set_poller p3 l) ∧
    loop_ok (delete ch os3) (set_poller p3 l) ∧
    channels p3 = delete (fd_ c) (channels (poller_ l)) ∧
    (∀ fd, fd ≠ fd_ c → watch p3 !! fd = watch (poller_ l) !! fd) ∧
    others_kept ch os os3.
Proof.
  intros Hok Hidle Hr Hne Hnh. pose proof Hr as (Hc & Hl & _ & _ & Hreg & _ & Hwatch & _).
  specialize (Hwatch Hne).
  destruct (update_spec os l ch c 0 Hok (or_intror Hr))
    as (os2 & p2 & c2 & E2 & Hok2 & Hr2 & Hs2 & Hch2 & Hz2 & Ho2 & Hw2); [done|].
  destruct (same_but_index_more _ _ Hs2) as (Ee2 & Ef2 & El2 & Eh2 & _). cbn in Ee2, Ef2, El2, Eh2.
  assert (watch p2 !! fd_ c = None) as Hn2 by eauto.
  destruct (remove_spec os2 (set_poller p2 l) ch c2 Hok2 Hr2 (idle_removable _ _ Hidle) Ee2)
    as (os3 & p3 & c3 & E3 & Hok3 & Hc3 & Hs3 & Ho3 & Hch3 & Hw3); [cbn; by rewrite Ef2|].
  destruct (same_but_index_more _ _ Hs3) as (Ee3 & Ef3 & El3 & Eh3 & Ea3). cbn in Ee3, Ef3, El3, Eh3, Ea3.
  assert (channels p3 = delete (fd_ c) (channels (poller_ l))) as Hch.
  { rewrite Hch3, Ef2. cbn. rewrite Hch2. apply delete_insert_eq. }
  destruct (dtor_spec os3 (set_poller p3 l) ch c3 Hok3 Hc3) as [E4 Hok4]; try done.
  - exact (eq_trans El3 (eq_trans El2 Hl)).
  - congruence.
  - intros fd. cbn. rewrite Hch. intros [Hfd Hr']%lookup_delete_Some. destruct Hok as [Hinv _].
    destruct (poller_registered _ _ _ _ Hinv Hr') as (c' & Hc' & <-). congruence.
  - exists os2, p2, os3, p3. split_and!; try done.
    + intros fd Hfd. rewrite Hw3. by apply Hw2.
    + intros q Hq. rewrite <-(Ho2 q) by done. by apply Ho3.
Qed.

(** A new channel object, and the first [enableReading]. *)
Lemma new_object_ok os l ch c :
  loop_ok os l → os !! ch = None → index_ c = -1 → loop_ok (<[ch := c]> os) l.
Proof.
  intros [Hinv Ht] Hnew Hi. split; [|done]. apply (poller_frame os _ _ Hinv).
  - intros fd' q Hq. destruct (poller_registered _ _ _ _ Hinv Hq) as (c' & Hc' & _).
    rewrite lookup_insert_ne by congruence. rewrite Hc'. by constructor.
  - intros q c' [[<- <-]|[_ Hq]]%lookup_insert_Some; [by left|]. right. by exists c'.
Qed.

Lemma new_channel_spec os l ch fd cb :
  loop_ok os l → os !! ch = None → fd_ok fd → channels (poller_ l) !! fd = None →
  let c := setReadCallback cb (Channel_ctor (self l) fd) in
  loop_ok (<[ch := c]> os) l ∧ fresh (<[ch := c]> os) l ch c.
Proof.
  intros Hok Hnew Hfd Hn c. split; [by apply new_object_ok|].
  unfold fresh. rewrite lookup_insert_eq. by split_and!.
Qed.

Lemma enable_fresh_spec os l ch c :
  loop_ok os l → fresh os l ch c → events_ c = 0 → Channel.eventHandling_ c = false →
  ∃ os' p' c',
    enableReading ch (os, l) = Ok (os', set_poller p' l) ∧ loop_ok os' (set_poller p' l) ∧
    registered os' (set_poller p' l) ch c' ∧ events_ c' = kReadEvent ∧ fd_ c' = fd_ c ∧
    Channel.eventHandling_ c' = false ∧ watch p' !! fd_ c = Some kReadEvent ∧
    channels p' = <[fd_ c := ch]> (channels (poller_ l)) ∧ (∀ q, q ≠ ch → os' !! q = os !! q) ∧
    ∀ fd, fd ≠ fd_ c → watch p' !! fd = watch (poller_ l) !! fd.
Proof.
  intros Hok Hfr Hz Hh. pose proof Hfr as (Hc & _).
  destruct (update_spec os l ch c kReadEvent Hok (or_introl Hfr))
    as (os2 & p2 & c2 & E2 & Hok2 & Hr2 & Hs2 & Hch2 & _ & Ho2 & Hw2); [done|].
  destruct (same_but_index_more _ _ Hs2) as (Ee & Ef & _ & Eh & _). cbn in Ee, Ef, Eh.
  exists os2, p2, c2. split_and!; try done; [|congruence|].
  - unfold enableReading. rewrite <-E2. unfold put, obj. cbn [fst snd]. rewrite Hc.
    cbn [mbind outcome_bind]. unfold or_read. by rewrite Hz.
  - destruct Hr2 as (_ & _ & _ & _ & _ & _ & Hw & _). rewrite Ee, Ef in Hw. by apply Hw.
Qed.

(** A registered channel stays so when others change. *)
Lemma registered_kept os l ch c os' p' :
  registered os l ch c → option_Forall2 same_but_index (os !! ch) (os' !! ch) →
  channels p' !! fd_ c = channels (poller_ l) !! fd_ c → watch p' !! fd_ c = watch (poller_ l) !! fd_ c →
  ∃ c', registered os' (set_poller p' l) ch c' ∧ same_but_index c c'.
Proof.
  intros (Hc & Hl & Hf & Hm & Hr & Ha & Hw1 & Hw2) Ho Hch Hw. rewrite Hc in Ho.
  inversion Ho as [? c' Hs E1 E2|]; subst. exists c'. split; [|done].
  destruct (same_but_index_fields _ _ Hs) as (Ef & Ee & El & _ & Ead).
  unfold registered. cbn. rewrite Ef, Ee, Hch, Hw. by split_and!; try congruence.
Qed.

(** C20: the whole life of a channel on either poller.  After any sequence of
    enables and disables that leaves it interested in something, the kernel
    watches its descriptor for exactly the events it asks for; [disableAll],
    [remove] and the destructor then pass all their assertions and leave the
    poller as it was before the channel came, other channels untouched. *)
Theorem channel_lifecycle ops os l ch c :
  loop_ok os l → idle l → fresh os l ch c → events_ c = 0 → Channel.eventHandling_ c = false →
  foldl (flip flag_events) 0 ops ≠ 0 →
  ∃ os1 p1 os2 p2 os3 p3,
    run_flags ops ch (os, l) = Ok (os1, set_poller p1 l) ∧
    watch p1 !! fd_ c = Some (foldl (flip flag_events) 0 ops) ∧
    disableAll ch (os1, set_poller p1 l) = Ok (os2, set_poller p2 l) ∧
    watch p2 !! fd_ c = None ∧
    channel_remove ch (os2, set_poller p2 l) = Ok (os3, set_poller p3 l) ∧
    Channel_dtor ch (os3, set_poller p3 l) = Ok (delete ch os3, set_poller p3 l) ∧
    loop_ok (delete ch os3) (set_poller p3 l) ∧
    channels p3 = channels (poller_ l) ∧
    (∀ fd, fd ≠ fd_ c → watch p3 !! fd = watch (poller_ l) !! fd) ∧
    others_kept ch os os3.
Proof.
  intros Hok Hidle Hfr Hz Hnh Hne.
  destruct (run_flags_spec ops ch os l c Hok (or_introl Hfr)) as
    (os1 & p1 & c1 & E1 & Hok1 & Hr1 & He1 & Hf1 & Hh1 & Ho1 & Hw1); [by rewrite Hz|].
  destruct Hr1 as [Hr1 Hch1]; [by intros ->|]. rewrite Hz in He1.
  pose proof Hr1 as (_ & _ & _ & _ & _ & _ & Hwatch & _). rewrite He1, Hf1 in Hwatch.
  destruct (teardown_spec os1 (set_poller p1 l) ch c1 Hok1 Hidle Hr1)
    as (os2 & p2 & os3 & p3 & E2 & Hn & E3 & E4 & Hok3 & Hch & Hw & Ho); [congruence..|].
  rewrite Hf1 in Hn, Hch, Hw. exists os1, p1, os2, p2, os3, p3. split_and!; try done; try by apply Hwatch.
  - rewrite Hch. cbn. rewrite Hch1. apply delete_insert_id. by destruct Hfr as (_ & _ & _ & ? & _).
  - intros fd Hfd. rewrite Hw by done. by apply Hw1.
  - intros q Hq. rewrite <-(Ho1 q) by done. by apply Ho.
Qed.
End Reactor.

(** ** One round of dispatching ([EventLoop::loop] between [poll] and
    [doPendingFunctors]), in a world with more state [X] than the channels. *)
#[export] Program Instance reactor_store CB P X : ChannelStore CB (objs CB * Loop P * X) := {
  chan_lookup w p := w.1.1 !! p;
  chan_insert p c w := (<[p := c]> w.1.1, w.1.2, w.2)
}.
Next Obligation. intros. apply lookup_insert_eq. Qed.
Next Obligation. intros. by apply lookup_insert_ne. Qed.

Section HandleActive.
Context {CB P X : Type}.
Context (call : CB → Z → objs CB * Loop P * X → outcome (objs CB * Loop P * X)).
Context (lock : objs CB * Loop P * X → Ptr → bool).

Definition on_loop (f : Loop P → Loop P) (w : objs CB * Loop P * X) : objs CB * Loop P * X :=
  (w.1.1, f w.1.2, w.2).

Fixpoint handle_active (chs : list Ptr) (pollReturnTime : Z) (w : objs CB * Loop P * X)
    : outcome (objs CB * Loop P * X) :=
  match chs with
  | [] => Ok w
  | ch :: chs' =>
    w ← handleEvent call lock ch pollReturnTime (on_loop (set_current (Some ch)) w);
    handle_active chs' pollReturnTime w
  end.

Definition dispatch_events (pollReturnTime : Z) (w : objs CB * Loop P * X)
    : outcome (objs CB * Loop P * X) :=
  w ← handle_active (activeChannels_ w.1.2) pollReturnTime (on_loop (set_handling true) w);
  Ok (on_loop (set_handling false) (on_loop (set_current None) w)).
End HandleActive.

(** *** A channel lives on an epoll poller *)
Definition life_objs : objs string := {[ 100 := Channel_ctor 1 7 ]}.
Definition life_loop : Loop (EPollPoller (gmap Z epoll_event)) :=
  mkLoop 1 42 false [] None (EPollPoller_ctor (∅ : gmap Z epoll_event)).

Lemma life_ok : loop_ok 42 life_objs life_loop.
Proof.
  split; [|done]. apply epoll_inv_ctor; [done|].
  unfold life_objs. by intros ch c [<- <-]%lookup_singleton_Some.
Qed.

Lemma channel_lifecycle_witness :
  ∃ os1 p1, run_flags 42 [EnableReading; EnableWriting; DisableReading] 100 (life_objs, life_loop)
      = Ok (os1, set_poller p1 life_loop) ∧
    watch (CB:=string) p1 !! 7 = Some kWriteEvent.
Proof.
  destruct (channel_lifecycle 42 [EnableReading; EnableWriting; DisableReading] life_objs life_loop
    100 (Channel_ctor 1 7) life_ok ltac:(reflexivity)) as (os1 & p1 & _ & _ & _ & _ & E & Hw & _).
  - unfold fresh, fd_ok. split_and!; reflexivity || done.
  - reflexivity.
  - reflexivity.
  - done.
  - exists os1, p1. split; [exact E|exact Hw].
Defined.
