(* ===== verification/Timestamp.v ===== *)
(** [kaycc::Timestamp] ([src/base/timestamp.h], [src/base/timestamp.cpp]) and
    [kaycc::atomics::AtomicInteger] ([src/base/atomic.h]).

    A timestamp is its [int64_t] of microseconds.  [double] is the standard
    library's executable IEEE 754 binary64 ([spec_float] at precision 53). *)
From Stdlib Require Import Floats.SpecFloat DecimalFacts DecimalPos DecimalN DecimalString
  Strings.String Strings.Ascii.
From S2P Require Import Prelude.
Open Scope Z_scope.

(** The result of signed arithmetic in [int64_t]: overflow is undefined. *)
Definition i64 (z : Z) : outcome Z :=
  if (- 2 ^ 63 <=? z) && (z <? 2 ^ 63) then Ok z else Fail UB.

Lemma i64_ok z : in_signed 64 z → i64 z = Ok z.
Proof.
  unfold in_signed, i64. intros. rewrite (proj2 (Z.leb_le _ _)) by lia.
  by rewrite (proj2 (Z.ltb_lt _ _)) by lia.
Qed.

Lemma i64_inv z r : i64 z = Ok r → r = z ∧ in_signed 64 z.
Proof.
  unfold i64, in_signed. destruct (Z.leb_spec (- 2 ^ 63) z); [|done].
  destruct (Z.ltb_spec z (2 ^ 63)); [|done]. intros [= <-]. split; [done|lia].
Qed.

(** ** double *)
Abbreviation double := spec_float.
Definition dmul : double → double → double := SFmul 53 1024.
Definition ddiv : double → double → double := SFdiv 53 1024.
(** The conversion of an integer to [double]. *)
Definition double_of_Z (z : Z) : double := binary_normalize 53 1024 z 0 false.
(** [static_cast<int64_t>]: truncation, undefined when the value does not fit. *)
Definition int64_of_double (x : double) : outcome Z :=
  match x with
  | S754_zero _ => Ok 0
  | S754_finite s m e =>
    let n := if 0 <=? e then Z.pos m * 2 ^ e else Z.pos m / 2 ^ (- e) in
    i64 (if s then - n else n)
  | _ => Fail UB
  end.
(** [x > 0] *)
Definition positive (x : double) : bool := SFltb (S754_zero false) x.

(** ** Timestamp *)
Abbreviation Timestamp := Z (only parsing).

Definition kMicroSecondsPerSecond : Z := 1000000.

Definition valid (t : Timestamp) : bool := 0 <? t.
Definition invalid : Timestamp := 0.
Definition secondsSinceEpoch (t : Timestamp) : Z := Z.quot t kMicroSecondsPerSecond.

Definition fromUnixTime (t microseconds : Z) : outcome Timestamp :=
  s ← i64 (t * kMicroSecondsPerSecond); i64 (s + microseconds).

Definition now (tv_sec tv_usec : Z) : outcome Timestamp :=
  s ← i64 (tv_sec * kMicroSecondsPerSecond); i64 (s + tv_usec).

Definition timeDifference (high low : Timestamp) : outcome double :=
  diff ← i64 (high - low);
  Ok (ddiv (double_of_Z diff) (double_of_Z kMicroSecondsPerSecond)).

Definition addTime (timestamp : Timestamp) (seconds : double) : outcome Timestamp :=
  delta ← int64_of_double (dmul seconds (double_of_Z kMicroSecondsPerSecond));
  i64 (timestamp + delta).

(** *** toString *)
Definition digits (n : Z) : string := NilZero.string_of_uint (N.to_uint (Z.to_N n)).

Fixpoint zeros (n : nat) : string :=
  match n with O => EmptyString | S n => String "0"%char (zeros n) end.

(** printf's [%ld] and [%06ld] *)
Definition fmt_ld (n : Z) : string :=
  if n <? 0 then ("-" ++ digits (- n))%string else digits n.
Definition fmt_06ld (n : Z) : string :=
  if n <? 0 then ("-" ++ zeros (5 - String.length (digits (- n))) ++ digits (- n))%string
  else (zeros (6 - String.length (digits n)) ++ digits n)%string.

(** [snprintf(buf, 31, ...)] keeps 30 characters. *)
Definition toString (t : Timestamp) : string :=
  let seconds := Z.quot t kMicroSecondsPerSecond in
  let microseconds := Z.rem t kMicroSecondsPerSecond in
  String.substring 0 30 (fmt_ld seconds ++ "." ++ fmt_06ld microseconds)%string.

Example toString_example : toString 1500000000000042 = "1500000000.000042"%string.
Proof. reflexivity. Qed.

(** ** AtomicInteger<T>, for a [w]-bit signed integer type

    Each operation is one atomic builtin on [value_] followed by ordinary
    arithmetic on what it returned; the builtins wrap around, the arithmetic
    does not. *)
Section AtomicInteger.
Variable w : Z.

Definition arith (z : Z) : outcome Z :=
  if (- 2 ^ (w - 1) <=? z) && (z <? 2 ^ (w - 1)) then Ok z else Fail UB.

Definition atomic_get (value_ : Z) : Z * Z :=
  (* __sync_val_compare_and_swap(&value_, 0, 0) *)
  (value_, if value_ =? 0 then 0 else value_).
Definition getAndAdd (x value_ : Z) : Z * Z := (value_, swrap w (value_ + x)).
Definition addAndGet (x value_ : Z) : outcome (Z * Z) :=
  let '(old, value_) := getAndAdd x value_ in
  r ← arith (old + x); Ok (r, value_).
Definition incrementAndGet (value_ : Z) : outcome (Z * Z) := addAndGet 1 value_.
Definition decrementAndGet (value_ : Z) : outcome (Z * Z) := addAndGet (-1) value_.
Definition getAndSet (x value_ : Z) : Z * Z := (value_, x).

Lemma incrementAndGet_ok v : 0 < w → - 2 ^ (w - 1) ≤ v < 2 ^ (w - 1) - 1 →
  incrementAndGet v = Ok (v + 1, v + 1).
Proof.
  intros Hw Hv. assert (Hs : in_signed w (v + 1)) by (unfold in_signed; lia).
  unfold incrementAndGet, addAndGet, getAndAdd, arith. rewrite swrap_small by done.
  unfold in_signed in Hs.
  by rewrite (proj2 (Z.leb_le _ _)), (proj2 (Z.ltb_lt _ _)) by lia.
Qed.
End AtomicInteger.

(** ** Properties *)

(** Multiplying a positive double by 10^6 never goes below zero. *)
Lemma round_sign s m e l :
  match binary_round_aux 53 1024 s m e l with
  | S754_finite s' _ _ | S754_zero s' | S754_infinity s' => s' = s
  | S754_nan => True
  end.
Proof.
  unfold binary_round_aux. destruct (shr_fexp _ _ _ _ _) as [mrs e'].
  destruct (shr_fexp _ _ _ _ loc_Exact) as [mrs' e'']. destruct (shr_m mrs') as [|p|p]; try done.
  by destruct (_ <=? _).
Qed.

Lemma dmul_positive x y :
  positive x = true → positive y = true →
  match dmul x y with
  | S754_finite s' _ _ | S754_zero s' | S754_infinity s' => s' = false
  | S754_nan => True
  end.
Proof.
  destruct x as [sx|sx| |sx mx ex], y as [sy|sy| |sy my ey]; try done; cbn;
    destruct sx, sy; try done; intros _ _; apply round_sign.
Qed.

Lemma int64_of_double_nonneg x d :
  match x with
  | S754_finite s' _ _ | S754_zero s' | S754_infinity s' => s' = false
  | S754_nan => True
  end → int64_of_double x = Ok d → 0 ≤ d.
Proof.
  destruct x as [s|s| |s m e]; simpl; try done.
  - by intros _ [= <-].
  - intros -> [-> _]%i64_inv. destruct (Z.leb_spec 0 e).
    + apply Z.mul_nonneg_nonneg; [lia|]. by apply Z.pow_nonneg.
    + apply Z.div_pos; [lia|]. apply Z.pow_pos_nonneg; lia.
Qed.

(** [addTime] with a positive duration does not go back in time. *)
Lemma addTime_later t seconds t' :
  positive seconds = true → addTime t seconds = Ok t' → t ≤ t' ∧ in_signed 64 t'.
Proof.
  unfold addTime. intros Hpos E. inv_ok.
  apply i64_inv in E as [-> Hr]. split; [|done].
  assert (0 ≤ x); [|lia]. eapply int64_of_double_nonneg; [|done]. by apply dmul_positive.
Qed.

(** *** Reading a timestamp back *)
Fixpoint split_dot (s : string) : string * string :=
  match s with
  | EmptyString => (EmptyString, EmptyString)
  | String c s' =>
    if Ascii.eqb c "." then (EmptyString, s')
    else let '(a, b) := split_dot s' in (String c a, b)
  end.

Definition read_digits (s : string) : option Z :=
  (λ d, Z.of_N (N.of_uint d)) <$> NilZero.uint_of_string s.

Definition parse (s : string) : option Timestamp :=
  let '(a, b) := split_dot s in
  sec ← read_digits a; us ← read_digits b; Some (sec * kMicroSecondsPerSecond + us).

Lemma split_dot_uint d s :
  split_dot (NilEmpty.string_of_uint d ++ String "." s) = (NilEmpty.string_of_uint d, s).
Proof. induction d as [|d IH|d IH|d IH|d IH|d IH|d IH|d IH|d IH|d IH|d IH]; simpl; [done|..]; by rewrite IH. Qed.

Lemma string_of_uint_nil d : d ≠ Decimal.Nil → NilZero.string_of_uint d = NilEmpty.string_of_uint d.
Proof. by destruct d. Qed.

Lemma to_uint_nonnil n : N.to_uint n ≠ Decimal.Nil.
Proof.
  destruct n; [done|]. apply DecimalPos.Unsigned.to_uint_nonnil.
Qed.

Lemma digits_eq n : digits n = NilEmpty.string_of_uint (N.to_uint (Z.to_N n)).
Proof. unfold digits. apply string_of_uint_nil, to_uint_nonnil. Qed.

Fixpoint pad (k : nat) (d : Decimal.uint) : Decimal.uint :=
  match k with O => d | S k => Decimal.D0 (pad k d) end.

Lemma zeros_pad k d : (zeros k ++ NilEmpty.string_of_uint d)%string = NilEmpty.string_of_uint (pad k d).
Proof. induction k as [|k IH]; simpl; [done|]. by rewrite IH. Qed.

Lemma of_uint_pad k d : N.of_uint (pad k d) = N.of_uint d.
Proof. induction k as [|k IH]; simpl; [done|]. exact IH. Qed.

Lemma read_padded k n : 0 ≤ n → read_digits (zeros k ++ digits n) = Some n.
Proof.
  intros Hn. rewrite digits_eq, zeros_pad. unfold read_digits.
  rewrite <-string_of_uint_nil.
  - rewrite NilZero.usu.
    + simpl. rewrite of_uint_pad, DecimalN.Unsigned.of_to. f_equal. lia.
    + destruct k; [apply to_uint_nonnil|done].
  - destruct k; [apply to_uint_nonnil|done].
Qed.

(** *** How many digits *)
Lemma length_string_of_uint d : String.length (NilEmpty.string_of_uint d) = Decimal.nb_digits d.
Proof. induction d; simpl; congruence. Qed.

Lemma of_uint_acc_ge d : ∀ acc,
  (Z.pos acc * 10 ^ Z.of_nat (Decimal.nb_digits d) ≤ Z.pos (Pos.of_uint_acc d acc))%Z.
Proof.
  induction d as [|d IH|d IH|d IH|d IH|d IH|d IH|d IH|d IH|d IH|d IH]; intros acc;
    cbn [Decimal.nb_digits Pos.of_uint_acc]; [change (10 ^ Z.of_nat 0) with 1; lia|..];
    rewrite Nat2Z.inj_succ, Z.pow_succ_r by lia; (etransitivity; [|apply IH]);
    assert (0 < 10 ^ Z.of_nat (Decimal.nb_digits d)) by (apply Z.pow_pos_nonneg; lia); nia.
Qed.

Lemma to_uint_digits n :
  (Decimal.nb_digits (N.to_uint n) ≤ 1)%nat ∨
  10 ^ (Z.of_nat (Decimal.nb_digits (N.to_uint n)) - 1) ≤ Z.of_N n.
Proof.
  pose proof (DecimalN.Unsigned.of_to n) as Hof. pose proof (to_uint_nonnil n) as Hnil.
  destruct (N.to_uint n) as [|d|d|d|d|d|d|d|d|d|d] eqn:E; [done|..]; simpl Decimal.nb_digits.
  1: { left. assert (N.to_uint (N.of_uint d) = Decimal.unorm d) as Hu by apply DecimalN.Unsigned.to_of.
    change (N.of_uint (Decimal.D0 d)) with (N.of_uint d) in Hof. rewrite Hof, E in Hu.
    unfold Decimal.unorm in Hu. pose proof (nzhead_nonzero d) as Hz.
    destruct (Decimal.nzhead d); try done; [by injection Hu as ->|by destruct (Hz u)]. }
  all: right; rewrite <-Hof; simpl N.of_uint; (etransitivity; [|apply of_uint_acc_ge]);
    rewrite Nat2Z.inj_succ, Z.sub_1_r, Z.pred_succ;
    assert (0 < 10 ^ Z.of_nat (Decimal.nb_digits d)) by (apply Z.pow_pos_nonneg; lia); lia.
Qed.

Lemma length_digits n k : 0 ≤ n < 10 ^ Z.of_nat k → (1 ≤ k)%nat → (String.length (digits n) ≤ k)%nat.
Proof.
  intros Hn Hk. rewrite digits_eq, length_string_of_uint.
  destruct (to_uint_digits (Z.to_N n)) as [|H]; [lia|]. rewrite Z2N.id in H by lia.
  assert (Z.of_nat (Decimal.nb_digits (N.to_uint (Z.to_N n))) - 1 < Z.of_nat k); [|lia].
  apply (Z.pow_lt_mono_r_iff 10); lia.
Qed.

Lemma length_append a b : String.length (a ++ b) = (String.length a + String.length b)%nat.
Proof. induction a as [|c a IH]; simpl; [done|]. by rewrite IH. Qed.

Lemma length_zeros k : String.length (zeros k) = k.
Proof. induction k; simpl; congruence. Qed.

Lemma substring_all s n : (String.length s ≤ n)%nat → String.substring 0 n s = s.
Proof.
  revert n. induction s as [|c s IH]; intros [|n] Hn; simpl in *; try done; [lia|].
  by rewrite IH by lia.
Qed.

Lemma split_quot_rem t : 0 ≤ t < 2 ^ 63 →
  0 ≤ Z.quot t kMicroSecondsPerSecond < 10 ^ 13 ∧ 0 ≤ Z.rem t kMicroSecondsPerSecond < 10 ^ 6 ∧
  Z.quot t kMicroSecondsPerSecond * kMicroSecondsPerSecond + Z.rem t kMicroSecondsPerSecond = t.
Proof.
  intros Ht. unfold kMicroSecondsPerSecond in *. pose proof (Z.quot_rem' t 1000000).
  pose proof (Z.rem_bound_pos t 1000000). pose proof (Z.quot_pos t 1000000). lia.
Qed.

(** [toString] loses nothing: reading back the seconds and the six digits of
    microseconds gives the timestamp, and the 32-byte buffer is never too
    small for it. *)
Theorem toString_roundtrip t :
  0 ≤ t < 2 ^ 63 → parse (toString t) = Some t ∧ (String.length (toString t) < 31)%nat.
Proof.
  intros Ht. destruct (split_quot_rem t Ht) as (Hq & Hr & Heq).
  unfold toString. set (q := Z.quot _ _) in *. set (r := Z.rem _ _) in *.
  unfold fmt_ld, fmt_06ld. rewrite !(proj2 (Z.ltb_ge _ _)) by lia.
  pose proof (length_digits q 13 ltac:(lia) ltac:(lia)). pose proof (length_digits r 6 ltac:(lia) ltac:(lia)).
  rewrite substring_all by (rewrite !length_append, length_zeros; simpl; lia).
  split; [|rewrite !length_append, length_zeros; simpl; lia].
  change ("." ++ ?s)%string with (String "." s). unfold parse.
  rewrite (digits_eq q), split_dot_uint, <-digits_eq.
  change (digits q) with (zeros 0 ++ digits q)%string.
  rewrite !read_padded by lia. simpl. by rewrite Heq.
Qed.

Lemma toString_roundtrip_witness :
  0 ≤ 1500000000000042 < 2 ^ 63 ∧ parse (toString 1500000000000042) = Some 1500000000000042.
Proof. split; [lia|]. apply (toString_roundtrip 1500000000000042). lia. Defined.
