(* ===== verification/Sockets.v ===== *)
(** Addresses and socket calls: [kaycc::net::InetAddress]
    ([src/net/inetaddress.h], [src/net/inetaddress.cpp]), [kaycc::net::sockets]
    ([src/net/socketsops.h], [src/net/socketsops.cpp]) and [kaycc::net::Socket]
    ([src/net/socket.h], [src/net/socket.cpp]).

    An [InetAddress] is a union of [sockaddr_in] and [sockaddr_in6], read through
    either: here the 28 bytes of the union.  The text of an IP address is the C
    library's business ([Inet]); what a system call answers is an argument. *)
From Stdlib Require Import Strings.Byte Strings.Ascii.
From stdpp Require Import strings.
From S2P Require Import Prelude Endian Timestamp.

(** ** Linux constants *)
Definition AF_INET : Z := 2.
Definition AF_INET6 : Z := 10.
Definition INET_ADDRSTRLEN : Z := 16.
Definition INET6_ADDRSTRLEN : Z := 46.
Definition sizeof_sockaddr_in : Z := 16.
Definition sizeof_sockaddr_in6 : Z := 28.
Definition INADDR_ANY : Z := 0.
Definition INADDR_LOOPBACK : Z := 0x7f000001.
Definition in6addr_any : list byte := replicate 16 x00.
Definition in6addr_loopback : list byte := replicate 15 x00 ++ [x01].

Definition EPERM : Z := 1.
Definition EINTR : Z := 4.
Definition EBADF : Z := 9.
Definition EAGAIN : Z := 11.
Definition ENOMEM : Z := 12.
Definition EACCES : Z := 13.
Definition EFAULT : Z := 14.
Definition EINVAL : Z := 22.
Definition ENFILE : Z := 23.
Definition EMFILE : Z := 24.
Definition EPROTO : Z := 71.
Definition ENOTSOCK : Z := 88.
Definition EOPNOTSUPP : Z := 95.
Definition EAFNOSUPPORT : Z := 97.
Definition EADDRINUSE : Z := 98.
Definition EADDRNOTAVAIL : Z := 99.
Definition ENETUNREACH : Z := 101.
Definition ECONNABORTED : Z := 103.
Definition ENOBUFS : Z := 105.
Definition EISCONN : Z := 106.
Definition ECONNREFUSED : Z := 111.
Definition EALREADY : Z := 114.
Definition EINPROGRESS : Z := 115.

(** What [c_str()] passes on: the characters before the first NUL. *)
Fixpoint c_str (s : string) : string :=
  match s with
  | EmptyString => EmptyString
  | String c s' => if Ascii.eqb c zero then EmptyString else String c (c_str s')
  end.

(** The two families, their address length and the room their text needs. *)
Definition family_of (ipv6 : bool) : Z := if ipv6 then AF_INET6 else AF_INET.
Definition ip_size (ipv6 : bool) : nat := if ipv6 then 16 else 4.
Definition text_size (ipv6 : bool) : Z := if ipv6 then INET6_ADDRSTRLEN else INET_ADDRSTRLEN.

(** inet_ntop(3) and inet_pton(3): the text fits its documented room and is read
    back; [inet_pton] gives [None] where the C function returns 0 or less. *)
Class Inet := {
  inet_ntop : Z → list byte → string;
  inet_pton : Z → string → option (list byte);
  ntop_c_str ipv6 a : length a = ip_size ipv6 →
    c_str (inet_ntop (family_of ipv6) a) = inet_ntop (family_of ipv6) a;
  ntop_fits ipv6 a : length a = ip_size ipv6 →
    Z.of_nat (String.length (inet_ntop (family_of ipv6) a)) < text_size ipv6;
  pton_ntop ipv6 a : length a = ip_size ipv6 →
    inet_pton (family_of ipv6) (inet_ntop (family_of ipv6) a) = Some a;
  pton_size ipv6 s a : inet_pton (family_of ipv6) s = Some a → length a = ip_size ipv6
}.

Section Addresses.
Context `{Inet} (host : endianness).

(** ** struct sockaddr_in and struct sockaddr_in6 in memory

    The offsets of family and port are asserted by inetaddress.cpp. *)
Abbreviation InetAddress := (list byte).

Definition bzero (n : Z) (a : InetAddress) : InetAddress := splice 0 (replicate (Z.to_nat n) x00) a.
Definition sa_family (a : InetAddress) : Z := obj_value host (slice 0 2 a).
Definition sin_port (a : InetAddress) : Z := obj_value host (slice 2 2 a).
Definition sin_addr (a : InetAddress) : list byte := slice 4 4 a.
Definition s_addr (a : InetAddress) : Z := obj_value host (sin_addr a).
Definition sin6_addr (a : InetAddress) : list byte := slice 8 16 a.
Definition set_family (f : Z) (a : InetAddress) : InetAddress := splice 0 (obj_bytes host 2 f) a.
Definition set_port (p : Z) (a : InetAddress) : InetAddress := splice 2 (obj_bytes host 2 p) a.
Definition set_in_addr (ip : list byte) (a : InetAddress) : InetAddress := splice 4 ip a.
Definition set_s_addr (ip : Z) (a : InetAddress) : InetAddress := set_in_addr (obj_bytes host 4 ip) a.
Definition set_in6_addr (ip : list byte) (a : InetAddress) : InetAddress := splice 8 ip a.

(** ** Text and addresses (socketsops.cpp)

    A char buffer is the string it holds; [inet_ntop] leaves it alone when the
    text and its NUL do not fit. *)
Definition ntop_into (size : Z) (buf text : string) : string :=
  if Z.of_nat (String.length text) <? size then text else buf.

Definition sockets_toIp (buf : string) (size : Z) (addr : InetAddress) : outcome string :=
  if sa_family addr =? AF_INET then
    assert! INET_ADDRSTRLEN <=? size;;
    Ok (ntop_into size buf (inet_ntop AF_INET (sin_addr addr)))
  else if sa_family addr =? AF_INET6 then
    assert! INET6_ADDRSTRLEN <=? size;;
    Ok (ntop_into size buf (inet_ntop AF_INET6 (sin6_addr addr)))
  else Ok buf.

Definition sockets_toIpPort (buf : string) (size : Z) (addr : InetAddress) : outcome string :=
  buf ← sockets_toIp buf size addr;
  let end_ := Z.of_nat (String.length buf) in
  let port := networkToHost16 host (sin_port addr) in
  assert! end_ <? size;;
  Ok (buf +:+ String.substring 0 (Z.to_nat (size - end_ - 1)) (":" +:+ digits port)).

(** The [sockaddr_in] and the [sockaddr_in6] overload; a text that is no address
    is logged. *)
Definition fromIpPort (ip : string) (port : Z) (addr : InetAddress) : InetAddress :=
  let addr := set_port (hostToNetwork16 host port) (set_family AF_INET addr) in
  match inet_pton AF_INET ip with
  | Some a => set_in_addr a addr
  | None => addr
  end.
Definition fromIpPort6 (ip : string) (port : Z) (addr : InetAddress) : InetAddress :=
  let addr := set_port (hostToNetwork16 host port) (set_family AF_INET6 addr) in
  match inet_pton AF_INET6 ip with
  | Some a => set_in6_addr a addr
  | None => addr
  end.

(** ** InetAddress

    [mem]: what the 28 bytes held before construction. *)
Definition InetAddress_ctor (mem : list byte) (port : Z) (loopbackOnly ipv6 : bool) : InetAddress :=
  if ipv6 then
    let addr6_ := set_family AF_INET6 (bzero sizeof_sockaddr_in6 mem) in
    let ip := if loopbackOnly then in6addr_loopback else in6addr_any in
    set_port (hostToNetwork16 host port) (set_in6_addr ip addr6_)
  else
    let addr_ := set_family AF_INET (bzero sizeof_sockaddr_in mem) in
    let ip := if loopbackOnly then INADDR_LOOPBACK else INADDR_ANY in
    set_port (hostToNetwork16 host port) (set_s_addr (hostToNetwork32 host ip) addr_).

Definition InetAddress_ctor_ip (mem : list byte) (ip : string) (port : Z) (ipv6 : bool) : InetAddress :=
  if ipv6 then fromIpPort6 (c_str ip) port (bzero sizeof_sockaddr_in6 mem)
  else fromIpPort (c_str ip) port (bzero sizeof_sockaddr_in mem).

(** The constructors that copy a [sockaddr_in] or a [sockaddr_in6], given as its
    bytes, into the union. *)
Definition InetAddress_ctor_in (mem addr : list byte) : InetAddress := splice 0 addr mem.
Definition InetAddress_ctor_in6 (mem addr : list byte) : InetAddress := splice 0 addr mem.

Definition family (a : InetAddress) : Z := sa_family a.
Definition portNetEndian (a : InetAddress) : Z := sin_port a.
Definition toPort (a : InetAddress) : Z := networkToHost16 host (portNetEndian a).
Definition toIp (a : InetAddress) : outcome string := sockets_toIp "" 64 a.
Definition toIpPort (a : InetAddress) : outcome string := sockets_toIpPort "" 64 a.
Definition ipNetEndian (a : InetAddress) : outcome Z :=
  assert! family a =? AF_INET;; Ok (s_addr a).
Definition setSockAddrInet6 (addr6 a : InetAddress) : InetAddress := addr6.

(** gethostbyname_r's result: its return value and, unless [he] is NULL,
    [h_addrtype], [h_length] and the first address. *)
Definition resolve (ret : Z) (he : option (Z * Z * list byte)) (out : option InetAddress)
  : outcome (bool * option InetAddress) :=
  match out with
  | None => Fail AssertFailure
  | Some a =>
    match he with
    | Some (h_addrtype, h_length, h_addr) =>
      if ret =? 0 then
        assert! (h_addrtype =? AF_INET) && (h_length =? 4);;
        Ok (true, Some (set_in_addr (slice 0 4 h_addr) a))
      else Ok (false, out)
    | None => Ok (false, out)
    end
  end.

(** ** Addresses of a socket

    getsockname(2) and getpeername(2) fill in [Some] bytes or fail. *)
Definition getLocalAddr (getsockname : option (list byte)) : InetAddress :=
  let localaddr := replicate 28 x00 in
  match getsockname with Some b => splice 0 b localaddr | None => localaddr end.
Definition getPeerAddr (getpeername : option (list byte)) : InetAddress :=
  let peeraddr := replicate 28 x00 in
  match getpeername with Some b => splice 0 b peeraddr | None => peeraddr end.

Definition isSelfConnect (getsockname getpeername : option (list byte)) : bool :=
  let localaddr := getLocalAddr getsockname in
  let peeraddr := getPeerAddr getpeername in
  if sa_family localaddr =? AF_INET then
    (sin_port localaddr =? sin_port peeraddr) && (s_addr localaddr =? s_addr peeraddr)
  else if sa_family localaddr =? AF_INET6 then
    (sin_port localaddr =? sin_port peeraddr) &&
    bool_decide (sin6_addr localaddr = sin6_addr peeraddr)
  else false.

End Addresses.

(** [ret]: getsockopt(2)'s result, with [SO_ERROR]'s value or [errno]. *)
Definition getSocketError (ret optval errno : Z) : Z := if ret <? 0 then errno else optval.

(** ** accept

    The system call answers [connfd] with [errno]; a log line turns [errno] into
    [log errno] (the stream it writes to may set it). *)
Definition expected_errno (e : Z) : bool :=
  bool_decide (e ∈ [EAGAIN; ECONNABORTED; EINTR; EPROTO; EPERM; EMFILE]).
Definition sockets_accept (log : Z → Z) (connfd errno : Z) : Z * Z :=
  if connfd <? 0 then
    let savedErrno := errno in
    let errno := log errno in
    (connfd, if expected_errno savedErrno then savedErrno else log errno)
  else (connfd, errno).

(** [Socket::accept]: the peer's address is stored only with a connection.
    [addr]: what the system call wrote. *)
Definition Socket_accept (log : Z → Z) (connfd errno : Z) (addr peeraddr : list byte)
  : Z * Z * list byte :=
  let '(connfd, errno) := sockets_accept log connfd errno in
  (connfd, errno, if 0 <=? connfd then setSockAddrInet6 (splice 0 addr (replicate 28 x00)) peeraddr
                  else peeraddr).

(** ** What an address holds *)
Section Encoding.
Context (host : endianness).

(** Where the address of each family starts. *)
Definition ip_offset (ipv6 : bool) : Z := if ipv6 then 8 else 4.
Definition ip_bytes (ipv6 : bool) (addr : list byte) : list byte :=
  slice (ip_offset ipv6) (Z.of_nat (ip_size ipv6)) addr.

(** [addr] is the socket address (family, port, ip): the family in the host's
    byte order, the port in the network's. *)
Record encodes (addr : list byte) (ipv6 : bool) (port : Z) (ip : list byte) : Prop := {
  enc_size : sz addr = 28;
  enc_family : slice 0 2 addr = obj_bytes host 2 (family_of ipv6);
  enc_port : slice 2 2 addr = be_encode 2 port;
  enc_ip : ip_bytes ipv6 addr = ip
}.

Lemma sz_obj_bytes n z : sz (obj_bytes host n z) = Z.of_nat n.
Proof. unfold sz. by rewrite length_obj_bytes. Qed.

Lemma ip_offset_range ipv6 : 4 ≤ ip_offset ipv6 ∧ ip_offset ipv6 + Z.of_nat (ip_size ipv6) ≤ 28.
Proof. by destruct ipv6. Qed.

Lemma sz_be_encode n z : sz (be_encode n z) = Z.of_nat n.
Proof. unfold sz. by rewrite length_be_encode. Qed.

Lemma sz_bzero n a : 0 ≤ n ≤ sz a → sz (bzero n a) = sz a.
Proof. intros. unfold bzero. rewrite sz_splice; rewrite ?sz_replicate; lia. Qed.

Lemma sz_set_family f a : 2 ≤ sz a → sz (set_family host f a) = sz a.
Proof. intros. unfold set_family. rewrite sz_splice; rewrite ?sz_obj_bytes; lia. Qed.

Lemma sz_set_port p a : 4 ≤ sz a → sz (set_port host p a) = sz a.
Proof. intros. unfold set_port. rewrite sz_splice; rewrite ?sz_obj_bytes; lia. Qed.

(** The fields behind family and port. *)
Lemma slice_set_port i n p a : 4 ≤ i → 4 ≤ sz a → slice i n (set_port host p a) = slice i n a.
Proof. intros. apply slice_splice_after; rewrite ?sz_obj_bytes; lia. Qed.

Lemma slice_set_family i n f a : 2 ≤ i → 2 ≤ sz a → slice i n (set_family host f a) = slice i n a.
Proof. intros. apply slice_splice_after; rewrite ?sz_obj_bytes; lia. Qed.

Lemma port_bytes port : obj_bytes host 2 (hostToNetwork16 host port) = be_encode 2 port.
Proof. unfold hostToNetwork16. rewrite obj_bytes_htobe. apply be_encode_uwrap. Qed.

Lemma enc_read_family addr ipv6 port ip : encodes addr ipv6 port ip → sa_family host addr = family_of ipv6.
Proof.
  intros [_ Hf _ _]. unfold sa_family. rewrite Hf, obj_value_bytes. by destruct ipv6.
Qed.

Lemma enc_read_port addr ipv6 port ip : encodes addr ipv6 port ip →
  networkToHost16 host (sin_port host addr) = u16 port.
Proof.
  intros [Hs _ Hp _]. unfold networkToHost16, sin_port.
  pose proof (obj_value_range host (slice 2 2 addr)) as R.
  rewrite sz_slice in R by lia. rewrite (uwrap_small 64), (uwrap_small 16) by lia.
  pose proof (htobe_obj_value host (slice 2 2 addr)) as H.
  rewrite Hp in H at 1. rewrite length_be_encode in H. rewrite H, Hp. apply be_decode_encode.
Qed.

(** Filling in a zeroed address field by field. *)
Lemma encode_fields mem ipv6 port ip n :
  sz mem = 28 → length ip = ip_size ipv6 → 16 ≤ n ≤ 28 →
  encodes (splice (ip_offset ipv6) ip
             (set_port host (hostToNetwork16 host port) (set_family host (family_of ipv6) (bzero n mem))))
          ipv6 port ip.
Proof.
  intros Hm Hip Hn. pose proof (ip_offset_range ipv6) as Ho.
  assert (Hsz : sz ip = Z.of_nat (ip_size ipv6)) by (unfold sz; by rewrite Hip).
  unfold set_port, set_family, bzero. rewrite port_bytes.
  assert (Hz : sz (splice 0 (replicate (Z.to_nat n) x00) mem) = 28).
  { rewrite sz_splice; [done|lia|]. rewrite sz_replicate. lia. }
  set (z := splice 0 _ mem) in *.
  assert (Hf : sz (splice 0 (obj_bytes host 2 (family_of ipv6)) z) = 28).
  { rewrite sz_splice, Hz; rewrite ?sz_obj_bytes; lia. }
  set (f := splice 0 _ z) in *.
  assert (Hp : sz (splice 2 (be_encode 2 port) f) = 28).
  { rewrite sz_splice, Hf; rewrite ?sz_be_encode; lia. }
  split.
  - rewrite sz_splice; lia.
  - rewrite slice_splice_before by lia. rewrite slice_splice_before by lia.
    apply slice_written; [lia|apply sz_obj_bytes|lia].
  - rewrite slice_splice_before by lia. apply slice_written; [lia|apply sz_be_encode|lia].
  - apply slice_written; lia.
Qed.
End Encoding.

Lemma sin6_addr_bytes a : sin6_addr a = ip_bytes true a.
Proof. done. Qed.
Lemma sin_addr_bytes a : sin_addr a = ip_bytes false a.
Proof. done. Qed.

Section Properties.
Context `{Inet} (host : endianness).

Lemma encodes_ip_size addr ipv6 port ip : encodes host addr ipv6 port ip → length ip = ip_size ipv6.
Proof.
  intros [Hs _ _ <-]. pose proof (ip_offset_range ipv6).
  apply Nat2Z.inj. change (sz (ip_bytes ipv6 addr) = Z.of_nat (ip_size ipv6)).
  unfold ip_bytes. apply sz_slice; lia.
Qed.

Lemma ctor_encodes mem port loopbackOnly ipv6 : sz mem = 28 →
  encodes host (InetAddress_ctor host mem port loopbackOnly ipv6) ipv6 port
    (if ipv6 then if loopbackOnly then in6addr_loopback else in6addr_any
     else be_encode 4 (if loopbackOnly then INADDR_LOOPBACK else INADDR_ANY)).
Proof.
  intros Hm. unfold InetAddress_ctor, set_in6_addr, set_s_addr, set_in_addr.
  assert (Hcomm : ∀ o d (a : list byte), 4 ≤ o → sz a = 28 → o + sz d ≤ 28 → ∀ ip6 ip,
    encodes host (splice o d (set_port host (hostToNetwork16 host port) a)) ip6 port ip →
    encodes host (set_port host (hostToNetwork16 host port) (splice o d a)) ip6 port ip).
  { intros o d a Ho Ha Hd ip6 ip. unfold set_port.
    rewrite (splice_comm 2 (obj_bytes _ _ _) o d a); rewrite ?sz_obj_bytes; (done || lia). }
  assert (Hz : ∀ f n, 16 ≤ n ≤ 28 → sz (set_family host f (bzero n mem)) = 28).
  { intros f n Hn. rewrite sz_set_family; rewrite sz_bzero; lia. }
  destruct ipv6.
  - set (ip := if loopbackOnly then _ else _).
    assert (Hip : length ip = 16%nat) by (by destruct loopbackOnly).
    apply Hcomm; [lia|by apply Hz|unfold sz; rewrite Hip; lia|].
    by apply (encode_fields host mem true).
  - unfold hostToNetwork32. rewrite obj_bytes_htobe, be_encode_uwrap.
    apply Hcomm; [lia|by apply Hz|rewrite sz_be_encode; lia|].
    apply (encode_fields host mem false); [done|apply length_be_encode|done].
Qed.

(** A text that is no address leaves the address bytes zero. *)
Lemma ctor_ip_encodes mem ip port ipv6 : sz mem = 28 →
  encodes host (InetAddress_ctor_ip host mem ip port ipv6) ipv6 port
    (default (replicate (ip_size ipv6) x00) (inet_pton (family_of ipv6) (c_str ip))).
Proof.
  intros Hm. assert (Hzero : ∀ n, 16 ≤ n ≤ 28 → Z.of_nat (ip_size ipv6) + ip_offset ipv6 ≤ n →
    let a := set_port host (hostToNetwork16 host port) (set_family host (family_of ipv6) (bzero n mem)) in
    encodes host a ipv6 port (replicate (ip_size ipv6) x00)).
  { intros n Hn Hfit a. pose proof (ip_offset_range ipv6).
    pose proof (encode_fields host mem ipv6 port (replicate (ip_size ipv6) x00) n Hm) as He.
    rewrite length_replicate in He. specialize (He eq_refl Hn). fold a in He.
    assert (Ha : sz a = 28).
    { unfold a. rewrite sz_set_port; rewrite sz_set_family; rewrite sz_bzero; lia. }
    rewrite splice_same in He; [done| |lia|rewrite Ha, sz_replicate; lia].
    rewrite sz_replicate. unfold a.
    rewrite slice_set_port, slice_set_family; rewrite ?sz_set_family; rewrite ?sz_bzero; try lia.
    unfold bzero. rewrite slice_fill by lia. by rewrite Nat2Z.id. }
  unfold InetAddress_ctor_ip, fromIpPort, fromIpPort6, set_in_addr, set_in6_addr. destruct ipv6; simpl family_of.
  - destruct (inet_pton AF_INET6 (c_str ip)) as [a|] eqn:E; simpl; [|by apply Hzero].
    apply (encode_fields host mem true); [done|by eapply (pton_size true)|done].
  - destruct (inet_pton AF_INET (c_str ip)) as [a|] eqn:E; simpl; [|by apply Hzero].
    apply (encode_fields host mem false); [done|by eapply (pton_size false)|done].
Qed.

Lemma toIp_encodes addr ipv6 port ip : encodes host addr ipv6 port ip →
  sockets_toIp host "" 64 addr = Ok (inet_ntop (family_of ipv6) ip).
Proof.
  intros He. pose proof (encodes_ip_size _ _ _ _ He) as Hip. pose proof (ntop_fits ipv6 ip Hip) as Hfit.
  unfold sockets_toIp, ntop_into. rewrite (enc_read_family _ _ _ _ _ He).
  destruct He as [_ _ _ <-]. destruct ipv6; simpl in *;
    unfold INET6_ADDRSTRLEN, INET_ADDRSTRLEN in Hfit.
  - rewrite sin6_addr_bytes, (proj2 (Z.ltb_lt _ _)); [done|lia].
  - rewrite sin_addr_bytes, (proj2 (Z.ltb_lt _ _)); [done|lia].
Qed.

Lemma toIpPort_encodes addr ipv6 port ip : encodes host addr ipv6 port ip → 0 ≤ port < 2 ^ 16 →
  let text := inet_ntop (family_of ipv6) ip +:+ ":" +:+ digits port in
  toIpPort host addr = Ok text ∧ (String.length text ≤ 51)%nat.
Proof.
  intros He Hp text. pose proof (encodes_ip_size _ _ _ _ He) as Hip.
  pose proof (ntop_fits ipv6 ip Hip) as Hfit.
  assert (Hn : Z.of_nat (String.length (inet_ntop (family_of ipv6) ip)) < 46).
  { eapply Z.lt_le_trans; [exact Hfit|by destruct ipv6]. }
  assert (Hd : (String.length (digits port) ≤ 5)%nat) by (apply length_digits; [change (10 ^ Z.of_nat 5) with 100000|]; lia).
  assert (Hc : (String.length (":" +:+ digits port) ≤ 6)%nat) by (rewrite length_append; simpl; lia).
  split.
  - unfold toIpPort, sockets_toIpPort. rewrite (toIp_encodes _ _ _ _ He); unfold mbind at 1, outcome_bind.
    rewrite (enc_read_port _ _ _ _ _ He), uwrap_small by lia.
    rewrite assert_bind_true by (apply Z.ltb_lt; lia).
    rewrite substring_all; [done|]. lia.
  - unfold text. rewrite length_append. lia.
Qed.

(** What getsockname(2) and getpeername(2) report for an endpoint: the bytes of
    its [sockaddr_in] or [sockaddr_in6]. *)
Definition reported (l : list byte) (ipv6 : bool) (port : Z) (ip : list byte) : Prop :=
  ∃ a, encodes host a ipv6 port ip ∧ l = take (if ipv6 then 28 else 16) a.

(** Copied over any 28 bytes, they make the endpoint's [InetAddress]. *)
Lemma reported_over mem l ipv6 port ip : sz mem = 28 → reported l ipv6 port ip →
  encodes host (splice 0 l mem) ipv6 port ip.
Proof.
  intros Hm (a & He & Hl). assert (Hz : splice 0 l mem = l ++ drop (length l) mem) by done.
  assert (Hs : ∀ i n, 0 ≤ i → 0 ≤ n → i + n ≤ (if ipv6 then 28 else 16) →
    slice i n (l ++ drop (length l) mem) = slice i n a).
  { pose proof (enc_size _ _ _ _ _ He). intros i n ???.
    rewrite slice_app_l; [|lia|rewrite Hl, sz_take; destruct ipv6; lia].
    rewrite Hl. symmetry. rewrite <-(take_drop (if ipv6 then 28 else 16) a) at 1.
    apply slice_app_l; [lia|]. rewrite sz_take. destruct ipv6; lia. }
  rewrite Hz. destruct He as [Hn Hf Hp Hip].
  pose proof (ip_offset_range ipv6). split.
  - rewrite sz_app, sz_drop, Hl. unfold sz in *. rewrite length_take. destruct ipv6; lia.
  - rewrite Hs by (destruct ipv6; lia). done.
  - rewrite Hs by (destruct ipv6; lia). done.
  - unfold ip_bytes. rewrite Hs by (destruct ipv6; simpl; lia). done.
Qed.

Lemma reported_encodes l ipv6 port ip : reported l ipv6 port ip →
  encodes host (getLocalAddr (Some l)) ipv6 port ip.
Proof. by apply reported_over. Qed.

Lemma port_equal a b ip6 ip6' p q x y :
  encodes host a ip6 p x → encodes host b ip6' q y → 0 ≤ p < 2 ^ 16 → 0 ≤ q < 2 ^ 16 →
  (sin_port host a =? sin_port host b) = bool_decide (p = q).
Proof.
  intros Ha Hb Hp Hq. apply Bool.eq_iff_eq_true. rewrite Z.eqb_eq, bool_decide_eq_true. split.
  - intros E. pose proof (enc_read_port _ _ _ _ _ Ha) as Ra. pose proof (enc_read_port _ _ _ _ _ Hb) as Rb.
    rewrite E, Rb, !uwrap_small in Ra by lia. done.
  - intros ->. unfold sin_port. by rewrite (enc_port _ _ _ _ _ Ha), (enc_port _ _ _ _ _ Hb).
Qed.

Lemma same_endpoint l r ipv6 p q a b :
  reported l ipv6 p a → reported r ipv6 q b → 0 ≤ p < 2 ^ 16 → 0 ≤ q < 2 ^ 16 →
  isSelfConnect host (Some l) (Some r) = bool_decide (p = q ∧ a = b).
Proof.
  intros Hl Hr Hp Hq. apply reported_encodes in Hl, Hr.
  change (getLocalAddr (Some r)) with (getPeerAddr (Some r)) in Hr.
  unfold isSelfConnect. rewrite (enc_read_family _ _ _ _ _ Hl), (port_equal _ _ _ _ _ _ _ _ Hl Hr Hp Hq).
  rewrite bool_decide_and.
  pose proof (encodes_ip_size _ _ _ _ Hl) as Ha. pose proof (encodes_ip_size _ _ _ _ Hr) as Hb.
  pose proof (enc_ip _ _ _ _ _ Hl) as Ea. pose proof (enc_ip _ _ _ _ _ Hr) as Eb.
  destruct ipv6; cbn -[getLocalAddr getPeerAddr]; f_equal.
  - by rewrite <-Ea, <-Eb.
  - apply Bool.eq_iff_eq_true. rewrite Z.eqb_eq, bool_decide_eq_true.
    subst a b. split; [|intros E; by apply (f_equal (obj_value host)) in E].
    apply (obj_value_inj host). by rewrite Ha, Hb.
Qed.


(** C36: an address built from the text of an IP address and a port gives the text,
    the port and "ip:port" back, on hosts of either byte order; on the wire it
    holds the port and the address in network order; and no text exceeds its
    64-byte buffer. *)
Theorem address_roundtrip mem ip port ipv6 :
  sz mem = 28 → length ip = ip_size ipv6 → 0 ≤ port < 2 ^ 16 →
  let text := inet_ntop (family_of ipv6) ip in
  let a := InetAddress_ctor_ip host mem text port ipv6 in
  encodes host a ipv6 port ip ∧ family host a = family_of ipv6 ∧
  toIp host a = Ok text ∧ toPort host a = port ∧
  toIpPort host a = Ok (text +:+ ":" +:+ digits port) ∧
  (String.length (text +:+ ":" +:+ digits port) ≤ 51)%nat.
Proof.
  intros Hm Hip Hp text a. assert (He : encodes host a ipv6 port ip).
  { pose proof (ctor_ip_encodes mem text port ipv6 Hm) as He.
    unfold text in He at 2. by rewrite ntop_c_str, pton_ntop in He by done. }
  destruct (toIpPort_encodes _ _ _ _ He Hp) as [Ht Hl].
  split_and!; [done|exact (enc_read_family _ _ _ _ _ He)|exact (toIp_encodes _ _ _ _ He)| |done|done].
  unfold toPort, portNetEndian. rewrite (enc_read_port _ _ _ _ _ He). by apply uwrap_small.
Qed.

(** C37: the byte comparison of [isSelfConnect] is equality of endpoints: for what
    the kernel reports of a connected socket it answers whether both ports and
    both addresses are equal; when getsockname fails, or getpeername does for a
    bound socket, it answers no. *)
Theorem isSelfConnect_compares_endpoints l r ipv6 p q a b :
  reported l ipv6 p a → reported r ipv6 q b → 0 ≤ p < 2 ^ 16 → 0 ≤ q < 2 ^ 16 →
  isSelfConnect host (Some l) (Some r) = bool_decide (p = q ∧ a = b) ∧
  isSelfConnect host None (Some r) = false ∧
  (p ≠ 0 → isSelfConnect host (Some l) None = false).
Proof.
  intros Hl Hr Hp Hq. split_and!; [by apply (same_endpoint l r ipv6)| |].
  - unfold isSelfConnect. replace (sa_family host (getLocalAddr None)) with 0; [done|by destruct host].
  - intros Hp0. apply reported_encodes in Hl. unfold isSelfConnect.
    replace (sin_port host (getPeerAddr None)) with 0 by (by destruct host).
    replace (sin_port host (getLocalAddr (Some l)) =? 0) with false.
    { by destruct (_ =? _), (_ =? _). }
    symmetry. apply Z.eqb_neq. intros H0. pose proof (enc_read_port _ _ _ _ _ Hl) as Hr'.
    rewrite H0, uwrap_small in Hr' by lia.
    unfold networkToHost16 in Hr'. destruct host; vm_compute in Hr'; lia.
Qed.
End Properties.

(** ** A concrete [Inet]: addresses written as hexadecimal digits *)
Definition hex_digit (n : Z) : ascii := ascii_of_nat (Z.to_nat (if n <? 10 then 48 + n else 87 + n)).
Definition hex_value (c : ascii) : Z :=
  let n := Z.of_nat (nat_of_ascii c) in if n <? 58 then n - 48 else n - 87.

Fixpoint hex_text (a : list byte) : string :=
  match a with
  | [] => EmptyString
  | b :: a' => String (hex_digit (Z_of_byte b / 16)) (String (hex_digit (Z_of_byte b mod 16)) (hex_text a'))
  end.

Fixpoint hex_read (s : string) : option (list byte) :=
  match s with
  | EmptyString => Some []
  | String c (String d s') =>
    cons (byte_of_Z (16 * hex_value c + hex_value d)) <$> hex_read s'
  | _ => None
  end.

Definition hex_pton (f : Z) (s : string) : option (list byte) :=
  a ← hex_read s; if Nat.eqb (length a) (ip_size (f =? AF_INET6)) then Some a else None.

Lemma hex_digit_ok n : 0 ≤ n < 16 → hex_value (hex_digit n) = n ∧ hex_digit n ≠ zero.
Proof.
  intros. assert (n ∈ seqZ 0 16) as Hin by (apply elem_of_seqZ; lia). revert n Hin H.
  refine (proj1 (Forall_forall _ _) _). repeat constructor; done.
Qed.

Lemma nibbles b : 0 ≤ Z_of_byte b / 16 < 16 ∧ 0 ≤ Z_of_byte b mod 16 < 16.
Proof.
  pose proof (Z_of_byte_range b). split; [|apply Z.mod_pos_bound; lia].
  split; [apply Z.div_pos; lia|apply Z.div_lt_upper_bound; lia].
Qed.

Lemma hex_byte b :
  byte_of_Z (16 * hex_value (hex_digit (Z_of_byte b / 16)) + hex_value (hex_digit (Z_of_byte b mod 16))) = b.
Proof.
  destruct (nibbles b) as [H L]. rewrite (proj1 (hex_digit_ok _ H)), (proj1 (hex_digit_ok _ L)).
  rewrite <-Z.div_mod by lia. apply byte_of_Z_of_byte.
Qed.

Lemma hex_read_text a : hex_read (hex_text a) = Some a.
Proof. induction a as [|b a IH]; [done|]. simpl. by rewrite IH, hex_byte. Qed.

Lemma hex_c_str a : c_str (hex_text a) = hex_text a.
Proof.
  induction a as [|b a IH]; [done|]. destruct (nibbles b) as [H L]. cbn [hex_text c_str].
  by rewrite !(proj2 (Ascii.eqb_neq _ _)), IH by (by apply hex_digit_ok).
Qed.

Lemma length_hex_text a : String.length (hex_text a) = (2 * length a)%nat.
Proof. induction a as [|b a IH]; [done|]. simpl. rewrite IH. lia. Qed.

#[export] Instance hex_inet : Inet.
Proof.
  refine {| inet_ntop := λ _, hex_text; inet_pton := hex_pton |}.
  - intros. apply hex_c_str.
  - intros ipv6 a Ha. rewrite length_hex_text, Ha. by destruct ipv6.
  - intros ipv6 a Ha. unfold hex_pton. rewrite hex_read_text. simpl. rewrite Ha. by destruct ipv6.
  - intros ipv6 s a. unfold hex_pton. destruct (hex_read s) as [b|]; [|done]. simpl.
    destruct (Nat.eqb_spec (length b) (ip_size (family_of ipv6 =? AF_INET6))) as [E|]; [|done].
    intros [= <-]. rewrite E. by destruct ipv6.
Defined.

(** 127.0.0.1:8080 over memory full of 0xff. *)
Definition demo_mem : list byte := replicate 28 xff.
Definition demo_addr : list byte := InetAddress_ctor LittleEndian demo_mem 8080 true false.

Lemma demo_addr_encodes : encodes LittleEndian demo_addr false 8080 [x7f; x00; x00; x01].
Proof. by constructor. Qed.


Lemma address_roundtrip_witness :
  toIpPort LittleEndian (InetAddress_ctor_ip LittleEndian demo_mem "0a000007" 8080 false) =
  Ok "0a000007:8080".
Proof.
  destruct (address_roundtrip LittleEndian demo_mem [x0a; x00; x00; x07] 8080 false)
    as (_ & _ & _ & _ & E & _); [done|done|lia|exact E].
Defined.

Lemma isSelfConnect_compares_endpoints_witness :
  isSelfConnect LittleEndian (Some (take 16 demo_addr)) (Some (take 16 demo_addr)) = true.
Proof.
  assert (H : reported LittleEndian (take 16 demo_addr) false 8080 [x7f; x00; x00; x01]).
  { exists demo_addr. split; [apply demo_addr_encodes|done]. }
  destruct (isSelfConnect_compares_endpoints LittleEndian _ _ _ _ _ _ _ H H) as [E _]; [lia|lia|].
  exact (eq_trans E (bool_decide_eq_true_2 _ (conj eq_refl eq_refl))).
Defined.
