(* ===== verification/SocketCalls.v ===== *)
(** The bare system calls of [kaycc::net::sockets] and [kaycc::net::Socket]
    ([src/net/socketsops.cpp], [src/net/socket.cpp]) and the sequence in which
    [Acceptor] ([src/net/acceptor.cpp]) sets its listening socket up.

    An operation is a program of system calls ([prog], a free monad), so what it
    calls is seen whatever the kernel answers.  A [Kernel] answers a call with a
    result and [errno], and is known by what the manual says a call does to the
    process's sockets ([effect]).  [SocketCalls] goes on where [Sockets] and
    [Acceptor] take the answers as given.  Log lines are left out. *)
From Stdlib Require Import Strings.Byte Strings.Ascii DecimalString.
From stdpp Require Import gmap strings list.
From S2P Require Import Prelude Endian Timestamp Sockets.

(** ** Constants of <sys/socket.h> and <fcntl.h> on Linux *)
Definition SOCK_STREAM : Z := 1.
Definition SOCK_NONBLOCK : Z := 0x800.
Definition SOCK_CLOEXEC : Z := 0x80000.
Definition IPPROTO_TCP : Z := 6.
Definition SOL_SOCKET : Z := 1.
Definition SO_REUSEADDR : Z := 2.
Definition SO_KEEPALIVE : Z := 9.
Definition SO_REUSEPORT : Z := 15.
Definition TCP_NODELAY : Z := 1.
Definition SHUT_WR : Z := 1.
Definition F_GETFL : Z := 3.
Definition F_SETFL : Z := 4.
Definition O_RDONLY : Z := 0.
Definition O_NONBLOCK : Z := 0x800.
Definition O_CLOEXEC : Z := 0x80000.
Definition FD_CLOEXEC : Z := 1.

(** ** Programs of system calls *)
Inductive call :=
  | CSocket (domain type protocol : Z)
  | COpen (path : string) (flags : Z)
  | CAccept (fd flags : Z)                       (* accept is accept4 without flags *)
  | CBind (fd : Z) (addr : list byte) (len : Z)
  | CListen (fd backlog : Z)
  | CConnect (fd : Z) (addr : list byte) (len : Z)
  | CSetsockopt (fd level name optval : Z)
  | CFcntl (fd cmd arg : Z)
  | CShutdown (fd how : Z)
  | CClose (fd : Z).

(** The result of a call and [errno] after it. *)
Abbreviation answer := (Z * Z)%type.

Inductive prog (A : Type) :=
  | Ret (a : A)
  | Next (c : call) (k : answer → prog A).
Arguments Ret {A} a.
Arguments Next {A} c k.

#[export] Instance prog_ret : MRet prog := @Ret.
#[export] Instance prog_bind : MBind prog := λ A B f,
  fix bind p := match p with Ret a => f a | Next c k => Next c (λ r, bind (k r)) end.

Definition sys_call (c : call) : prog answer := Next c Ret.

(** ** Sockets (socketsops.cpp)

    [valgrind]: built with VALGRIND; [no_accept4]: VALGRIND or NO_ACCEPT4. *)
Definition setNonBlockAndCloseOnExec (sockfd : Z) : prog Z :=
  '(flags, _) ← sys_call (CFcntl sockfd F_GETFL 0);
  let flags := Z.lor flags O_NONBLOCK in
  _ ← sys_call (CFcntl sockfd F_SETFL flags);
  '(flags, _) ← sys_call (CFcntl sockfd F_GETFL 0);
  let flags := Z.lor flags FD_CLOEXEC in
  '(_, errno) ← sys_call (CFcntl sockfd F_SETFL flags);
  mret errno.

Definition createNonblockingOrDie (valgrind : bool) (family : Z) : prog Z :=
  if valgrind then
    '(sockfd, _) ← sys_call (CSocket family SOCK_STREAM IPPROTO_TCP);
    _ ← setNonBlockAndCloseOnExec sockfd;
    mret sockfd
  else
    '(sockfd, _) ← sys_call
      (CSocket family (Z.lor (Z.lor SOCK_STREAM SOCK_NONBLOCK) SOCK_CLOEXEC) IPPROTO_TCP);
    mret sockfd.

Definition bindOrDie (sockfd : Z) (addr : list byte) : prog unit :=
  _ ← sys_call (CBind sockfd addr sizeof_sockaddr_in6); mret tt.

Definition listenOrDie (SOMAXCONN sockfd : Z) : prog unit :=
  _ ← sys_call (CListen sockfd SOMAXCONN); mret tt.

(** [sockets::accept]; [Sockets.sockets_accept] is its treatment of [errno]. *)
Definition accept (no_accept4 : bool) (log : Z → Z) (sockfd : Z) : prog answer :=
  if no_accept4 then
    '(connfd, _) ← sys_call (CAccept sockfd 0);
    errno ← setNonBlockAndCloseOnExec connfd;
    mret (sockets_accept log connfd errno)
  else
    '(connfd, errno) ← sys_call (CAccept sockfd (Z.lor SOCK_NONBLOCK SOCK_CLOEXEC));
    mret (sockets_accept log connfd errno).

Definition connect (sockfd : Z) (addr : list byte) : prog answer :=
  sys_call (CConnect sockfd addr sizeof_sockaddr_in6).

Definition close (sockfd : Z) : prog unit := _ ← sys_call (CClose sockfd); mret tt.

Definition shutdownWrite (sockfd : Z) : prog unit :=
  _ ← sys_call (CShutdown sockfd SHUT_WR); mret tt.

(** ** Socket (socket.cpp) *)
Definition setsockopt_flag (sockfd_ level name : Z) (on : bool) : prog Z :=
  let optval := if on then 1 else 0 in
  '(ret, _) ← sys_call (CSetsockopt sockfd_ level name optval);
  mret ret.

Definition setTcpNoDelay (sockfd_ : Z) (on : bool) : prog unit :=
  _ ← setsockopt_flag sockfd_ IPPROTO_TCP TCP_NODELAY on; mret tt.
Definition setReuseAddr (sockfd_ : Z) (on : bool) : prog unit :=
  _ ← setsockopt_flag sockfd_ SOL_SOCKET SO_REUSEADDR on; mret tt.
Definition setKeepAlive (sockfd_ : Z) (on : bool) : prog unit :=
  _ ← setsockopt_flag sockfd_ SOL_SOCKET SO_KEEPALIVE on; mret tt.
(** [has_reuseport]: the system's headers define SO_REUSEPORT. *)
Definition setReusePort (has_reuseport : bool) (sockfd_ : Z) (on : bool) : prog unit :=
  if has_reuseport then _ ← setsockopt_flag sockfd_ SOL_SOCKET SO_REUSEPORT on; mret tt
  else mret tt.

Definition Socket_dtor (sockfd_ : Z) : prog unit := close sockfd_.
Definition Socket_bindAddress (sockfd_ : Z) (addr : list byte) : prog unit := bindOrDie sockfd_ addr.
Definition Socket_listen (SOMAXCONN sockfd_ : Z) : prog unit := listenOrDie SOMAXCONN sockfd_.
Definition Socket_shutdownWrite (sockfd_ : Z) : prog unit := shutdownWrite sockfd_.

(** ** The calls of the Acceptor (acceptor.cpp)

    The constructor's, with the listening socket and the idle descriptor, and
    [Acceptor::listen]'s. *)
Definition Acceptor_ctor_calls (host : endianness) (valgrind has_reuseport : bool)
    (listenAddr : list byte) (reuseport : bool) : prog (outcome (Z * Z)) :=
  acceptSocket_ ← createNonblockingOrDie valgrind (family host listenAddr);
  '(idleFd_, _) ← sys_call (COpen "/dev/null" (Z.lor O_RDONLY O_CLOEXEC));
  if 0 <=? idleFd_ then
    _ ← setReuseAddr acceptSocket_ true;
    _ ← setReusePort has_reuseport acceptSocket_ reuseport;
    _ ← Socket_bindAddress acceptSocket_ listenAddr;
    mret (Ok (acceptSocket_, idleFd_))
  else mret (Fail AssertFailure).

Definition Acceptor_listen_calls (SOMAXCONN acceptSocket_ : Z) : prog unit :=
  Socket_listen SOMAXCONN acceptSocket_.

(** A server that is constructed and started. *)
Definition listening_socket (host : endianness) (valgrind has_reuseport : bool) (SOMAXCONN : Z)
    (listenAddr : list byte) (reuseport : bool) : prog (outcome (Z * Z)) :=
  r ← Acceptor_ctor_calls host valgrind has_reuseport listenAddr reuseport;
  match r with
  | Ok (fd, idle) => _ ← Acceptor_listen_calls SOMAXCONN fd; mret (Ok (fd, idle))
  | Fail f => mret (Fail f)
  end.

(** ** What the kernel keeps of a socket *)
Record binding := mkBinding {
  b_addr : list byte;
  b_asked : bool;                   (* by bind(2); else chosen by the kernel *)
  b_reuseaddr : bool; b_reuseport : bool    (* the options when it was made *)
}.
Record sock := mkSock {
  nonblock : bool; cloexec : bool;
  reuseaddr : bool; reuseport : bool; nodelay : bool; keepalive : bool;
  bound : option binding; listening : bool; peer : option (list byte); shut : bool
}.

Definition new_sock (flags : Z) : sock :=
  mkSock (Z.testbit flags 11) (Z.testbit flags 19) false false false false None false None false.

Definition set_option (level name optval : Z) (s : sock) : sock :=
  let on := bool_decide (optval ≠ 0) in
  mkSock (nonblock s) (cloexec s)
    (if decide (level = SOL_SOCKET ∧ name = SO_REUSEADDR) then on else reuseaddr s)
    (if decide (level = SOL_SOCKET ∧ name = SO_REUSEPORT) then on else reuseport s)
    (if decide (level = IPPROTO_TCP ∧ name = TCP_NODELAY) then on else nodelay s)
    (if decide (level = SOL_SOCKET ∧ name = SO_KEEPALIVE) then on else keepalive s)
    (bound s) (listening s) (peer s) (shut s).
Definition set_nonblock (b : bool) (s : sock) : sock :=
  mkSock b (cloexec s) (reuseaddr s) (reuseport s) (nodelay s) (keepalive s)
    (bound s) (listening s) (peer s) (shut s).
Definition bind_to (addr : list byte) (asked : bool) (s : sock) : sock :=
  mkSock (nonblock s) (cloexec s) (reuseaddr s) (reuseport s) (nodelay s) (keepalive s)
    (Some (mkBinding addr asked (reuseaddr s) (reuseport s))) (listening s) (peer s) (shut s).
Definition start_listen (a : list byte) (s : sock) : sock :=
  let s := match bound s with Some _ => s | None => bind_to a false s end in
  mkSock (nonblock s) (cloexec s) (reuseaddr s) (reuseport s) (nodelay s) (keepalive s)
    (bound s) true (peer s) (shut s).
Definition connect_to (addr : list byte) (s : sock) : sock :=
  mkSock (nonblock s) (cloexec s) (reuseaddr s) (reuseport s) (nodelay s) (keepalive s)
    (bound s) (listening s) (Some addr) (shut s).
Definition shut_writing (s : sock) : sock :=
  mkSock (nonblock s) (cloexec s) (reuseaddr s) (reuseport s) (nodelay s) (keepalive s)
    (bound s) (listening s) (peer s) true.

(** A call that makes a socket: -1, or a descriptor that was free. *)
Definition makes (r flags : Z) (m m' : gmap Z sock) : Prop :=
  r = -1 ∧ m' = m ∨ 0 ≤ r ∧ m !! r = None ∧ m' = <[r := new_sock flags]> m.
(** A call that changes one: -1 and nothing, or 0 and [f]. *)
Definition changes (fd r : Z) (f : sock → sock) (m m' : gmap Z sock) : Prop :=
  r = -1 ∧ m' = m ∨ r = 0 ∧ ∃ s, m !! fd = Some s ∧ m' = <[fd := f s]> m.

(** socket(2), open(2), accept(2), bind(2), listen(2), connect(2), setsockopt(2),
    fcntl(2), shutdown(2) and close(2).  F_SETFL sets O_NONBLOCK and ignores
    the access mode, where FD_CLOEXEC's bit is; an unbound socket that is to listen
    gets an address of the kernel's choice. *)
Definition effect (c : call) (r errno : Z) (m m' : gmap Z sock) : Prop :=
  match c with
  | CSocket _ type _ => makes r type m m'
  | COpen _ _ => (r = -1 ∨ 0 ≤ r ∧ m !! r = None) ∧ m' = m
  | CAccept _ flags => makes r flags m m'
  | CBind fd addr len => changes fd r (bind_to (take (Z.to_nat len) addr) true) m m'
  | CListen fd _ => ∃ a, changes fd r (start_listen a) m m'
  | CConnect fd addr len =>
      (r = 0 ∨ r = -1 ∧ errno = EINPROGRESS →
       ∃ s, m !! fd = Some s ∧ m' = <[fd := connect_to (take (Z.to_nat len) addr) s]> m) ∧
      delete fd m' = delete fd m
  | CSetsockopt fd level name v => changes fd r (set_option level name v) m m'
  | CFcntl fd cmd arg =>
      (fd < 0 → r = -1 ∧ errno = EBADF) ∧
      (cmd = F_GETFL → m' = m ∧
         (r = -1 ∨ 0 ≤ r ∧ ∀ s, m !! fd = Some s → Z.testbit r 11 = nonblock s)) ∧
      (cmd = F_SETFL → changes fd r (set_nonblock (Z.testbit arg 11)) m m')
  | CShutdown fd _ => changes fd r shut_writing m m'
  | CClose fd => m' = delete fd m
  end.

Class Kernel (K : Type) := {
  socks : K → gmap Z sock;
  sys : call → K → Z * Z * K;
  sys_ok c k r e k' : sys c k = (r, e, k') → effect c r e (socks k) (socks k')
}.

(** ** Executions: the calls made with their results, and the kernel after them *)
Fixpoint exec {A K} `{!Kernel K} (p : prog A) (k : K) : A * list (call * Z) * K :=
  match p with
  | Ret a => (a, [], k)
  | Next c q =>
    let '(r, e, k1) := sys c k in
    let '(a, tr, k2) := exec (q (r, e)) k1 in
    (a, (c, r) :: tr, k2)
  end.

(** What a program may do, whatever the kernel is. *)
Inductive runs {A} : prog A → gmap Z sock → A → list (call * Z) → gmap Z sock → Prop :=
  | runs_ret a m : runs (Ret a) m a [] m
  | runs_next c q m r e m1 a tr m2 :
      effect c r e m m1 → runs (q (r, e)) m1 a tr m2 → runs (Next c q) m a ((c, r) :: tr) m2.

Lemma exec_runs {A K} `{!Kernel K} (p : prog A) (k : K) a tr k' :
  exec p k = (a, tr, k') → runs p (socks k) a tr (socks k').
Proof.
  revert k a tr k'. induction p as [a0|c q IH]; intros k a tr k' E; cbn in E.
  - injection E as <- <- <-. constructor.
  - destruct (sys c k) as [[r e] k1] eqn:Ec. destruct (exec (q (r, e)) k1) as [[a1 tr1] k2] eqn:Eq.
    injection E as <- <- <-. eapply runs_next; [by apply (sys_ok c k)|by apply IH].
Qed.

Lemma exec_bind {A B K} `{!Kernel K} (p : prog A) (f : A → prog B) (k : K) :
  exec (p ≫= f) k =
  let '(a, tr1, k1) := exec p k in let '(b, tr2, k2) := exec (f a) k1 in (b, tr1 ++ tr2, k2).
Proof.
  revert k. induction p as [a|c q IH]; intros k.
  - change (exec (Ret a ≫= f) k) with (exec (f a) k). cbn. by destruct (exec (f a) k) as [[??]?].
  - change (exec (Next c q ≫= f) k) with (exec (Next c (λ r, q r ≫= f)) k). cbn.
    destruct (sys c k) as [[r e] k1]. rewrite IH. destruct (exec (q (r, e)) k1) as [[a tr1] k2].
    by destruct (exec (f a) k2) as [[??]?].
Qed.

Lemma runs_ret_inv {A} (a b : A) m tr m' : runs (mret a) m b tr m' → b = a ∧ tr = [] ∧ m' = m.
Proof. by inversion_clear 1. Qed.

Lemma runs_call_inv c m a tr m' : runs (sys_call c) m a tr m' →
  effect c a.1 a.2 m m' ∧ tr = [(c, a.1)].
Proof.
  inversion_clear 1 as [|? ? ? r e ? ? ? ? He Hr]. apply runs_ret_inv in Hr as (-> & -> & ->). done.
Qed.

Lemma runs_bind_inv {A B} (p : prog A) (f : A → prog B) m b tr m' : runs (p ≫= f) m b tr m' →
  ∃ a tr1 m1 tr2, runs p m a tr1 m1 ∧ runs (f a) m1 b tr2 m' ∧ tr = tr1 ++ tr2.
Proof.
  revert m tr. induction p as [a|c q IH]; intros m tr; [intros H; exists a, [], m, tr; eauto using @runs|].
  intros H. change (runs (Next c (λ r, q r ≫= f)) m b tr m') in H.
  inversion_clear H as [|? ? ? r e m0 ? tr0 ? He Hr].
  apply IH in Hr as (a & tr1 & m1 & tr2 & H1 & H2 & ->).
  exists a, ((c, r) :: tr1), m1, tr2. eauto using @runs.
Qed.

Create HintDb progs.
#[export] Hint Unfold setNonBlockAndCloseOnExec createNonblockingOrDie bindOrDie listenOrDie accept
  connect close shutdownWrite setsockopt_flag setTcpNoDelay setReuseAddr setKeepAlive setReusePort
  Socket_dtor Socket_bindAddress Socket_listen Socket_shutdownWrite Acceptor_ctor_calls
  Acceptor_listen_calls listening_socket : progs.

Ltac is_constructor_app x :=
  lazymatch x with (_, _) => idtac | Ok _ => idtac | Fail _ => idtac | true => idtac | false => idtac end.

(** [run_inv] takes a hypothesis [runs p m a tr m'] apart, call by call. *)
Ltac run_inv :=
  repeat match goal with
  | H : runs (mret _) _ _ _ _ |- _ => apply runs_ret_inv in H as (-> & -> & ->)
  | H : runs (_ ≫= _) _ _ _ _ |- _ =>
      apply runs_bind_inv in H as (? & ? & ? & ? & ? & H & ->); cbn beta in H
  | H : runs (sys_call _) _ ?a _ _ |- _ =>
      is_var a; destruct a; apply runs_call_inv in H as (? & ->)
  | H : runs (sys_call _) _ _ _ _ |- _ => apply runs_call_inv in H as (? & ->)
  | H : runs (match ?x with _ => _ end) _ _ _ _ |- _ =>
      is_constructor_app x; cbn beta iota in H
  | H : runs (if ?b then _ else _) _ _ _ _ |- _ => destruct b eqn:?
  | H : runs _ _ _ _ _ |- _ => progress autounfold with progs in H
  end.

Definition granted (tr : list (call * Z)) : Prop := Forall (λ cr, 0 ≤ cr.2) tr.
(** The whole of [tr] is granted but for the bind(2). *)
Definition bind_refused (tr : list (call * Z)) : Prop :=
  Forall (λ cr, match cr.1 with CBind _ _ _ => cr.2 = -1 | _ => 0 ≤ cr.2 end) tr.

Lemma makes_spec r flags m m' : makes r flags m m' → 0 ≤ r →
  m !! r = None ∧ m' = <[r := new_sock flags]> m.
Proof. intros [[-> _]|[_ H]]; [lia|done]. Qed.

Lemma makes_others r flags m m' : makes r flags m m' → delete r m' = delete r m.
Proof. intros [[_ ->]|(_ & _ & ->)]; [done|by rewrite delete_insert_eq]. Qed.

(** A change of a socket [fd] that is being set up, granted or refused. *)
Lemma changes_granted fd r f s (m m' : gmap Z sock) :
  changes fd r f (<[fd := s]> m) m' → 0 ≤ r → m' = <[fd := f s]> m.
Proof.
  intros [[-> _]|(_ & s' & Hs & ->)] ?; [lia|].
  rewrite lookup_insert_eq in Hs. injection Hs as <-. by rewrite insert_insert_eq.
Qed.

Lemma changes_absent fd r f m m' : m !! fd = None → changes fd r f m m' → m' = m.
Proof. intros H [[_ ->]|(_ & s & Hs & _)]; [done|congruence]. Qed.

Lemma changes_refused fd r f m m' : changes fd r f m m' → r = -1 → m' = m.
Proof. by intros [[_ ->]|[-> _]]. Qed.

Lemma changes_others fd r f m m' : changes fd r f m m' → delete fd m' = delete fd m.
Proof. intros [[_ ->]|(_ & s & _ & ->)]; [done|by rewrite delete_insert_eq]. Qed.

Ltac leave_others :=
  repeat match goal with
  | H : changes ?fd _ _ _ ?m' |- context [delete ?fd ?m'] => rewrite (changes_others _ _ _ _ _ H); clear H
  | H : makes ?fd _ _ ?m' |- context [delete ?fd ?m'] => rewrite (makes_others _ _ _ _ H); clear H
  end.
Ltac settle :=
  repeat match goal with
  | H : changes _ _ _ (<[_ := _]> _) ?m' |- _ => apply changes_granted in H; [subst m'|lia]
  | H : changes _ _ _ _ ?m' |- _ => apply changes_refused in H; [subst m'|lia]
  end.

(** ** The acceptor's socket *)
Section Listening.
Context (host : endianness) (has_reuseport : bool) (SOMAXCONN : Z).

(** What is asked of the kernel, in order, once both descriptors are there. *)
Definition setup_calls (fd : Z) (listenAddr : list byte) (reuseport : bool) : list call :=
  [CSetsockopt fd SOL_SOCKET SO_REUSEADDR 1] ++
  (if has_reuseport then [CSetsockopt fd SOL_SOCKET SO_REUSEPORT (Z.b2z reuseport)] else []) ++
  [CBind fd listenAddr sizeof_sockaddr_in6; CListen fd SOMAXCONN].

Definition socket_calls (listenAddr : list byte) : list call :=
  [CSocket (family host listenAddr) (Z.lor (Z.lor SOCK_STREAM SOCK_NONBLOCK) SOCK_CLOEXEC) IPPROTO_TCP;
   COpen "/dev/null" (Z.lor O_RDONLY O_CLOEXEC)].

(** The socket that results: [b] its binding. *)
Definition ready_socket (reuseport : bool) (b : binding) : sock :=
  mkSock true true true (has_reuseport && reuseport) false false (Some b) true None false.
Definition own_binding (addr : list byte) (asked reuseport : bool) : binding :=
  mkBinding addr asked true (has_reuseport && reuseport).

Lemma setup_calls_made listenAddr reuseport m r tr m' :
  runs (listening_socket host false has_reuseport SOMAXCONN listenAddr reuseport) m r tr m' →
  (∃ fd e, tr = combine (socket_calls listenAddr) [fd; e] ∧ e < 0 ∧ r = Fail AssertFailure) ∨
  ∃ fd idle, r = Ok (fd, idle) ∧ 0 ≤ idle ∧ head tr.*2 = Some fd ∧
    tr.*1 = socket_calls listenAddr ++ setup_calls fd listenAddr reuseport.
Proof.
  intros H. unfold setup_calls. run_inv; cbn.
  - right. exists z1, z. destruct reuseport; repeat split; lia.
  - right. exists z1, z. repeat split; lia.
  - left. exists z1, z. repeat split; lia.
Qed.

(** What each answer leaves of a socket that is being set up. *)
Lemma setup_effects listenAddr reuseport m r tr m' fd idle :
  length listenAddr = 28%nat →
  runs (listening_socket host false has_reuseport SOMAXCONN listenAddr reuseport) m r tr m' →
  r = Ok (fd, idle) →
  delete fd m' = delete fd m ∧
  (granted tr → m !! fd = None ∧
     m' = <[fd := ready_socket reuseport (own_binding listenAddr true reuseport)]> m) ∧
  (bind_refused tr → m !! fd = None ∧ ∃ a,
     m' = <[fd := ready_socket reuseport (own_binding a false reuseport)]> m).
Proof.
  intros Hlen H E. run_inv; try discriminate E; injection E as <- <-; cbn in *;
    destruct H as [a H], H2 as [_ ->].
  all: split; [by leave_others|].
  all: split; intros G; unfold granted, bind_refused in G; rewrite !Forall_cons in G; cbn in G;
    destruct_and! G; apply makes_spec in H3 as [Hn ->].
  all: try done. all: split; [done|].
  all: settle.
  all: try exists a.
  all: change (Z.to_nat sizeof_sockaddr_in6) with 28%nat; rewrite ?take_ge by lia;
    unfold ready_socket, own_binding; rewrite Heqb0; by destruct reuseport.
Qed.

End Listening.

(** ** The two builds *)
Lemma fcntl_effect fd cmd arg r e m m' : effect (CFcntl fd cmd arg) r e m m' →
  cmd = F_GETFL ∨ cmd = F_SETFL → delete fd m' = delete fd m ∧ (m !! fd = None → m' = m) ∧
  (fd < 0 → m' = m ∧ e = EBADF).
Proof.
  intros (Hneg & Hget & Hset) [->| ->].
  - destruct (Hget eq_refl) as [-> _]. split_and!; [done..|]. intros Hfd. split; [done|by apply Hneg].
  - specialize (Hset eq_refl). split_and!.
    + by eapply changes_others.
    + intros Hn. apply (changes_absent _ _ _ _ _ Hn Hset).
    + intros Hfd. destruct (Hneg Hfd) as [Hr ->]. split; [apply (changes_refused _ _ _ _ _ Hset Hr)|done].
Qed.

Lemma changes_nonblock fd r b s m m' : changes fd r (set_nonblock b) (<[fd := s]> m) m' →
  ∃ b', m' = <[fd := set_nonblock b' s]> m ∧ (0 ≤ r → b' = b).
Proof.
  intros [[-> ->]|(-> & s' & Hs & ->)].
  - exists (nonblock s). split; [by destruct s|lia].
  - rewrite lookup_insert_eq in Hs. injection Hs as <-. exists b. by rewrite insert_insert_eq.
Qed.

(** [F_SETFL] is asked for both flags, and sets the first only. *)
Lemma setNonBlock_runs fd s m e tr m' :
  runs (setNonBlockAndCloseOnExec fd) (<[fd := s]> m) e tr m' →
  ∃ b, m' = <[fd := set_nonblock b s]> m ∧ (granted tr → b = true).
Proof.
  intros H. run_inv. cbn [effect fst snd] in *.
  destruct H0 as (_ & G1 & _), H as (_ & _ & S1), H2 as (_ & G2 & _), H3 as (_ & _ & S2).
  destruct (G1 eq_refl) as [-> _]. destruct (changes_nonblock _ _ _ _ _ _ (S1 eq_refl)) as (b1 & -> & B1).
  destruct (G2 eq_refl) as [-> Hget].
  destruct (changes_nonblock _ _ _ _ _ _ (S2 eq_refl)) as (b2 & -> & B2).
  exists b2. split; [done|]. intros G. unfold granted in G. cbn [app] in G. rewrite !Forall_cons in G.
  cbn [snd] in G.
  destruct G as (_ & P1 & P2 & P3 & _). rewrite (B2 P3), Z.lor_spec.
  destruct Hget as [?|[_ Hget]]; [lia|]. rewrite (Hget _ (lookup_insert_eq _ _ _)). cbn [nonblock set_nonblock].
  rewrite (B1 P1), Z.lor_spec. by rewrite !orb_true_r.
Qed.

(** Of a descriptor that is none it changes nothing, and leaves EBADF. *)
Lemma setNonBlock_bad fd m e tr m' : fd < 0 →
  runs (setNonBlockAndCloseOnExec fd) m e tr m' → m' = m ∧ e = EBADF.
Proof.
  intros Hfd H. run_inv.
  repeat match goal with H : effect (CFcntl _ _ _) _ _ _ _ |- _ =>
    apply fcntl_effect in H as (_ & _ & H); [destruct (H Hfd) as [-> ?]; clear H|by auto] end. done.
Qed.

(** A call that is to make a descriptor [fd]: -1 and nothing changed, or a new socket
    that satisfies [P]. *)
Definition made (fd : Z) (P : sock → Prop) (m m' : gmap Z sock) : Prop :=
  fd = -1 ∧ m' = m ∨ 0 ≤ fd ∧ m !! fd = None ∧ ∃ s, P s ∧ m' = <[fd := s]> m.

Lemma make_then_set fd m m1 e tr m' : makes fd SOCK_STREAM m m1 ∨ makes fd 0 m m1 →
  runs (setNonBlockAndCloseOnExec fd) m1 e tr m' →
  made fd (λ s, cloexec s = false ∧ (granted tr → nonblock s = true)) m m' ∧
  (fd < 0 → e = EBADF).
Proof.
  assert (Hflags : ∀ flags, flags = SOCK_STREAM ∨ flags = 0 → cloexec (new_sock flags) = false) by
    (by intros ? [->| ->]).
  intros Hm H. assert (∃ flags, (flags = SOCK_STREAM ∨ flags = 0) ∧ makes fd flags m m1)
    as (flags & Hf & [[-> ->]|(H0 & Hn & ->)]) by (destruct Hm; eauto).
  - apply setNonBlock_bad in H as [-> ->]; [|lia]. split; [by left|done].
  - split; [right|lia]. apply setNonBlock_runs in H as (b & -> & Hb). split_and!; [done..|].
    eexists; split; [|done]. split; [by apply Hflags|done].
Qed.

Lemma create_made valgrind fam fd tr m m' :
  runs (createNonblockingOrDie valgrind fam) m fd tr m' →
  made fd (λ s, cloexec s = negb valgrind ∧ (granted tr → nonblock s = true)) m m'.
Proof.
  unfold createNonblockingOrDie. destruct valgrind; intros H.
  - apply runs_bind_inv in H as ([r e] & tr1 & m1 & tr2 & H1 & H & ->).
    apply runs_call_inv in H1 as (Hm & ->). cbn [effect fst snd] in Hm.
    apply runs_bind_inv in H as (e' & tr3 & m2 & tr4 & H & Hret & ->).
    apply runs_ret_inv in Hret as (-> & -> & ->).
    destruct (make_then_set _ _ _ _ _ _ (or_introl Hm) H) as [[?|(H0 & Hn & s & [Hc Hg] & ->)] _]; [by left|].
    right. split_and!; [done..|]. exists s. split; [split; [done|]|done].
    intros G. apply Hg. unfold granted in *. rewrite !Forall_app in G. tauto.
  - run_inv. cbn [effect fst snd] in *. destruct H0 as [?|(H0 & Hn & ->)]; [by left|right].
    split_and!; [done..|]. by eexists; split; [|done].
Qed.

(** How both builds make a socket, and what they make of a failed accept(2). *)
Section Builds.
Context {K : Type} `{!Kernel K}.
Variable log : Z → Z.

Lemma accept_fails sockfd r e (k k1 : K) no_accept4 :
  sys (CAccept sockfd (if no_accept4 : bool then 0 else Z.lor SOCK_NONBLOCK SOCK_CLOEXEC)) k = (r, e, k1) →
  r < 0 →
  (exec (accept no_accept4 log sockfd) k).1.1 = sockets_accept log r (if no_accept4 then EBADF else e).
Proof.
  intros E Hr. unfold accept. destruct no_accept4; rewrite exec_bind; cbn [exec sys_call]; rewrite E;
    cbn [exec mret prog_ret]; [|done].
  rewrite exec_bind. destruct (exec (setNonBlockAndCloseOnExec r) k1) as [[e1 tr1] k2] eqn:E1.
  apply exec_runs, setNonBlock_bad in E1 as [_ ->]; done.
Qed.

(** In every build [createNonblockingOrDie] makes a non-blocking socket (or answers
    -1), but a VALGRIND build asks F_SETFL for FD_CLOEXEC, so that its sockets are
    never close-on-exec; and where accept4 is not used, the fcntl(2)s on the
    descriptor -1 overwrite [errno] before [accept] looks at it, so that a full
    descriptor table is reported as EBADF instead of EMFILE. *)
Theorem builds_differ valgrind fam fd tr sockfd r e (k k' k1 k2 : K) :
  exec (createNonblockingOrDie valgrind fam) k = (fd, tr, k') →
  sys (CAccept sockfd (Z.lor SOCK_NONBLOCK SOCK_CLOEXEC)) k = (r, e, k1) →
  sys (CAccept sockfd 0) k = (r, e, k2) → r < 0 →
  made fd (λ s, cloexec s = negb valgrind ∧ (granted tr → nonblock s = true)) (socks k) (socks k') ∧
  (exec (accept false log sockfd) k).1.1 = (r, if expected_errno e then e else log (log e)) ∧
  (exec (accept true log sockfd) k).1.1 = (r, log (log EBADF)).
Proof.
  intros H H4 H0 Hr. split_and!; [by eapply create_made, exec_runs|..].
  - rewrite (accept_fails _ _ _ _ _ false H4 Hr). unfold sockets_accept.
    by destruct (Z.ltb_spec r 0); [|lia].
  - rewrite (accept_fails _ _ _ _ _ true H0 Hr). unfold sockets_accept.
    by destruct (Z.ltb_spec r 0); [|lia].
Qed.

(** C26: constructing an [Acceptor] and starting it asks the kernel for a socket, the
    idle descriptor, SO_REUSEADDR, SO_REUSEPORT as told, the bind(2) to the address given
    and the listen(2), in this order whatever is answered; only a missing idle
    descriptor stops it.  No other socket is touched; if all is granted the socket
    listens, non-blocking and close-on-exec, on exactly that address, which was bound
    with the options already set; but a refused bind(2) is not noticed, and the
    socket then listens on an address the kernel chose. *)
Theorem acceptor_listens host has_reuseport SOMAXCONN listenAddr reuseport r tr (k k' : K) :
  length listenAddr = 28%nat →
  exec (listening_socket host false has_reuseport SOMAXCONN listenAddr reuseport) k = (r, tr, k') →
  match r with
  | Fail f => f = AssertFailure ∧ tr.*1 = socket_calls host listenAddr ∧ ∃ fd e, tr.*2 = [fd; e] ∧ e < 0
  | Ok (fd, idle) =>
    tr.*1 = socket_calls host listenAddr ++ setup_calls has_reuseport SOMAXCONN fd listenAddr reuseport ∧
    0 ≤ idle ∧ delete fd (socks k') = delete fd (socks k) ∧
    (granted tr → socks k' =
       <[fd := ready_socket has_reuseport reuseport (own_binding has_reuseport listenAddr true reuseport)]>
       (socks k)) ∧
    (bind_refused tr → ∃ a, socks k' =
       <[fd := ready_socket has_reuseport reuseport (own_binding has_reuseport a false reuseport)]> (socks k))
  end.
Proof.
  intros Hlen H. apply exec_runs in H.
  destruct (setup_calls_made _ _ _ _ _ _ _ _ _ H) as [(fd & e & -> & He & ->)|(fd & idle & -> & Hi & _ & Htr)].
  - split_and!; [done..|]. by exists fd, e.
  - destruct (setup_effects _ _ _ _ _ _ _ _ _ _ _ Hlen H eq_refl) as (Ho & Hg & Hb).
    split_and!; [done..|by apply Hg|by apply Hb].
Qed.

End Builds.

(** ** TCP_INFO as text (Socket::getTcpInfo and getTcpInfoString)

    The fields of [struct tcp_info] the code reads. *)
Record tcp_info := mkTcpInfo {
  tcpi_retransmits : Z;                                       (* 8 bits; the others 32 *)
  tcpi_rto : Z; tcpi_ato : Z; tcpi_snd_mss : Z; tcpi_rcv_mss : Z; tcpi_lost : Z; tcpi_retrans : Z;
  tcpi_rtt : Z; tcpi_rttvar : Z; tcpi_snd_ssthresh : Z; tcpi_snd_cwnd : Z; tcpi_total_retrans : Z
}.
Definition zero_info : tcp_info := mkTcpInfo 0 0 0 0 0 0 0 0 0 0 0 0.

(** [ret]: getsockopt(2)'s result; [written]: the structure after it. *)
Definition getTcpInfo (ret : Z) (written : tcp_info) : bool * tcp_info :=
  if ret =? 0 then (true, written) else (false, zero_info).

(** A format string in pieces: a character, or (as [None]) the conversion [%u]. *)
Fixpoint pieces (fmt : string) : list (option ascii) :=
  match fmt with
  | String c fmt1 =>
    match fmt1 with
    | String u fmt2 =>
        if Ascii.eqb c "%"%char && Ascii.eqb u "u"%char then None :: pieces fmt2
        else Some c :: pieces fmt1
    | EmptyString => [Some c]
    end
  | EmptyString => []
  end.

Fixpoint printf_u (fmt : list (option ascii)) (args : list Z) : string :=
  match fmt, args with
  | Some c :: fmt, args => String c (printf_u fmt args)
  | None :: fmt, n :: args => digits n +:+ printf_u fmt args
  | _, _ => EmptyString
  end.

Definition info_format : string :=
  "unrecovered=%u " +:+
  "rto=%u ato=%u snd_mss=%u rcv_mss=%u " +:+
  "lost=%u retrans=%u rtt=%u rttvar=%u " +:+
  "sshthresh=%u cwnd=%u total_retrans=%u".

Definition info_fields (i : tcp_info) : list Z :=
  [tcpi_retransmits i; tcpi_rto i; tcpi_ato i; tcpi_snd_mss i; tcpi_rcv_mss i; tcpi_lost i;
   tcpi_retrans i; tcpi_rtt i; tcpi_rttvar i; tcpi_snd_ssthresh i; tcpi_snd_cwnd i;
   tcpi_total_retrans i].

Definition getTcpInfoString (ret : Z) (written : tcp_info) (buf : string) (len : Z) : bool * string :=
  let '(ok, tcpi) := getTcpInfo ret written in
  (ok, if ok then String.substring 0 (Z.to_nat (len - 1)) (printf_u (pieces info_format) (info_fields tcpi))
       else buf).

(** [TcpConnection::getTcpInfoString] *)
Definition TcpConnection_getTcpInfoString (ret : Z) (written : tcp_info) : string :=
  (getTcpInfoString ret written "" 1024).2.

(** *** Reading it back *)
Definition is_digit (c : ascii) : bool := (48 <=? nat_of_ascii c)%nat && (nat_of_ascii c <=? 57)%nat.

Fixpoint span_digits (s : string) : string * string :=
  match s with
  | String c s' => if is_digit c then let '(a, b) := span_digits s' in (String c a, b) else (EmptyString, s)
  | EmptyString => (EmptyString, EmptyString)
  end.

Fixpoint scan_u (fmt : list (option ascii)) (text : string) : option (list Z) :=
  match fmt with
  | Some c :: fmt =>
      match text with
      | String c' text => if Ascii.eqb c c' then scan_u fmt text else None
      | EmptyString => None
      end
  | None :: fmt =>
      let '(d, text) := span_digits text in
      n ← read_digits d; ns ← scan_u fmt text; Some (n :: ns)
  | [] => match text with EmptyString => Some [] | _ => None end
  end.

(** Each number is followed by something that is no part of a number. *)
Fixpoint separated (fmt : list (option ascii)) : bool :=
  match fmt with
  | None :: fmt' =>
      match fmt' with
      | [] => true
      | Some c :: _ => negb (is_digit c) && separated fmt'
      | None :: _ => false
      end
  | Some _ :: fmt => separated fmt
  | [] => true
  end.
Definition conversions (fmt : list (option ascii)) : nat := length (filter (λ p, p = None) fmt).

Definition in_range (i : tcp_info) : Prop :=
  0 ≤ tcpi_retransmits i < 2 ^ 8 ∧ Forall (λ n, 0 ≤ n < 2 ^ 32) (info_fields i).

Lemma span_uint d s : (match s with String c _ => is_digit c = false | EmptyString => True end) →
  span_digits (NilEmpty.string_of_uint d +:+ s) = (NilEmpty.string_of_uint d, s).
Proof.
  intros Hs. induction d as [|d IH|d IH|d IH|d IH|d IH|d IH|d IH|d IH|d IH|d IH]; simpl; [|by rewrite IH..].
  destruct s as [|c s]; [done|]. simpl. by rewrite Hs.
Qed.

Lemma scan_printf fmt args : separated fmt = true → length args = conversions fmt →
  Forall (λ n, 0 ≤ n) args → scan_u fmt (printf_u fmt args) = Some args.
Proof.
  unfold conversions. revert args. induction fmt as [|[c|] fmt IH]; intros args Hs Hl Ha.
  - by destruct args.
  - rewrite filter_cons_False in Hl by done. cbn. rewrite Ascii.eqb_refl. by apply IH.
  - rewrite filter_cons_True in Hl by done. destruct args as [|n args]; [done|].
    injection Hl as Hl. apply Forall_cons in Ha as [Hn Ha]. cbn [printf_u scan_u].
    rewrite digits_eq, span_uint, <-digits_eq.
    + assert (read_digits (digits n) = Some n) as Hr by exact (read_padded 0 n Hn).
      cbn beta iota. rewrite Hr. cbn. rewrite IH; [done| |done..].
      destruct fmt as [|[c|] fmt]; cbn in Hs; [done|by apply andb_prop in Hs as [_ ?]|done].
    + destruct fmt as [|[c|] fmt]; cbn in Hs |- *; [done| |done].
      apply andb_prop in Hs as [Hs _]. by apply negb_true_iff.
Qed.

Lemma printf_length fmt args k : (1 ≤ k)%nat → Forall (λ n, 0 ≤ n < 10 ^ Z.of_nat k) args →
  (String.length (printf_u fmt args) ≤ length fmt + k * conversions fmt)%nat.
Proof.
  unfold conversions. intros Hk. revert args. induction fmt as [|[c|] fmt IH]; intros args Ha; [cbn; lia|..].
  - rewrite filter_cons_False by done. cbn. specialize (IH args Ha). lia.
  - rewrite filter_cons_True by done. destruct args as [|n args]; cbn; [lia|].
    apply Forall_cons in Ha as [Hn Ha]. specialize (IH args Ha). rewrite length_append.
    pose proof (length_digits n k Hn Hk). cbn. lia.
Qed.

(** When TCP_INFO can be read, [TcpConnection::getTcpInfoString] gives a text of
    fewer than 1024 characters, which its buffer never cuts, and from which every one
    of the twelve numbers can be read back; when it cannot, the text is empty. *)
Theorem tcp_info_readable ret i : in_range i →
  let text := TcpConnection_getTcpInfoString ret i in
  Z.of_nat (String.length text) < 1024 ∧
  (ret = 0 → text = printf_u (pieces info_format) (info_fields i) ∧
             scan_u (pieces info_format) text = Some (info_fields i)) ∧
  (ret ≠ 0 → text = EmptyString).
Proof.
  intros [_ Hr] text. unfold text, TcpConnection_getTcpInfoString, getTcpInfoString, getTcpInfo.
  destruct (Z.eqb_spec ret 0) as [->|Hret]; [|split_and!; [done|lia|done]].
  assert (Forall (λ n, 0 ≤ n < 10 ^ Z.of_nat 10) (info_fields i)) as Hk
    by (eapply Forall_impl; [done|]; intros n [??]; split; [done|]; change (10 ^ Z.of_nat 10) with 10000000000; change (2 ^ 32) with 4294967296 in *; lia).
  pose proof (printf_length (pieces info_format) _ 10 ltac:(lia) Hk) as Hlen.
  assert (length (pieces info_format) + 10 * conversions (pieces info_format) ≤ 1000)%nat
    by (apply Nat.leb_le; vm_compute; reflexivity).
  cbn [snd]. rewrite substring_all by lia. split_and!; [lia| |done]. intros _. split; [done|].
  apply scan_printf; [done..|]. eapply Forall_impl; [exact Hr|]. by intros n [??].
Qed.

(** ** A concrete kernel: it refuses the calls it is told to *)
Record demo_kernel := mkDemo { refused : call → bool; table : gmap Z sock }.

Definition free_fd (m : gmap Z sock) : Z := Z.succ (foldr Z.max 2 (elements (dom m))).

Lemma free_fd_ok m : 0 ≤ free_fd m ∧ m !! free_fd m = None.
Proof.
  unfold free_fd. set (l := elements (dom m)).
  assert (∀ x, x ∈ l → x ≤ foldr Z.max 2 l) as Hmax.
  { induction l as [|y l' IH]; intros x Hx; [by apply not_elem_of_nil in Hx|].
    cbn. apply elem_of_cons in Hx as [->|Hx]; [lia|]. specialize (IH x Hx). lia. }
  assert (0 ≤ foldr Z.max 2 l) by (clear; induction l; cbn; lia). split; [lia|].
  apply not_elem_of_dom. intros Hin. apply elem_of_elements in Hin. specialize (Hmax _ Hin). lia.
Qed.

Section Demo.
Variable k : demo_kernel.

Definition refuse (e : Z) : Z * Z * demo_kernel := (-1, e, k).
Definition demo_make (flags : Z) : Z * Z * demo_kernel :=
  (free_fd (table k), 0, mkDemo (refused k) (<[free_fd (table k) := new_sock flags]> (table k))).
Definition demo_change (fd : Z) (f : sock → sock) : Z * Z * demo_kernel :=
  match table k !! fd with
  | Some s => if decide (0 ≤ fd) then (0, 0, mkDemo (refused k) (<[fd := f s]> (table k))) else refuse EBADF
  | None => refuse EBADF
  end.

Definition demo_sys (c : call) : Z * Z * demo_kernel :=
  match c with
  | CClose fd => (0, 0, mkDemo (refused k) (delete fd (table k)))
  | CFcntl fd cmd arg =>
      if refused k c then refuse EBADF
      else if decide (cmd = F_GETFL) then
        match table k !! fd with
        | Some s => if decide (0 ≤ fd) then (if nonblock s then 0x800 else 0, 0, k) else refuse EBADF
        | None => refuse EBADF
        end
      else demo_change fd (set_nonblock (Z.testbit arg 11))
  | CAccept _ flags => if refused k c then refuse EMFILE else demo_make flags
  | _ => if refused k c then refuse EACCES else
    match c with
    | CSocket _ type _ => demo_make type
    | COpen _ _ => (free_fd (table k), 0, k)
    | CBind fd addr len => demo_change fd (bind_to (take (Z.to_nat len) addr) true)
    | CListen fd _ => demo_change fd (start_listen [])
    | CConnect fd addr len => demo_change fd (connect_to (take (Z.to_nat len) addr))
    | CSetsockopt fd level name v => demo_change fd (set_option level name v)
    | CShutdown fd _ => demo_change fd shut_writing
    | _ => refuse EINVAL
    end
  end.

Lemma demo_make_ok flags r e k' : demo_make flags = (r, e, k') → makes r flags (table k) (table k').
Proof. intros [= <- <- <-]. right. destruct (free_fd_ok (table k)). done. Qed.

Lemma demo_change_ok fd f r e k' : demo_change fd f = (r, e, k') →
  changes fd r f (table k) (table k') ∧ (fd < 0 → r = -1 ∧ e = EBADF) ∧
  (r = -1 → e = EBADF).
Proof.
  unfold demo_change, refuse. destruct (table k !! fd) as [s|] eqn:Es; [case_decide|]; intros [= <- <- <-].
  - split_and!; [right|lia|lia]. split; [done|]. by exists s.
  - by split_and!; [left|..].
  - by split_and!; [left|..].
Qed.
End Demo.

Lemma demo_fcntl_ok k fd cmd arg r e k' : demo_sys k (CFcntl fd cmd arg) = (r, e, k') →
  effect (CFcntl fd cmd arg) r e (table k) (table k').
Proof.
  cbn [demo_sys effect]. unfold refuse. intros E.
  destruct (refused k _); [injection E as <- <- <-|destruct (decide (cmd = F_GETFL)) as [->|Hcmd]].
  - split_and!; [done|by intros; split; [|left]|by intros; left].
  - destruct (table k !! fd) as [s|] eqn:Es; [case_decide as Hfd|]; injection E as <- <- <-;
      (split_and!; [try lia; done| |done]); intros _; (split; [done|]); [right|by left..].
    split; [by destruct (nonblock s)|]. intros s' Hs. simplify_eq. by destruct (nonblock s').
  - apply demo_change_ok in E as (H & Hneg & _). split_and!; [done..|]. by intros _.
Qed.

Lemma demo_sys_ok c (k : demo_kernel) r e k' : demo_sys k c = (r, e, k') → effect c r e (table k) (table k').
Proof.
  destruct c; try exact (demo_fcntl_ok _ _ _ _ _ _ _); cbn [demo_sys effect]; unfold refuse;
    try (destruct (refused k _); [by intros [= <- <- <-]; eauto; try (by left); try (by exists []; left)|]).
  all: try (intros E; by eapply demo_make_ok).
  all: try (intros E; by apply demo_change_ok in E as [? _]).
  - intros [= <- <- <-]. destruct (free_fd_ok (table k)). eauto.
  - intros E. exists []. by apply demo_change_ok in E as [? _].
  - destruct (refused k _); intros E; [injection E as <- <- <-|].
    { split; [by intros [?|[_ ?]]|done]. }
    apply demo_change_ok in E as (H & _ & He). split; [|by eapply changes_others].
    destruct H as [[-> _]|[_ H]]; [|done]. intros [?|[_ ->]]; [done|by specialize (He eq_refl)].
  - by intros [= <- <- <-].
Qed.

#[export] Instance demo_instance : Kernel demo_kernel := {
  socks := table; sys c k := demo_sys k c; sys_ok := demo_sys_ok
}.

(** Port 8080 is taken: every bind(2) is refused; or accept(2) is. *)
Definition no_bind : demo_kernel := mkDemo (λ c, match c with CBind _ _ _ => true | _ => false end) ∅.
Definition no_accept : demo_kernel := mkDemo (λ c, match c with CAccept _ _ => true | _ => false end) ∅.

Definition demo_run (k : demo_kernel) :=
  exec (listening_socket LittleEndian false true 128 demo_addr true) k.

Lemma demo_run_ok : demo_run no_bind = (Ok (3, 4), (demo_run no_bind).1.2, (demo_run no_bind).2).
Proof. vm_compute. reflexivity. Qed.

Lemma demo_refused : bind_refused (demo_run no_bind).1.2.
Proof. unfold bind_refused. repeat (apply Forall_cons; split; [by vm_compute|]). by apply Forall_nil. Qed.

Lemma acceptor_listens_witness :
  bind_refused (demo_run no_bind).1.2 ∧
  ∃ a, table (demo_run no_bind).2 =
    <[3 := ready_socket true true (own_binding true a false true)]> (table no_bind).
Proof.
  exact (conj demo_refused
    (proj2 (proj2 (proj2 (proj2
      (acceptor_listens LittleEndian true 128 demo_addr true _ _ no_bind _ eq_refl demo_run_ok)))) demo_refused)).
Defined.

Definition valgrind_run := exec (createNonblockingOrDie true AF_INET) no_accept.

Lemma valgrind_run_ok : valgrind_run = (3, valgrind_run.1.2, valgrind_run.2).
Proof. vm_compute. reflexivity. Qed.

Lemma builds_differ_witness :
  (exec (accept false id 3) no_accept).1.1 = (-1, EMFILE) ∧
  (exec (accept true id 3) no_accept).1.1 = (-1, EBADF) ∧
  made 3 (λ s, cloexec s = false ∧ (granted valgrind_run.1.2 → nonblock s = true))
    (table no_accept) (table valgrind_run.2).
Proof.
  destruct (builds_differ id true AF_INET 3 valgrind_run.1.2 3 (-1) EMFILE no_accept valgrind_run.2
    no_accept no_accept valgrind_run_ok eq_refl eq_refl eq_refl) as (H1 & H2 & H3).
  exact (conj H2 (conj H3 H1)).
Defined.

Definition demo_info : tcp_info := mkTcpInfo 3 204000 40000 1448 536 0 1 123 61 2147483647 10 255.

Lemma tcp_info_readable_witness :
  in_range demo_info ∧
  TcpConnection_getTcpInfoString 0 demo_info =
    "unrecovered=3 rto=204000 ato=40000 snd_mss=1448 rcv_mss=536 lost=0 retrans=1 rtt=123 rttvar=61 sshthresh=2147483647 cwnd=10 total_retrans=255"%string ∧
  scan_u (pieces info_format) (TcpConnection_getTcpInfoString 0 demo_info) = Some (info_fields demo_info).
Proof.
  assert (in_range demo_info) as Hr.
  { split; [by vm_compute|]. by repeat (apply Forall_cons; split; [by vm_compute|]). }
  split; [exact Hr|]. split; [vm_compute; reflexivity|].
  exact (proj2 (proj1 (proj2 (tcp_info_readable 0 demo_info Hr)) eq_refl)).
Defined.
