(* ===== verification/TimerQueue.v ===== *)
(** [kaycc::net::Timer] and [kaycc::net::TimerQueue] ([src/net/timer.h],
    [src/net/timer.cpp], [src/net/timerqueue.h], [src/net/timerqueue.cpp]).

    [Timer] objects live in a heap.  The [std::set] of entries is the list of
    its elements in increasing order; the kernel's timer is what
    [timerfd_settime] was last told.  User callbacks are a parameter of
    [handleRead]; they reach the queue through [addTimer] and [cancel]. *)
From Stdlib Require Import Floats.SpecFloat.
From stdpp Require Import gmap sorting.
From S2P Require Import Prelude Channel Poller Timestamp.

Record Timer (CB : Type) := mkTimer {
  callback_ : CB;
  expiration_ : Timestamp;
  interval_ : double;
  repeat_ : bool;
  sequence_ : Z
}.
Arguments mkTimer {CB}. Arguments callback_ {CB}. Arguments expiration_ {CB}.
Arguments interval_ {CB}. Arguments repeat_ {CB}. Arguments sequence_ {CB}.

Abbreviation Entry := (Z * Ptr)%type.         (* std::pair<Timestamp, Timer*> *)
Abbreviation ActiveTimer := (Ptr * Z)%type.   (* std::pair<Timer*, int64_t> *)

(** struct timespec *)
Record timespec := mkTimespec { tv_sec : Z; tv_nsec : Z }.

Record TimerQueue (CB : Type) := mkQueue {
  heap : gmap Ptr (Timer CB);
  s_numCreated_ : Z;
  timerfd_ : option (Timestamp * timespec);  (* when it was set, and to what *)
  timers_ : list Entry;
  activeTimers_ : gset ActiveTimer;
  callingExpiredTimers_ : bool;
  cancelingTimers_ : gset ActiveTimer
}.
Arguments mkQueue {CB}. Arguments heap {CB}. Arguments s_numCreated_ {CB}.
Arguments timerfd_ {CB}. Arguments timers_ {CB}. Arguments activeTimers_ {CB}.
Arguments callingExpiredTimers_ {CB}. Arguments cancelingTimers_ {CB}.

(** ** std::set<Entry> *)
(** [operator<] of [std::pair] *)
Definition entry_lt (a b : Entry) : bool :=
  (a.1 <? b.1) || (negb (b.1 <? a.1) && (a.2 <? b.2)).

(** [insert]: the set and whether the element is new. *)
Fixpoint set_insert (x : Entry) (l : list Entry) : list Entry * bool :=
  match l with
  | [] => ([x], true)
  | y :: l' =>
    if entry_lt x y then (x :: l, true)
    else if entry_lt y x then let '(l'', b) := set_insert x l' in (y :: l'', b)
    else (l, false)
  end.

(** [erase(key)]: the set and the number of elements removed. *)
Fixpoint set_erase (x : Entry) (l : list Entry) : list Entry * Z :=
  match l with
  | [] => ([], 0)
  | y :: l' =>
    if entry_lt y x then let '(l'', n) := set_erase x l' in (y :: l'', n)
    else if entry_lt x y then (l, 0)
    else (l', 1)
  end.

(** The elements before [lower_bound(x)], and the others. *)
Fixpoint lower_bound (x : Entry) (l : list Entry) : list Entry * list Entry :=
  match l with
  | [] => ([], [])
  | y :: l' => if entry_lt y x then let '(a, b) := lower_bound x l' in (y :: a, b) else ([], l)
  end.

(** ** The operations *)
Section TimerQueue.
Context {CB : Type}.
Implicit Types (q : TimerQueue CB) (t : Timer CB).

Definition set_heap h q : TimerQueue CB := mkQueue h (s_numCreated_ q) (timerfd_ q) (timers_ q) (activeTimers_ q)
  (callingExpiredTimers_ q) (cancelingTimers_ q).
Definition set_timerfd f q : TimerQueue CB := mkQueue (heap q) (s_numCreated_ q) f (timers_ q) (activeTimers_ q)
  (callingExpiredTimers_ q) (cancelingTimers_ q).
Definition set_timers l q : TimerQueue CB := mkQueue (heap q) (s_numCreated_ q) (timerfd_ q) l (activeTimers_ q)
  (callingExpiredTimers_ q) (cancelingTimers_ q).
Definition set_active a q : TimerQueue CB := mkQueue (heap q) (s_numCreated_ q) (timerfd_ q) (timers_ q) a
  (callingExpiredTimers_ q) (cancelingTimers_ q).
Definition set_calling b q : TimerQueue CB := mkQueue (heap q) (s_numCreated_ q) (timerfd_ q) (timers_ q)
  (activeTimers_ q) b (cancelingTimers_ q).
Definition set_canceling a q : TimerQueue CB := mkQueue (heap q) (s_numCreated_ q) (timerfd_ q) (timers_ q)
  (activeTimers_ q) (callingExpiredTimers_ q) a.

(** [TimerQueue::TimerQueue]; no timer was created before. *)
Definition TimerQueue_ctor : TimerQueue CB := mkQueue ∅ 0 None [] ∅ false ∅.

Definition get_timer (p : Ptr) q : outcome (Timer CB) :=
  match heap q !! p with Some t => Ok t | None => Fail UB end.

(** [assert(timers_.size() == activeTimers_.size())] *)
Definition sizes_agree (q : TimerQueue CB) : bool := sz (timers_ q) =? Z.of_nat (size (activeTimers_ q)).

(** The constructor [Timer::Timer], at the address [new] returned. *)
Definition new_timer (p : Ptr) (cb : CB) (when : Timestamp) (interval : double) q
    : outcome (TimerQueue CB) :=
  '(seq, created) ← incrementAndGet 64 (s_numCreated_ q);
  let t := mkTimer cb when interval (positive interval) seq in
  Ok (mkQueue (<[p := t]> (heap q)) created (timerfd_ q) (timers_ q) (activeTimers_ q)
        (callingExpiredTimers_ q) (cancelingTimers_ q)).

(** [Timer::restart] *)
Definition restart (now : Timestamp) t : outcome (Timer CB) :=
  e ← (if repeat_ t then addTime now (interval_ t) else Ok invalid);
  Ok (mkTimer (callback_ t) e (interval_ t) (repeat_ t) (sequence_ t)).

(** [howMuchTimeFromNow], at clock [now] *)
Definition howMuchTimeFromNow (now when : Timestamp) : outcome timespec :=
  microseconds ← i64 (when - now);
  let microseconds := if microseconds <? 100 then 100 else microseconds in
  Ok (mkTimespec (Z.quot microseconds kMicroSecondsPerSecond)
                 (Z.rem microseconds kMicroSecondsPerSecond * 1000)).

Definition resetTimerfd (now expiration : Timestamp) q : outcome (TimerQueue CB) :=
  ts ← howMuchTimeFromNow now expiration;
  Ok (set_timerfd (Some (now, ts)) q).

(** A successful read leaves a one-shot timerfd disarmed. *)
Definition readTimerfd q : TimerQueue CB := set_timerfd None q.

Definition insert (in_loop : bool) (timer : Ptr) q : outcome (bool * TimerQueue CB) :=
  _ ← assertInLoopThread in_loop;
  assert! sizes_agree q;;
  t ← get_timer timer q;
  let when := expiration_ t in
  let earliestChanged := match timers_ q with [] => true | e :: _ => when <? e.1 end in
  let '(l, fresh) := set_insert (when, timer) (timers_ q) in
  assert! fresh;;
  assert! negb (bool_decide ((timer, sequence_ t) ∈ activeTimers_ q));;
  let q := set_active ({[ (timer, sequence_ t) ]} ∪ activeTimers_ q) (set_timers l q) in
  assert! sizes_agree q;;
  Ok (earliestChanged, q).

Definition addTimerInLoop (in_loop : bool) (now : Timestamp) (timer : Ptr) q
    : outcome (TimerQueue CB) :=
  _ ← assertInLoopThread in_loop;
  '(earliestChanged, q) ← insert in_loop timer q;
  if earliestChanged : bool then
    t ← get_timer timer q;
    resetTimerfd now (expiration_ t) q
  else Ok q.

Definition cancelInLoop (in_loop : bool) (timer : ActiveTimer) q : outcome (TimerQueue CB) :=
  _ ← assertInLoopThread in_loop;
  assert! sizes_agree q;;
  q ← (if bool_decide (timer ∈ activeTimers_ q) then
         t ← get_timer timer.1 q;
         let '(l, n) := set_erase (expiration_ t, timer.1) (timers_ q) in
         assert! n =? 1;;
         Ok (set_active (activeTimers_ q ∖ {[ timer ]})
               (set_heap (delete timer.1 (heap q)) (set_timers l q)))
       else if callingExpiredTimers_ q then
         Ok (set_canceling ({[ timer ]} ∪ cancelingTimers_ q) q)
       else Ok q);
  assert! sizes_agree q;;
  Ok q.

(** The loop of [getExpired] over the expired entries. *)
Fixpoint erase_active (expired : list Entry) q : outcome (TimerQueue CB) :=
  match expired with
  | [] => Ok q
  | e :: expired' =>
    t ← get_timer e.2 q;
    assert! bool_decide ((e.2, sequence_ t) ∈ activeTimers_ q);;
    erase_active expired' (set_active (activeTimers_ q ∖ {[ (e.2, sequence_ t) ]}) q)
  end.

(** timerqueue.cpp redefines [UINTPTR_MAX] to 2^32 - 1. *)
Definition UINTPTR_MAX : Z := 4294967295.

Definition getExpired (now : Timestamp) q : outcome (list Entry * TimerQueue CB) :=
  assert! sizes_agree q;;
  let sentry := (now, UINTPTR_MAX) in
  let '(expired, rest) := lower_bound sentry (timers_ q) in
  assert! (match rest with [] => true | e :: _ => now <? e.1 end);;
  q ← erase_active expired (set_timers rest q);
  assert! sizes_agree q;;
  Ok (expired, q).

(** The loop of [reset] over the expired entries. *)
Fixpoint reset_each (in_loop : bool) (expired : list Entry) (now : Timestamp) q
    : outcome (TimerQueue CB) :=
  match expired with
  | [] => Ok q
  | e :: expired' =>
    t ← get_timer e.2 q;
    q ← (if repeat_ t && negb (bool_decide ((e.2, sequence_ t) ∈ cancelingTimers_ q)) then
           t ← restart now t;
           '(_, q) ← insert in_loop e.2 (set_heap (<[e.2 := t]> (heap q)) q);
           Ok q
         else Ok (set_heap (delete e.2 (heap q)) q));
    reset_each in_loop expired' now q
  end.

(** [reset]; [clock] is the time [resetTimerfd] reads. *)
Definition reset (in_loop : bool) (expired : list Entry) (now clock : Timestamp) q
    : outcome (TimerQueue CB) :=
  q ← reset_each in_loop expired now q;
  nextExpire ← match timers_ q with
               | [] => Ok invalid
               | e :: _ => t ← get_timer e.2 q; Ok (expiration_ t)
               end;
  if valid nextExpire then resetTimerfd clock nextExpire q else Ok q.

Section HandleRead.
(** [call cb q]: running a callback, which may use the queue. *)
Context (call : CB → TimerQueue CB → outcome (TimerQueue CB)).

Fixpoint run_each (expired : list Entry) q : outcome (TimerQueue CB) :=
  match expired with
  | [] => Ok q
  | e :: expired' => t ← get_timer e.2 q; q ← call (callback_ t) q; run_each expired' q
  end.

Definition handleRead (in_loop : bool) (now clock : Timestamp) q : outcome (TimerQueue CB) :=
  _ ← assertInLoopThread in_loop;
  '(expired, q) ← getExpired now (readTimerfd q);
  let q := set_canceling ∅ (set_calling true q) in
  q ← run_each expired q;
  reset in_loop expired now clock (set_calling false q).
End HandleRead.

(** [addTimer] and [cancel] as a call from the loop's own thread: [runInLoop]
    runs the functor at once.  From another thread the two halves happen apart;
    see [tq_step]. *)
Definition addTimer (p : Ptr) (cb : CB) (when : Timestamp) (interval : double) (now : Timestamp) q
    : outcome (ActiveTimer * TimerQueue CB) :=
  q ← new_timer p cb when interval q;
  t ← get_timer p q;
  q ← addTimerInLoop true now p q;
  Ok ((p, sequence_ t), q).
Definition cancel (timerId : ActiveTimer) q : outcome (TimerQueue CB) := cancelInLoop true timerId q.
End TimerQueue.

(** ** Sorted sets of entries *)
Lemma entry_lt_spec a b : entry_lt a b = true ↔ a.1 < b.1 ∨ (a.1 = b.1 ∧ a.2 < b.2).
Proof.
  unfold entry_lt. rewrite orb_true_iff, andb_true_iff, negb_true_iff.
  rewrite !Z.ltb_lt, Z.ltb_ge. lia.
Qed.

Lemma entry_lt_false a b : entry_lt a b = false ↔ b = a ∨ entry_lt b a = true.
Proof.
  rewrite <-not_true_iff_false, !entry_lt_spec. destruct a as [a1 a2], b as [b1 b2]; simpl.
  destruct (decide (a1 = b1)), (decide (a2 = b2)); split; intros; try (left; congruence);
    try (right; lia); destruct H as [[= -> ->]|?]; lia.
Qed.

Lemma entry_lt_trans a b c : entry_lt a b = true → entry_lt b c = true → entry_lt a c = true.
Proof. rewrite !entry_lt_spec. lia. Qed.

Definition sorted : list Entry → Prop := StronglySorted (λ a b, entry_lt a b = true).

Lemma set_insert_spec x l : sorted l → x ∉ l →
  (set_insert x l).2 = true ∧ sorted (set_insert x l).1 ∧ (set_insert x l).1 ≡ₚ x :: l.
Proof.
  induction l as [|y l IH]; intros Hs Hx; simpl.
  { split_and!; [done| |done]. by repeat constructor. }
  apply StronglySorted_inv in Hs as [Hs Hy]. apply not_elem_of_cons in Hx as [Hxy Hx].
  destruct (entry_lt x y) eqn:Exy; simpl.
  { split_and!; [done| |done]. repeat (constructor; try done).
    eapply Forall_impl; [exact Hy|]. intros z Hz. by eapply entry_lt_trans. }
  apply entry_lt_false in Exy as [->|Eyx]; [done|]. rewrite Eyx.
  destruct (IH Hs Hx) as (E & Hs' & Hp). destruct (set_insert x l) as [l' b]; simpl in *. subst b.
  split_and!; [done| |].
  - constructor; [done|]. rewrite Hp. by constructor.
  - rewrite Hp. constructor.
Qed.

Lemma set_erase_spec x l : sorted l → x ∈ l →
  (set_erase x l).2 = 1 ∧ sorted (set_erase x l).1 ∧ l ≡ₚ x :: (set_erase x l).1.
Proof.
  induction l as [|y l IH]; intros Hs Hx; simpl; [by apply not_elem_of_nil in Hx|].
  apply StronglySorted_inv in Hs as [Hs Hy]. apply elem_of_cons in Hx as [->|Hx].
  - assert (entry_lt y y = false) as -> by (apply entry_lt_false; by left). done.
  - assert (entry_lt y x = true) as -> by exact (proj1 (Forall_forall _ l) Hy x Hx).
    destruct (IH Hs Hx) as (E & Hs' & Hp). destruct (set_erase x l) as [l' n]; simpl in *. subst n.
    split_and!; [done| |].
    + constructor; [done|]. rewrite Hp in Hy. by apply Forall_cons in Hy as [_ ?].
    + rewrite Hp at 1. constructor.
Qed.

Lemma lower_bound_spec x l : sorted l →
  l = (lower_bound x l).1 ++ (lower_bound x l).2 ∧
  Forall (λ y, entry_lt y x = true) (lower_bound x l).1 ∧
  Forall (λ y, entry_lt y x = false) (lower_bound x l).2.
Proof.
  induction l as [|y l IH]; intros Hs; simpl; [done|].
  apply StronglySorted_inv in Hs as [Hs Hy]. destruct (entry_lt y x) eqn:E; simpl.
  - destruct (IH Hs) as (Hl & Ha & Hb). destruct (lower_bound x l) as [a b]; simpl in *.
    split_and!; [by rewrite Hl at 1|by constructor|done].
  - split_and!; [done|done|]. constructor; [done|]. eapply Forall_impl; [exact Hy|]. intros z Hz.
    destruct (entry_lt z x) eqn:Ez; [|done]. rewrite (entry_lt_trans y z x) in E; done.
Qed.

Lemma sorted_app l1 l2 : sorted (l1 ++ l2) → sorted l1 ∧ sorted l2.
Proof.
  induction l1 as [|x l1 IH]; simpl; intros Hs; [by split; [constructor|]|].
  apply StronglySorted_inv in Hs as [Hs Hx]. destruct (IH Hs). split; [|done].
  constructor; [done|]. by apply Forall_app in Hx as [? _].
Qed.

Lemma sorted_head x l y : sorted (x :: l) → y ∈ x :: l → x.1 ≤ y.1.
Proof.
  intros [_ Hx]%StronglySorted_inv [->|Hy]%elem_of_cons; [done|].
  pose proof (proj1 (Forall_forall _ l) Hx y Hy) as H. simpl in H. apply entry_lt_spec in H. lia.
Qed.

(** ** Consistency of the two sets and the heap *)
Section Inv.
Context {CB : Type}.
Implicit Types (q : TimerQueue CB) (t : Timer CB).

Record consistent q : Prop := {
  inv_sorted : sorted (timers_ q);
  inv_nodup : NoDup (timers_ q).*2;
  inv_timers : ∀ e p, (e, p) ∈ timers_ q → ∃ t, heap q !! p = Some t ∧ expiration_ t = e;
  inv_active : ∀ p s, (p, s) ∈ activeTimers_ q ↔
    ∃ t, heap q !! p = Some t ∧ sequence_ t = s ∧ (expiration_ t, p) ∈ timers_ q
}.

Definition scheduled q (p : Ptr) : Prop := p ∈ (timers_ q).*2.

#[export] Instance scheduled_dec q p : Decision (scheduled q p) := decide (p ∈ (timers_ q).*2).

Lemma scheduled_entry q p : scheduled q p ↔ ∃ e, (e, p) ∈ timers_ q.
Proof.
  unfold scheduled. rewrite list_elem_of_fmap. split.
  - intros ([e p'] & -> & ?). eauto.
  - intros [e ?]. by exists (e, p).
Qed.

Lemma sizes_agree_ok q : consistent q → sizes_agree q = true.
Proof.
  intros [Hs Hn Ht Ha]. unfold sizes_agree. apply Z.eqb_eq.
  set (f := λ e : Entry, (e.2, default 0 (sequence_ <$> heap q !! e.2))).
  assert (activeTimers_ q = list_to_set (f <$> timers_ q)) as ->.
  { apply set_eq. intros [p s]. rewrite elem_of_list_to_set, Ha, list_elem_of_fmap. split.
    - intros (t & Hp & <- & Hin). exists (expiration_ t, p). split; [|done].
      unfold f. simpl. by rewrite Hp.
    - intros ([e p'] & [= -> ->] & Hin). destruct (Ht _ _ Hin) as (t & Hp & <-). exists t.
      simpl. by rewrite Hp. }
  rewrite size_list_to_set; [unfold sz; by rewrite length_fmap|].
  apply (NoDup_fmap_1 fst). rewrite <-list_fmap_compose. exact Hn.
Qed.

Lemma active_scheduled q p s : consistent q → (p, s) ∈ activeTimers_ q → scheduled q p.
Proof. intros Hc (t & _ & _ & Hin)%(inv_active q Hc). apply scheduled_entry. eauto. Qed.

Lemma same_time_entry q e p t :
  consistent q → (e, p) ∈ timers_ q → heap q !! p = Some t → e = expiration_ t.
Proof. intros Hc Hin Hp. destruct (inv_timers q Hc _ _ Hin) as (? & ? & <-). congruence. Qed.

(** [insert] of a timer that is not scheduled. *)
Lemma insert_ok q p t :
  consistent q → heap q !! p = Some t → ¬ scheduled q p →
  ∃ l', insert true p q =
    Ok (match timers_ q with [] => true | e :: _ => expiration_ t <? e.1 end,
        set_active ({[ (p, sequence_ t) ]} ∪ activeTimers_ q) (set_timers l' q)) ∧
    l' ≡ₚ (expiration_ t, p) :: timers_ q ∧
    consistent (set_active ({[ (p, sequence_ t) ]} ∪ activeTimers_ q) (set_timers l' q)).
Proof.
  intros Hc Hp Hns. pose proof (sizes_agree_ok q Hc) as Hsz.
  assert ((expiration_ t, p) ∉ timers_ q) as Hni.
  { intros Hin. apply Hns, scheduled_entry. eauto. }
  destruct (set_insert_spec _ _ (inv_sorted q Hc) Hni) as (E & Hs' & Hperm).
  destruct (set_insert (expiration_ t, p) (timers_ q)) as [l' b] eqn:Ei; simpl in *. subst b.
  exists l'. set (q' := set_active _ _).
  assert (consistent q') as Hc'.
  { destruct Hc as [Hs Hn Ht Ha]. split; unfold q'; simpl; [done|..].
    - rewrite Hperm. csimpl. constructor; done.
    - intros e p' Hin. rewrite Hperm in Hin. apply elem_of_cons in Hin as [[= -> ->]|Hin]; eauto.
    - intros p' s. rewrite elem_of_union, elem_of_singleton, Ha. setoid_rewrite Hperm.
      setoid_rewrite elem_of_cons. split.
      + intros [[= -> ->]|(t' & ? & ? & ?)]; eauto 10.
      + intros (t' & Ht' & <- & [[= _ ->]|Hin]); [left; congruence|eauto 10]. }
  split; [|done]. unfold insert. cbn [mbind outcome_bind assertInLoopThread]. rewrite Hsz.
  unfold get_timer. rewrite Hp. cbn [mbind outcome_bind assert_]. rewrite Ei.
  rewrite (bool_decide_false (_ ∈ activeTimers_ q))
    by (intros ?; apply Hns; by eapply active_scheduled).
  cbn [mbind outcome_bind assert_ negb]. fold q'. by rewrite (sizes_agree_ok q' Hc').
Qed.

(** What the invariant does not look at. *)
Lemma consistent_ext q q' :
  heap q' = heap q → timers_ q' = timers_ q → activeTimers_ q' = activeTimers_ q →
  consistent q → consistent q'.
Proof. intros Eh Et Ea [Hs Hn Ht Ha]. split; rewrite ?Eh, ?Et; [done..|]. intros. by rewrite Ea, Ha. Qed.

(** Objects that are not scheduled come, change and go freely. *)
Lemma consistent_heap q h :
  consistent q → (∀ p, scheduled q p → h !! p = heap q !! p) → consistent (set_heap h q).
Proof.
  intros [Hs Hn Ht Ha] Hh. split; simpl; [done|done|..].
  - intros e p Hin. rewrite Hh by (apply scheduled_entry; eauto). eauto.
  - intros p s. rewrite Ha. split; intros (t & Hp & Es & Hin); exists t; split_and!; try done;
      [rewrite Hh|rewrite <-Hh]; try done; apply scheduled_entry; eauto.
Qed.

Lemma consistent_insert_heap q p t :
  consistent q → ¬ scheduled q p → consistent (set_heap (<[p := t]> (heap q)) q).
Proof.
  intros Hc Hns. apply consistent_heap; [done|]. intros p' Hp'.
  rewrite lookup_insert_ne; [done|]. by intros ->.
Qed.

Lemma consistent_delete_heap q p :
  consistent q → ¬ scheduled q p → consistent (set_heap (delete p (heap q)) q).
Proof.
  intros Hc Hns. apply consistent_heap; [done|]. intros p' Hp'.
  rewrite lookup_delete_ne; [done|]. by intros ->.
Qed.

Lemma scheduled_live q p : consistent q → scheduled q p → is_Some (heap q !! p).
Proof. intros Hc [e Hin]%scheduled_entry. destruct (inv_timers q Hc _ _ Hin) as (t & ? & _). eauto. Qed.

(** *** cancelInLoop *)
Lemma cancel_active q p s :
  consistent q → (p, s) ∈ activeTimers_ q →
  ∃ q', cancelInLoop true (p, s) q = Ok q' ∧ consistent q' ∧
    heap q' = delete p (heap q) ∧ ¬ scheduled q' p ∧
    (∀ e p', (e, p') ∈ timers_ q' ↔ (e, p') ∈ timers_ q ∧ p' ≠ p) ∧
    timerfd_ q' = timerfd_ q ∧ cancelingTimers_ q' = cancelingTimers_ q ∧
    callingExpiredTimers_ q' = callingExpiredTimers_ q ∧ s_numCreated_ q' = s_numCreated_ q.
Proof.
  intros Hc Hact. destruct (proj1 (inv_active q Hc p s) Hact) as (t & Hp & Hs & Hin).
  destruct (set_erase_spec _ _ (inv_sorted q Hc) Hin) as (E & Hsort & Hperm).
  destruct (set_erase (expiration_ t, p) (timers_ q)) as [l n] eqn:El; simpl in *. subst n.
  set (q' := set_active (activeTimers_ q ∖ {[ (p, s) ]}) (set_heap (delete p (heap q)) (set_timers l q))).
  assert (NoDup (p :: l.*2)) as [Hpl Hnd]%NoDup_cons.
  { pose proof (inv_nodup q Hc) as Hn. rewrite Hperm in Hn. exact Hn. }
  assert (∀ e p', (e, p') ∈ l ↔ (e, p') ∈ timers_ q ∧ p' ≠ p) as Hl.
  { intros e p'. rewrite Hperm, elem_of_cons. split.
    - intros Hinl. split; [auto|]. intros ->. apply Hpl. apply list_elem_of_fmap. by exists (e, p).
    - intros [[[= -> ->]|?] ?]; done. }
  assert (consistent q') as Hc'.
  { split; unfold q'; simpl; [done|done|..].
    - intros e p' [Hin' Hne]%Hl. rewrite lookup_delete_ne by done. by apply (inv_timers q Hc).
    - intros p' s'. rewrite elem_of_difference, elem_of_singleton, (inv_active q Hc). split.
      + intros [(t' & Ht' & Hs' & Hin') Hne]. exists t'.
        assert (p' ≠ p) by (intros ->; apply Hne; congruence).
        rewrite lookup_delete_ne, Hl by done. done.
      + intros (t' & [Hne Ht']%lookup_delete_Some & Hs' & [Hin' _]%Hl). split; [eauto|congruence]. }
  exists q'. split_and!; try done.
  unfold cancelInLoop. cbn [mbind outcome_bind assertInLoopThread]. rewrite (sizes_agree_ok q Hc).
  rewrite (bool_decide_true (_ ∈ _)) by done. unfold get_timer. cbn [fst]. rewrite Hp.
  cbn [mbind outcome_bind assert_]. rewrite El. cbn [mbind outcome_bind assert_ Z.eqb Pos.eqb].
  fold q'. by rewrite (sizes_agree_ok q' Hc').
Qed.

Lemma cancel_inactive q id :
  consistent q → id ∉ activeTimers_ q →
  cancelInLoop true id q =
    Ok (if callingExpiredTimers_ q then set_canceling ({[ id ]} ∪ cancelingTimers_ q) q else q).
Proof.
  intros Hc Hid. unfold cancelInLoop. cbn [mbind outcome_bind assertInLoopThread].
  rewrite (sizes_agree_ok q Hc), (bool_decide_false (id ∈ _)) by done.
  cbn [mbind outcome_bind assert_]. destruct (callingExpiredTimers_ q); cbn [mbind outcome_bind];
    rewrite sizes_agree_ok; done || by apply (consistent_ext q).
Qed.

(** *** addTimer *)
Lemma new_timer_ok q p cb when interval :
  consistent q → heap q !! p = None → 0 ≤ s_numCreated_ q < 2 ^ 63 - 1 →
  let t := mkTimer cb when interval (positive interval) (s_numCreated_ q + 1) in
  let q' := mkQueue (<[p := t]> (heap q)) (s_numCreated_ q + 1) (timerfd_ q) (timers_ q)
    (activeTimers_ q) (callingExpiredTimers_ q) (cancelingTimers_ q) in
  new_timer p cb when interval q = Ok q' ∧ consistent q' ∧ ¬ scheduled q' p.
Proof.
  intros Hc Hp Hb t q'.
  assert (¬ scheduled q p) as Hns by (intros [? ?]%scheduled_live; [congruence|done]).
  split_and!; [|by apply (consistent_ext (set_heap (<[p := t]> (heap q)) q));
    [..|apply consistent_insert_heap]|done].
  unfold new_timer. rewrite incrementAndGet_ok by lia. done.
Qed.

(** *** The kernel's timer *)
(** When a timerfd set at [start] to [ts] fires. *)
Definition fire_at (start : Timestamp) (ts : timespec) : Z :=
  start + tv_sec ts * kMicroSecondsPerSecond + tv_nsec ts / 1000.

(** The kernel will wake the loop in time for an expiration [e]: at [e], or
    100 microseconds after it was set. *)
Definition armed_for q (e : Timestamp) : Prop :=
  ∃ start ts, timerfd_ q = Some (start, ts) ∧ fire_at start ts ≤ Z.max e (start + 100).

Lemma armed_for_later q e e' : armed_for q e → e ≤ e' → armed_for q e'.
Proof. intros (start & ts & E & H) ?. exists start, ts. split; [done|lia]. Qed.

Lemma howMuchTimeFromNow_ok now when :
  in_signed 64 (when - now) → ∃ ts, howMuchTimeFromNow now when = Ok ts ∧
    fire_at now ts = Z.max when (now + 100) ∧ 0 ≤ tv_sec ts ∧ 0 ≤ tv_nsec ts < 10 ^ 9.
Proof.
  intros Hr. unfold howMuchTimeFromNow. rewrite i64_ok by done. cbn [mbind outcome_bind].
  set (us := if _ <? 100 then _ else _).
  assert (us = Z.max (when - now) 100) as Hus by (unfold us; destruct (Z.ltb_spec (when - now) 100); lia).
  eexists. split; [done|]. unfold fire_at, kMicroSecondsPerSecond; simpl.
  pose proof (Z.quot_rem' us 1000000). pose proof (Z.rem_bound_pos us 1000000).
  pose proof (Z.quot_pos us 1000000). rewrite Z.div_mul by lia. lia.
Qed.

Lemma resetTimerfd_ok now e q :
  in_signed 64 (e - now) → ∃ f, resetTimerfd now e q = Ok (set_timerfd f q) ∧
    armed_for (set_timerfd f q) e.
Proof.
  intros Hr. destruct (howMuchTimeFromNow_ok now e Hr) as (ts & E & Hf & _).
  exists (Some (now, ts)). unfold resetTimerfd. rewrite E. split; [done|].
  exists now, ts. split; [done|lia].
Qed.

Lemma addTimerInLoop_ok q p t now :
  consistent q → heap q !! p = Some t → ¬ scheduled q p → in_signed 64 (expiration_ t - now) →
  ∃ l' f, let q' := set_timerfd f (set_active ({[ (p, sequence_ t) ]} ∪ activeTimers_ q) (set_timers l' q)) in
    addTimerInLoop true now p q = Ok q' ∧ consistent q' ∧
    l' ≡ₚ (expiration_ t, p) :: timers_ q ∧
    (match timers_ q with [] => armed_for q' (expiration_ t)
     | e :: _ => if expiration_ t <? e.1 then armed_for q' (expiration_ t) else f = timerfd_ q end).
Proof.
  intros Hc Hp Hns Hr. destruct (insert_ok q p t Hc Hp Hns) as (l' & E & Hperm & Hc').
  set (q1 := set_active _ (set_timers l' q)) in *.
  destruct (resetTimerfd_ok now (expiration_ t) q1 Hr) as (f & Ef & Hf).
  set (earliest := match timers_ q with [] => true | e :: _ => expiration_ t <? e.1 end) in *.
  exists l', (if earliest then f else timerfd_ q). split_and!; [|by eapply consistent_ext; [..|exact Hc']|done|].
  - unfold addTimerInLoop. cbn [mbind outcome_bind assertInLoopThread]. rewrite E.
    cbn [mbind outcome_bind]. destruct earliest; [|by destruct q].
    unfold get_timer. change (heap q1) with (heap q). rewrite Hp. cbn [mbind outcome_bind]. exact Ef.
  - unfold earliest. destruct (timers_ q); [done|]. by destruct (_ <? _).
Qed.

(** Every scheduled timer that satisfies [P] is covered by the kernel's. *)
Definition armed (P : Z → Prop) q : Prop := ∀ e p, (e, p) ∈ timers_ q → P e → armed_for q e.

Lemma addTimerInLoop_armed (P : Z → Prop) q q' p t now :
  (∀ e e', P e' → e ≤ e' → P e) →
  consistent q → heap q !! p = Some t → ¬ scheduled q p → in_signed 64 (expiration_ t - now) →
  addTimerInLoop true now p q = Ok q' → armed P q → armed P q'.
Proof.
  intros HP Hc Hp Hns Hr E Ha. destruct (addTimerInLoop_ok q p t now Hc Hp Hns Hr) as (l' & f & E' & Hc' & Hperm & Hf).
  rewrite E in E'. injection E' as ->. intros e' p' Hin HPe. cbn in Hin. rewrite Hperm in Hin.
  set (q' := set_timerfd _ _) in *.
  destruct (timers_ q) as [|[e1 p1] l] eqn:El.
  - apply list_elem_of_singleton in Hin as [= -> ->]. done.
  - assert (∀ e2 p2, (e2, p2) ∈ (e1, p1) :: l → e1 ≤ e2) as Hhead.
    { intros e2 p2 H2. pose proof (inv_sorted q Hc) as Hs. rewrite El in Hs.
      exact (sorted_head _ _ _ Hs H2). }
    destruct (Z.ltb_spec (expiration_ t) (e1, p1).1) as [Hlt|Hge]; simpl in Hf, Hlt || simpl in Hf, Hge.
    + apply (armed_for_later _ _ _ Hf). apply elem_of_cons in Hin as [[= -> ->]|Hin]; [done|].
      specialize (Hhead _ _ Hin). lia.
    + assert (P e1 → armed_for q' e1) as H1.
      { intros HP1. destruct (Ha e1 p1) as (start & ts & Et & Hfire); [rewrite El; apply elem_of_cons; by left|done|].
        exists start, ts. split; [by rewrite <-Et, <-Hf|done]. }
      assert (e1 ≤ e').
      { apply elem_of_cons in Hin as [[= -> ->]|Hin]; [done|]. exact (Hhead e' p' Hin). }
      apply (armed_for_later _ e1); [eauto|done].
Qed.

(** ** What callbacks and the loop's other code do with the queue *)
Inductive tq_api : TimerQueue CB → TimerQueue CB → Prop :=
  | ApiAdd q p cb when interval now id q' :
      heap q !! p = None → 0 ≤ s_numCreated_ q < 2 ^ 63 - 1 →
      in_signed 64 when → in_signed 64 (when - now) →
      addTimer p cb when interval now q = Ok (id, q') → tq_api q q'
  | ApiCancel q id q' : cancel id q = Ok q' → tq_api q q'.

Definition low (e : Z) : Prop := e ≤ 0.

(** A call keeps consistency, and timers that are not scheduled: those of
    the running batch and those still on their way to the loop. *)
Lemma tq_api_frame q q' : tq_api q q' → consistent q →
  consistent q' ∧ callingExpiredTimers_ q' = callingExpiredTimers_ q ∧
  (∀ p t, heap q !! p = Some t → ¬ scheduled q p → heap q' !! p = Some t ∧ ¬ scheduled q' p) ∧
  (∀ p, is_Some (heap q' !! p) → scheduled q' p ∨ (is_Some (heap q !! p) ∧ ¬ scheduled q p)) ∧
  ∀ P, (∀ e e', P e' → e ≤ e' → P e) → armed P q → armed P q'.
Proof.
  intros Hapi Hc. destruct Hapi as [q p cb when interval now id q' Hp Hb _ Hr E|q [p s] q' E].
  - destruct (new_timer_ok q p cb when interval Hc Hp Hb) as (E1 & Hc1 & Hns1).
    unfold addTimer in E. rewrite E1 in E. set (q1 := mkQueue _ _ _ _ _ _ _) in *.
    set (t := mkTimer cb when interval _ _) in *.
    assert (heap q1 !! p = Some t) as Hp1 by apply lookup_insert_eq.
    cbn [mbind outcome_bind] in E. unfold get_timer in E. rewrite Hp1 in E. cbn [mbind outcome_bind] in E.
    destruct (addTimerInLoop_ok q1 p t now Hc1 Hp1 Hns1 Hr) as (l' & f & E2 & Hc2 & Hperm & _).
    pose proof E2 as E3. rewrite E2 in E. cbn [mbind outcome_bind] in E. injection E as <- <-.
    assert (∀ p', scheduled (set_timerfd f (set_active ({[ (p, sequence_ t) ]} ∪ activeTimers_ q1) (set_timers l' q1))) p'
      ↔ p' = p ∨ scheduled q p') as Hsch.
    { intros p'. unfold scheduled. cbn. rewrite Hperm. csimpl. by rewrite elem_of_cons. }
    split_and!; [done|done| | |].
    + intros p' t' Hp' Hns'. assert (p' ≠ p) by congruence.
      split; [by apply lookup_insert_Some; right|]. by intros [?|?]%Hsch.
    + intros p' Hp'. destruct (decide (p' = p ∨ scheduled q p')) as [Hd|Hd]; [left; by apply Hsch|].
      right. cbn in Hp'. rewrite lookup_insert_ne in Hp' by (intros ->; tauto). split; [done|tauto].
    + intros P HP Ha. by apply (addTimerInLoop_armed P q1 _ p t now HP Hc1 Hp1 Hns1 Hr E3).
  - unfold cancel in E. destruct (decide ((p, s) ∈ activeTimers_ q)) as [Hact|Hact].
    + destruct (cancel_active q p s Hc Hact) as (q2 & E2 & Hc2 & Hh & Hns & Ht & Hf & Hcc & Hca & _).
      rewrite E2 in E. injection E as <-. pose proof (active_scheduled q p s Hc Hact) as Hsp.
      assert (∀ p', scheduled q2 p' ↔ scheduled q p' ∧ p' ≠ p) as Hsch.
      { intros p'. rewrite !scheduled_entry. setoid_rewrite Ht. split.
        - by intros (e & ? & ?); eauto.
        - intros [[e ?] ?]. eauto. }
      split_and!; [done|done| | |].
      * intros p' t' Hp' Hns'. rewrite Hh, lookup_delete_ne by (intros <-; done).
        split; [done|]. rewrite Hsch. tauto.
      * intros p' [t' Hp']. rewrite Hh in Hp'. apply lookup_delete_Some in Hp' as [Hne Hp'].
        rewrite Hsch. destruct (decide (scheduled q p')); [by left|right; eauto].
      * intros P _ Ha e p' [Hin _]%Ht HP. destruct (Ha e p' Hin HP) as (start & ts & Et & ?).
        exists start, ts. by rewrite Hf.
    + rewrite (cancel_inactive q (p, s) Hc Hact) in E. injection E as <-.
      destruct (callingExpiredTimers_ q) eqn:Ecalling; split_and!; try done;
        try (by apply (consistent_ext q)); intros p' Hp';
        destruct (decide (scheduled q p')); auto.
Qed.

(** *** getExpired *)
Lemma erase_active_ok expired : ∀ q,
  NoDup expired.*2 →
  (∀ e p, (e, p) ∈ expired → ∃ t, heap q !! p = Some t ∧ (p, sequence_ t) ∈ activeTimers_ q) →
  (∀ p s, (p, s) ∈ activeTimers_ q → ∃ t, heap q !! p = Some t ∧ sequence_ t = s) →
  ∃ a, erase_active expired q = Ok (set_active a q) ∧
    ∀ p s, (p, s) ∈ a ↔ (p, s) ∈ activeTimers_ q ∧ p ∉ expired.*2.
Proof.
  induction expired as [|[e p] expired IH]; intros q Hn He Hseq; simpl.
  { exists (activeTimers_ q). split; [by destruct q|]. intros p s. split; [|by intros [? _]].
    intros ?. split; [done|apply not_elem_of_nil]. }
  csimpl in Hn. apply NoDup_cons in Hn as [Hp Hn].
  destruct (He e p) as (t & Ht & Hact); [apply elem_of_cons; by left|].
  unfold get_timer. simpl. rewrite Ht. cbn [mbind outcome_bind].
  rewrite bool_decide_true by done. cbn [mbind outcome_bind assert_].
  set (q1 := set_active (activeTimers_ q ∖ {[ (p, sequence_ t) ]}) q).
  destruct (IH q1 Hn) as (a & E & Ha).
  - intros e' p' Hin. destruct (He e' p') as (t' & Ht' & Hact'); [apply elem_of_cons; by right|].
    exists t'. split; [done|]. cbn. apply elem_of_difference. split; [done|].
    intros [= -> _]%elem_of_singleton. apply Hp, list_elem_of_fmap. by exists (e', p).
  - intros p' s' Hin. cbn in Hin. apply elem_of_difference in Hin as [Hin _]. by apply Hseq.
  - exists a. split; [exact E|]. intros p' s'. rewrite Ha. cbn.
    rewrite elem_of_difference, elem_of_singleton, not_elem_of_cons. split.
    + intros [[Hin Hne] Hni]. split_and!; [done| |done]. intros ->. apply Hne.
      destruct (Hseq _ _ Hin) as (t' & Ht' & <-). congruence.
    + intros (Hin & Hne & Hni). split; [|done]. split; [done|]. congruence.
Qed.

(** No timer expires in the very microsecond [now] at an address beyond the
    sentry's. *)
Definition no_tie (now : Timestamp) q : Prop := ∀ p, (now, p) ∈ timers_ q → p < UINTPTR_MAX.

Lemma lower_bound_split now q :
  consistent q → no_tie now q →
  timers_ q = (lower_bound (now, UINTPTR_MAX) (timers_ q)).1 ++
              (lower_bound (now, UINTPTR_MAX) (timers_ q)).2 ∧
  (∀ e p, (e, p) ∈ (lower_bound (now, UINTPTR_MAX) (timers_ q)).1 → e ≤ now) ∧
  (∀ e p, (e, p) ∈ (lower_bound (now, UINTPTR_MAX) (timers_ q)).2 → now < e).
Proof.
  intros Hc Htie. destruct (lower_bound_spec (now, UINTPTR_MAX) _ (inv_sorted q Hc)) as (Hl & Ha & Hb).
  split_and!; [done|..].
  - intros e p Hin. pose proof (proj1 (Forall_forall _ _) Ha _ Hin) as H. simpl in H.
    apply entry_lt_spec in H. simpl in H. lia.
  - intros e p Hin. pose proof (proj1 (Forall_forall _ _) Hb _ Hin) as H. simpl in H.
    apply entry_lt_false in H.
    assert ((e, p) ∈ timers_ q) as Hin' by (rewrite Hl; apply elem_of_app; by right).
    destruct H as [[= -> <-]|H].
    + specialize (Htie _ Hin'). lia.
    + apply entry_lt_spec in H. simpl in H. destruct H as [?|[-> ?]]; [done|].
      specialize (Htie _ Hin'). lia.
Qed.

Lemma getExpired_ok now q :
  consistent q → no_tie now q →
  ∃ expired q', getExpired now q = Ok (expired, q') ∧
    timers_ q = expired ++ timers_ q' ∧
    (∀ e p, (e, p) ∈ expired → e ≤ now) ∧ (∀ e p, (e, p) ∈ timers_ q' → now < e) ∧
    NoDup expired.*2 ∧ consistent q' ∧
    heap q' = heap q ∧ (∀ e p, (e, p) ∈ expired → ¬ scheduled q' p) ∧
    timerfd_ q' = timerfd_ q ∧ s_numCreated_ q' = s_numCreated_ q.
Proof.
  intros Hc Htie. destruct (lower_bound_split now q Hc Htie) as (Hl & Ha & Hb).
  unfold getExpired. rewrite (sizes_agree_ok q Hc). cbn [mbind outcome_bind assert_].
  destruct (lower_bound (now, UINTPTR_MAX) (timers_ q)) as [expired rest] eqn:El; simpl in *.
  assert (match rest with [] => true | e :: _ => now <? e.1 end = true) as ->.
  { destruct rest as [|[e p] rest]; [done|]. apply Z.ltb_lt, (Hb e p), elem_of_cons. by left. }
  cbn [mbind outcome_bind assert_].
  pose proof (inv_nodup q Hc) as Hn. rewrite Hl, fmap_app in Hn.
  apply NoDup_app in Hn as (Hne & Hdisj & Hnr).
  destruct (erase_active_ok expired (set_timers rest q) Hne) as (a & E & Hact).
  - intros e p Hin. assert ((e, p) ∈ timers_ q) as Hin' by (rewrite Hl; apply elem_of_app; by left).
    destruct (inv_timers q Hc _ _ Hin') as (t & Ht & <-). exists t. split; [done|].
    apply (inv_active q Hc). eauto.
  - intros p s (t & ? & ? & _)%(inv_active q Hc). eauto.
  - set (q' := set_active a (set_timers rest q)).
    assert (consistent q') as Hc'.
    { split; unfold q'; simpl.
      - pose proof (inv_sorted q Hc) as Hs. rewrite Hl in Hs. by apply sorted_app in Hs as [_ ?].
      - done.
      - intros e p Hin. apply (inv_timers q Hc). rewrite Hl. apply elem_of_app. by right.
      - intros p s. rewrite Hact. cbn. rewrite (inv_active q Hc). split.
        + intros [(t & Ht & Hs & Hin) Hni]. exists t. split_and!; try done.
          rewrite Hl in Hin. apply elem_of_app in Hin as [Hin|?]; [|done].
          destruct Hni. apply list_elem_of_fmap. by exists (expiration_ t, p).
        + intros (t & Ht & Hs & Hin). split.
          * exists t. split_and!; try done. rewrite Hl. apply elem_of_app. by right.
          * intros Hin'. apply (Hdisj _ Hin'). apply list_elem_of_fmap. by exists (expiration_ t, p). }
    rewrite E. cbn [mbind outcome_bind]. fold q'. rewrite (sizes_agree_ok q' Hc').
    exists expired, q'. split_and!; try done.
    intros e p Hin. apply Hdisj, list_elem_of_fmap. by exists (e, p).
Qed.

(** *** The expired batch *)
(** The batch's timers are live but not scheduled, and unchanged since [q0]. *)
Definition in_flight (q0 : TimerQueue CB) (l : list Entry) q : Prop :=
  ∀ e p, (e, p) ∈ l → ∃ t, heap q0 !! p = Some t ∧ heap q !! p = Some t ∧ ¬ scheduled q p.

Lemma rtc_api_frame q q' : rtc tq_api q q' → consistent q →
  consistent q' ∧ callingExpiredTimers_ q' = callingExpiredTimers_ q ∧
  (∀ p t, heap q !! p = Some t → ¬ scheduled q p → heap q' !! p = Some t ∧ ¬ scheduled q' p) ∧
  (∀ p, is_Some (heap q' !! p) → scheduled q' p ∨ (is_Some (heap q !! p) ∧ ¬ scheduled q p)) ∧
  ∀ P, (∀ e e', P e' → e ≤ e' → P e) → armed P q → armed P q'.
Proof.
  induction 1 as [q|q q1 q2 Hstep _ IH]; intros Hc.
  - split_and!; try done. intros p Hp. destruct (decide (scheduled q p)); auto.
  - destruct (tq_api_frame q q1 Hstep Hc) as (Hc1 & Hca1 & Hk1 & Hl1 & Ha1).
    destruct (IH Hc1) as (Hc2 & Hca2 & Hk2 & Hl2 & Ha2). split_and!; [done|congruence|..].
    + intros p t Hp Hns. destruct (Hk1 p t Hp Hns). by apply Hk2.
    + intros p [?|[Hp1 Hns1]]%Hl2; [by left|]. destruct (Hl1 p Hp1); [done|by right].
    + intros P HP Ha. apply Ha2, Ha1; done.
Qed.

(** Callbacks succeed, and touch the queue through its interface only. *)
Definition calls_use_api (call : CB → TimerQueue CB → outcome (TimerQueue CB)) : Prop :=
  ∀ cb q, consistent q → ∃ q', call cb q = Ok q' ∧ rtc tq_api q q'.

Lemma run_each_ok call expired : calls_use_api call → ∀ q q0,
  consistent q → in_flight q0 expired q → ∃ q', run_each call expired q = Ok q' ∧ rtc tq_api q q'.
Proof.
  intros Hcall. induction expired as [|[e p] expired IH]; intros q q0 Hc Hfl; simpl.
  { exists q. split; [done|apply rtc_refl]. }
  destruct (Hfl e p) as (t & _ & Ht & Hns); [apply elem_of_cons; by left|].
  unfold get_timer. simpl. rewrite Ht. cbn [mbind outcome_bind].
  destruct (Hcall (callback_ t) q Hc) as (q1 & E1 & Hrtc1). rewrite E1. cbn [mbind outcome_bind].
  destruct (rtc_api_frame q q1 Hrtc1 Hc) as (Hc1 & _ & Hk & _).
  destruct (IH q1 q0 Hc1) as (q2 & E2 & Hrtc2).
  - intros e' p' Hin. destruct (Hfl e' p') as (t' & ? & Ht' & Hns'); [apply elem_of_cons; by right|].
    exists t'. split; [done|]. by apply Hk.
  - exists q2. split; [done|]. by transitivity q1.
Qed.

(** *** reset *)
Definition again q (p : Ptr) t : bool :=
  repeat_ t && negb (bool_decide ((p, sequence_ t) ∈ cancelingTimers_ q)).

(** What [reset] does with one timer of the batch. *)
Definition restarted (now : Timestamp) q q' (p : Ptr) t : Prop :=
  if again q p t then
    ∃ t', restart now t = Ok t' ∧ heap q' !! p = Some t' ∧ scheduled q' p
  else heap q' !! p = None ∧ ¬ scheduled q' p.

Definition restartable (now : Timestamp) t : Prop :=
  repeat_ t = true → positive (interval_ t) = true ∧ is_ok (addTime now (interval_ t)) = true.

Lemma restart_ok now t : repeat_ t = true → restartable now t →
  ∃ e, restart now t = Ok (mkTimer (callback_ t) e (interval_ t) true (sequence_ t)) ∧
       addTime now (interval_ t) = Ok e.
Proof.
  intros Hr Hok. destruct (Hok Hr) as [_ Hok']. unfold restart. rewrite Hr.
  destruct (addTime now (interval_ t)) as [e|]; [|done]. by exists e.
Qed.

Lemma reset_one now q e p t :
  consistent q → heap q !! p = Some t → ¬ scheduled q p → restartable now t →
  ∃ q', reset_each true [(e, p)] now q = Ok q' ∧ consistent q' ∧ restarted now q q' p t ∧
    cancelingTimers_ q' = cancelingTimers_ q ∧ timerfd_ q' = timerfd_ q ∧
    callingExpiredTimers_ q' = callingExpiredTimers_ q ∧ s_numCreated_ q' = s_numCreated_ q ∧
    (∀ p', p' ≠ p → heap q' !! p' = heap q !! p') ∧
    (∀ e' p', (e', p') ∈ timers_ q' ↔ (e', p') ∈ timers_ q ∨
       (p' = p ∧ again q p t = true ∧ addTime now (interval_ t) = Ok e')).
Proof.
  intros Hc Ht Hns Hre. simpl. unfold get_timer. rewrite Ht. cbn [mbind outcome_bind].
  unfold restarted. fold (again q p t). destruct (again q p t) eqn:Ea.
  - apply andb_true_iff in Ea as [Hrep _]. destruct (restart_ok now t Hrep Hre) as (e' & E & Eadd).
    rewrite E. cbn [mbind outcome_bind]. set (t' := mkTimer _ e' _ _ _) in *.
    set (q1 := set_heap (<[p := t']> (heap q)) q).
    destruct (insert_ok q1 p t') as (l' & Ei & Hperm & Hc2);
      [by apply consistent_insert_heap|apply lookup_insert_eq|done|].
    rewrite Ei. cbn [mbind outcome_bind]. eexists. split; [reflexivity|].
    split; [exact Hc2|]. split_and!; try done.
    + exists t'. split; [done|]. split; [apply lookup_insert_eq|]. apply scheduled_entry.
      exists e'. cbn. rewrite Hperm. apply elem_of_cons. by left.
    + intros p' Hne. by apply lookup_insert_ne.
    + intros e2 p2. cbn. rewrite Hperm, elem_of_cons. split.
      * intros [[= -> ->]|?]; [by right|by left].
      * intros [?|(-> & _ & Ee)]; [by right|left]. cbn. congruence.
  - cbn [mbind outcome_bind]. eexists. split; [reflexivity|].
    split; [by apply consistent_delete_heap|]. split_and!; try done.
    + apply lookup_delete_eq.
    + intros p' Hne. by apply lookup_delete_ne.
    + intros e2 p2. cbn. split; [by left|]. by intros [?|(_ & ? & _)].
Qed.

Lemma reset_each_cons in_loop x l now q :
  reset_each in_loop (x :: l) now q = (q ← reset_each in_loop [x] now q; reset_each in_loop l now q).
Proof.
  simpl. destruct (get_timer x.2 q) as [t|]; [|done]. cbn [mbind outcome_bind].
  by destruct (if _ && _ then _ else _) as [q1|].
Qed.

Lemma again_ext q q' p t : cancelingTimers_ q' = cancelingTimers_ q → again q' p t = again q p t.
Proof. intros E. unfold again. by rewrite E. Qed.

Lemma reset_each_ok now l : ∀ q,
  consistent q → NoDup l.*2 →
  (∀ e p, (e, p) ∈ l → ∃ t, heap q !! p = Some t ∧ ¬ scheduled q p ∧ restartable now t) →
  ∃ q', reset_each true l now q = Ok q' ∧ consistent q' ∧
    (∀ e p t, (e, p) ∈ l → heap q !! p = Some t → restarted now q q' p t) ∧
    timerfd_ q' = timerfd_ q ∧ callingExpiredTimers_ q' = callingExpiredTimers_ q ∧
    (∀ p, p ∉ l.*2 → heap q' !! p = heap q !! p ∧ (scheduled q' p ↔ scheduled q p)) ∧
    (∀ e p, (e, p) ∈ timers_ q' → (e, p) ∈ timers_ q ∨
       ∃ t, heap q !! p = Some t ∧ p ∈ l.*2 ∧ repeat_ t = true ∧ addTime now (interval_ t) = Ok e).
Proof.
  induction l as [|[e p] l IH]; intros q Hc Hn Hl.
  { exists q. simpl. split_and!; try done; [by intros ??? ?%not_elem_of_nil|auto]. }
  csimpl in Hn. apply NoDup_cons in Hn as [Hp Hn].
  destruct (Hl e p) as (t & Ht & Hns & Hre); [apply elem_of_cons; by left|].
  destruct (reset_one now q e p t Hc Ht Hns Hre)
    as (q1 & E1 & Hc1 & Hr1 & Hcan1 & Hf1 & Hca1 & _ & Hh1 & Ht1).
  rewrite reset_each_cons, E1. cbn [mbind outcome_bind].
  assert (∀ p', p' ≠ p → scheduled q1 p' ↔ scheduled q p') as Hs1.
  { intros p' Hne. rewrite !scheduled_entry. setoid_rewrite Ht1. split.
    - intros (e' & [?|(? & _)]); [eauto|done].
    - intros [e' ?]. eauto. }
  assert (∀ e' p', (e', p') ∈ l → p' ≠ p) as Hpne.
  { intros e' p' Hin ->. apply Hp, list_elem_of_fmap. by exists (e', p). }
  destruct (IH q1 Hc1 Hn) as (q' & E & Hc' & Hr & Hf & Hca & Hk & Ht').
  { intros e' p' Hin. destruct (Hl e' p') as (t' & ? & ? & ?); [apply elem_of_cons; by right|].
    exists t'. pose proof (Hpne _ _ Hin). by rewrite Hh1, Hs1. }
  exists q'. split_and!; [done|done|..]; [|congruence|congruence|..].
  - intros e' p' t' [[= -> ->]|Hin]%elem_of_cons Hp'.
    + assert (t' = t) as -> by congruence. destruct (Hk p Hp) as [Eh Es].
      unfold restarted in *. rewrite Eh. destruct (again q p t); [|tauto].
      destruct Hr1 as (t2 & ? & ? & ?). exists t2. tauto.
    + specialize (Hr e' p' t' Hin). rewrite Hh1 in Hr by eauto.
      specialize (Hr Hp'). unfold restarted in *. by rewrite (again_ext q) in Hr.
  - intros p' [Hne Hni]%not_elem_of_cons. destruct (Hk p' Hni) as [Eh Es].
    by rewrite Eh, Es, Hh1, Hs1.
  - intros e' p' [Hin|(t' & Hp' & Hin' & Hrep & Ead)]%Ht'.
    + apply Ht1 in Hin as [?|(-> & Ha & Ead)]; [by left|right]. exists t.
      apply andb_true_iff in Ha as [? _]. split_and!; try done. csimpl. apply elem_of_cons. by left.
    + right. exists t'. apply list_elem_of_fmap in Hin' as ([e2 p2] & -> & Hin2).
      pose proof (Hpne _ _ Hin2) as Hne2. cbn in Hp', Hne2 |- *. rewrite Hh1 in Hp' by done.
      split_and!; try done. csimpl. apply elem_of_cons. right. apply list_elem_of_fmap. by exists (e2, p2).
Qed.

(** Expirations are [int64_t]s. *)
Definition in_range q : Prop := ∀ e p, (e, p) ∈ timers_ q → in_signed 64 e.

Lemma addTimer_timers q p cb when interval now id q' :
  consistent q → heap q !! p = None → 0 ≤ s_numCreated_ q < 2 ^ 63 - 1 → in_signed 64 (when - now) →
  addTimer p cb when interval now q = Ok (id, q') → timers_ q' ≡ₚ (when, p) :: timers_ q.
Proof.
  intros Hc Hp Hb Hr E. destruct (new_timer_ok q p cb when interval Hc Hp Hb) as (E1 & Hc1 & Hns1).
  unfold addTimer in E. rewrite E1 in E. set (q1 := mkQueue _ _ _ _ _ _ _) in *.
  set (t := mkTimer cb when interval _ _) in *.
  assert (heap q1 !! p = Some t) as Hp1 by apply lookup_insert_eq.
  cbn [mbind outcome_bind] in E. unfold get_timer in E. rewrite Hp1 in E. cbn [mbind outcome_bind] in E.
  destruct (addTimerInLoop_ok q1 p t now Hc1 Hp1 Hns1 Hr) as (l' & f & E2 & _ & Hperm & _).
  rewrite E2 in E. cbn [mbind outcome_bind] in E. by injection E as _ <-.
Qed.

Lemma tq_api_range q q' : tq_api q q' → consistent q → in_range q → in_range q'.
Proof.
  intros Hapi Hc Hr. destruct Hapi as [q p cb when interval now id q' Hp Hb Hw Hn E|q [p s] q' E].
  - intros e' p' Hin. rewrite (addTimer_timers _ _ _ _ _ _ _ _ Hc Hp Hb Hn E) in Hin.
    apply elem_of_cons in Hin as [[= -> ->]|Hin]; [done|]. by eapply Hr.
  - unfold cancel in E. destruct (decide ((p, s) ∈ activeTimers_ q)) as [Hact|Hact].
    + destruct (cancel_active q p s Hc Hact) as (q2 & E2 & _ & _ & _ & Ht & _).
      rewrite E2 in E. injection E as <-. intros e' p' [Hin _]%Ht. by eapply Hr.
    + rewrite (cancel_inactive q (p, s) Hc Hact) in E. injection E as <-.
      by destruct (callingExpiredTimers_ q).
Qed.

Lemma rtc_api_range q q' : rtc tq_api q q' → consistent q → in_range q → in_range q'.
Proof.
  induction 1 as [q|q q1 q2 Hstep _ IH]; intros Hc Hr; [done|].
  destruct (tq_api_frame q q1 Hstep Hc) as (Hc1 & _). eauto using tq_api_range.
Qed.

(** The end of [reset]: the kernel's timer covers everything scheduled. *)
Lemma rearm_ok q clock :
  consistent q → in_range q → 0 ≤ clock < 2 ^ 63 → armed low q →
  ∃ f, (nextExpire ← match timers_ q with
               | [] => Ok invalid
               | e :: _ => t ← get_timer e.2 q; Ok (expiration_ t)
               end;
        if valid nextExpire then resetTimerfd clock nextExpire q else Ok q) =
    Ok (set_timerfd f q) ∧ armed (λ _, True) (set_timerfd f q).
Proof.
  intros Hc Hr Hclock Ha. destruct (timers_ q) as [|[e p] l] eqn:El.
  { exists (timerfd_ q). split; [by destruct q|]. intros e p Hin. cbn in Hin. rewrite El in Hin.
    by apply not_elem_of_nil in Hin. }
  assert ((e, p) ∈ timers_ q) as Hin by (rewrite El; apply elem_of_cons; by left).
  destruct (inv_timers q Hc _ _ Hin) as (t & Ht & He).
  unfold get_timer. cbn [snd]. rewrite Ht. cbn [mbind outcome_bind]. rewrite He.
  assert (∀ e' p', (e', p') ∈ timers_ q → e ≤ e') as Hhead.
  { intros e' p' Hin'. pose proof (inv_sorted q Hc) as Hs. rewrite El in Hs, Hin'.
    exact (sorted_head _ _ _ Hs Hin'). }
  unfold valid. destruct (Z.ltb_spec 0 e).
  - destruct (resetTimerfd_ok clock e q) as (f & E & Hf).
    { specialize (Hr _ _ Hin). unfold in_signed in *. simpl in *. lia. }
    exists f. split; [done|]. intros e' p' Hin' _. apply (armed_for_later _ e); [done|].
    by apply (Hhead e' p').
  - exists (timerfd_ q). split; [by destruct q|]. intros e' p' Hin' _.
    apply (armed_for_later _ e); [|by apply (Hhead e' p')].
    destruct (Ha e p Hin) as (start & ts & ? & ?); [done|]. by exists start, ts.
Qed.

Lemma handleRead_ok call q now clock :
  calls_use_api call → consistent q → in_range q → no_tie now q →
  0 < now < 2 ^ 63 → 0 ≤ clock < 2 ^ 63 →
  (∀ e p t, (e, p) ∈ timers_ q → e ≤ now → heap q !! p = Some t → restartable now t) →
  ∃ expired rest q1 q2 q',
    timers_ q = expired ++ rest ∧ (∀ e p, (e, p) ∈ expired → e ≤ now) ∧
    (∀ e p, (e, p) ∈ rest → now < e) ∧
    heap q1 = heap q ∧ timers_ q1 = rest ∧ cancelingTimers_ q1 = ∅ ∧ consistent q1 ∧
    rtc tq_api q1 q2 ∧ run_each call expired q1 = Ok q2 ∧
    handleRead call true now clock q = Ok q' ∧ consistent q' ∧ in_range q' ∧
    (∀ e p t, (e, p) ∈ expired → heap q !! p = Some t → restarted now q2 q' p t) ∧
    (∀ p, p ∉ expired.*2 → heap q' !! p = heap q2 !! p ∧ (scheduled q' p ↔ scheduled q2 p)) ∧
    armed (λ _, True) q' ∧ callingExpiredTimers_ q' = false.
Proof.
  intros Hcall Hc Hrange Htie Hnow Hclock Hre.
  destruct (getExpired_ok now (readTimerfd q)) as
    (expired & qe & E & Hl & Hexp & Hrest & Hne & Hce & Hhe & Hnse & _ & _);
    [by apply (consistent_ext q)|done|]. cbn in Hl, Hhe.
  set (q1 := set_canceling ∅ (set_calling true qe)).
  assert (consistent q1) as Hc1 by by apply (consistent_ext qe).
  assert (in_flight q1 expired q1) as Hfl.
  { intros e p Hin. destruct (inv_timers q Hc e p) as (t & Ht & _).
    { rewrite Hl. apply elem_of_app. by left. }
    exists t. unfold q1; cbn. rewrite Hhe. split_and!; try done. by apply (Hnse e). }
  destruct (run_each_ok call expired Hcall q1 q1 Hc1 Hfl) as (q2 & E2 & Hrtc).
  destruct (rtc_api_frame q1 q2 Hrtc Hc1) as (Hc2 & Hca2 & Hk2 & Hlive2 & Ha2).
  assert (∀ e p, (e, p) ∈ expired → ∃ t, heap q2 !! p = Some t ∧ ¬ scheduled q2 p ∧ restartable now t) as Hflr.
  { intros e p Hin. destruct (Hfl e p Hin) as (t & Ht & _ & Hns). destruct (Hk2 p t Ht Hns).
    exists t. split_and!; [done..|]. cbn in Ht. rewrite Hhe in Ht.
    apply (Hre e p); [rewrite Hl; apply elem_of_app; by left|by apply (Hexp e p)|done]. }
  destruct (reset_each_ok now expired (set_calling false q2)) as
    (q3 & E3 & Hc3 & Hr3 & Hf3 & Hca3 & Hk3 & Ht3); [by apply (consistent_ext q2)|done|done|].
  assert (in_range q2) as Hr2.
  { apply (rtc_api_range q1 q2 Hrtc Hc1). intros e p Hin. apply (Hrange e p). rewrite Hl.
    apply elem_of_app. by right. }
  assert (∀ t e, repeat_ t = true → addTime now (interval_ t) = Ok e →
    (∃ p, heap q2 !! p = Some t) → in_signed 64 e) as Hadd.
  { intros t e _ Ead _. unfold addTime in Ead. apply outcome_bind_ok in Ead as (d & _ & Ead).
    by apply i64_inv in Ead as [-> ?]. }
  assert (in_range q3) as Hr3'.
  { intros e p [Hin|(t & Hp & _ & Hrep & Ead)]%Ht3; [by eapply Hr2|]. eauto. }
  assert (armed low q3) as Ha3.
  { intros e p Hin Hlow. apply Ht3 in Hin as [Hin|(t & Hp & Hexpd & Hrep & Ead)].
    - destruct (Ha2 low ltac:(unfold low; lia)) with e p as (start & ts & Et & ?); [|done|done|].
      + intros e' p' Hin' Hlow'. specialize (Hrest e' p' Hin'). unfold low in Hlow'. lia.
      + exists start, ts. by rewrite Hf3.
    - exfalso. unfold low in Hlow. apply list_elem_of_fmap in Hexpd as ([e2 p2] & -> & Hin2).
      destruct (Hflr e2 p2 Hin2) as (t' & Ht' & Hns' & Hre'). cbn in Hp, Ht'.
      assert (t' = t) as -> by congruence. destruct (Hre' Hrep) as [Hpos _].
      destruct (addTime_later now (interval_ t) e Hpos Ead). lia. }
  destruct (rearm_ok q3 clock Hc3 Hr3' Hclock Ha3) as (f & E4 & Ha4).
  exists expired, (timers_ qe), q1, q2, (set_timerfd f q3).
  split_and!; try done.
  - unfold handleRead. cbn [mbind outcome_bind assertInLoopThread]. rewrite E. cbn [mbind outcome_bind].
    fold q1. rewrite E2. cbn [mbind outcome_bind]. unfold reset. rewrite E3. exact E4.
  - by apply (consistent_ext q3).
  - intros e p t Hin Hp. destruct (Hfl e p Hin) as (t' & Ht' & _ & Hns).
    destruct (Hk2 p t' Ht' Hns) as [Ht2 _]. cbn in Ht'. rewrite Hhe in Ht'.
    assert (t' = t) as -> by congruence. exact (Hr3 e p t Hin Ht2).
Qed.
End Inv.

(** ** All executions

    The queue together with the timers created by other threads whose
    [addTimerInLoop] has not run yet. *)
Section Reachable.
Context {CB : Type} (call : CB → TimerQueue CB → outcome (TimerQueue CB)).
Implicit Types (q : TimerQueue CB) (t : Timer CB) (pend : gset Ptr).

Inductive tq_step : TimerQueue CB * gset Ptr → TimerQueue CB * gset Ptr → Prop :=
  | StepCreate q pend p cb when interval q' :
      heap q !! p = None → 0 ≤ s_numCreated_ q < 2 ^ 63 - 1 → in_signed 64 when →
      new_timer p cb when interval q = Ok q' → tq_step (q, pend) (q', {[ p ]} ∪ pend)
  | StepAdd q pend p t now q' :
      p ∈ pend → heap q !! p = Some t → in_signed 64 (expiration_ t - now) →
      addTimerInLoop true now p q = Ok q' → tq_step (q, pend) (q', pend ∖ {[ p ]})
  | StepApi q pend q' : tq_api q q' → tq_step (q, pend) (q', pend)
  | StepFire q pend now clock q' :
      0 < now < 2 ^ 63 → 0 ≤ clock < 2 ^ 63 → no_tie now q →
      (∀ e p t, (e, p) ∈ timers_ q → e ≤ now → heap q !! p = Some t → restartable now t) →
      handleRead call true now clock q = Ok q' → tq_step (q, pend) (q', pend).

Record tq_inv (st : TimerQueue CB * gset Ptr) : Prop := {
  tq_consistent : consistent st.1;
  tq_idle : callingExpiredTimers_ st.1 = false;
  tq_range : in_range st.1;
  tq_pend_range : ∀ p t, p ∈ st.2 → heap st.1 !! p = Some t → in_signed 64 (expiration_ t);
  tq_pend : ∀ p, p ∈ st.2 → is_Some (heap st.1 !! p) ∧ ¬ scheduled st.1 p;
  tq_no_leak : ∀ p, is_Some (heap st.1 !! p) → scheduled st.1 p ∨ p ∈ st.2;
  tq_armed : armed (λ _, True) st.1
}.

Lemma armed_all_closed : ∀ e e' : Z, True → e ≤ e' → True.
Proof. done. Qed.

Lemma step_create q pend p cb when interval q' :
  tq_inv (q, pend) → heap q !! p = None → 0 ≤ s_numCreated_ q < 2 ^ 63 - 1 → in_signed 64 when →
  new_timer p cb when interval q = Ok q' → tq_inv (q', {[ p ]} ∪ pend).
Proof.
  intros [Hc Hi Hr Hpr Hp Hl Ha] Hn Hb Hw E. cbn [fst snd] in *.
  destruct (new_timer_ok q p cb when interval Hc Hn Hb) as (E' & Hc' & Hns).
  rewrite E in E'. injection E' as ->. split; cbn; try done.
  - intros p' t [->%elem_of_singleton|Hin]%elem_of_union.
    + rewrite lookup_insert_eq. by intros [= <-].
    + intros Ht. destruct (Hp p' Hin) as [[t' Ht'] _].
      rewrite lookup_insert_ne in Ht by congruence. by apply (Hpr p').
  - intros p' [->%elem_of_singleton|Hin]%elem_of_union.
    + rewrite lookup_insert_eq. split; [eauto|done].
    + destruct (Hp p' Hin) as [[t' Ht'] ?]. rewrite lookup_insert_ne by congruence. eauto.
  - intros p' Hp'. rewrite elem_of_union, elem_of_singleton. destruct (decide (p' = p)) as [->|Hne]; [auto|].
    rewrite lookup_insert_ne in Hp' by done. destruct (Hl p' Hp'); auto.
Qed.

Lemma step_add q pend p t now q' :
  tq_inv (q, pend) → p ∈ pend → heap q !! p = Some t → in_signed 64 (expiration_ t - now) →
  addTimerInLoop true now p q = Ok q' → tq_inv (q', pend ∖ {[ p ]}).
Proof.
  intros [Hc Hi Hr Hpr Hp Hl Ha] Hin Ht Hn E. cbn [fst snd] in *. destruct (Hp p Hin) as [_ Hns].
  destruct (addTimerInLoop_ok q p t now Hc Ht Hns Hn) as (l' & f & E' & Hc' & Hperm & _).
  pose proof (addTimerInLoop_armed _ q q' p t now armed_all_closed Hc Ht Hns Hn E Ha) as Ha'.
  rewrite E in E'. injection E' as ->.
  set (q' := set_timerfd f _) in *.
  assert (∀ p', scheduled q' p' ↔ p' = p ∨ scheduled q p') as Hsch.
  { intros p'. unfold scheduled. cbn. rewrite Hperm. csimpl. by rewrite elem_of_cons. }
  split; cbn [fst snd]; try done.
  - intros e p' Hin'. cbn in Hin'. rewrite Hperm in Hin'.
    apply elem_of_cons in Hin' as [[= -> ->]|?]; [by apply (Hpr p)|by eapply Hr].
  - intros p' t' [Hin' _]%elem_of_difference. by apply Hpr.
  - intros p' [Hin' Hne]%elem_of_difference. destruct (Hp p' Hin'). split; [done|].
    intros [->|?]%Hsch; [by apply Hne, elem_of_singleton|done].
  - intros p' Hp'. destruct (decide (p' = p)) as [->|Hne]; [left; apply Hsch; by left|].
    destruct (Hl p' Hp'); [left; apply Hsch; by right|right].
    apply elem_of_difference. split; [done|]. by intros ?%elem_of_singleton.
Qed.

(** Any stretch of calls keeps the invariant ([idle] or not). *)
Lemma step_api q pend q' : tq_inv (q, pend) → tq_api q q' → tq_inv (q', pend).
Proof.
  intros [Hc Hi Hr Hpr Hp Hl Ha] Hapi. cbn [fst snd] in *.
  destruct (tq_api_frame q q' Hapi Hc) as (Hc' & Hi' & Hk & Hlive & Ha').
  assert (∀ p, p ∈ pend → ∃ t, heap q !! p = Some t ∧ heap q' !! p = Some t ∧ ¬ scheduled q' p) as Hp'.
  { intros p Hin. destruct (Hp p Hin) as [[t Ht] Hns]. exists t. split; [done|]. by apply Hk. }
  split; cbn; [done|congruence|by eapply tq_api_range|..].
  - intros p t Hin Ht. destruct (Hp' p Hin) as (t' & Ht' & Ht'' & _).
    assert (t' = t) as -> by congruence. by apply (Hpr p).
  - intros p Hin. destruct (Hp' p Hin) as (t' & _ & ? & ?). eauto.
  - intros p [?|[Hlv Hns]]%Hlive; [by left|]. destruct (Hl p Hlv); [done|by right].
  - by apply Ha'.
Qed.

Lemma step_fire q pend now clock q' :
  calls_use_api call → tq_inv (q, pend) →
  0 < now < 2 ^ 63 → 0 ≤ clock < 2 ^ 63 → no_tie now q →
  (∀ e p t, (e, p) ∈ timers_ q → e ≤ now → heap q !! p = Some t → restartable now t) →
  handleRead call true now clock q = Ok q' → tq_inv (q', pend).
Proof.
  intros Hcall [Hc Hi Hr Hpr Hp Hl Ha] Hnow Hclock Htie Hre E. cbn [fst snd] in *.
  destruct (handleRead_ok call q now clock Hcall Hc Hr Htie Hnow Hclock Hre) as
    (expired & rest & q1 & q2 & q3 & Hsplit & _ & _ & Hh1 & Ht1 & _ & Hc1 & Hrtc & _ & E' & Hc' & Hr' & Hres & Hk & Ha' & Hi').
  rewrite E in E'. injection E' as <-.
  destruct (rtc_api_frame q1 q2 Hrtc Hc1) as (Hc2 & _ & Hk2 & Hlive2 & _).
  assert (∀ p, scheduled q p ↔ p ∈ expired.*2 ∨ scheduled q1 p) as Hsch.
  { intros p. unfold scheduled. by rewrite Hsplit, Ht1, fmap_app, elem_of_app. }
  assert (∀ p, p ∈ pend → ∃ t, heap q !! p = Some t ∧ heap q' !! p = Some t ∧ ¬ scheduled q' p) as Hp'.
  { intros p Hin. destruct (Hp p Hin) as [[t Ht] Hns]. exists t. rewrite Hsch in Hns.
    destruct (Hk2 p t) as [Ht2 Hns2]; [by rewrite Hh1|tauto|].
    destruct (Hk p) as [Eh Es]; [tauto|]. by rewrite Eh, Es. }
  split; cbn; [done..| | | |done].
  - intros p t Hin Ht. destruct (Hp' p Hin) as (t' & Ht' & Ht'' & _).
    assert (t' = t) as -> by congruence. by apply (Hpr p).
  - intros p Hin. destruct (Hp' p Hin) as (t' & _ & ? & ?). eauto.
  - intros p Hlv. destruct (decide (p ∈ expired.*2)) as [Hex|Hex].
    + apply list_elem_of_fmap in Hex as ([e p2] & -> & Hin). cbn in *.
      destruct (inv_timers q Hc e p2) as (t & Ht & _); [rewrite Hsplit; apply elem_of_app; by left|].
      specialize (Hres e p2 t Hin Ht). unfold restarted in Hres. destruct (again q2 p2 t).
      * destruct Hres as (? & _ & _ & ?). by left.
      * destruct Hres as [Hnone _]. rewrite Hnone in Hlv. by destruct Hlv.
    + destruct (Hk p Hex) as [Eh Es]. rewrite Eh in Hlv. rewrite Es.
      destruct (Hlive2 p Hlv) as [?|[Hlv1 Hns1]]; [by left|]. rewrite Hh1 in Hlv1.
      destruct (Hl p Hlv1) as [Hs|?]; [|by right]. apply Hsch in Hs. tauto.
Qed.

Lemma tq_step_inv st st' : calls_use_api call → tq_inv st → tq_step st st' → tq_inv st'.
Proof.
  intros Hcall Hinv Hstep.
  destruct Hstep; [by eapply step_create|by eapply step_add|by eapply step_api|by eapply step_fire].
Qed.

Lemma tq_inv_ctor : tq_inv (TimerQueue_ctor, ∅).
Proof.
  split; cbn; try done.
  - split; cbn; [constructor|constructor|by intros ?? ?%not_elem_of_nil|].
    intros p s. split; [by intros ?%not_elem_of_empty|]. by intros (t & ? & _).
  - by intros e p ?%not_elem_of_nil.
  - by intros p [t ?].
  - by intros e p ?%not_elem_of_nil.
Qed.
End Reachable.

(** ** Properties *)
Section Properties.
Context {CB : Type}.
Implicit Types (q : TimerQueue CB) (t : Timer CB).

(** C17: when the timerfd fires, and no timer that lives above 4 GiB expires in the
    very microsecond [now] ([no_tie]; such a tie ends the process:
    [expiry_tie_aborts]), [handleRead] trips no assertion and runs exactly
    the callbacks of the timers due at [now], in order of expiration.  (The
    callbacks use the queue through its functions, times are in range, and
    intervals can be added to [now].)  Then a repeating timer of the batch that no callback cancelled is scheduled again,
    at [now] plus its interval; the others of the batch are freed.  Everything
    else is as the callbacks left it, and the kernel's timer covers every
    scheduled timer. *)
Theorem handleRead_fires_due call q now clock :
  calls_use_api call → consistent q → in_range q → no_tie now q →
  0 < now < 2 ^ 63 → 0 ≤ clock < 2 ^ 63 →
  (∀ e p t, (e, p) ∈ timers_ q → e ≤ now → heap q !! p = Some t → restartable now t) →
  ∃ expired rest q1 q2 q',
    timers_ q = expired ++ rest ∧ (∀ e p, (e, p) ∈ expired → e ≤ now) ∧
    (∀ e p, (e, p) ∈ rest → now < e) ∧
    heap q1 = heap q ∧ timers_ q1 = rest ∧ cancelingTimers_ q1 = ∅ ∧
    run_each call expired q1 = Ok q2 ∧
    handleRead call true now clock q = Ok q' ∧ consistent q' ∧
    (∀ e p t, (e, p) ∈ expired → heap q !! p = Some t →
       if repeat_ t && negb (bool_decide ((p, sequence_ t) ∈ cancelingTimers_ q2)) then
         ∃ t', restart now t = Ok t' ∧ heap q' !! p = Some t' ∧ scheduled q' p
       else heap q' !! p = None ∧ ¬ scheduled q' p) ∧
    (∀ p, p ∉ expired.*2 → heap q' !! p = heap q2 !! p ∧ (scheduled q' p ↔ scheduled q2 p)) ∧
    armed (λ _, True) q'.
Proof.
  intros Hcall Hc Hr Htie Hnow Hclock Hre.
  destruct (handleRead_ok call q now clock Hcall Hc Hr Htie Hnow Hclock Hre) as
    (expired & rest & q1 & q2 & q' & ? & ? & ? & ? & ? & ? & _ & _ & ? & ? & ? & _ & Hres & ? & ? & _).
  exists expired, rest, q1, q2, q'. by split_and!.
Qed.

(** C16: in every execution (timers created by any thread, added, cancelled and
    fired in any order, by the loop or by running callbacks; one that meets a tie
    ends there, [expiry_tie_aborts]) the two sets of the
    queue describe the same timers, no timer object leaks or dangles, and the
    kernel's timer is set to fire in time for every scheduled timer. *)
Theorem timer_queue_invariant call q pend :
  calls_use_api call → rtc (tq_step call) (TimerQueue_ctor, ∅) (q, pend) →
  sizes_agree q = true ∧
  (∀ p t, heap q !! p = Some t →
     (p ∈ pend ∧ (¬ scheduled q p) ∧ (p, sequence_ t) ∉ activeTimers_ q) ∨
     ((p ∉ pend) ∧ (expiration_ t, p) ∈ timers_ q ∧ (p, sequence_ t) ∈ activeTimers_ q)) ∧
  (∀ p, scheduled q p → is_Some (heap q !! p)) ∧
  (∀ e p, (e, p) ∈ timers_ q → armed_for q e).
Proof.
  intros Hcall Hrtc.
  assert (tq_inv (q, pend)) as [Hc Hi Hr Hpr Hp Hl Ha].
  { apply (rtc_invariant (tq_step call) tq_inv (λ st st' H, tq_step_inv call st st' Hcall H) _ _ Hrtc).
    apply tq_inv_ctor. }
  cbn [fst snd] in *. split_and!.
  - by apply sizes_agree_ok.
  - intros p t Ht. destruct (decide (scheduled q p)) as [Hs|Hns].
    + right. split; [by intros [_ ?]%Hp|]. apply scheduled_entry in Hs as [e Hin].
      rewrite (same_time_entry q e p t Hc Hin Ht) in Hin. split; [done|]. apply (inv_active q Hc). eauto.
    + left. destruct (Hl p) as [?|?]; [eauto|done|]. split_and!; [done..|].
      intros Hact. by apply Hns, (active_scheduled q p (sequence_ t)).
  - intros p. by apply scheduled_live.
  - intros e p Hin. by apply (Ha e p).
Qed.

(** [UINTPTR_MAX] is redefined to 2^32 - 1, so on a 64-bit machine the
    sentry of [getExpired] is not the greatest address: a timer that expires in
    the very microsecond [handleRead] reads, and lives above 4 GiB, trips the
    assertion and ends the process. *)
Theorem expiry_tie_aborts call q now clock p :
  consistent q → (now, p) ∈ timers_ q → UINTPTR_MAX ≤ p →
  handleRead call true now clock q = Fail AssertFailure.
Proof.
  intros Hc Hin Hp. assert (consistent (readTimerfd q)) as Hc' by by apply (consistent_ext q).
  unfold handleRead, getExpired. cbn [mbind outcome_bind assertInLoopThread].
  rewrite (sizes_agree_ok _ Hc'). cbn [mbind outcome_bind assert_]. change (timers_ (readTimerfd q)) with (timers_ q).
  destruct (lower_bound_spec (now, UINTPTR_MAX) _ (inv_sorted q Hc)) as (Hl & Ha & Hb).
  destruct (lower_bound (now, UINTPTR_MAX) (timers_ q)) as [expired rest]; cbn [fst snd] in *.
  rewrite Hl in Hin. apply elem_of_app in Hin as [Hin|Hin].
  - pose proof (proj1 (Forall_forall _ _) Ha _ Hin) as H. cbn beta in H.
    apply entry_lt_spec in H. cbn [fst snd] in H. lia.
  - destruct rest as [|[e p'] rest]; [by apply not_elem_of_nil in Hin|].
    pose proof (inv_sorted q Hc) as Hs. rewrite Hl in Hs. apply sorted_app in Hs as [_ Hs].
    pose proof (sorted_head _ _ _ Hs Hin) as Hle. cbn [fst] in *.
    by rewrite (proj2 (Z.ltb_ge _ _)).
Qed.

(** What [cancel] does.  A scheduled timer is freed and nothing else
    changes.  An id that is not scheduled (already fired, already cancelled, or
    its address reused by another timer) is ignored, except that while expired
    timers run it is remembered, so that [reset] does not schedule it again. *)
Theorem cancel_effects q p s :
  consistent q →
  ((p, s) ∈ activeTimers_ q →
     ∃ q', cancel (p, s) q = Ok q' ∧ consistent q' ∧ heap q' = delete p (heap q) ∧ ¬ scheduled q' p ∧
       ∀ e p', (e, p') ∈ timers_ q' ↔ (e, p') ∈ timers_ q ∧ p' ≠ p) ∧
  ((p, s) ∉ activeTimers_ q →
     cancel (p, s) q =
       Ok (if callingExpiredTimers_ q then set_canceling ({[ (p, s) ]} ∪ cancelingTimers_ q) q else q)).
Proof.
  intros Hc. split; intros Hact.
  - destruct (cancel_active q p s Hc Hact) as (q' & ? & ? & ? & ? & ? & _). eauto 10.
  - by apply cancel_inactive.
Qed.

(** A timer that another thread has created but whose [addTimerInLoop] has
    not run yet cannot be cancelled: [cancel] from the loop's thread changes
    nothing, and the timer is scheduled afterwards all the same. *)
Theorem cancel_before_add_is_lost q p cb when interval now :
  consistent q → callingExpiredTimers_ q = false → heap q !! p = None →
  0 ≤ s_numCreated_ q < 2 ^ 63 - 1 → in_signed 64 (when - now) →
  ∃ q1 q2, new_timer p cb when interval q = Ok q1 ∧
    cancel (p, s_numCreated_ q1) q1 = Ok q1 ∧
    addTimerInLoop true now p q1 = Ok q2 ∧ (p, s_numCreated_ q1) ∈ activeTimers_ q2 ∧
    (when, p) ∈ timers_ q2.
Proof.
  intros Hc Hi Hn Hb Hr. destruct (new_timer_ok q p cb when interval Hc Hn Hb) as (E & Hc1 & Hns).
  eexists _. set (q1 := mkQueue _ _ _ _ _ _ _) in *. set (t := mkTimer cb when interval _ _) in *.
  destruct (addTimerInLoop_ok q1 p t now Hc1) as (l' & f & E2 & _ & Hperm & _);
    [apply lookup_insert_eq|done|done|].
  eexists. split_and!; [exact E| |exact E2|..].
  - unfold cancel. rewrite cancel_inactive; [by cbn; rewrite Hi|done|].
    intros Hact. apply Hns. by eapply active_scheduled.
  - cbn. apply elem_of_union. left. by apply elem_of_singleton.
  - cbn. rewrite Hperm. apply elem_of_cons. by left.
Qed.
End Properties.

(** *** A queue with two timers; callbacks cancel a timer id *)
Definition cancel_call (id : ActiveTimer) (q : TimerQueue ActiveTimer) : outcome (TimerQueue ActiveTimer) :=
  cancel id q.

Lemma cancel_call_ok : calls_use_api cancel_call.
Proof.
  intros [p s] q Hc. unfold cancel_call, cancel. destruct (decide ((p, s) ∈ activeTimers_ q)) as [Hact|Hact].
  - destruct (cancel_active q p s Hc Hact) as (q' & E & _). exists q'. split; [done|].
    apply rtc_once, (ApiCancel q (p, s)). exact E.
  - eexists. rewrite (cancel_inactive q (p, s) Hc Hact). split; [reflexivity|].
    apply rtc_once, (ApiCancel q (p, s)). unfold cancel. by rewrite (cancel_inactive q (p, s) Hc Hact).
Qed.

(** A repeating timer (every second) at 50, and a one-shot timer at 60 above 4 GiB. *)
Definition demo1 := new_timer 1000 (1000, 7) 50 (double_of_Z 1) (TimerQueue_ctor (CB:=ActiveTimer)).
Definition demo2 := q ← demo1; addTimerInLoop true 0 1000 q.
Definition demo3 := q ← demo2; new_timer 94906265625 (0, 0) 60 (double_of_Z 0) q.
Definition demo4 := q ← demo3; addTimerInLoop true 0 94906265625 q.
Definition demo_q (m : outcome (TimerQueue ActiveTimer)) := from_ok TimerQueue_ctor m.

Lemma demo_rtc : rtc (tq_step cancel_call) (TimerQueue_ctor, ∅)
  (demo_q demo4, ({[ 94906265625 ]} ∪ (({[ 1000 ]} ∪ ∅) ∖ {[ 1000 ]})) ∖ {[ 94906265625 ]}).
Proof.
  eapply rtc_l.
  { apply (StepCreate _ _ _ 1000 (1000, 7) 50 (double_of_Z 1) (demo_q demo1));
      [reflexivity|cbn; lia|unfold in_signed; lia|vm_compute; reflexivity]. }
  eapply rtc_l.
  { eapply (StepAdd _ _ _ 1000 _ 0 (demo_q demo2));
      [set_solver|vm_compute; reflexivity|unfold in_signed; cbn; lia|vm_compute; reflexivity]. }
  eapply rtc_l.
  { apply (StepCreate _ _ _ 94906265625 (0, 0) 60 (double_of_Z 0) (demo_q demo3));
      [vm_compute; reflexivity|vm_compute; split; congruence|unfold in_signed; lia|vm_compute; reflexivity]. }
  eapply rtc_l; [|apply rtc_refl].
  eapply (StepAdd _ _ _ 94906265625 _ 0 (demo_q demo4));
    [set_solver|vm_compute; reflexivity|unfold in_signed; cbn; lia|vm_compute; reflexivity].
Qed.

Lemma demo_queue_inv : tq_inv (demo_q demo4, ({[ 94906265625 ]} ∪ (({[ 1000 ]} ∪ ∅) ∖ {[ 1000 ]})) ∖ {[ 94906265625 ]}).
Proof.
  apply (rtc_invariant (tq_step cancel_call) tq_inv
    (λ st st' H, tq_step_inv cancel_call st st' cancel_call_ok H) _ _ demo_rtc), tq_inv_ctor.
Qed.

Lemma demo_timers : timers_ (demo_q demo4) = [(50, 1000); (60, 94906265625)].
Proof. vm_compute. reflexivity. Qed.

Lemma handleRead_fires_due_witness :
  ∃ q', handleRead cancel_call true 60000000 60000001 (demo_q demo4) = Ok q' ∧
    (expiration_ <$> heap q' !! 1000) = Some 61000000 ∧ heap q' !! 94906265625 = None.
Proof.
  destruct (handleRead_fires_due cancel_call (demo_q demo4) 60000000 60000001 cancel_call_ok
    (tq_consistent _ demo_queue_inv) (tq_range _ demo_queue_inv)) as (ex & re & q1 & q2 & q' & _ & _ & _ & _ & _ & _ & _ & E & _).
  - intros p. rewrite demo_timers. intros Hin.
    repeat (apply elem_of_cons in Hin as [[=]|Hin]). by apply not_elem_of_nil in Hin.
  - lia.
  - lia.
  - intros e p t Hin _ Ht. rewrite demo_timers in Hin.
    apply elem_of_cons in Hin as [[= -> ->]|Hin];
      [|apply list_elem_of_singleton in Hin as [= -> ->]];
      vm_compute in Ht; injection Ht as <-; intros Hrep; [|discriminate Hrep].
    split; vm_compute; reflexivity.
  - exists q'. split; [exact E|]. vm_compute in E. injection E as <-. split; reflexivity.
Defined.

Lemma timer_queue_invariant_witness : sizes_agree (demo_q demo4) = true.
Proof. exact (proj1 (timer_queue_invariant cancel_call _ _ cancel_call_ok demo_rtc)). Defined.

Lemma expiry_tie_aborts_witness :
  handleRead cancel_call true 60 61 (demo_q demo4) = Fail AssertFailure.
Proof.
  apply (expiry_tie_aborts cancel_call (demo_q demo4) 60 61 94906265625 (tq_consistent _ demo_queue_inv)).
  - rewrite demo_timers. apply elem_of_cons. right. apply elem_of_cons. by left.
  - unfold UINTPTR_MAX. lia.
Defined.

Lemma cancel_effects_witness :
  ∃ q', cancel (1000, 1) (demo_q demo4) = Ok q' ∧ ¬ scheduled q' 1000.
Proof.
  destruct (proj1 (cancel_effects (demo_q demo4) 1000 1 (tq_consistent _ demo_queue_inv)))
    as (q' & E & _ & _ & Hs & _).
  - vm_compute. reflexivity.
  - exists q'. by split.
Defined.

Lemma cancel_before_add_is_lost_witness :
  ∃ q1 q2, new_timer 2000 (0, 0) 70 (double_of_Z 0) (demo_q demo4) = Ok q1 ∧
    cancel (2000, s_numCreated_ q1) q1 = Ok q1 ∧ addTimerInLoop true 5 2000 q1 = Ok q2 ∧
    (2000, s_numCreated_ q1) ∈ activeTimers_ q2 ∧ (70, 2000) ∈ timers_ q2.
Proof.
  apply (cancel_before_add_is_lost (demo_q demo4) 2000 (0, 0) 70 (double_of_Z 0) 5
    (tq_consistent _ demo_queue_inv)).
  - vm_compute. reflexivity.
  - vm_compute. reflexivity.
  - vm_compute. split; congruence.
  - unfold in_signed. lia.
Defined.
