(* ===== verification/EventLoop.v ===== *)
(** [kaycc::net::EventLoop] across threads ([src/net/eventloop.h],
    [src/net/eventloop.cpp]): [loop], [quit], [runInLoop], [queueInLoop],
    [wakeup], [handleRead] and [doPendingFunctors].

    A functor is a value of the parameter [F]; [body f] are the calls it makes on
    its own loop when it runs.  Threads interleave at their accesses to shared
    state: another thread's [queueInLoop] is the locked [push_back] and, later,
    the write to the eventfd; its [quit] likewise.  (The loop's work on channels
    is [Reactor.v]'s, on timers [TimerQueue.v]'s.) *)
From stdpp Require Import list relations.
From S2P Require Import Prelude.

Record EventLoop (F : Type) := mkEventLoop {
  looping_ : bool;
  quit_ : bool;
  eventHandling_ : bool;
  callingPendingFunctors_ : bool;
  iteration_ : Z;
  wakeupFd_ : Z;               (* the eventfd's counter *)
  pendingFunctors_ : list F
}.
Arguments mkEventLoop {F}. Arguments looping_ {F}. Arguments quit_ {F}.
Arguments eventHandling_ {F}. Arguments callingPendingFunctors_ {F}.
Arguments iteration_ {F}. Arguments wakeupFd_ {F}. Arguments pendingFunctors_ {F}.

Definition kPollTimeMs : Z := 10000.

(** The calls a callback makes on the loop it runs in; [CHandleRead] is the
    wakeup channel's own callback. *)
Inductive loop_call (F : Type) :=
  | CQuit
  | CQueueInLoop (f : F)
  | CRunInLoop (f : F)
  | CHandleRead.
Arguments CQuit {F}. Arguments CQueueInLoop {F}. Arguments CRunInLoop {F}. Arguments CHandleRead {F}.

Section EventLoop.
Context {F : Type} (body : F → list (loop_call F)).
Implicit Types (s : EventLoop F) (f : F).

Definition EventLoop_ctor : EventLoop F := mkEventLoop false false false false 0 0 [].

Definition set_quit (b : bool) s : EventLoop F := mkEventLoop (looping_ s) b (eventHandling_ s)
  (callingPendingFunctors_ s) (iteration_ s) (wakeupFd_ s) (pendingFunctors_ s).
Definition set_looping (b : bool) s : EventLoop F := mkEventLoop b (quit_ s) (eventHandling_ s)
  (callingPendingFunctors_ s) (iteration_ s) (wakeupFd_ s) (pendingFunctors_ s).
Definition set_eventHandling (b : bool) s : EventLoop F := mkEventLoop (looping_ s) (quit_ s) b
  (callingPendingFunctors_ s) (iteration_ s) (wakeupFd_ s) (pendingFunctors_ s).
Definition set_callingPending (b : bool) s : EventLoop F := mkEventLoop (looping_ s) (quit_ s)
  (eventHandling_ s) b (iteration_ s) (wakeupFd_ s) (pendingFunctors_ s).
Definition set_iteration (n : Z) s : EventLoop F := mkEventLoop (looping_ s) (quit_ s)
  (eventHandling_ s) (callingPendingFunctors_ s) n (wakeupFd_ s) (pendingFunctors_ s).
Definition set_wakeupFd (n : Z) s : EventLoop F := mkEventLoop (looping_ s) (quit_ s)
  (eventHandling_ s) (callingPendingFunctors_ s) (iteration_ s) n (pendingFunctors_ s).
Definition set_pending (l : list F) s : EventLoop F := mkEventLoop (looping_ s) (quit_ s)
  (eventHandling_ s) (callingPendingFunctors_ s) (iteration_ s) (wakeupFd_ s) l.

(** The eventfd's counter stops at 2^64 - 2; beyond, a non-blocking write fails
    with EAGAIN, which is only logged. *)
Definition eventfd_max : Z := 2 ^ 64 - 2.

Definition wakeup s : EventLoop F :=
  if wakeupFd_ s + 1 <=? eventfd_max then set_wakeupFd (wakeupFd_ s + 1) s else s.

(** Reading the eventfd resets it. *)
Definition handleRead s : EventLoop F := set_wakeupFd 0 s.

(** The critical section of [queueInLoop]. *)
Definition push_pending f s : EventLoop F := set_pending (pendingFunctors_ s ++ [f]) s.

Definition queueInLoop (in_loop : bool) f s : EventLoop F :=
  let s := push_pending f s in
  if negb in_loop || callingPendingFunctors_ s then wakeup s else s.

Definition queueSize s : Z := sz (pendingFunctors_ s).

Definition quit (in_loop : bool) s : EventLoop F :=
  let s := set_quit true s in
  if negb in_loop then wakeup s else s.

(** [runInLoop]: the calls to make right away, and the state. *)
Definition runInLoop (in_loop : bool) f s : list (loop_call F) * EventLoop F :=
  if in_loop then (body f, s) else ([], queueInLoop in_loop f s).

(** One call made by code running in the loop's thread; [todo] is what that
    code goes on with. *)
Definition exec (c : loop_call F) (todo : list (loop_call F)) s
    : list (loop_call F) * EventLoop F :=
  match c with
  | CQuit => (todo, quit true s)
  | CQueueInLoop f => (todo, queueInLoop true f s)
  | CRunInLoop f => let '(now, s) := runInLoop true f s in (now ++ todo, s)
  | CHandleRead => (todo, handleRead s)
  end.

(** The functors a call puts into the queue. *)
Definition queued_by (c : loop_call F) : list F :=
  match c with CQueueInLoop f => [f] | _ => [] end.

(** Where the loop's thread is. *)
Inductive place :=
  | Idle                                               (* not in loop() *)
  | Test                                               (* while (!quit_) *)
  | Poll                                               (* in poller_->poll() *)
  | Events (todo : list (loop_call F))                 (* handling active channels *)
  | Swap                                               (* about to swap pendingFunctors_ *)
  | Run (todo : list (loop_call F)) (functors : list F).  (* the functors still to run *)

(** Entering [loop()]; [None] when its assertion fails. *)
Definition loop_enter s : option (EventLoop F) :=
  if looping_ s then None else Some (set_quit false (set_looping true s)).

(** The body of [loop()] and [doPendingFunctors()], up to the next access to
    shared state.  [events] is what the handlers of the channels [poll] reported
    do (some of them: [StepHandler] adds the calls of one more). *)
Definition loop_next (events : list (loop_call F)) (pc : place) s : place * EventLoop F :=
  match pc with
  | Idle => (Idle, s)
  | Test => if quit_ s then (Idle, set_looping false s) else (Poll, s)
  | Poll => (Events events, set_eventHandling true (set_iteration (iteration_ s + 1) s))
  | Events (c :: todo) => let '(todo, s) := exec c todo s in (Events todo, s)
  | Events [] => (Swap, set_callingPending true (set_eventHandling false s))
  | Swap => (Run [] (pendingFunctors_ s), set_pending [] s)
  | Run (c :: todo) fs => let '(todo, s) := exec c todo s in (Run todo fs, s)
  | Run [] (f :: fs) => (Run (body f) fs, s)
  | Run [] [] => (Test, set_callingPending false s)
  end.

(** A loop, its thread, the wakeups other threads still owe, and two logs: the
    functors queued so far and the queued functors started so far.  [early] says
    that the loop's own thread queued a functor while the loop was not running,
    and that functor has not been fetched. *)
Record config := mkConfig {
  state : EventLoop F;
  pc : place;
  owed : nat;
  queued : list F;
  started : list F;
  early : bool
}.

Definition queued_now (p : place) : list F :=
  match p with Events (c :: _) | Run (c :: _) _ => queued_by c | _ => [] end.
Definition started_now (p : place) : list F :=
  match p with Run [] (f :: _) => [f] | _ => [] end.

(** [poll] reports the wakeup channel only if its descriptor is readable. *)
Definition events_possible (events : list (loop_call F)) (p : place) s : Prop :=
  p = Poll → CHandleRead ∈ events → 0 < wakeupFd_ s.

Inductive loop_step : config → config → Prop :=
  | StepEnter s s' o qd st e :
      loop_enter s = Some s' →
      loop_step (mkConfig s Idle o qd st e) (mkConfig s' Test o qd st e)
  | StepLoop s p o qd st e events p' s' :
      events_possible events p s → loop_next events p s = (p', s') →
      loop_step (mkConfig s p o qd st e)
        (mkConfig s' p' o (qd ++ queued_now p) (st ++ started_now p)
           (match p with Swap => false | _ => e end))
  | StepHandler s o qd st e calls :    (* the next active channel's handler *)
      loop_step (mkConfig s (Events []) o qd st e) (mkConfig s (Events calls) o qd st e)
  | StepIdleQueue s o qd st e f :      (* queueInLoop by the loop's thread outside loop() *)
      loop_step (mkConfig s Idle o qd st e)
        (mkConfig (queueInLoop true f s) Idle o (qd ++ [f]) st true)
  | StepIdleQuit s o qd st e :
      loop_step (mkConfig s Idle o qd st e) (mkConfig (quit true s) Idle o qd st e)
  | StepOtherPush s p o qd st e f :    (* queueInLoop by another thread, first half *)
      loop_step (mkConfig s p o qd st e) (mkConfig (push_pending f s) p (S o) (qd ++ [f]) st e)
  | StepOtherQuit s p o qd st e :      (* quit by another thread, first half *)
      loop_step (mkConfig s p o qd st e) (mkConfig (set_quit true s) p (S o) qd st e)
  | StepOtherWake s p o qd st e :      (* the second half of either *)
      loop_step (mkConfig s p (S o) qd st e) (mkConfig (wakeup s) p o qd st e).

Definition loop_init : config := mkConfig EventLoop_ctor Idle 0 [] [] false.

(** Alone, the two halves are the member functions. *)
Lemma queueInLoop_halves f s : queueInLoop false f s = wakeup (push_pending f s).
Proof. done. Qed.
Lemma quit_halves s : quit false s = wakeup (set_quit true s).
Proof. done. Qed.

(** ** Invariants *)
Definition waiting (p : place) : list F := match p with Run _ fs => fs | _ => [] end.

Definition fifo (c : config) : Prop :=
  started c ++ waiting (pc c) ++ pendingFunctors_ (state c) = queued c.

Lemma exec_pending c todo s :
  pendingFunctors_ (exec c todo s).2 = pendingFunctors_ s ++ queued_by c.
Proof.
  destruct c; simpl; unfold quit, queueInLoop, wakeup; simpl; repeat case_match; simpl;
    by rewrite ?app_nil_r.
Qed.

Lemma wakeup_pending s : pendingFunctors_ (wakeup s) = pendingFunctors_ s.
Proof. unfold wakeup. by destruct (_ <=? _). Qed.

Lemma queueInLoop_pending b f s : pendingFunctors_ (queueInLoop b f s) = pendingFunctors_ s ++ [f].
Proof. unfold queueInLoop. destruct (_ || _); [by rewrite wakeup_pending|done]. Qed.

Lemma fifo_step c c' : fifo c → loop_step c c' → fifo c'.
Proof.
  unfold fifo. intros H Hstep.
  destruct Hstep as [s s' o qd st e E|s p o qd st e events p' s' Hev E|s o qd st e cs|s o qd st e f
    |s o qd st e|s p o qd st e f|s p o qd st e|s p o qd st e]; simpl in *.
  - unfold loop_enter in E. destruct (looping_ s); [done|]. by injection E as <-.
  - destruct p as [| | |[|c todo]| |[|c todo] [|f fs]]; simpl in *;
      rewrite ?app_nil_r, <-?app_assoc in *.
    all: try (destruct (exec c todo s) as [todo' s1] eqn:Ee; pose proof (exec_pending c todo s) as Hp;
      rewrite Ee in Hp; simpl in Hp).
    all: try (destruct (quit_ s)).
    all: injection E as <- <-; simpl; rewrite ?app_nil_r; try done.
    all: rewrite Hp, <-H, <-?app_assoc; simpl; by rewrite <-?app_assoc.
  - done.
  - by rewrite queueInLoop_pending, <-H, app_assoc.
  - done.
  - by rewrite <-H, !app_assoc.
  - done.
  - by rewrite wakeup_pending.
Qed.

(** *** No wakeup is lost *)
Definition signals (s : EventLoop F) (o : nat) : Prop := 0 < wakeupFd_ s ∨ (0 < o)%nat.

(** [quit_] was set for a loop that may not look at it before [poll]. *)
Definition wake_inv (c : config) : Prop :=
  0 ≤ wakeupFd_ (state c) ∧
  callingPendingFunctors_ (state c) =
    (match pc c with Swap | Run _ _ => true | _ => false end) ∧
  match pc c with
  | Events _ | Swap => True
  | _ => pendingFunctors_ (state c) ≠ [] → early c = false → signals (state c) (owed c)
  end ∧
  (pc c = Poll → quit_ (state c) = true → signals (state c) (owed c)).

Lemma wakeup_positive s : 0 ≤ wakeupFd_ s → 0 < wakeupFd_ (wakeup s).
Proof.
  unfold wakeup, eventfd_max. destruct (Z.leb_spec (wakeupFd_ s + 1) (2 ^ 64 - 2)); simpl; lia.
Qed.

Lemma wakeup_same s : callingPendingFunctors_ (wakeup s) = callingPendingFunctors_ s.
Proof. unfold wakeup. by destruct (_ <=? _). Qed.

Lemma signals_more s s' o o' :
  wakeupFd_ s' = wakeupFd_ s → (o ≤ o')%nat → signals s o → signals s' o'.
Proof. unfold signals. intros -> ?. lia. Qed.

Lemma exec_facts c todo s : 0 ≤ wakeupFd_ s →
  0 ≤ wakeupFd_ (exec c todo s).2 ∧
  callingPendingFunctors_ (exec c todo s).2 = callingPendingFunctors_ s ∧
  (callingPendingFunctors_ s = true → c ≠ CHandleRead →
     (0 < wakeupFd_ s → 0 < wakeupFd_ (exec c todo s).2) ∧
     (queued_by c ≠ [] → 0 < wakeupFd_ (exec c todo s).2)).
Proof.
  intros H0. pose proof (wakeup_positive s H0) as Hw.
  destruct c as [|f|f|]; simpl; try done.
  - unfold queueInLoop, push_pending. simpl.
    destruct (callingPendingFunctors_ s) eqn:E; simpl; [|by split_and!].
    pose proof (wakeup_positive (set_pending (pendingFunctors_ s ++ [f]) s) H0).
    rewrite wakeup_same. simpl. rewrite E. split_and!; [lia|done|done].
Qed.

(** Functors are not the wakeup channel's callback. *)
Definition bodies_ok : Prop := ∀ f, CHandleRead ∉ body f.

Definition run_clean (p : place) : Prop :=
  match p with Run todo _ => CHandleRead ∉ todo | _ => True end.

Lemma exec_clean c todo s :
  bodies_ok → CHandleRead ∉ c :: todo → CHandleRead ∉ (exec c todo s).1.
Proof.
  intros Hb [Hc Ht]%not_elem_of_cons. destruct c; simpl; try done.
  intros [?|?]%elem_of_app; [by eapply Hb|done].
Qed.

Lemma run_clean_step c c' : bodies_ok → run_clean (pc c) → loop_step c c' → run_clean (pc c').
Proof.
  intros Hb H Hstep.
  destruct Hstep as [s s' o qd st e E|s p o qd st e events p' s' Hev E| | | | | |]; simpl in *; try done.
  destruct p as [| | |[|c todo]| |[|c todo] [|f fs]]; simpl in *.
  all: try (pose proof (exec_clean c todo s Hb) as Hx; destruct (exec c todo s)).
  all: try (destruct (quit_ s)).
  all: injection E as <- <-; simpl; try done; try (by apply Hx).
  all: first [apply Hb | by intros ?%not_elem_of_nil].
Qed.

Lemma run_call_signals c todo s o :
  0 ≤ wakeupFd_ s → callingPendingFunctors_ s = true → c ≠ CHandleRead →
  (pendingFunctors_ s ≠ [] → signals s o) →
  pendingFunctors_ (exec c todo s).2 ≠ [] → signals (exec c todo s).2 o.
Proof.
  intros H0 Hcall Hc Hs. rewrite exec_pending.
  destruct (exec_facts c todo s H0) as (_ & _ & Hf). destruct (Hf Hcall Hc) as [Hk Hq].
  intros Hne. destruct (decide (queued_by c = [])) as [Eq|]; [|left; by apply Hq].
  rewrite Eq, app_nil_r in Hne. destruct (Hs Hne); [left; by apply Hk|by right].
Qed.

Lemma wake_inv_next s p o qd st e events p' s' :
  run_clean p → wake_inv (mkConfig s p o qd st e) → events_possible events p s →
  loop_next events p s = (p', s') →
  wake_inv (mkConfig s' p' o (qd ++ queued_now p) (st ++ started_now p)
    (match p with Swap => false | _ => e end)).
Proof.
  unfold wake_inv; simpl. intros Hclean (H0 & Hcall & Hpend & Hquit) _ E.
  destruct p as [| | |[|c todo]| |[|c todo] [|f fs]]; simpl in *.
  { injection E as <- <-. by split_and!. }
  { destruct (quit_ s) eqn:Eq; injection E as <- <-; simpl; split_and!; try done.
    intros _. by rewrite Eq. }
  { injection E as <- <-. by split_and!. }
  { injection E as <- <-. by split_and!. }
  { destruct (exec_facts c todo s H0) as (H1 & H2 & _). destruct (exec c todo s) as [todo' s1].
    injection E as <- <-. simpl in *. split_and!; congruence || done. }
  { injection E as <- <-. by split_and!. }
  { injection E as <- <-. simpl. by split_and!. }
  { injection E as <- <-. by split_and!. }
  all: apply not_elem_of_cons in Hclean as [Hc _].
  all: destruct (exec_facts c todo s H0) as (H1 & H2 & _).
  all: pose proof (λ Hs, run_call_signals c todo s o H0 Hcall (not_eq_sym Hc) Hs) as Hsig.
  all: destruct (exec c todo s) as [todo' s1]; injection E as <- <-; simpl in *.
  all: split_and!; [done|congruence|auto|done].
Qed.

Lemma wake_inv_step c c' :
  run_clean (pc c) → wake_inv c → loop_step c c' → wake_inv c'.
Proof.
  intros Hclean Hinv Hstep.
  destruct Hstep as [s s' o qd st e E|s p o qd st e events p' s' Hev E|s o qd st e cs|s o qd st e f
    |s o qd st e|s p o qd st e f|s p o qd st e|s p o qd st e].
  - unfold loop_enter in E. destruct (looping_ s); [done|]. injection E as <-.
    destruct Hinv as (H0 & Hcall & Hpend & _). by split_and!.
  - by eapply wake_inv_next.
  - destruct Hinv as (? & ? & ? & _). by split_and!.
  - destruct Hinv as (H0 & Hcall & Hpend & _); simpl in *. unfold wake_inv, queueInLoop; simpl.
    rewrite Hcall. by split_and!.
  - destruct Hinv as (H0 & Hcall & Hpend & _). by split_and!.
  - destruct Hinv as (H0 & Hcall & Hpend & Hq); simpl in *. unfold wake_inv; simpl.
    split_and!; [done|done| |intros; right; lia]. destruct p; try done; intros; right; lia.
  - destruct Hinv as (H0 & Hcall & Hpend & Hq); simpl in *. unfold wake_inv; simpl.
    split_and!; [done|done| |intros; right; lia]. destruct p; try done; intros; right; lia.
  - destruct Hinv as (H0 & Hcall & Hpend & Hq); simpl in *. pose proof (wakeup_positive s H0).
    unfold wake_inv; simpl. rewrite wakeup_same. split_and!; [lia|done| |intros; by left].
    destruct p; try done; intros; by left.
Qed.

Lemma loop_inv c : bodies_ok → rtc loop_step loop_init c → run_clean (pc c) ∧ wake_inv c.
Proof.
  intros Hb Hrtc.
  apply (rtc_invariant loop_step (λ c, run_clean (pc c) ∧ wake_inv c)) with (s := loop_init); [|done|].
  - intros c1 c2 [H1 H2] Hs. split; [by eapply run_clean_step|by eapply wake_inv_step].
  - split; [done|]. split_and!; simpl; [lia|done|by intros []|done].
Qed.

(** ** Properties *)

(** Functors given to [queueInLoop] by any thread run exactly once and in
    the order they were queued: at every moment the functors started, the ones of
    the current round still to start and the ones pending are together the
    functors queued, in that order. *)
Theorem functors_run_once_in_order c :
  rtc loop_step loop_init c →
  started c ++ waiting (pc c) ++ pendingFunctors_ (state c) = queued c.
Proof. intros Hrtc. by apply (rtc_invariant loop_step fifo fifo_step loop_init). Qed.

(** No wakeup is lost.  Whenever the loop is about to block in [poll], or
    blocked there, although a functor is pending or [quit] was called, the
    eventfd is readable or another thread is about to write to it, so [poll]
    returns without waiting for its timeout.  The only exception is a functor the
    loop's own thread queued before [loop()] ran. *)
Theorem no_lost_wakeup c :
  bodies_ok → rtc loop_step loop_init c → pc c = Poll →
  (pendingFunctors_ (state c) ≠ [] ∧ early c = false) ∨ quit_ (state c) = true →
  0 < wakeupFd_ (state c) ∨ (0 < owed c)%nat.
Proof.
  intros Hb Hrtc Hpc Hwhy. destruct (loop_inv c Hb Hrtc) as [_ (_ & _ & Hpend & Hquit)].
  rewrite Hpc in Hpend. destruct Hwhy as [[? ?]|?]; [by apply Hpend|by apply Hquit].
Qed.

(** Calls made before [loop()] do not reach it.  [loop] clears [quit_], so a
    [quit] that another thread completed before the loop started is forgotten,
    and the loop goes to poll with [quit_] false; and a functor its own thread
    queued leaves the eventfd unreadable, so the loop blocks with it pending. *)
Theorem calls_before_loop_are_lost f :
  (∃ c, rtc loop_step (mkConfig (quit false EventLoop_ctor) Idle 0 [] [] false) c ∧
     pc c = Poll ∧ quit_ (state c) = false) ∧
  (∃ c, rtc loop_step loop_init c ∧ pc c = Poll ∧ pendingFunctors_ (state c) = [f] ∧
     wakeupFd_ (state c) = 0 ∧ owed c = 0%nat).
Proof.
  split; eexists; split.
  - eapply rtc_l; [apply StepEnter; reflexivity|].
    eapply rtc_l; [|apply rtc_refl]. by apply (StepLoop _ Test _ _ _ _ []).
  - by split_and!.
  - eapply rtc_l; [apply (StepIdleQueue _ _ _ _ _ f)|].
    eapply rtc_l; [apply StepEnter; reflexivity|].
    eapply rtc_l; [|apply rtc_refl]. by apply (StepLoop _ Test _ _ _ _ []).
  - by split_and!.
Qed.
End EventLoop.

(** *** Another thread queues a functor while the loop is in [poll] *)
Definition quiet (f : Z) : list (loop_call Z) := [].

Definition blocked_config : config :=
  mkConfig (push_pending 5 (set_looping true (EventLoop_ctor (F:=Z)))) Poll 1 [5] [] false.

Lemma blocked_reachable : rtc (loop_step quiet) loop_init blocked_config.
Proof.
  eapply rtc_l; [apply StepEnter; reflexivity|].
  eapply rtc_l; [by apply (StepLoop _ _ Test _ _ _ _ [])|].
  eapply rtc_l; [apply (StepOtherPush _ _ _ _ _ _ _ 5)|]. apply rtc_refl.
Qed.

Lemma functors_run_once_in_order_witness :
  started blocked_config ++ waiting (pc blocked_config) ++ pendingFunctors_ (state blocked_config) = [5].
Proof. exact (functors_run_once_in_order quiet blocked_config blocked_reachable). Defined.

Lemma no_lost_wakeup_witness : 0 < wakeupFd_ (state blocked_config) ∨ (0 < owed blocked_config)%nat.
Proof.
  apply (no_lost_wakeup quiet blocked_config).
  - intros f. apply not_elem_of_nil.
  - exact blocked_reachable.
  - reflexivity.
  - left. split; [discriminate|reflexivity].
Defined.
