(* ===== verification/LoopTimers.v ===== *)
(** Timers through the event loop ([src/net/eventloop.cpp]: [runAt], [runAfter],
    [runEvery], [cancel]; [src/net/timerqueue.cpp]: [addTimer], [cancel]): the
    functors of EventLoop.v carry the calls of other threads to the queue of
    TimerQueue.v.

    A call from the loop's own thread acts at once.  Another thread creates the
    timer itself and queues a functor, and reads the timer's sequence number
    only after that. *)
From stdpp Require Import gmap list relations.
From S2P Require Import Prelude Channel Poller Timestamp TimerQueue EventLoop.

(** The functors in the loop's queue: [addTimerInLoop] and [cancelInLoop] bound
    to their arguments, and the user's. *)
Inductive task (CB : Type) :=
  | AddTask (timer : Ptr)
  | CancelTask (timerId : ActiveTimer)
  | UserTask (cb : CB).
Arguments AddTask {CB}. Arguments CancelTask {CB}. Arguments UserTask {CB}.

Section Operations.
Context {CB : Type}.
Implicit Types (s : EventLoop (task CB)) (q : TimerQueue CB).

(** [TimerQueue::addTimer] up to [runInLoop]; [p] is the address [new] answers,
    [now] the clock when the functor runs at once. *)
Definition addTimer_post (in_loop : bool) (p : Ptr) (cb : CB) (when : Timestamp) (interval : double)
    (now : Timestamp) (st : EventLoop (task CB) * TimerQueue CB) : outcome (EventLoop (task CB) * TimerQueue CB) :=
  let '(s, q) := st in
  q ← new_timer p cb when interval q;
  if in_loop then
    q ← addTimerInLoop true now p q; Ok (s, q)
  else Ok (queueInLoop false (AddTask p) s, q).

(** [TimerId(timer, timer->sequence())] *)
Definition timer_id (p : Ptr) q : outcome ActiveTimer := t ← get_timer p q; Ok (p, sequence_ t).

Definition queue_addTimer in_loop p cb when interval now st
    : outcome (ActiveTimer * (EventLoop (task CB) * TimerQueue CB)) :=
  st ← addTimer_post in_loop p cb when interval now st;
  id ← timer_id p st.2;
  Ok (id, st).

Definition queue_cancel (in_loop : bool) (timerId : ActiveTimer)
    (st : EventLoop (task CB) * TimerQueue CB) : outcome (EventLoop (task CB) * TimerQueue CB) :=
  let '(s, q) := st in
  if in_loop then q ← cancelInLoop true timerId q; Ok (s, q)
  else Ok (queueInLoop false (CancelTask timerId) s, q).

(** *** EventLoop *)
Definition runAt in_loop p cb (time : Timestamp) now st :=
  queue_addTimer in_loop p cb time (double_of_Z 0) now st.

(** [clock]: what [Timestamp::now()] answers. *)
Definition runAfter in_loop p cb (delay : double) (clock now : Timestamp) st :=
  time ← addTime clock delay;
  runAt in_loop p cb time now st.

Definition runEvery in_loop p cb (interval : double) (clock now : Timestamp) st :=
  time ← addTime clock interval;
  queue_addTimer in_loop p cb time interval now st.

Definition cancel in_loop timerId st := queue_cancel in_loop timerId st.

(** Running a functor; [call] is what user code does to the queue. *)
Definition run_task (call : CB → TimerQueue CB → outcome (TimerQueue CB)) (now : Timestamp)
    (f : task CB) q : outcome (TimerQueue CB) :=
  match f with
  | AddTask p => addTimerInLoop true now p q
  | CancelTask id => cancelInLoop true id q
  | UserTask cb => call cb q
  end.

Definition user (f : task CB) : Prop := match f with UserTask _ => True | _ => False end.

(** The timers on their way to the loop. *)
Definition adds (l : list (task CB)) : list Ptr :=
  omap (λ f, match f with AddTask p => Some p | _ => None end) l.

(** The functors not yet started, in the order they will be. *)
Definition todo (c : config (F := task CB)) : list (task CB) :=
  waiting (pc c) ++ pendingFunctors_ (state c).
End Operations.

(** ** Ages of timers: sequence numbers are never used twice *)
Section Ages.
Context {CB : Type}.
Implicit Types (q : TimerQueue CB) (t : Timer CB).

(** Each timer of [q'] is one of [q], perhaps restarted, or was created since. *)
Definition later q q' : Prop :=
  s_numCreated_ q ≤ s_numCreated_ q' ∧
  ∀ p t', heap q' !! p = Some t' →
    s_numCreated_ q < sequence_ t' ∨ ∃ t, heap q !! p = Some t ∧ sequence_ t = sequence_ t'.

#[export] Instance later_preorder : PreOrder later.
Proof.
  split.
  - intros q. split; [done|]. eauto.
  - intros q1 q2 q3 [H12 L12] [H23 L23]. split; [lia|]. intros p t3 H3.
    destruct (L23 p t3 H3) as [?|(t2 & H2 & E)]; [left; lia|]. rewrite <-E. by apply L12.
Qed.

Lemma later_same q q' : s_numCreated_ q' = s_numCreated_ q → heap q' = heap q → later q q'.
Proof. intros En Eh. split; [lia|]. rewrite Eh. eauto. Qed.

Lemma later_delete q q' p : s_numCreated_ q' = s_numCreated_ q → heap q' = delete p (heap q) → later q q'.
Proof. intros En Eh. split; [lia|]. rewrite Eh. intros p' t' [_ ?]%lookup_delete_Some. eauto. Qed.

Lemma new_timer_later q p cb when interval q' :
  consistent q → heap q !! p = None → 0 ≤ s_numCreated_ q < 2 ^ 63 - 1 →
  new_timer p cb when interval q = Ok q' → later q q'.
Proof.
  intros Hc Hp Hb E. destruct (new_timer_ok q p cb when interval Hc Hp Hb) as (E' & _).
  rewrite E in E'. injection E' as ->. split; cbn; [lia|].
  intros p' t' [[_ <-]|[_ ?]]%lookup_insert_Some; cbn; [left; lia|eauto].
Qed.

Lemma addTimerInLoop_later q p t now q' :
  consistent q → heap q !! p = Some t → ¬ scheduled q p → in_signed 64 (expiration_ t - now) →
  addTimerInLoop true now p q = Ok q' → later q q'.
Proof.
  intros Hc Ht Hns Hr E. destruct (addTimerInLoop_ok q p t now Hc Ht Hns Hr) as (l' & f & E' & _).
  rewrite E in E'. injection E' as ->. by apply later_same.
Qed.

Lemma cancel_later q id q' : consistent q → cancelInLoop true id q = Ok q' → later q q'.
Proof.
  intros Hc E. destruct id as [p s], (decide ((p, s) ∈ activeTimers_ q)) as [Ha|Ha].
  - destruct (cancel_active q p s Hc Ha) as (q2 & E2 & _ & Hh & _ & _ & _ & _ & _ & Hn).
    rewrite E in E2. injection E2 as <-. by eapply later_delete.
  - rewrite (cancel_inactive q _ Hc Ha) in E. injection E as <-.
    destruct (callingExpiredTimers_ q); by apply later_same.
Qed.

Lemma api_later q q' : consistent q → tq_api q q' → later q q'.
Proof.
  intros Hc Hapi.
  destruct Hapi as [q1 p cb when interval now id q2 Hp Hb _ Hr E|q1 id q2 E]; [|by eapply cancel_later].
  destruct (new_timer_ok q1 p cb when interval Hc Hp Hb) as (E1 & Hc1 & Hns1).
  pose proof (new_timer_later _ _ _ _ _ _ Hc Hp Hb E1) as L1. unfold addTimer in E. rewrite E1 in E.
  set (q3 := mkQueue _ _ _ _ _ _ _) in *. cbn [mbind outcome_bind] in E.
  unfold get_timer in E. change (heap q3) with (<[p := mkTimer cb when interval (positive interval) (s_numCreated_ q1 + 1)]> (heap q1)) in E.
  rewrite lookup_insert_eq in E. cbn [mbind outcome_bind] in E. inv_ok. subst.
  transitivity q3; [done|]. apply (addTimerInLoop_later q3 p _ now q2 Hc1 (lookup_insert_eq _ _ _)); done.
Qed.

Lemma rtc_api_later q q' : consistent q → rtc tq_api q q' → later q q'.
Proof.
  intros Hc Hrtc. induction Hrtc as [|q1 q2 q3 H12 _ IH]; [done|].
  destruct (tq_api_frame _ _ H12 Hc) as (Hc2 & _). transitivity q2; [by apply api_later|auto].
Qed.

Lemma insert_frame in_loop p q b q' :
  insert in_loop p q = Ok (b, q') → heap q' = heap q ∧ s_numCreated_ q' = s_numCreated_ q.
Proof. unfold insert. intros E. inv_ok. destruct (set_insert _ _). inv_ok. by subst. Qed.

Lemma reset_each_later in_loop l now : ∀ q q', reset_each in_loop l now q = Ok q' → later q q'.
Proof.
  induction l as [|e l IH]; intros q q' E; simpl in E; [by injection E as <-|].
  inv_ok. apply IH in E. etransitivity; [|exact E]. unfold get_timer in H.
  destruct (heap q !! e.2) as [t|] eqn:Ht; [|done]. injection H as <-.
  destruct (repeat_ t && _); [|injection H0 as <-; by eapply later_delete].
  unfold restart in H0. inv_ok. destruct x1 as [b q2]. inv_ok. subst.
  apply insert_frame in H1 as [Hh Hn]. split; [by rewrite Hn|]. rewrite Hh. cbn.
  intros p' t' [[<- <-]|[_ ?]]%lookup_insert_Some; right; [by exists t|eauto].
Qed.

Lemma reset_later in_loop l now clock q q' : reset in_loop l now clock q = Ok q' → later q q'.
Proof.
  unfold reset, resetTimerfd. intros E. inv_ok. apply reset_each_later in H.
  destruct (valid _); inv_ok; subst; [|done]. etransitivity; [exact H|]. by apply later_same.
Qed.

Lemma run_each_later call l : calls_use_api call → ∀ q q', consistent q →
  run_each call l q = Ok q' → later q q'.
Proof.
  intros Hcall. induction l as [|e l IH]; intros q q' Hc E; simpl in E; [by injection E as <-|].
  inv_ok. destruct (Hcall (callback_ x) q Hc) as (q1 & E1 & Hrtc). rewrite E1 in H0. injection H0 as <-.
  destruct (rtc_api_frame _ _ Hrtc Hc) as (Hc1 & _).
  etransitivity; [by apply rtc_api_later|]. by apply IH.
Qed.

Lemma fire_later call now clock q q' : calls_use_api call → consistent q → no_tie now q →
  TimerQueue.handleRead call true now clock q = Ok q' → later q q'.
Proof.
  intros Hcall Hc Htie E. unfold TimerQueue.handleRead in E.
  destruct (getExpired_ok now (readTimerfd q) (consistent_ext q (readTimerfd q) eq_refl eq_refl eq_refl Hc) Htie)
    as (ex & qe & Ee & _ & _ & _ & _ & Hce & Hh & _ & _ & Hn).
  cbn [mbind outcome_bind assertInLoopThread] in E. rewrite Ee in E.
  cbn [mbind outcome_bind] in E. inv_ok.
  apply run_each_later in H; [|done|by apply (consistent_ext qe)]. apply reset_later in E.
  transitivity (set_canceling ∅ (set_calling true qe)); [by apply later_same|].
  etransitivity; [exact H|]. etransitivity; [|exact E]. by apply later_same.
Qed.
End Ages.

(** ** The loop, its queue of functors and its timers together

    [PFrame]: any step of EventLoop.v by which no thread but the loop's queues a
    call on the timers; the functors it starts run.  [PAdd] and [PCancel]: another
    thread's [runAt], [runAfter] or [runEvery], and [cancel]; the id was returned
    by an earlier call.  [PApi]: the loop's own thread uses the timers, [PFire]:
    the timerfd's event is handled. *)
Section Together.
Context {CB : Type} (call : CB → TimerQueue CB → outcome (TimerQueue CB)).
Context (body : task CB → list (loop_call (task CB))).
Abbreviation loop := (config (F := task CB)).
Implicit Types (c : loop) (q : TimerQueue CB) (t : Timer CB) (l : list (task CB)).

Definition other_push (f : task CB) c : loop :=
  mkConfig (push_pending f (state c)) (pc c) (S (owed c)) (queued c ++ [f]) (started c) (early c).

(** The assumptions of TimerQueue.v on running [addTimerInLoop]. *)
Definition task_ok (now : Timestamp) (f : task CB) q : Prop :=
  match f with
  | AddTask p => ∀ t, heap q !! p = Some t → in_signed 64 (expiration_ t - now)
  | _ => True
  end.

Inductive pair_step : loop * TimerQueue CB → loop * TimerQueue CB → Prop :=
  | PQuiet c c' q l :
      loop_step body c c' → queued c' = queued c ++ l → Forall user l → started c' = started c →
      pair_step (c, q) (c', q)
  | PRun c c' q q' l f now :
      loop_step body c c' → queued c' = queued c ++ l → Forall user l → started c' = started c ++ [f] →
      task_ok now f q → run_task call now f q = Ok q' → pair_step (c, q) (c', q')
  | PAdd c q p cb when interval now q' :
      heap q !! p = None → 0 ≤ s_numCreated_ q < 2 ^ 63 - 1 → in_signed 64 when →
      addTimer_post false p cb when interval now (state c, q) =
        Ok (wakeup (push_pending (AddTask p) (state c)), q') →
      pair_step (c, q) (other_push (AddTask p) c, q')
  | PCancel c q id :
      id.2 ≤ s_numCreated_ q → pair_step (c, q) (other_push (CancelTask id) c, q)
  | PApi c q q' : tq_api q q' → pair_step (c, q) (c, q')
  | PFire c q now clock q' :
      0 < now < 2 ^ 63 → 0 ≤ clock < 2 ^ 63 → no_tie now q →
      (∀ e p t, (e, p) ∈ timers_ q → e ≤ now → heap q !! p = Some t → restartable now t) →
      TimerQueue.handleRead call true now clock q = Ok q' → pair_step (c, q) (c, q').

(** ** The invariant *)
(** A cancel in the queue names a timer older than every timer added after it. *)
Fixpoint ordered (l : list (task CB)) q : Prop :=
  match l with
  | [] => True
  | f :: l' =>
    match f with
    | CancelTask id => id.2 ≤ s_numCreated_ q ∧
        ∀ p t, p ∈ adds l' → heap q !! p = Some t → id.2 < sequence_ t
    | _ => True
    end ∧ ordered l' q
  end.

Definition tasks_inv (l : list (task CB)) q : Prop :=
  tq_inv (q, list_to_set (adds l)) ∧ NoDup (adds l) ∧ ordered l q.

Lemma adds_users l : Forall user l → adds l = [].
Proof. induction 1 as [|[] l Hf _ IH]; [done|by destruct Hf..|exact IH]. Qed.

Lemma adds_app l l' : adds (l ++ l') = adds l ++ adds l'.
Proof. apply omap_app. Qed.

Lemma ordered_later l q q' : later q q' → ordered l q → ordered l q'.
Proof.
  intros [Hn Hl]. induction l as [|f l IH]; cbn; [done|]. intros [Hf Ho]. split; [|auto].
  destruct f as [p|id|cb]; [done| |done]. destruct Hf as [Hid Hf]. split; [lia|].
  intros p t' Hp Ht'. destruct (Hl p t' Ht') as [?|(t & Ht & <-)]; [lia|eauto].
Qed.

Lemma ordered_users l l' q : Forall user l' → ordered l q → ordered (l ++ l') q.
Proof.
  intros Hu. induction l as [|f l IH]; cbn.
  - intros _. induction Hu as [|[] l' Hf _ IH]; [done|by destruct Hf..|by split].
  - intros [Hf Ho]. split; [|auto]. by rewrite adds_app, (adds_users l'), app_nil_r.
Qed.

Lemma ordered_cancel l id q : id.2 ≤ s_numCreated_ q → ordered l q → ordered (l ++ [CancelTask id]) q.
Proof.
  intros Hid. induction l as [|f l IH]; cbn.
  - intros _. split_and!; [done| |done]. by intros p t ?%not_elem_of_nil.
  - intros [Hf Ho]. split; [|auto]. by rewrite adds_app, app_nil_r.
Qed.

Lemma ordered_add l p q q' : later q q' → (∀ t, heap q' !! p = Some t → s_numCreated_ q < sequence_ t) →
  ordered l q → ordered (l ++ [AddTask p]) q'.
Proof.
  intros Hl Hp. induction l as [|f l IH]; cbn; [done|]. intros [Hf Ho]. split; [|auto].
  destruct f as [p0|id|cb]; [done| |done]. destruct Hf as [Hid Hf]. split; [destruct Hl; lia|].
  rewrite adds_app. intros p' t Hin Ht. apply elem_of_app in Hin as [Hin|Hin%list_elem_of_singleton]; [|subst p'].
  - destruct Hl as [_ Hl]. destruct (Hl p' t Ht) as [?|(t0 & Ht0 & <-)]; [lia|eauto].
  - specialize (Hp t Ht). lia.
Qed.

Lemma tq_inv_api q q' pend : rtc tq_api q q' → tq_inv (q, pend) → tq_inv (q', pend).
Proof. induction 1; [done|]. eauto using step_api. Qed.

Lemma tasks_inv_users l l' q : Forall user l' → tasks_inv l q → tasks_inv (l ++ l') q.
Proof.
  intros Hu (Hq & Hn & Ho). unfold tasks_inv. rewrite adds_app, (adds_users l'), app_nil_r by done.
  split_and!; [done|done|by apply ordered_users].
Qed.

Lemma tasks_inv_cancel l id q : id.2 ≤ s_numCreated_ q → tasks_inv l q → tasks_inv (l ++ [CancelTask id]) q.
Proof.
  intros Hid (Hq & Hn & Ho). unfold tasks_inv. rewrite adds_app, app_nil_r.
  split_and!; [done|done|by apply ordered_cancel].
Qed.

Lemma tasks_inv_add l p cb when interval q q' :
  heap q !! p = None → 0 ≤ s_numCreated_ q < 2 ^ 63 - 1 → in_signed 64 when →
  new_timer p cb when interval q = Ok q' → tasks_inv l q → tasks_inv (l ++ [AddTask p]) q'.
Proof.
  intros Hp Hb Hw E (Hq & Hn & Ho). pose proof (tq_consistent _ Hq) as Hc. cbn [fst] in Hc.
  assert (Hnew : p ∉ adds l).
  { intros Hin. destruct (tq_pend _ Hq p) as [[t Ht] _]; [by apply elem_of_list_to_set|]. cbn in Ht. congruence. }
  unfold tasks_inv. rewrite adds_app. change (adds [AddTask p]) with [p]. split_and!.
  - replace (list_to_set (adds l ++ [p]) : gset Ptr) with ({[ p ]} ∪ list_to_set (adds l) : gset Ptr).
    { by eapply step_create. }
    by rewrite list_to_set_app_L, (union_comm_L (list_to_set (adds l))), <-(list_to_set_singleton_L p).
  - apply NoDup_app. split_and!; [done| |apply NoDup_singleton]. by intros x Hx ->%list_elem_of_singleton.
  - apply (ordered_add l p q); [by eapply new_timer_later| |done].
    destruct (new_timer_ok q p cb when interval Hc Hp Hb) as (E' & _). rewrite E in E'. injection E' as ->.
    cbn. rewrite lookup_insert_eq. intros t [= <-]. cbn. lia.
Qed.

(** The next functor runs, and does what it is for. *)
Lemma tasks_inv_pop f l now q : calls_use_api call → tasks_inv (f :: l) q → task_ok now f q →
  ∃ q', run_task call now f q = Ok q' ∧ tasks_inv l q' ∧ later q q' ∧
    match f with
    | AddTask p => scheduled q' p
    | CancelTask id => id.2 ≤ s_numCreated_ q ∧ ∀ t, heap q' !! id.1 = Some t → sequence_ t ≠ id.2
    | UserTask _ => True
    end.
Proof.
  intros Hcall (Hq & Hn & Hf & Ho) Hok. pose proof (tq_consistent _ Hq) as Hc. cbn [fst] in Hc.
  destruct f as [p|[p s]|cb]; cbn in Hn, Hq, Hok.
  - apply NoDup_cons in Hn as [Hp Hn].
    destruct (tq_pend _ Hq p) as [[t Ht] Hns]; [by apply elem_of_union_l, elem_of_singleton|]. cbn [fst] in *.
    destruct (addTimerInLoop_ok q p t now Hc Ht Hns (Hok t Ht)) as (l' & fd & E & Hc' & Hperm & _).
    pose proof (addTimerInLoop_later q p t now _ Hc Ht Hns (Hok t Ht) E) as Hlater.
    eexists. split; [exact E|]. split; [|split; [done|]].
    + split_and!; [|done|by eapply ordered_later].
      replace (list_to_set (adds l)) with (({[ p ]} ∪ list_to_set (adds l) : gset Ptr) ∖ {[ p ]}).
      { eapply step_add; [done| |done|by apply Hok|done]. by apply elem_of_union_l, elem_of_singleton. }
      rewrite difference_union_distr_l_L, difference_diag_L, union_empty_l_L.
      apply difference_disjoint_L. intros x Hx ->%elem_of_singleton. by apply elem_of_list_to_set in Hx.
    + apply scheduled_entry. exists (expiration_ t). cbn. rewrite Hperm. apply elem_of_cons. by left.
  - destruct Hf as [Hid Hf].
    assert (∃ q', cancelInLoop true (p, s) q = Ok q' ∧ ∀ t, heap q' !! p = Some t → sequence_ t ≠ s) as (q' & E & Hgone).
    { destruct (decide ((p, s) ∈ activeTimers_ q)) as [Ha|Ha].
      - destruct (cancel_active q p s Hc Ha) as (q' & E & _ & Hh & _). exists q'. split; [done|].
        rewrite Hh, lookup_delete_eq. done.
      - rewrite (cancel_inactive q _ Hc Ha). eexists. split; [done|].
        pose proof (tq_idle _ Hq) as Hidle. cbn [fst] in Hidle. rewrite Hidle.
        intros t Ht Hs. destruct (tq_no_leak _ Hq p) as [Hsch|Hin]; [by exists t| |].
        + apply Ha, (inv_active q Hc). exists t. split_and!; [done|done|].
          apply scheduled_entry in Hsch as [e Hin]. by rewrite (same_time_entry q e p t Hc Hin Ht) in Hin.
        + cbn in Hin. apply elem_of_list_to_set in Hin. specialize (Hf p t Hin Ht). cbn in Hf. lia. }
    exists q'. pose proof (cancel_later _ _ _ Hc E) as Hlater. split_and!; [done| |done|done|done].
    split_and!; [by apply (step_api _ _ _ Hq), (ApiCancel q (p, s))|done|by eapply ordered_later].
  - destruct (Hcall cb q Hc) as (q' & E & Hrtc). exists q'. pose proof (rtc_api_later _ _ Hc Hrtc) as Hlater.
    split_and!; [done| |done|done].
    split_and!; [by eapply tq_inv_api|done|by eapply ordered_later].
Qed.
Definition pair_inv (st : loop * TimerQueue CB) : Prop := fifo st.1 ∧ tasks_inv (todo st.1) st.2.

Lemma todo_step c c' l r : fifo c → loop_step body c c' → queued c' = queued c ++ l →
  started c' = started c ++ r → fifo c' ∧ r ++ todo c' = todo c ++ l.
Proof.
  intros Hf Hs Hq Hr. pose proof (fifo_step body c c' Hf Hs) as Hf'. split; [done|].
  unfold fifo in Hf, Hf'. rewrite Hq, Hr, <-Hf, <-!app_assoc in Hf'. apply app_inv_head in Hf'.
  unfold todo. by rewrite Hf', <-app_assoc.
Qed.

Lemma other_push_step f c : loop_step body c (other_push f c).
Proof. destruct c. apply StepOtherPush. Qed.

Lemma todo_push f c : todo (other_push f c) = todo c ++ [f].
Proof. unfold todo. cbn. by rewrite app_assoc. Qed.

Lemma pair_inv_ran c c' q l f now : calls_use_api call → pair_inv (c, q) → loop_step body c c' →
  queued c' = queued c ++ l → Forall user l → started c' = started c ++ [f] → task_ok now f q →
  ∃ q', run_task call now f q = Ok q' ∧ pair_inv (c', q') ∧ later q q' ∧
    match f with CancelTask id => id.2 ≤ s_numCreated_ q ∧ ∀ t, heap q' !! id.1 = Some t → sequence_ t ≠ id.2
    | _ => True end.
Proof.
  intros Hcall [Hf Ht] Hs Hq Hu Hr Hok. cbn [fst snd] in *.
  destruct (todo_step c c' l [f] Hf Hs Hq Hr) as [Hf' E].
  apply (tasks_inv_users _ _ _ Hu) in Ht. rewrite <-E in Ht.
  destruct (tasks_inv_pop f _ now q Hcall Ht Hok) as (q' & ? & ? & ? & Hm).
  exists q'. split_and!; [done|by split|done|]. by destruct f.
Qed.

Lemma pair_step_inv st st' : calls_use_api call → pair_inv st → pair_step st st' →
  pair_inv st' ∧ later st.2 st'.2.
Proof.
  intros Hcall Hinv Hs. pose proof Hinv as [Hf Ht]. pose proof Ht as (Hq & Hn & Ho).
  pose proof (tq_consistent _ Hq) as Hc.
  destruct Hs as [c c' q l Hs Hl Hu Hr|c c' q q' l f now Hs Hl Hu Hr Hok E
    |c q p cb when interval now q' Hp Hb Hw E|c q id Hid|c q q' Hapi|c q now clock q' Hnow Hclk Htie Hre E];
    cbn [fst snd] in *.
  - split; [|done]. rewrite <-(app_nil_r (started c)) in Hr.
    destruct (todo_step c c' l [] Hf Hs Hl Hr) as [Hf' E]. split; [done|]. cbn in E |- *. rewrite E.
    by apply tasks_inv_users.
  - destruct (pair_inv_ran c c' q l f now Hcall Hinv Hs Hl Hu Hr Hok) as (q2 & E2 & ? & ? & _).
    rewrite E in E2. by injection E2 as <-.
  - unfold addTimer_post in E. inv_ok. subst. split; [|by eapply new_timer_later].
    split; [by eapply (fifo_step body), other_push_step|]. cbn [fst snd]. rewrite todo_push.
    by eapply tasks_inv_add.
  - split; [|done]. split; [by eapply (fifo_step body), other_push_step|]. cbn [fst snd].
    rewrite todo_push. by apply tasks_inv_cancel.
  - pose proof (api_later _ _ Hc Hapi) as Hlater. split; [|done]. split; [done|].
    split_and!; [by eapply step_api|done|by eapply ordered_later].
  - pose proof (fire_later call now clock q q' Hcall Hc Htie E) as Hlater. split; [|done]. split; [done|].
    split_and!; [by eapply step_fire|done|by eapply ordered_later].
Qed.

Lemma pair_reachable st st' : calls_use_api call → pair_inv st → rtc pair_step st st' →
  pair_inv st' ∧ later st.2 st'.2.
Proof.
  intros Hcall Hinv Hrtc. induction Hrtc as [|s1 s2 s3 H12 _ IH]; [done|].
  destruct (pair_step_inv _ _ Hcall Hinv H12) as [Hinv2 ?]. destruct (IH Hinv2). split; [done|].
  by transitivity s2.2.
Qed.

Lemma pair_inv_init : pair_inv (loop_init, TimerQueue_ctor).
Proof. split; [done|]. split_and!; [apply tq_inv_ctor|constructor|done]. Qed.

(** ** Properties *)

(** C18: calls on the timers from other threads, by way of the loop's queue.  In
    every interleaving of all threads with timers firing, the functor the loop
    starts next runs without a fault, and an [addTimerInLoop] schedules its timer;
    and once the functor of a [cancel] has run, the timer it names is gone for
    good: it will never be scheduled or fire again, whatever happens next, and no
    new timer is mistaken for it. *)
Theorem queued_timer_calls c q :
  calls_use_api call → rtc pair_step (loop_init, TimerQueue_ctor) (c, q) →
  (∀ f l now, todo c = f :: l → task_ok now f q → ∃ q', run_task call now f q = Ok q' ∧
     match f with AddTask p => scheduled q' p | _ => True end) ∧
  (∀ id c1 q1 c2 q2, pair_step (c, q) (c1, q1) → started c1 = started c ++ [CancelTask id] →
     rtc pair_step (c1, q1) (c2, q2) →
     (∀ t, heap q2 !! id.1 = Some t → sequence_ t ≠ id.2) ∧ id ∉ activeTimers_ q2).
Proof.
  intros Hcall Hrtc. destruct (pair_reachable _ _ Hcall pair_inv_init Hrtc) as [Hinv _]. split.
  - intros f l now Hl Hok. destruct Hinv as [_ Ht]. cbn [fst snd] in Ht. rewrite Hl in Ht.
    destruct (tasks_inv_pop f l now q Hcall Ht Hok) as (q' & ? & _ & _ & Hm). exists q'. split; [done|]. by destruct f.
  - intros [p s] c1 q1 c2 q2 Hs Hst Hrtc2.
    destruct (pair_step_inv _ _ Hcall Hinv Hs) as [Hinv1 _].
    destruct (pair_reachable _ _ Hcall Hinv1 Hrtc2) as [Hinv2 [Hn2 Hl2]].
    assert (Hgone : s ≤ s_numCreated_ q1 ∧ ∀ t, heap q1 !! p = Some t → sequence_ t ≠ s).
    { assert (Hno : started c1 ≠ started c).
      { intros E. rewrite Hst in E. apply (f_equal length) in E. rewrite length_app in E. cbn in E. lia. }
      inversion Hs as [? ? ? l Hls Hq Hu Hr|? ? ? ? l f now Hls Hq Hu Hr Hok E|?|?|?|?]; subst; try done.
      destruct (pair_inv_ran _ _ _ _ _ _ Hcall Hinv Hls Hq Hu Hr Hok) as (q' & E' & _ & [Hn _] & Hm).
      rewrite E in E'. injection E' as <-. rewrite Hst in Hr. apply app_inv_head in Hr as [= <-].
      destruct Hm as [? Hm]. split; [cbn in *; lia|exact Hm]. }
    destruct Hgone as [Hs1 Hgone]. cbn [fst snd] in *.
    assert (Hg2 : ∀ t, heap q2 !! p = Some t → sequence_ t ≠ s).
    { intros t Ht. destruct (Hl2 p t Ht) as [?|(t0 & Ht0 & <-)]; [lia|auto]. }
    split; [done|]. destruct Hinv2 as [_ (Hq2 & _)]. cbn [fst snd] in Hq2.
    intros (t & Ht & <- & _)%(inv_active q2 (tq_consistent _ Hq2)). by apply (Hg2 t).
Qed.
End Together.

(** ** The calls of EventLoop *)
Section Calls.
Context {CB : Type}.
Implicit Types (s : EventLoop (task CB)) (q : TimerQueue CB).

(** A timer is created and scheduled, or created and queued. *)
Lemma queue_addTimer_ok p cb when interval now s q :
  consistent q → heap q !! p = None → 0 ≤ s_numCreated_ q < 2 ^ 63 - 1 → in_signed 64 (when - now) →
  let id := (p, s_numCreated_ q + 1) in
  let t := mkTimer cb when interval (positive interval) (s_numCreated_ q + 1) in
  (∃ q', queue_addTimer true p cb when interval now (s, q) = Ok (id, (s, q')) ∧ consistent q' ∧
     heap q' = <[p := t]> (heap q) ∧ timers_ q' ≡ₚ (when, p) :: timers_ q ∧ id ∈ activeTimers_ q') ∧
  (∃ q', queue_addTimer false p cb when interval now (s, q) =
       Ok (id, (queueInLoop false (AddTask p) s, q')) ∧ consistent q' ∧
     heap q' = <[p := t]> (heap q) ∧ timers_ q' = timers_ q).
Proof.
  intros Hc Hp Hb Hr id t. destruct (new_timer_ok q p cb when interval Hc Hp Hb) as (E & Hc1 & Hns).
  fold t in E, Hc1, Hns. set (q1 := mkQueue _ _ _ _ _ _ _) in *.
  assert (Ht : heap q1 !! p = Some t) by apply lookup_insert_eq.
  destruct (addTimerInLoop_ok q1 p t now Hc1 Ht Hns Hr) as (l' & f & E2 & Hc2 & Hperm & _).
  unfold queue_addTimer, addTimer_post, timer_id, get_timer. rewrite E. cbn [mbind outcome_bind]. split.
  - rewrite E2. cbn [mbind outcome_bind snd]. change (heap (set_timerfd _ _)) with (heap q1). rewrite Ht.
    eexists. split_and!; [reflexivity|done|done|exact Hperm|]. cbn. by apply elem_of_union_l, elem_of_singleton.
  - cbn [mbind outcome_bind snd]. rewrite Ht. exists q1. by split_and!.
Qed.

(** [runAfter], [runEvery] and [cancel].  From the loop's own thread [runAfter]
    schedules a one-shot timer for [delay] seconds after now and [runEvery] one
    that repeats, when the interval is positive; the id they return cancels
    exactly that timer, and leaves the queue's timers as they were.  From another
    thread nothing is scheduled yet: the timer exists, its functor is the last of
    the queue, and the loop has been woken. *)
Theorem run_calls_schedule p cb delay clock now when s q :
  consistent q → heap q !! p = None → 0 ≤ s_numCreated_ q < 2 ^ 63 - 1 →
  addTime clock delay = Ok when → in_signed 64 (when - now) →
  let id := (p, s_numCreated_ q + 1) in
  (∃ q' q'', runAfter true p cb delay clock now (s, q) = Ok (id, (s, q')) ∧
     heap q' !! p = Some (mkTimer cb when (double_of_Z 0) false id.2) ∧
     timers_ q' ≡ₚ (when, p) :: timers_ q ∧
     cancel true id (s, q') = Ok (s, q'') ∧ heap q'' = heap q ∧
     ∀ e p', (e, p') ∈ timers_ q'' ↔ (e, p') ∈ timers_ q) ∧
  (∃ q', runEvery true p cb delay clock now (s, q) = Ok (id, (s, q')) ∧
     heap q' !! p = Some (mkTimer cb when delay (positive delay) id.2) ∧
     timers_ q' ≡ₚ (when, p) :: timers_ q) ∧
  (∃ s' q', runAfter false p cb delay clock now (s, q) = Ok (id, (s', q')) ∧
     timers_ q' = timers_ q ∧ is_Some (heap q' !! p) ∧
     pendingFunctors_ s' = pendingFunctors_ s ++ [AddTask p] ∧
     (0 ≤ wakeupFd_ s → 0 < wakeupFd_ s')).
Proof.
  intros Hc Hp Hb Ea Hr id. unfold runAfter, runEvery, runAt. rewrite Ea. cbn [mbind outcome_bind].
  destruct (queue_addTimer_ok p cb when (double_of_Z 0) now s q Hc Hp Hb Hr)
    as [(q1 & E1 & Hc1 & Hh1 & Hp1 & Ha1) (q2 & E2 & _ & Hh2 & Ht2)].
  destruct (queue_addTimer_ok p cb when delay now s q Hc Hp Hb Hr) as [(q3 & E3 & _ & Hh3 & Hp3 & _) _].
  assert (Hns : ∀ e, (e, p) ∉ timers_ q).
  { intros e Hin. destruct (inv_timers q Hc _ _ Hin) as (t & ? & _). congruence. }
  split_and!.
  - destruct (cancel_active q1 _ _ Hc1 Ha1) as (q4 & E4 & _ & Hh4 & _ & Ht4 & _).
    exists q1, q4. split_and!; [done|by rewrite Hh1, lookup_insert_eq|done| | |].
    + unfold cancel, queue_cancel, id. by rewrite E4.
    + rewrite Hh4, Hh1, delete_insert_eq. by apply delete_id.
    + intros e p'. rewrite Ht4, Hp1, elem_of_cons. split; [intros [[[= -> ->]|?] ?]; done|].
      intros Hin. split; [by right|]. intros ->. by apply (Hns e).
  - exists q3. split_and!; [done|by rewrite Hh3, lookup_insert_eq|done].
  - eexists _, q2. split_and!; [done|done| | |].
    + rewrite Hh2, lookup_insert_eq. eauto.
    + apply queueInLoop_pending.
    + intros H0. by apply (wakeup_positive (push_pending (AddTask p) s)).
Qed.
End Calls.

(** *** Another thread starts a timer and cancels it *)
Definition no_body (f : task Z) : list (loop_call (task Z)) := [].
Definition no_call (cb : Z) (q : TimerQueue Z) : outcome (TimerQueue Z) := Ok q.
Lemma no_call_ok : calls_use_api no_call.
Proof. intros cb q _. exists q. by split; [|apply rtc_refl]. Qed.

Definition queue0 : TimerQueue Z := TimerQueue_ctor.
Definition queue1 : TimerQueue Z := from_ok queue0 (new_timer 1000 5 50 (double_of_Z 0) queue0).
Definition queue2 : TimerQueue Z := from_ok queue1 (addTimerInLoop true 0 1000 queue1).
Definition queue3 : TimerQueue Z := from_ok queue2 (cancelInLoop true (1000, 1) queue2).
Definition queue4 : TimerQueue Z := from_ok queue2 (TimerQueue.handleRead no_call true 60 61 queue2).

(** One step of the loop's thread, as a function. *)
Definition turn (c : config (F := task Z)) : config :=
  let '(p', s') := loop_next no_body [] (pc c) (state c) in
  mkConfig s' p' (owed c) (queued c ++ queued_now (pc c)) (started c ++ started_now (pc c))
    (match pc c with Swap => false | _ => early c end).

Lemma turn_step c : loop_step no_body c (turn c).
Proof.
  destruct c as [s p o qd st e]. unfold turn; cbn [pc state owed queued started early].
  destruct (loop_next no_body [] p s) as [p' s'] eqn:E. apply (StepLoop _ s p o qd st e [] p' s'); [|done].
  by intros _ ?%not_elem_of_nil.
Qed.

Definition pushed : config (F := task Z) := other_push (CancelTask (1000, 1)) (other_push (AddTask 1000) loop_init).
Definition entered : config (F := task Z) :=
  mkConfig (set_quit false (set_looping true (state pushed))) Test (owed pushed) (queued pushed) [] false.
Definition swapped : config (F := task Z) := turn (turn (turn (turn entered))).

Lemma swapped_reachable : rtc (pair_step no_call no_body) (loop_init, queue0) (swapped, queue1).
Proof.
  eapply rtc_l.
  { apply (PAdd _ _ loop_init queue0 1000 5 50 (double_of_Z 0) 0 queue1);
      [reflexivity|cbn; lia|unfold in_signed; lia|reflexivity]. }
  eapply rtc_l; [apply (PCancel _ _ _ queue1 (1000, 1)); vm_compute; congruence|].
  eapply rtc_l; [apply (PQuiet _ _ pushed entered queue1 []); [by apply StepEnter|reflexivity|constructor|reflexivity]|].
  do 4 (eapply rtc_l; [eapply (PQuiet _ _ _ _ _ []); [apply turn_step|reflexivity|constructor|reflexivity]|]).
  apply rtc_refl.
Qed.

Lemma turn_runs f now c q q' : started (turn c) = started c ++ [f] → queued (turn c) = queued c →
  task_ok now f q → run_task no_call now f q = Ok q' → pair_step no_call no_body (c, q) (turn c, q').
Proof.
  intros Hs Hq Hok E. eapply (PRun _ _ _ _ _ _ [] f now); [apply turn_step| |constructor|done..].
  by rewrite app_nil_r.
Qed.

Lemma added_step : pair_step no_call no_body (swapped, queue1) (turn swapped, queue2).
Proof.
  apply (turn_runs (AddTask 1000) 0); [reflexivity|reflexivity| |reflexivity].
  intros t Ht. vm_compute in Ht. injection Ht as <-. unfold in_signed. cbn. lia.
Qed.

Lemma queued_timer_calls_witness :
  heap queue3 !! 1000 = None ∧ (1000, 1) ∉ activeTimers_ queue3.
Proof.
  split; [reflexivity|].
  refine (proj2 (proj2 (queued_timer_calls no_call no_body (turn swapped) queue2 no_call_ok _)
    (1000, 1) (turn (turn swapped)) queue3 (turn (turn swapped)) queue3 _ eq_refl (rtc_refl _ _))).
  - eapply rtc_r; [exact swapped_reachable|exact added_step].
  - by apply (turn_runs (CancelTask (1000, 1)) 0).
Defined.

(** The other thread reads the sequence number of a timer that has meanwhile
    been added, has fired and has been freed. *)
Lemma timer_id_may_dangle : ∃ c q,
  rtc (pair_step no_call no_body) (loop_init, queue0) (c, q) ∧
  AddTask 1000 ∈ started c ∧ timer_id 1000 q = Fail UB.
Proof.
  exists (turn swapped), queue4. split_and!; [|vm_compute; constructor|reflexivity].
  eapply rtc_r; [eapply rtc_r; [exact swapped_reachable|exact added_step]|].
  apply (PFire _ _ _ _ 60 61); [lia|lia| | |reflexivity].
  - intros p Hp. vm_compute in Hp. by apply list_elem_of_singleton in Hp.
  - intros e p t Hin _ Ht. apply list_elem_of_singleton in Hin as [= -> ->].
    vm_compute in Ht. injection Ht as <-. by intros ?.
Qed.

Lemma run_calls_schedule_witness :
  ∃ q', runAfter true 1000 5 (double_of_Z 2) 50 51 (state loop_init, queue0) =
    Ok ((1000, 1), (state loop_init, q')) ∧ (2000050, 1000) ∈ timers_ q'.
Proof.
  destruct (run_calls_schedule 1000 5 (double_of_Z 2) 50 51 2000050 (state loop_init) queue0)
    as [(q' & q'' & E & _ & Hp & _) _].
  - apply (tq_consistent _ tq_inv_ctor).
  - reflexivity.
  - cbn. lia.
  - vm_compute. reflexivity.
  - unfold in_signed. lia.
  - exists q'. split; [exact E|]. rewrite Hp. apply elem_of_cons. by left.
Defined.
