(* ===== verification/EventLoopThreads.v ===== *)
(** [kaycc::net::EventLoopThread] and [kaycc::net::EventLoopThreadPool]
    ([src/net/eventloopthread.cpp], [src/net/eventloopthreadpool.cpp]).

    [EventLoopThread] is a protocol between the thread that owns the object and
    the I/O thread; [hand_step] interleaves the two.  [EventLoopThreadPool] is
    used from its base loop's thread only and is purely functional. *)
From stdpp Require Import list relations strings pretty.
From S2P Require Import Prelude Channel Poller EventLoop.

(** ** EventLoopThread *)
Section EventLoopThread.
Context {F : Type}.

(** The owner: constructed, in [startLoop]'s wait, past it with the mutex released,
    started, in the destructor after it saw [loop_ != NULL], after [quit()], and
    after [join()]. *)
Inductive owner_pc :=
  OwnerNew | OwnerWait | OwnerPassed | OwnerStarted | OwnerQuitting | OwnerJoin | OwnerDone.

(** [threadFunc]: not started, running [callback_], about to publish [loop_], at
    the call of [loop.loop()], in the loop, after it, and finished. *)
Inductive io_pc := IoNone | IoCallback | IoPublish | IoEnter | IoLooping | IoExited | IoDone.

Record EventLoopThread := mkThread {
  loop_ : bool;                 (* loop_ != NULL *)
  exiting_ : bool;
  owner : owner_pc;
  io : io_pc;
  the_loop : EventLoop F;       (* threadFunc's stack variable *)
  returned : option bool        (* startLoop's result: is it non-null? *)
}.

Definition EventLoopThread_ctor : EventLoopThread :=
  mkThread false false OwnerNew IoNone EventLoop_ctor None.

(** What the code running in the loop does to [quit_] and the eventfd while it
    iterates: it may call [quit] itself. *)
Inductive iterate : EventLoop F → EventLoop F → Prop :=
  | IterateHandle s : quit_ s = false → iterate s (handleRead s)
  | IterateQuit s : quit_ s = false → iterate s (quit true s).

Inductive hand_step : EventLoopThread → EventLoopThread → Prop :=
  (* startLoop: assert(!thread_.started()); thread_.start() *)
  | OwnerStart e l : hand_step (mkThread false e OwnerNew IoNone l None)
                               (mkThread false e OwnerWait IoCallback l None)
  (* while (loop_ == NULL) cond_.wait(), and the mutex is released *)
  | OwnerWaited e i l : hand_step (mkThread true e OwnerWait i l None)
                                  (mkThread true e OwnerPassed i l None)
  (* return loop_: it is read again, without the mutex *)
  | OwnerReturn p e i l : hand_step (mkThread p e OwnerPassed i l None)
                                    (mkThread p e OwnerStarted i l (Some p))
  (* the destructor; OwnerStarted is any time after startLoop returned *)
  | OwnerDtorNull e i l r : hand_step (mkThread false e OwnerStarted i l r)
                                      (mkThread false true OwnerDone i l r)
  | OwnerDtor e i l r : hand_step (mkThread true e OwnerStarted i l r)
                                  (mkThread true true OwnerQuitting i l r)
  | OwnerQuit p e i l r : i ≠ IoDone → hand_step (mkThread p e OwnerQuitting i l r)
                                    (mkThread p e OwnerJoin i (quit false l) r)
  | OwnerJoined p e l r : hand_step (mkThread p e OwnerJoin IoDone l r)
                                    (mkThread p e OwnerDone IoDone l r)
  (* threadFunc *)
  | IoCallbackDone p e o l r : hand_step (mkThread p e o IoCallback l r) (mkThread p e o IoPublish l r)
  | IoPublished p e o l r : hand_step (mkThread p e o IoPublish l r) (mkThread true e o IoEnter l r)
  | IoEnterLoop p e o l l' r : loop_enter l = Some l' →
      hand_step (mkThread p e o IoEnter l r) (mkThread p e o IoLooping l' r)
  | IoIterate p e o l l' r : iterate l l' →
      hand_step (mkThread p e o IoLooping l r) (mkThread p e o IoLooping l' r)
  | IoExit p e o l r : quit_ l = true →
      hand_step (mkThread p e o IoLooping l r) (mkThread p e o IoExited (set_looping false l) r)
  | IoClear p e o l r : hand_step (mkThread p e o IoExited l r) (mkThread false e o IoDone l r).

(** *** startLoop *)
Definition published (i : io_pc) : bool :=
  match i with IoEnter | IoLooping | IoExited | IoDone => true | _ => false end.
Definition finished (i : io_pc) : bool := match i with IoExited | IoDone => true | _ => false end.

Record hand_inv (c : EventLoopThread) : Prop := {
  hi_loop : loop_ c = true → published (io c) = true;
  hi_cleared : published (io c) = true → loop_ c = false → io c = IoDone;
  hi_done : finished (io c) = true → quit_ (the_loop c) = true;
  hi_passed : owner c = OwnerPassed → published (io c) = true;
  hi_returned b : returned c = Some b → published (io c) = true ∧ (b = false → io c = IoDone);
  hi_new : owner c = OwnerNew → io c = IoNone ∧ loop_ c = false
}.

Lemma hand_inv_init : hand_inv EventLoopThread_ctor.
Proof. by split. Qed.

Lemma hand_inv_step c c' : hand_inv c → hand_step c c' → hand_inv c'.
Proof.
  intros [H1 H2 H3 H4 H5 H6] Hs.
  destruct Hs; cbn in *; split; cbn; try done; auto.
  all: try (intros ? E; destruct (H5 _ E) as [? Hd]; split; [done|]; intros ->; by specialize (Hd eq_refl)).
  all: try (intros ->; destruct (H6 eq_refl); done).
  - intros b [= <-]. split; [by apply H4|]. intros ->. by apply H2; [apply H4|].
  - intros _. unfold wakeup. by destruct (_ <=? _).
  - intros _ Hp. by specialize (H2 eq_refl Hp).
  - intros _ Hp. by specialize (H2 eq_refl Hp).
Qed.

(** *** Destruction *)
(** From here the owner waits for a thread that is in a loop nobody stops. *)
Definition stuck (c : EventLoopThread) : Prop :=
  owner c = OwnerJoin ∧ io c = IoLooping ∧ quit_ (the_loop c) = false.

(** A step that is not a [quit] made by the code running in the loop itself. *)
Definition no_quit (c c' : EventLoopThread) : Prop :=
  hand_step c c' ∧ (io c = IoLooping → io c' = IoLooping →
    the_loop c' = the_loop c ∨ the_loop c' = handleRead (the_loop c)).

Lemma stuck_step c c' : stuck c → no_quit c c' → stuck c'.
Proof.
  intros (Ho & Hi & Hq) [Hs Hn]. unfold stuck.
  destruct Hs; simpl in *; try congruence.
  specialize (Hn eq_refl eq_refl). split_and!; [done|done|]. destruct Hn as [->| ->]; [done|exact Hq].
Qed.

Definition hands_init : EventLoopThread := EventLoopThread_ctor.

(** The execution in which the owner destroys the object right away. *)
Definition stuck_config : EventLoopThread :=
  mkThread true true OwnerJoin IoLooping
    (EventLoop.set_quit false (set_looping true (quit false EventLoop_ctor))) (Some true).

Lemma stuck_reachable : rtc hand_step hands_init stuck_config.
Proof.
  unfold hands_init, EventLoopThread_ctor.
  eapply rtc_l; [apply OwnerStart|]. eapply rtc_l; [apply IoCallbackDone|].
  eapply rtc_l; [apply IoPublished|]. eapply rtc_l; [apply OwnerWaited|].
  eapply rtc_l; [apply OwnerReturn|].
  eapply rtc_l; [apply OwnerDtor|]. eapply rtc_l; [by apply OwnerQuit|].
  eapply rtc_l; [apply IoEnterLoop; reflexivity|apply rtc_refl].
Qed.

(** C40: in every interleaving [startLoop] returns only once the new thread has
    constructed its loop, run the callback on it and published it.  What it
    returns is that loop, unless the loop has meanwhile been told to quit by code
    running in it and has finished: [startLoop] reads [loop_] again after it
    released the mutex, and only then it may find null. *)
Theorem startLoop_returns_running_loop (c : EventLoopThread) b :
  rtc hand_step hands_init c → returned c = Some b →
  published (io c) = true ∧ (b = true ∨ (io c = IoDone ∧ quit_ (the_loop c) = true)).
Proof.
  intros Hrtc Hr.
  assert (hand_inv c) as Hinv.
  { apply (rtc_invariant hand_step hand_inv hand_inv_step hands_init); [done|apply hand_inv_init]. }
  destruct (hi_returned c Hinv b Hr) as [Hp Hd]. split; [done|].
  destruct b; [by left|right]. split; [by apply Hd|]. apply (hi_done c Hinv). by rewrite Hd.
Qed.

(** The null pointer does come back: the callback leaves a functor that quits. *)
Definition gone_config : EventLoopThread :=
  mkThread false false OwnerStarted IoDone (set_looping false (quit true (EventLoop.set_quit false
    (set_looping true EventLoop_ctor)))) (Some false).

Theorem startLoop_may_return_null :
  rtc hand_step hands_init gone_config ∧ returned gone_config = Some false.
Proof.
  split; [|done]. unfold hands_init, EventLoopThread_ctor.
  eapply rtc_l; [apply OwnerStart|]. eapply rtc_l; [apply IoCallbackDone|].
  eapply rtc_l; [apply IoPublished|]. eapply rtc_l; [apply OwnerWaited|].
  eapply rtc_l; [apply IoEnterLoop; reflexivity|]. eapply rtc_l; [by apply IoIterate, IterateQuit|].
  eapply rtc_l; [by apply IoExit|]. eapply rtc_l; [apply IoClear|].
  eapply rtc_l; [apply OwnerReturn|apply rtc_refl].
Qed.

(** Destroying an [EventLoopThread] as soon as [startLoop] has returned can
    hang for ever: if the I/O thread has not entered [loop()] yet, [loop()] clears
    the [quit_] the destructor set, and the destructor's [join()] waits for a
    loop that nobody will stop. *)
Theorem destructor_can_hang :
  ∃ c, rtc hand_step hands_init c ∧ owner c = OwnerJoin ∧
    ∀ c', rtc no_quit c c' → owner c' = OwnerJoin ∧ io c' = IoLooping.
Proof.
  exists stuck_config. split; [exact stuck_reachable|]. split; [done|].
  intros c' Hrtc. assert (stuck c') as (? & ? & _); [|done].
  by apply (rtc_invariant no_quit stuck stuck_step stuck_config).
Qed.
End EventLoopThread.

Lemma startLoop_returns_running_loop_witness :
  published (io (stuck_config (F:=Z))) = true ∧
  (true = true ∨ (io (stuck_config (F:=Z)) = IoDone ∧ quit_ (the_loop (stuck_config (F:=Z))) = true)).
Proof. exact (startLoop_returns_running_loop _ true stuck_reachable eq_refl). Defined.

(** ** EventLoopThreadPool *)
Record EventLoopThreadPool := mkPool {
  baseLoop_ : Ptr;
  name_ : string;
  started_ : bool;
  numThreads_ : Z;
  next_ : Z;
  threads_ : list string;   (* the names of the EventLoopThread objects *)
  loops_ : list Ptr
}.

Definition EventLoopThreadPool_ctor (baseLoop : Ptr) (name : string) : EventLoopThreadPool :=
  mkPool baseLoop name false 0 0 [] [].

Definition setThreadNum (numThreads : Z) (p : EventLoopThreadPool) : EventLoopThreadPool :=
  mkPool (baseLoop_ p) (name_ p) (started_ p) numThreads (next_ p) (threads_ p) (loops_ p).

(** [snprintf(buf, size, "%s%d", ...)] into [name_.size() + 32] bytes. *)
Definition thread_name (name : string) (i : Z) : string :=
  String.substring 0 (String.length name + 31) (name +:+ pretty i).

(** The loop of [start], from [i]; [startLoop name] is the loop the new thread
    runs. *)
Fixpoint start_threads (n : nat) (i : Z) (startLoop : string → Ptr) (p : EventLoopThreadPool)
    : EventLoopThreadPool :=
  match n with
  | O => p
  | S n =>
    let buf := thread_name (name_ p) i in
    start_threads n (i + 1) startLoop
      (mkPool (baseLoop_ p) (name_ p) (started_ p) (numThreads_ p) (next_ p)
         (threads_ p ++ [buf]) (loops_ p ++ [startLoop buf]))
  end.

(** [start]: the pool, and whether [cb] ran on the base loop. *)
Definition start (in_loop : bool) (startLoop : string → Ptr) (has_cb : bool) (p : EventLoopThreadPool)
    : outcome (EventLoopThreadPool * bool) :=
  assert! negb (started_ p);;
  _ ← assertInLoopThread in_loop;
  let p := mkPool (baseLoop_ p) (name_ p) true (numThreads_ p) (next_ p) (threads_ p) (loops_ p) in
  Ok (start_threads (Z.to_nat (numThreads_ p)) 0 startLoop p, (numThreads_ p =? 0) && has_cb).

Definition getNextLoop (in_loop : bool) (p : EventLoopThreadPool) : outcome (Ptr * EventLoopThreadPool) :=
  _ ← assertInLoopThread in_loop;
  assert! started_ p;;
  match loops_ p with
  | [] => Ok (baseLoop_ p, p)
  | _ =>
    match loops_ p !! Z.to_nat (next_ p) with
    | None => Fail UB
    | Some loop =>
      let next := next_ p + 1 in
      let next := if sz (loops_ p) <=? next then 0 else next in
      Ok (loop, mkPool (baseLoop_ p) (name_ p) (started_ p) (numThreads_ p) next (threads_ p) (loops_ p))
    end
  end.

Definition getLoopForHash (in_loop : bool) (hashCode : Z) (p : EventLoopThreadPool) : outcome Ptr :=
  _ ← assertInLoopThread in_loop;
  match loops_ p with
  | [] => Ok (baseLoop_ p)
  | _ => match loops_ p !! Z.to_nat (hashCode mod sz (loops_ p)) with
         | Some loop => Ok loop
         | None => Fail UB
         end
  end.

Definition getAllLoops (in_loop : bool) (p : EventLoopThreadPool) : outcome (list Ptr) :=
  _ ← assertInLoopThread in_loop;
  assert! started_ p;;
  match loops_ p with [] => Ok [baseLoop_ p] | _ => Ok (loops_ p) end.

(** *** Round robin *)
Definition pool_ok (p : EventLoopThreadPool) : Prop :=
  started_ p = true ∧ 0 ≤ next_ p ∧ (next_ p < sz (loops_ p) ∨ (loops_ p = [] ∧ next_ p = 0)).

Fixpoint next_loops (n : nat) (p : EventLoopThreadPool) : outcome (list Ptr * EventLoopThreadPool) :=
  match n with
  | O => Ok ([], p)
  | S n =>
    '(l, p) ← getNextLoop true p; '(ls, p) ← next_loops n p; Ok (l :: ls, p)
  end.

Lemma getNextLoop_nonempty p :
  pool_ok p → loops_ p ≠ [] →
  ∃ l, getNextLoop true p = Ok (l, mkPool (baseLoop_ p) (name_ p) (started_ p) (numThreads_ p)
           (if sz (loops_ p) <=? next_ p + 1 then 0 else next_ p + 1) (threads_ p) (loops_ p)) ∧
       loops_ p !! Z.to_nat (next_ p) = Some l.
Proof.
  intros (Hs & H0 & Hn) Hne. destruct Hn as [Hn|[? _]]; [|done].
  assert (is_Some (loops_ p !! Z.to_nat (next_ p))) as [l Hl].
  { apply lookup_lt_is_Some. unfold sz in Hn. lia. }
  exists l. split; [|done]. unfold getNextLoop. cbn [mbind outcome_bind assertInLoopThread].
  rewrite Hs. cbn [mbind outcome_bind assert_]. rewrite Hl. by destruct (loops_ p).
Qed.

Lemma next_loops_nonempty n : ∀ p, pool_ok p → loops_ p ≠ [] →
  ∃ ls p', next_loops n p = Ok (ls, p') ∧ length ls = n ∧ pool_ok p' ∧ loops_ p' = loops_ p ∧
    next_ p' = (next_ p + Z.of_nat n) mod sz (loops_ p) ∧
    ∀ k, (k < n)%nat → ls !! k = loops_ p !! Z.to_nat ((next_ p + Z.of_nat k) mod sz (loops_ p)).
Proof.
  induction n as [|n IH]; intros p Hok Hne; simpl.
  { exists [], p. pose proof Hok as (_ & H0 & [Hn|[? _]]); [|done].
    split_and!; try done; [|lia]. rewrite Z.add_0_r. symmetry. apply Z.mod_small. lia. }
  destruct (getNextLoop_nonempty p Hok Hne) as (l & E & Hl). rewrite E. cbn [mbind outcome_bind].
  set (nx := if _ <=? _ then _ else _) in *. set (p1 := mkPool _ _ _ _ nx _ _) in *.
  pose proof Hok as (Hs & H0 & [Hn|[? _]]); [|done].
  assert (nx = (next_ p + 1) mod sz (loops_ p) ∧ 0 ≤ nx < sz (loops_ p)) as [Hnx Hb].
  { unfold nx. destruct (Z.leb_spec (sz (loops_ p)) (next_ p + 1)).
    - replace (next_ p + 1) with (sz (loops_ p)) by lia. rewrite Z.mod_same by lia. lia.
    - rewrite Z.mod_small; lia. }
  destruct (IH p1) as (ls & p' & E' & Hlen & Hok' & Hls & Hnext & Hk); [|done|].
  { split; [done|]. simpl. split; [lia|left; lia]. }
  rewrite E'. exists (l :: ls), p'. simpl in *. split_and!; try done; [by rewrite Hlen| |].
  - rewrite Hnext, Hnx, Zplus_mod_idemp_l. f_equal. lia.
  - intros [|k] Hkn; simpl.
    + rewrite Z.add_0_r, Z.mod_small by lia. by rewrite Hl.
    + rewrite Hk by lia. rewrite Hnx, Zplus_mod_idemp_l. do 3 f_equal. lia.
Qed.

(** [getNextLoop] deals the loops out in rotation: [n] calls in a row give
    the loops at positions [next_], [next_ + 1], ... modulo their number, so no
    loop gets a connection more than its turn; without threads it is always the
    base loop. *)
Theorem getNextLoop_round_robin n p :
  pool_ok p →
  ∃ ls p', next_loops n p = Ok (ls, p') ∧ pool_ok p' ∧ loops_ p' = loops_ p ∧ length ls = n ∧
    ∀ k, (k < n)%nat →
      ls !! k = if decide (loops_ p = []) then Some (baseLoop_ p)
                else loops_ p !! Z.to_nat ((next_ p + Z.of_nat k) mod sz (loops_ p)).
Proof.
  intros Hok. case_decide as Hd.
  - assert (next_loops n p = Ok (replicate n (baseLoop_ p), p)) as E.
    { induction n as [|n IH]; simpl; [done|]. unfold getNextLoop at 1.
      cbn [mbind outcome_bind assertInLoopThread]. destruct Hok as (Hs & _). rewrite Hs, Hd.
      cbn [mbind outcome_bind assert_]. by rewrite IH. }
    exists (replicate n (baseLoop_ p)), p. split_and!; try done; [apply length_replicate|].
    intros k Hk. by apply lookup_replicate_2.
  - destruct (next_loops_nonempty n p Hok Hd) as (ls & p' & ? & ? & ? & ? & _ & ?). eauto 10.
Qed.

(** [start] makes one loop per thread, and the pool is then in order. *)
Lemma start_threads_loops n : ∀ i startLoop p,
  loops_ (start_threads n i startLoop p) = loops_ p ++
    ((λ k, startLoop (thread_name (name_ p) (i + Z.of_nat k))) <$> seq 0 n) ∧
  started_ (start_threads n i startLoop p) = started_ p ∧ next_ (start_threads n i startLoop p) = next_ p.
Proof.
  induction n as [|n IH]; intros i startLoop p; simpl; [by rewrite app_nil_r|].
  destruct (IH (i + 1) startLoop (mkPool (baseLoop_ p) (name_ p) (started_ p) (numThreads_ p) (next_ p)
    (threads_ p ++ [thread_name (name_ p) i]) (loops_ p ++ [startLoop (thread_name (name_ p) i)])))
    as (E1 & E2 & E3). rewrite E1, E2, E3. simpl. split; [|done].
  rewrite <-app_assoc. simpl. rewrite Z.add_0_r. do 2 f_equal.
  rewrite <-fmap_S_seq, <-list_fmap_compose. apply list_fmap_ext. intros _ k _. simpl.
  do 2 f_equal. lia.
Qed.

Lemma start_threads_base n : ∀ i startLoop p, baseLoop_ (start_threads n i startLoop p) = baseLoop_ p.
Proof. induction n as [|n IH]; intros i startLoop p; simpl; [done|]. by rewrite IH. Qed.

Lemma start_ok startLoop cb p :
  started_ p = false → next_ p = 0 → loops_ p = [] → 0 ≤ numThreads_ p →
  ∃ p' b, start true startLoop cb p = Ok (p', b) ∧ pool_ok p' ∧ sz (loops_ p') = numThreads_ p ∧
    (b = true ↔ numThreads_ p = 0 ∧ cb = true).
Proof.
  intros Hs Hn Hl Hnum. unfold start. rewrite Hs. cbn [mbind outcome_bind assert_ negb assertInLoopThread].
  eexists _, _. split; [reflexivity|]. set (p1 := mkPool _ _ true _ _ _ _). simpl.
  destruct (start_threads_loops (Z.to_nat (numThreads_ p)) 0 startLoop p1) as (E1 & E2 & E3).
  assert (sz (loops_ (start_threads (Z.to_nat (numThreads_ p)) 0 startLoop p1)) = numThreads_ p) as Hsz.
  { rewrite E1. simpl. rewrite Hl. simpl. unfold sz. rewrite length_fmap, length_seq. lia. }
  split_and!; [|done|by rewrite andb_true_iff, Z.eqb_eq].
  split; [by rewrite E2|]. rewrite E3, Hsz. simpl. rewrite Hn. split; [done|].
  destruct (decide (numThreads_ p = 0)) as [H0|]; [right|left; lia]. split; [|done].
  apply sz_zero. by rewrite Hsz.
Qed.

Lemma getNextLoop_round_robin_witness :
  ∃ p', next_loops 4 (mkPool 1 "io" true 3 1 [] [10; 20; 30]) = Ok ([20; 30; 10; 20], p').
Proof.
  destruct (getNextLoop_round_robin 4 (mkPool 1 "io" true 3 1 [] [10; 20; 30])) as (ls & p' & E & _).
  - split; [reflexivity|]. split; [simpl; lia|]. left. unfold sz; simpl; lia.
  - exists p'. rewrite E. vm_compute in E. injection E as <- _. reflexivity.
Defined.
