(* ===== verification/TcpConnection.v ===== *)
(** [kaycc::net::TcpConnection] ([src/net/tcpconnection.h],
    [src/net/tcpconnection.cpp]).

    A connection embeds its channel and its two buffers.  The functors it queues
    on its loop are constructors of [functor]; user callbacks are the parameter
    [user], which answers an event with the calls it makes on the connection.
    What the kernel answers to a write is part of each call; bytes the kernel
    took ([sent]), bytes the connection took over from the user ([accepted]),
    bytes received and the callbacks made ([log]) are recorded beside the
    object's own fields.

    Every operation takes [in_loop]: whether the calling thread is the loop's.  A
    call from another thread is not atomic: it is a test of [state_] and the
    accesses that follow, each a step of its own ([access]). *)
From Stdlib Require Import Strings.Byte.
From stdpp Require Import list gmap strings.
From S2P Require Import Prelude Endian Buffer Channel Poller.

Inductive StateE := kDisconnected | kConnecting | kConnected | kDisconnecting.
#[export] Instance StateE_eq_dec : EqDecision StateE.
Proof. solve_decision. Defined.

(** The callbacks the constructor binds into the channel. *)
Inductive handler := HandleRead | HandleWrite | HandleClose | HandleError.

(** What the connection hands to its loop.  [bind(..., this)] keeps a raw
    pointer, [bind(..., shared_from_this())] keeps the object alive. *)
Inductive functor :=
  | FSendInLoop (data : list byte)        (* this *)
  | FShutdownInLoop                       (* this *)
  | FStartReadInLoop                      (* this *)
  | FStopReadInLoop                       (* this *)
  | FForceCloseInLoop                     (* shared_from_this() *)
  | FWriteComplete                        (* shared_from_this() *)
  | FHighWaterMark (len : Z)              (* shared_from_this() *)
  | FConnectDestroyed.                    (* a TcpConnectionPtr, queued by closeCallback_ *)

#[export] Instance functor_eq_dec : EqDecision functor.
Proof. pose proof Byte.byte_eq_dec : EqDecision byte. solve_decision. Defined.

(** The user's callbacks. *)
Inductive event := EvUp | EvDown | EvMessage | EvWriteComplete | EvHighWaterMark (len : Z).

Abbreviation kernel_write := (Z → Z + Z)%type.   (* errno or count, given the length *)

(** Calls user code makes on the connection. *)
Inductive api :=
  | ASend (data : list byte) (w : kernel_write)
  | AShutdown
  | AForceClose
  | AForceCloseWithDelay
  | AStartRead
  | AStopRead
  | ASetHighWaterMark (cb : bool) (mark : Z)
  | ARetrieve (len : Z).    (* inputBuffer()->retrieve of at most what is readable *)

(** The owner (a [TcpServer]'s map, a [TcpClient]'s [connection_]) holds a
    reference until [closeCallback_] tells it to give up; it then has
    [connectDestroyed] queued on the connection's loop, possibly from another
    thread and later. *)
Inductive owner_state := OwnerHas | OwnerNotified | OwnerPosted | OwnerGone.
#[export] Instance owner_state_eq_dec : EqDecision owner_state.
Proof. solve_decision. Defined.

Definition EWOULDBLOCK : Z := 11.
Definition EPIPE : Z := 32.
Definition ECONNRESET : Z := 104.

Record TcpConnection := mkConn {
  state_ : StateE;
  reading_ : bool;
  channel_ : Channel handler;
  inputBuffer_ : Buffer;
  outputBuffer_ : Buffer;
  highWaterMark_ : Z;
  writeCompleteCallback_ : bool;   (* is it set? *)
  highWaterMarkCallback_ : bool;
  write_shut : bool;               (* the socket's write side was shut down *)
  queue : list functor;            (* of the loop's pendingFunctors_ *)
  owner : owner_state;             (* the owner's reference *)
  alive : bool;
  log : list event;
  received : list byte;
  sent : list byte;
  accepted : list byte
}.

Definition set_state s c := mkConn s (reading_ c) (channel_ c) (inputBuffer_ c) (outputBuffer_ c)
  (highWaterMark_ c) (writeCompleteCallback_ c) (highWaterMarkCallback_ c) (write_shut c)
  (queue c) (owner c) (alive c) (log c) (received c) (sent c) (accepted c).
Definition set_reading b c := mkConn (state_ c) b (channel_ c) (inputBuffer_ c) (outputBuffer_ c)
  (highWaterMark_ c) (writeCompleteCallback_ c) (highWaterMarkCallback_ c) (write_shut c)
  (queue c) (owner c) (alive c) (log c) (received c) (sent c) (accepted c).
Definition set_channel ch c := mkConn (state_ c) (reading_ c) ch (inputBuffer_ c)
  (outputBuffer_ c) (highWaterMark_ c) (writeCompleteCallback_ c) (highWaterMarkCallback_ c)
  (write_shut c) (queue c) (owner c) (alive c) (log c) (received c) (sent c) (accepted c).
Definition set_input b d c := mkConn (state_ c) (reading_ c) (channel_ c) b (outputBuffer_ c)
  (highWaterMark_ c) (writeCompleteCallback_ c) (highWaterMarkCallback_ c) (write_shut c)
  (queue c) (owner c) (alive c) (log c) (received c ++ d) (sent c) (accepted c).
Definition set_output b c := mkConn (state_ c) (reading_ c) (channel_ c) (inputBuffer_ c) b
  (highWaterMark_ c) (writeCompleteCallback_ c) (highWaterMarkCallback_ c) (write_shut c)
  (queue c) (owner c) (alive c) (log c) (received c) (sent c) (accepted c).
Definition set_mark cb mark c := mkConn (state_ c) (reading_ c) (channel_ c) (inputBuffer_ c)
  (outputBuffer_ c) mark (writeCompleteCallback_ c) cb (write_shut c) (queue c) (owner c)
  (alive c) (log c) (received c) (sent c) (accepted c).
Definition set_write_shut b c := mkConn (state_ c) (reading_ c) (channel_ c) (inputBuffer_ c)
  (outputBuffer_ c) (highWaterMark_ c) (writeCompleteCallback_ c) (highWaterMarkCallback_ c) b
  (queue c) (owner c) (alive c) (log c) (received c) (sent c) (accepted c).
Definition set_queue q c := mkConn (state_ c) (reading_ c) (channel_ c) (inputBuffer_ c)
  (outputBuffer_ c) (highWaterMark_ c) (writeCompleteCallback_ c) (highWaterMarkCallback_ c)
  (write_shut c) q (owner c) (alive c) (log c) (received c) (sent c) (accepted c).
Definition set_owner o c := mkConn (state_ c) (reading_ c) (channel_ c) (inputBuffer_ c)
  (outputBuffer_ c) (highWaterMark_ c) (writeCompleteCallback_ c) (highWaterMarkCallback_ c)
  (write_shut c) (queue c) o (alive c) (log c) (received c) (sent c) (accepted c).
Definition set_alive b c := mkConn (state_ c) (reading_ c) (channel_ c) (inputBuffer_ c)
  (outputBuffer_ c) (highWaterMark_ c) (writeCompleteCallback_ c) (highWaterMarkCallback_ c)
  (write_shut c) (queue c) (owner c) b (log c) (received c) (sent c) (accepted c).
Definition add_log e c := mkConn (state_ c) (reading_ c) (channel_ c) (inputBuffer_ c)
  (outputBuffer_ c) (highWaterMark_ c) (writeCompleteCallback_ c) (highWaterMarkCallback_ c)
  (write_shut c) (queue c) (owner c) (alive c) (log c ++ [e]) (received c) (sent c) (accepted c).
Definition add_sent d c := mkConn (state_ c) (reading_ c) (channel_ c) (inputBuffer_ c)
  (outputBuffer_ c) (highWaterMark_ c) (writeCompleteCallback_ c) (highWaterMarkCallback_ c)
  (write_shut c) (queue c) (owner c) (alive c) (log c) (received c) (sent c ++ d) (accepted c).
Definition add_accepted d c := mkConn (state_ c) (reading_ c) (channel_ c) (inputBuffer_ c)
  (outputBuffer_ c) (highWaterMark_ c) (writeCompleteCallback_ c) (highWaterMarkCallback_ c)
  (write_shut c) (queue c) (owner c) (alive c) (log c) (received c) (sent c) (accepted c ++ d).
Definition queueInLoop f c := set_queue (queue c ++ [f]) c.

(** [Channel::update] and [Channel::remove] as [EPollPoller] answers them, seen
    from the channel: [index_] becomes [kDeleted] when a watched channel has no
    events left and [kAdded] otherwise ([updateChannel_spec] in EPollPoller.v); a
    channel with events, or one the poller does not know, cannot be removed. *)
Definition poller_index (ch : Channel handler) : Channel handler :=
  set_index (if bool_decide (events_ ch = 0 ∧ index_ ch = kAdded) then kDeleted else kAdded) ch.
Definition conn_update (f : Channel handler → Channel handler) c :=
  set_channel (poller_index (set_addedToLoop true (f (channel_ c)))) c.
Definition enableReading := conn_update or_read.
Definition disableReading := conn_update clear_read.
Definition enableWriting := conn_update or_write.
Definition disableWriting := conn_update clear_write.
Definition disableAll := conn_update clear_all.
Definition remove c : outcome TcpConnection :=
  assert! isNoneEvent (channel_ c);;
  let ch := set_addedToLoop false (channel_ c) in
  assert! (index_ ch =? kAdded) || (index_ ch =? kDeleted);;
  Ok (set_channel (set_index kNew ch) c).

Definition stateToString (s : StateE) : string :=
  match s with
  | kDisconnected => "kDisconnected" | kConnecting => "kConnecting"
  | kConnected => "kConnected" | kDisconnecting => "kDisconnecting"
  end.

(** The constructor, for a loop at [loop] and a descriptor. *)
Definition TcpConnection_ctor (loop sockfd : Z) (wc hw : bool) : outcome TcpConnection :=
  inb ← Buffer_ctor kInitialSize;
  outb ← Buffer_ctor kInitialSize;
  assert! negb (loop =? 0);;
  let channel := setErrorCallback HandleError (setCloseCallback HandleClose
    (setWriteCallback HandleWrite (setReadCallback HandleRead (Channel_ctor loop sockfd)))) in
  Ok (mkConn kConnecting true channel inb outb (64 * 1024 * 1024) wc hw false [] OwnerHas true [] [] [] []).

(** The destructor, with the assertions of the channel it deletes. *)
Definition TcpConnection_dtor c : outcome TcpConnection :=
  assert! bool_decide (state_ c = kDisconnected);;
  assert! negb (eventHandling_ (channel_ c));;
  assert! negb (addedToLoop_ (channel_ c));;
  Ok (set_alive false c).

(** [WeakCallback::operator()] (base/weakcallback.h): the function is called on
    the object if the weak pointer to it can still be locked. *)
Definition WeakCallback_call {C} (lock : C → bool) (function : C → outcome C) (object : C) : outcome C :=
  if lock object then function object else Ok object.

Section TcpConnection.
Variable in_loop : bool.
Context (user : event → TcpConnection → list api).

Definition shutdownInLoop c : outcome TcpConnection :=
  _ ← assertInLoopThread in_loop;
  if negb (isWriting (channel_ c)) then Ok (set_write_shut true c) else Ok c.

Definition shutdown c : outcome TcpConnection :=
  if bool_decide (state_ c = kConnected) then
    let c := set_state kDisconnecting c in
    if in_loop then shutdownInLoop c else Ok (queueInLoop FShutdownInLoop c)
  else Ok c.

Definition forceClose c : outcome TcpConnection :=
  if bool_decide (state_ c = kConnected) || bool_decide (state_ c = kDisconnecting) then
    Ok (queueInLoop FForceCloseInLoop (set_state kDisconnecting c))
  else Ok c.

(** The timer's callback holds a weak pointer; [weak_forceClose] is what it runs. *)
Definition forceCloseWithDelay c : TcpConnection :=
  if bool_decide (state_ c = kConnected) || bool_decide (state_ c = kDisconnecting)
  then set_state kDisconnecting c else c.
Definition weak_forceClose : TcpConnection → outcome TcpConnection := WeakCallback_call alive forceClose.

Definition startReadInLoop c : outcome TcpConnection :=
  _ ← assertInLoopThread in_loop;
  if negb (reading_ c) || negb (isReading (channel_ c))
  then Ok (set_reading true (enableReading c)) else Ok c.
Definition startRead c : outcome TcpConnection :=
  if in_loop then startReadInLoop c else Ok (queueInLoop FStartReadInLoop c).

Definition stopReadInLoop c : outcome TcpConnection :=
  _ ← assertInLoopThread in_loop;
  if reading_ c || isReading (channel_ c)
  then Ok (set_reading false (disableReading c)) else Ok c.
Definition stopRead c : outcome TcpConnection :=
  if in_loop then stopReadInLoop c else Ok (queueInLoop FStopReadInLoop c).

(** The direct write of [sendInLoop]: bytes written, whether it was fatal, and
    the connection. *)
Definition try_write (data : list byte) (w : kernel_write) c : Z * bool * TcpConnection :=
  let len := sz data in
  if negb (isWriting (channel_ c)) && (readableBytes (outputBuffer_ c) =? 0) then
    match w len with
    | inr n =>
      let c := add_sent (take (Z.to_nat n) data) c in
      (n, false, if (len - n =? 0) && writeCompleteCallback_ c then queueInLoop FWriteComplete c else c)
    | inl errno =>
      (0, negb (errno =? EWOULDBLOCK) && ((errno =? EPIPE) || (errno =? ECONNRESET)), c)
    end
  else (0, false, c).

Definition sendInLoop (data : list byte) (w : kernel_write) c : outcome TcpConnection :=
  _ ← assertInLoopThread in_loop;
  if bool_decide (state_ c = kDisconnected) then Ok c else
  let len := sz data in
  let '(nwrote, faultError, c) := try_write data w c in
  let remaining := u64 (len - nwrote) in
  assert! remaining <=? len;;
  let c := if faultError then c else add_accepted data c in
  if negb faultError && (0 <? remaining) then
    let oldLen := readableBytes (outputBuffer_ c) in
    let c := if (highWaterMark_ c <=? u64 (oldLen + remaining)) && (oldLen <? highWaterMark_ c)
                && highWaterMarkCallback_ c
             then queueInLoop (FHighWaterMark (u64 (oldLen + remaining))) c else c in
    out ← append (outputBuffer_ c) (drop (Z.to_nat nwrote) data);
    let c := set_output out c in
    if negb (isWriting (channel_ c)) then Ok (enableWriting c) else Ok c
  else Ok c.

Definition send (data : list byte) (w : kernel_write) c : outcome TcpConnection :=
  if bool_decide (state_ c = kConnected) then
    if in_loop then sendInLoop data w c else Ok (queueInLoop (FSendInLoop data) c)
  else Ok c.

(** [send(Buffer* )]: what is left of the buffer, and the connection. *)
Definition send_buffer (buf : Buffer) (w : kernel_write) c : outcome (Buffer * TcpConnection) :=
  if bool_decide (state_ c = kConnected) then
    if in_loop then
      c ← sendInLoop (contents buf) w c; Ok (retrieveAll buf, c)
    else
      '(data, buf) ← retrieveAllAsString buf; Ok (buf, queueInLoop (FSendInLoop data) c)
  else Ok (buf, c).

Definition run_api (a : api) c : outcome TcpConnection :=
  match a with
  | ASend data w => send data w c
  | AShutdown => shutdown c
  | AForceClose => forceClose c
  | AForceCloseWithDelay => Ok (forceCloseWithDelay c)
  | AStartRead => startRead c
  | AStopRead => stopRead c
  | ASetHighWaterMark cb mark => Ok (set_mark cb mark c)
  | ARetrieve len =>
    b ← retrieve (inputBuffer_ c) (Z.min (Z.max 0 len) (readableBytes (inputBuffer_ c)));
    Ok (set_input b [] c)
  end.

Fixpoint run_apis (l : list api) c : outcome TcpConnection :=
  match l with [] => Ok c | a :: l' => c ← run_api a c; run_apis l' c end.

(** Running one of the user's callbacks. *)
Definition callback (e : event) c : outcome TcpConnection :=
  let c := add_log e c in run_apis (user e c) c.

Definition connectEstablished (self : Ptr) c : outcome TcpConnection :=
  _ ← assertInLoopThread in_loop;
  assert! bool_decide (state_ c = kConnecting);;
  let c := set_state kConnected c in
  let c := set_channel (tie self (channel_ c)) c in
  let c := enableReading c in
  callback EvUp c.

Definition connectDestroyed c : outcome TcpConnection :=
  _ ← assertInLoopThread in_loop;
  c ← (if bool_decide (state_ c = kConnected) then
         callback EvDown (disableAll (set_state kDisconnected c))
       else Ok c);
  remove c.

(** [closeCallback_] tells the owner. *)
Definition handleClose c : outcome TcpConnection :=
  _ ← assertInLoopThread in_loop;
  assert! bool_decide (state_ c = kConnected) || bool_decide (state_ c = kDisconnecting);;
  let c := disableAll (set_state kDisconnected c) in
  c ← callback EvDown c;
  Ok (set_owner OwnerNotified c).

(** [getSocketError] and a log line. *)
Definition handleError c : outcome TcpConnection := Ok c.

Definition handleRead (readv : list Z → Z + list byte) c : outcome TcpConnection :=
  _ ← assertInLoopThread in_loop;
  let writable := writableBytes (inputBuffer_ c) in
  let got := readv (if writable <? extrabuf_size then [writable; extrabuf_size] else [writable]) in
  '(b, n, savedErrno) ← readFd readv (inputBuffer_ c);
  let c := set_input b (match got with inr d => d | inl _ => [] end) c in
  if 0 <? n then callback EvMessage c
  else if n =? 0 then handleClose c
  else handleError c.

Definition handleWrite (w : kernel_write) c : outcome TcpConnection :=
  _ ← assertInLoopThread in_loop;
  if isWriting (channel_ c) then
    match w (readableBytes (outputBuffer_ c)) with
    | inr n =>
      if 0 <? n then
        let c := add_sent (take (Z.to_nat n) (contents (outputBuffer_ c))) c in
        out ← retrieve (outputBuffer_ c) n;
        let c := set_output out c in
        if readableBytes (outputBuffer_ c) =? 0 then
          let c := disableWriting c in
          let c := if writeCompleteCallback_ c then queueInLoop FWriteComplete c else c in
          if bool_decide (state_ c = kDisconnecting) then shutdownInLoop c else Ok c
        else Ok c
      else Ok c
    | inl errno => Ok c
    end
  else Ok c.

Definition forceCloseInLoop c : outcome TcpConnection :=
  _ ← assertInLoopThread in_loop;
  if bool_decide (state_ c = kConnected) || bool_decide (state_ c = kDisconnecting)
  then handleClose c else Ok c.

(** Running a functor; one that holds a raw pointer to a dead connection is
    undefined behaviour.  [w] answers the write [sendInLoop] may do. *)
Definition run_functor (f : functor) (w : kernel_write) c : outcome TcpConnection :=
  if negb (alive c) then Fail UB else
  match f with
  | FSendInLoop data => sendInLoop data w c
  | FShutdownInLoop => shutdownInLoop c
  | FStartReadInLoop => startReadInLoop c
  | FStopReadInLoop => stopReadInLoop c
  | FForceCloseInLoop => forceCloseInLoop c
  | FWriteComplete => callback EvWriteComplete c
  | FHighWaterMark len => callback (EvHighWaterMark len) c
  | FConnectDestroyed => c ← connectDestroyed c; Ok (set_owner OwnerGone c)
  end.
End TcpConnection.

(** The functors that keep the connection alive. *)
Definition holds_ref (f : functor) : bool :=
  match f with
  | FForceCloseInLoop | FWriteComplete | FHighWaterMark _ | FConnectDestroyed => true
  | _ => false
  end.

(** The functors with a raw pointer that another thread may queue at any time,
    also when the connection is down; and all that need the connection: while one
    of them is queued the last reference must not go away. *)
Definition raw_call (f : functor) : bool :=
  match f with FSendInLoop _ | FShutdownInLoop => true | _ => false end.
Definition needs_conn (f : functor) : bool := holds_ref f || raw_call f.

(** ** Calls from other threads

    [send], [shutdown], [forceClose], [forceCloseWithDelay] and [stopRead] touch
    two things the threads share: [state_], without a lock, and the loop's queue.
    A call reads [state_] ([state_test]) and then makes its accesses one by one;
    the loop's thread and other calls may run between any two of them. *)
Inductive access :=
  | SetDisconnecting              (* setState(kDisconnecting) *)
  | Enqueue (f : functor).        (* queueInLoop, under the loop's mutex *)

Definition run_access (x : access) (c : TcpConnection) : TcpConnection :=
  match x with SetDisconnecting => set_state kDisconnecting c | Enqueue f => queueInLoop f c end.

Definition state_test (a : api) (s : StateE) : bool :=
  match a with
  | ASend _ _ | AShutdown => bool_decide (s = kConnected)
  | AForceClose | AForceCloseWithDelay => bool_decide (s = kConnected) || bool_decide (s = kDisconnecting)
  | _ => true
  end.

Definition accesses (a : api) : list access :=
  match a with
  | ASend data _ => [Enqueue (FSendInLoop data)]
  | AShutdown => [SetDisconnecting; Enqueue FShutdownInLoop]
  | AForceClose => [SetDisconnecting; Enqueue FForceCloseInLoop]
  | AForceCloseWithDelay => [SetDisconnecting]   (* the timer: [OpDelayed] below *)
  | AStartRead => [Enqueue FStartReadInLoop]
  | AStopRead => [Enqueue FStopReadInLoop]
  | ASetHighWaterMark _ _ | ARetrieve _ => []
  end.

(** ** What happens to a connection

    The channel's callbacks are the connection's handlers; the channel is at
    [channel_addr] of the world the dispatch of Channel.v works in. *)
Definition channel_addr : Ptr := 1.
Abbreviation conn_world := (TcpConnection * gmap Ptr (Channel handler))%type.

#[export] Program Instance conn_store : ChannelStore handler conn_world := {
  chan_lookup w p := if decide (p = channel_addr) then Some (channel_ w.1) else w.2 !! p;
  chan_insert p ch w := if decide (p = channel_addr) then (set_channel ch w.1, w.2)
                        else (w.1, <[p := ch]> w.2)
}.
Next Obligation. intros w p c. simpl. by destruct (decide (p = channel_addr)); [|apply lookup_insert_eq]. Qed.
Next Obligation.
  intros w p q c Hpq. simpl. destruct (decide (p = channel_addr)), (decide (q = channel_addr));
    simpl; congruence || by rewrite lookup_insert_ne.
Qed.

(** What the system calls made while an event is handled answer. *)
Record kernel_answers := mkKernel { k_readv : list Z → Z + list byte; k_write : kernel_write }.

Section Operations.
Context (user : event → TcpConnection → list api).

Definition run_handler (k : kernel_answers) (h : handler) c : outcome TcpConnection :=
  match h with
  | HandleRead => handleRead true user (k_readv k) c
  | HandleWrite => handleWrite true (k_write k) c
  | HandleClose => handleClose true user c
  | HandleError => handleError c
  end.

(** The poller stored [revents]; the loop calls [Channel::handleEvent]. *)
Definition handle_event (revents : Z) (k : kernel_answers) (now : Z) c : outcome TcpConnection :=
  let call h (_ : Z) (w : conn_world) := c ← run_handler k h w.1; Ok (c, w.2) in
  w ← handleEvent call (λ w _, alive w.1) channel_addr now
        (set_channel (set_revents revents (channel_ c)) c, ∅);
  Ok w.1.

Inductive op :=
  | OpEstablish (self : Ptr)     (* the owner establishes it *)
  | OpApi (a : api)              (* a call from the loop's thread *)
  | OpOther (x : access)         (* an access of a call from another thread *)
  (* the poller reported [revents]; handlers of other channels that run first
     make the calls [pre] *)
  | OpEvent (pre : list api) (revents : Z) (k : kernel_answers) (now : Z)
  | OpFunctor (w : kernel_write) (* the loop runs the oldest functor *)
  | OpOwnerPost                  (* the owner queues connectDestroyed *)
  | OpDestroy                    (* the owner calls connectDestroyed itself *)
  | OpRelease                    (* the last reference goes away *)
  | OpDelayed.                   (* a timer of forceCloseWithDelay fires *)

Definition run_op (o : op) c : outcome TcpConnection :=
  match o with
  | OpEstablish self => connectEstablished true user self c
  | OpApi a => run_api true a c
  | OpOther x => Ok (run_access x c)
  | OpEvent pre revents k now => c ← run_apis true pre c; handle_event revents k now c
  | OpFunctor w =>
    match queue c with
    | [] => Ok c
    | f :: q => run_functor true user f w (set_queue q c)
    end
  | OpOwnerPost => Ok (set_owner OwnerPosted (queueInLoop FConnectDestroyed c))
  | OpDestroy => c ← connectDestroyed true user c; Ok (set_owner OwnerGone c)
  | OpRelease => TcpConnection_dtor c
  | OpDelayed => weak_forceClose c
  end.

(** *** What is asked of the environment

    write(2) takes at most what it is given. *)
Definition write_ok (w : kernel_write) : Prop :=
  ∀ len, 0 ≤ len → match w len with inr n => 0 ≤ n ≤ len | inl _ => True end.

Definition api_ok (s : StateE) (a : api) : Prop :=
  match a with
  | ASend data w => write_ok w ∧ sz data ≤ vec_max
  | AStartRead | AStopRead => s ≠ kDisconnected
  | _ => True
  end.

(** What other threads may call: the input buffer and the high water mark are
    the loop's, and a [startRead] they queue may run after the connection
    closed. *)
Definition other_ok (s : StateE) (a : api) : Prop :=
  match a with
  | ASend data w => sz data ≤ vec_max
  | AShutdown | AForceClose | AForceCloseWithDelay => True
  | AStopRead => s ≠ kDisconnected
  | _ => False
  end.

(** When the accesses of such calls come.  The functor of a [send] may come at any
    time: its test is not made again.  The functors of [shutdown] and [forceClose]
    follow their own write, and [state_] never goes back to [kConnected].  The
    write must not come after [handleClose] ([late_write_closes_twice]). *)
Definition access_ok (s : StateE) (x : access) : Prop :=
  match x with
  | SetDisconnecting => s = kConnected ∨ s = kDisconnecting
  | Enqueue (FSendInLoop data) => sz data ≤ vec_max
  | Enqueue (FShutdownInLoop | FForceCloseInLoop) => s = kDisconnecting ∨ s = kDisconnected
  | Enqueue FStopReadInLoop => s ≠ kDisconnected
  | Enqueue _ => False
  end.

(** A call of another thread that nothing interrupts is its test and its
    accesses. *)
Lemma other_call a c : other_ok (state_ c) a →
  run_api false a c = Ok (if state_test a (state_ c) then foldl (λ c x, run_access x c) c (accesses a) else c).
Proof.
  intros Ha. destruct a; try done; unfold run_api, send, shutdown, forceClose, forceCloseWithDelay, state_test.
  1,2: by case_bool_decide.
  all: by destruct (_ || _).
Qed.

(** User code reads no more from a connection it has been told is down.  (It may
    send what it finds in the input buffer.) *)
Definition user_ok : Prop := ∀ e c a, wf (inputBuffer_ c) → a ∈ user e c → api_ok (state_ c) a.

Definition op_ok (o : op) c : Prop :=
  match o with
  | OpEstablish _ => state_ c = kConnecting
  | OpApi a => state_ c ≠ kConnecting ∧ alive c = true ∧ api_ok (state_ c) a
  | OpOther x => state_ c ≠ kConnecting ∧ alive c = true ∧ access_ok (state_ c) x
  | OpEvent pre revents k now =>
    events_ (channel_ c) ≠ 0 ∧ Forall (api_ok (state_ c)) pre ∧
    readv_bounded (k_readv k) ∧ write_ok (k_write k) ∧
    (close_test revents = true → read_test revents = false)
  | OpFunctor w => write_ok w ∧ (write_shut c = true → ∀ len, w len = inl EPIPE)
  | OpOwnerPost => owner c = OwnerNotified
  | OpDestroy => owner c = OwnerHas ∧ state_ c = kConnected ∧ Forall (λ f, holds_ref f = true) (queue c)
  | OpRelease => owner c = OwnerGone ∧ alive c = true ∧ Forall (λ f, needs_conn f = false) (queue c)
  | OpDelayed => state_ c ≠ kConnecting
  end.

Definition conn_step c c' : Prop := ∃ o, op_ok o c ∧ run_op o c = Ok c'.

Lemma other_call_steps a c c' : state_ c ≠ kConnecting → alive c = true → other_ok (state_ c) a →
  run_api false a c = Ok c' → rtc conn_step c c'.
Proof.
  intros Hs Ha Hok. rewrite other_call by done. intros [= <-].
  assert (∀ x c, state_ c ≠ kConnecting → alive c = true → access_ok (state_ c) x →
    conn_step c (run_access x c)) as Hstep.
  { intros x c1 ???. by exists (OpOther x). }
  destruct (state_test a (state_ c)) eqn:Ht; [|done].
  destruct a; try done; cbn [accesses foldl].
  - by apply rtc_once, Hstep.
  - apply bool_decide_eq_true in Ht. eapply rtc_l; [apply (Hstep SetDisconnecting); [done..|cbn; by left]|].
    apply rtc_once, Hstep; [done..|cbn; by left].
  - apply orb_true_iff in Ht. rewrite !bool_decide_eq_true in Ht.
    eapply rtc_l; [by apply (Hstep SetDisconnecting)|]. apply rtc_once, Hstep; [done..|cbn; by left].
  - apply orb_true_iff in Ht. rewrite !bool_decide_eq_true in Ht. by apply rtc_once, Hstep.
  - by apply rtc_once, Hstep.
Qed.
End Operations.

(** ** The invariant *)
Definition buf_ok (b : Buffer) : Prop := wf b ∧ kCheapPrepend ≤ sz (buffer_ b).

Lemma buf_ok_append b d : buf_ok b → sz d ≤ vec_max →
  safe (append b d) (λ b', buf_ok b' ∧ contents b' = contents b ++ d).
Proof.
  intros [Hwf H8] Hd. destruct (append_spec b d Hwf Hd) as [(b' & -> & ? & ? & Hr)|[-> _]]; [|done].
  split; [|done]. split; [done|]. destruct Hr as (_ & ? & _). lia.
Qed.

Lemma buf_ok_retrieve b len : buf_ok b → 0 ≤ len ≤ sz (contents b) →
  safe (retrieve b len) (λ b', buf_ok b' ∧ contents b' = drop (Z.to_nat len) (contents b)).
Proof.
  intros [Hwf H8] Hlen. pose proof (retrieve_spec b len Hwf H8 ltac:(lia)) as H.
  rewrite decide_True in H by lia. destruct H as (b' & -> & ? & ? & Hb & _).
  by rewrite <-Hb in H8.
Qed.

Lemma buf_ok_readFd readv b : buf_ok b → readv_bounded readv →
  safe (readFd readv b) (λ r, buf_ok r.1.1 ∧
    match readv (if writableBytes b <? extrabuf_size then [writableBytes b; extrabuf_size]
                 else [writableBytes b]) with
    | inl _ => r.1.1 = b ∧ r.1.2 = -1
    | inr data => contents r.1.1 = contents b ++ data ∧ r.1.2 = sz data
    end).
Proof.
  intros [Hwf H8] Hk. pose proof (readFd_cases readv b Hwf Hk) as H.
  destruct (readv _) as [e|data]; [by rewrite H|].
  destruct H as [(b' & -> & ? & ? & Hr & _)|[-> _]]; [|done].
  split; [|done]. split; [done|]. destruct Hr as (_ & ? & _). simpl. lia.
Qed.

(** Events reported while the connection is up, and after it went down. *)
Definition mid (e : event) : bool :=
  match e with EvMessage | EvWriteComplete | EvHighWaterMark _ => true | _ => false end.
Definition late (e : event) : bool :=
  match e with EvWriteComplete | EvHighWaterMark _ => true | _ => false end.
Definition log_up (l : list event) : Prop := ∃ m, l = EvUp :: m ∧ Forall mid m.
Definition log_down (l : list event) : Prop :=
  ∃ m t, l = EvUp :: m ++ EvDown :: t ∧ Forall mid m ∧ Forall late t.

(** [wired r h ch]: the callbacks are the connection's; [r], [h]: what the
    dispatch stored. *)
Definition wired (r : Z) (h : bool) (ch : Channel handler) : Prop :=
  revents_ ch = r ∧ eventHandling_ ch = h ∧
  readCallback_ ch = Some HandleRead ∧ writeCallback_ ch = Some HandleWrite ∧
  closeCallback_ ch = Some HandleClose ∧ errorCallback_ ch = Some HandleError.

Definition indexed (ch : Channel handler) : Prop :=
  addedToLoop_ ch = true ∧ (index_ ch = kAdded ∨ index_ ch = kDeleted).

Record base (r : Z) (h : bool) c : Prop := {
  base_in : buf_ok (inputBuffer_ c);
  base_out : buf_ok (outputBuffer_ c);
  base_stream : sent c ++ contents (outputBuffer_ c) = accepted c;
  base_input : ∃ d, received c = d ++ contents (inputBuffer_ c);
  base_wired : wired r h (channel_ c)
}.

(** What may be queued while the connection is up. *)
Definition queued_ok (s : StateE) (f : functor) : Prop :=
  match f with
  | FSendInLoop data => sz data ≤ vec_max
  | FShutdownInLoop => s = kDisconnecting
  | FConnectDestroyed | FStartReadInLoop => False
  | _ => True
  end.

Record up (r : Z) (h : bool) c : Prop := {
  up_base : base r h c;
  up_state : state_ c = kConnected ∨ state_ c = kDisconnecting;
  up_owner : owner c = OwnerHas;
  up_alive : alive c = true;
  up_indexed : indexed (channel_ c);
  up_writing : isWriting (channel_ c) = negb (bool_decide (contents (outputBuffer_ c) = []));
  up_shut : write_shut c = true → state_ c = kDisconnecting ∧ contents (outputBuffer_ c) = [];
  up_log : log_up (log c);
  up_queue : Forall (queued_ok (state_ c)) (queue c)
}.

(** The functors that do nothing to a connection that was destroyed. *)
Definition harmless (f : functor) : Prop :=
  match f with FStartReadInLoop | FStopReadInLoop | FConnectDestroyed => False | _ => True end.

Definition queue_ok (o : owner_state) (q : list functor) : Prop :=
  match o with
  | OwnerHas | OwnerNotified => FConnectDestroyed ∉ q
  | OwnerPosted => ∃ q1 q2, q = q1 ++ FConnectDestroyed :: q2 ∧ (FConnectDestroyed ∉ q1) ∧ Forall harmless q2
  | OwnerGone => Forall harmless q
  end.

(** [OwnerHas]: in the middle of closing. *)
Record down (r : Z) (h : bool) (o : owner_state) c : Prop := {
  down_base : base r h c;
  down_state : state_ c = kDisconnected;
  down_owner : owner c = o;
  down_events : events_ (channel_ c) = 0;
  down_added : match o with
               | OwnerGone => addedToLoop_ (channel_ c) = false
               | _ => indexed (channel_ c) ∧ alive c = true
               end;
  down_dead : alive c = false → queue c = [];
  down_log : log_down (log c);
  down_noread : FStartReadInLoop ∉ queue c;
  down_queue : queue_ok o (queue c)
}.

Record unborn c : Prop := {
  unborn_base : base 0 false c;
  unborn_state : state_ c = kConnecting;
  unborn_alive : alive c = true;
  unborn_owner : owner c = OwnerHas;
  unborn_queue : queue c = [];
  unborn_log : log c = [];
  unborn_out : contents (outputBuffer_ c) = [];
  unborn_shut : write_shut c = false;
  unborn_events : events_ (channel_ c) = 0
}.

Definition born c : Prop := ∃ r, up r false c ∨ ∃ o, o ≠ OwnerHas ∧ down r false o c.
Definition conn_inv c : Prop := unborn c ∨ born c.

(** What an operation that is not the owner's does to the owner's reference. *)
Definition owner_next (o o' : owner_state) : Prop :=
  o' = o ∨ (o = OwnerHas ∧ o' = OwnerNotified) ∨ (o = OwnerPosted ∧ o' = OwnerGone).
Definition born_after (o : owner_state) c : Prop := born c ∧ owner_next o (owner c).

(** *** Channel updates *)
Lemma wired_update r h f ch : wired r h ch → wired r h (f ch) →
  wired r h (poller_index (set_addedToLoop true (f ch))) ∧
  indexed (poller_index (set_addedToLoop true (f ch))).
Proof.
  intros _ H. split; [exact H|]. split; [done|]. unfold poller_index.
  case_bool_decide; cbn; auto.
Qed.

Lemma base_conn_update r h f c : base r h c → wired r h (f (channel_ c)) → base r h (conn_update f c).
Proof. intros [? ? ? ? ?] Hw. constructor; try done. Qed.

Lemma up_conn_update r h f c : up r h c → wired r h (f (channel_ c)) →
  isWriting (f (channel_ c)) = isWriting (channel_ c) → up r h (conn_update f c).
Proof.
  intros [? ? ? ? ? Hwr ? ? ?] Hw Heq. constructor; try done.
  - by apply base_conn_update.
  - by apply (wired_update r h f (channel_ c)), Hw; apply base_wired.
  - etransitivity; [|exact Hwr]. exact Heq.
Qed.

(** Taking an invariant apart for a setter that leaves the buffers alone. *)
Ltac same_base := intros [[? ? ? ? ?] ? ? ? ? ? ? ? ?]; constructor;
  [constructor; cbn in *; try done | try done ..].

Lemma up_reading r h b c : up r h c → up r h (set_reading b c).
Proof. same_base. Qed.

Lemma up_mark r h b n c : up r h c → up r h (set_mark b n c).
Proof. same_base. Qed.

Lemma up_queueInLoop r h f c : up r h c → queued_ok (state_ c) f → up r h (queueInLoop f c).
Proof. same_base. apply Forall_app_2; [done|]. by constructor. Qed.

Lemma up_disconnecting r h c : up r h c → up r h (set_state kDisconnecting c).
Proof.
  intros Hu. pose proof (up_shut _ _ _ Hu) as Hs. revert Hu. same_base; [by right| |].
  - intros E. split; [done|]. by apply Hs.
  - eapply Forall_impl; [done|]. by intros [].
Qed.

Lemma up_no_destroy r h c : up r h c →
  (FConnectDestroyed ∉ queue c) ∧ (FStartReadInLoop ∉ queue c).
Proof.
  intros Hu. split; intros Hin; exact (proj1 (Forall_forall _ _) (up_queue _ _ _ Hu) _ Hin).
Qed.

(** *** Sending

    [owes rest c]: everything the connection took over is sent or buffered,
    except [rest], which comes last. *)
Definition set_accepted d c := mkConn (state_ c) (reading_ c) (channel_ c) (inputBuffer_ c)
  (outputBuffer_ c) (highWaterMark_ c) (writeCompleteCallback_ c) (highWaterMarkCallback_ c)
  (write_shut c) (queue c) (owner c) (alive c) (log c) (received c) (sent c) d.
Definition owes (r : Z) (h : bool) (rest : list byte) c : Prop :=
  up r h (set_accepted (sent c ++ contents (outputBuffer_ c)) c) ∧
  accepted c = sent c ++ contents (outputBuffer_ c) ++ rest ∧ write_shut c = false.

Lemma up_readable r h c : up r h c → readableBytes (outputBuffer_ c) = sz (contents (outputBuffer_ c)).
Proof. intros Hu. apply readable_contents, (base_out _ _ _ (up_base _ _ _ Hu)). Qed.

Lemma sz_nil_iff {A} (l : list A) : (sz l =? 0) = bool_decide (l = []).
Proof. destruct l; [done|]. case_bool_decide; [done|]. apply Z.eqb_neq. unfold sz. simpl. lia. Qed.

Lemma up_idle r h c : up r h c →
  negb (isWriting (channel_ c)) && (readableBytes (outputBuffer_ c) =? 0) =
    bool_decide (contents (outputBuffer_ c) = []).
Proof.
  intros Hu. rewrite (up_readable r h), sz_nil_iff, (up_writing r h) by done.
  by case_bool_decide.
Qed.

Lemma owes_queueInLoop r h f rest c : owes r h rest c → queued_ok (state_ c) f →
  owes r h rest (queueInLoop f c).
Proof. intros (Hu & ? & ?) Hf. split_and!; [|done..]. by apply (up_queueInLoop _ _ f) in Hu. Qed.

Lemma owes_start r h data c : up r h c → write_shut c = false → owes r h data (add_accepted data c).
Proof.
  intros Hu Hs. pose proof (base_stream _ _ _ (up_base _ _ _ Hu)) as Hst. split_and!; [|cbn|done].
  - cbn. rewrite Hst. by destruct c.
  - by rewrite <-Hst, app_assoc.
Qed.

Lemma owes_sent r h n data c : up r h c → write_shut c = false → contents (outputBuffer_ c) = [] →
  owes r h (drop n data) (add_accepted data (add_sent (take n data) c)).
Proof.
  intros Hu Hs Ho. pose proof (base_stream _ _ _ (up_base _ _ _ Hu)) as Hst.
  split_and!; [|cbn|done].
  - revert Hu. same_base.
  - rewrite <-Hst, Ho, app_nil_r. simpl. by rewrite <-app_assoc, take_drop.
Qed.

(** What [sendInLoop] knows after the direct write. *)
Lemma try_write_post r h data w c :
  up r h c → write_ok w → (write_shut c = true → ∀ len, w len = inl EPIPE) →
  let '(nwrote, fault, c1) := try_write data w c in
  0 ≤ nwrote ≤ sz data ∧
  if fault : bool then c1 = c else owes r h (drop (Z.to_nat nwrote) data) (add_accepted data c1).
Proof.
  intros Hu Hw Hshut. pose proof (sz_nonneg data). unfold try_write. rewrite (up_idle r h c Hu).
  case_bool_decide as Ho.
  - specialize (Hw (sz data) ltac:(lia)). destruct (w (sz data)) as [e|n] eqn:Ew.
    + split; [lia|]. destruct (negb (e =? EWOULDBLOCK) && _) eqn:Ef; [done|].
      apply owes_start; [done|]. destruct (write_shut c); [|done].
      specialize (Hshut eq_refl (sz data)). rewrite Ew in Hshut. injection Hshut as ->. done.
    + split; [lia|]. assert (write_shut c = false) as Hs.
      { destruct (write_shut c); [|done]. specialize (Hshut eq_refl (sz data)). congruence. }
      pose proof (owes_sent r h (Z.to_nat n) data c Hu Hs Ho) as Hq.
      destruct (_ && _); [|done]. by apply (owes_queueInLoop _ _ FWriteComplete) in Hq.
  - split; [lia|]. apply owes_start; [done|]. destruct (write_shut c) eqn:Hs; [|done].
    by destruct (up_shut _ _ _ Hu Hs).
Qed.

Lemma owes_nil r h c : owes r h [] c → up r h c.
Proof.
  intros (Hu & Ha & _). rewrite app_nil_r in Ha. rewrite <-Ha in Hu. by destruct c.
Qed.

(** Buffering what the kernel did not take. *)
Lemma owes_buffered r h rest out c :
  owes r h rest c → rest ≠ [] → buf_ok out → contents out = contents (outputBuffer_ c) ++ rest →
  up r h (let c := set_output out c in
          if negb (isWriting (channel_ c)) then enableWriting c else c).
Proof.
  intros (Hu & Ha & Hs) Hr Hb Hc. cbn zeta.
  assert (contents out ≠ []) as Hne by (rewrite Hc; by destruct (contents (outputBuffer_ c)), rest).
  assert (isWriting (channel_ c) = true ∨ isWriting (channel_ c) = false) as Hwr by by destruct isWriting; auto.
  revert Hu. cbn [channel_ set_output]. destruct Hwr as [Hwr|Hwr]; rewrite Hwr; simpl.
  - same_base; cbn in *; [by rewrite Hc| |congruence].
    by rewrite bool_decide_false.
  - intros Hu. pose proof (up_base _ _ _ Hu) as Hbase.
    destruct (wired_update r h or_write (channel_ c)) as [Hw Hi]; [apply Hbase..|].
    revert Hu. same_base; cbn in *; [by rewrite Hc| |congruence].
    rewrite bool_decide_false by done. exact (isWriting_or_write (channel_ c)).
Qed.

Lemma sendInLoop_up r h data w c :
  up r h c → write_ok w → sz data ≤ vec_max → (write_shut c = true → ∀ len, w len = inl EPIPE) →
  safe (sendInLoop true data w c) (up r h).
Proof.
  intros Hu Hw Hd Hs. unfold sendInLoop. cbn [mbind outcome_bind assertInLoopThread].
  rewrite bool_decide_false by (destruct (up_state _ _ _ Hu); congruence).
  pose proof (try_write_post r h data w c Hu Hw Hs) as Ht.
  destruct (try_write data w c) as [[nwrote fault] c1]. destruct Ht as [Hn Hp].
  rewrite (uwrap_small 64) by (unfold vec_max in *; lia).
  apply safe_assert; [apply Z.leb_le; lia|]. destruct fault; cbn [negb andb]; [by subst|].
  revert Hp. generalize (add_accepted data c1). clear c1. intros c2 Hp.
  destruct (Z.ltb_spec 0 (sz data - nwrote)); simpl.
  - match goal with |- context [if ?b then queueInLoop ?f c2 else c2] =>
      set (c3 := if b then queueInLoop f c2 else c2) end.
    assert (owes r h (drop (Z.to_nat nwrote) data) c3) as Hp3.
    { subst c3. destruct (_ && _); [by apply owes_queueInLoop|done]. }
    clearbody c3. eapply safe_bind.
    + apply buf_ok_append; [apply Hp3|]. rewrite sz_drop. lia.
    + intros out [Hb Hc]. eapply (owes_buffered _ _ _ out) in Hp3; [|.. |exact Hb|exact Hc].
      * simpl in *. by destruct (isWriting (channel_ c3)).
      * intros E. pose proof (sz_drop (Z.to_nat nwrote) data) as Hz. rewrite E in Hz.
        unfold sz at 1 in Hz. simpl in Hz. lia.
  - apply (owes_nil r h). rewrite drop_ge in Hp by (unfold sz in *; lia). done.
Qed.

Lemma shutdownInLoop_up r h c : up r h c → state_ c = kDisconnecting →
  safe (shutdownInLoop true c) (up r h).
Proof.
  intros Hu Hs. unfold shutdownInLoop. simpl. rewrite (up_writing r h) by done.
  case_bool_decide as Ho; simpl; [|done]. revert Hu. same_base.
Qed.

Lemma up_not_disconnected r h c : up r h c → state_ c ≠ kDisconnected.
Proof. intros Hu. destruct (up_state _ _ _ Hu); congruence. Qed.

Lemma forceClose_up r h c : up r h c → safe (forceClose c) (up r h).
Proof.
  intros Hu. unfold forceClose. destruct (_ || _); simpl; [|done].
  by apply up_queueInLoop; [apply up_disconnecting|].
Qed.

Lemma stopReadInLoop_up r h c : up r h c → safe (stopReadInLoop true c) (up r h).
Proof.
  intros Hu. unfold stopReadInLoop. simpl. destruct (_ || _); simpl; [|done].
  apply up_reading, up_conn_update; [done|apply Hu|apply isWriting_clear_read].
Qed.

Lemma startReadInLoop_up r h c : up r h c → safe (startReadInLoop true c) (up r h).
Proof.
  intros Hu. unfold startReadInLoop. simpl. destruct (_ || _); simpl; [|done].
  apply up_reading, up_conn_update; [done|apply Hu|apply isWriting_or_read].
Qed.

(** What a call asks of its caller, whatever its thread. *)
Definition call_ok (in_loop : bool) (s : StateE) (a : api) : Prop :=
  if in_loop then api_ok s a else other_ok s a.

Lemma api_up in_loop r h a c : up r h c → call_ok in_loop (state_ c) a →
  safe (run_api in_loop a c) (up r h).
Proof.
  intros Hu Ha. assert (api_ok (state_ c) a ∨ in_loop = false ∧ other_ok (state_ c) a) as Ha'
    by by destruct in_loop; auto.
  destruct a as [data w| | | | | |cb mark|len]; simpl.
  - unfold send. case_bool_decide as Hs; simpl; [|done]. destruct in_loop.
    + destruct Ha' as [[Hw Hd]|[??]]; [|done]. apply sendInLoop_up; [done..|].
      intros E. destruct (up_shut _ _ _ Hu E). congruence.
    + apply up_queueInLoop; [done|]. by destruct Ha' as [[_ ?]|[_ ?]].
  - unfold shutdown. case_bool_decide; simpl; [|done]. apply up_disconnecting in Hu.
    destruct in_loop; [by apply shutdownInLoop_up|by apply up_queueInLoop].
  - by apply forceClose_up.
  - unfold forceCloseWithDelay. destruct (_ || _); [by apply up_disconnecting|done].
  - unfold startRead. destruct in_loop; [by apply startReadInLoop_up|by destruct Ha].
  - unfold stopRead. destruct in_loop; [by apply stopReadInLoop_up|by apply up_queueInLoop].
  - by apply up_mark.
  - pose proof (base_in _ _ _ (up_base _ _ _ Hu)) as Hb. pose proof (sz_nonneg (contents (inputBuffer_ c))).
    rewrite readable_contents by apply Hb. eapply safe_bind; [apply buf_ok_retrieve; [done|lia]|].
    intros b [Hb' Hc]. revert Hu. same_base.
    destruct base_input0 as [d Hd]. rewrite Hd, Hc, app_nil_r.
    exists (d ++ take (Z.to_nat (Z.min (Z.max 0 len) (sz (contents (inputBuffer_ c))))) (contents (inputBuffer_ c))).
    by rewrite <-app_assoc, take_drop.
Qed.

(** *** The user's callbacks *)
Lemma api_ok_live s s' a : api_ok s a → s' ≠ kDisconnected → api_ok s' a.
Proof. by destruct a. Qed.

Lemma apis_up r h l : ∀ c, up r h c → Forall (api_ok (state_ c)) l →
  safe (run_apis true l c) (up r h).
Proof.
  induction l as [|a l IH]; intros c Hu Hl; simpl; [done|].
  apply Forall_cons in Hl as [Ha Hl]. eapply safe_bind; [by apply (api_up true)|].
  intros c' Hu'. apply IH; [done|]. eapply Forall_impl; [exact Hl|].
  intros a' Ha'. eapply api_ok_live; [exact Ha'|]. by eapply up_not_disconnected.
Qed.

Ltac same_down := intros [[? ? ? ? ?] ? ? ? ? ? ? ? ?]; constructor;
  [constructor; cbn in *; try done | try done ..].

Lemma api_down in_loop r h o a c : down r h o c → call_ok in_loop kDisconnected a →
  safe (run_api in_loop a c) (λ c', down r h o c' ∧ queue c' = queue c).
Proof.
  intros Hd Ha. pose proof (down_state _ _ _ _ Hd) as Hs.
  destruct a as [data w| | | | | |cb mark|len]; simpl.
  - unfold send. by rewrite bool_decide_false by congruence.
  - unfold shutdown. by rewrite bool_decide_false by congruence.
  - unfold forceClose. by rewrite !bool_decide_false by congruence.
  - unfold forceCloseWithDelay. by rewrite !bool_decide_false by congruence.
  - by destruct in_loop.
  - by destruct in_loop.
  - split; [|done]. revert Hd. same_down.
  - pose proof (base_in _ _ _ (down_base _ _ _ _ Hd)) as Hb.
    pose proof (sz_nonneg (contents (inputBuffer_ c))).
    rewrite readable_contents by apply Hb. eapply safe_bind; [apply buf_ok_retrieve; [done|lia]|].
    intros b [Hb' Hc]. split; [|done]. revert Hd. same_down.
    destruct base_input0 as [d Hd]. rewrite Hd, Hc, app_nil_r.
    exists (d ++ take (Z.to_nat (Z.min (Z.max 0 len) (sz (contents (inputBuffer_ c))))) (contents (inputBuffer_ c))).
    by rewrite <-app_assoc, take_drop.
Qed.

Lemma apis_down r h o l : ∀ c, down r h o c → Forall (api_ok kDisconnected) l →
  safe (run_apis true l c) (λ c', down r h o c' ∧ queue c' = queue c).
Proof.
  induction l as [|a l IH]; intros c Hd Hl; simpl; [done|].
  apply Forall_cons in Hl as [Ha Hl]. eapply safe_bind; [by apply (api_down true)|].
  intros c' [Hd' <-]. by apply IH.
Qed.

Section Invariant.
Context (user : event → TcpConnection → list api) (Huser : user_ok user).

Lemma user_apis e c : buf_ok (inputBuffer_ c) → Forall (api_ok (state_ c)) (user e c).
Proof. intros [Hwf _]. apply Forall_forall. intros a Ha. by apply (Huser e). Qed.

Lemma log_up_mid l e : log_up l → mid e → log_up (l ++ [e]).
Proof.
  intros (m & -> & Hm) He. exists (m ++ [e]). split; [done|]. apply Forall_app_2; [done|].
  by constructor.
Qed.

Lemma log_down_late l e : log_down l → late e → log_down (l ++ [e]).
Proof.
  intros (m & t & -> & Hm & Ht) He. exists m, (t ++ [e]). split_and!; [|done|].
  { simpl. by rewrite <-app_assoc. }
  apply Forall_app_2; [done|]. by constructor.
Qed.

Lemma callback_up r h e c : up r h c → mid e → safe (callback true user e c) (up r h).
Proof.
  intros Hu He. apply apis_up; [|apply user_apis, Hu]. pose proof (log_up_mid _ e (up_log _ _ _ Hu) He).
  revert Hu. same_base.
Qed.

Lemma callback_down r h o e c : down r h o c → late e →
  safe (callback true user e c) (λ c', down r h o c' ∧ queue c' = queue c).
Proof.
  intros Hd He. pose proof (log_down_late _ e (down_log _ _ _ _ Hd) He). unfold callback.
  change (queue c) with (queue (add_log e c)). apply apis_down.
  - revert Hd. same_down.
  - rewrite <-(down_state _ _ _ _ Hd). apply (user_apis e (add_log e c)), Hd.
Qed.

(** *** Closing *)
Lemma closed_down r h c : up r h c →
  down r h OwnerHas (add_log EvDown (disableAll (set_state kDisconnected c))).
Proof.
  intros Hu. assert (log_down (log c ++ [EvDown])) as Hl.
  { destruct (up_log _ _ _ Hu) as (m & -> & Hm). exists m, []. by split_and!. }
  destruct (wired_update r h clear_all (channel_ c)) as [Hw Hi]; [apply (up_base _ _ _ Hu)..|].
  destruct (up_no_destroy _ _ _ Hu).
  revert Hu. intros [[? ? ? ? ?] ? ? ? ? ? ? ? ?]; constructor; try done.
  intros E. cbn in E. congruence.
Qed.

Lemma close_callback r h c : up r h c →
  safe (callback true user EvDown (disableAll (set_state kDisconnected c)))
       (λ c', down r h OwnerHas c' ∧ queue c' = queue c).
Proof.
  intros Hu. apply closed_down in Hu. unfold callback.
  eapply safe_mono; [apply apis_down; [exact Hu|apply (user_apis EvDown (add_log EvDown (disableAll (set_state kDisconnected c)))), Hu]|].
  intros c' [??]. done.
Qed.

Lemma handleClose_down r h c : up r h c → safe (handleClose true user c) (down r h OwnerNotified).
Proof.
  intros Hu. unfold handleClose. cbn [mbind outcome_bind assertInLoopThread].
  apply safe_assert.
  { destruct (up_state _ _ _ Hu) as [E|E]; rewrite E; done. }
  eapply safe_bind; [by apply close_callback|]. intros c' [Hd Hq].
  destruct (up_no_destroy _ _ _ Hu). revert Hd. same_down.
Qed.

Lemma remove_down r h o c q : down r h o c → o ≠ OwnerGone → queue_ok OwnerGone q →
  safe (remove (set_queue q c)) (λ c', down r h OwnerGone (set_owner OwnerGone c')).
Proof.
  intros Hd Ho Hq. unfold remove.
  assert (indexed (channel_ c) ∧ alive c = true) as [[Ha Hi] Hal] by
    (pose proof (down_added _ _ _ _ Hd); by destruct o).
  apply safe_assert; [unfold isNoneEvent; cbn; by rewrite (down_events _ _ _ _ Hd)|].
  apply safe_assert; [cbn; by destruct Hi as [-> | ->]|].
  assert (FStartReadInLoop ∉ q).
  { intros Hin. exact (proj1 (Forall_forall _ _) Hq _ Hin). }
  revert Hd. same_down. intros E. cbn in E. congruence.
Qed.

Lemma connectDestroyed_up r h c : up r h c → state_ c = kConnected →
  queue_ok OwnerGone (queue c) →
  safe (connectDestroyed true user c) (λ c', down r h OwnerGone (set_owner OwnerGone c')).
Proof.
  intros Hu Hs Hq. unfold connectDestroyed. cbn [mbind outcome_bind assertInLoopThread].
  rewrite bool_decide_true by done. eapply safe_bind; [by apply close_callback|].
  intros c' [Hd E]. assert (c' = set_queue (queue c) c') as -> by (rewrite <-E; by destruct c').
  by eapply remove_down.
Qed.

Lemma connectDestroyed_down r h o c q : down r h o c → o ≠ OwnerGone → queue_ok OwnerGone q →
  safe (connectDestroyed true user (set_queue q c)) (λ c', down r h OwnerGone (set_owner OwnerGone c')).
Proof.
  intros Hd Ho Hq. unfold connectDestroyed. cbn [mbind outcome_bind assertInLoopThread].
  rewrite bool_decide_false by (cbn; by rewrite (down_state _ _ _ _ Hd)).
  by eapply remove_down.
Qed.

(** *** The handlers *)
Definition live (r : Z) (h : bool) c : Prop := up r h c ∨ down r h OwnerNotified c.

Lemma live_wired r h c : live r h c → wired r h (channel_ c).
Proof. by intros [H|H]; destruct H as [[]]. Qed.

Lemma handleRead_live r h readv c : up r h c → readv_bounded readv →
  safe (handleRead true user readv c) (live r h).
Proof.
  intros Hu Hk. unfold handleRead. cbn [mbind outcome_bind assertInLoopThread].
  pose proof (base_in _ _ _ (up_base _ _ _ Hu)) as Hb.
  eapply safe_bind; [by apply buf_ok_readFd|]. intros [[b n] err]. cbn [fst snd].
  destruct (readv _) as [e|data]; intros [Hb' Hr].
  - destruct Hr as [-> ->]. simpl. left. revert Hu. same_base. by rewrite app_nil_r.
  - destruct Hr as [Hc ->].
    assert (up r h (set_input b data c)) as Hu'.
    { revert Hu. same_base. destruct base_input0 as [d ->]. exists d. by rewrite Hc, app_assoc. }
    destruct (Z.ltb_spec 0 (sz data)).
    { eapply safe_mono; [by apply callback_up|]. by left. }
    pose proof (sz_nonneg data). rewrite (proj2 (Z.eqb_eq _ _)) by lia.
    eapply safe_mono; [by apply handleClose_down|]. by right.
Qed.

Lemma handleWrite_up r h w c : up r h c → write_ok w → safe (handleWrite true w c) (up r h).
Proof.
  intros Hu Hw. unfold handleWrite. cbn [mbind outcome_bind assertInLoopThread].
  rewrite (up_writing r h) by done. case_bool_decide as Ho; [done|]. cbn [negb].
  pose proof (base_out _ _ _ (up_base _ _ _ Hu)) as Hb. rewrite (up_readable r h) by done.
  specialize (Hw (sz (contents (outputBuffer_ c))) (sz_nonneg _)).
  destruct (w _) as [e|n]; [done|]. destruct (Z.ltb_spec 0 n); [|done].
  eapply safe_bind; [apply buf_ok_retrieve; [exact Hb|cbn; lia]|]. intros out [Hb' Hc]. cbn in Hc.
  rewrite readable_contents, sz_nil_iff by apply Hb'.
  assert (write_shut c = false) as Hs.
  { destruct (write_shut c) eqn:E; [|done]. by destruct (up_shut _ _ _ Hu E). }
  set (c1 := set_output out (add_sent _ c)).
  assert (base r h c1) as Hbase.
  { destruct (up_base _ _ _ Hu). constructor; try done. cbn. rewrite Hc, <-app_assoc, take_drop. done. }
  case_bool_decide as Hout.
  - assert (up r h (disableWriting c1)) as Hu1.
    { destruct (wired_update r h clear_write (channel_ c)) as [Hw' Hi]; [apply Hbase..|].
      destruct Hu. constructor; try done; cbn.
      - by destruct Hbase.
      - rewrite bool_decide_true by done. exact (isWriting_clear_write (channel_ c)).
      - intros E. congruence. }
    set (c2 := if writeCompleteCallback_ _ then _ else _).
    assert (up r h c2) as Hu2.
    { subst c2. destruct (writeCompleteCallback_ _); [by apply up_queueInLoop|done]. }
    case_bool_decide; [by apply shutdownInLoop_up|done].
  - destruct Hu. constructor; try done; cbn.
    + rewrite bool_decide_false by done. by rewrite up_writing0, bool_decide_false.
    + intros E. congruence.
Qed.

Lemma handleWrite_live r h w c : live r h c → write_ok w → safe (handleWrite true w c) (live r h).
Proof.
  intros [Hu|Hd] Hw.
  - eapply safe_mono; [by apply handleWrite_up|]. by left.
  - unfold handleWrite. simpl. unfold isWriting. rewrite (down_events _ _ _ _ Hd). simpl. by right.
Qed.

(** *** Dispatch of an event *)
Definition marks (r : Z) (h : bool) (ch ch' : Channel handler) : Prop :=
  wired r h ch' ∧ events_ ch' = events_ ch ∧ index_ ch' = index_ ch ∧
  addedToLoop_ ch' = addedToLoop_ ch.

Lemma up_marked r h r' h' ch c : up r h c → marks r' h' (channel_ c) ch → up r' h' (set_channel ch c).
Proof.
  intros Hu (Hw & He & Hi & Ha). revert Hu. same_base; unfold indexed, isWriting in *; cbn.
  - by rewrite Hi, Ha.
  - by rewrite He.
Qed.

Lemma live_marked r h r' h' ch c : live r h c → marks r' h' (channel_ c) ch → live r' h' (set_channel ch c).
Proof.
  intros [Hu|Hd] Hm; [left; by eapply up_marked|right]. destruct Hm as (Hw & He & Hi & Ha).
  revert Hd. same_down; unfold indexed in *; cbn; by rewrite ?He, ?Hi, ?Ha.
Qed.

Section Dispatch.
Context (k : kernel_answers) (now : Z).
Hypothesis Hreadv : readv_bounded (k_readv k).
Hypothesis Hwrite : write_ok (k_write k).

Definition call_handler (h : handler) (_ : Z) (w : conn_world) : outcome conn_world :=
  c ← run_handler user k h w.1; Ok (c, w.2).

Lemma modify_handling b (w : conn_world) :
  modify channel_addr (set_eventHandling b) w =
    Ok (set_channel (set_eventHandling b (channel_ w.1)) w.1, w.2).
Proof. done. Qed.

Lemma dispatch1_wired test sel hd (w : conn_world) :
  sel (channel_ w.1) = Some hd →
  dispatch1 call_handler channel_addr now test sel w =
    if test (revents_ (channel_ w.1)) then call_handler hd now w else Ok w.
Proof. intros Hs. unfold dispatch1, deref. cbn [chan_lookup conn_store decide]. simpl. by rewrite Hs. Qed.

(** The dispatch up to its last [if], that of the write callback. *)
Definition until_write (w : conn_world) : outcome conn_world :=
  w ← modify channel_addr (set_eventHandling true) w;
  w ← dispatch1 call_handler channel_addr now close_test closeCallback_ w;
  w ← dispatch1 call_handler channel_addr now error_test errorCallback_ w;
  dispatch1 call_handler channel_addr now read_test readCallback_ w.

Lemma guard_until_write w :
  handleEventWithGuard call_handler channel_addr now w =
    (w ← until_write w; w ← dispatch1 call_handler channel_addr now write_test writeCallback_ w;
     modify channel_addr (set_eventHandling false) w).
Proof.
  unfold handleEventWithGuard, until_write. destruct (modify _ _ w) as [w1|]; [simpl|done].
  destruct (dispatch1 _ _ _ close_test _ w1) as [w2|]; [simpl|done].
  by destruct (dispatch1 _ _ _ error_test _ w2).
Qed.

Lemma live_dispatch r test sel hd w : live r true w.1 → sel (channel_ w.1) = Some hd →
  dispatch1 call_handler channel_addr now test sel w = if test r then call_handler hd now w else Ok w.
Proof.
  intros Hl Hs. rewrite (dispatch1_wired _ _ hd) by done.
  by destruct (live_wired _ _ _ Hl) as (-> & _).
Qed.

(** Besides the connection's own invariant the dispatch keeps whatever its
    handlers keep. *)
Section Keeps.
Context (P : TcpConnection → Prop) (r : Z).
Hypothesis Pchannel : ∀ ch c, P c → P (set_channel ch c).
Hypothesis Phandler : ∀ h c c', live r true c → (h = HandleRead → up r true c) → P c →
  run_handler user k h c = Ok c' → P c'.

Lemma called_keeps Q h w : live r true w.1 → (h = HandleRead → up r true w.1) → P w.1 →
  safe (run_handler user k h w.1) Q → safe (call_handler h now w) (λ w', Q w'.1 ∧ P w'.1).
Proof.
  intros Hl Hr Hp. unfold call_handler. destruct (run_handler user k h w.1) as [c|] eqn:E; simpl; [|done].
  intros HQ. split; [done|]. by eapply Phandler.
Qed.

Lemma until_write_keeps (w : conn_world) :
  up r false w.1 → P w.1 → (close_test r = true → read_test r = false) →
  safe (until_write w) (λ w', live r true w'.1 ∧ P w'.1).
Proof.
  intros Hu Hp Hhup. unfold until_write. rewrite modify_handling. cbn [mbind outcome_bind].
  apply (Pchannel (set_eventHandling true (channel_ w.1))) in Hp.
  set (w1 := (set_channel _ _, _)). change (P w1.1) in Hp.
  assert (up r true w1.1) as Hu1.
  { apply (up_marked r false); [done|]. destruct (base_wired _ _ _ (up_base _ _ _ Hu)) as (?&?&?&?&?&?).
    by repeat split. }
  clearbody w1. clear w Hu.
  (* the close callback *)
  eapply (safe_bind _ _ (λ w', (live r true w'.1 ∧ (close_test r = false → up r true w'.1)) ∧ P w'.1)).
  { rewrite (live_dispatch r _ _ HandleClose) by (by left || by apply (live_wired r true); left).
    destruct (close_test r) eqn:E; [|split; [split; [by left|done]|done]].
    apply (called_keeps (λ c, live r true c ∧ (true = false → up r true c))); [by left|done|done|].
    eapply safe_mono; [by apply handleClose_down|]. intros c Hc. split; [by right|done]. }
  intros w2 [[Hl2 Hu2] Hp2].
  (* the error callback *)
  eapply (safe_bind _ _ (λ w', w' = w2)).
  { rewrite (live_dispatch r _ _ HandleError) by (done || by apply (live_wired r true)).
    destruct (error_test r); [|done]. by destruct w2. }
  intros ? ->.
  (* the read callback *)
  rewrite (live_dispatch r _ _ HandleRead) by (done || by apply (live_wired r true)).
  destruct (read_test r) eqn:Er; [|done]. destruct (close_test r) eqn:Ec; [by specialize (Hhup eq_refl)|].
  apply (called_keeps (live r true)); [done|auto|done|]. apply handleRead_live; [by apply Hu2|done].
Qed.

Lemma guarded_dispatch (w : conn_world) :
  up r false w.1 → P w.1 → (close_test r = true → read_test r = false) →
  safe (handleEventWithGuard call_handler channel_addr now w) (λ w', live r false w'.1 ∧ P w'.1).
Proof.
  intros Hu Hp Hhup. rewrite guard_until_write. eapply safe_bind; [by apply until_write_keeps|].
  intros w3 [Hl3 Hp3]. eapply (safe_bind _ _ (λ w', live r true w'.1 ∧ P w'.1)).
  { rewrite (live_dispatch r _ _ HandleWrite) by (done || by apply (live_wired r true)).
    destruct (write_test r); [|done].
    apply (called_keeps (live r true)); [done..|]. by apply handleWrite_live. }
  intros w4 [Hl4 Hp4]. rewrite modify_handling. split; [|by apply Pchannel].
  apply (live_marked r true); [done|].
  destruct (live_wired _ _ _ Hl4) as (?&?&?&?&?&?). by repeat split.
Qed.

Lemma handle_event_keeps r0 c :
  up r0 false c → P c → (close_test r = true → read_test r = false) →
  safe (handle_event user r k now c) (λ c', live r false c' ∧ P c').
Proof.
  intros Hu Hp Hhup. unfold handle_event. fold call_handler.
  set (w := (set_channel _ c, ∅)).
  assert (up r false w.1) as Hw.
  { apply (up_marked r0 false); [done|]. destruct (base_wired _ _ _ (up_base _ _ _ Hu)) as (?&?&?&?&?&?).
    by repeat split. }
  eapply safe_bind; [|by intros w' Hw'; exact Hw'].
  rewrite (handleEvent_cases _ _ _ _ _ (channel_ w.1)) by done.
  rewrite (up_alive _ _ _ Hw), andb_false_r. apply guarded_dispatch; [done|by apply Pchannel|done].
Qed.
End Keeps.

Lemma until_write_live r (w : conn_world) :
  up r false w.1 → (close_test r = true → read_test r = false) →
  safe (until_write w) (λ w', live r true w'.1).
Proof. intros Hu Hhup. eapply safe_mono; [by apply (until_write_keeps (λ _, True) r)|by intros ? []]. Qed.

Lemma handle_event_live r0 revents c :
  up r0 false c → (close_test revents = true → read_test revents = false) →
  safe (handle_event user revents k now c) (live revents false).
Proof.
  intros Hu Hhup. eapply safe_mono; [by eapply (handle_event_keeps (λ _, True))|by intros ? []].
Qed.
End Dispatch.

(** *** Functors *)
Lemma up_popped r h f q c : up r h c → queue c = f :: q →
  up r h (set_queue q c) ∧ queued_ok (state_ c) f.
Proof.
  intros Hu Hq. pose proof (up_queue _ _ _ Hu) as Hf. rewrite Hq in Hf.
  apply Forall_cons in Hf as [Hf Hq']. split; [|done]. revert Hu. same_base.
Qed.

Lemma functor_up r h f q w c :
  up r h c → queue c = f :: q → write_ok w → (write_shut c = true → ∀ len, w len = inl EPIPE) →
  safe (run_functor true user f w (set_queue q c)) (live r h).
Proof.
  intros Hu Hq Hw Hshut. destruct (up_popped _ _ _ _ _ Hu Hq) as [Hu' Hf].
  unfold run_functor. rewrite (up_alive _ _ _ Hu'). cbn [negb].
  assert (∀ m, safe m (up r h) → safe m (live r h)) as Hl by (intros m Hm; eapply safe_mono; [exact Hm|by left]).
  destruct f; [apply Hl|apply Hl|done|apply Hl| |apply Hl|apply Hl|done].
  - by apply sendInLoop_up.
  - by apply shutdownInLoop_up.
  - by apply stopReadInLoop_up.
  - unfold forceCloseInLoop. simpl.
    destruct (_ || _); [|by left]. eapply safe_mono; [by apply handleClose_down|]. by right.
  - by apply callback_up.
  - by apply callback_up.
Qed.

(** On a connection that is down only [connectDestroyed] and the late
    notifications do something; a queued [stopRead] still updates the channel. *)
Lemma stopRead_down r h o c : down r h o c → o ≠ OwnerGone →
  safe (stopReadInLoop true c) (down r h o).
Proof.
  intros Hd Ho. unfold stopReadInLoop. simpl. destruct (_ || _); simpl; [|done].
  destruct (wired_update r h clear_read (channel_ c)) as [Hw Hi]; [apply (down_base _ _ _ _ Hd)..|].
  revert Hd. same_down; cbn.
  - by rewrite down_events0.
  - destruct o; [by destruct down_added0..|done].
Qed.

Lemma queue_ok_popped o f q : queue_ok o (f :: q) → f ≠ FConnectDestroyed → queue_ok o q.
Proof.
  destruct o; simpl; rewrite ?not_elem_of_cons.
  - tauto.
  - tauto.
  - intros (q1 & q2 & E & Hn & Hq) Hf. destruct q1 as [|g q1]; [by injection E as -> ->|].
    injection E as -> ->. exists q1, q2. rewrite not_elem_of_cons in Hn. tauto.
  - intros Hq _. by apply Forall_cons in Hq as [_ ?].
Qed.

Lemma down_popped r h o f q c : down r h o c → queue c = f :: q → f ≠ FConnectDestroyed →
  down r h o (set_queue q c) ∧ alive c = true.
Proof.
  intros Hd Hq Hf. assert (alive c = true) as Ha.
  { destruct (alive c) eqn:E; [done|]. rewrite (down_dead _ _ _ _ Hd E) in Hq. done. }
  split; [|done]. revert Hd. same_down; cbn.
  - congruence.
  - rewrite Hq in down_noread0. by apply not_elem_of_cons in down_noread0 as [_ ?].
  - rewrite Hq in down_queue0. by eapply queue_ok_popped.
Qed.

Lemma functor_down r h o f q w c :
  o ≠ OwnerHas → down r h o c → queue c = f :: q →
  safe (run_functor true user f w (set_queue q c))
    (λ c', ∃ o', o' ≠ OwnerHas ∧ owner_next o o' ∧ down r h o' c').
Proof.
  intros Ho Hd Hq. destruct (decide (f = FConnectDestroyed)) as [->|Hf].
  - assert (o = OwnerPosted ∧ Forall harmless q) as [-> Hq2].
    { pose proof (down_queue _ _ _ _ Hd) as H. rewrite Hq in H. destruct o; simpl in H.
      - done.
      - by apply not_elem_of_cons in H as [[] _].
      - destruct H as ([|g q1] & q2 & E & Hn & Hh); [by injection E as ->|]. injection E as <- _.
        by apply not_elem_of_cons in Hn as [[] _].
      - by apply Forall_cons in H as [[] _]. }
    unfold run_functor. cbn [alive set_queue].
    destruct (down_added _ _ _ _ Hd) as [_ ->]. cbn [negb].
    eapply safe_bind; [by eapply connectDestroyed_down; [exact Hd|done|]|].
    intros c' Hc'. exists OwnerGone. split_and!; [done| |done]. by right; right.
  - destruct (down_popped _ _ _ _ _ _ Hd Hq Hf) as [Hd' Ha].
    unfold run_functor. cbn [alive set_queue]. rewrite Ha. cbn [negb].
    assert (∀ m, safe m (down r h o) → safe m (λ c', ∃ o', o' ≠ OwnerHas ∧ owner_next o o' ∧ down r h o' c')) as Hl.
    { intros m Hm. eapply safe_mono; [exact Hm|]. intros c' Hc'. exists o. by split_and!; [|left|]. }
    pose proof (down_state _ _ _ _ Hd') as Hs. apply Hl.
    destruct f; try done.
    + unfold sendInLoop. by rewrite bool_decide_true by done.
    + unfold shutdownInLoop. simpl. unfold isWriting. cbn in Hs. rewrite (down_events _ _ _ _ Hd). simpl.
      revert Hd'. same_down.
    + exfalso. apply (down_noread _ _ _ _ Hd). rewrite Hq. apply elem_of_cons. by left.
    + destruct (decide (o = OwnerGone)) as [->|]; [|by apply stopRead_down].
      exfalso. pose proof (down_queue _ _ _ _ Hd) as H. rewrite Hq in H.
      by apply Forall_cons in H as [? _].
    + unfold forceCloseInLoop. simpl. by rewrite !bool_decide_false by (cbn in Hs; congruence).
    + eapply safe_mono; [by apply callback_down|]. by intros ? [? _].
    + eapply safe_mono; [by apply callback_down|]. by intros ? [? _].
Qed.

(** *** Every operation preserves the invariant *)
Lemma unborn_not_up c : unborn c → (∀ r h, ¬ up r h c) ∧ (∀ r h o, ¬ down r h o c).
Proof.
  intros Hn. pose proof (unborn_state _ Hn) as E. split.
  - intros r h Hu. destruct (up_state _ _ _ Hu); congruence.
  - intros r h o Hd. pose proof (down_state _ _ _ _ Hd). congruence.
Qed.

Lemma establish_up self c : unborn c → safe (connectEstablished true user self c) (up 0 false).
Proof.
  intros Hn. unfold connectEstablished. cbn [mbind outcome_bind assertInLoopThread].
  rewrite (unborn_state _ Hn). cbn [bool_decide assert_ mbind outcome_bind].
  unfold callback. apply apis_up; [|apply user_apis, Hn].
  destruct (wired_update 0 false or_read (tie self (channel_ c))) as [Hw Hi];
    [by apply (unborn_base _ Hn)..|].
  destruct Hn as [[? ? ? ? ?] ? ? ? Hq Hl Ho Hs He]. constructor; cbn; try done.
  - by left.
  - rewrite bool_decide_true by done. change (isWriting (or_read (channel_ c)) = false).
    rewrite isWriting_or_read. unfold isWriting. by rewrite He.
  - by rewrite Hs.
  - rewrite Hl. by exists [].
  - by rewrite Hq.
Qed.

Lemma up_born r c : up r false c → born_after OwnerHas c.
Proof. intros Hu. split; [exists r; by left|]. left. apply Hu. Qed.

Lemma down_born r o o' c : down r false o' c → o' ≠ OwnerHas → owner_next o o' → born_after o c.
Proof. intros Hd Hne Hn. split; [exists r; right; by exists o'|]. by rewrite (down_owner _ _ _ _ Hd). Qed.

Lemma live_born r c : live r false c → born_after OwnerHas c.
Proof. intros [?|?]; [by eapply up_born|]. eapply down_born; [done|done|by right; left]. Qed.

Lemma call_born in_loop a c : conn_inv c → state_ c ≠ kConnecting → call_ok in_loop (state_ c) a →
  safe (run_api in_loop a c) (born_after (owner c)).
Proof.
  intros [Hn|(r & [Hu|(o & Ho & Hd)])] Hs Ha.
  - by destruct Hs; apply Hn.
  - eapply safe_mono; [by apply api_up|]. intros c' ?. rewrite (up_owner _ _ _ Hu). by eapply up_born.
  - rewrite (down_state _ _ _ _ Hd) in Ha. eapply safe_mono; [by apply api_down|].
    intros c' [? _]. rewrite (down_owner _ _ _ _ Hd). eapply down_born; [done|done|by left].
Qed.

Lemma access_born x c : conn_inv c → state_ c ≠ kConnecting → alive c = true → access_ok (state_ c) x →
  born_after (owner c) (run_access x c).
Proof.
  intros [Hn|(r & [Hu|(o & Ho & Hd)])] Hs Ha Hx.
  - by destruct Hs; apply Hn.
  - rewrite (up_owner _ _ _ Hu). apply (up_born r). destruct x as [|f]; [by apply up_disconnecting|].
    apply up_queueInLoop; [done|]. pose proof (up_not_disconnected _ _ _ Hu).
    destruct f; try done; by destruct Hx.
  - rewrite (down_state _ _ _ _ Hd) in Hx. destruct x as [|f]; [by destruct Hx|].
    rewrite (down_owner _ _ _ _ Hd). apply (down_born r o o); [|done|by left].
    assert (harmless f) as Hf by by destruct f.
    revert Hd. same_down; cbn; [congruence|..].
    + rewrite not_elem_of_app, list_elem_of_singleton. split; [done|]. by intros <-.
    + destruct o; cbn in *; rewrite ?not_elem_of_app, ?list_elem_of_singleton.
      * split; [done|]. by intros <-.
      * split; [done|]. by intros <-.
      * destruct down_queue0 as (q1 & q2 & -> & Hn & Hq). exists q1, (q2 ++ [f]).
        rewrite <-app_assoc. split_and!; [done..|]. apply Forall_app_2; [done|]. by constructor.
      * apply Forall_app_2; [done|]. by constructor.
Qed.

Lemma conn_event_born pre revents k now c :
  conn_inv c → op_ok (OpEvent pre revents k now) c → 
  safe (run_op user (OpEvent pre revents k now) c) (born_after (owner c)).
Proof.
  intros [Hn|(r & [Hu|(o & Ho & Hd)])] (He & Hpre & Hr & Hw & Hhup); simpl.
  - by destruct He; apply Hn.
  - eapply safe_bind; [by apply apis_up|]. intros c' Hu'.
    eapply safe_mono; [by eapply handle_event_live|]. intros c2. rewrite (up_owner _ _ _ Hu). apply live_born.
  - by destruct He; apply (down_events _ _ _ _ Hd).
Qed.

Lemma functor_born w c : born c → op_ok (OpFunctor w) c → 
  safe (run_op user (OpFunctor w) c) (born_after (owner c)).
Proof.
  intros Hinv [Hw Hshut]. simpl. destruct (queue c) as [|f q] eqn:Hq; [by split; [|left]|].
  destruct Hinv as (r & [Hu|(o & Ho & Hd)]).
  - eapply safe_mono; [by eapply functor_up|]. intros c'. rewrite (up_owner _ _ _ Hu). apply live_born.
  - rewrite (down_owner _ _ _ _ Hd). eapply safe_mono; [by eapply functor_down|].
    intros c' (o' & ? & ? & ?). by eapply down_born.
Qed.

Lemma harmless_needed q : Forall harmless q → Forall (λ f, needs_conn f = false) q → q = [].
Proof.
  intros Hh Hn. destruct q as [|f q]; [done|]. apply Forall_cons in Hh as [Hh _].
  apply Forall_cons in Hn as [Hn _]. by destruct f.
Qed.

Lemma release_born c : conn_inv c → op_ok OpRelease c → safe (run_op user OpRelease c) born.
Proof.
  intros [Hn|(r & [Hu|(o & Ho & Hd)])] (Hgone & Ha & Hf); simpl.
  - pose proof (unborn_owner _ Hn). congruence.
  - pose proof (up_owner _ _ _ Hu). congruence.
  - rewrite (down_owner _ _ _ _ Hd) in Hgone. subst o. unfold TcpConnection_dtor.
    pose proof (down_added _ _ _ _ Hd) as Hadd. simpl in Hadd.
    pose proof (down_queue _ _ _ _ Hd) as Hq. simpl in Hq.
    destruct (base_wired _ _ _ (down_base _ _ _ _ Hd)) as (_ & Hh & _).
    rewrite (down_state _ _ _ _ Hd), Hadd, Hh. simpl.
    assert (queue c = []) as E by by apply harmless_needed.
    exists r. right. exists OwnerGone. split; [done|]. revert Hd. same_down.
Qed.

Lemma delayed_born c : conn_inv c → state_ c ≠ kConnecting → 
  safe (run_op user OpDelayed c) (born_after (owner c)).
Proof.
  intros Hinv Hs. simpl. unfold weak_forceClose, WeakCallback_call. destruct (alive c).
  - by apply (call_born true AForceClose).
  - destruct Hinv as [Hn|?]; [by destruct Hs; apply Hn|]. by split; [|left].
Qed.

Lemma op_born o c : conn_inv c → born c ∨ (∀ w, o ≠ OpFunctor w) → op_ok o c →
  safe (run_op user o c) born.
Proof.
  intros Hinv Hb Hop. destruct o as [self|a|a|pre revents k now|w| | | |].
  - destruct Hinv as [Hn|(r & [Hu|(o & Ho & Hd)])].
    + eapply safe_mono; [by apply establish_up|]. intros c' ?. exists 0. by left.
    + pose proof (up_state _ _ _ Hu). simpl in Hop. destruct H; congruence.
    + pose proof (down_state _ _ _ _ Hd). simpl in Hop. congruence.
  - destruct Hop as (? & ? & ?). eapply safe_mono; [by apply (call_born true)|by intros ? []].
  - destruct Hop as (? & ? & ?). by apply access_born.
  - eapply safe_mono; [by apply conn_event_born|by intros ? []].
  - eapply safe_mono; [apply functor_born; [|done]|by intros ? []].
    destruct Hb as [?|Hb]; [done|by destruct (Hb w)].
  - simpl in *. destruct Hinv as [Hn|(r & [Hu|(o & Ho & Hd)])].
    + pose proof (unborn_owner _ Hn). congruence.
    + pose proof (up_owner _ _ _ Hu). congruence.
    + rewrite (down_owner _ _ _ _ Hd) in Hop. subst o.
      exists r. right. exists OwnerPosted. split; [done|]. revert Hd. same_down; cbn.
      * destruct down_added0; congruence.
      * rewrite not_elem_of_app. split; [done|]. by intros [[=]|[]%not_elem_of_nil]%elem_of_cons.
      * by exists (queue c), [].
  - destruct Hop as (Ho & Hs & Hq). simpl. destruct Hinv as [Hn|(r & [Hu|(o & Hne & Hd)])].
    + pose proof (unborn_state _ Hn). congruence.
    + eapply safe_bind; [apply (connectDestroyed_up r false); [done|done|]|].
      { apply Forall_forall. intros f Hf. pose proof (proj1 (Forall_forall _ _) Hq _ Hf).
        pose proof (proj1 (up_no_destroy _ _ _ Hu)). by destruct f. }
      intros c' Hc'. exists r. right. by exists OwnerGone.
    + pose proof (down_state _ _ _ _ Hd). congruence.
  - by apply release_born.
  - eapply safe_mono; [by apply delayed_born|by intros ? []].
Qed.

(** The operations that are not the owner's. *)
Definition own_op (o : op) : bool :=
  match o with OpApi _ | OpOther _ | OpEvent _ _ _ _ | OpFunctor _ | OpDelayed => true | _ => false end.

Lemma own_op_born o c : born c → own_op o = true → op_ok o c →
  safe (run_op user o c) (born_after (owner c)).
Proof.
  intros Hb Ho Hop. destruct o as [self|a|a|pre revents k now|w| | | |]; try done.
  - destruct Hop as (? & ? & ?). apply (call_born true); [by right|done..].
  - destruct Hop as (? & ? & ?). apply access_born; [by right|done..].
  - apply conn_event_born; [by right|done].
  - by apply functor_born.
  - apply delayed_born; [by right|done].
Qed.

Lemma born_state c : born c → state_ c ≠ kConnecting.
Proof.
  intros (r & [Hu|(o & _ & Hd)]).
  - destruct (up_state _ _ _ Hu); congruence.
  - rewrite (down_state _ _ _ _ Hd). done.
Qed.

(** [closeCallback_] has run, and what the owner does next. *)
Lemma post_born c : born c → owner c = OwnerNotified →
  ∃ c', run_op user OpOwnerPost c = Ok c' ∧ born c' ∧ owner c' = OwnerPosted ∧ alive c' = alive c ∧ log c' = log c.
Proof.
  intros Hb Ho. eexists. split; [done|]. split_and!; try done.
  exact (op_born OpOwnerPost c (or_intror Hb) (or_introl Hb) Ho).
Qed.

(** A connection that has closed, and that no functor holds, has been through
    [connectDestroyed]; its destructor succeeds. *)
Lemma given_up_done c : born c → alive c = true → Forall (λ f, needs_conn f = false) (queue c) →
  (owner c = OwnerHas ∨ owner c = OwnerNotified → False) →
  log_down (log c) ∧ queue c = [] ∧ ∃ c', run_op user OpRelease c = Ok c'.
Proof.
  intros Hb Ha Hq Hown. pose proof Hb as (r & [Hu|(o & Hoh & Hd)]).
  { destruct Hown. left. by apply Hu. }
  pose proof (down_queue _ _ _ _ Hd) as Hdq. rewrite (down_owner _ _ _ _ Hd) in Hown.
  destruct o; [done|by destruct Hown; right| |].
  { destruct Hdq as (q1 & q2 & Eq & _). rewrite Eq in Hq. apply Forall_app in Hq as [_ Hq].
    by apply Forall_cons in Hq as [? _]. }
  assert (queue c = []) as Eq by by apply harmless_needed.
  split_and!; [apply Hd|done|].
  assert (op_ok OpRelease c) as Hop by (split_and!; [apply Hd|done|done]).
  pose proof (release_born c (or_intror Hb) Hop) as Hs.
  destruct (run_op user OpRelease c) as [c'|e] eqn:E; [by exists c'|]. cbn in Hs. subst e.
  exfalso. cbn [run_op] in E. unfold TcpConnection_dtor, assert_ in E. by repeat (case_match; cbn in E).
Qed.

(** An unborn connection has nothing queued. *)
Lemma op_unborn_functor w c : unborn c → run_op user (OpFunctor w) c = Ok c.
Proof. intros Hn. simpl. by rewrite (unborn_queue _ Hn). Qed.

Lemma op_inv o c : conn_inv c → op_ok o c → safe (run_op user o c) conn_inv.
Proof.
  intros Hinv Hop. assert (born c ∨ (∀ w, o ≠ OpFunctor w) ∨ unborn c ∧ ∃ w, o = OpFunctor w) as [Hb|[Hb|[Hn [w ->]]]].
  { destruct Hinv as [Hn|Hb]; [|by left]. right. destruct o; eauto. }
  - eapply safe_mono; [by apply op_born; [| left|]|]. by right.
  - eapply safe_mono; [by apply op_born; [| right|]|]. by right.
  - by rewrite op_unborn_functor.
Qed.

Lemma ctor_unborn loop sockfd wc hw c : TcpConnection_ctor loop sockfd wc hw = Ok c → unborn c.
Proof.
  unfold TcpConnection_ctor. rewrite Buffer_ctor_default. cbn [mbind outcome_bind].
  destruct (loop =? 0); [done|]. intros [= <-].
  assert (buf_ok (mkBuffer (replicate 1032 x00) kCheapPrepend kCheapPrepend)) as Hb.
  { unfold buf_ok, wf, vec_max. by vm_compute. }
  constructor; try done. constructor; try done. by exists [].
Qed.

Lemma ctor_inv loop sockfd wc hw c : TcpConnection_ctor loop sockfd wc hw = Ok c → conn_inv c.
Proof. intros E. left. by eapply ctor_unborn. Qed.

Lemma conn_reachable loop sockfd wc hw c0 c :
  TcpConnection_ctor loop sockfd wc hw = Ok c0 → rtc (conn_step user) c0 c → conn_inv c.
Proof.
  intros H0 Hrtc. apply (rtc_invariant (conn_step user) conn_inv) in Hrtc; [done| |by eapply ctor_inv].
  intros c1 c2 Hinv (o & Hop & E). by apply (safe_ok _ _ _ (op_inv o c1 Hinv Hop)).
Qed.

Lemma inv_up c : conn_inv c → state_ c ≠ kConnecting → state_ c ≠ kDisconnected → ∃ r, up r false c.
Proof.
  intros [Hn|(r & [Hu|(o & _ & Hd)])] Hc Hd'; [by destruct Hc; apply Hn|by exists r|by destruct Hd'; apply Hd].
Qed.

Lemma inv_stream c : conn_inv c → sent c ++ contents (outputBuffer_ c) = accepted c.
Proof. intros [[]|(r & [[]|(? & _ & [])])]; by eapply base_stream. Qed.

(** ** Properties *)


(** C2: the output is a faithful byte stream.  The bytes the kernel took,
    followed by the ones in [outputBuffer_], are the bytes the connection took
    over from [send], in order; the channel asks for POLLOUT exactly while
    something is buffered; the write side is shut down only after [shutdown] or
    [forceClose], and until the connection is closed only when everything taken
    over has been written.  The unread input is the end of what was received. *)
Theorem connection_streams loop sockfd wc hw c0 c :
  TcpConnection_ctor loop sockfd wc hw = Ok c0 → rtc (conn_step user) c0 c →
  sent c ++ contents (outputBuffer_ c) = accepted c ∧
  (∃ d, received c = d ++ contents (inputBuffer_ c)) ∧
  (state_ c = kConnected ∨ state_ c = kDisconnecting →
     isWriting (channel_ c) = true ↔ contents (outputBuffer_ c) ≠ []) ∧
  (write_shut c = true → state_ c ≠ kConnected ∧ (state_ c = kDisconnecting → sent c = accepted c)).
Proof.
  intros H0 Hrtc.
  destruct (conn_reachable _ _ _ _ _ _ H0 Hrtc) as [Hn|(r & [Hu|(o & Ho & Hd)])].
  - destruct Hn as [[? ? ? ? ?] Hs ? ? ? ? ? Hsh ?]. rewrite Hs, Hsh.
    split_and!; [done..|by intros [[=]|[=]]|done].
  - destruct Hu as [[? ? Hst ? ?] Hs ? ? ? Hwr Hsh ? ?]. split_and!; [done..| |].
    + intros _. rewrite Hwr, negb_true_iff, bool_decide_eq_false. done.
    + intros E. destruct (Hsh E) as [-> Hout]. split; [done|]. intros _.
      by rewrite <-Hst, Hout, app_nil_r.
  - destruct Hd as [[? ? ? ? ?] Hs ? ? ? ? ? ? ?]. rewrite Hs.
    split_and!; [done..|by intros [[=]|[=]]|done].
Qed.

(** C3: the user sees the life of a connection in order: nothing before it is
    established, then UP once, then messages and notifications, then DOWN once,
    and no message after that.  As for C1, the accesses of other threads' calls are
    steps of their own, and the write of a [shutdown] or [forceClose] does not come
    after the connection closed: if it does, DOWN comes twice
    ([late_write_closes_twice]). *)
Theorem connection_lifecycle loop sockfd wc hw c0 c :
  TcpConnection_ctor loop sockfd wc hw = Ok c0 → rtc (conn_step user) c0 c →
  match state_ c with
  | kConnecting => log c = []
  | kConnected | kDisconnecting =>
    ∃ m, log c = EvUp :: m ∧ ∀ e, e ∈ m → e ≠ EvUp ∧ e ≠ EvDown
  | kDisconnected =>
    ∃ m t, log c = EvUp :: m ++ EvDown :: t ∧ (∀ e, e ∈ m → e ≠ EvUp ∧ e ≠ EvDown) ∧
           (∀ e, e ∈ t → e ≠ EvUp ∧ e ≠ EvDown ∧ e ≠ EvMessage)
  end.
Proof.
  intros H0 Hrtc.
  assert (∀ m, Forall mid m → ∀ e, e ∈ m → e ≠ EvUp ∧ e ≠ EvDown) as Hmid.
  { intros m Hm e He. pose proof (proj1 (Forall_forall _ _) Hm _ He). by destruct e. }
  destruct (conn_reachable _ _ _ _ _ _ H0 Hrtc) as [Hn|(r & [Hu|(o & Ho & Hd)])].
  - rewrite (unborn_state _ Hn). apply Hn.
  - destruct (up_log _ _ _ Hu) as (m & ? & ?).
    destruct (up_state _ _ _ Hu) as [-> | ->]; exists m; eauto.
  - destruct (down_log _ _ _ _ Hd) as (m & t & ? & ? & Ht). rewrite (down_state _ _ _ _ Hd).
    exists m, t. split_and!; [done|eauto|]. intros e He.
    pose proof (proj1 (Forall_forall _ _) Ht _ He). by destruct e.
Qed.

(** An owner that destroys a connection whose [shutdown] has not completed
    ends the process: [connectDestroyed] handles only [kConnected], so in
    [kDisconnecting] either [Channel::remove]'s assertion fails or, when the
    channel watched nothing, the destructor's. *)
Theorem destroy_while_disconnecting_aborts c :
  state_ c = kDisconnecting →
  (connectDestroyed true user c ≫= TcpConnection_dtor) = Fail AssertFailure.
Proof.
  intros Hs. unfold connectDestroyed. cbn [mbind outcome_bind assertInLoopThread].
  rewrite Hs. cbn [bool_decide]. simpl. unfold remove.
  destruct (isNoneEvent (channel_ c)); simpl; [|done].
  destruct (_ || _); simpl; [|done]. unfold TcpConnection_dtor. cbn. by rewrite Hs.
Qed.
End Invariant.

(** ** Races and misuse

    For a user that makes no calls of its own from its callbacks. *)
Definition silent (e : event) (c : TcpConnection) : list api := [].

Lemma silent_ok : user_ok silent.
Proof. intros e c a _ Ha. by apply not_elem_of_nil in Ha. Qed.

Lemma reachable_up loop sockfd wc hw c0 c :
  TcpConnection_ctor loop sockfd wc hw = Ok c0 → rtc (conn_step silent) c0 c →
  state_ c = kConnected ∨ state_ c = kDisconnecting → ∃ r, up r false c.
Proof.
  intros H0 Hrtc Hs. eapply inv_up; [by eapply (conn_reachable silent silent_ok)|..]; destruct Hs; congruence.
Qed.

(** Force-closing a connection that watches nothing (reading is stopped and
    nothing is buffered) can end the process: [disableAll] puts its descriptor
    back into the kernel's interest list with an empty mask, and a hang-up
    reported before [connectDestroyed] runs trips the assertion of
    [handleClose]. *)
Theorem force_close_of_stopped_aborts loop sockfd wc hw c0 c k now :
  TcpConnection_ctor loop sockfd wc hw = Ok c0 → rtc (conn_step silent) c0 c →
  state_ c = kConnected ∨ state_ c = kDisconnecting →
  events_ (channel_ c) = 0 → index_ (channel_ c) = kDeleted →
  ∃ c', forceCloseInLoop true silent c = Ok c' ∧
        events_ (channel_ c') = 0 ∧ index_ (channel_ c') = kAdded ∧ owner c' = OwnerNotified ∧
        handle_event silent POLLHUP k now c' = Fail AssertFailure.
Proof.
  intros H0 Hrtc Hs He Hi. destruct (reachable_up _ _ _ _ _ _ H0 Hrtc Hs) as [r Hu].
  destruct (up_base _ _ _ Hu) as [_ _ _ _ (_ & _ & Hr & Hw & Hc & Her)].
  unfold forceCloseInLoop, handleClose. cbn [mbind outcome_bind assertInLoopThread].
  assert (bool_decide (state_ c = kConnected) || bool_decide (state_ c = kDisconnecting) = true) as Hst
    by (destruct Hs as [E|E]; by rewrite E).
  rewrite Hst. cbn [assert_ mbind outcome_bind]. unfold callback, silent. cbn [run_apis mbind outcome_bind].
  eexists. split; [done|]. set (c' := set_owner _ _). split_and!; [done| |done|].
  - cbn. rewrite Hi. done.
  - unfold handle_event, handleEvent, deref. cbn [chan_lookup conn_store]. simpl.
    rewrite (up_alive _ _ _ Hu). unfold handleEventWithGuard, modify, deref, dispatch1. simpl.
    rewrite Hc. by destruct (tied_ (channel_ c)).
Qed.

Lemma destroy_silent c : state_ c = kConnected →
  ∃ c', run_op silent OpDestroy c = Ok c' ∧ state_ c' = kDisconnected ∧ queue c' = queue c ∧
        addedToLoop_ (channel_ c') = false ∧ eventHandling_ (channel_ c') = eventHandling_ (channel_ c).
Proof.
  intros Hs. cbn [run_op]. unfold connectDestroyed. cbn [mbind outcome_bind assertInLoopThread].
  rewrite bool_decide_true by done. unfold callback, silent. cbn [run_apis mbind outcome_bind].
  set (c1 := add_log _ _). assert (remove c1 = Ok (set_channel (set_index kNew
    (set_addedToLoop false (channel_ c1))) c1)) as ->.
  { unfold remove. assert (isNoneEvent (channel_ c1) = true) as -> by done.
    assert ((index_ (channel_ c1) =? kAdded) || (index_ (channel_ c1) =? kDeleted) = true) as Hi.
    { subst c1. cbn. by case_bool_decide. }
    cbn [index_ set_addedToLoop]. by rewrite Hi. }
  eexists. by split_and!.
Qed.

Lemma release_ok c : state_ c = kDisconnected → eventHandling_ (channel_ c) = false →
  addedToLoop_ (channel_ c) = false → run_op silent OpRelease c = Ok (set_alive false c).
Proof. intros Hs Hh Ha. simpl. unfold TcpConnection_dtor. by rewrite Hs, Hh, Ha. Qed.

(** Calls that come late are fatal.  [startRead] on a connection that is
    down makes its channel watch the descriptor again, so [connectDestroyed]
    fails the assertion of [Channel::remove].  And a [send] another thread has
    queued, before or after the owner destroyed the connection, keeps only a raw
    pointer: if the last reference goes before the functor runs, the functor
    works on freed memory. *)
Theorem late_calls_are_fatal loop sockfd wc hw c0 c :
  TcpConnection_ctor loop sockfd wc hw = Ok c0 → rtc (conn_step silent) c0 c →
  (state_ c = kDisconnected → owner c ≠ OwnerGone →
     (startRead true c ≫= connectDestroyed true silent) = Fail AssertFailure) ∧
  (state_ c = kConnected → queue c = [] → ∀ data w,
     (∃ c1 c2 c3, run_op silent (OpOther (Enqueue (FSendInLoop data))) c = Ok c1 ∧
        run_op silent OpDestroy c1 = Ok c2 ∧ run_op silent OpRelease c2 = Ok c3 ∧
        run_op silent (OpFunctor w) c3 = Fail UB) ∧
     (∃ c1 c2 c3, run_op silent OpDestroy c = Ok c1 ∧
        run_op silent (OpOther (Enqueue (FSendInLoop data))) c1 = Ok c2 ∧
        run_op silent OpRelease c2 = Ok c3 ∧ run_op silent (OpFunctor w) c3 = Fail UB)).
Proof.
  intros H0 Hrtc. split.
  - intros Hs Ho.
    destruct (conn_reachable silent silent_ok _ _ _ _ _ _ H0 Hrtc) as [Hn|(r & [Hu|(o & Ho' & Hd)])].
    + pose proof (unborn_state _ Hn). congruence.
    + by apply up_not_disconnected in Hu.
    + unfold startRead, startReadInLoop. cbn [mbind outcome_bind assertInLoopThread].
      unfold isReading at 1. rewrite (down_events _ _ _ _ Hd), orb_true_r.
      unfold connectDestroyed. cbn [mbind outcome_bind assertInLoopThread].
      rewrite bool_decide_false by (cbn; congruence). cbn [mbind outcome_bind]. unfold remove, isNoneEvent.
      cbn. by rewrite (down_events _ _ _ _ Hd).
  - intros Hs Hq data w. destruct (reachable_up _ _ _ _ _ _ H0 Hrtc (or_introl Hs)) as [r Hu].
    split.
    + set (c1 := queueInLoop (FSendInLoop data) c).
      destruct (destroy_silent c1 Hs) as (c2 & E2 & Hs2 & Hq2 & Ha2 & Hh2).
      exists c1, c2, (set_alive false c2). split_and!; [done|done| |].
      * apply release_ok; [done| |done]. rewrite Hh2. apply (base_wired _ _ _ (up_base _ _ _ Hu)).
      * cbn [run_op queue set_alive]. rewrite Hq2. cbn. by rewrite Hq.
    + destruct (destroy_silent c Hs) as (c1 & E1 & Hs1 & Hq1 & Ha1 & Hh1).
      exists c1, (queueInLoop (FSendInLoop data) c1), (set_alive false (queueInLoop (FSendInLoop data) c1)).
      split_and!; [done|done| |].
      * apply release_ok; [done| |done]. cbn. rewrite Hh1. apply (base_wired _ _ _ (up_base _ _ _ Hu)).
      * cbn [run_op queue set_alive queueInLoop set_queue]. rewrite Hq1, Hq. done.
Qed.

(** What the write of another thread's [forceClose] or [shutdown] does when
    [handleClose] comes between the call's test of [state_] and it: the connection
    looks open again, the queued functor closes it a second time, and the user is
    told DOWN twice; without that functor the destructor's assertion fails. *)
Theorem late_write_closes_twice loop sockfd wc hw c0 c w :
  TcpConnection_ctor loop sockfd wc hw = Ok c0 → rtc (conn_step silent) c0 c →
  state_ c = kConnected → queue c = [] →
  state_test AForceClose (state_ c) = true ∧
  ∃ c1, handleClose true silent c = Ok c1 ∧
    (∃ c2, run_op silent (OpFunctor w) (foldl (λ c x, run_access x c) c1 (accesses AForceClose)) = Ok c2 ∧
       log c2 = log c ++ [EvDown; EvDown]) ∧
    (connectDestroyed true silent (run_access SetDisconnecting c1) ≫= TcpConnection_dtor) = Fail AssertFailure.
Proof.
  intros H0 Hrtc Hs Hq. destruct (reachable_up _ _ _ _ _ _ H0 Hrtc (or_introl Hs)) as [r Hu].
  split; [by rewrite Hs|]. unfold handleClose at 1. cbn [mbind outcome_bind assertInLoopThread].
  rewrite Hs. unfold callback, silent. cbn [bool_decide run_apis mbind outcome_bind]. simpl.
  eexists. split; [done|]. split; [|by apply destroy_while_disconnecting_aborts].
  cbn. rewrite Hq. unfold run_functor. cbn. rewrite (up_alive _ _ _ Hu). eexists. split; [done|]. cbn. by rewrite <-app_assoc.
Qed.

(** [shutdown] can overtake data another thread has already given to
    [send]: the functor that carries the data then finds the write side shut
    down, the kernel answers EPIPE, and the data is dropped without a trace. *)
Theorem shutdown_overtakes_queued_send loop sockfd wc hw c0 c data :
  TcpConnection_ctor loop sockfd wc hw = Ok c0 → rtc (conn_step silent) c0 c →
  state_ c = kConnected → queue c = [] → contents (outputBuffer_ c) = [] →
  ∃ c1 c2 c3, run_op silent (OpOther (Enqueue (FSendInLoop data))) c = Ok c1 ∧
    run_op silent (OpApi AShutdown) c1 = Ok c2 ∧ write_shut c2 = true ∧
    queue c2 = [FSendInLoop data] ∧
    run_op silent (OpFunctor (λ _ : Z, inl EPIPE)) c2 = Ok c3 ∧
    queue c3 = [] ∧ sent c3 = sent c ∧ contents (outputBuffer_ c3) = [] ∧ accepted c3 = accepted c.
Proof.
  intros H0 Hrtc Hs Hq Ho. destruct (reachable_up _ _ _ _ _ _ H0 Hrtc (or_introl Hs)) as [r Hu].
  pose proof (up_writing _ _ _ Hu) as Hwr. rewrite bool_decide_true in Hwr by done.
  pose proof (up_readable _ _ _ Hu) as Hrd. rewrite Ho in Hrd.
  exists (queueInLoop (FSendInLoop data) c).
  exists (set_write_shut true (set_state kDisconnecting (queueInLoop (FSendInLoop data) c))).
  exists (set_queue [] (set_write_shut true (set_state kDisconnecting (queueInLoop (FSendInLoop data) c)))).
  split_and!; try done.
  - simpl. unfold shutdown. cbn [state_ queueInLoop set_queue]. rewrite Hs. cbn [bool_decide].
    simpl. unfold shutdownInLoop. simpl. by rewrite Hwr.
  - cbn. by rewrite Hq.
  - cbn [run_op queue set_write_shut set_state queueInLoop set_queue]. rewrite Hq. cbn [app].
    unfold run_functor. cbn [alive set_write_shut set_state queueInLoop set_queue].
    rewrite (up_alive _ _ _ Hu). cbn [negb]. unfold sendInLoop.
    cbn [mbind outcome_bind assertInLoopThread]. rewrite bool_decide_false by done.
    unfold try_write. cbn [channel_ outputBuffer_ set_queue set_write_shut set_state queueInLoop].
    rewrite Hwr, Hrd. cbn [negb andb]. simpl.
    assert ((u64 (sz data - 0) <=? sz data) = true) as ->; [|done].
    apply Z.leb_le. rewrite Z.sub_0_r. unfold uwrap. pose proof (sz_nonneg data).
    by apply Z.mod_le.
Qed.

(** *** A concrete connection *)
Definition demo_conn : TcpConnection :=
  from_ok (mkConn kDisconnected false (Channel_ctor 0 0) (mkBuffer [] 0 0) (mkBuffer [] 0 0) 0 false
    false false [] OwnerGone false [] [] [] []) (TcpConnection_ctor 1 7 true false).
Definition demo_do (o : op) c : TcpConnection := from_ok c (run_op silent o c).
Definition demo_up := demo_do (OpEstablish 5) demo_conn.
(** The kernel takes one byte of three. *)
Definition take_one : kernel_write := λ len, inr (Z.min 1 len).
Definition demo_sending := demo_do (OpApi (ASend [x61; x62; x63] take_one)) demo_up.
(** The peer's end of file. *)
Definition eof : kernel_answers :=
  mkKernel (λ vec, if 0 <=? sumZ vec then inr [] else inl EWOULDBLOCK) take_one.
Definition demo_closed := demo_do (OpEvent [] POLLIN eof 0) demo_sending.
Definition demo_stopped := demo_do (OpApi AStopRead) demo_up.

Lemma demo_ctor : TcpConnection_ctor 1 7 true false = Ok demo_conn.
Proof. vm_compute. reflexivity. Qed.

Lemma take_one_ok : write_ok take_one.
Proof. intros len Hlen. simpl. lia. Qed.

Lemma eof_event_ok c : events_ (channel_ c) ≠ 0 → op_ok (OpEvent [] POLLIN eof 0) c.
Proof.
  intros He. split_and!; [done|constructor| |apply take_one_ok|done].
  intros vec data. simpl. destruct (Z.leb_spec 0 (sumZ vec)); [|done]. by injection 1 as <-.
Qed.

Lemma demo_step o c c0 : rtc (conn_step silent) c0 c → op_ok o c → is_ok (run_op silent o c) = true →
  rtc (conn_step silent) c0 (demo_do o c).
Proof.
  intros Hrtc Hop E. eapply rtc_r; [exact Hrtc|]. exists o. split; [done|].
  unfold demo_do. by destruct (run_op silent o c).
Qed.

Lemma demo_up_reachable : rtc (conn_step silent) demo_conn demo_up.
Proof. apply demo_step; [apply rtc_refl|by vm_compute..]. Qed.

Lemma demo_sending_reachable : rtc (conn_step silent) demo_conn demo_sending.
Proof.
  apply demo_step; [apply demo_up_reachable| |by vm_compute].
  split_and!; [by vm_compute..|split; [apply take_one_ok|by vm_compute]].
Qed.

Lemma demo_closed_reachable : rtc (conn_step silent) demo_conn demo_closed.
Proof.
  apply demo_step; [apply demo_sending_reachable|by apply eof_event_ok; vm_compute|by vm_compute].
Qed.

Lemma demo_stopped_reachable : rtc (conn_step silent) demo_conn demo_stopped.
Proof.
  apply demo_step; [apply demo_up_reachable|by vm_compute..].
Qed.


Lemma connection_streams_witness :
  sent demo_sending = [x61] ∧ isWriting (channel_ demo_sending) = true ∧
  sent demo_sending ++ contents (outputBuffer_ demo_sending) = accepted demo_sending.
Proof.
  split; [by vm_compute|]. split; [by vm_compute|].
  apply (connection_streams silent silent_ok 1 7 true false demo_conn); [apply demo_ctor|].
  apply demo_sending_reachable.
Defined.

Lemma connection_lifecycle_witness :
  ∃ m t, log demo_closed = EvUp :: m ++ EvDown :: t ∧ (∀ e, e ∈ m → e ≠ EvUp ∧ e ≠ EvDown) ∧
         (∀ e, e ∈ t → e ≠ EvUp ∧ e ≠ EvDown ∧ e ≠ EvMessage).
Proof.
  exact (connection_lifecycle silent silent_ok 1 7 true false demo_conn demo_closed demo_ctor
    demo_closed_reachable).
Defined.

Lemma destroy_while_disconnecting_aborts_witness :
  let c := demo_do (OpApi AShutdown) demo_sending in
  (connectDestroyed true silent c ≫= TcpConnection_dtor) = Fail AssertFailure.
Proof. apply destroy_while_disconnecting_aborts. by vm_compute. Defined.

Lemma force_close_of_stopped_aborts_witness :
  ∃ c', forceCloseInLoop true silent demo_stopped = Ok c' ∧
        events_ (channel_ c') = 0 ∧ index_ (channel_ c') = kAdded ∧ owner c' = OwnerNotified ∧
        handle_event silent POLLHUP eof 0 c' = Fail AssertFailure.
Proof.
  apply (force_close_of_stopped_aborts 1 7 true false demo_conn demo_stopped eof 0 demo_ctor
    demo_stopped_reachable); [left|..]; by vm_compute.
Defined.

Lemma late_calls_are_fatal_witness :
  (startRead true demo_closed ≫= connectDestroyed true silent) = Fail AssertFailure.
Proof.
  apply (late_calls_are_fatal 1 7 true false demo_conn demo_closed demo_ctor demo_closed_reachable);
    by vm_compute.
Defined.

Lemma late_write_closes_twice_witness :
  state_test AForceClose (state_ demo_up) = true ∧
  ∃ c1, handleClose true silent demo_up = Ok c1 ∧
    (∃ c2, run_op silent (OpFunctor take_one) (foldl (λ c x, run_access x c) c1 (accesses AForceClose)) = Ok c2 ∧
       log c2 = [EvUp; EvDown; EvDown]) ∧
    (connectDestroyed true silent (run_access SetDisconnecting c1) ≫= TcpConnection_dtor) = Fail AssertFailure.
Proof.
  apply (late_write_closes_twice 1 7 true false demo_conn demo_up take_one demo_ctor demo_up_reachable);
    by vm_compute.
Defined.

Lemma shutdown_overtakes_queued_send_witness :
  ∃ c1 c2 c3, run_op silent (OpOther (Enqueue (FSendInLoop [x61]))) demo_up = Ok c1 ∧
    run_op silent (OpApi AShutdown) c1 = Ok c2 ∧ write_shut c2 = true ∧
    queue c2 = [FSendInLoop [x61]] ∧
    run_op silent (OpFunctor (λ _ : Z, inl EPIPE)) c2 = Ok c3 ∧
    queue c3 = [] ∧ sent c3 = [] ∧ contents (outputBuffer_ c3) = [] ∧ accepted c3 = [].
Proof.
  apply (shutdown_overtakes_queued_send 1 7 true false demo_conn demo_up [x61] demo_ctor
    demo_up_reachable); by vm_compute.
Defined.
