(* ===== verification/ConnProgress.v ===== *)
(** What a connection does in the end ([src/net/tcpconnection.cpp]).

    TcpConnection.v shows that output is never lost or reordered; here it is shown
    to arrive.  An operation is [useful] when it is an event with POLLOUT whose
    write(2) takes at least one byte; in an execution with as many useful
    operations as bytes were buffered, anything else in between, what was
    accepted has been written, and a [shutdown] has reached the socket.

    The proofs go through relations between a connection and a later one that
    every operation respects ([stable]). *)
From Stdlib Require Import Strings.Byte.
From stdpp Require Import list gmap relations.
From S2P Require Import Prelude Buffer Channel Poller TcpConnection.

(** ** Relations that every operation respects

    [allowed]: the operations considered, to leave out accesses of other threads. *)
Class stable (allowed : op → Prop) (R : relation TcpConnection) : Prop := {
  st_pre :: PreOrder R;
  st_api in_loop a c c' : run_api in_loop a c = Ok c' → R c c';
  st_access x c : allowed (OpOther x) → access_ok (state_ c) x → R c (run_access x c);
  st_log e c : R c (add_log e c);
  st_input b d c : R c (set_input b d c);
  st_channel ch c : isWriting ch = isWriting (channel_ c) → R c (set_channel ch c);
  st_connected c : state_ c = kConnecting → R c (set_state kConnected c);
  st_closed c : R c (disableAll (set_state kDisconnected c));
  st_owner o c : R c (set_owner o c);
  st_alive b c : R c (set_alive b c);
  st_pop f q c : queue c = f :: q → R c (set_queue q c);
  st_destroy c : R c (queueInLoop FConnectDestroyed c);
  st_send data q w c c' : queue c = FSendInLoop data :: q →
    sendInLoop true data w (set_queue q c) = Ok c' → R c c';
  st_shutdown c c' : shutdownInLoop true c = Ok c' → R c c';
  st_write w c c' : handleWrite true w c = Ok c' → R c c'
}.

Section Stable.
Context (allowed : op → Prop) (R : relation TcpConnection) `{HR : !stable allowed R}.
Context (user : event → TcpConnection → list api).

Lemma apis_stable in_loop l c c' : run_apis in_loop l c = Ok c' → R c c'.
Proof.
  revert c. induction l as [|a l IH]; simpl; intros c E; [by simplify_eq|].
  inv_ok. etrans; [by eapply st_api|by apply IH].
Qed.

Lemma callback_stable in_loop e c c' : callback in_loop user e c = Ok c' → R c c'.
Proof. intros E. etrans; [apply (st_log e)|by eapply apis_stable]. Qed.

Lemma handleClose_stable c c' : handleClose true user c = Ok c' → R c c'.
Proof.
  unfold handleClose. intros E. inv_ok. subst c'. etrans; [apply st_closed|].
  etrans; [by eapply callback_stable|apply st_owner].
Qed.

Lemma handleRead_stable readv c c' : handleRead true user readv c = Ok c' → R c c'.
Proof.
  unfold handleRead. intros E. inv_ok. destruct x0 as [[b n] err]. etrans; [apply (st_input b)|].
  destruct (0 <? n); [by eapply callback_stable|].
  destruct (n =? 0); [by eapply handleClose_stable|by injection E as <-].
Qed.

Lemma remove_stable c c' : remove c = Ok c' → R c c'.
Proof. unfold remove. intros E. inv_ok. subst c'. by apply st_channel. Qed.

Lemma connectDestroyed_stable c c' : connectDestroyed true user c = Ok c' → R c c'.
Proof.
  unfold connectDestroyed. intros E. inv_ok. etrans; [|by eapply remove_stable].
  case_bool_decide; [|by simplify_eq]. etrans; [apply st_closed|by eapply callback_stable].
Qed.

Lemma connectEstablished_stable self c c' : connectEstablished true user self c = Ok c' → R c c'.
Proof.
  unfold connectEstablished. intros E. inv_ok. etrans; [apply st_connected|].
  { by apply bool_decide_eq_true in H0. }
  etrans; [|by eapply callback_stable]. unfold enableReading, conn_update.
  etrans; [|apply st_channel]; [apply st_channel|]; [done|].
  exact (isWriting_or_read _).
Qed.

Lemma handler_stable k h c c' : run_handler user k h c = Ok c' → R c c'.
Proof.
  destruct h; simpl; intros E; [by eapply handleRead_stable|by eapply st_write|
    by eapply handleClose_stable|by injection E as <-].
Qed.

Lemma functor_stable f q w c c' : queue c = f :: q →
  run_functor true user f w (set_queue q c) = Ok c' → R c c'.
Proof.
  intros Hq. unfold run_functor. destruct (negb _); [done|]. intros E.
  destruct f; [by eapply st_send|..]; (etrans; [by eapply st_pop|]).
  - by eapply st_shutdown.
  - by apply (st_api (allowed:=allowed) true AStartRead).
  - by apply (st_api (allowed:=allowed) true AStopRead).
  - unfold forceCloseInLoop in E. inv_ok. destruct (_ || _); [by eapply handleClose_stable|by injection E as <-].
  - by eapply callback_stable.
  - by eapply callback_stable.
  - inv_ok. subst c'. etrans; [by eapply connectDestroyed_stable|apply st_owner].
Qed.

(** *** Dispatch *)
Lemma modify_stable b (w w' : conn_world) :
  modify channel_addr (set_eventHandling b) w = Ok w' → R w.1 w'.1.
Proof. rewrite modify_handling. intros [= <-]. by apply st_channel. Qed.

Lemma dispatch1_stable k now test sel (w w' : conn_world) :
  dispatch1 (call_handler user k) channel_addr now test sel w = Ok w' → R w.1 w'.1.
Proof.
  unfold dispatch1. intros E. inv_ok. destruct (test _); [|by injection E as <-].
  destruct (sel x) as [hd|]; [|by injection E as <-].
  unfold call_handler in E. inv_ok. subst w'. by eapply handler_stable.
Qed.

Lemma until_write_stable k now (w w' : conn_world) :
  until_write user k now w = Ok w' → R w.1 w'.1.
Proof.
  unfold until_write. intros E. inv_ok. etrans; [by eapply modify_stable|].
  do 2 (etrans; [by eapply dispatch1_stable|]). by eapply dispatch1_stable.
Qed.

Lemma guard_stable k now (w w' : conn_world) :
  handleEventWithGuard (call_handler user k) channel_addr now w = Ok w' → R w.1 w'.1.
Proof.
  rewrite guard_until_write. intros E. inv_ok. etrans; [by eapply until_write_stable|].
  etrans; [by eapply dispatch1_stable|]. by eapply modify_stable.
Qed.

Lemma handle_event_stable revents k now c c' : handle_event user revents k now c = Ok c' → R c c'.
Proof.
  unfold handle_event. fold (call_handler user k). intros E. inv_ok. subst c'.
  etrans; [by eapply (st_channel (set_revents revents (channel_ c)))|].
  unfold handleEvent, deref in H. inv_ok. simpl in *. case_match; [case_match|].
  - by apply guard_stable in H.
  - by injection H as <-.
  - by apply guard_stable in H.
Qed.

Lemma op_stable o c c' : allowed o → op_ok o c → run_op user o c = Ok c' → R c c'.
Proof.
  intros Hal Hop. destruct o as [self|a|x|pre revents k now|w| | | |]; simpl; intros E.
  - by eapply connectEstablished_stable.
  - by eapply st_api.
  - injection E as <-. destruct Hop as (_ & _ & Hx). by apply st_access.
  - inv_ok. etrans; [by eapply apis_stable|by eapply handle_event_stable].
  - destruct (queue c) as [|f q] eqn:Hq; [by injection E as <-|by eapply functor_stable].
  - injection E as <-. etrans; [apply st_destroy|apply st_owner].
  - inv_ok. subst c'. etrans; [by eapply connectDestroyed_stable|apply st_owner].
  - unfold TcpConnection_dtor in E. inv_ok. subst c'. apply st_alive.
  - unfold weak_forceClose, WeakCallback_call in E. destruct (alive c); [|by injection E as <-].
    by apply (st_api (allowed:=allowed) true AForceClose).
Qed.

End Stable.

(** ** The streams only grow, and a closed connection stays closed *)
Record grows c c' : Prop := {
  gr_sent : sent c `prefix_of` sent c';
  gr_accepted : accepted c `prefix_of` accepted c';
  gr_closed : state_ c = kDisconnected → state_ c' = kDisconnected
}.

#[export] Instance grows_pre : PreOrder grows.
Proof.
  split; [by intros c; constructor|]. intros c1 c2 c3 [? ? ?] [? ? ?].
  constructor; [by etrans..|auto].
Qed.

(** For a setter that adds to the streams or leaves them alone. *)
Ltac grow := constructor; cbn; first [reflexivity | apply prefix_app_r; reflexivity | congruence | done].

Lemma try_write_grows data w c n fault c' : try_write data w c = (n, fault, c') → grows c c'.
Proof.
  unfold try_write. case_match; [|by intros [= _ _ <-]]. destruct (w _); [by intros [= _ _ <-]|].
  intros [= _ _ <-]. destruct (_ && writeCompleteCallback_ _); grow.
Qed.

Lemma sendInLoop_grows data w c c' : sendInLoop true data w c = Ok c' → grows c c'.
Proof.
  unfold sendInLoop. intros E. inv_ok. case_bool_decide; [by injection E as <-|].
  destruct (try_write data w c) as [[n fault] c1] eqn:Ew. apply try_write_grows in Ew. inv_ok.
  etrans; [exact Ew|]. clear Ew.
  destruct fault; simpl in E; [by injection E as <-|].
  case_match; [|injection E as <-; grow]. inv_ok. revert E.
  destruct (_ && highWaterMarkCallback_ _), (negb (isWriting _)); intros [= <-]; grow.
Qed.

Lemma shutdownInLoop_grows c c' : shutdownInLoop true c = Ok c' → grows c c'.
Proof. unfold shutdownInLoop. intros E. inv_ok. destruct (negb _); injection E as <-; grow. Qed.

Lemma handleWrite_grows w c c' : handleWrite true w c = Ok c' → grows c c'.
Proof.
  unfold handleWrite. intros E. inv_ok. destruct (isWriting _); [|by injection E as <-].
  destruct (w _) as [e|n]; [by injection E as <-|]. destruct (0 <? n); [|by injection E as <-]. inv_ok.
  revert E. case_match; [|intros [= <-]; grow]. case_bool_decide; intros E.
  - etrans; [|by eapply shutdownInLoop_grows]. destruct (writeCompleteCallback_ _); grow.
  - injection E as <-. destruct (writeCompleteCallback_ _); grow.
Qed.

Lemma open_state c : bool_decide (state_ c = kConnected) || bool_decide (state_ c = kDisconnecting) = true →
  state_ c ≠ kDisconnected.
Proof. intros E Hs. by rewrite Hs in E. Qed.

Lemma api_grows in_loop a c c' : run_api in_loop a c = Ok c' → grows c c'.
Proof.
  destruct a as [data w| | | | | |cb mark|len]; simpl; intros E.
  - unfold send in E. case_bool_decide; [|by injection E as <-].
    destruct in_loop; [by eapply sendInLoop_grows|injection E as <-; grow].
  - unfold shutdown in E. case_bool_decide; [|by injection E as <-].
    destruct in_loop; [|injection E as <-; grow].
    etrans; [|by eapply shutdownInLoop_grows]. grow.
  - unfold forceClose in E. destruct (_ || _) eqn:Es; injection E as <-; [|done].
    apply open_state in Es. grow.
  - unfold forceCloseWithDelay in E. destruct (_ || _) eqn:Es; injection E as <-; [|done].
    apply open_state in Es. grow.
  - unfold startRead, startReadInLoop in E. destruct in_loop; [inv_ok; destruct (_ || _)|]; injection E as <-; grow.
  - unfold stopRead, stopReadInLoop in E. destruct in_loop; [inv_ok; destruct (_ || _)|]; injection E as <-; grow.
  - injection E as <-; grow.
  - inv_ok. subst c'. grow.
Qed.

Definition any_op (o : op) : Prop := True.

#[export] Instance grows_stable : stable any_op grows.
Proof.
  split; try (intros; grow).
  - apply _.
  - apply api_grows.
  - intros [|f] c _ Hx; [|grow]. constructor; [done..|]. intros Hs. rewrite Hs in Hx. by destruct Hx.
  - intros data q w c c' Hq E. etrans; [|by eapply sendInLoop_grows]. grow.
  - apply shutdownInLoop_grows.
  - apply handleWrite_grows.
Qed.

(** ** Useful operations *)
Definition takes_some (w : kernel_write) : Prop :=
  ∀ len, 0 < len → match w len with inr n => 0 < n | inl _ => False end.

Definition useful (o : op) : Prop :=
  match o with
  | OpEvent _ revents k _ => write_test revents = true ∧ takes_some (k_write k)
  | _ => False
  end.

(** [serves n c c']: an execution from [c] to [c'] with at least [n] useful operations. *)
Inductive serves (user : event → TcpConnection → list api) (allowed : op → Prop)
    : nat → TcpConnection → TcpConnection → Prop :=
  | serves_done c : serves user allowed 0 c c
  | serves_other o n c c1 c' : allowed o → op_ok o c → run_op user o c = Ok c1 →
      serves user allowed n c1 c' → serves user allowed n c c'
  | serves_useful o n c c1 c' : allowed o → op_ok o c → useful o → run_op user o c = Ok c1 →
      serves user allowed n c1 c' → serves user allowed (S n) c c'.

(** No functor of a [send] another thread has begun arrives. *)
Definition no_late_send (o : op) : Prop := ∀ data, o ≠ OpOther (Enqueue (FSendInLoop data)).

(** One more byte is out, or everything is. *)
Definition advances c c' : Prop :=
  accepted c `prefix_of` sent c' ∨ (length (sent c) < length (sent c'))%nat.

Lemma advances_grows c1 c c' c2 : grows c1 c → advances c c' → grows c' c2 → advances c1 c2.
Proof.
  intros H1 [Ha|Hs] H2.
  - left. etrans; [apply H1|]. etrans; [exact Ha|apply H2].
  - right. pose proof (prefix_length _ _ (gr_sent _ _ H1)). pose proof (prefix_length _ _ (gr_sent _ _ H2)). lia.
Qed.

Lemma handleWrite_advances r h w c c' : up r h c → write_ok w → takes_some w →
  handleWrite true w c = Ok c' → advances c c'.
Proof.
  intros Hu Hw Ht E. pose proof (base_stream _ _ _ (up_base _ _ _ Hu)) as Hst.
  destruct (decide (contents (outputBuffer_ c) = [])) as [Ho|Ho].
  { left. rewrite <-Hst, Ho, app_nil_r. by apply handleWrite_grows in E as []. }
  right. revert E. unfold handleWrite. cbn [mbind outcome_bind assertInLoopThread].
  rewrite (up_writing r h), bool_decide_false, (up_readable r h) by done. cbn [negb].
  assert (0 < sz (contents (outputBuffer_ c))) as Hpos.
  { pose proof (sz_nonneg (contents (outputBuffer_ c))). 
    assert (sz (contents (outputBuffer_ c)) ≠ 0) by by rewrite sz_zero. lia. }
  specialize (Hw _ (Z.lt_le_incl _ _ Hpos)). specialize (Ht _ Hpos). destruct (w _) as [e|n]; [done|].
  rewrite (proj2 (Z.ltb_lt _ _)) by done. intros E. inv_ok.
  set (c1 := set_output x (add_sent _ c)) in *.
  assert (length (sent c) < length (sent c1))%nat as Hlt.
  { subst c1. cbn. rewrite length_app, length_take. unfold sz in *. lia. }
  clearbody c1. revert E. case_match; [|by intros [= <-]].
  case_bool_decide; destruct (writeCompleteCallback_ _); intros E;
    (apply shutdownInLoop_grows in E as [Hp _ _] || injection E as <-); try done;
    apply prefix_length in Hp; cbn in Hp; lia.
Qed.

Section Progress.
Context (user : event → TcpConnection → list api) (Huser : user_ok user).

Lemma dispatch_advances k now r (w w' : conn_world) :
  readv_bounded (k_readv k) → write_ok (k_write k) → takes_some (k_write k) →
  up r false w.1 → (close_test r = true → read_test r = false) → write_test r = true →
  handleEventWithGuard (call_handler user k) channel_addr now w = Ok w' →
  state_ w'.1 = kDisconnected ∨ advances w.1 w'.1.
Proof.
  intros Hr Hw Ht Hu Hhup Hwt. rewrite guard_until_write. intros E. inv_ok.
  pose proof (safe_ok _ _ _ (until_write_live user Huser k now Hr r w Hu Hhup) H) as Hl. cbn beta in Hl.
  pose proof (until_write_stable any_op grows _ _ _ _ _ H) as Hg1.
  rewrite (live_dispatch user k now r _ _ HandleWrite) in H0 by (done || by apply (live_wired r true)).
  rewrite Hwt in H0. unfold call_handler in H0. apply outcome_bind_ok in H0 as (c & Hc & [= <-]).
  rewrite modify_handling in E. injection E as <-. cbn [fst state_ set_channel].
  destruct Hl as [Hup|Hdown].
  - right. eapply advances_grows; [exact Hg1|by eapply handleWrite_advances|by apply (st_channel (allowed:=any_op))].
  - left. apply handleWrite_grows in Hc. apply Hc, Hdown.
Qed.

Lemma useful_advances o c c' : conn_inv c → op_ok o c → useful o → run_op user o c = Ok c' →
  state_ c' = kDisconnected ∨ advances c c'.
Proof.
  intros Hinv Hop Hus E. destruct o as [| | |pre revents k now| | | | |]; try done.
  destruct Hop as (He & Hpre & Hr & Hw & Hhup), Hus as [Hwt Ht].
  destruct Hinv as [Hn|(r & [Hu|(o & _ & Hd)])].
  { destruct He. apply Hn. } 2: { destruct He. apply Hd. }
  simpl in E. inv_ok. pose proof (safe_ok _ _ _ (apis_up _ _ _ _ Hu Hpre) H) as Hu1. cbn beta in Hu1.
  apply (apis_stable any_op grows) in H. rename x into c1.
  unfold handle_event in E. fold (call_handler user k) in E. inv_ok. subst c'.
  rewrite (handleEvent_cases _ _ _ _ _ (set_revents revents (channel_ c1))) in H0 by done.
  cbn [fst set_channel alive] in H0. rewrite (up_alive _ _ _ Hu1), andb_false_r in H0.
  eapply dispatch_advances in H0; [|done..| |done|done].
  - destruct H0 as [?|?]; [by left|right]. eapply advances_grows; [|done|done].
    etrans; [exact H|by apply (st_channel (allowed:=any_op))].
  - apply (up_marked r false); [done|]. destruct (base_wired _ _ _ (up_base _ _ _ Hu1)) as (?&?&?&?&?&?).
    by repeat split.
Qed.

Context (allowed : op → Prop).

Lemma serves_keeps (I : TcpConnection → Prop) n c c' :
  (∀ o c c', I c → op_ok o c → run_op user o c = Ok c' → I c') → serves user allowed n c c' → I c → I c'.
Proof. intros HI. induction 1; eauto. Qed.

Lemma serves_inv n c c' : serves user allowed n c c' → conn_inv c → conn_inv c'.
Proof.
  apply serves_keeps. intros o c1 c2 Hi Hop E. by apply (safe_ok _ _ _ (op_inv user Huser o c1 Hi Hop)).
Qed.

Lemma serves_stable R `{!stable allowed R} n c c' : serves user allowed n c c' → R c c'.
Proof. induction 1; [done|..]; (etrans; [by eapply op_stable|done]). Qed.

Lemma serves_grows n c c' : serves user allowed n c c' → grows c c'.
Proof. induction 1; [done|..]; (etrans; [by eapply (op_stable any_op grows _ _ _ _ I)|done]). Qed.

(** Enough useful operations for the first [length a] bytes. *)
Lemma serves_delivers a n c c' : serves user allowed n c c' → conn_inv c →
  a `prefix_of` accepted c → (length a ≤ length (sent c) + n)%nat → state_ c' ≠ kDisconnected →
  a `prefix_of` sent c'.
Proof.
  intros Hs. induction Hs as [c|o n c c1 c' Hal Hop E Hs IH|o n c c1 c' Hal Hop Hus E Hs IH]; intros Hinv Ha Hn Hup.
  - pose proof (inv_stream c Hinv) as Hst.
    assert (sent c `prefix_of` accepted c) as Hp by (rewrite <-Hst; by apply prefix_app_r).
    destruct (prefix_weak_total _ _ _ Ha Hp) as [|Hq]; [done|]. by rewrite (prefix_length_eq _ _ Hq) by lia.
  - pose proof (op_stable any_op grows _ _ _ _ I Hop E) as Hg. pose proof (prefix_length _ _ (gr_sent _ _ Hg)).
    apply IH; [|etrans; [exact Ha|apply Hg]|lia|done].
    by apply (safe_ok _ _ _ (op_inv user Huser o c Hinv Hop)).
  - pose proof (op_stable any_op grows _ _ _ _ I Hop E) as Hg. pose proof (serves_grows _ _ _ Hs) as Hg'.
    destruct (useful_advances o c c1 Hinv Hop Hus E) as [Hd|[Hall|Hlt]].
    + destruct Hup. by apply Hg'.
    + etrans; [exact Ha|]. etrans; [exact Hall|apply Hg'].
    + apply IH; [|etrans; [exact Ha|apply Hg]|lia|done].
      by apply (safe_ok _ _ _ (op_inv user Huser o c Hinv Hop)).
Qed.
End Progress.

(** ** Closing for output

    After [shutdown] took effect: nothing more is accepted, and the write side is
    shut down or the channel still waits to write. *)
Definition half_closed (a : list byte) c : Prop :=
  state_ c = kDisconnecting ∧ accepted c = a ∧ (∀ data, FSendInLoop data ∉ queue c) ∧
  (write_shut c = true ∨ isWriting (channel_ c) = true).
Definition closes (a : list byte) c c' : Prop :=
  state_ c = kDisconnected ∨ half_closed a c → state_ c' = kDisconnected ∨ half_closed a c'.

#[export] Instance closes_pre a : PreOrder (closes a).
Proof. unfold closes. split; [by intros c H|]. intros c1 c2 c3 H1 H2 H. by apply H2, H1. Qed.

(** For a setter that leaves [half_closed]'s fields alone, or queues. *)
Ltac close_step := intros [Hs|(Hs & Ha & Hq & Hw)]; [left; cbn; congruence|right];
  split_and!; cbn; try done; try by (intros ?; rewrite not_elem_of_app, list_elem_of_singleton; split; [apply Hq|]).

Lemma shutdownInLoop_closes a c c' : shutdownInLoop true c = Ok c' → closes a c c'.
Proof.
  unfold shutdownInLoop. intros E. inv_ok. destruct (negb _) eqn:Hn; injection E as <-; [|done].
  close_step. by left.
Qed.

Lemma handleWrite_closes a w c c' : handleWrite true w c = Ok c' → closes a c c'.
Proof.
  unfold handleWrite. intros E. inv_ok. destruct (isWriting _) eqn:Hwr; [|by injection E as <-].
  destruct (w _) as [e|n]; [by injection E as <-|]. destruct (0 <? n); [|by injection E as <-]. inv_ok.
  revert E. case_match; [|intros [= <-]; close_step].
  set (c1 := disableWriting _). intros E [Hs|(Hs & Ha & Hq & Hw)].
  { left. revert E. destruct (writeCompleteCallback_ _); cbn [state_ queueInLoop set_queue];
      change (state_ c1) with (state_ c); rewrite Hs; by intros [= <-]. }
  right. assert (isWriting (channel_ c1) = false) as Hf by exact (isWriting_clear_write (channel_ c)).
  revert E. destruct (writeCompleteCallback_ _); cbn [state_ queueInLoop set_queue];
    change (state_ c1) with (state_ c); rewrite bool_decide_true by done; unfold shutdownInLoop;
    cbn [mbind outcome_bind assertInLoopThread channel_ queueInLoop set_queue]; rewrite Hf;
    intros [= <-]; split_and!; try done; cbn; try by left.
  intros d. rewrite not_elem_of_app, list_elem_of_singleton. split; [apply Hq|done].
Qed.

Lemma api_closes a in_loop ap c c' : run_api in_loop ap c = Ok c' → closes a c c'.
Proof.
  intros E H. assert (state_ c ≠ kConnected) as Hne by (destruct H as [Hs|[Hs _]]; congruence).
  revert H. destruct ap as [data w| | | | | |cb mark|len]; simpl in E.
  - unfold send in E. rewrite bool_decide_false in E by done. by injection E as <-.
  - unfold shutdown in E. rewrite bool_decide_false in E by done. by injection E as <-.
  - unfold forceClose in E. rewrite bool_decide_false in E by done. simpl in E.
    case_bool_decide; injection E as <-; [|done]. close_step.
  - unfold forceCloseWithDelay in E. destruct (_ || _) eqn:Ho; injection E as <-; [|done].
    apply open_state in Ho. close_step.
  - unfold startRead, startReadInLoop in E. destruct in_loop; [inv_ok; destruct (_ || _)|]; injection E as <-; close_step.
    destruct Hw as [Hw|Hw]; [by left|right]. etrans; [exact (isWriting_or_read (channel_ c))|done].
  - unfold stopRead, stopReadInLoop in E. destruct in_loop; [inv_ok; destruct (_ || _)|]; injection E as <-; close_step.
    destruct Hw as [Hw|Hw]; [by left|right]. etrans; [exact (isWriting_clear_read (channel_ c))|done].
  - injection E as <-; close_step.
  - inv_ok. subst c'. close_step.
Qed.

#[export] Instance closes_stable a : stable no_late_send (closes a).
Proof.
  split; try (intros; close_step; fail).
  - apply _.
  - apply api_closes.
  - intros [|f] c Hal Hx [Hs|(Hs & Ha & Hq & Hw)].
    + rewrite Hs in Hx. by destruct Hx.
    + by right.
    + by left.
    + right. split_and!; [done..| |done]. intros d. cbn. rewrite not_elem_of_app, list_elem_of_singleton.
      split; [apply Hq|]. intros <-. by apply (Hal d).
  - intros ch c Hch. close_step. by rewrite Hch.
  - intros c Hc [?|[? _]]; congruence.
  - intros c _. by left.
  - intros f q c Hq0. close_step. intros d Hd. apply (Hq d). rewrite Hq0. apply list_elem_of_further, Hd.
  - intros data q w c c' Hq0 E [Hs|(_ & _ & Hq & _)].
    + unfold sendInLoop in E. cbn [mbind outcome_bind assertInLoopThread] in E.
      rewrite bool_decide_true in E by done. injection E as <-. by left.
    + destruct (Hq data). rewrite Hq0. apply list_elem_of_here.
  - apply shutdownInLoop_closes.
  - apply handleWrite_closes.
Qed.

(** ** Properties *)
Section Properties.
Context (user : event → TcpConnection → list api) (Huser : user_ok user).

(** C4: output arrives.  In any execution with as many useful operations (events
    with POLLOUT whose write(2) takes a byte or more) as bytes were buffered at
    its start, with any other events, functors and calls in between, all that had
    been accepted at the start has been written at the end, unless the
    connection was closed. *)
Theorem connection_delivers loop sockfd wc hw c0 c n c' :
  TcpConnection_ctor loop sockfd wc hw = Ok c0 → rtc (conn_step user) c0 c →
  serves user any_op n c c' → (length (contents (outputBuffer_ c)) ≤ n)%nat →
  state_ c' ≠ kDisconnected →
  accepted c `prefix_of` sent c'.
Proof.
  intros H0 Hrtc Hs Hn Hup. pose proof (conn_reachable user Huser _ _ _ _ _ _ H0 Hrtc) as Hinv.
  pose proof (inv_stream c Hinv) as Hst.
  eapply serves_delivers; [done..| |done]. rewrite <-Hst, length_app. lia.
Qed.

(** C5: [shutdown] completes.  Called on a connected connection by its loop, with
    no [send] of another thread still queued and none arriving later (a [send] that
    had found the connection open when [shutdown] was called), it stops the output for good:
    nothing is accepted any more.  After as many useful operations as bytes were
    buffered, every byte accepted before has been written and the socket's write
    side is shut down, whatever else happened, unless the connection was closed
    meanwhile. *)
Theorem shutdown_completes loop sockfd wc hw c0 c c1 n c' :
  TcpConnection_ctor loop sockfd wc hw = Ok c0 → rtc (conn_step user) c0 c →
  state_ c = kConnected → (∀ data, FSendInLoop data ∉ queue c) →
  run_op user (OpApi AShutdown) c = Ok c1 →
  serves user no_late_send n c1 c' → (length (contents (outputBuffer_ c)) ≤ n)%nat →
  state_ c' ≠ kDisconnected →
  state_ c' = kDisconnecting ∧ accepted c' = accepted c ∧ sent c' = accepted c ∧
  contents (outputBuffer_ c') = [] ∧ write_shut c' = true.
Proof.
  intros H0 Hrtc Hc Hq E1 Hs Hn Hne.
  pose proof (conn_reachable user Huser _ _ _ _ _ _ H0 Hrtc) as Hinv.
  destruct (inv_up c Hinv) as [r Hu]; [congruence..|].
  assert (op_ok (OpApi AShutdown) c) as Hop by (split_and!; [congruence|apply Hu|done]).
  pose proof (safe_ok _ _ _ (op_inv user Huser _ c Hinv Hop) E1) as Hinv1. cbn beta in Hinv1.
  assert (half_closed (accepted c) c1 ∧ sent c1 = sent c) as [Hhalf Hsent].
  { simpl in E1. unfold shutdown in E1. rewrite bool_decide_true in E1 by done.
    unfold shutdownInLoop in E1. cbn [mbind outcome_bind assertInLoopThread channel_ set_state] in E1.
    destruct (isWriting _) eqn:Hw; simpl in E1; injection E1 as <-; (split; [|done]); split_and!; try done;
      [by right|by left]. }
  destruct (serves_stable user no_late_send (closes (accepted c)) _ _ _ Hs (or_intror Hhalf)) as [?|(Hs' & Ha' & _ & Hw')]; [done|].
  pose proof (serves_inv user Huser _ _ _ _ Hs Hinv1) as Hinv'.
  destruct (inv_up c' Hinv') as [r' Hu']; [congruence..|].
  pose proof (base_stream _ _ _ (up_base _ _ _ Hu)) as Hst. pose proof (base_stream _ _ _ (up_base _ _ _ Hu')) as Hst'.
  destruct Hhalf as (_ & Ha1 & _).
  assert (accepted c1 `prefix_of` sent c') as Hp.
  { eapply serves_delivers; [done..| |done]. rewrite Ha1, <-Hst, length_app, Hsent. lia. }
  assert (contents (outputBuffer_ c') = []) as Ho.
  { apply prefix_length in Hp. rewrite Ha1, <-Ha', <-Hst', length_app in Hp. apply length_zero_iff_nil. lia. }
  split_and!; [done|done| |done|].
  - by rewrite <-Ha', <-Hst', Ho, app_nil_r.
  - rewrite (up_writing _ _ _ Hu'), Ho in Hw'. by destruct Hw'.
Qed.
End Properties.

(** *** The connection of TcpConnection.v, with two bytes left to write *)
Definition writable_take_one : op :=
  OpEvent [] POLLOUT (mkKernel (λ _, inl EWOULDBLOCK) take_one) 0.

Lemma writable_ok c : events_ (channel_ c) ≠ 0 → op_ok writable_take_one c ∧ useful writable_take_one.
Proof.
  intros He. split; [split_and!; [done|done|done|apply take_one_ok|done]|].
  split; [done|]. intros len Hlen. simpl. lia.
Qed.

Lemma serves_two allowed c : allowed writable_take_one → is_ok (run_op silent writable_take_one c) = true →
  is_ok (run_op silent writable_take_one (demo_do writable_take_one c)) = true →
  events_ (channel_ c) ≠ 0 → events_ (channel_ (demo_do writable_take_one c)) ≠ 0 →
  serves silent allowed 2 c (demo_do writable_take_one (demo_do writable_take_one c)).
Proof.
  intros Hal E1 E2 H1 H2.
  eapply serves_useful; [done|by apply writable_ok|by apply (writable_ok c)| |].
  { instantiate (1 := demo_do writable_take_one c). unfold demo_do. by destruct (run_op silent writable_take_one c). }
  eapply serves_useful; [done|by apply writable_ok|by apply (writable_ok c)| |apply serves_done].
  revert E2. generalize (demo_do writable_take_one c). intros c1 E2. unfold demo_do.
  by destruct (run_op silent writable_take_one c1).
Qed.

Lemma connection_delivers_witness :
  accepted demo_sending = [x61; x62; x63] ∧
  accepted demo_sending `prefix_of`
    sent (demo_do writable_take_one (demo_do writable_take_one demo_sending)).
Proof.
  split; [by vm_compute|].
  apply (connection_delivers silent silent_ok 1 7 true false demo_conn demo_sending 2); [apply demo_ctor| | |by vm_compute..].
  - apply demo_sending_reachable.
  - apply serves_two; [done|by vm_compute..].
Defined.

Definition demo_closing := demo_do (OpApi AShutdown) demo_sending.

Lemma shutdown_completes_witness :
  write_shut demo_closing = false ∧
  let c := demo_do writable_take_one (demo_do writable_take_one demo_closing) in
  state_ c = kDisconnecting ∧ accepted c = [x61; x62; x63] ∧ sent c = [x61; x62; x63] ∧
  contents (outputBuffer_ c) = [] ∧ write_shut c = true.
Proof.
  split; [by vm_compute|].
  apply (shutdown_completes silent silent_ok 1 7 true false demo_conn demo_sending demo_closing 2);
    [apply demo_ctor|apply demo_sending_reachable|by vm_compute| |by vm_compute| |by vm_compute..].
  - intros data Hin. vm_compute in Hin. by apply not_elem_of_nil in Hin.
  - apply serves_two; [done|by vm_compute..].
Defined.
