(* ===== verification/Echo.v ===== *)
(** An application on the library: the echo server of
    [src/net/tests/echoserver_unittest.cpp].

    [EchoServer::onConnection] and [EchoServer::onMessage] are a [user] of
    TcpConnection.v, so what the server says to a peer is a theorem about the
    connection's handlers, its two buffers and the order of its callbacks
    together. *)
From Stdlib Require Import Strings.Byte.
From stdpp Require Import list gmap relations strings.
From S2P Require Import Prelude Endian Buffer Channel Poller TcpConnection.

(** [s] and a newline. *)
Definition line (s : string) : list byte := String.list_byte_of_string s ++ [x0a].
Definition hello := line "hello".
Definition bye := line "bye".
Definition exit_line := line "exit".

(** [answer e c i]: what write(2) answers to the [i]-th [send] of the callback. *)
Section EchoServer.
Context (answer : event → TcpConnection → nat → kernel_write).

Definition onConnection (e : event) c : list api := [ASend hello (answer e c 0%nat)].

(** (["quit\n"] also stops the loop; the connection does not notice.) *)
Definition onMessage c : list api :=
  let buf := inputBuffer_ c in
  let msg := contents buf in
  [ARetrieve (readableBytes buf)] ++                         (* retrieveAllAsString *)
  (if bool_decide (msg = exit_line) then [ASend bye (answer EvMessage c 1%nat); AShutdown] else []) ++
  [ASend msg (answer EvMessage c 2%nat)].

Definition echo (e : event) c : list api :=
  match e with
  | EvUp | EvDown => onConnection e c
  | EvMessage => onMessage c
  | _ => []
  end.
End EchoServer.

(** What the server answers to the messages [msgs], and whether it then still
    listens. *)
Fixpoint replies (msgs : list (list byte)) : list byte * bool :=
  match msgs with
  | [] => ([], true)
  | m :: msgs' => if bool_decide (m = exit_line) then (bye, false)
                  else let '(out, listens) := replies msgs' in (m ++ out, listens)
  end.

Lemma replies_snoc msgs m :
  replies (msgs ++ [m]) =
    if (replies msgs).2
    then if bool_decide (m = exit_line) then ((replies msgs).1 ++ bye, false)
         else ((replies msgs).1 ++ m, true)
    else replies msgs.
Proof.
  induction msgs as [|m' msgs IH]; simpl.
  { destruct (bool_decide _); [done|]. by rewrite app_nil_r. }
  destruct (bool_decide (m' = exit_line)); [done|]. rewrite IH.
  destruct (replies msgs) as [out [|]]; simpl; [|done].
  destruct (bool_decide _); by rewrite app_assoc.
Qed.

(** ** What the calls of the callbacks do *)
Definition notifies (f : functor) : bool :=
  match f with FWriteComplete | FHighWaterMark _ | FConnectDestroyed => true | _ => false end.

(** [took d c c']: the connection took [d] over, and queued notifications only. *)
Definition took (d : list byte) c c' : Prop :=
  state_ c' = state_ c ∧ received c' = received c ∧ inputBuffer_ c' = inputBuffer_ c ∧
  accepted c' = accepted c ++ d ∧
  (Forall (λ f, notifies f = true) (queue c) → Forall (λ f, notifies f = true) (queue c')).

(** For a setter of other fields. *)
Ltac same_took := unfold took; split_and!; cbn; rewrite ?app_nil_r; done.

Lemma took_nil c : took [] c c.
Proof. same_took. Qed.

Lemma took_trans d1 d2 c1 c2 c3 : took d1 c1 c2 → took d2 c2 c3 → took (d1 ++ d2) c1 c3.
Proof.
  intros (? & ? & ? & E1 & ?) (? & ? & ? & E2 & ?).
  split_and!; [congruence..|by rewrite E2, E1, app_assoc|auto].
Qed.

Lemma took_queue f c : notifies f = true → took [] c (queueInLoop f c).
Proof.
  intros Hf. split_and!; cbn; rewrite ?app_nil_r; try done. intros Hq. apply Forall_app. by repeat constructor.
Qed.

(** The peer's kernel has not reset the connection. *)
Definition no_reset (w : kernel_write) : Prop :=
  ∀ len, w len ≠ inl EPIPE ∧ w len ≠ inl ECONNRESET.

Lemma try_write_took data w c n fault c' : no_reset w → try_write data w c = (n, fault, c') →
  fault = false ∧ took [] c c'.
Proof.
  intros Hw. unfold try_write. case_match; [|intros [= _ <- <-]; split; [done|apply took_nil]].
  destruct (Hw (sz data)). destruct (w (sz data)) as [e|m] eqn:Ew.
  - intros [= _ <- <-]. split; [|apply took_nil].
    destruct (Z.eqb_spec e EPIPE), (Z.eqb_spec e ECONNRESET); subst; try done. apply andb_false_r.
  - intros [= _ <- <-]. split; [done|]. destruct (_ && writeCompleteCallback_ _); [|same_took].
    eapply (took_trans [] []); [|by apply took_queue]. same_took.
Qed.

Lemma sendInLoop_took data w c c' : no_reset w → state_ c ≠ kDisconnected →
  sendInLoop true data w c = Ok c' → took data c c'.
Proof.
  intros Hw Hs. unfold sendInLoop. cbn [mbind outcome_bind assertInLoopThread].
  rewrite bool_decide_false by done. destruct (try_write data w c) as [[n fault] c1] eqn:Et.
  apply (try_write_took _ _ _ _ _ _ Hw) in Et as [-> Ht]. intros E. inv_ok. simpl in E.
  eapply (took_trans [] data); [exact Ht|]. clear Ht Hs.
  assert (took data c1 (add_accepted data c1)) as Ha by same_took.
  revert Ha E. generalize (add_accepted data c1). intros c2 Ha E.
  rewrite <-(app_nil_r data). eapply took_trans; [exact Ha|]. clear Ha.
  destruct (0 <? _); [|injection E as <-; apply took_nil]. inv_ok.
  match type of E with context [if ?b then queueInLoop ?f c2 else c2] =>
    assert (took [] c2 (if b then queueInLoop f c2 else c2)) as Hq
      by (destruct b; [by apply took_queue|apply took_nil]);
    revert Hq E; generalize (if b then queueInLoop f c2 else c2) end.
  intros c3 Hq E. eapply (took_trans [] []); [exact Hq|].
  destruct (negb _); injection E as <-; same_took.
Qed.

Lemma send_took data w c c' : no_reset w → send true data w c = Ok c' →
  took (if bool_decide (state_ c = kConnected) then data else []) c c'.
Proof.
  intros Hw. unfold send. case_bool_decide as Hs.
  - apply sendInLoop_took; [done|congruence].
  - intros [= <-]. apply took_nil.
Qed.

Lemma shutdownInLoop_took c c' : shutdownInLoop true c = Ok c' → took [] c c'.
Proof. unfold shutdownInLoop. intros E. inv_ok. destruct (negb _); injection E as <-; same_took. Qed.

Lemma shutdown_took c c' : shutdown true c = Ok c' →
  took [] (set_state (if bool_decide (state_ c = kConnected) then kDisconnecting else state_ c) c) c'.
Proof.
  unfold shutdown. case_bool_decide; [apply shutdownInLoop_took|]. intros [= <-].
  destruct c. apply took_nil.
Qed.

Lemma handleWrite_took w c c' : handleWrite true w c = Ok c' → took [] c c'.
Proof.
  unfold handleWrite. intros E. inv_ok. destruct (isWriting _); [|injection E as <-; apply took_nil].
  destruct (w _) as [e|n]; [injection E as <-; apply took_nil|].
  destruct (0 <? n); [|injection E as <-; apply took_nil]. inv_ok.
  revert E. case_match; [|intros [= <-]; same_took]. set (c1 := disableWriting _). intros E.
  assert (took [] c c1) as Ht1 by same_took.
  set (c2 := if writeCompleteCallback_ c1 then queueInLoop FWriteComplete c1 else c1) in *.
  assert (took [] c1 c2) as Ht2 by (subst c2; destruct (writeCompleteCallback_ c1); [by apply took_queue|apply took_nil]).
  eapply (took_trans [] []); [exact Ht1|]. eapply (took_trans [] []); [exact Ht2|].
  case_bool_decide; [by apply shutdownInLoop_took|]. injection E as <-. apply took_nil.
Qed.

(** ** The invariant *)

(** Having received [msgs], and nothing else that is still unread. *)
Record talk (msgs : list (list byte)) c : Prop := {
  talk_received : received c = concat msgs;
  talk_read : contents (inputBuffer_ c) = [];
  talk_nonempty : Forall (λ m, m ≠ []) msgs;
  talk_accepted : accepted c = hello ++ (replies msgs).1
}.

Definition echoing c : Prop :=
  Forall (λ f, notifies f = true) (queue c) ∧
  match state_ c with
  | kConnecting => received c = [] ∧ contents (inputBuffer_ c) = [] ∧ accepted c = []
  | kConnected => ∃ msgs, talk msgs c ∧ (replies msgs).2 = true
  | kDisconnecting => ∃ msgs, talk msgs c ∧ (replies msgs).2 = false
  | kDisconnected => ∃ msgs, talk msgs c
  end.

Lemma talk_took msgs c c' : talk msgs c → took [] c c' → talk msgs c'.
Proof.
  intros [? ? ? ?] (? & E1 & E2 & E3 & _). constructor; rewrite ?E1, ?E2, ?E3, ?app_nil_r; done.
Qed.

Lemma echoing_took c c' : echoing c → took [] c c' → echoing c'.
Proof.
  intros [Hq He] Ht. pose proof (λ msgs H, talk_took msgs c c' H Ht) as Hk.
  destruct Ht as (Es & Er & Ei & Ea & Hq'). split; [by apply Hq'|]. rewrite Es, Er, Ei, Ea, app_nil_r.
  destruct (state_ c); [destruct He as [msgs ?]|done|destruct He as (msgs & ? & ?)..]; eauto.
Qed.

(** One more message, and the answer to it. *)
Lemma talk_more msgs data c c' : talk msgs c → data ≠ [] →
  received c' = received c ++ data → contents (inputBuffer_ c') = [] →
  accepted c' = accepted c ++
    (if (replies msgs).2 then if bool_decide (data = exit_line) then bye else data else []) →
  talk (msgs ++ [data]) c'.
Proof.
  intros [Hr _ Hn Ha] Hd Er Ei Ea. constructor.
  - rewrite Er, Hr, concat_app. simpl. by rewrite app_nil_r.
  - done.
  - apply Forall_app. by repeat constructor.
  - rewrite Ea, Ha, replies_snoc, <-app_assoc. f_equal.
    destruct (replies msgs).2; [|by rewrite app_nil_r]. by destruct (bool_decide _).
Qed.

Section Echoes.
Context (answer : event → TcpConnection → nat → kernel_write).
Hypothesis answer_ok : ∀ e c i, write_ok (answer e c i).
Hypothesis answer_no_reset : ∀ e c i, no_reset (answer e c i).

Lemma sz_line : sz hello ≤ vec_max ∧ sz bye ≤ vec_max.
Proof. by vm_compute. Qed.

Lemma echo_ok : user_ok (echo answer).
Proof.
  intros e c a Hwf Ha.
  assert (∀ d w, write_ok w ∧ sz d ≤ vec_max → api_ok (state_ c) (ASend d w)) as Hsend by done.
  destruct sz_line as [Hh Hb].
  assert (sz (contents (inputBuffer_ c)) ≤ vec_max) as Hm.
  { rewrite sz_contents by done. unfold wf in Hwf. lia. }
  assert (∀ l, Forall (api_ok (state_ c)) l → a ∈ l → api_ok (state_ c) a) as Hin.
  { intros l Hl Hal. by apply (proj1 (Forall_forall _ _) Hl). }
  revert Ha. apply Hin. destruct e; simpl; [by repeat constructor..| |done|done].
  apply Forall_cons; split; [done|]. apply Forall_app; split; [|by repeat constructor].
  case_bool_decide; by repeat constructor.
Qed.

Lemma down_silent c c' : state_ c = kDisconnected →
  callback true (echo answer) EvDown c = Ok c' → took [] c c'.
Proof.
  intros Hs. unfold callback. simpl. unfold send. rewrite bool_decide_false by (cbn; congruence).
  simpl. intros [= <-]. same_took.
Qed.

Lemma retrieve_all c : buf_ok (inputBuffer_ c) →
  safe (run_api true (ARetrieve (readableBytes (inputBuffer_ c))) c)
    (λ c', ∃ b, c' = set_input b [] c ∧ contents b = []).
Proof.
  intros Hb. simpl. pose proof (readable_contents _ (proj1 Hb)) as Hr.
  pose proof (sz_nonneg (contents (inputBuffer_ c))).
  eapply safe_bind; [apply buf_ok_retrieve; [done|lia]|]. intros b [_ Hc]. exists b. split; [done|].
  rewrite Hc. apply drop_ge. unfold sz in *. lia.
Qed.
(** The calls of [onMessage] after it has emptied the buffer. *)
Lemma reply_took msg w1 w2 c c' : no_reset w1 → no_reset w2 →
  run_apis true ((if bool_decide (msg = exit_line) then [ASend bye w1; AShutdown] else []) ++ [ASend msg w2]) c
    = Ok c' →
  let connected := bool_decide (state_ c = kConnected) in
  let leaving := bool_decide (msg = exit_line) in
  took (if connected then if leaving then bye else msg else [])
    (set_state (if connected && leaving then kDisconnecting else state_ c) c) c'.
Proof.
  intros Hw1 Hw2. cbn zeta. assert (∀ s, s = state_ c → set_state s c = c) as Hid by by intros ? ->; destruct c.
  case_bool_decide as Hexit; cbn [app run_apis run_api].
  - intros E. apply outcome_bind_ok in E as (c1 & E1 & E). apply outcome_bind_ok in E as (c2 & E2 & E).
    apply outcome_bind_ok in E as (c3 & E3 & [= <-]).
    apply send_took in E1; [|done]. apply shutdown_took in E2. apply send_took in E3; [|done].
    assert (took (if bool_decide (state_ c = kConnected) then bye else [])
      (set_state (if bool_decide (state_ c = kConnected) then kDisconnecting else state_ c) c)
      (set_state (if bool_decide (state_ c1 = kConnected) then kDisconnecting else state_ c1) c1)) as Ht1.
    { destruct E1 as (Es & ? & ? & ? & ?). rewrite Es. by unfold took. }
    rewrite andb_true_r. rewrite <-(app_nil_r (if bool_decide _ then bye else [])).
    eapply took_trans; [exact Ht1|]. eapply (took_trans [] []); [exact E2|].
    destruct E2 as (Es2 & _). cbn in Es2. assert (state_ c2 ≠ kConnected) as Hne.
    { rewrite Es2. by destruct (state_ c1). }
    by rewrite bool_decide_false in E3.
  - intros E. apply outcome_bind_ok in E as (c3 & E3 & [= <-]). apply send_took in E3; [|done].
    rewrite andb_false_r, Hid by done. by destruct (bool_decide (state_ c = kConnected)).
Qed.

(** [onMessage], after [handleRead] has put [data] into the buffer. *)
Lemma message_echoed msgs b data c c' :
  state_ c = kConnected ∨ state_ c = kDisconnecting →
  Forall (λ f, notifies f = true) (queue c) → talk msgs c →
  (replies msgs).2 = bool_decide (state_ c = kConnected) →
  buf_ok b → contents b = data → data ≠ [] →
  callback true (echo answer) EvMessage (set_input b data c) = Ok c' → echoing c'.
Proof.
  intros Hs Hq Hk Hopen Hb Hc Hd E. unfold callback in E.
  set (c1 := add_log EvMessage (set_input b data c)) in E.
  change (echo answer EvMessage c1) with ([ARetrieve (readableBytes (inputBuffer_ c1))] ++
    ((if bool_decide (contents b = exit_line) then [ASend bye (answer EvMessage c1 1%nat); AShutdown] else []) ++
    [ASend (contents b) (answer EvMessage c1 2%nat)])) in E.
  cbn [app run_apis] in E. apply outcome_bind_ok in E as (c2 & E1 & E2).
  destruct (safe_ok _ _ _ (retrieve_all c1 Hb) E1) as (b' & -> & Hb').
  apply reply_took in E2; [|done..]. cbn zeta in E2.
  destruct E2 as (Es & Er & Ei & Ea & Hq').
  cbn [state_ received inputBuffer_ accepted queue set_state set_input add_log c1] in Es, Er, Ei, Ea, Hq'.
  rewrite Hc, <-Hopen in Ea, Es. split; [by apply Hq'|].
  assert (talk (msgs ++ [data]) c') as Hk'.
  { eapply talk_more; [exact Hk|done| |by rewrite Ei|exact Ea]. by rewrite Er, app_nil_r. }
  pose proof (replies_snoc msgs data) as Hr.
  destruct Hs as [Hs|Hs]; rewrite Hs in Hopen, Es; cbn in Hopen; rewrite Hopen in Hr, Es.
  - destruct (bool_decide (data = exit_line)); rewrite Es; exists (msgs ++ [data]); by rewrite Hr.
  - rewrite Es. exists (msgs ++ [data]). by rewrite Hr.
Qed.
(** While the connection is up. *)
Lemma echoing_up r h c : up r h c → echoing c →
  ∃ msgs, talk msgs c ∧ (replies msgs).2 = bool_decide (state_ c = kConnected).
Proof.
  intros Hu [_ He]. destruct (up_state _ _ _ Hu) as [E|E]; rewrite E in He |- *; exact He.
Qed.

Lemma echoing_talk c msgs : Forall (λ f, notifies f = true) (queue c) → state_ c = kDisconnected →
  talk msgs c → echoing c.
Proof. intros Hq Hs Hk. split; [done|]. rewrite Hs. by exists msgs. Qed.

(** DOWN: the [send] of [onConnection] does nothing any more. *)
Lemma closed_echoing c c' msgs : Forall (λ f, notifies f = true) (queue c) → talk msgs c →
  callback true (echo answer) EvDown (disableAll (set_state kDisconnected c)) = Ok c' →
  echoing c'.
Proof.
  intros Hq Hk E. apply down_silent in E; [|done].
  apply (echoing_took (disableAll (set_state kDisconnected c))); [|done].
  apply (echoing_talk _ msgs); [done|done|]. by destruct Hk.
Qed.

Lemma handleClose_echoing c c' : echoing c → handleClose true (echo answer) c = Ok c' → echoing c'.
Proof.
  intros [Hq He] E. unfold handleClose in E. cbn [mbind outcome_bind assertInLoopThread] in E.
  apply assert_bind_ok in E as [Hs E]. apply outcome_bind_ok in E as (c1 & Ec & [= <-]).
  assert (∃ msgs, talk msgs c) as [msgs Hk] by (destruct (state_ c); try done; destruct He as (msgs & ? & _); by exists msgs).
  eapply echoing_took; [by eapply closed_echoing|]. same_took.
Qed.

Lemma handleRead_echoing r readv c c' : up r true c → readv_bounded readv → echoing c →
  handleRead true (echo answer) readv c = Ok c' → echoing c'.
Proof.
  intros Hu Hk He E. destruct (echoing_up _ _ _ Hu He) as (msgs & Ht & Hopen).
  pose proof (base_in _ _ _ (up_base _ _ _ Hu)) as Hb. destruct He as [Hq He].
  unfold handleRead in E. cbn [mbind outcome_bind assertInLoopThread] in E.
  apply outcome_bind_ok in E as ([[b n] err] & E1 & E).
  pose proof (safe_ok _ _ _ (buf_ok_readFd readv _ Hb Hk) E1) as [Hb' Hr]. cbn [fst snd] in Hb', Hr.
  destruct (readv _) as [e|data]; destruct Hr as [Hc ->].
  { injection E as <-. subst b. apply (echoing_took c); [by split|]. same_took. }
  rewrite (talk_read _ _ Ht) in Hc. simpl in Hc.
  destruct (Z.ltb_spec 0 (sz data)) as [Hn|Hn].
  - eapply (message_echoed msgs b data c); try done; [by apply Hu|]. intros ->. done.
  - assert (data = []) as -> by (apply sz_zero; pose proof (sz_nonneg data); lia).
    eapply handleClose_echoing; [|exact E]. split; [done|]. cbn [state_ set_input].
    assert (talk msgs (set_input b [] c)) as Ht'.
    { destruct Ht. constructor; cbn; rewrite ?app_nil_r; done. }
    destruct (up_state _ _ _ Hu) as [Es|Es]; rewrite Es in Hopen |- *; by exists msgs.
Qed.

Lemma handler_echoing k r h c c' : readv_bounded (k_readv k) →
  live r true c → (h = HandleRead → up r true c) → echoing c →
  run_handler (echo answer) k h c = Ok c' → echoing c'.
Proof.
  intros Hk Hl Hr He. destruct h; simpl.
  - apply (handleRead_echoing r); auto.
  - intros E. eapply echoing_took; [exact He|by eapply handleWrite_took].
  - by apply handleClose_echoing.
  - by intros [= <-].
Qed.

(** *** Establishing and destroying *)
Lemma establish_echoing self c c' : echoing c →
  connectEstablished true (echo answer) self c = Ok c' → echoing c'.
Proof.
  intros [Hq He] E. unfold connectEstablished in E. cbn [mbind outcome_bind assertInLoopThread] in E.
  apply assert_bind_ok in E as [Hs E]. apply bool_decide_eq_true in Hs. rewrite Hs in He.
  destruct He as (Hr & Hi & Ha).
  unfold callback, echo, onConnection in E. cbn [run_apis run_api] in E.
  apply outcome_bind_ok in E as (c1 & E & [= <-]). apply send_took in E; [|done].
  rewrite bool_decide_true in E by done. destruct E as (Es & Er & Ei & Ea & Hq').
  split; [by apply Hq'|]. rewrite Es. cbn. exists []. split; [|done]. constructor.
  - by rewrite Er.
  - by rewrite Ei.
  - constructor.
  - rewrite Ea. cbn [accepted enableReading conn_update set_channel set_state add_log]. by rewrite Ha, app_nil_r.
Qed.

Lemma destroyed_echoing c c' : echoing c → connectDestroyed true (echo answer) c = Ok c' → echoing c'.
Proof.
  intros He E. unfold connectDestroyed in E. cbn [mbind outcome_bind assertInLoopThread] in E.
  apply outcome_bind_ok in E as (c1 & E & E').
  assert (echoing c1) as He1.
  { destruct He as [Hq He]. case_bool_decide as Hs; [|by injection E as <-].
    rewrite Hs in He. destruct He as (msgs & Ht & _). by eapply closed_echoing. }
  unfold remove in E'. inv_ok. subst c'. eapply echoing_took; [exact He1|]. same_took.
Qed.

(** *** Every operation *)

(** What happens to a connection whose user is the server: its callbacks make
    the only calls. *)
Definition server_op (o : op) : Prop :=
  match o with
  | OpApi _ | OpOther _ | OpDelayed => False   (* it never calls forceCloseWithDelay *)
  | OpEvent pre _ _ _ => pre = []
  | _ => True
  end.

Definition echo_step c c' : Prop :=
  ∃ o, server_op o ∧ op_ok o c ∧ run_op (echo answer) o c = Ok c'.

Lemma functor_echoing f q w c c' : queue c = f :: q → echoing c →
  run_functor true (echo answer) f w (set_queue q c) = Ok c' → echoing c'.
Proof.
  intros Hq He E. assert (notifies f = true ∧ echoing (set_queue q c)) as [Hf Hp].
  { destruct He as [Hn He]. rewrite Hq in Hn. apply Forall_cons in Hn as [Hf Hn]. split; [done|]. split; [done|].
    cbn [state_ set_queue]. destruct (state_ c).
    - destruct He as [msgs []]. by exists msgs.
    - done.
    - destruct He as (msgs & [] & ?). by exists msgs.
    - destruct He as (msgs & [] & ?). by exists msgs. }
  unfold run_functor in E. destruct (negb _); [done|].
  destruct f; try done.
  - injection E as <-. eapply echoing_took; [exact Hp|]. same_took.
  - injection E as <-. eapply echoing_took; [exact Hp|]. same_took.
  - inv_ok. subst c'. eapply echoing_took; [by eapply destroyed_echoing|]. same_took.
Qed.

Lemma op_echoing o c c' : conn_inv c → echoing c → server_op o → op_ok o c →
  run_op (echo answer) o c = Ok c' → echoing c'.
Proof.
  intros Hinv He Hs Hop E. destruct o as [self|a|a|pre revents k now|w| | | |]; try done; simpl in E.
  - by eapply establish_echoing.
  - simpl in Hs. subst pre. destruct Hop as (Hev & _ & Hr & Hw & Hhup). simpl in E.
    destruct Hinv as [Hn|(r & [Hu|(o & _ & Hd)])]; [by destruct Hev; apply Hn| |by destruct Hev; apply Hd].
    refine (proj2 (safe_ok _ _ _ (handle_event_keeps (echo answer) echo_ok k now Hr Hw echoing revents _ _ r c Hu He Hhup) E)).
    + intros ch c1 H. eapply echoing_took; [exact H|]. same_took.
    + intros h c1 c2. by apply handler_echoing.
  - destruct (queue c) as [|f q] eqn:Hq; [by injection E as <-|]. by eapply functor_echoing.
  - injection E as <-. eapply echoing_took; [exact He|].
    eapply (took_trans [] []); [by apply (took_queue FConnectDestroyed)|]. same_took.
  - inv_ok. subst c'. eapply echoing_took; [by eapply destroyed_echoing|]. same_took.
  - unfold TcpConnection_dtor in E. inv_ok. subst c'. eapply echoing_took; [exact He|]. same_took.
Qed.
End Echoes.

(** ** Properties *)

(** C6: the echo server answers what it is sent, in order.  In every execution in
    which only its callbacks call the connection and the kernel does not report a
    reset to a [send], what was received splits into the messages the callbacks
    saw; what has been written, and then what is still buffered, is the greeting
    followed by those messages up to the first that is the line "exit", which is
    answered by the line "bye".  From then on, and only then, the server has shut
    the connection down, and nothing later is echoed. *)
Theorem echo_replies answer loop sockfd wc hw c0 c :
  (∀ e c i, write_ok (answer e c i)) → (∀ e c i, no_reset (answer e c i)) →
  TcpConnection_ctor loop sockfd wc hw = Ok c0 → rtc (echo_step answer) c0 c →
  state_ c ≠ kConnecting →
  ∃ msgs, Forall (λ m, m ≠ []) msgs ∧
    received c = concat msgs ∧ contents (inputBuffer_ c) = [] ∧
    sent c ++ contents (outputBuffer_ c) = hello ++ (replies msgs).1 ∧
    (state_ c = kConnected → (replies msgs).2 = true) ∧
    (state_ c = kDisconnecting → (replies msgs).2 = false).
Proof.
  intros Hok Hnr H0 Hrtc Hs.
  assert (conn_inv c ∧ echoing c) as [Hinv [_ He]].
  { apply (rtc_invariant (echo_step answer) (λ c, conn_inv c ∧ echoing c)) in Hrtc; [done| |].
    - intros c1 c2 [Hinv He] (o & Hso & Hop & E). split; [|by eapply op_echoing].
      by apply (safe_ok _ _ _ (op_inv (echo answer) (echo_ok answer Hok) o c1 Hinv Hop)).
    - pose proof (ctor_unborn _ _ _ _ _ H0) as Hn. split; [by left|]. split; [by rewrite (unborn_queue _ Hn)|].
      rewrite (unborn_state _ Hn). revert H0. unfold TcpConnection_ctor. rewrite Buffer_ctor_default.
      cbn [mbind outcome_bind]. intros E. inv_ok. by subst c0. }
  pose proof (inv_stream c Hinv) as Hst.
  destruct (state_ c); [destruct He as (msgs & [])|done|destruct He as (msgs & [] & ?)..];
    exists msgs; (split_and!; [done..| | |]); congruence || done.
Qed.

(** *** A conversation *)
Definition takes_all : kernel_write := λ len, inr len.
Definition hears (data : list byte) : op :=
  OpEvent [] POLLIN (mkKernel (λ vec, if sz data <=? sumZ vec then inr data else inl EWOULDBLOCK) takes_all) 0.
Definition talk_to (c : TcpConnection) (o : op) : TcpConnection :=
  from_ok c (run_op (echo (λ _ _ _, takes_all)) o c).
Definition conversation : TcpConnection :=
  foldl talk_to demo_conn [OpEstablish 5; hears (line "hi"); hears exit_line; hears (line "more")].

Lemma talk_step c o : rtc (echo_step (λ _ _ _, takes_all)) demo_conn c → server_op o → op_ok o c →
  is_ok (run_op (echo (λ _ _ _, takes_all)) o c) = true →
  rtc (echo_step (λ _ _ _, takes_all)) demo_conn (talk_to c o).
Proof.
  intros Hrtc Hs Hop E. eapply rtc_r; [exact Hrtc|]. exists o. split_and!; [done..|].
  unfold talk_to. by destruct (run_op _ o c).
Qed.

Lemma hears_ok data c : events_ (channel_ c) ≠ 0 → op_ok (hears data) c.
Proof.
  intros He. split_and!; [done|constructor| |intros len Hlen; simpl; lia|done].
  intros vec d. simpl. destruct (Z.leb_spec (sz data) (sumZ vec)); [|done]. by injection 1 as <-.
Qed.

Lemma conversation_reachable : rtc (echo_step (λ _ _ _, takes_all)) demo_conn conversation.
Proof.
  unfold conversation. cbn [foldl].
  apply talk_step; [|done|by apply hears_ok; vm_compute|by vm_compute].
  apply talk_step; [|done|by apply hears_ok; vm_compute|by vm_compute].
  apply talk_step; [|done|by apply hears_ok; vm_compute|by vm_compute].
  apply talk_step; [apply rtc_refl|done|by vm_compute|by vm_compute].
Qed.

Lemma echo_replies_witness :
  received conversation = line "hi" ++ exit_line ++ line "more" ∧
  sent conversation = hello ++ line "hi" ++ bye ∧ state_ conversation = kDisconnecting ∧
  ∃ msgs, Forall (λ m, m ≠ []) msgs ∧
    received conversation = concat msgs ∧ contents (inputBuffer_ conversation) = [] ∧
    sent conversation ++ contents (outputBuffer_ conversation) = hello ++ (replies msgs).1 ∧
    (state_ conversation = kConnected → (replies msgs).2 = true) ∧
    (state_ conversation = kDisconnecting → (replies msgs).2 = false).
Proof.
  split; [by vm_compute|]. split; [by vm_compute|]. split; [by vm_compute|].
  apply (echo_replies (λ _ _ _, takes_all) 1 7 true false demo_conn); [| |apply demo_ctor| |by vm_compute].
  - intros e c i len Hlen. simpl. lia.
  - by intros e c i len.
  - apply conversation_reachable.
Defined.
