(* ===== verification/ConnChannel.v ===== *)
(** A connection's channel on a real loop.

    [TcpConnection.v] keeps the channel inside the connection and answers its
    [update()] and [remove()] itself ([poller_index], [remove]).  Here the same
    calls go to [Reactor]'s [Channel] functions, with [EPollPoller] and the
    kernel's interest list behind them: every call gives the same channel and
    fails alike, and so every operation of a connection can be followed on the
    loop ([src/net/tcpconnection.cpp], [src/net/channel.h],
    [src/net/poller/epollpoller.cpp]). *)
From Stdlib Require Import Strings.Byte.
From stdpp Require Import list gmap.
From S2P Require Import Prelude Buffer Channel Poller EPollPoller Reactor TcpConnection.

(** The loop's channels serve many owners: a callback of a connection is one of
    the loop's callbacks. *)
Definition channel_map {A B} (f : A → B) (c : Channel A) : Channel B :=
  mkChannel (loop_ c) (fd_ c) (events_ c) (revents_ c) (index_ c) (tie_ c) (tied_ c)
    (Channel.eventHandling_ c) (addedToLoop_ c) (f <$> readCallback_ c) (f <$> writeCallback_ c)
    (f <$> closeCallback_ c) (f <$> errorCallback_ c).

(** What a connection does to its channel: the five calls that end in
    [update()], [remove()], [tie], and what the poller and the dispatch store. *)
Inductive channel_call :=
  | CallFlag (o : flag_op)
  | CallRemove
  | CallTie (obj : Ptr)
  | CallRevents (revents : Z)
  | CallHandling (b : bool).

Definition flag_change {CB} (o : flag_op) : Channel CB → Channel CB :=
  match o with
  | EnableReading => or_read | DisableReading => clear_read
  | EnableWriting => or_write | DisableWriting => clear_write | DisableAll => clear_all
  end.

Definition conn_flag (o : flag_op) : TcpConnection → TcpConnection :=
  match o with
  | EnableReading => TcpConnection.enableReading | DisableReading => TcpConnection.disableReading
  | EnableWriting => TcpConnection.enableWriting | DisableWriting => TcpConnection.disableWriting
  | DisableAll => TcpConnection.disableAll
  end.

(** The calls as the connection's model answers them. *)
Definition conn_call (k : channel_call) (c : TcpConnection) : outcome TcpConnection :=
  match k with
  | CallFlag o => Ok (conn_flag o c)
  | CallRemove => TcpConnection.remove c
  | CallTie obj => Ok (set_channel (tie obj (channel_ c)) c)
  | CallRevents r => Ok (set_channel (set_revents r (channel_ c)) c)
  | CallHandling b => Ok (set_channel (set_eventHandling b (channel_ c)) c)
  end.

(** Their effect on the channel alone. *)
Definition chan_call (k : channel_call) (h : Channel handler) : outcome (Channel handler) :=
  match k with
  | CallFlag o => Ok (poller_index (set_addedToLoop true (flag_change o h)))
  | CallRemove =>
    assert! isNoneEvent h;;
    assert! (index_ h =? kAdded) || (index_ h =? kDeleted);;
    Ok (set_index kNew (set_addedToLoop false h))
  | CallTie obj => Ok (tie obj h)
  | CallRevents r => Ok (set_revents r h)
  | CallHandling b => Ok (set_eventHandling b h)
  end.

Fixpoint chan_calls (ks : list channel_call) (h : Channel handler) : outcome (Channel handler) :=
  match ks with [] => Ok h | k :: ks' => h ← chan_call k h; chan_calls ks' h end.

Lemma conn_call_chan k c :
  conn_call k c = (h ← chan_call k (channel_ c); Ok (set_channel h c)).
Proof.
  destruct k as [[]| | | |]; try done. unfold conn_call, TcpConnection.remove, chan_call.
  destruct (isNoneEvent (channel_ c)); [|done]. cbn [index_ set_addedToLoop mbind outcome_bind assert_].
  by destruct (_ || _).
Qed.

Section ConnChannel.
Context {CB K : Type} `{!EpollKernel K} (wire : handler → CB) (tid : Z).
Implicit Types (os : objs CB) (l : Loop (EPollPoller K)) (c : TcpConnection) (ch : Ptr).

(** The calls as the loop answers them. *)
Definition loop_call (k : channel_call) (ch : Ptr) (st : objs CB * Loop (EPollPoller K))
    : outcome (objs CB * Loop (EPollPoller K)) :=
  match k with
  | CallFlag o => run_flag tid o ch st
  | CallRemove => channel_remove tid ch st
  | CallTie obj => put ch (tie obj) st
  | CallRevents r => put ch (set_revents r) st
  | CallHandling b => put ch (set_eventHandling b) st
  end.

Fixpoint loop_calls (ks : list channel_call) (ch : Ptr) (st : objs CB * Loop (EPollPoller K))
    : outcome (objs CB * Loop (EPollPoller K)) :=
  match ks with [] => Ok st | k :: ks' => st ← loop_call k ch st; loop_calls ks' ch st end.

(** The channel object at [ch] is the connection's, and the poller may know it. *)
Record attached os l ch (h : Channel handler) : Prop := {
  att_loop : loop_ok tid os l;
  att_obj : os !! ch = Some (channel_map wire h);
  att_self : loop_ h = self l;
  att_mask : mask_ok (events_ h);
  att_reg : channels_ (poller_ l) !! fd_ h = Some ch ∨
            (channels_ (poller_ l) !! fd_ h = None ∧ index_ h = kNew)
}.

(** What nobody else notices. *)
Definition only_touches (fd : Z) ch os l os' (p' : EPollPoller K) : Prop :=
  (∀ q, q ≠ ch → os' !! q = os !! q) ∧
  ∀ fd', fd' ≠ fd → channels_ p' !! fd' = channels_ (poller_ l) !! fd' ∧
    interest (epollfd_ p') !! fd' = interest (epollfd_ (poller_ l)) !! fd'.

Lemma only_touches_refl fd ch os l : only_touches fd ch os l os (poller_ l).
Proof. done. Qed.

Lemma only_touches_trans fd ch os l os1 p1 os2 p2 :
  only_touches fd ch os l os1 p1 → only_touches fd ch os1 (set_poller p1 l) os2 p2 →
  only_touches fd ch os l os2 p2.
Proof.
  intros [H1 H1'] [H2 H2']. split.
  - intros q Hq. by rewrite H2, H1.
  - intros fd' Hfd. cbn in H2'. destruct (H1' _ Hfd) as [<- <-]. by apply H2'.
Qed.

Lemma set_poller_same l : set_poller (poller_ l) l = l.
Proof. by destruct l. Qed.

(** *** One call *)
Definition follows k os l ch c : Prop :=
  match conn_call k c with
  | Ok c' => ∃ os' p', loop_call k ch (os, l) = Ok (os', set_poller p' l) ∧
      attached os' (set_poller p' l) ch (channel_ c') ∧
      fd_ (channel_ c') = fd_ (channel_ c) ∧ only_touches (fd_ (channel_ c)) ch os l os' p'
  | Fail e => loop_call k ch (os, l) = Fail e
  end.

Lemma conn_flag_channel o c :
  channel_ (conn_flag o c) =
    set_index (if bool_decide (flag_events o (events_ (channel_ c)) = 0 ∧ index_ (channel_ c) = kAdded)
               then kDeleted else kAdded)
      (set_addedToLoop true (set_events (flag_events o (events_ (channel_ c))) (channel_ c))).
Proof. by destruct o. Qed.

Lemma flag_follows o os l ch c : attached os l ch (channel_ c) → follows (CallFlag o) os l ch c.
Proof.
  intros [[Hinv Ht] Hc Hl Hm Hreg]. unfold follows. cbn [conn_call loop_call].
  set (h := channel_ c) in *. set (w := channel_map wire h) in *.
  set (e := flag_events o (events_ h)). assert (mask_ok e) as He by by apply flag_events_ok.
  set (w1 := set_addedToLoop true w). set (os1 := <[ch := w1]> os).
  assert (loop_ok tid os1 l) as [Hinv1 _] by by apply (loop_ok_frame1 tid os l ch w).
  assert (∀ x, <[ch := x]> os1 = <[ch := x]> os) as Hins by (intros; apply insert_insert_eq).
  destruct (updateChannel_spec os1 (poller_ l) ch w1 e Hinv1 (lookup_insert_eq _ _ _) He Hreg)
    as (k' & E & Hinv' & Hk). cbv zeta in E, Hinv', Hk. 
  rewrite !Hins in E. rewrite Hins in Hinv'.
  eexists _, _. split; [|split; [|split]].
  - rewrite (run_flag_put tid o ch w) by done.
    unfold put, obj, channel_update, put, obj, loop_updateChannel, obj.
    cbn [fst snd]. rewrite Hc. cbn [mbind outcome_bind fst snd].
    rewrite lookup_insert_eq. cbn [mbind outcome_bind fst snd].
    rewrite insert_insert_eq, lookup_insert_eq. cbn [mbind outcome_bind].
    change (loop_ (set_addedToLoop true _)) with (loop_ h).
    rewrite Hl, Z.eqb_refl, (loop_ok_thread tid os l) by by split.
    cbn [mbind outcome_bind assert_ assertInLoopThread Poller.updateChannel epoll_poller].
    change (set_addedToLoop true (set_events (flag_events o (events_ w)) w)) with (set_events e w1).
    rewrite E. reflexivity.
  - rewrite conn_flag_channel. fold h e. constructor; cbn; [by split| |done|done|].
    + by rewrite lookup_insert_eq.
    + left. apply lookup_insert_eq.
  - by rewrite conn_flag_channel.
  - split; cbn.
    + intros q Hq. by rewrite lookup_insert_ne.
    + intros fd Hfd. by rewrite Hk, decide_False, lookup_insert_ne by done.
Qed.

(** [Channel::remove] up to the poller. *)
Lemma loop_remove_eq os l ch h : attached os l ch h → removable l ch →
  channel_remove tid ch (os, l) =
    if isNoneEvent h then
      '(os', p') ← EPollPoller.removeChannel true ch
        (<[ch := set_addedToLoop false (channel_map wire h)]> os, poller_ l);
      Ok (os', set_poller p' l)
    else Fail AssertFailure.
Proof.
  intros [Hok Hc Hl _ _] Hrm. unfold channel_remove, put, loop_removeChannel, obj. cbn [fst snd].
  rewrite Hc. cbn [mbind outcome_bind]. change (isNoneEvent (channel_map wire h)) with (isNoneEvent h).
  destruct (isNoneEvent h); [|done]. cbn [mbind outcome_bind assert_ fst snd].
  rewrite lookup_insert_eq. cbn [mbind outcome_bind].
  change (loop_ (set_addedToLoop _ _)) with (loop_ h).
  rewrite Hl, Z.eqb_refl, (loop_ok_thread _ _ _ Hok), removable_assert by done.
  cbn [mbind outcome_bind assert_ assertInLoopThread Poller.removeChannel epoll_poller]. done.
Qed.

Lemma remove_follows os l ch c :
  attached os l ch (channel_ c) → removable l ch → follows CallRemove os l ch c.
Proof.
  intros Hatt Hrm. unfold follows. cbn [conn_call loop_call].
  rewrite (loop_remove_eq _ _ _ (channel_ c)) by done. unfold TcpConnection.remove.
  destruct Hatt as [[Hinv Ht] Hc Hl Hm Hreg]. set (h := channel_ c) in *.
  destruct (isNoneEvent h) eqn:Hz; [cbn [mbind outcome_bind assert_]|done].
  apply Z.eqb_eq in Hz. unfold kNoneEvent in Hz.
  set (w1 := set_addedToLoop false (channel_map wire h)). set (os1 := <[ch := w1]> os).
  assert (loop_ok tid os1 l) as [Hinv1 _] by by apply (loop_ok_frame1 tid os l ch (channel_map wire h)).
  change (index_ (set_addedToLoop false h)) with (index_ h).
  destruct (registered_state os1 (poller_ l) ch w1 Hinv1 (lookup_insert_eq _ _ _) Hreg)
    as [(Hi & Hn & _)|Hr];
    [cbn in Hi, Hn; rewrite Hi; cbn [Z.eqb kNew kAdded kDeleted orb assert_ mbind outcome_bind]|].
  { unfold EPollPoller.removeChannel, obj, os1. rewrite lookup_insert_eq.
    cbn [mbind outcome_bind assertInLoopThread]. change (fd_ w1) with (fd_ h).
    rewrite (bool_decide_false (is_Some _)); [done|]. rewrite Hn. by intros [? ?]. }
  assert (channels_ (poller_ l) !! fd_ h = Some ch ∧
          (index_ h =? kAdded) || (index_ h =? kDeleted) = true) as [Hch Hidx].
  { destruct Hr as [(? & Hi & _)|(? & Hi & _)]; cbn in Hi; by rewrite Hi. }
  rewrite Hidx. cbn [mbind outcome_bind assert_].
  destruct (epoll_removeChannel_spec os1 (poller_ l) ch w1 Hinv1 (lookup_insert_eq _ _ _) Hch Hz)
    as (k' & E & Hinv' & Hk). cbv zeta in E, Hinv', Hk.
  assert (∀ x, <[ch := x]> os1 = <[ch := x]> os) as Hins by (intros; apply insert_insert_eq).
  rewrite Hins in E. rewrite Hins in Hinv'.
  eexists _, _. split; [|split; [|split]].
  - fold w1 os1. rewrite E. reflexivity.
  - constructor; cbn; [by split| |done|done|].
    + by rewrite lookup_insert_eq.
    + right. split; [apply lookup_delete_eq|done].
  - done.
  - split; cbn.
    + intros q Hq. by rewrite lookup_insert_ne.
    + intros fd Hfd. by rewrite Hk, decide_False, lookup_delete_ne by done.
Qed.

(** The stores the poller does not look at. *)
Lemma put_follows f os l ch c :
  (∀ h : Channel handler, loop_ (f h) = loop_ h ∧ same_for_poller h (f h)) →
  attached os l ch (channel_ c) → ∀ fCB : Channel CB → Channel CB,
  (∀ h, channel_map wire (f h) = fCB (channel_map wire h)) →
  ∃ os' p', put ch fCB (os, l) = Ok (os', set_poller p' l) ∧
    attached os' (set_poller p' l) ch (f (channel_ c)) ∧
    fd_ (f (channel_ c)) = fd_ (channel_ c) ∧ only_touches (fd_ (channel_ c)) ch os l os' p'.
Proof.
  intros Hf [Hok Hc Hl Hm Hreg] fCB Hcb. destruct (Hf (channel_ c)) as (Hlo & Hfd & He & Hi).
  exists (<[ch := fCB (channel_map wire (channel_ c))]> os), (poller_ l). split_and!; [..|done|].
  - unfold put, obj. cbn. by rewrite Hc, set_poller_same.
  - rewrite set_poller_same. constructor.
    + apply (loop_ok_frame1 tid os l ch (channel_map wire (channel_ c))); [done..|].
      rewrite <-Hcb. by split_and!.
    + by rewrite lookup_insert_eq, Hcb.
    + by rewrite Hlo.
    + by rewrite He.
    + by rewrite Hfd, Hi.
  - split; [|done]. intros q Hq. by rewrite lookup_insert_ne.
Qed.

Lemma call_follows k os l ch c :
  attached os l ch (channel_ c) → removable l ch → follows k os l ch c.
Proof.
  intros Ha Hr. destruct k as [o| |obj|r|b].
  - by apply flag_follows.
  - by apply remove_follows.
  - by apply (put_follows (tie obj)).
  - by apply (put_follows (set_revents r)).
  - by apply (put_follows (set_eventHandling b)).
Qed.

(** Some connection, to hold a channel. *)
Definition blank : TcpConnection := mkConn kDisconnected false (Channel_ctor 0 0) (mkBuffer [] 0 0)
  (mkBuffer [] 0 0) 0 false false false [] OwnerGone false [] [] [] [].

Lemma calls_follow ks ch : ∀ os l h, attached os l ch h → removable l ch →
  match chan_calls ks h with
  | Ok h' => ∃ os' p', loop_calls ks ch (os, l) = Ok (os', set_poller p' l) ∧
      attached os' (set_poller p' l) ch h' ∧ fd_ h' = fd_ h ∧ only_touches (fd_ h) ch os l os' p'
  | Fail e => loop_calls ks ch (os, l) = Fail e
  end.
Proof.
  induction ks as [|k ks IH]; intros os l h Ha Hr; cbn.
  { exists os, (poller_ l). by rewrite set_poller_same. }
  pose proof (call_follows k os l ch (set_channel h blank) Ha Hr) as Hk. unfold follows in Hk.
  rewrite conn_call_chan in Hk. cbn [channel_ set_channel] in Hk.
  destruct (chan_call k h) as [h1|e]; cbn in *; [|by rewrite Hk].
  destruct Hk as (os1 & p1 & -> & Ha1 & Hf1 & Ht1). cbn.
  specialize (IH os1 (set_poller p1 l) h1 Ha1 Hr).
  destruct (chan_calls ks h1) as [h2|e]; [|done].
  destruct IH as (os2 & p2 & E & Ha2 & Hf2 & Ht2). exists os2, p2. split_and!; [exact E|exact Ha2|congruence|].
  rewrite Hf1 in Ht2. eapply only_touches_trans; [exact Ht1|exact Ht2].
Qed.
End ConnChannel.

(** ** Operations of a connection are calls on its channel

    [moves h h']: some sequence of calls takes the channel from [h] to [h']. *)
Definition moves (h h' : Channel handler) : Prop := ∃ ks, chan_calls ks h = Ok h'.


Lemma moves_refl h : moves h h.
Proof. by exists []. Qed.

Lemma chan_calls_app ks1 ks2 h :
  chan_calls (ks1 ++ ks2) h = (h ← chan_calls ks1 h; chan_calls ks2 h).
Proof.
  revert h. induction ks1 as [|k ks1 IH]; intros h; cbn; [done|].
  destruct (chan_call k h); cbn; [apply IH|done].
Qed.

Lemma moves_call k h h1 h2 : moves h h1 → chan_call k h1 = Ok h2 → moves h h2.
Proof. intros [ks E] Hk. exists (ks ++ [k]). rewrite chan_calls_app, E. cbn. by rewrite Hk. Qed.

(** [within c0 c]: besides calls on the channel and functors added to the queue,
    [c] differs from [c0] in ordinary fields only; in particular the object still
    exists. *)
Definition within (c0 c : TcpConnection) : Prop :=
  moves (channel_ c0) (channel_ c) ∧ alive c = alive c0 ∧ queue c0 `prefix_of` queue c.

Definition moved (c0 : TcpConnection) (m : outcome TcpConnection) : Prop :=
  match m with Ok c => within c0 c | Fail _ => True end.

Lemma within_refl c : within c c.
Proof. by split; [apply moves_refl|]. Qed.

Lemma within_call k c0 c c' : within c0 c → conn_call k c = Ok c' → within c0 c'.
Proof.
  intros [Hm Ha] E. rewrite conn_call_chan in E. inv_ok. subst c'. split; [by eapply moves_call|done].
Qed.

Lemma within_queue f c0 c : within c0 c → within c0 (queueInLoop f c).
Proof. intros (Hm & Ha & Hq). split_and!; [done..|]. by apply prefix_app_r. Qed.

Lemma moved_bind {A} h (m : outcome A) (k : A → outcome TcpConnection) :
  (∀ a, m = Ok a → moved h (k a)) → moved h (m ≫= k).
Proof. destruct m as [a|e]; cbn; [auto|done]. Qed.

Lemma moved_then h m (k : TcpConnection → outcome TcpConnection) :
  moved h m → (∀ c, within h c → moved h (k c)) → moved h (m ≫= k).
Proof. destruct m as [c|e]; cbn; auto. Qed.

Lemma within_flag o c0 c : within c0 c → within c0 (conn_flag o c).
Proof. intros H. by apply (within_call (CallFlag o) _ c). Qed.

Lemma moved_remove h c : within h c → moved h (TcpConnection.remove c).
Proof.
  intros H. destruct (TcpConnection.remove c) as [c'|] eqn:E; [|done]. by apply (within_call CallRemove _ c).
Qed.

Create HintDb moves.
#[local] Hint Resolve within_refl within_queue moved_remove : moves.
#[local] Hint Extern 1 (within _ (TcpConnection.enableReading _)) =>
  apply (within_flag EnableReading) : moves.
#[local] Hint Extern 1 (within _ (TcpConnection.disableReading _)) =>
  apply (within_flag DisableReading) : moves.
#[local] Hint Extern 1 (within _ (TcpConnection.enableWriting _)) =>
  apply (within_flag EnableWriting) : moves.
#[local] Hint Extern 1 (within _ (TcpConnection.disableWriting _)) =>
  apply (within_flag DisableWriting) : moves.
#[local] Hint Extern 1 (within _ (TcpConnection.disableAll _)) =>
  apply (within_flag DisableAll) : moves.

(** Ordinary fields do not matter. *)
#[local] Hint Extern 1 (within ?h (set_reading _ ?c)) => change (within h c) : moves.
#[local] Hint Extern 1 (within ?h (set_state _ ?c)) => change (within h c) : moves.
#[local] Hint Extern 1 (within ?h (set_output _ ?c)) => change (within h c) : moves.
#[local] Hint Extern 1 (within ?h (set_write_shut _ ?c)) => change (within h c) : moves.
#[local] Hint Extern 1 (within ?h (add_accepted _ ?c)) => change (within h c) : moves.

(** Case analysis on what an operation branches on. *)
Ltac branches := cbn [moved mbind outcome_bind];
  repeat (case_match; cbn [moved mbind outcome_bind]); auto 6 with moves.

Section Moves.
Context (user : event → TcpConnection → list api).
Implicit Types (h c : TcpConnection) (in_loop : bool).

Lemma moved_sendInLoop in_loop h data w c : within h c → moved h (sendInLoop in_loop data w c).
Proof.
  intros H. unfold sendInLoop. apply moved_bind. intros _ _. case_bool_decide; [done|].
  assert (∀ n b c1, try_write data w c = (n, b, c1) → within h c1) as Ht.
  { intros n b c1. unfold try_write. repeat case_match; intros [= <- <- <-]; try apply within_queue; exact H. }
  destruct (try_write data w c) as [[n b] c1]. specialize (Ht _ _ _ eq_refl).
  apply moved_bind. intros _ _. case_match; [|by destruct b].
  apply moved_bind. intros out _. destruct b; branches.
Qed.

Lemma moved_shutdownInLoop in_loop h c : within h c → moved h (shutdownInLoop in_loop c).
Proof. intros H. unfold shutdownInLoop. apply moved_bind. intros _ _. branches. Qed.
Lemma moved_startReadInLoop in_loop h c : within h c → moved h (startReadInLoop in_loop c).
Proof. intros H. unfold startReadInLoop. apply moved_bind. intros _ _. branches. Qed.
Lemma moved_stopReadInLoop in_loop h c : within h c → moved h (stopReadInLoop in_loop c).
Proof. intros H. unfold stopReadInLoop. apply moved_bind. intros _ _. branches. Qed.
Lemma moved_forceClose h c : within h c → moved h (forceClose c).
Proof. intros H. unfold forceClose. branches. Qed.

#[local] Hint Resolve moved_sendInLoop moved_shutdownInLoop moved_startReadInLoop
  moved_stopReadInLoop moved_forceClose : moves.

Lemma moved_api in_loop h a c : within h c → moved h (run_api in_loop a c).
Proof.
  intros H. destruct a as [data w| | | | | |cb mark|len]; cbn [run_api]; auto with moves.
  - unfold send. branches.
  - unfold shutdown. case_bool_decide; [|done]. branches.
  - unfold forceCloseWithDelay. branches.
  - unfold startRead. branches.
  - unfold stopRead. branches.
  - apply moved_bind. intros b _. exact H.
Qed.

Lemma moved_apis in_loop h l : ∀ c, within h c → moved h (run_apis in_loop l c).
Proof.
  induction l as [|a l IH]; intros c H; cbn [run_apis]; [done|].
  apply moved_then; [by apply moved_api|done].
Qed.

Lemma moved_callback in_loop h e c : within h c → moved h (callback in_loop user e c).
Proof. intros H. by apply moved_apis. Qed.
#[local] Hint Resolve moved_callback : moves.

Lemma moved_handleClose in_loop h c : within h c → moved h (handleClose in_loop user c).
Proof.
  intros H. unfold handleClose. do 2 (apply moved_bind; intros _ _).
  apply moved_then; [|done]. apply moved_callback. apply (within_flag DisableAll). exact H.
Qed.
#[local] Hint Resolve moved_handleClose : moves.

Lemma moved_connectDestroyed in_loop h c : within h c → moved h (connectDestroyed in_loop user c).
Proof.
  intros H. unfold connectDestroyed. apply moved_bind; intros _ _.
  apply moved_then; [|by auto with moves]. case_bool_decide; [|done].
  apply moved_callback. apply (within_flag DisableAll). exact H.
Qed.

Lemma moved_connectEstablished in_loop h self c :
  within h c → moved h (connectEstablished in_loop user self c).
Proof.
  intros H. unfold connectEstablished. do 2 (apply moved_bind; intros _ _).
  apply moved_callback. apply (within_flag EnableReading).
  by apply (within_call (CallTie self) _ (set_state kConnected c)).
Qed.

Lemma moved_handleRead in_loop h readv c : within h c → moved h (handleRead in_loop user readv c).
Proof.
  intros H. unfold handleRead. apply moved_bind; intros _ _. apply moved_bind; intros [[b n] err] _.
  case_match; [by apply moved_callback|]. case_match; [by apply moved_handleClose|done].
Qed.

Lemma moved_handleWrite in_loop h w c : within h c → moved h (handleWrite in_loop w c).
Proof.
  intros H. unfold handleWrite. apply moved_bind; intros _ _.
  case_match; [|done]. case_match; [done|]. case_match; [|done]. apply moved_bind; intros out _.
  case_match; [|done]. set (c1 := if writeCompleteCallback_ _ then _ else _).
  assert (within h c1) as Hc1.
  { subst c1. case_match; try apply within_queue; apply (within_flag DisableWriting); exact H. }
  case_bool_decide; [by apply moved_shutdownInLoop|done].
Qed.

Lemma moved_forceCloseInLoop in_loop h c : within h c → moved h (forceCloseInLoop in_loop user c).
Proof. intros H. unfold forceCloseInLoop. apply moved_bind; intros _ _. branches. Qed.

#[local] Hint Resolve moved_connectDestroyed moved_forceCloseInLoop : moves.
Lemma moved_functor in_loop h f w c : within h c → moved h (run_functor in_loop user f w c).
Proof.
  intros H. unfold run_functor. case_match; [done|]. destruct f; auto with moves.
  apply moved_then; [by auto with moves|done].
Qed.

(** *** Events *)
Definition moved_world h (m : outcome conn_world) : Prop :=
  match m with Ok w => within h w.1 | Fail _ => True end.

Lemma moved_world_then h (m : outcome conn_world) (k : conn_world → outcome conn_world) :
  moved_world h m → (∀ w, within h w.1 → moved_world h (k w)) → moved_world h (m ≫= k).
Proof. destruct m as [w|e]; cbn; auto. Qed.

Lemma moved_handler h k hd c : within h c → moved h (run_handler user k hd c).
Proof.
  intros H. destruct hd; cbn [run_handler].
  - by apply moved_handleRead.
  - by apply moved_handleWrite.
  - by apply moved_handleClose.
  - done.
Qed.

Lemma moved_dispatch1 h k now test sel (w : conn_world) : within h w.1 →
  moved_world h (dispatch1 (call_handler user k) channel_addr now test sel w).
Proof.
  intros H. unfold dispatch1, deref. cbn [chan_lookup conn_store]. rewrite decide_True by done.
  cbn [mbind outcome_bind]. case_match; [|done]. destruct (sel (channel_ w.1)) as [hd|]; [|done].
  unfold call_handler. pose proof (moved_handler h k hd w.1 H) as Hm. by destruct (run_handler _ _ _ _).
Qed.

Lemma moved_event h revents k now c :
  within h c → moved h (handle_event user revents k now c).
Proof.
  intros H. unfold handle_event. fold (call_handler user k).
  set (w := (set_channel _ c, ∅)).
  assert (within h w.1) as Hw by (by apply (within_call (CallRevents revents) _ c)).
  clearbody w. clear c H.
  rewrite (handleEvent_cases _ _ _ _ _ (channel_ w.1)) by done. case_match; [done|].
  unfold handleEventWithGuard. rewrite modify_handling. cbn [mbind outcome_bind].
  set (w1 := (set_channel _ w.1, w.2)).
  assert (within h w1.1) as Hw1 by by apply (within_call (CallHandling true) _ w.1).
  clearbody w1.
  match goal with |- moved h (?m ≫= _) => assert (moved_world h m) as Hm; [|by destruct m] end.
  do 4 (apply moved_world_then; [by apply moved_dispatch1|]; intros ??).
  rewrite modify_handling. by eapply (within_call (CallHandling false)).
Qed.

(** A functor that runs has left the queue. *)
Definition popped (o : op) c : TcpConnection :=
  match o with OpFunctor _ => set_queue (tail (queue c)) c | _ => c end.

Lemma op_within o c : o ≠ OpRelease → moved (popped o c) (run_op user o c).
Proof.
  intros Hne. pose proof (within_refl (popped o c)) as H.
  destruct o as [self|a|x|pre revents k now|w| | | |]; cbn [run_op]; try by destruct Hne.
  - by apply moved_connectEstablished.
  - by apply moved_api.
  - destruct x as [|f]; [exact H|by apply within_queue].
  - apply moved_then; [by apply moved_apis|]. intros c1. apply moved_event.
  - cbn [popped] in *. destruct (queue c) as [|f q] eqn:Hq; cbn [tail] in *; [|by apply moved_functor].
    split_and!; [apply moves_refl|done|apply prefix_nil].
  - by apply within_queue.
  - apply moved_then; [by apply moved_connectDestroyed|done].
  - unfold weak_forceClose, WeakCallback_call. destruct (alive c); [by apply moved_forceClose|exact H].
Qed.

Lemma op_moves o c c' : run_op user o c = Ok c' → moves (channel_ c) (channel_ c').
Proof.
  intros E. assert (o = OpRelease ∨ o ≠ OpRelease) as [->|Hne] by (destruct o; auto).
  - cbn [run_op] in E. unfold TcpConnection_dtor in E. inv_ok. subst c'. apply moves_refl.
  - pose proof (op_within o c Hne) as H. rewrite E in H. destruct o; apply H.
Qed.

Lemma op_alive o c c' : run_op user o c = Ok c' → o ≠ OpRelease → alive c' = alive c.
Proof. intros E Hne. pose proof (op_within o c Hne) as H. rewrite E in H. destruct o; apply H. Qed.
End Moves.

(** ** A connection hosted by a loop *)
Section Hosted.
Context {CB K : Type} `{!EpollKernel K} (wire : handler → CB) (tid : Z) (ch : Ptr).
Context (user : event → TcpConnection → list api).

Abbreviation hosted := (objs CB * Loop (EPollPoller K) * TcpConnection)%type.

(** [HostOp]: an operation of the connection, its calls on the channel made on
    the loop.  [HostOther]: whatever the loop and its other channels do. *)
Inductive hosted_step : hosted → hosted → Prop :=
  | HostOp os l c o ks os' l' c' :
      op_ok o c → removable l ch → run_op user o c = Ok c' →
      chan_calls ks (channel_ c) = Ok (channel_ c') →
      loop_calls tid ks ch (os, l) = Ok (os', l') →
      hosted_step (os, l, c) (os', l', c')
  | HostOther os l c os' l' :
      loop_ok tid os' l' → self l' = self l → os' !! ch = os !! ch →
      channels_ (poller_ l') !! fd_ (channel_ c) = channels_ (poller_ l) !! fd_ (channel_ c) →
      hosted_step (os, l, c) (os', l', c).

(** [index_] and [addedToLoop_] agree about whether the poller knows the channel. *)
Definition synced (h : Channel handler) : Prop := addedToLoop_ h = negb (index_ h =? kNew).

Lemma moves_synced h h' : moves h h' → synced h → synced h' ∧ fd_ h' = fd_ h.
Proof.
  intros [ks E]. revert h E. induction ks as [|k ks IH]; intros h E Hs; cbn in E; [by injection E as <-|].
  apply outcome_bind_ok in E as (h1 & E1 & E).
  assert (synced h1 ∧ fd_ h1 = fd_ h) as [Hs1 <-]; [|by apply IH].
  destruct k as [o| |obj|r|b]; cbn in E1; inv_ok; subst; try done.
  split; [|by destruct o]. unfold synced, poller_index. by case_bool_decide; destruct o.
Qed.

Definition hosted_inv (fd : Z) (s : hosted) : Prop :=
  let '(os, l, c) := s in
  attached wire tid os l ch (channel_ c) ∧ conn_inv c ∧ synced (channel_ c) ∧ fd_ (channel_ c) = fd ∧
  (state_ c = kConnecting → index_ (channel_ c) = kNew).

Context (Huser : user_ok user).

(** Nothing but [connectEstablished] gets a connection out of [kConnecting]. *)
Lemma still_connecting o c c' : conn_inv c → op_ok o c → run_op user o c = Ok c' →
  state_ c' = kConnecting → c' = c ∧ state_ c = kConnecting.
Proof.
  intros Hinv Hop E Hs'. assert (¬ born c') as Hnb.
  { intros (r & [Hu|(w & _ & Hd)]).
    - destruct (up_state _ _ _ Hu); congruence.
    - pose proof (down_state _ _ _ _ Hd). congruence. }
  assert ((born c ∨ ∀ w, o ≠ OpFunctor w) ∨ unborn c ∧ ∃ w, o = OpFunctor w) as [Hb|[Hn [w ->]]].
  { destruct Hinv as [Hn|Hb]; [|by left; left]. destruct o; (by left; right) || (right; eauto). }
  - destruct Hnb. exact (safe_ok _ _ _ (op_born user Huser o c Hinv Hb Hop) E).
  - rewrite op_unborn_functor in E by done. injection E as <-. by split; [|apply Hn].
Qed.

Lemma hosted_step_inv fd s s' : hosted_inv fd s → hosted_step s s' → hosted_inv fd s'.
Proof.
  intros Hinv Hstep. destruct Hstep as [os l c o ks os' l' c' Hop Hrm E Ek El|os l c os' l' Hok Hself Hobj Hreg];
    destruct Hinv as (Hatt & Hc & Hs & Hfd & Hnew).
  - destruct (moves_synced _ _ (ex_intro _ ks Ek) Hs) as [Hs' Hfd'].
    pose proof (calls_follow wire tid ks ch os l (channel_ c) Hatt Hrm) as H. rewrite Ek in H.
    destruct H as (os1 & p1 & E1 & Hatt1 & _). rewrite E1 in El. injection El as <- <-.
    split_and!; [done| |done|congruence|].
    + exact (safe_ok _ _ _ (op_inv user Huser o c Hc Hop) E).
    + intros Hst. destruct (still_connecting o c c' Hc Hop E Hst) as [-> ?]. auto.
  - split_and!; try done. destruct Hatt as [_ Ho Hl Hm Hr]. constructor; try done; congruence.
Qed.

(** *** From the constructor *)
Lemma ctor_facts loop fd wc hw c0 : TcpConnection_ctor loop fd wc hw = Ok c0 →
  loop_ (channel_ c0) = loop ∧ fd_ (channel_ c0) = fd ∧ events_ (channel_ c0) = 0 ∧
  index_ (channel_ c0) = kNew ∧ addedToLoop_ (channel_ c0) = false.
Proof. unfold TcpConnection_ctor. intros E. inv_ok. by subst. Qed.

Lemma hosted_start os l fd wc hw c0 :
  TcpConnection_ctor (self l) fd wc hw = Ok c0 → loop_ok tid os l → os !! ch = None →
  channels_ (poller_ l) !! fd = None →
  hosted_inv fd (<[ch := channel_map wire (channel_ c0)]> os, l, c0).
Proof.
  intros E Hok Hnew Hreg. destruct (ctor_facts _ _ _ _ _ E) as (El & Ef & Ee & Ei & Ea).
  split_and!; [|by eapply ctor_inv|by unfold synced; rewrite Ea, Ei|done..].
  constructor; [by apply new_object_ok|apply lookup_insert_eq|done|by rewrite Ee|].
  right. by rewrite Ef.
Qed.

(** What the poller and the kernel know about the connection's descriptor. *)
Definition watched_for fd (l : Loop (EPollPoller K)) c : Prop :=
  let known := channels_ (poller_ l) !! fd in
  let kernel := interest (epollfd_ (poller_ l)) !! fd in
  match state_ c with
  | kConnecting => known = None ∧ kernel = None
  | kConnected | kDisconnecting =>
    known = Some ch ∧ (kernel = None → events_ (channel_ c) = 0) ∧
    (∀ ev, kernel = Some ev → ev = (events_ (channel_ c), ch)) ∧
    (has (events_ (channel_ c)) POLLOUT = true ↔ contents (outputBuffer_ c) ≠ [])
  | kDisconnected =>
    if decide (owner c = OwnerGone) then known = None ∧ kernel = None
    else known = Some ch ∧ (kernel = None ∨ kernel = Some (0, ch))
  end.

(** The three states of a channel, with the connection's fields. *)
Lemma attached_index (os : objs CB) (l : Loop (EPollPoller K)) h : attached wire tid os l ch h →
  let known := channels_ (poller_ l) !! fd_ h in
  let kernel := interest (epollfd_ (poller_ l)) !! fd_ h in
  (index_ h = kNew ∧ known = None ∧ kernel = None) ∨
  (index_ h ≠ kNew ∧ known = Some ch ∧
   (kernel = None → events_ h = 0) ∧ (∀ ev, kernel = Some ev → ev = (events_ h, ch))).
Proof.
  intros [[(H1 & H2 & _) _] Ho _ _ [Hr|[Hr Hi]]]; cbn.
  - right. destruct (H1 _ _ Hr) as (w & Hw & _ & Hwa). rewrite Ho in Hw. injection Hw as <-.
    destruct Hwa as [(Hi & _ & [[_ Hk]|[[]%not_elem_of_empty _]])|(Hi & He & _ & Hk)];
      cbn in Hi, Hk; rewrite Hk, Hi; [by split_and!; [| |done|intros ? [= <-]]|].
    by split_and!.
  - left. by split_and!; [| |apply H2].
Qed.

Lemma hosted_watched fd (os : objs CB) (l : Loop (EPollPoller K)) c : hosted_inv fd (os, l, c) → watched_for fd l c.
Proof.
  intros (Hatt & Hc & Hs & <- & Hnew). pose proof (attached_index _ _ _ Hatt) as Hst.
  unfold watched_for, synced in *. destruct Hc as [Hn|(r & [Hu|(o & Hne & Hd)])].
  - rewrite (unborn_state _ Hn) in *. destruct Hst as [(_ & ?)|(Hi & _)]; [done|by destruct Hi, Hnew].
  - assert (index_ (channel_ c) ≠ kNew) as Hi.
    { intros Hi. rewrite Hi in Hs. destruct (up_indexed _ _ _ Hu) as [Ha _]. rewrite Ha in Hs. done. }
    destruct Hst as [(? & _)|(_ & Hk & Hk1 & Hk2)]; [done|].
    assert (isWriting (channel_ c) = true ↔ contents (outputBuffer_ c) ≠ []) as Hw.
    { rewrite (up_writing _ _ _ Hu), negb_true_iff, bool_decide_eq_false. done. }
    destruct (up_state _ _ _ Hu) as [-> | ->]; by split_and!.
  - rewrite (down_state _ _ _ _ Hd), (down_owner _ _ _ _ Hd). pose proof (down_added _ _ _ _ Hd) as Ha.
    rewrite (down_events _ _ _ _ Hd) in Hst. case_decide as Ho.
    + subst o. rewrite Ha in Hs. destruct Hst as [(_ & ?)|(Hi & _)]; [done|].
      symmetry in Hs. by apply negb_false_iff, Z.eqb_eq in Hs.
    + assert (index_ (channel_ c) ≠ kNew) as Hi.
      { intros Hi. rewrite Hi in Hs. destruct o; (done || (destruct Ha as [[Ha _] _]; rewrite Ha in Hs; done)). }
      destruct Hst as [(? & _)|(_ & Hk & _ & Hk2)]; [done|]. split; [done|].
      destruct (interest _ !! _) as [ev|]; [right; f_equal; by apply Hk2|by left].
Qed.

(** C13: a connection may be modelled apart from its loop.  On a loop with an
    [EPollPoller], whatever the other channels do in between, every operation of
    the connection can make its calls on the real channel; none of them fails,
    and other channels are left alone.  At every moment the kernel watches the
    descriptor for exactly the channel's events (so for POLLOUT exactly while
    output is buffered), not at all before the connection is established and
    after it is destroyed. *)
Theorem connection_runs_on_loop os0 l0 fd wc hw c0 os l c :
  TcpConnection_ctor (self l0) fd wc hw = Ok c0 → loop_ok tid os0 l0 → os0 !! ch = None →
  channels_ (poller_ l0) !! fd = None →
  rtc hosted_step (<[ch := channel_map wire (channel_ c0)]> os0, l0, c0) (os, l, c) →
  watched_for fd l c ∧
  ∀ o, op_ok o c → removable l ch →
    (∃ os' p' c', run_op user o c = Ok c' ∧ hosted_step (os, l, c) (os', set_poller p' l, c') ∧
       only_touches fd ch os l os' p') ∨
    run_op user o c = Fail LengthError.
Proof.
  intros E0 Hok Hnew Hreg Hrtc.
  pose proof (hosted_start _ _ _ _ _ _ E0 Hok Hnew Hreg) as Hinv.
  apply (rtc_invariant hosted_step (hosted_inv fd) (hosted_step_inv fd) _ _ Hrtc) in Hinv.
  split; [by eapply hosted_watched|]. intros o Hop Hrm. destruct Hinv as (Hatt & Hc & _ & <- & _).
  pose proof (op_inv user Huser o c Hc Hop) as Hsafe. 
  destruct (run_op user o c) as [c'|e] eqn:E; [left|right; by rewrite Hsafe].
  destruct (op_moves user o c c' E) as [ks Ek]. pose proof (calls_follow wire tid ks ch os l (channel_ c) Hatt Hrm) as H.
  rewrite Ek in H. destruct H as (os' & p' & El & _ & _ & Ht). exists os', p', c'.
  split_and!; [done| |done..]. by econstructor.
Qed.
End Hosted.

(** *** A connection established on an epoll loop *)
Definition demo_loop : Loop (EPollPoller (gmap Z epoll_event)) :=
  mkLoop 1 42 false [] None (EPollPoller_ctor (∅ : gmap Z epoll_event)).
Definition demo_objs : objs handler := <[100 := channel_map id (channel_ demo_conn)]> ∅.
Definition demo_hosted : objs handler * Loop (EPollPoller (gmap Z epoll_event)) :=
  from_ok (demo_objs, demo_loop)
    (loop_calls 42 [CallTie 5; CallFlag EnableReading] 100 (demo_objs, demo_loop)).

Lemma demo_loop_ok : loop_ok (CB := handler) 42 ∅ demo_loop.
Proof. split; [|done]. apply epoll_inv_ctor; [done|]. by intros ch c ?%lookup_empty_Some. Qed.

Lemma demo_established :
  rtc (hosted_step (K := gmap Z epoll_event) 42 100 silent)
    (demo_objs, demo_loop, demo_conn) (demo_hosted.1, demo_hosted.2, demo_up).
Proof.
  apply rtc_once. eapply (HostOp _ _ _ _ _ _ (OpEstablish 5) [CallTie 5; CallFlag EnableReading]);
    by vm_compute.
Qed.

Lemma connection_runs_on_loop_witness :
  state_ demo_up = kConnected ∧ watched_for 100 7 demo_hosted.2 demo_up ∧
  interest (epollfd_ (poller_ demo_hosted.2)) !! 7 = Some (kReadEvent, 100).
Proof.
  split; [by vm_compute|]. split; [|by vm_compute].
  exact (proj1 (connection_runs_on_loop id 42 100 silent silent_ok ∅ demo_loop 7 true false demo_conn
    demo_hosted.1 demo_hosted.2 demo_up demo_ctor demo_loop_ok eq_refl eq_refl demo_established)).
Defined.
