(* ===== verification/Sync.v ===== *)
(** [kaycc::MutexLock], [kaycc::Condition] and [kaycc::CountDownLatch]
    ([src/base/mutex.h], [src/base/condition.h], [src/base/condition.cpp],
    [src/base/count_down_latch.h], [src/base/count_down_latch.cpp]).

    The pthread mutex and condition variable are the system's: a mutex has at most
    one owner, and a thread in [pthread_cond_wait] may return at any time the mutex
    is free.  What the classes add is [holder_], the thread id by which
    [isLockedByThisThread] answers; threads interleave at every access to it. *)
From Stdlib Require Import Floats.SpecFloat.
From stdpp Require Import gmap.
From S2P Require Import Prelude Timestamp.

(** ** MutexLock

    A thread outside; in [lock] between [pthread_mutex_lock] and [assignHolder];
    in its critical section; in [unlock] after [unassignHolder]; in
    [Condition::wait] after [unassignHolder], asleep, and back with the mutex. *)
Inductive lock_pc := Outside | Locked | Inside | Unlocking | CondWait | Asleep | Relocked.
#[export] Instance lock_pc_eq_dec : EqDecision lock_pc.
Proof. solve_decision. Defined.

Record MutexLock := mkMutex {
  mutex_ : option Z;         (* the owner of the pthread mutex *)
  holder_ : Z;
  pcs : gmap Z lock_pc       (* the threads, by id *)
}.

Definition MutexLock_ctor : MutexLock := mkMutex None 0 ∅.

Definition assignHolder (tid : Z) m : MutexLock := mkMutex (mutex_ m) tid (pcs m).
Definition unassignHolder m : MutexLock := mkMutex (mutex_ m) 0 (pcs m).
Definition isLockedByThisThread (tid : Z) m : bool := holder_ m =? tid.
Definition assertLockByThisThread (tid : Z) m : outcome unit := assert_ (isLockedByThisThread tid m).
Definition MutexLock_dtor m : outcome unit := assert_ (holder_ m =? 0).

Definition pc (tid : Z) m : lock_pc := default Outside (pcs m !! tid).
Definition goto (tid : Z) (p : lock_pc) m : MutexLock := mkMutex (mutex_ m) (holder_ m) (<[tid := p]> (pcs m)).
Definition set_mutex o m : MutexLock := mkMutex o (holder_ m) (pcs m).

(** [lock], [unlock] and [Condition::wait], one access at a time. *)
Inductive mutex_step : MutexLock → MutexLock → Prop :=
  | LockMutex t m : 0 < t → pc t m = Outside → mutex_ m = None →
      mutex_step m (goto t Locked (set_mutex (Some t) m))
  | LockAssign t m : pc t m = Locked → mutex_step m (goto t Inside (assignHolder t m))
  | UnlockUnassign t m : pc t m = Inside → mutex_step m (goto t Unlocking (unassignHolder m))
  | UnlockMutex t m : pc t m = Unlocking → mutex_step m (goto t Outside (set_mutex None m))
  | WaitUnassign t m : pc t m = Inside → mutex_step m (goto t CondWait (unassignHolder m))
  | WaitSleep t m : pc t m = CondWait → mutex_step m (goto t Asleep (set_mutex None m))
  | WaitWake t m : pc t m = Asleep → mutex_ m = None →
      mutex_step m (goto t Relocked (set_mutex (Some t) m))
  | WaitAssign t m : pc t m = Relocked → mutex_step m (goto t Inside (assignHolder t m)).

(** The mutex is owned by the one thread that is past [pthread_mutex_lock]. *)
Definition has_mutex (p : lock_pc) : bool :=
  match p with Outside | Asleep => false | _ => true end.

Definition mutex_inv m : Prop :=
  (∀ t, has_mutex (pc t m) = true ↔ mutex_ m = Some t) ∧
  (∀ t, mutex_ m = Some t → 0 < t) ∧
  (∀ t, pc t m ≠ Outside → 0 < t) ∧
  holder_ m = match mutex_ m with Some t => if decide (pc t m = Inside) then t else 0 | None => 0 end.

Lemma pc_goto t p m u : pc u (goto t p m) = if decide (u = t) then p else pc u m.
Proof.
  unfold pc, goto. cbn. destruct (decide (u = t)) as [->|]; [by rewrite lookup_insert_eq|].
  by rewrite lookup_insert_ne.
Qed.

(** ** Condition

    [waitForSeconds]: the deadline is computed from CLOCK_REALTIME ([tv_sec],
    [tv_nsec]); [wait] is what [pthread_cond_timedwait] answers for it.  A
    [time_t] and a [long] are 64-bit integers. *)
Definition ETIMEDOUT : Z := 110.
Definition kNanoSecondsPerSecond : Z := 1000000000.

Definition deadline (tv_sec tv_nsec : Z) (seconds : double) : outcome (Z * Z) :=
  nanoseconds ← int64_of_double (dmul seconds (double_of_Z kNanoSecondsPerSecond));
  total ← i64 (tv_nsec + nanoseconds);
  sec ← i64 (tv_sec + Z.quot total kNanoSecondsPerSecond);
  Ok (sec, Z.rem total kNanoSecondsPerSecond).

Definition waitForSeconds (tv_sec tv_nsec : Z) (seconds : double) (wait : Z * Z → Z) : outcome bool :=
  abstime ← deadline tv_sec tv_nsec seconds;
  Ok (ETIMEDOUT =? wait abstime).

(** ** CountDownLatch

    [mutex_] makes each critical section one step.  A call of [wait] is at the
    lock (or woken up), asleep, or has returned. *)
Inductive waiter := WaitTest | WaitAsleep | WaitReturned.
#[export] Instance waiter_eq_dec : EqDecision waiter.
Proof. solve_decision. Defined.

Record CountDownLatch := mkLatch { count_ : Z; waiters : list waiter }.

Definition CountDownLatch_ctor (count : Z) : CountDownLatch := mkLatch count [].
Definition getCount l : Z := count_ l.
Definition set_waiters ws l : CountDownLatch := mkLatch (count_ l) ws.

(** The test of [wait]'s loop. *)
Definition wait l : waiter := if 0 <? count_ l then WaitAsleep else WaitReturned.
Definition wake (w : waiter) : waiter := match w with WaitAsleep => WaitTest | _ => w end.

(** [--count_] and [notifyAll]; the [int] must not overflow. *)
Definition countDown l : outcome CountDownLatch :=
  if decide (- 2 ^ 31 < count_ l) then
    let count := count_ l - 1 in
    Ok (mkLatch count (if count =? 0 then wake <$> waiters l else waiters l))
  else Fail UB.

Inductive latch_step : CountDownLatch → CountDownLatch → Prop :=
  | LatchCall l : latch_step l (set_waiters (waiters l ++ [WaitTest]) l)
  | LatchTest i l : waiters l !! i = Some WaitTest → latch_step l (set_waiters (<[i := wait l]> (waiters l)) l)
  | LatchWake i l : waiters l !! i = Some WaitAsleep →   (* for no reason *)
      latch_step l (set_waiters (<[i := WaitTest]> (waiters l)) l)
  | LatchDown l l' : countDown l = Ok l' → latch_step l l'.

(** ** The mutex's invariant *)
Lemma pc_same m m' t : pcs m' = pcs m → pc t m' = pc t m.
Proof. unfold pc. by intros ->. Qed.

Lemma holder_held t m : mutex_ m = Some t → holder_ m = (if decide (pc t m = Inside) then t else 0) →
  holder_ m = match mutex_ m with Some t => if decide (pc t m = Inside) then t else 0 | None => 0 end.
Proof. by intros ->. Qed.

(** A thread that has the mutex moves on within its calls. *)
Lemma mutex_inv_move t p h m : mutex_inv m → has_mutex (pc t m) = true → has_mutex p = true →
  h = (if decide (p = Inside) then t else 0) →
  mutex_inv (goto t p (mkMutex (mutex_ m) h (pcs m))).
Proof.
  intros (Ho & Hp & Hn & _) Ht Hhp ->. pose proof (proj1 (Ho t) Ht) as Hm.
  assert (Hpc : ∀ u, pc u (goto t p (mkMutex (mutex_ m) (if decide (p = Inside) then t else 0) (pcs m))) =
                     if decide (u = t) then p else pc u m) by (intros u; exact (pc_goto t p _ u)).
  unfold mutex_inv. split_and!.
  - intros u. rewrite Hpc. destruct (decide (u = t)) as [->|]; [cbn; by rewrite Hm|apply Ho].
  - done.
  - intros u. rewrite Hpc. destruct (decide (u = t)) as [->|]; [intros _; by apply Hp|apply Hn].
  - apply (holder_held t); [done|]. specialize (Hpc t). rewrite (decide_True (P := t = t)) in Hpc by done.
    by rewrite Hpc.
Qed.

Lemma mutex_inv_take t p m : mutex_inv m → 0 < t → mutex_ m = None → has_mutex p = true → p ≠ Inside →
  mutex_inv (goto t p (set_mutex (Some t) m)).
Proof.
  intros (Ho & Hp & Hn & Hh) Ht Hm Hhp Hni.
  assert (Hpc : ∀ u, pc u (goto t p (set_mutex (Some t) m)) = if decide (u = t) then p else pc u m)
    by (intros u; exact (pc_goto t p _ u)).
  unfold mutex_inv. split_and!.
  - intros u. rewrite Hpc. cbn. destruct (decide (u = t)) as [->|]; [done|].
    rewrite Ho, Hm. split; congruence.
  - intros u [= <-]. done.
  - intros u. rewrite Hpc. destruct (decide (u = t)) as [->|]; [done|apply Hn].
  - apply (holder_held t); [done|]. specialize (Hpc t). rewrite (decide_True (P := t = t)) in Hpc by done.
    rewrite Hpc, decide_False by done. cbn. by rewrite Hh, Hm.
Qed.

Lemma mutex_inv_drop t p m : mutex_inv m → has_mutex (pc t m) = true → pc t m ≠ Inside → has_mutex p = false →
  mutex_inv (goto t p (set_mutex None m)).
Proof.
  intros (Ho & Hp & Hn & Hh) Ht Hni Hhp. pose proof (proj1 (Ho t) Ht) as Hm.
  assert (Hpc : ∀ u, pc u (goto t p (set_mutex None m)) = if decide (u = t) then p else pc u m)
    by (intros u; exact (pc_goto t p _ u)).
  unfold mutex_inv. split_and!.
  - intros u. rewrite Hpc. cbn. destruct (decide (u = t)) as [->|]; [by rewrite Hhp|].
    rewrite Ho, Hm. split; congruence.
  - done.
  - intros u. rewrite Hpc. destruct (decide (u = t)) as [->|]; [intros _; by apply Hp|apply Hn].
  - cbn. rewrite Hh, Hm. by rewrite decide_False.
Qed.

Lemma mutex_step_inv m m' : mutex_inv m → mutex_step m m' → mutex_inv m'.
Proof.
  intros Hinv Hs. destruct Hs as [t m Ht Hpc Hm|t m Hpc|t m Hpc|t m Hpc|t m Hpc|t m Hpc|t m Hpc Hm|t m Hpc].
  - by apply mutex_inv_take.
  - apply mutex_inv_move; [done|by rewrite Hpc|done|by rewrite decide_True].
  - apply mutex_inv_move; [done|by rewrite Hpc|done|done].
  - apply mutex_inv_drop; [done|by rewrite Hpc|by rewrite Hpc|done].
  - apply mutex_inv_move; [done|by rewrite Hpc|done|done].
  - apply mutex_inv_drop; [done|by rewrite Hpc|by rewrite Hpc|done].
  - apply mutex_inv_take; try done. destruct Hinv as (_ & _ & Hn & _). apply Hn. by rewrite Hpc.
  - apply mutex_inv_move; [done|by rewrite Hpc|done|by rewrite decide_True].
Qed.

Lemma mutex_inv_ctor : mutex_inv MutexLock_ctor.
Proof. unfold mutex_inv, pc. cbn. split_and!; [|done|done|done]. intros t. by rewrite lookup_empty. Qed.

(** ** The latch's invariant *)
Definition latch_inv l : Prop :=
  (WaitReturned ∈ waiters l → count_ l ≤ 0) ∧ (count_ l ≤ 0 → WaitAsleep ∉ waiters l).

Lemma elem_of_written {A} (ws : list A) i x y : y ∈ <[i := x]> ws → y = x ∨ y ∈ ws.
Proof.
  intros (j & Hj)%list_elem_of_lookup. apply list_lookup_insert_Some in Hj as [(_ & -> & _)|[_ Hj]]; [by left|].
  right. by eapply list_elem_of_lookup_2.
Qed.

Lemma elem_of_woken w (ws : list waiter) : w ∈ wake <$> ws → w ≠ WaitAsleep ∧ (w = WaitReturned → WaitReturned ∈ ws).
Proof. intros (x & -> & Hx)%list_elem_of_fmap. by destruct x. Qed.

Lemma latch_step_inv l l' : latch_inv l → latch_step l l' → latch_inv l'.
Proof.
  intros [Hr Ha] Hs. destruct Hs as [l|i l Hi|i l Hi|l l' E]; unfold latch_inv; cbn.
  - rewrite !elem_of_app, !list_elem_of_singleton. split.
    + intros [?|?]; [auto|done].
    + intros Hc [?|?]; [by apply Ha|done].
  - unfold wait. split.
    + intros [Hw|?]%elem_of_written; [|auto]. destruct (Z.ltb_spec 0 (count_ l)); [done|lia].
    + intros Hc [Hw|?]%elem_of_written; [|by apply Ha]. by rewrite (proj2 (Z.ltb_ge _ _)) in Hw.
  - split.
    + intros [?|?]%elem_of_written; [done|auto].
    + intros Hc [?|?]%elem_of_written; [done|by apply Ha].
  - unfold countDown in E. destruct (decide _); [|done]. injection E as <-. cbn.
    destruct (Z.eqb_spec (count_ l - 1) 0) as [E0|E0]; split.
    + lia.
    + intros _ [? _]%elem_of_woken. done.
    + intros H. specialize (Hr H). lia.
    + intros Hc. apply Ha. lia.
Qed.

(** ** Properties *)

(** C33: [holder_] is exact, although it is written outside of pthread's own
    operations: in every interleaving of [lock], [unlock] and [Condition::wait],
    [isLockedByThisThread] answers a thread whether it is in its critical section;
    at most one is; and with none inside, the destructor's assertion holds. *)
Theorem holder_is_exact m : rtc mutex_step MutexLock_ctor m →
  (∀ t, 0 < t → isLockedByThisThread t m = bool_decide (pc t m = Inside)) ∧
  (∀ t u, pc t m = Inside → pc u m = Inside → t = u) ∧
  ((∀ t, pc t m ≠ Inside) → MutexLock_dtor m = Ok tt).
Proof.
  intros Hrtc. apply (rtc_invariant mutex_step mutex_inv mutex_step_inv) in Hrtc as (Ho & Hp & Hn & Hh);
    [|apply mutex_inv_ctor].
  assert (Hin : ∀ t, pc t m = Inside → mutex_ m = Some t) by (intros t Ht; apply Ho; by rewrite Ht).
  split_and!.
  - intros t Ht. unfold isLockedByThisThread. rewrite Hh. apply Bool.eq_iff_eq_true.
    rewrite Z.eqb_eq, bool_decide_eq_true. split.
    + destruct (mutex_ m) as [u|]; [|lia]. destruct (decide (pc u m = Inside)); [by intros <-|lia].
    + intros Hi. rewrite (Hin _ Hi), decide_True; done.
  - intros t u Ht Hu. apply Hin in Ht, Hu. congruence.
  - intros Hi. unfold MutexLock_dtor. rewrite Hh. destruct (mutex_ m) as [u|]; [|done]. by rewrite decide_False.
Qed.

(** C34: a latch holds every waiter back until it has been counted down to zero,
    and then none: in every interleaving, with wake-ups for no reason, a call of
    [wait] has returned only if the count reached zero, and from then on no waiter
    sleeps and each returns at its next step. *)
Theorem latch_opens n l : rtc latch_step (CountDownLatch_ctor n) l →
  (WaitReturned ∈ waiters l → getCount l ≤ 0) ∧
  (getCount l ≤ 0 → ∀ i w, waiters l !! i = Some w →
     w = WaitReturned ∨
     (w = WaitTest ∧ latch_step l (set_waiters (<[i := WaitReturned]> (waiters l)) l))).
Proof.
  intros Hrtc. apply (rtc_invariant latch_step latch_inv latch_step_inv) in Hrtc as [Hr Ha].
  2: { split; cbn; [by intros ?%not_elem_of_nil|by intros _ ?%not_elem_of_nil]. }
  split; [done|]. intros Hc i w Hi. destruct w.
  - right. split; [done|]. replace WaitReturned with (wait l); [by apply LatchTest|].
    unfold wait. by rewrite (proj2 (Z.ltb_ge _ _)).
  - exfalso. apply Ha; [done|]. by eapply list_elem_of_lookup_2.
  - by left.
Qed.

(** The deadline of [waitForSeconds] is a well-formed [timespec] and lies
    exactly the (truncated) number of nanoseconds after now, for every duration
    that is not negative. *)
Theorem waitForSeconds_deadline tv_sec tv_nsec seconds sec nsec :
  0 ≤ tv_nsec < 10 ^ 9 → positive seconds = true → deadline tv_sec tv_nsec seconds = Ok (sec, nsec) →
  0 ≤ nsec < 10 ^ 9 ∧
  ∃ ns, int64_of_double (dmul seconds (double_of_Z 1000000000)) = Ok ns ∧ 0 ≤ ns ∧
    sec * 10 ^ 9 + nsec = tv_sec * 10 ^ 9 + tv_nsec + ns.
Proof.
  intros Hn Hs E. unfold deadline in E. inv_ok. apply i64_inv in H0 as [-> _], H1 as [-> _].
  subst sec nsec. assert (0 ≤ x) as Hx.
  { eapply int64_of_double_nonneg; [|exact H]. by apply dmul_positive. }
  change (10 ^ 9) with kNanoSecondsPerSecond in *.
  rewrite Z.quot_div_nonneg, Z.rem_mod_nonneg by (unfold kNanoSecondsPerSecond in *; lia).
  split; [apply Z.mod_pos_bound; done|]. exists x. split_and!; [done|done|].
  pose proof (Z_div_mod_eq_full (tv_nsec + x) kNanoSecondsPerSecond). lia.
Qed.

(** A negative duration makes an ill-formed one, for which the system answers
    EINVAL, not ETIMEDOUT. *)
Example negative_duration : deadline 5 100 (double_of_Z (-1)) = Ok (5, -999999900).
Proof. vm_compute. reflexivity. Qed.

(** *** Witnesses *)
Definition demo_mutex : MutexLock := goto 7 Inside (assignHolder 7 (goto 7 Locked (set_mutex (Some 7) MutexLock_ctor))).

Lemma holder_is_exact_witness : isLockedByThisThread 7 demo_mutex = true ∧ isLockedByThisThread 8 demo_mutex = false.
Proof.
  assert (Hr : rtc mutex_step MutexLock_ctor demo_mutex).
  { eapply rtc_l; [by apply (LockMutex 7)|]. eapply rtc_l; [by apply (LockAssign 7)|]. apply rtc_refl. }
  destruct (holder_is_exact demo_mutex Hr) as [H _]. split; [exact (H 7 eq_refl)|exact (H 8 eq_refl)].
Defined.

Lemma latch_opens_witness :
  latch_step (mkLatch 0 [WaitTest]) (mkLatch 0 [WaitReturned]).
Proof.
  assert (Hr : rtc latch_step (CountDownLatch_ctor 1) (mkLatch 0 [WaitTest])).
  { eapply rtc_l; [apply LatchCall|]. eapply rtc_l; [by apply (LatchTest 0%nat)|].
    eapply rtc_l; [by apply LatchDown|]. apply rtc_refl. }
  destruct (latch_opens 1 _ Hr) as [_ H]. destruct (H ltac:(done) 0%nat WaitTest eq_refl) as [?|[_ Hs]]; [done|].
  exact Hs.
Defined.

Lemma waitForSeconds_deadline_witness : 0 ≤ 123 < 10 ^ 9.
Proof.
  apply (waitForSeconds_deadline 5 123 (double_of_Z 10) 15 123); [lia|by vm_compute|by vm_compute].
Defined.
