(* ===== verification/Thread.v ===== *)
(** [kaycc::Thread], [kaycc::detail::ThreadData] and [kaycc::currentthread]
    ([src/base/thread.h], [src/base/thread.cpp], [src/base/current_thread.h]).

    [Thread::start] hands a [ThreadData] to the new thread and waits on [latch_]
    (Sync.v) until that thread has stored its id.  The two interleave at their
    accesses to the shared object. *)
From Stdlib Require Import Strings.Ascii.
From stdpp Require Import list strings relations.
From S2P Require Import Prelude Timestamp Sync.

(** ** CurrentThread: the [__thread] variables of one thread

    [gettid]: the id the kernel gives it. *)
Record CurrentThread := mkCurrent {
  t_cachedTid : Z;
  t_tidString : string;
  t_tidStringLength : Z;
  t_threadName : string
}.

Definition CurrentThread_init : CurrentThread := mkCurrent 0 "" 0 "unknown".

(** [snprintf(buf, 32, "%5d", n)] *)
Fixpoint spaces (n : nat) : string := match n with O => "" | S n' => String " "%char (spaces n') end.
Definition fmt_5d (n : Z) : string :=
  let s := fmt_ld n in spaces (5 - String.length s) +:+ s.

Definition cacheTid (gettid : Z) c : CurrentThread :=
  if t_cachedTid c =? 0 then
    let s := fmt_5d gettid in
    mkCurrent gettid (String.substring 0 31 s) (Z.of_nat (String.length s)) (t_threadName c)
  else c.

Definition tid (gettid : Z) c : Z * CurrentThread :=
  let c := if t_cachedTid c =? 0 then cacheTid gettid c else c in (t_cachedTid c, c).

Definition set_name n c : CurrentThread := mkCurrent (t_cachedTid c) (t_tidString c) (t_tidStringLength c) n.

(** In the child of a fork, and when the library is loaded. *)
Definition afterFork (gettid : Z) c : CurrentThread :=
  (tid gettid (mkCurrent 0 (t_tidString c) (t_tidStringLength c) "main")).2.
Definition ThreadNameInitializer (gettid : Z) c : CurrentThread := (tid gettid (set_name "main" c)).2.

Definition isMainThread (gettid getpid : Z) c : bool * CurrentThread :=
  let '(t, c) := tid gettid c in (t =? getpid, c).

(** The [timespec] handed to nanosleep(2). *)
Definition sleepUsec (usec : Z) : Z * Z :=
  (Z.quot usec kMicroSecondsPerSecond, Z.rem usec kMicroSecondsPerSecond * 1000).

(** ** Thread

    Its creator: before [start], in [latch_.wait()], after [start], in
    [pthread_join], after [join]. *)
Inductive creator_pc := NotStarted | Waiting | Started | Joining | Joined.

(** The new thread, in [runInThread]: about to store its id, to count down, to
    take its name, to call [func_]; or returned. *)
Inductive child_pc := NoThread | StoreTid | CountDown | TakeName | CallFunc | Finished.

#[export] Instance child_pc_eq_dec : EqDecision child_pc.
Proof. solve_decision. Defined.

Record Thread := mkThread {
  started_ : bool;
  joined_ : bool;
  tid_ : Z;
  name_ : string;
  latch_ : CountDownLatch;
  creator : creator_pc;
  child : child_pc;
  current : CurrentThread;     (* the new thread's *)
  calls : nat                  (* of func_ *)
}.

(** [num]: the value of [numCreated_] after this thread was counted. *)
Definition setDefaultName (num : Z) (name : string) : string :=
  if bool_decide (name = "") then String.substring 0 31 ("Thread" +:+ fmt_ld num) else name.

Definition Thread_ctor (numCreated : Z) (n : string) : outcome (Thread * Z) :=
  '(num, numCreated) ← incrementAndGet 32 numCreated;
  Ok (mkThread false false 0 (setDefaultName num n) (CountDownLatch_ctor 1) NotStarted NoThread
        CurrentThread_init 0, numCreated).

(** [start] up to [latch_.wait()]; [created]: [pthread_create] succeeds. *)
Definition start (created : bool) t : outcome Thread :=
  assert! negb (started_ t);;
  Ok (if created then
        mkThread true (joined_ t) (tid_ t) (name_ t) (set_waiters (waiters (latch_ t) ++ [WaitTest]) (latch_ t))
          Waiting StoreTid (current t) (calls t)
      else
        mkThread false (joined_ t) (tid_ t) (name_ t) (latch_ t) (creator t) (child t) (current t) (calls t)).

(** The rest of [start]. *)
Definition start_returns t : outcome Thread :=
  assert! 0 <? tid_ t;;
  Ok (mkThread (started_ t) (joined_ t) (tid_ t) (name_ t) (latch_ t) Started (child t) (current t) (calls t)).

(** [join] up to [pthread_join]. *)
Definition join t : outcome Thread :=
  assert! started_ t;;
  assert! negb (joined_ t);;
  Ok (mkThread (started_ t) true (tid_ t) (name_ t) (latch_ t) Joining (child t) (current t) (calls t)).

(** [~Thread]: whether the thread is detached. *)
Definition Thread_dtor t : bool := started_ t && negb (joined_ t).

Definition set_latch l t := mkThread (started_ t) (joined_ t) (tid_ t) (name_ t) l (creator t) (child t)
  (current t) (calls t).
Definition set_creator p t := mkThread (started_ t) (joined_ t) (tid_ t) (name_ t) (latch_ t) p (child t)
  (current t) (calls t).

(** How [func_] ends. *)
Inductive func_result := Returns | StdException | OtherException.

(** [runInThread], one access at a time.  A [std::exception] is reported and
    aborts; any other leaves the thread, which terminates the process. *)
Definition runInThread (gettid : Z) (r : func_result) t : outcome Thread :=
  match child t with
  | StoreTid =>
    let '(id, c) := tid gettid (current t) in
    Ok (mkThread (started_ t) (joined_ t) id (name_ t) (latch_ t) (creator t) CountDown c (calls t))
  | CountDown =>
    l ← countDown (latch_ t);
    Ok (mkThread (started_ t) (joined_ t) (tid_ t) (name_ t) l (creator t) TakeName (current t) (calls t))
  | TakeName =>
    let n := if bool_decide (name_ t = "") then "kayccThread" else name_ t in
    Ok (mkThread (started_ t) (joined_ t) (tid_ t) (name_ t) (latch_ t) (creator t) CallFunc
          (set_name n (current t)) (calls t))
  | CallFunc =>
    match r with
    | Returns =>
      Ok (mkThread (started_ t) (joined_ t) (tid_ t) (name_ t) (latch_ t) (creator t) Finished
            (set_name "finished" (current t)) (S (calls t)))
    | StdException | OtherException => Fail Aborted
    end
  | NoThread | Finished => Ok t
  end.

Inductive thread_step (gettid : Z) : Thread → Thread → Prop :=
  | ThreadStart created t t' : creator t = NotStarted → start created t = Ok t' → thread_step gettid t t'
  | ThreadTest t : creator t = Waiting → waiters (latch_ t) !! 0%nat = Some WaitTest →
      thread_step gettid t (set_latch (set_waiters (<[0%nat := wait (latch_ t)]> (waiters (latch_ t))) (latch_ t)) t)
  | ThreadWake t : creator t = Waiting → waiters (latch_ t) !! 0%nat = Some WaitAsleep →   (* for no reason *)
      thread_step gettid t (set_latch (set_waiters (<[0%nat := WaitTest]> (waiters (latch_ t))) (latch_ t)) t)
  | ThreadStarted t t' : creator t = Waiting → waiters (latch_ t) !! 0%nat = Some WaitReturned →
      start_returns t = Ok t' → thread_step gettid t t'
  | ThreadJoin t t' : creator t = Started → join t = Ok t' → thread_step gettid t t'
  | ThreadJoined t : creator t = Joining → child t = Finished → thread_step gettid t (set_creator Joined t)
  | ThreadRun r t t' : child t ≠ NoThread → child t ≠ Finished → runInThread gettid r t = Ok t' →
      thread_step gettid t t'.

(** ** The invariant *)
Section Handshake.
Variable gettid : Z.

(** The creator once the latch is open. *)
Definition after_latch t : Prop :=
  match creator t with
  | NotStarted => False
  | Waiting => joined_ t = false ∧ (waiters (latch_ t) = [WaitTest] ∨ waiters (latch_ t) = [WaitReturned])
  | Started => joined_ t = false
  | Joining => joined_ t = true
  | Joined => joined_ t = true ∧ child t = Finished
  end.

Definition thread_inv t : Prop :=
  match child t with
  | NoThread => creator t = NotStarted ∧ started_ t = false ∧ joined_ t = false ∧
      latch_ t = CountDownLatch_ctor 1 ∧ t_cachedTid (current t) = 0 ∧ calls t = 0%nat
  | StoreTid | CountDown =>
      started_ t = true ∧ joined_ t = false ∧ calls t = 0%nat ∧ count_ (latch_ t) = 1 ∧
      creator t = Waiting ∧ (waiters (latch_ t) = [WaitTest] ∨ waiters (latch_ t) = [WaitAsleep]) ∧
      (if decide (child t = CountDown) then tid_ t = gettid else t_cachedTid (current t) = 0)
  | TakeName | CallFunc | Finished =>
      started_ t = true ∧ count_ (latch_ t) = 0 ∧ tid_ t = gettid ∧ after_latch t ∧
      calls t = if decide (child t = Finished) then 1%nat else 0%nat
  end.


Lemma thread_inv_ctor numCreated n t c : Thread_ctor numCreated n = Ok (t, c) → thread_inv t.
Proof. unfold Thread_ctor. intros E. inv_ok. destruct x as [num c']. injection E as <- <-. by split_and!. Qed.

Lemma run_inv r t t' : 0 < gettid → thread_inv t → child t ≠ NoThread → child t ≠ Finished →
  runInThread gettid r t = Ok t' → thread_inv t'.
Proof.
  intros Hg Hinv Hn Hf E. unfold thread_inv, runInThread in *. destruct (child t) eqn:Ec; try done.
  - destruct Hinv as (? & ? & ? & ? & ? & ? & Hc). rewrite decide_False in Hc by done.
    unfold tid, cacheTid in E. rewrite Hc in E. simpl in E. injection E as <-. cbn. by split_and!.
  - destruct Hinv as (? & Hj & Hcalls & Hl & Hcr & Hw & Ht). rewrite decide_True in Ht by done.
    unfold countDown in E. rewrite Hl, decide_True in E by done. injection E as <-. cbn.
    unfold after_latch. cbn. rewrite Hcr. destruct Hw as [-> | ->]; cbn; split_and!; auto.
  - destruct Hinv as (? & ? & ? & Ha & Hc). injection E as <-. cbn. split_and!; try done.
    unfold after_latch in *. cbn. destruct (creator t); try done. destruct Ha; congruence.
  - destruct Hinv as (? & ? & ? & Ha & Hc). rewrite decide_False in Hc by done.
    destruct r; [|done..]. injection E as <-. cbn. split_and!; try done.
    + unfold after_latch in *. cbn. destruct (creator t); try done. destruct Ha; congruence.
    + by rewrite Hc.
Qed.

(** The waiter of [start] is awake once the latch is open. *)
Lemma waiting_latch t : thread_inv t → creator t = Waiting →
  (count_ (latch_ t) = 1 ∧ (child t = StoreTid ∨ child t = CountDown) ∧
     (waiters (latch_ t) = [WaitTest] ∨ waiters (latch_ t) = [WaitAsleep])) ∨
  (count_ (latch_ t) = 0 ∧ tid_ t = gettid ∧
     (waiters (latch_ t) = [WaitTest] ∨ waiters (latch_ t) = [WaitReturned])).
Proof.
  unfold thread_inv, after_latch. intros Hinv Hc.
  destruct (child t); [destruct Hinv; congruence|left|left|right..]; try rewrite Hc in Hinv; tauto.
Qed.

(** Changing the waiter of [start] within what its place allows. *)
Lemma set_waiter_inv t w : thread_inv t → creator t = Waiting →
  w = (if count_ (latch_ t) =? 1 then WaitAsleep else WaitReturned) ∨ w = WaitTest →
  thread_inv (set_latch (set_waiters [w] (latch_ t)) t).
Proof.
  intros Hinv Hc Hw. destruct (waiting_latch t Hinv Hc) as [(Hl & _ & _)|(Hl & _ & _)]; rewrite Hl in Hw;
    unfold thread_inv, after_latch in *; cbn; destruct (child t); try (destruct Hinv; congruence);
    try (destruct Hinv as (? & ? & ? & ? & ?); lia); rewrite ?Hc in *.
  - destruct Hinv as (? & ? & ? & ? & ? & ? & ?). destruct Hw as [->| ->]; split_and!; auto.
  - destruct Hinv as (? & ? & ? & ? & ? & ? & ?). destruct Hw as [->| ->]; split_and!; auto.
  - destruct Hinv as (? & ? & ? & (? & _) & ?). destruct Hw as [->| ->]; split_and!; auto.
  - destruct Hinv as (? & ? & ? & (? & _) & ?). destruct Hw as [->| ->]; split_and!; auto.
  - destruct Hinv as (? & ? & ? & (? & _) & ?). destruct Hw as [->| ->]; split_and!; auto.
Qed.

Lemma thread_step_inv t t' : 0 < gettid → thread_inv t → thread_step gettid t t' → thread_inv t'.
Proof.
  intros Hg Hinv Hs. destruct Hs as [created t t' Hc E|t Hc Hw|t Hc Hw|t t' Hc Hw E|t t' Hc E|t Hc Hf|r t t' Hn Hf E].
  - unfold start in E. inv_ok. unfold thread_inv in Hinv. destruct (child t) eqn:Ec; rewrite ?Hc in Hinv;
      try (unfold after_latch in Hinv; rewrite Hc in Hinv; tauto);
      try (by destruct Hinv as (_ & _ & _ & _ & ? & _)).
    destruct Hinv as (_ & Hst & Hj & Hl & Hct & Hk). subst t'. unfold thread_inv.
    destruct created; cbn; [rewrite Hl|by rewrite ?Ec; split_and!].
    cbn. split_and!; try done. by left.
  - assert (Hl : ∃ x, waiters (latch_ t) = [x]).
    { destruct (waiting_latch t Hinv Hc) as [(_ & _ & [->| ->])|(_ & _ & [->| ->])]; by eexists. }
    destruct Hl as [x Hl]. rewrite Hl. cbn. apply set_waiter_inv; [done|done|]. left. unfold wait.
    destruct (waiting_latch t Hinv Hc) as [(-> & _)|(-> & _)]; done.
  - assert (Hl : ∃ x, waiters (latch_ t) = [x]).
    { destruct (waiting_latch t Hinv Hc) as [(_ & _ & [->| ->])|(_ & _ & [->| ->])]; by eexists. }
    destruct Hl as [x Hl]. rewrite Hl. cbn. apply set_waiter_inv; auto.
  - unfold start_returns in E. inv_ok. subst t'.
    destruct (waiting_latch t Hinv Hc) as [(_ & _ & [Hl|Hl])|(Hl & _ & _)]; [by rewrite Hl in Hw..|].
    unfold thread_inv, after_latch in *. cbn. destruct (child t); try (destruct Hinv as (? & ? & ? & ? & ?); lia || congruence).
    all: rewrite Hc in Hinv; destruct Hinv as (? & ? & ? & (? & _) & ?); by split_and!.
  - unfold join in E. inv_ok. subst t'. unfold thread_inv, after_latch in *. cbn.
    destruct (child t); rewrite Hc in Hinv; destruct_and? Hinv; (congruence || by split_and!).
  - unfold thread_inv, after_latch in *. cbn. rewrite Hf in *. rewrite Hc in Hinv.
    destruct Hinv as (? & ? & ? & ? & ?). by split_and!.
  - by eapply run_inv.
Qed.

(** C27: the handshake of [start], in every interleaving of the creator with the
    new thread.  [start] sleeps only while the thread has yet to count down, so it
    returns; when it does its assertion holds and [tid] is the new thread's id;
    the new thread itself trips over nothing; [func_] runs at most once, and has
    run when [join] returns; and starting twice or joining twice aborts. *)
Theorem thread_handshake numCreated n t0 c t :
  0 < gettid → Thread_ctor numCreated n = Ok (t0, c) → rtc (thread_step gettid) t0 t →
  (creator t = Waiting → waiters (latch_ t) !! 0%nat = Some WaitAsleep → child t = StoreTid ∨ child t = CountDown) ∧
  (creator t = Waiting → waiters (latch_ t) !! 0%nat = Some WaitReturned →
     ∃ t', start_returns t = Ok t' ∧ tid_ t' = gettid) ∧
  (creator t = Started ∨ creator t = Joining ∨ creator t = Joined → tid_ t = gettid) ∧
  (child t ≠ NoThread → ∃ t', runInThread gettid Returns t = Ok t') ∧
  (calls t ≤ 1)%nat ∧ (creator t = Joined → calls t = 1%nat) ∧
  (child t ≠ NoThread → ∀ created, start created t = Fail AssertFailure) ∧
  (creator t = Joining ∨ creator t = Joined → join t = Fail AssertFailure).
Proof.
  intros Hg H0 Hrtc. assert (Hinv : thread_inv t).
  { apply (rtc_invariant (thread_step gettid) thread_inv (λ t t', thread_step_inv t t' Hg) _ _ Hrtc).
    by eapply thread_inv_ctor. }
  split_and!.
  - intros Hc Hw. destruct (waiting_latch t Hinv Hc) as [(_ & ? & _)|(_ & _ & [Hl|Hl])]; [done|by rewrite Hl in Hw..].
  - intros Hc Hw. destruct (waiting_latch t Hinv Hc) as [(_ & _ & [Hl|Hl])|(_ & Ht & _)]; [by rewrite Hl in Hw..|].
    unfold start_returns. rewrite Ht, (proj2 (Z.ltb_lt 0 gettid)) by done. by eexists.
  - unfold thread_inv in Hinv. destruct (child t); destruct_and? Hinv; intros [?|[?|?]]; congruence.
  - unfold thread_inv, runInThread in *. destruct (child t); intros ?; try done; try by eexists.
    destruct Hinv as (_ & _ & _ & Hl & _). unfold countDown. rewrite Hl, decide_True by done. by eexists.
  - unfold thread_inv in Hinv. destruct (child t); destruct_and? Hinv; repeat case_decide; lia.
  - intros Hc. unfold thread_inv, after_latch in Hinv. rewrite Hc in Hinv.
      destruct (child t); destruct_and? Hinv; repeat case_decide; congruence.
  - intros Hn created. unfold start. unfold thread_inv in Hinv.
    destruct (child t); [done|..]; destruct Hinv as [-> _]; done.
  - intros Hc. unfold join. unfold thread_inv, after_latch in Hinv.
    assert (started_ t = true ∧ joined_ t = true) as [-> ->]; [|done].
    destruct (child t); destruct Hc as [Hc|Hc]; rewrite Hc in Hinv; destruct_and? Hinv; congruence || by split.
Qed.
End Handshake.

(** ** The thread's own variables *)
Definition names_thread (gettid : Z) c : Prop :=
  t_cachedTid c = gettid ∧ t_tidString c = fmt_5d gettid ∧
  t_tidStringLength c = Z.of_nat (String.length (fmt_5d gettid)).

Lemma length_spaces n : String.length (spaces n) = n.
Proof. induction n; simpl; auto. Qed.

Lemma fmt_5d_short n : 0 < n < 2 ^ 31 → (5 ≤ String.length (fmt_5d n) ≤ 10)%nat.
Proof.
  intros Hn. unfold fmt_5d, fmt_ld. rewrite (proj2 (Z.ltb_ge n 0)) by lia.
  rewrite length_append, length_spaces.
  assert (String.length (digits n) ≤ 10)%nat; [|lia].
  apply length_digits; [|lia]. change (10 ^ Z.of_nat 10) with 10000000000. lia.
Qed.

Lemma cacheTid_ok gettid c : 0 < gettid < 2 ^ 31 → t_cachedTid c = 0 →
  names_thread gettid (cacheTid gettid c) ∧ t_threadName (cacheTid gettid c) = t_threadName c.
Proof.
  intros Hg Hc. unfold cacheTid. rewrite Hc. simpl. split; [|done]. split_and!; [done| |done].
  apply substring_all. pose proof (fmt_5d_short gettid Hg). lia.
Qed.

Lemma tid_cached gettid c : 0 < gettid → names_thread gettid c → tid gettid c = (gettid, c).
Proof. intros Hg [E _]. unfold tid. rewrite E, (proj2 (Z.eqb_neq gettid 0)) by lia. by rewrite E. Qed.

(** A thread's cached id is the kernel's, and its text is complete: the first
    [tid] stores both, later ones change nothing, the child of a fork stores its
    own anew, and [isMainThread] compares with the process id. *)
Theorem tid_names_thread gettid c getpid : 0 < gettid < 2 ^ 31 →
  t_cachedTid c = 0 ∨ names_thread gettid c →
  (tid gettid c).1 = gettid ∧ names_thread gettid (tid gettid c).2 ∧
  tid gettid (tid gettid c).2 = tid gettid c ∧
  (∀ child c', 0 < child < 2 ^ 31 → names_thread child (afterFork child c')) ∧
  (isMainThread gettid getpid c).1 = bool_decide (gettid = getpid).
Proof.
  intros Hg Hc. assert (H : tid gettid c = (gettid, (tid gettid c).2) ∧ names_thread gettid (tid gettid c).2).
  { destruct Hc as [Hc|Hc].
    - unfold tid. rewrite Hc. simpl. destruct (cacheTid_ok gettid c Hg Hc) as [Hn _]. split; [|done]. by destruct Hn as [-> _].
    - by rewrite tid_cached by (done || lia). }
  destruct H as [E Hn]. split_and!.
  - by rewrite E.
  - done.
  - rewrite tid_cached by (done || lia). by rewrite E at 2.
  - intros child c' Hchild. unfold afterFork, tid. cbn [t_cachedTid Z.eqb snd]. by apply cacheTid_ok.
  - unfold isMainThread. rewrite E. cbn. apply Bool.eq_iff_eq_true. by rewrite Z.eqb_eq, bool_decide_eq_true.
Qed.

(** What [sleepUsec] asks for is what it was given. *)
Lemma sleepUsec_ok usec : 0 ≤ usec →
  let '(sec, nsec) := sleepUsec usec in 0 ≤ nsec < 10 ^ 9 ∧ sec * 10 ^ 9 + nsec = usec * 1000.
Proof.
  intros Hu. unfold sleepUsec, kMicroSecondsPerSecond. rewrite Z.quot_div_nonneg, Z.rem_mod_nonneg by lia.
  pose proof (Z.mod_pos_bound usec 1000000 ltac:(lia)). pose proof (Z_div_mod_eq_full usec 1000000). lia.
Qed.

(** *** A thread is started, runs, and is joined *)
Definition demo_thread : Thread :=
  mkThread false false 0 "Thread5" (CountDownLatch_ctor 1) NotStarted NoThread CurrentThread_init 0.
Definition demo_run (t : Thread) : Thread := from_ok t (runInThread 77 Returns t).
Definition demo_started : Thread := from_ok demo_thread (start true demo_thread).
Definition demo_ran : Thread := demo_run (demo_run (demo_run (demo_run demo_started))).
Definition demo_awake : Thread :=
  set_latch (set_waiters [WaitReturned] (latch_ demo_ran)) demo_ran.
Definition demo_joined : Thread :=
  set_creator Joined (from_ok demo_awake (t ← start_returns demo_awake; join t)).

Lemma demo_thread_steps : rtc (thread_step 77) demo_thread demo_joined.
Proof.
  eapply rtc_l; [by apply (ThreadStart 77 true demo_thread demo_started)|].
  eapply rtc_l; [by apply (ThreadRun 77 Returns demo_started (demo_run demo_started))|].
  eapply rtc_l; [by apply (ThreadRun 77 Returns _ (demo_run (demo_run demo_started)))|].
  eapply rtc_l; [by apply (ThreadRun 77 Returns _ (demo_run (demo_run (demo_run demo_started))))|].
  eapply rtc_l; [by apply (ThreadRun 77 Returns _ demo_ran)|].
  eapply rtc_l; [by apply (ThreadTest 77 demo_ran)|].
  eapply rtc_l; [by apply (ThreadStarted 77 demo_awake (from_ok demo_awake (start_returns demo_awake)))|].
  eapply rtc_l; [by eapply (ThreadJoin 77)|].
  eapply rtc_l; [by apply ThreadJoined|]. apply rtc_refl.
Qed.

Lemma thread_handshake_witness : calls demo_joined = 1%nat ∧ join demo_joined = Fail AssertFailure.
Proof.
  destruct (thread_handshake 77 4 "" demo_thread 5 demo_joined) as (_ & _ & _ & _ & _ & Hc & _ & Hj);
    [done|reflexivity|apply demo_thread_steps|].
  split; [by apply Hc|apply Hj; by right].
Defined.

Lemma tid_names_thread_witness : t_tidString (tid 77 CurrentThread_init).2 = "   77".
Proof.
  destruct (tid_names_thread 77 CurrentThread_init 77) as (_ & (_ & E & _) & _); [done|by left|exact E].
Defined.
