(* ===== verification/ThreadPool.v ===== *)
(** [kaycc::ThreadPool] ([src/base/threadpool.h], [src/base/threadpool.cpp]):
    worker threads and any number of calls of [run] from other threads.

    [mutex_] makes each critical section one step; a thread in
    [pthread_cond_wait] goes back to the test of its loop when it is notified, and
    also for no reason at any time: [pthread_cond_wait] may return spuriously, and
    [pthread_cond_signal] may wake more than one.  A task is a value of [T]; the
    only thing it does that is modelled is to call [run] on the pool, which keeps
    its worker until the call returns. *)
From stdpp Require Import list.
From S2P Require Import Prelude.

Section ThreadPool.
Context {T : Type}.

(** A worker: at [while (running_)], at the lock of [takeTask], waiting on
    [notEmpty_], with a task, with a task that is inside call [k] of [run], or
    returned from [runInThread]. *)
Inductive worker := WTest | WTake | WWait | WRun (task : T) | WCall (task : T) (k : nat) | WExited.

(** A call of [run]: at the lock (or woken up), waiting on [notFull_], or
    returned. *)
Inductive caller := CTry (task : T) | CWait (task : T) | CDone.

Record ThreadPool := mkPool {
  maxQueueSize_ : Z;
  running_ : bool;
  queue_ : list T;
  threads_ : list worker;
  callers : list caller;
  stopping : bool;         (* somebody is in the joins of stop() *)
  pushed : list T;         (* logs: the tasks handed over, taken and executed *)
  taken : list T;
  executed : list T
}.

Definition ThreadPool_ctor : ThreadPool := mkPool 0 false [] [] [] false [] [] [].

(** The argument is an [int], the member a [size_t]. *)
Definition setMaxQueueSize (maxSize : Z) (p : ThreadPool) : ThreadPool :=
  mkPool (u64 maxSize) (running_ p) (queue_ p) (threads_ p) (callers p) (stopping p) (pushed p)
    (taken p) (executed p).

Definition set_threads ws p : ThreadPool :=
  mkPool (maxQueueSize_ p) (running_ p) (queue_ p) ws (callers p) (stopping p) (pushed p) (taken p)
    (executed p).
Definition set_callers cs p : ThreadPool :=
  mkPool (maxQueueSize_ p) (running_ p) (queue_ p) (threads_ p) cs (stopping p) (pushed p) (taken p)
    (executed p).
Definition set_worker (i : nat) (w : worker) p : ThreadPool := set_threads (<[i := w]> (threads_ p)) p.
Definition set_caller (i : nat) (c : caller) p : ThreadPool := set_callers (<[i := c]> (callers p)) p.

Definition start (numThreads : nat) p : outcome ThreadPool :=
  assert! bool_decide (length (threads_ p) = 0%nat);;
  Ok (mkPool (maxQueueSize_ p) true (queue_ p) (replicate numThreads WTest) (callers p) (stopping p)
        (pushed p) (taken p) (executed p)).

(** [notEmpty_.notifyAll()] *)
Definition wake_worker (w : worker) : worker := match w with WWait => WTake | _ => w end.

(** [stop] up to the joins. *)
Definition stop p : ThreadPool :=
  mkPool (maxQueueSize_ p) false (queue_ p) (wake_worker <$> threads_ p) (callers p) true (pushed p)
    (taken p) (executed p).

Definition queueSize p : Z := sz (queue_ p).
Definition isFull p : bool := (0 <? maxQueueSize_ p) && (maxQueueSize_ p <=? sz (queue_ p)).

(** [pthread_cond_signal] wakes one of the waiters, if there is one. *)
Definition notify_worker (ws ws' : list worker) : Prop :=
  (∃ i, ws !! i = Some WWait ∧ ws' = <[i := WTake]> ws) ∨ ((WWait ∉ ws) ∧ ws' = ws).
Definition notify_caller (cs cs' : list caller) : Prop :=
  (∃ i t, cs !! i = Some (CWait t) ∧ cs' = <[i := CTry t]> cs) ∨ ((∀ t, CWait t ∉ cs) ∧ cs' = cs).

(** One pass of [run]'s critical section, up to [notify]: the caller's next
    place and the pool.  Without threads the task runs in the caller. *)
Definition run (task : T) p : caller * ThreadPool :=
  if bool_decide (length (threads_ p) = 0%nat) then
    (CDone, mkPool (maxQueueSize_ p) (running_ p) (queue_ p) (threads_ p) (callers p) (stopping p)
              (pushed p ++ [task]) (taken p ++ [task]) (executed p ++ [task]))
  else if isFull p then (CWait task, p)
  else (CDone, mkPool (maxQueueSize_ p) (running_ p) (queue_ p ++ [task]) (threads_ p) (callers p)
                 (stopping p) (pushed p ++ [task]) (taken p) (executed p)).

(** One pass of [takeTask]'s critical section, up to [notify]: the worker's next
    place ([WTest] when the task is empty) and the pool. *)
Definition takeTask p : worker * ThreadPool :=
  match queue_ p with
  | [] => if running_ p then (WWait, p) else (WTest, p)
  | task :: q =>
    (WRun task, mkPool (maxQueueSize_ p) (running_ p) q (threads_ p) (callers p) (stopping p)
                  (pushed p) (taken p ++ [task]) (executed p))
  end.

(** The loop of [runInThread] outside [takeTask]. *)
Definition runInThread (w : worker) p : worker * ThreadPool :=
  match w with
  | WTest => (if running_ p then WTake else WExited, p)
  | WRun task =>
    (WTest, mkPool (maxQueueSize_ p) (running_ p) (queue_ p) (threads_ p) (callers p) (stopping p)
              (pushed p) (taken p) (executed p ++ [task]))
  | _ => (w, p)
  end.

(** What callers and workers do. *)
Inductive acts : ThreadPool → ThreadPool → Prop :=
  | StepRun i task c p p' ws :
      callers p !! i = Some (CTry task) → run task p = (c, p') →
      (if decide (length (queue_ p') = length (queue_ p)) then ws = threads_ p else notify_worker (threads_ p) ws) →
      acts p (set_threads ws (set_caller i c p'))
  | StepTake i w p p' cs :
      threads_ p !! i = Some WTake → takeTask p = (w, p') →
      (if decide (queue_ p ≠ [] ∧ 0 < maxQueueSize_ p) then notify_caller (callers p) cs
       else cs = callers p) →
      acts p (set_callers cs (set_worker i w p'))
  | StepWork i w w' p p' :
      threads_ p !! i = Some w → w = WTest ∨ (∃ task, w = WRun task) →
      runInThread w p = (w', p') → acts p (set_worker i w' p')
  (* the task's call of [run] returns *)
  | StepBack i task k p :
      threads_ p !! i = Some (WCall task k) → callers p !! k = Some CDone →
      acts p (set_worker i (WRun task) p).

(** Spurious wake-ups. *)
Inductive wakes : ThreadPool → ThreadPool → Prop :=
  | StepWake i p : threads_ p !! i = Some WWait → wakes p (set_worker i WTake p)
  | StepRetry i task p : callers p !! i = Some (CWait task) → wakes p (set_caller i (CTry task) p).

Inductive pool_step : ThreadPool → ThreadPool → Prop :=
  | StepActs p p' : acts p p' → pool_step p p'
  | StepWakes p p' : wakes p p' → pool_step p p'
  | StepStart n p p' : stopping p = false → start n p = Ok p' → pool_step p p'
  | StepCall task p : pool_step p (set_callers (callers p ++ [CTry task]) p)
  (* a task calls [run] *)
  | StepNest i task t p :
      threads_ p !! i = Some (WRun task) →
      pool_step p (set_callers (callers p ++ [CTry t]) (set_worker i (WCall task (length (callers p))) p))
  | StepStop p : pool_step p (stop p).

(** A pool whose queue size was set before [start]. *)
Definition pool_init (maxSize : Z) : ThreadPool := setMaxQueueSize maxSize ThreadPool_ctor.

(** ** Invariants *)
Definition in_hand (w : worker) : list T :=
  match w with WRun task | WCall task _ => [task] | _ => [] end.
Definition running_tasks (ws : list worker) : list T := ws ≫= in_hand.

Lemma running_insert i w w' ws : ws !! i = Some w →
  in_hand w ++ running_tasks (<[i := w']> ws) ≡ₚ in_hand w' ++ running_tasks ws.
Proof.
  revert i. induction ws as [|x ws IH]; intros [|i] Hi; simplify_eq/=; unfold running_tasks; simpl.
  - apply Permutation_app_swap_app.
  - rewrite (Permutation_app_swap_app (in_hand w)), (Permutation_app_swap_app (in_hand w')). apply Permutation_app_head. by apply IH.
Qed.

Lemma running_woken i ws : ws !! i = Some WWait → running_tasks (<[i := WTake]> ws) ≡ₚ running_tasks ws.
Proof. intros Hi. apply (running_insert i WWait WTake ws Hi). Qed.

Lemma running_wake_all ws : running_tasks (wake_worker <$> ws) = running_tasks ws.
Proof.
  induction ws as [|w ws IH]; [done|]. unfold running_tasks in *.
  rewrite fmap_cons, !bind_cons, IH. by destruct w.
Qed.

Lemma running_start n : running_tasks (replicate n WTest) = [].
Proof. by induction n. Qed.

Lemma running_notify ws ws' : notify_worker ws ws' → running_tasks ws' ≡ₚ running_tasks ws.
Proof. intros [(i & Hi & ->)|[_ ->]]; [by apply running_woken|done]. Qed.

Definition trying (c : caller) : nat := match c with CTry _ => 1 | _ => 0 end.
Fixpoint tries (cs : list caller) : nat :=
  match cs with [] => 0 | c :: cs' => trying c + tries cs' end.

Lemma tries_insert i c c' cs : cs !! i = Some c →
  (tries (<[i := c']> cs) + trying c = tries cs + trying c')%nat.
Proof.
  revert i. induction cs as [|x cs IH]; intros [|i] Hi; simplify_eq/=; [lia|].
  specialize (IH _ Hi). lia.
Qed.

Lemma tries_app cs cs' : tries (cs ++ cs') = (tries cs + tries cs')%nat.
Proof. induction cs as [|c cs IH]; simpl; lia. Qed.

Lemma tries_positive cs : (0 < tries cs)%nat → ∃ task, CTry task ∈ cs.
Proof.
  induction cs as [|[task|task|] cs IH]; simpl; intros H; [lia|..].
  - exists task. apply elem_of_cons. by left.
  - destruct (IH H) as [t ?]. exists t. apply elem_of_cons. by right.
  - destruct (IH H) as [t ?]. exists t. apply elem_of_cons. by right.
Qed.

Definition active (w : worker) : bool := match w with WWait | WExited => false | _ => true end.

Record pool_inv (p : ThreadPool) : Prop := {
  inv_fifo : pushed p = taken p ++ queue_ p;
  inv_once : taken p ≡ₚ executed p ++ running_tasks (threads_ p);
  inv_none : threads_ p = [] → queue_ p = [] ∧ ∀ task, CWait task ∉ callers p;
  inv_bound : 0 < maxQueueSize_ p → sz (queue_ p) ≤ maxQueueSize_ p;
  inv_exited : running_ p = true → WExited ∉ threads_ p;
  inv_awake : running_ p = true → queue_ p ≠ [] → ∃ w, w ∈ threads_ p ∧ active w;
  inv_callers : ∀ task, CWait task ∈ callers p →
    0 < maxQueueSize_ p ∧ maxQueueSize_ p ≤ sz (queue_ p) + Z.of_nat (tries (callers p));
  inv_nested : ∀ task k, WCall task k ∈ threads_ p → (k < length (callers p))%nat
}.

Lemma elem_of_changed {A} (l : list A) i x y : y ∈ <[i := x]> l → y = x ∨ y ∈ l.
Proof.
  intros (j & Hj)%list_elem_of_lookup. apply list_lookup_insert_Some in Hj as [(_ & -> & _)|[_ Hj]]; [by left|].
  right. by eapply list_elem_of_lookup_2.
Qed.

Lemma elem_of_here {A} (l : list A) i x y : l !! i = Some y → x ∈ <[i := x]> l.
Proof. intros Hi. by eapply list_elem_of_insert, lookup_lt_Some. Qed.

Lemma changed_nil {A} (l : list A) i x y : l !! i = Some y → <[i := x]> l = [] → l = [].
Proof. by destruct l, i. Qed.

Lemma notify_worker_elem ws ws' w : notify_worker ws ws' → w ∈ ws' → w = WTake ∨ w ∈ ws.
Proof. intros [(i & _ & ->)|[_ ->]] Hw; [by apply elem_of_changed in Hw|by right]. Qed.

Lemma notify_worker_active ws ws' : notify_worker ws ws' → ws ≠ [] → WExited ∉ ws →
  ∃ w, w ∈ ws' ∧ active w.
Proof.
  intros [(i & Hi & ->)|[Hn ->]] Hne He.
  - exists WTake. split; [by eapply elem_of_here|done].
  - destruct ws as [|w ws]; [done|]. exists w. split; [apply elem_of_cons; by left|].
    destruct w; try done; exfalso; [apply Hn|apply He]; apply elem_of_cons; by left.
Qed.

Lemma notify_worker_nil ws ws' : notify_worker ws ws' → ws' = [] → ws = [].
Proof. intros [(i & Hi & ->)|[_ ->]] E; [by eapply changed_nil|done]. Qed.

Lemma pool_inv_init m : pool_inv (pool_init m).
Proof.
  constructor; cbn; try done.
  - intros _. split; [done|]. by intros ? ?%not_elem_of_nil.
  - intros _. change (sz []) with 0. pose proof (uwrap_range 64 m ltac:(lia)). lia.
  - by intros ? ?%not_elem_of_nil.
  - by intros ? ? ?%not_elem_of_nil.
Qed.

(** One worker or caller changes, the rest of the pool does not. *)
Lemma notify_caller_length cs cs' : notify_caller cs cs' → length cs' = length cs.
Proof. intros [(? & ? & _ & ->)|[_ ->]]; [apply length_insert|done]. Qed.

Lemma nested_worker (ws ws' : list worker) n : (∀ task k, WCall task k ∈ ws → (k < n)%nat) →
  (∀ w, w ∈ ws' → in_hand w = [] ∨ (∃ task, w = WRun task) ∨ w ∈ ws) →
  ∀ task k, WCall task k ∈ ws' → (k < n)%nat.
Proof. intros H Hw task k Hin. destruct (Hw _ Hin) as [[=]|[[? [=]]|?]]. by eapply H. Qed.

Implicit Types p : ThreadPool.

Lemma inv_start n p p' : pool_inv p → start n p = Ok p' → pool_inv p'.
Proof.
  intros [H1 H2 H3 H4 H5 H6 H7 H8]. unfold start. case_bool_decide as Hn; [|done]. intros [= <-].
  apply length_zero_iff_nil in Hn. destruct (H3 Hn) as [Hq Hc].
  constructor; cbn; try done.
  - rewrite running_start. by rewrite Hn in H2.
  - by intros _ ?%elem_of_replicate_inv.
  - by intros task k ?%elem_of_replicate_inv.
Qed.

Lemma inv_call task p : pool_inv p → pool_inv (set_callers (callers p ++ [CTry task]) p).
Proof.
  intros [H1 H2 H3 H4 H5 H6 H7 H8].
  assert (∀ t, CWait t ∈ callers p ++ [CTry task] → CWait t ∈ callers p) as Hc.
  { intros t [?|[[=]|[]%not_elem_of_nil]%elem_of_cons]%elem_of_app. done. }
  constructor; cbn; try done.
  - intros Hn. destruct (H3 Hn) as [? Hw]. split; [done|]. intros t Ht. by apply (Hw t), Hc.
  - intros t Ht. apply Hc, H7 in Ht. rewrite tries_app. lia.
  - intros t k Hk. rewrite length_app. specialize (H8 t k Hk). lia.
Qed.

Lemma isFull_spec p : isFull p = true ↔ 0 < maxQueueSize_ p ∧ maxQueueSize_ p ≤ sz (queue_ p).
Proof. unfold isFull. by rewrite andb_true_iff, Z.ltb_lt, Z.leb_le. Qed.

(** A caller at the lock that waits or returns. *)
Lemma caller_moved i task c p : callers p !! i = Some (CTry task) → trying c = 0%nat →
  tries (callers p) = S (tries (<[i := c]> (callers p))).
Proof. intros Hi Hc. pose proof (tries_insert i _ c _ Hi) as H. rewrite Hc in H. cbn [trying] in H. lia. Qed.

Lemma inv_run i task c p p' ws :
  pool_inv p → callers p !! i = Some (CTry task) → run task p = (c, p') →
  (if decide (length (queue_ p') = length (queue_ p)) then ws = threads_ p
   else notify_worker (threads_ p) ws) →
  pool_inv (set_threads ws (set_caller i c p')).
Proof.
  intros [H1 H2 H3 H4 H5 H6 H7 H8] Hi. unfold run. case_bool_decide as Hn; [|destruct (isFull p) eqn:Hf].
  - apply length_zero_iff_nil in Hn. destruct (H3 Hn) as [Hq Hw]. intros [= <- <-]. cbn.
    rewrite decide_True by done. intros ->. constructor; cbn; try done.
    + by rewrite H1, Hq, !app_nil_r.
    + rewrite Hn in *. unfold running_tasks in *. simpl in *. rewrite app_nil_r in *. by rewrite H2.
    + intros _. split; [done|]. intros t [[=]|Ht]%elem_of_changed. by apply (Hw t).
    + intros t [[=]|Ht]%elem_of_changed. by destruct (Hw t).
    + intros t k. rewrite Hn. by intros ?%not_elem_of_nil.
  - intros [= <- <-]. cbn. rewrite decide_True by done. intros ->.
    apply isFull_spec in Hf as [Hf1 Hf2]. constructor; cbn; try done.
    + intros E. by rewrite E in Hn.
    + intros t _. lia.
    + intros t k Hk. rewrite length_insert. by eapply H8.
  - intros [= <- <-]. cbn. rewrite decide_False by (rewrite length_app; simpl; lia). intros Hws.
    assert (threads_ p ≠ []) as Hne by (intros E; by rewrite E in Hn).
    assert (0 < maxQueueSize_ p → sz (queue_ p) < maxQueueSize_ p) as Hlt.
    { intros Hm. destruct (Z.lt_ge_cases (sz (queue_ p)) (maxQueueSize_ p)); [done|].
      assert (isFull p = true) by (by apply isFull_spec). congruence. }
    assert (sz (queue_ p ++ [task]) = sz (queue_ p) + 1) as Hsz by (rewrite sz_app; done).
    constructor; cbn.
    + by rewrite H1, app_assoc.
    + by rewrite (running_notify _ _ Hws).
    + intros E. by apply (notify_worker_nil _ _ Hws) in E.
    + intros Hm. rewrite Hsz. specialize (Hlt Hm). lia.
    + intros Hr Hin. apply (notify_worker_elem _ _ _ Hws) in Hin as [[=]|Hin]. by apply (H5 Hr).
    + intros Hr _. apply (notify_worker_active _ _ Hws); auto.
    + intros t [[=]|Ht]%elem_of_changed. destruct (H7 t Ht) as [Hm Hle].
      rewrite Hsz. rewrite (caller_moved i task CDone p Hi eq_refl) in Hle. lia.
    + rewrite length_insert. eapply nested_worker; [done|]. intros w Hw.
      apply (notify_worker_elem _ _ _ Hws) in Hw as [->|?]; [by left|by right; right].
Qed.

Lemma notify_caller_waits cs cs' t : notify_caller cs cs' → CWait t ∈ cs' →
  CWait t ∈ cs ∧ tries cs' = S (tries cs).
Proof.
  intros [(i & u & Hi & ->)|[Hn ->]] Ht; [|by apply Hn in Ht].
  apply elem_of_changed in Ht as [[=]|Ht]. split; [done|].
  pose proof (tries_insert i _ (CTry u) _ Hi) as H. cbn [trying] in H. lia.
Qed.

Lemma inv_take i w p p' cs :
  pool_inv p → threads_ p !! i = Some WTake → takeTask p = (w, p') →
  (if decide (queue_ p ≠ [] ∧ 0 < maxQueueSize_ p) then notify_caller (callers p) cs
   else cs = callers p) →
  pool_inv (set_callers cs (set_worker i w p')).
Proof.
  intros [H1 H2 H3 H4 H5 H6 H7 H8] Hi. unfold takeTask.
  assert (∀ w', running_tasks (<[i:=w']> (threads_ p)) ≡ₚ in_hand w' ++ running_tasks (threads_ p)) as Hr.
  { intros w'. apply (running_insert i WTake w' _ Hi). }
  assert (∀ w', <[i:=w']> (threads_ p) ≠ []) as Hne.
  { intros w' E. apply (changed_nil _ _ _ _ Hi) in E. by rewrite E in Hi. }
  destruct (queue_ p) as [|task q] eqn:Hq.
  - assert (∀ w', w' ≠ WExited → in_hand w' = [] → cs = callers p →
      pool_inv (set_callers cs (set_worker i w' p))) as Hgo.
    { intros w' Hw Hh ->. constructor; cbn; rewrite ?Hq; try done.
      - by rewrite Hr, Hh.
      - intros E. by apply Hne in E.
      - intros Hrun [E|Hin]%elem_of_changed; [congruence|]. by apply (H5 Hrun).
      - eapply nested_worker; [done|]. intros v [->|?]%elem_of_changed; [by left|by right; right]. }
    rewrite decide_False by tauto. destruct (running_ p); intros [= <- <-]; by apply Hgo.
  - intros [= <- <-] Hcs. rewrite sz_cons in *.
    assert (∀ t, CWait t ∈ cs → 0 < maxQueueSize_ p ∧
      maxQueueSize_ p ≤ sz q + Z.of_nat (tries cs)) as Hw.
    { intros t Ht. case_decide as Hd.
      - destruct (notify_caller_waits _ _ _ Hcs Ht) as [Ht' ->]. destruct (H7 t Ht'). lia.
      - subst cs. destruct (H7 t Ht). by destruct Hd. }
    constructor; cbn; try done.
    + by rewrite H1, <-app_assoc.
    + rewrite Hr, H2. cbn [in_hand]. by rewrite <-app_assoc, (Permutation_app_comm _ [task]).
    + intros E. by apply Hne in E.
    + intros Hm. specialize (H4 Hm). lia.
    + intros Hrun [[=]|Hin]%elem_of_changed. by apply (H5 Hrun).
    + intros _ _. exists (WRun task). split; [by eapply elem_of_here|done].
    + assert (length cs = length (callers p)) as ->.
      { case_decide; [by apply notify_caller_length|by subst]. }
      eapply nested_worker; [done|]. intros v [->|?]%elem_of_changed; [right; left; eauto|by right; right].
Qed.

Lemma inv_work i w w' p p' :
  pool_inv p → threads_ p !! i = Some w → w = WTest ∨ (∃ task, w = WRun task) →
  runInThread w p = (w', p') → pool_inv (set_worker i w' p').
Proof.
  intros [H1 H2 H3 H4 H5 H6 H7 H8] Hi Hw E.
  assert (∀ w', <[i:=w']> (threads_ p) ≠ []) as Hne.
  { intros v E'. apply (changed_nil _ _ _ _ Hi) in E'. by rewrite E' in Hi. }
  pose proof (running_insert i w w' _ Hi) as Hr.
  destruct Hw as [->|[task ->]]; injection E as <- <-; cbn [in_hand app] in Hr.
  - constructor; cbn; try done.
    + rewrite Hr. destruct (running_ p); done.
    + intros E. by apply Hne in E.
    + intros Hrun [E|Hin]%elem_of_changed; [by rewrite Hrun in E|]. by apply (H5 Hrun).
    + intros Hrun _. rewrite Hrun. exists WTake. split; [by eapply elem_of_here|done].
    + eapply nested_worker; [done|]. intros v [->|?]%elem_of_changed; [|by right; right].
      left. by destruct (running_ p).
  - constructor; cbn; try done.
    + by rewrite H2, <-Hr, <-app_assoc.
    + intros E. by apply Hne in E.
    + intros Hrun [[=]|Hin]%elem_of_changed. by apply (H5 Hrun).
    + intros _ _. exists WTest. split; [by eapply elem_of_here|done].
    + eapply nested_worker; [done|]. intros v [->|?]%elem_of_changed; [by left|by right; right].
Qed.

(** A worker that changes and takes nothing. *)
Lemma inv_worker i w w' p : pool_inv p → threads_ p !! i = Some w → in_hand w' = in_hand w →
  active w' = true → (∀ task k, w' = WCall task k → (k < length (callers p))%nat) →
  pool_inv (set_worker i w' p).
Proof.
  intros [H1 H2 H3 H4 H5 H6 H7 H8] Hi Hh Ha Hk. pose proof (running_insert i w w' _ Hi) as Hr.
  rewrite Hh in Hr. apply Permutation_app_inv_l in Hr. constructor; cbn; try done.
  - by rewrite Hr.
  - intros E. by apply (changed_nil _ _ _ _ Hi) in E; apply H3.
  - intros Hrun [E|Hin]%elem_of_changed; [by subst w'|]. by apply (H5 Hrun).
  - intros _ _. exists w'. split; [by eapply elem_of_here|by rewrite Ha].
  - intros t k [E|Hin]%elem_of_changed; [by eapply Hk|by eapply H8].
Qed.

Lemma inv_retry i task p : pool_inv p → callers p !! i = Some (CWait task) →
  pool_inv (set_caller i (CTry task) p).
Proof.
  intros [H1 H2 H3 H4 H5 H6 H7 H8] Hi. constructor; cbn; try done.
  - intros Hn. destruct (H3 Hn) as [? Hw]. split; [done|]. intros t [[=]|Ht]%elem_of_changed. by apply (Hw t).
  - intros t [[=]|Ht]%elem_of_changed. destruct (H7 t Ht).
    pose proof (tries_insert i _ (CTry task) _ Hi) as E. cbn [trying] in E. lia.
  - intros t k Hk. rewrite length_insert. by eapply H8.
Qed.

Lemma inv_stop p : pool_inv p → pool_inv (stop p).
Proof.
  intros [H1 H2 H3 H4 H5 H6 H7 H8]. constructor; cbn; try done.
  - by rewrite running_wake_all.
  - intros E. apply H3. by destruct (threads_ p).
  - intros t k (w & Hw & Hin)%list_elem_of_fmap. apply (H8 t). by destruct w; simplify_eq/=.
Qed.

Lemma acts_inv p p' : pool_inv p → acts p p' → pool_inv p'.
Proof.
  intros Hinv Hs. destruct Hs as [| | |i task k p Hi _].
  - by eapply inv_run.
  - by eapply inv_take.
  - by eapply inv_work.
  - by apply (inv_worker i (WCall task k)).
Qed.

Lemma wakes_inv p p' : pool_inv p → wakes p p' → pool_inv p'.
Proof.
  intros Hinv Hs. destruct Hs as [i p Hi|i task p Hi]; [by apply (inv_worker i WWait)|by apply inv_retry].
Qed.

Lemma pool_step_inv p p' : pool_inv p → pool_step p p' → pool_inv p'.
Proof.
  intros Hinv Hs. destruct Hs as [p p' Hs|p p' Hs|n p p' _ E|task p|i task t p Hi|p].
  - by eapply acts_inv.
  - by eapply wakes_inv.
  - by eapply inv_start.
  - by apply inv_call.
  - apply (inv_worker i (WRun task) _ (set_callers (callers p ++ [CTry t]) p)); [by apply inv_call|done..|].
    intros t' k [= _ <-]. cbn. rewrite length_app. simpl. lia.
  - by apply inv_stop.
Qed.

(** ** The pool finishes its work

    The workers and the callers, with no new call and no [stop], and any number of
    spurious wake-ups: each of their steps uses up some of [work_left], and a
    wake-up gives back one. *)
Definition worker_work (w : worker) : nat :=
  match w with WTest => 2 | WTake => 1 | WRun _ => 3 | WCall _ _ => 4 | WWait | WExited => 0 end.
Definition caller_work (c : caller) : nat := match c with CTry _ => 6 | CWait _ => 5 | CDone => 0 end.
Definition work_left (p : ThreadPool) : nat :=
  sum_list_with worker_work (threads_ p) + sum_list_with caller_work (callers p) + 4 * length (queue_ p).

(** [runs n k p p']: [n] steps and [k] wake-ups. *)
Inductive runs : nat → nat → ThreadPool → ThreadPool → Prop :=
  | RunsDone p : runs 0 0 p p
  | RunsActs n k p p1 p' : acts p p1 → runs n k p1 p' → runs (S n) k p p'
  | RunsWakes n k p p1 p' : wakes p p1 → runs n k p1 p' → runs n (S k) p p'.

(** No worker can be kept for ever by a task that is inside [run]: none is, or
    [run] never waits. *)
Definition unnested (p : ThreadPool) : Prop :=
  maxQueueSize_ p = 0 ∨ ∀ task k, WCall task k ∉ threads_ p.

Definition finished (p : ThreadPool) : Prop :=
  queue_ p = [] ∧ executed p ≡ₚ pushed p ∧ ∀ c, c ∈ callers p → c = CDone.

Lemma sum_insert {A} (f : A → nat) i x y l : l !! i = Some x →
  (sum_list_with f (<[i := y]> l) + f x = sum_list_with f l + f y)%nat.
Proof.
  revert i. induction l as [|z l IH]; intros [|i] Hi; simplify_eq/=; [lia|]. specialize (IH _ Hi). lia.
Qed.

Lemma notify_worker_work ws ws' : notify_worker ws ws' →
  (sum_list_with worker_work ws' ≤ S (sum_list_with worker_work ws))%nat.
Proof.
  intros [(i & Hi & ->)|[_ ->]]; [|lia]. pose proof (sum_insert worker_work i WWait WTake ws Hi) as H.
  simpl in H. lia.
Qed.

Lemma notify_caller_work cs cs' : notify_caller cs cs' →
  (sum_list_with caller_work cs' ≤ S (sum_list_with caller_work cs))%nat.
Proof.
  intros [(i & t & Hi & ->)|[_ ->]]; [|lia]. pose proof (sum_insert caller_work i (CWait t) (CTry t) cs Hi) as H.
  simpl in H. lia.
Qed.

Lemma acts_work p p' : threads_ p ≠ [] → running_ p = true → acts p p' →
  (work_left p' < work_left p)%nat ∧ threads_ p' ≠ [].
Proof.
  intros Ht Hr Hs. destruct Hs as [i task c p p' ws Hi E Hws|i w p p' cs Hi E Hcs|i w w' p p' Hi Hw E|i task k p Hi _].
  - pose proof (sum_insert caller_work i _ c _ Hi) as Hc. simpl in Hc. unfold run in E.
    rewrite bool_decide_false in E by by destruct (threads_ p).
    destruct (isFull p); injection E as <- <-.
    + rewrite decide_True in Hws by done. subst ws. split; [|done]. unfold work_left. cbn. simpl in Hc. lia.
    + rewrite decide_False in Hws by (cbn; rewrite length_app; simpl; lia).
      pose proof (notify_worker_work _ _ Hws). split; [|intros E; by apply (notify_worker_nil _ _ Hws) in E].
      unfold work_left. cbn. rewrite length_app. simpl in *. lia.
  - pose proof (sum_insert worker_work i _ w _ Hi) as Hw. simpl in Hw. unfold takeTask in E.
    assert (Hcs' : (queue_ p = [] → cs = callers p) ∧
      (sum_list_with caller_work cs ≤ S (sum_list_with caller_work (callers p)))%nat).
    { destruct (decide _) as [[? _]|Hd]; [split; [done|by apply notify_caller_work]|]. subst cs. split; [done|lia]. }
    destruct Hcs' as [Hcs0 Hcs1]. destruct (queue_ p) as [|task q] eqn:Eq.
    + rewrite Hr in E. injection E as <- <-. rewrite Hcs0 by done.
      split; [|intros E; by apply changed_nil with (1 := Hi) in E]. unfold work_left. cbn. rewrite Eq. simpl in *. lia.
    + injection E as <- <-. split; [|intros E; by apply changed_nil with (1 := Hi) in E].
      unfold work_left. cbn. rewrite Eq. simpl in *. lia.
  - pose proof (sum_insert worker_work i _ w' _ Hi) as Hc.
    destruct Hw as [->|[task ->]]; cbn in E; rewrite ?Hr in E; injection E as <- <-;
      (split; [|intros E; by apply changed_nil with (1 := Hi) in E]);
      unfold work_left; cbn; simpl in Hc; lia.
  - pose proof (sum_insert worker_work i _ (WRun task) _ Hi) as Hc.
    split; [|intros E; by apply changed_nil with (1 := Hi) in E]. unfold work_left. cbn. simpl in Hc. lia.
Qed.

Lemma wakes_work p p' : wakes p p' → work_left p' = S (work_left p).
Proof.
  intros [i p1 Hi|i task p1 Hi]; unfold work_left; cbn.
  - pose proof (sum_insert worker_work i _ WTake _ Hi) as Hc. simpl in Hc. lia.
  - pose proof (sum_insert caller_work i _ (CTry task) _ Hi) as Hc. simpl in Hc. lia.
Qed.

(** What neither changes. *)
Lemma acts_keeps p p' : acts p p' → running_ p' = running_ p ∧ maxQueueSize_ p' = maxQueueSize_ p ∧
  (threads_ p' = [] → threads_ p = []) ∧ (∀ task k, WCall task k ∈ threads_ p' → WCall task k ∈ threads_ p).
Proof.
  intros Hs. destruct Hs as [i task c p p' ws Hi E Hws|i w p p' cs Hi E Hcs|i w w' p p' Hi Hw E|i task k p Hi _].
  - unfold run in E. case_bool_decide; [|destruct (isFull p)]; injection E as <- <-; cbn in *.
    + rewrite decide_True in Hws by done. by subst ws.
    + rewrite decide_True in Hws by done. by subst ws.
    + rewrite decide_False in Hws by (rewrite length_app; simpl; lia). split_and!; [done..| |].
      * by apply notify_worker_nil.
      * intros t k Hk. by apply (notify_worker_elem _ _ _ Hws) in Hk as [[=]|?].
  - assert (running_ p' = running_ p ∧ maxQueueSize_ p' = maxQueueSize_ p ∧ threads_ p' = threads_ p ∧
      ∀ t k, w ≠ WCall t k) as (E1 & E2 & E3 & E4).
    { unfold takeTask in E. destruct (queue_ p); [destruct (running_ p) eqn:?|]; by injection E as <- <-. }
    cbn. rewrite E1, E2, E3. split_and!; [done..|intros H; by apply changed_nil with (1 := Hi) in H|].
    intros t k [H|?]%elem_of_changed; [by destruct (E4 t k)|done].
  - assert (running_ p' = running_ p ∧ maxQueueSize_ p' = maxQueueSize_ p ∧ threads_ p' = threads_ p ∧
      ∀ t k, w' ≠ WCall t k) as (E1 & E2 & E3 & E4).
    { destruct Hw as [->|[task ->]]; injection E as <- <-; split_and!; try done. by destruct (running_ p). }
    cbn. rewrite E1, E2, E3. split_and!; [done..|intros H; by apply changed_nil with (1 := Hi) in H|].
    intros t k [H|?]%elem_of_changed; [by destruct (E4 t k)|done].
  - cbn. split_and!; [done..|intros H; by apply changed_nil with (1 := Hi) in H|].
    intros t j [[=]|?]%elem_of_changed. done.
Qed.

Lemma wakes_keeps p p' : wakes p p' → running_ p' = running_ p ∧ maxQueueSize_ p' = maxQueueSize_ p ∧
  (threads_ p' = [] → threads_ p = []) ∧ (∀ task k, WCall task k ∈ threads_ p' → WCall task k ∈ threads_ p).
Proof.
  intros [i p1 Hi|i task p1 Hi]; cbn; [|done]. split_and!; [done..|intros H; by apply changed_nil with (1 := Hi) in H|].
  intros t k [[=]|?]%elem_of_changed. done.
Qed.

(** A signal always has an outcome. *)
Lemma notify_worker_total ws : ∃ ws', notify_worker ws ws'.
Proof.
  induction ws as [|w ws (ws' & [(i & Hi & ->)|[Hn ->]])].
  - exists []. right. split; [apply not_elem_of_nil|done].
  - exists (w :: <[i := WTake]> ws). left. by exists (S i).
  - destruct w.
    3: { exists (WTake :: ws). left. by exists 0%nat. }
    all: eexists; right; split; [|reflexivity]; by apply not_elem_of_cons.
Qed.

Lemma notify_caller_total cs : ∃ cs', notify_caller cs cs'.
Proof.
  induction cs as [|c cs (cs' & [(i & t & Hi & ->)|[Hn ->]])].
  - exists []. right. split; [intros t; apply not_elem_of_nil|done].
  - exists (c :: <[i := CTry t]> cs). left. by exists (S i), t.
  - destruct c as [task|task|].
    2: { exists (CTry task :: cs). left. by exists 0%nat, task. }
    all: eexists; right; split; [|reflexivity]; intros t; by apply not_elem_of_cons.
Qed.

Definition movable (w : worker) : bool := match w with WTest | WTake | WRun _ => true | _ => false end.

Lemma worker_moves w p : w ∈ threads_ p → movable w → ∃ p', acts p p'.
Proof.
  intros (i & Hi)%list_elem_of_lookup Hw. destruct w as [| | |task| |]; try done.
  - eexists. by eapply (StepWork i WTest); [|by left|reflexivity].
  - destruct (takeTask p) as [w p1] eqn:E.
    assert (∃ cs, (if decide (queue_ p ≠ [] ∧ 0 < maxQueueSize_ p) then notify_caller (callers p) cs
                   else cs = callers p)) as (cs & Hcs).
    { destruct (decide _); [apply notify_caller_total|by eexists]. }
    eexists. by eapply (StepTake i w p p1 cs).
  - eexists. by eapply (StepWork i (WRun task)); [|right; by eexists|reflexivity].
Qed.

Lemma caller_moves task p : CTry task ∈ callers p → ∃ p', acts p p'.
Proof.
  intros (i & Hi)%list_elem_of_lookup. destruct (run task p) as [c p1] eqn:E.
  assert (∃ ws, if decide (length (queue_ p1) = length (queue_ p)) then ws = threads_ p
                else notify_worker (threads_ p) ws) as (ws & Hws).
  { destruct (decide _); [by eexists|apply notify_worker_total]. }
  eexists. by eapply (StepRun i task c p p1 ws).
Qed.

(** A task inside [run] is let go, if it does not wait. *)
Lemma nested_moves task k p : pool_inv p → unnested p → WCall task k ∈ threads_ p → ∃ p', acts p p'.
Proof.
  intros Hinv Hun Hin. destruct (lookup_lt_is_Some_2 (callers p) k) as [c Hc]; [by eapply inv_nested|].
  destruct c as [t|t|].
  - eapply caller_moves. by eapply list_elem_of_lookup_2.
  - exfalso. destruct Hun as [Hm|Hn]; [|by apply (Hn task k)].
    destruct (inv_callers _ Hinv t); [by eapply list_elem_of_lookup_2|lia].
  - apply list_elem_of_lookup in Hin as (i & Hi). eexists. by eapply (StepBack i).
Qed.

(** Workers and callers stop moving only when everything is done. *)
Lemma finished_or_moves p : pool_inv p → running_ p = true → unnested p → finished p ∨ ∃ p', acts p p'.
Proof.
  intros Hinv Hr Hun. pose proof Hinv as [Hfifo Honce Hnone Hbound Hexit Hawake Hcallers Hnested].
  destruct (decide (tries (callers p) = 0%nat)) as [Ht|Ht].
  2:{ right. destruct (tries_positive (callers p)) as [task Hc]; [lia|]. by eapply caller_moves. }
  destruct (decide (Exists active (threads_ p))) as [Hw|Hw].
  { right. apply Exists_exists in Hw as (w & Hw & Ha). destruct w as [| | | |task k|]; try done.
    - by eapply worker_moves.
    - by eapply worker_moves.
    - by eapply worker_moves.
    - by eapply nested_moves. }
  left. assert (Hq : queue_ p = []).
  { destruct (queue_ p) eqn:Eq; [done|]. destruct Hw. apply Exists_exists. by apply Hawake; [|congruence]. }
  split_and!; [done| |].
  - rewrite Hfifo, Hq, app_nil_r, Honce. replace (running_tasks (threads_ p)) with (@nil T); [by rewrite app_nil_r|].
    clear -Hw. induction (threads_ p) as [|w ws IH]; [done|]. unfold running_tasks in *.
    rewrite bind_cons, <-IH by (intros ?; apply Hw; by right). destruct w; try done; destruct Hw; by left.
  - intros [task|task|] Hc; [|exfalso|done].
    + exfalso. apply list_elem_of_lookup in Hc as (i & Hi). pose proof (tries_insert i _ CDone _ Hi). simpl in *. lia.
    + destruct (Hcallers _ Hc) as [Hm Hle]. rewrite Hq, Ht in Hle. unfold sz in Hle. simpl in Hle. lia.
Qed.

(** What a running pool keeps. *)
Definition good p : Prop := pool_inv p ∧ running_ p = true ∧ threads_ p ≠ [] ∧ unnested p.

Lemma kept_good p p' : good p → pool_inv p' →
  running_ p' = running_ p ∧ maxQueueSize_ p' = maxQueueSize_ p ∧ (threads_ p' = [] → threads_ p = []) ∧
  (∀ task k, WCall task k ∈ threads_ p' → WCall task k ∈ threads_ p) → good p'.
Proof.
  intros (Hi & Hr & Ht & Hu) Hi' (E1 & E2 & E3 & E4). split_and!; [done|congruence|auto|].
  destruct Hu as [Hm|Hn]; [left; congruence|right]. intros t k Hk. by apply (Hn t k), E4.
Qed.

Lemma acts_good p p' : good p → acts p p' → good p'.
Proof. intros Hg Hs. eapply kept_good; [done|eapply acts_inv; [apply Hg|done]|by apply acts_keeps]. Qed.

Lemma wakes_good p p' : good p → wakes p p' → good p'.
Proof. intros Hg Hs. eapply kept_good; [done|eapply wakes_inv; [apply Hg|done]|by apply wakes_keeps]. Qed.

Lemma runs_good n k p p' : good p → runs n k p p' → good p'.
Proof.
  intros Hg Hs. induction Hs as [|n k p p1 p' Hs _ IH|n k p p1 p' Hs _ IH]; [done|..]; apply IH.
  - by eapply acts_good.
  - by eapply wakes_good.
Qed.

Lemma runs_bounded n k p p' : good p → runs n k p p' → (n ≤ work_left p + k)%nat.
Proof.
  intros Hg Hs. induction Hs as [|n k p p1 p' Hs _ IH|n k p p1 p' Hs _ IH]; [lia|..].
  - destruct (acts_work p p1) as [Hw _]; [apply Hg..|done|]. specialize (IH (acts_good _ _ Hg Hs)). lia.
  - pose proof (wakes_work _ _ Hs). specialize (IH (wakes_good _ _ Hg Hs)). lia.
Qed.

Lemma runs_finish k p : good p → (work_left p ≤ k)%nat → ∃ n p', runs n 0 p p' ∧ finished p'.
Proof.
  revert p. induction k as [|k IH]; intros p Hg Hk; pose proof Hg as (Hi & Hr & Ht & Hu);
    (destruct (finished_or_moves p Hi Hr Hu) as [?|[p1 Hs]]; [exists 0%nat, p; split; [constructor|done]|]);
    destruct (acts_work p p1 Ht Hr Hs) as [? _]; [lia|].
  destruct (IH p1) as (n & p' & Hn & Hf); [by eapply acts_good|lia|].
  exists (S n), p'. split; [by eapply RunsActs|done].
Qed.

(** ** Properties *)

(** C28: in every interleaving of callers, workers, tasks that call [run], spurious
    wake-ups and [stop], the pool loses and repeats nothing: tasks are taken in the order they were handed over; the
    ones taken are, each once, those executed and those a worker is executing;
    and the queue never exceeds its bound. *)
Theorem pool_runs_each_task_once m p :
  rtc pool_step (pool_init m) p →
  pushed p = taken p ++ queue_ p ∧ taken p ≡ₚ executed p ++ running_tasks (threads_ p) ∧
  (0 < maxQueueSize_ p → queueSize p ≤ maxQueueSize_ p).
Proof.
  intros Hrtc. apply (rtc_invariant pool_step pool_inv pool_step_inv) in Hrtc as [];
    [done|apply pool_inv_init].
Qed.

(** No notification is lost.  While the pool runs and a task is queued, some
    worker is not asleep in [takeTask]; and whenever a caller sleeps in [run], the queue is
    full or another caller is on its way to fill it. *)
Theorem pool_keeps_moving m p :
  rtc pool_step (pool_init m) p →
  (running_ p = true → queue_ p ≠ [] → ∃ w, w ∈ threads_ p ∧ w ≠ WWait ∧ w ≠ WExited) ∧
  (∀ task, CWait task ∈ callers p → isFull p = true ∨ ∃ task', CTry task' ∈ callers p).
Proof.
  intros Hrtc. apply (rtc_invariant pool_step pool_inv pool_step_inv) in Hrtc as [? ? ? ? ? H6 H7];
    [|apply pool_inv_init]. split.
  - intros Hr Hq. destruct (H6 Hr Hq) as (w & ? & Hw). exists w. by destruct w.
  - intros task Ht. destruct (H7 task Ht) as [Hm Hle]. destruct (isFull p) eqn:Hf; [by left|right].
    apply tries_positive. assert (¬ (maxQueueSize_ p ≤ sz (queue_ p))); [|lia].
    intros Hc. assert (isFull p = true) by by apply isFull_spec. congruence.
Qed.

(** C29: a running pool finishes.  With no [stop], no further call of [run], and no
    task inside a call of [run] that a full queue may keep there ([unnested]; it can
    keep it for ever: [nested_run_deadlocks]), the workers and callers take in any
    interleaving at most [work_left] steps and one more per spurious wake-up; as
    long as a task is queued or being executed, or a caller waits, one of them can
    take a step; so they end with all tasks executed, each once, and all callers
    returned. *)
Theorem pool_finishes m p :
  rtc pool_step (pool_init m) p → running_ p = true → threads_ p ≠ [] → unnested p →
  (∀ n k p', runs n k p p' → (n ≤ work_left p + k)%nat ∧ (finished p' ∨ ∃ p'', acts p' p'')) ∧
  ∃ n p', runs n 0 p p' ∧ finished p'.
Proof.
  intros Hrtc Hr Ht Hun. assert (Hinv : pool_inv p).
  { apply (rtc_invariant pool_step pool_inv pool_step_inv _ _ Hrtc), pool_inv_init. }
  clear Hrtc. assert (good p) as Hg by done. clear Hinv Hr Ht Hun. split.
  - intros n k p' Hs. pose proof (runs_good _ _ _ _ Hg Hs) as (Hi & Hr & _ & Hu).
    split; [by apply (runs_bounded n k p p')|by apply finished_or_moves].
  - apply (runs_finish (work_left p)); [done|lia].
Qed.

(** A pool whose only worker [w] takes no task any more, with its queue full: call
    [j] of [run] does not return. *)
Definition in_run (j : nat) (b : T) p : Prop :=
  ∃ c, callers p !! j = Some c ∧ (c = CTry b ∨ c = CWait b).
Definition jammed (w : worker) (j : nat) (b q : T) p : Prop :=
  maxQueueSize_ p = 1 ∧ queue_ p = [q] ∧ threads_ p = [w] ∧ executed p = [] ∧ in_run j b p.

Lemma in_run_insert j b i c p : in_run j b p → (i = j → c = CTry b ∨ c = CWait b) → in_run j b (set_caller i c p).
Proof.
  intros (c' & Hc & Hb) Hi. unfold in_run. cbn. destruct (decide (i = j)) as [->|Hne].
  - exists c. split; [|by apply Hi]. apply list_lookup_insert_eq. by eapply lookup_lt_Some.
  - exists c'. by rewrite list_lookup_insert_ne.
Qed.

Lemma in_run_app j b t p : in_run j b p → in_run j b (set_callers (callers p ++ [CTry t]) p).
Proof.
  intros (c & Hc & Hb). exists c. split; [|done]. cbn. rewrite lookup_app_l; [done|]. by eapply lookup_lt_Some.
Qed.

Lemma jammed_step w j b q p p' : w = WExited ∨ (∃ a, w = WCall a j) → jammed w j b q p → pool_step p p' →
  jammed w j b q p'.
Proof.
  intros Hw (Hm & Hq & Ht & He & Hc) Hs.
  assert (∀ i v, threads_ p !! i = Some v → v = w) as Hone.
  { intros i v Hi. rewrite Ht in Hi. destruct i; [by injection Hi as <-|done]. }
  assert (∀ i task, callers p !! i = Some (CTry task) ∨ callers p !! i = Some (CWait task) → i = j → task = b) as Hj.
  { intros i task Hi ->. destruct Hc as (c & Hc & Hb). destruct Hi as [Hi|Hi]; rewrite Hi in Hc;
      injection Hc as <-; destruct Hb as [[=]|[=]]; congruence. }
  destruct Hs as [p p' Hs|p p' Hs|n p p' _ E|task p|i task t p Hi|p].
  - destruct Hs as [i task c p p' ws Hi E Hws|i v p p' cs Hi|i v v' p p' Hi Hv|i task k p Hi Hd].
    + unfold run in E. rewrite Ht in E. cbn in E. unfold isFull in E. rewrite Hm, Hq in E.
      injection E as <- <-. rewrite decide_True in Hws by done. subst ws. split_and!; try done.
      apply (in_run_insert j b i (CWait task) p); [done|]. intros E. right. f_equal. by apply (Hj i); [left|].
    + apply Hone in Hi. subst w. by destruct Hw as [|[? ?]].
    + apply Hone in Hi. subst w. destruct Hw as [->|[? ->]]; by destruct Hv as [|[? ?]].
    + apply Hone in Hi. subst w. destruct Hw as [|[a [= -> ->]]]; [done|]. destruct Hc as (c & Hc & Hb).
      rewrite Hd in Hc. injection Hc as <-. by destruct Hb.
  - destruct Hs as [i p Hi|i task p Hi].
    + apply Hone in Hi. subst w. by destruct Hw as [|[? ?]].
    + split_and!; try done. apply in_run_insert; [done|]. intros E. left. f_equal. by apply (Hj i); [right|].
  - unfold start in E. by rewrite Ht in E.
  - split_and!; try done. by apply in_run_app.
  - apply Hone in Hi. subst w. by destruct Hw as [|[? ?]].
  - split_and!; try done. cbn. rewrite Ht. by destruct Hw as [->|[? ->]].
Qed.

Lemma jammed_steps w j b q p p' : w = WExited ∨ (∃ a, w = WCall a j) → jammed w j b q p → rtc pool_step p p' →
  jammed w j b q p'.
Proof.
  intros Hw Hs Hrtc. apply (rtc_invariant pool_step (jammed w j b q)) in Hrtc; [done| |done].
  intros p1 p2. by apply jammed_step.
Qed.

(** [stop] abandons what it finds.  It wakes the workers but not the callers
    blocked on a full queue, and a worker that sees [running_] false returns
    without emptying the queue: there are executions in which, after [stop], a
    queued task is never executed and a caller of [run] never comes back. *)
Theorem stop_abandons_tasks_and_callers (a b : T) :
  ∃ p, rtc pool_step (pool_init 1) p ∧ running_ p = false ∧ queue_ p = [a] ∧
    CWait b ∈ callers p ∧
    ∀ p', rtc pool_step p p' → queue_ p' = [a] ∧ executed p' = [] ∧ in_run 1 b p'.
Proof.
  exists (mkPool 1 false [a] [WExited] [CDone; CWait b] true [a] [] []). split_and!; try done.
  - eapply rtc_l; [eapply (StepStart 1%nat); [done|reflexivity]|].
    eapply rtc_l; [eapply (StepCall a)|]. eapply rtc_l; [eapply (StepCall b)|].
    eapply rtc_l; [eapply StepActs, (StepRun 0%nat a CDone _ _ [WTest]); [done|reflexivity|]|].
    { cbn. right. split; [|done]. by intros [[=]|[]%not_elem_of_nil]%elem_of_cons. }
    eapply rtc_l; [eapply StepActs, (StepRun 1%nat b (CWait b) _ _ [WTest]); [done|reflexivity|done]|].
    eapply rtc_l; [eapply StepStop|].
    eapply rtc_l; [eapply StepActs, (StepWork 0%nat WTest WExited); [done|by left|reflexivity]|].
    apply rtc_refl.
  - apply elem_of_cons. right. apply elem_of_cons. by left.
  - intros p' Hrtc. apply (jammed_steps WExited 1 b a) in Hrtc as (? & ? & ? & ? & ?); [done|by left|].
    split_and!; try done. exists (CWait b). split; [done|by right].
Qed.

(** Tasks that call [run] can block the pool for good: when every worker is inside
    such a call and the queue is full, nobody is left to make room.  Here the task
    [a] of the only worker of a pool with a queue of one calls [run] with [b] while
    [c] is queued; whatever happens then, [stop] included, [c] is never executed and
    the worker never comes back from the call. *)
Theorem nested_run_deadlocks (a b c : T) :
  ∃ p, rtc pool_step (pool_init 1) p ∧ running_ p = true ∧
    ∀ p', rtc pool_step p p' → queue_ p' = [c] ∧ executed p' = [] ∧ threads_ p' = [WCall a 2] ∧ in_run 2 b p'.
Proof.
  exists (mkPool 1 true [c] [WCall a 2] [CDone; CDone; CTry b] false [a; c] [a] []). split_and!; try done.
  - eapply rtc_l; [eapply (StepStart 1%nat); [done|reflexivity]|].
    eapply rtc_l; [eapply (StepCall a)|].
    eapply rtc_l; [eapply StepActs, (StepRun 0%nat a CDone _ _ [WTest]); [done|reflexivity|]|].
    { cbn. right. split; [|done]. by intros [[=]|[]%not_elem_of_nil]%elem_of_cons. }
    eapply rtc_l; [eapply StepActs, (StepWork 0%nat WTest WTake); [done|by left|reflexivity]|].
    eapply rtc_l; [eapply StepActs, (StepTake 0%nat (WRun a) _ _ [CDone]); [done|reflexivity|]|].
    { cbn. right. split; [|done]. by intros t [[=]|[]%not_elem_of_nil]%elem_of_cons. }
    eapply rtc_l; [eapply (StepCall c)|].
    eapply rtc_l; [eapply StepActs, (StepRun 1%nat c CDone _ _ [WRun a]); [done|reflexivity|]|].
    { cbn. right. split; [|done]. by intros [[=]|[]%not_elem_of_nil]%elem_of_cons. }
    eapply rtc_l; [by eapply (StepNest 0%nat a b)|]. apply rtc_refl.
  - intros p' Hrtc. apply (jammed_steps (WCall a 2) 2 b c) in Hrtc as (? & ? & ? & ? & ?); [done|by right; eexists|].
    split_and!; try done. exists (CTry b). split; [done|by left].
Qed.
End ThreadPool.

(** *** A pool of one worker with a queue of one *)
Definition demo_pool : ThreadPool := mkPool 1 true [7] [WTest] [CDone] false [7] [] [].

Lemma demo_pool_reachable : rtc pool_step (pool_init 1) demo_pool.
Proof.
  eapply rtc_l; [eapply (StepStart 1%nat); [done|reflexivity]|].
  eapply rtc_l; [eapply (StepCall 7)|].
  eapply rtc_l; [eapply StepActs, (StepRun 0%nat 7 CDone _ _ [WTest]); [done|reflexivity|]|apply rtc_refl].
  cbn. right. split; [|done]. by intros [[=]|[]%not_elem_of_nil]%elem_of_cons.
Qed.

Lemma pool_runs_each_task_once_witness :
  pushed demo_pool = taken demo_pool ++ queue_ demo_pool ∧
  taken demo_pool ≡ₚ executed demo_pool ++ running_tasks (threads_ demo_pool) ∧
  (0 < maxQueueSize_ demo_pool → queueSize demo_pool ≤ maxQueueSize_ demo_pool).
Proof. exact (pool_runs_each_task_once 1 demo_pool demo_pool_reachable). Defined.

Lemma pool_keeps_moving_witness :
  ∃ w, w ∈ threads_ demo_pool ∧ w ≠ WWait ∧ w ≠ WExited.
Proof. apply (pool_keeps_moving 1 demo_pool demo_pool_reachable); [reflexivity|discriminate]. Defined.

Lemma pool_finishes_witness : ∃ n p', runs n 0 demo_pool p' ∧ finished p'.
Proof.
  apply (pool_finishes 1 demo_pool demo_pool_reachable); [reflexivity|discriminate|].
  right. intros task k [[=]|[]%not_elem_of_nil]%elem_of_cons.
Defined.
