(* ===== verification/PoolLife.v ===== *)
(** The life of a [kaycc::ThreadPool] ([src/base/threadpool.cpp]): [start], the
    workers' initial callback, [stop] with its joins, and the destructor.

    ThreadPool.v has the workers, the callers and the queue.  Here the owner's
    thread is added, which runs [start], [stop] and [~ThreadPool] one after the
    other and waits in [pthread_join] for one worker after the other, and the
    [joined_] flags of the [Thread]s it joins. *)
From stdpp Require Import list relations.
From S2P Require Import Prelude ThreadPool.

Section PoolLife.
Context {T : Type}.
Local Abbreviation ThreadPool := (@ThreadPool.ThreadPool T).

(** The owner: between calls, about to call [threads_[i].join()], in the
    [pthread_join] of it, or done with the destructor.  [dtor]: it was the
    destructor that called [stop]. *)
Inductive owner_pc := OIdle | OAtJoin (i : nat) (dtor : bool) | OInJoin (i : nat) (dtor : bool) | OGone.

Record PoolLife := mkLife {
  pool : ThreadPool;
  threadInitCallback_ : bool;   (* is it set? *)
  entered : list bool;          (* worker [i] has passed [if (threadInitCallback_) ...] *)
  init_calls : nat;             (* calls of it *)
  joined : list bool;           (* [joined_] of [threads_[i]] *)
  owner : owner_pc
}.

Definition set_pool p x := mkLife p (threadInitCallback_ x) (entered x) (init_calls x) (joined x) (owner x).
Definition set_at o x := mkLife (pool x) (threadInitCallback_ x) (entered x) (init_calls x) (joined x) o.
Definition call_init x :=
  mkLife (pool x) (threadInitCallback_ x) (entered x)
    (init_calls x + if threadInitCallback_ x then 1 else 0)%nat (joined x) (owner x).

(** The callback and the queue size are set before [start]. *)
Definition life_ctor (maxSize : Z) (cb : bool) : PoolLife := mkLife (pool_init maxSize) cb [] 0 [] OIdle.

Definition life_start (numThreads : nat) x : outcome PoolLife :=
  p ← start numThreads (pool x);
  let x := mkLife p (threadInitCallback_ x) (replicate numThreads false) (init_calls x)
             (replicate numThreads false) (owner x) in
  Ok (if bool_decide (numThreads = 0%nat) then call_init x else x).

(** [stop] up to its loop. *)
Definition begin_stop (dtor : bool) x : PoolLife := set_at (OAtJoin 0 dtor) (set_pool (stop (pool x)) x).

(** [Thread::join] of [threads_[i]] up to its [pthread_join] ([start] started it). *)
Definition join_thread (i : nat) (dtor : bool) x : outcome PoolLife :=
  assert! negb (from_option id false (joined x !! i));;
  Ok (mkLife (pool x) (threadInitCallback_ x) (entered x) (init_calls x) (<[i := true]> (joined x))
        (OInJoin i dtor)).

Definition ThreadPool_dtor x : PoolLife :=
  if running_ (pool x) then begin_stop true x else set_at OGone x.

(** *** Steps *)
Inductive worker_step (i : nat) : ThreadPool → ThreadPool → Prop :=
  | WorkerTakes w p p' cs :
      threads_ p !! i = Some (@WTake T) → takeTask p = (w, p') →
      (if decide (queue_ p ≠ [] ∧ 0 < maxQueueSize_ p) then notify_caller (callers p) cs
       else cs = callers p) →
      worker_step i p (set_callers cs (set_worker i w p'))
  | WorkerWorks w w' p p' :
      threads_ p !! i = Some w → w = @WTest T ∨ (∃ task, w = WRun task) →
      runInThread w p = (w', p') → worker_step i p (set_worker i w' p')
  | WorkerBack task k p :
      threads_ p !! i = Some (@WCall T task k) → callers p !! k = Some CDone →
      worker_step i p (set_worker i (WRun task) p).

(** The callers, and spurious wake-ups. *)
Inductive caller_step : ThreadPool → ThreadPool → Prop :=
  | CallerCalls task p : caller_step p (set_callers (callers p ++ [CTry task]) p)
  | CallerRuns i task c p p' ws :
      callers p !! i = Some (CTry task) → run task p = (c, p') →
      (if decide (length (queue_ p') = length (queue_ p)) then ws = threads_ p else notify_worker (threads_ p) ws) →
      caller_step p (set_threads ws (set_caller i c p'))
  | CallerWakes p p' : wakes p p' → caller_step p p'.

(** The task of worker [i] calls [run]. *)
Inductive nest_step (i : nat) : ThreadPool → ThreadPool → Prop :=
  | TaskCalls task t p :
      threads_ p !! i = Some (@WRun T task) →
      nest_step i p (set_callers (callers p ++ [CTry t]) (set_worker i (WCall task (length (callers p))) p)).

(** The pool's own threads and its owner. *)
Inductive thread_step : PoolLife → PoolLife → Prop :=
  | LifeInit i x : entered x !! i = Some false →
      thread_step x (mkLife (pool x) (threadInitCallback_ x) (<[i := true]> (entered x))
        (init_calls x + if threadInitCallback_ x then 1 else 0)%nat (joined x) (owner x))
  | LifeWorker i p x : entered x !! i = Some true → worker_step i (pool x) p → thread_step x (set_pool p x)
  | LifeStart n x x' : owner x = OIdle → life_start n x = Ok x' → thread_step x x'
  | LifeStop x : owner x = OIdle → running_ (pool x) = true → thread_step x (begin_stop false x)
  | LifeDtor x : owner x = OIdle → thread_step x (ThreadPool_dtor x)
  | LifeJoin i dtor x x' : owner x = OAtJoin i dtor → (i < length (threads_ (pool x)))%nat →
      join_thread i dtor x = Ok x' → thread_step x x'
  | LifeJoined i dtor x : owner x = OInJoin i dtor → threads_ (pool x) !! i = Some WExited →
      thread_step x (set_at (OAtJoin (S i) dtor) x)
  | LifeReturn i dtor x : owner x = OAtJoin i dtor → (length (threads_ (pool x)) ≤ i)%nat →
      thread_step x (set_at (if dtor then OGone else OIdle) x).

Inductive life_step : PoolLife → PoolLife → Prop :=
  | LifeThread x x' : thread_step x x' → life_step x x'
  | LifeCaller p x : owner x ≠ OGone → caller_step (pool x) p → life_step x (set_pool p x)
  | LifeNest i p x : entered x !! i = Some true → nest_step i (pool x) p → life_step x (set_pool p x).

(** ** The invariant *)
Lemma worker_pool_step i p p' : worker_step i p p' → pool_step p p'.
Proof. intros []; [by eapply StepActs, StepTake|by eapply StepActs, StepWork|by eapply StepActs, StepBack]. Qed.

Lemma caller_pool_step p p' : caller_step p p' → pool_step p p'.
Proof. intros []; [apply StepCall|by eapply StepActs, StepRun|by apply StepWakes]. Qed.

Lemma nest_pool_step i p p' : nest_step i p p' → pool_step p p'.
Proof. intros []. by apply StepNest. Qed.

(** Where the joins are: the threads before [i] were joined and have returned,
    those from [k] on were not joined yet. *)
Definition joined_upto (i k : nat) x : Prop :=
  (∀ j, (j < i)%nat → threads_ (pool x) !! j = Some WExited) ∧
  (∀ j b, joined x !! j = Some b → b = bool_decide (j < k)%nat).

Record life_inv x : Prop := {
  li_pool : pool_inv (pool x);
  li_entered : length (entered x) = length (threads_ (pool x));
  li_joined : length (joined x) = length (threads_ (pool x));
  li_fresh : ∀ i, entered x !! i = Some false → threads_ (pool x) !! i = Some WTest;
  li_awake : running_ (pool x) = false → WWait ∉ threads_ (pool x);
  li_owner :
    let n := length (threads_ (pool x)) in
    match owner x with
    | OIdle => if running_ (pool x) then joined_upto 0 0 x else joined_upto n n x
    | OAtJoin i _ => running_ (pool x) = false ∧ (i ≤ n)%nat ∧ joined_upto i i x
    | OInJoin i _ => running_ (pool x) = false ∧ (i < n)%nat ∧ joined_upto i (S i) x
    | OGone => running_ (pool x) = false ∧ joined_upto n n x
    end
}.

Implicit Types x y : PoolLife.

(** What a worker or caller does to the threads. *)
Lemma worker_step_threads i p p' : worker_step i p p' →
  running_ p' = running_ p ∧ ∃ w, threads_ p' = <[i := w]> (threads_ p) ∧
    (running_ p = false → w ≠ WWait) ∧ threads_ p !! i ≠ Some WExited ∧ (i < length (threads_ p))%nat.
Proof.
  intros [w p1 p2 cs Hi E _|w w' p1 p2 Hi Hw E|task k p1 Hi _].
  - unfold takeTask in E. pose proof (lookup_lt_Some _ _ _ Hi).
    destruct (queue_ p1) as [|task q]; [destruct (running_ p1) eqn:Hr|]; injection E as <- <-; cbn;
      (split; [congruence|]); eexists; split_and!; try done; congruence.
  - pose proof (lookup_lt_Some _ _ _ Hi).
    destruct Hw as [->|[task ->]]; cbn in E; injection E as <- <-; cbn; (split; [done|]); eexists;
      split_and!; try done; try congruence. by destruct (running_ p1).
  - pose proof (lookup_lt_Some _ _ _ Hi). split; [done|]. eexists. split_and!; try done. congruence.
Qed.

Lemma caller_step_threads p p' : caller_step p p' → running_ p' = running_ p ∧
  ((∃ i, threads_ p !! i = Some WWait ∧ threads_ p' = <[i := WTake]> (threads_ p)) ∨ threads_ p' = threads_ p).
Proof.
  intros [task p1|i task c p1 p2 ws Hi E Hws|p1 p2 [i p0 Hi|i task p0 Hi]];
    [by split; [|right]| |split; [done|left; eauto]|by split; [|right]].
  unfold run in E. cbn. case_bool_decide; [|destruct (isFull p1)]; injection E as <- <-; cbn in *.
  - rewrite decide_True in Hws by done. split; [done|by right].
  - rewrite decide_True in Hws by done. split; [done|by right].
  - split; [done|]. destruct (decide _); [by right|]. destruct Hws as [Hws|[_ ->]]; [by left|by right].
Qed.

(** A step that moves one worker that has not returned. *)
Lemma joined_upto_moved i k j w p x :
  threads_ (pool x) !! j ≠ Some WExited → threads_ p = <[j := w]> (threads_ (pool x)) →
  joined_upto i k x → joined_upto i k (set_pool p x).
Proof.
  intros Hj Ht [H1 H2]. split; [|done]. intros m Hm. cbn. rewrite Ht.
  specialize (H1 m Hm). rewrite list_lookup_insert_ne; [done|congruence].
Qed.

Lemma owner_moved j w p x : threads_ (pool x) !! j ≠ Some WExited →
  threads_ p = <[j := w]> (threads_ (pool x)) → running_ p = running_ (pool x) →
  life_inv x →
  let n := length (threads_ p) in
  match owner x with
  | OIdle => if running_ p then joined_upto 0 0 (set_pool p x) else joined_upto n n (set_pool p x)
  | OAtJoin i _ => running_ p = false ∧ (i ≤ n)%nat ∧ joined_upto i i (set_pool p x)
  | OInJoin i _ => running_ p = false ∧ (i < n)%nat ∧ joined_upto i (S i) (set_pool p x)
  | OGone => running_ p = false ∧ joined_upto n n (set_pool p x)
  end.
Proof.
  intros Hj Ht Hr [_ _ _ _ _ Ho]. cbn zeta in *. rewrite Ht, length_insert, Hr.
  destruct (owner x); [destruct (running_ (pool x))|..]; destruct_and?; split_and?; try done;
    by eapply joined_upto_moved.
Qed.

Lemma life_inv_ctor m cb : life_inv (life_ctor m cb).
Proof.
  constructor; cbn; try done; [apply pool_inv_init|by intros _ ?%not_elem_of_nil|]. by split; intros j; [lia|].
Qed.

Lemma life_inv_caller p x : life_inv x → caller_step (pool x) p → life_inv (set_pool p x).
Proof.
  intros Hinv Hs. pose proof Hinv as [Hp He Hj Hf Ha Ho].
  destruct (caller_step_threads _ _ Hs) as [Hr Ht].
  assert (∃ i w, threads_ p = <[i := w]> (threads_ (pool x)) ∧ threads_ (pool x) !! i ≠ Some WExited ∧
    (threads_ p = threads_ (pool x) ∨ threads_ (pool x) !! i = Some WWait ∧ w = WTake)) as (i & w & Eq & Hne & Hc).
  { destruct Ht as [(i & Hi & ->)| ->]; [exists i, WTake; split_and!; [done|congruence|by right]|].
    exists (length (threads_ (pool x))), WTake.
    split_and!; [by rewrite list_insert_ge by lia|by rewrite lookup_ge_None_2 by lia|by left]. }
  constructor; cbn.
  - by eapply pool_step_inv, caller_pool_step.
  - by rewrite Eq, length_insert.
  - by rewrite Eq, length_insert.
  - intros j Hj'. specialize (Hf j Hj'). destruct Hc as [->|[Hi ->]]; [done|].
    rewrite Eq, list_lookup_insert_ne; [done|congruence].
  - rewrite Hr. intros Hrun. destruct Hc as [->|[Hi ->]]; [by apply Ha|]. exfalso.
    apply (Ha Hrun). by eapply list_elem_of_lookup_2.
  - by apply (owner_moved i w).
Qed.

(** What the life of a pool needs to know of a worker's step. *)
Definition worker_moved (i : nat) (p p' : ThreadPool) : Prop :=
  running_ p' = running_ p ∧ ∃ w, threads_ p' = <[i := w]> (threads_ p) ∧
    (running_ p = false → w ≠ WWait) ∧ threads_ p !! i ≠ Some WExited ∧ (i < length (threads_ p))%nat.

Lemma nest_step_threads i p p' : nest_step i p p' → worker_moved i p p'.
Proof.
  intros [task t p1 Hi]. pose proof (lookup_lt_Some _ _ _ Hi). split; [done|].
  eexists. split_and!; try done. congruence.
Qed.

Lemma life_inv_worker i p x : life_inv x → entered x !! i = Some true → pool_step (pool x) p →
  worker_moved i (pool x) p → life_inv (set_pool p x).
Proof.
  intros Hinv Hen Hps Hs. pose proof Hinv as [Hp He Hj Hf Ha Ho].
  destruct Hs as (Hr & w & Ht & Hw & Hne & Hlt). constructor; cbn.
  - by eapply pool_step_inv.
  - by rewrite Ht, length_insert.
  - by rewrite Ht, length_insert.
  - intros j Hj'. rewrite Ht, list_lookup_insert_ne by congruence. by apply Hf.
  - rewrite Hr, Ht. intros Hrun [E|Hin]%elem_of_changed; [by apply (Hw Hrun)|by apply (Ha Hrun)].
  - by apply (owner_moved i w).
Qed.

Lemma life_inv_start n x x' : life_inv x → owner x = OIdle → life_start n x = Ok x' → life_inv x'.
Proof.
  intros [Hp He Hj Hf Ha Ho] Hidle E. unfold life_start in E. apply outcome_bind_ok in E as (p & E1 & E2).
  pose proof (inv_start n (pool x) p Hp E1) as Hp'.
  assert (threads_ p = replicate n WTest ∧ running_ p = true) as [Ht Hr].
  { unfold start in E1. inv_ok. by subst p. }
  set (y := mkLife p (threadInitCallback_ x) (replicate n false) (init_calls x) (replicate n false) (owner x)) in *.
  assert (life_inv y) as Hy.
  { constructor; cbn; rewrite ?Ht, ?Hr, ?length_replicate; try done.
    - intros i Hi. apply lookup_replicate in Hi as [_ Hi]. by apply lookup_replicate.
    - rewrite Hidle. split; [intros j; lia|]. cbn. intros j b Hb. by apply lookup_replicate in Hb as [-> _]. }
  injection E2 as <-. case_bool_decide; [|exact Hy]. by destruct Hy.
Qed.

Lemma life_inv_stop dtor x : life_inv x → owner x = OIdle → running_ (pool x) = true →
  life_inv (begin_stop dtor x).
Proof.
  intros [Hp He Hj Hf Ha Ho] Hidle Hr. rewrite Hidle, Hr in Ho. constructor; cbn; rewrite ?length_fmap; try done.
  - by apply inv_stop.
  - intros i Hi. by rewrite list_lookup_fmap, (Hf i Hi).
  - intros _ (w & Hw & _)%list_elem_of_fmap. by destruct w.
  - split_and!; [done|lia|]. split; [intros j; lia|]. apply Ho.
Qed.

Lemma life_inv_join i dtor x : life_inv x → owner x = OAtJoin i dtor → (i < length (threads_ (pool x)))%nat →
  ∃ x', join_thread i dtor x = Ok x' ∧ life_inv x' ∧ owner x' = OInJoin i dtor ∧ pool x' = pool x ∧ entered x' = entered x.
Proof.
  intros [Hp He Hj Hf Ha Ho] Hat Hi. rewrite Hat in Ho. destruct Ho as (Hr & _ & Hex & Hjo).
  destruct (lookup_lt_is_Some_2 (joined x) i) as [b Hb]; [by rewrite Hj|].
  assert (b = false) as -> by (rewrite (Hjo _ _ Hb); apply bool_decide_false; lia).
  unfold join_thread. rewrite Hb. cbn. eexists. split_and!; [done| |done..].
  constructor; cbn; rewrite ?length_insert; try done. split_and!; [done|done|]. split; [done|]. cbn.
  intros j b Hb'. apply list_lookup_insert_Some in Hb' as [(-> & <- & _)|[Hne Hb']].
  - symmetry. apply bool_decide_true. lia.
  - rewrite (Hjo _ _ Hb'). apply bool_decide_ext. lia.
Qed.

Lemma life_inv_joined i dtor x : life_inv x → owner x = OInJoin i dtor →
  threads_ (pool x) !! i = Some WExited → life_inv (set_at (OAtJoin (S i) dtor) x).
Proof.
  intros [Hp He Hj Hf Ha Ho] Hat Hi. rewrite Hat in Ho. destruct Ho as (Hr & Hlt & Hex & Hjo).
  constructor; cbn; try done. split_and!; [done|lia|]. split; [|done]. intros j Hjlt.
  destruct (decide (j = i)) as [->|]; [done|]. apply Hex. lia.
Qed.

Lemma life_inv_return i dtor x : life_inv x → owner x = OAtJoin i dtor →
  (length (threads_ (pool x)) ≤ i)%nat → life_inv (set_at (if dtor then OGone else OIdle) x).
Proof.
  intros [Hp He Hj Hf Ha Ho] Hat Hi. rewrite Hat in Ho. destruct Ho as (Hr & Hlt & Hup).
  assert (i = length (threads_ (pool x))) as -> by lia.
  constructor; cbn; try done. destruct dtor; [by split|by rewrite Hr].
Qed.

Lemma pool_thread_inv x x' : life_inv x → thread_step x x' → life_inv x'.
Proof.
  intros Hinv Hs. destruct Hs as [i x Hi|i p x Hi Hs|n x x' Hat E|x Hat Hr|x Hat|i dtor x x' Hat Hi E|i dtor x Hat Hi|i dtor x Hat Hi].
  - destruct Hinv as [Hp He Hj Hf Ha Ho]. constructor; cbn; rewrite ?length_insert; try done.
    intros j Hj'. apply list_lookup_insert_Some in Hj' as [(_ & [=] & _)|[_ Hj']]. by apply Hf.
  - eapply life_inv_worker; [done|exact Hi|by eapply worker_pool_step|by apply worker_step_threads].
  - by eapply life_inv_start.
  - by apply life_inv_stop.
  - unfold ThreadPool_dtor. destruct (running_ (pool x)) eqn:Hr; [by apply life_inv_stop|].
    destruct Hinv as [Hp He Hj Hf Ha Ho]. rewrite Hat, Hr in Ho. by constructor.
  - destruct (life_inv_join _ _ _ Hinv Hat Hi) as (x2 & E2 & ? & _). congruence.
  - by eapply life_inv_joined.
  - by eapply life_inv_return.
Qed.

Lemma life_step_inv x x' : life_inv x → life_step x x' → life_inv x'.
Proof.
  intros Hinv Hs. destruct Hs as [x x' Hs|p x _ Hs|i p x Hi Hs]; [by eapply pool_thread_inv|by apply life_inv_caller|].
  eapply life_inv_worker; [done|exact Hi|by eapply nest_pool_step|by apply nest_step_threads].
Qed.

Lemma life_reachable m cb x : rtc life_step (life_ctor m cb) x → life_inv x.
Proof. intros H. apply (rtc_invariant life_step life_inv life_step_inv _ _ H), life_inv_ctor. Qed.

(** ** [stop] returns *)
Definition in_stop x : Prop := match owner x with OAtJoin _ _ | OInJoin _ _ => True | _ => False end.

#[local] Instance in_stop_dec x : Decision (in_stop x).
Proof. unfold in_stop. destruct (owner x); apply _. Defined.

(** [stops n x y]: an execution that starts inside [stop], with [n] steps of the
    pool's threads and the owner, and any number of the callers' and of spurious
    wake-ups.  No task calls [run]. *)
Inductive stops : nat → PoolLife → PoolLife → Prop :=
  | StopsDone x : stops 0 x x
  | StopsThread n x x1 y : in_stop x → thread_step x x1 → stops n x1 y → stops (S n) x y
  | StopsCaller n p x y : in_stop x → caller_step (pool x) p → stops n (set_pool p x) y → stops n x y.

(** Each of those [n] steps uses up some of this. *)
Definition stop_work (w : @worker T) : nat :=
  match w with WTest => 1 | WRun _ => 2 | WTake | WCall _ _ => 3 | WWait | WExited => 0 end.
Definition not_entered (b : bool) : nat := if b then 0 else 1.
Definition stop_left x : nat :=
  sum_list_with stop_work (threads_ (pool x)) + sum_list_with not_entered (entered x) +
  match owner x with
  | OAtJoin i _ => 2 * (length (threads_ (pool x)) - i) + 1
  | OInJoin i _ => 2 * (length (threads_ (pool x)) - i)
  | _ => 0
  end.

Lemma worker_step_work i p p' : running_ p = false → worker_step i p p' →
  (sum_list_with stop_work (threads_ p') < sum_list_with stop_work (threads_ p))%nat ∧
  length (threads_ p') = length (threads_ p).
Proof.
  intros Hr Hs. destruct Hs as [w p1 p2 cs Hi E _|w w' p1 p2 Hi Hw E|task k p1 Hi _].
  - pose proof (sum_insert stop_work i _ w _ Hi) as Hs. unfold takeTask in E.
    destruct (queue_ p1) as [|task q]; [rewrite Hr in E|]; injection E as <- <-; cbn in *;
      rewrite length_insert; (split; [lia|done]).
  - pose proof (sum_insert stop_work i _ w' _ Hi) as Hs.
    destruct Hw as [->|[task ->]]; cbn in E; rewrite ?Hr in E; injection E as <- <-; cbn in *;
      rewrite length_insert; (split; [lia|done]).
  - pose proof (sum_insert stop_work i _ (WRun task) _ Hi) as Hs. cbn in *.
    rewrite length_insert. split; [lia|done].
Qed.

Lemma caller_step_idle p p' : running_ p = false → WWait ∉ threads_ p → caller_step p p' →
  threads_ p' = threads_ p.
Proof.
  intros Hr Hw Hs. destruct (caller_step_threads _ _ Hs) as [_ [(i & Hi & _)|?]]; [|done].
  destruct Hw. by eapply list_elem_of_lookup_2.
Qed.

Lemma in_stop_stopped x : life_inv x → in_stop x → running_ (pool x) = false.
Proof. intros [_ _ _ _ _ Ho]. unfold in_stop. by destruct (owner x); try done; destruct Ho. Qed.

Lemma thread_step_left x x' : life_inv x → in_stop x → thread_step x x' → (stop_left x' < stop_left x)%nat.
Proof.
  intros Hinv Hin Hs. pose proof (in_stop_stopped x Hinv Hin) as Hr. unfold in_stop in Hin. unfold stop_left.
  destruct Hs as [i x Hi|i p x Hi Hs|n x x' Hat E|x Hat _|x Hat|i dtor x x' Hat Hi E|i dtor x Hat Hi|i dtor x Hat Hi];
    try (by rewrite Hat in Hin).
  - pose proof (sum_insert not_entered i _ true _ Hi) as Hs. cbn in *. lia.
  - destruct (worker_step_work _ _ _ Hr Hs) as [Hlt Hlen]. cbn. rewrite Hlen. lia.
  - destruct (life_inv_join _ _ _ Hinv Hat Hi) as (x2 & E2 & _ & Hat2 & Hp2 & He2).
    assert (x' = x2) as -> by congruence. rewrite Hat, Hat2, Hp2, He2. lia.
  - rewrite Hat. cbn. apply lookup_lt_Some in Hi. lia.
  - rewrite Hat. destruct dtor; cbn; lia.
Qed.

Lemma caller_step_left p x : life_inv x → in_stop x → caller_step (pool x) p →
  stop_left (set_pool p x) = stop_left x.
Proof.
  intros Hinv Hin Hs. pose proof (in_stop_stopped x Hinv Hin) as Hr.
  pose proof (caller_step_idle _ _ Hr (li_awake _ Hinv Hr) Hs) as Ht. unfold stop_left. cbn. by rewrite Ht.
Qed.

Lemma in_stop_caller p x : in_stop (set_pool p x) ↔ in_stop x.
Proof. done. Qed.

(** Somebody can always move. *)
Definition no_nested x : Prop := ∀ task k, WCall task k ∉ threads_ (pool x).

Lemma in_stop_moves x : life_inv x → in_stop x → no_nested x → ∃ x', thread_step x x'.
Proof.
  intros Hinv Hin Hnn. pose proof (in_stop_stopped x Hinv Hin) as Hr. pose proof (li_awake _ Hinv Hr) as Hw.
  unfold in_stop in Hin. destruct (owner x) as [|i dtor|i dtor|] eqn:Hat; try done.
  - destruct (decide (i < length (threads_ (pool x)))%nat) as [Hi|Hi].
    + destruct (life_inv_join _ _ _ Hinv Hat Hi) as (x2 & E2 & _). exists x2. by eapply LifeJoin.
    + eexists. eapply LifeReturn; [exact Hat|lia].
  - pose proof (li_owner _ Hinv) as Ho. rewrite Hat in Ho. destruct Ho as (_ & Hi & _).
    destruct (lookup_lt_is_Some_2 (threads_ (pool x)) i Hi) as [w Hwi].
    destruct (lookup_lt_is_Some_2 (entered x) i) as [b Hb]; [by rewrite (li_entered _ Hinv)|].
    destruct b; [|eexists; by eapply (LifeInit i)].
    destruct w as [| | |task|task k|].
    + eexists. eapply (LifeWorker i); [done|]. eapply WorkerWorks; [exact Hwi|by left|reflexivity].
    + destruct (takeTask (pool x)) as [w p1] eqn:E.
      destruct (decide (queue_ (pool x) ≠ [] ∧ 0 < maxQueueSize_ (pool x))) as [Hd|Hd].
      * destruct (notify_caller_total (callers (pool x))) as [cs Hcs].
        eexists. eapply (LifeWorker i); [done|]. eapply (WorkerTakes i w _ p1 cs); [done|done|]. by rewrite decide_True.
      * eexists. eapply (LifeWorker i); [done|]. eapply (WorkerTakes i w _ p1); [done|done|]. by rewrite decide_False.
    + destruct Hw. by eapply list_elem_of_lookup_2.
    + eexists. eapply (LifeWorker i); [done|]. eapply WorkerWorks; [exact Hwi|right; by eexists|reflexivity].
    + destruct (Hnn task k). by eapply list_elem_of_lookup_2.
    + eexists. by eapply LifeJoined.
Qed.

(** Only a task's call puts a worker there. *)
Lemma caller_step_nested p p' : caller_step p p' → ∀ task k, WCall task k ∈ threads_ p' → WCall task k ∈ threads_ p.
Proof.
  intros Hs task k. destruct (proj2 (caller_step_threads _ _ Hs)) as [(i & _ & ->)| ->]; [|done].
  by intros [[=]|?]%elem_of_changed.
Qed.

Lemma worker_step_nested i p p' : worker_step i p p' → ∀ task k, WCall task k ∈ threads_ p' → WCall task k ∈ threads_ p.
Proof.
  assert (∀ p p' : ThreadPool, acts p p' → ∀ task k, WCall task k ∈ threads_ p' → WCall task k ∈ threads_ p) as H
    by (intros p1 p2 Ha; apply (acts_keeps _ _ Ha)).
  intros []; apply H; [by eapply StepTake|by eapply StepWork|by eapply StepBack].
Qed.

Lemma thread_step_nested x x' : in_stop x → no_nested x → thread_step x x' → no_nested x'.
Proof.
  unfold in_stop. intros Hin Hn Hs.
  destruct Hs as [i x Hi|i p x Hi Hs|n x x' Hat E|x Hat _|x Hat|i dtor x x' Hat Hi E|i dtor x Hat Hi|i dtor x Hat Hi];
    try done; try (by rewrite Hat in Hin).
  - intros task k Hk. by apply (Hn task k), (worker_step_nested _ _ _ Hs).
  - unfold join_thread in E. inv_ok. by subst x'.
Qed.

Lemma stops_nested n x y : stops n x y → no_nested x → no_nested y.
Proof.
  induction 1 as [x|n x x1 y Hin Hs _ IH|n p x y Hin Hs _ IH]; [done|..]; intros Hn; apply IH.
  - by eapply thread_step_nested.
  - intros task k Hk. by apply (Hn task k), (caller_step_nested _ _ Hs).
Qed.

Lemma stops_inv n x y : life_inv x → stops n x y → life_inv y.
Proof.
  intros Hinv Hs. induction Hs as [x|n x x1 y Hin Hs _ IH|n p x y Hin Hs _ IH]; [done|..]; apply IH.
  - by eapply pool_thread_inv.
  - by apply life_inv_caller.
Qed.

Lemma stops_left n x y : life_inv x → stops n x y → (n + stop_left y ≤ stop_left x)%nat.
Proof.
  intros Hinv Hs. induction Hs as [x|n x x1 y Hin Hs Hrest IH|n p x y Hin Hs Hrest IH]; [lia|..].
  - pose proof (thread_step_left _ _ Hinv Hin Hs). specialize (IH (pool_thread_inv _ _ Hinv Hs)). lia.
  - rewrite <-(caller_step_left p x Hinv Hin Hs). apply IH. by apply life_inv_caller.
Qed.

(** What holds once it has returned. *)
Definition all_joined x : Prop :=
  running_ (pool x) = false ∧ (∀ w, w ∈ threads_ (pool x) → w = WExited) ∧
  length (joined x) = length (threads_ (pool x)) ∧ (∀ b, b ∈ joined x → b = true).

Lemma joined_all x : life_inv x → running_ (pool x) = false →
  joined_upto (length (threads_ (pool x))) (length (threads_ (pool x))) x → all_joined x.
Proof.
  intros Hinv Hr [Hex Hjo]. split_and!; [done| |apply Hinv|].
  - intros w (j & Hj)%list_elem_of_lookup. pose proof (Hex j (lookup_lt_Some _ _ _ Hj)). congruence.
  - intros b (j & Hj)%list_elem_of_lookup. rewrite (Hjo _ _ Hj). apply bool_decide_true.
    rewrite <-(li_joined _ Hinv). by eapply lookup_lt_Some.
Qed.

Lemma thread_step_running x x' : in_stop x → running_ (pool x) = false → thread_step x x' →
  running_ (pool x') = false.
Proof.
  unfold in_stop. intros Hin Hr Hs.
  destruct Hs as [i x Hi|i p x Hi Hs|n x x' Hat E|x Hat _|x Hat|i dtor x x' Hat Hi E|i dtor x Hat Hi|i dtor x Hat Hi];
    try done; try (by rewrite Hat in Hin).
  - cbn. by rewrite (proj1 (worker_step_threads _ _ _ Hs)).
  - unfold join_thread in E. inv_ok. by subst x'.
Qed.

Lemma stops_running n x y : stops n x y → running_ (pool x) = false → running_ (pool y) = false.
Proof.
  induction 1 as [x|n x x1 y Hin Hs _ IH|n p x y Hin Hs _ IH]; [done|..]; intros Hr; apply IH.
  - by eapply thread_step_running.
  - cbn. by rewrite (proj1 (caller_step_threads _ _ Hs)).
Qed.

Lemma stops_snoc n x y y' : stops n x y → in_stop y → thread_step y y' → stops (S n) x y'.
Proof.
  intros Hs Hin Ht. induction Hs as [x|n x x1 y Hi Hs' _ IH|n p x y Hi Hs' _ IH].
  - eapply StopsThread; [done|exact Ht|apply StopsDone].
  - eapply StopsThread; [done|exact Hs'|by apply IH].
  - eapply StopsCaller; [done|exact Hs'|by apply IH].
Qed.

Lemma stop_ends k n x y : life_inv x → no_nested x → (stop_left y ≤ k)%nat → stops n x y →
  ∃ n y, stops n x y ∧ ¬ in_stop y.
Proof.
  intros Hinv Hnn. revert n y. induction k as [|k IH]; intros n y Hk Hs;
    (destruct (decide (in_stop y)) as [Hy|Hy]; [|by exists n, y]);
    pose proof (stops_inv _ _ _ Hinv Hs) as Hiy; destruct (in_stop_moves y Hiy Hy (stops_nested _ _ _ Hs Hnn)) as [y' Hs'];
    pose proof (thread_step_left _ _ Hiy Hy Hs'); [lia|].
  apply (IH (S n) y'); [lia|by eapply stops_snoc].
Qed.

(** ** Properties *)

(** C30: [stop], also when the destructor calls it, returns, if no task is inside a
    call of [run] on the pool and none makes one any more (a worker whose task waits
    there for a full queue is never joined: [nested_run_hangs_stop]).  From wherever
    in it the owner is, with the workers, any number of calls of [run] by other
    threads and spurious wake-ups in any interleaving, the pool's threads and the
    owner take at most [stop_left] steps; as long as the owner has not returned one of them can take a step, so
    no join waits for ever; and when it has returned every worker has left
    [runInThread] and every thread was joined once. *)
Theorem pool_stop_returns m cb x :
  rtc life_step (life_ctor m cb) x → in_stop x → no_nested x →
  (∀ n y, stops n x y → (n ≤ stop_left x)%nat) ∧
  (∀ n y, stops n x y → in_stop y → ∃ y', thread_step y y') ∧
  (∃ n y, stops n x y ∧ ¬ in_stop y) ∧
  (∀ n y, stops n x y → ¬ in_stop y → all_joined y).
Proof.
  intros Hrtc Hin Hnn. pose proof (life_reachable _ _ _ Hrtc) as Hinv. split_and!.
  - intros n y Hs. pose proof (stops_left _ _ _ Hinv Hs). lia.
  - intros n y Hs Hy. apply in_stop_moves; [by eapply stops_inv|done|by eapply stops_nested].
  - apply (stop_ends (stop_left x) 0 x x); [done|done|lia|apply StopsDone].
  - intros n y Hs Hy. pose proof (stops_inv _ _ _ Hinv Hs) as Hiy.
    pose proof (stops_running _ _ _ Hs (in_stop_stopped x Hinv Hin)) as Hr.
    apply joined_all; [done|done|]. pose proof (li_owner _ Hiy) as Ho. unfold in_stop in Hy. rewrite Hr in Ho.
    destruct (owner y); try done; [by destruct Hy..|apply Ho].
Qed.

(** A pool whose worker is stuck in a call of [run], with its owner inside [stop]. *)
Definition hung (a b c : T) x : Prop :=
  jammed (WCall a 2) 2 b c (pool x) ∧ ∃ dtor, owner x = OAtJoin 0 dtor ∨ owner x = OInJoin 0 dtor.

Lemma hung_step a b c x x' : hung a b c x → life_step x x' → hung a b c x'.
Proof.
  intros [Hst (dtor & Ho)] Hs. pose proof Hst as (_ & _ & Ht & _).
  assert (∀ p, pool_step (pool x) p → hung a b c (set_pool p x)) as Hpool.
  { intros p Hp. split; [|by exists dtor]. eapply jammed_step; [right; by eexists|done|exact Hp]. }
  destruct Hs as [x x' Hs|p x _ Hs|i p x _ Hs].
  - destruct Hs as [i x Hi|i p x Hi Hs|n x x' Hat E|x Hat Hr|x Hat|i d x x' Hat Hi E|i d x Hat Hi|i d x Hat Hi];
      try (by destruct Ho; congruence).
    + split; [done|by exists dtor].
    + by apply Hpool, (worker_pool_step i).
    + assert (i = 0%nat) as -> by (destruct Ho; congruence). unfold join_thread in E. inv_ok. subst x'.
      split; [done|]. exists d. by right.
    + rewrite Ht in Hi. destruct i; [done|]. by destruct i.
    + rewrite Ht in Hi. cbn in Hi. assert (i = 0%nat) as -> by (destruct Ho; congruence). lia.
  - by apply Hpool, caller_pool_step.
  - by apply Hpool, (nest_pool_step i).
Qed.

(** [stop] can wait for ever: for a worker whose task has called [run] and waits
    there, because the queue is full and nobody is left to make room. *)
Theorem nested_run_hangs_stop cb (a b c : T) :
  ∃ x, rtc life_step (life_ctor 1 cb) x ∧ in_stop x ∧ ∀ y, rtc life_step x y → in_stop y.
Proof.
  exists (mkLife (mkPool 1 false [c] [WCall a 2] [CDone; CDone; CTry b] true [a; c] [a] []) cb [true]
    (if cb then 1 else 0)%nat [false] (OAtJoin 0 false)). split_and!; [|done|].
  - eapply rtc_l; [apply LifeThread; by eapply (LifeStart 1)|].
    eapply rtc_l; [apply LifeThread; by eapply (LifeInit 0)|]. cbn.
    eapply rtc_l; [apply LifeCaller; [done|]; apply (CallerCalls a)|]. cbn.
    eapply rtc_l; [apply LifeCaller; [done|]; eapply (CallerRuns 0%nat a CDone _ _ [WTest]); [done|reflexivity|]|].
    { cbn. right. split; [|done]. by intros [[=]|[]%not_elem_of_nil]%elem_of_cons. }
    cbn. eapply rtc_l; [apply LifeThread; eapply (LifeWorker 0); [done|];
      eapply (WorkerWorks 0%nat WTest WTake); [done|by left|reflexivity]|].
    cbn. eapply rtc_l; [apply LifeThread; eapply (LifeWorker 0); [done|];
      eapply (WorkerTakes 0%nat (WRun a) _ _ [CDone]); [done|reflexivity|]|].
    { cbn. right. split; [|done]. by intros t [[=]|[]%not_elem_of_nil]%elem_of_cons. }
    cbn. eapply rtc_l; [apply LifeCaller; [done|]; apply (CallerCalls c)|].
    cbn. eapply rtc_l; [apply LifeCaller; [done|]; eapply (CallerRuns 1%nat c CDone _ _ [WRun a]); [done|reflexivity|]|].
    { cbn. right. split; [|done]. by intros [[=]|[]%not_elem_of_nil]%elem_of_cons. }
    cbn. eapply rtc_l; [eapply (LifeNest 0); [reflexivity|eapply (TaskCalls 0%nat a b); reflexivity]|].
    cbn. eapply rtc_l; [apply LifeThread, LifeStop; reflexivity|]. destruct cb; apply rtc_refl.
  - intros y Hrtc. apply (rtc_invariant life_step (hung a b c)) in Hrtc.
    + destruct Hrtc as [_ (dtor & Ho)]. unfold in_stop. by destruct Ho as [->| ->].
    + intros x1 x2. apply hung_step.
    + split; [|by exists false; left]. split_and!; try done. exists (CTry b). split; [done|by left].
Qed.

(** A pool that has had threads is stopped once and for all: a second [stop]
    trips the assertion of [Thread::join], and [start] its own. *)
Theorem second_stop_aborts m cb x n :
  rtc life_step (life_ctor m cb) x → owner x = OIdle → running_ (pool x) = false → threads_ (pool x) ≠ [] →
  join_thread 0 false (begin_stop false x) = Fail AssertFailure ∧ life_start n x = Fail AssertFailure.
Proof.
  intros Hrtc Hat Hr Ht. pose proof (life_reachable _ _ _ Hrtc) as Hinv.
  pose proof (li_owner _ Hinv) as Ho. rewrite Hat, Hr in Ho. destruct Ho as [_ Hjo]. split.
  - destruct (lookup_lt_is_Some_2 (joined x) 0%nat) as [b Hb].
    { rewrite (li_joined _ Hinv). destruct (threads_ (pool x)); [done|]. simpl. lia. }
    unfold join_thread. cbn. rewrite Hb. cbn. rewrite (Hjo _ _ Hb).
    destruct (threads_ (pool x)); [done|]. by rewrite bool_decide_true by (simpl; lia).
  - unfold life_start, start. destruct (threads_ (pool x)); [done|]. done.
Qed.
End PoolLife.

(** *** A pool of two workers that is stopped before they have begun *)
Definition demo_stopping : PoolLife (T := nat) :=
  begin_stop false (from_ok (life_ctor 1 true) (life_start 2 (life_ctor 1 true))).

Lemma demo_stopping_reachable : rtc life_step (life_ctor 1 true) demo_stopping.
Proof.
  eapply rtc_l; [apply LifeThread; by eapply (LifeStart 2)|].
  eapply rtc_l; [apply LifeThread; by apply LifeStop|]. apply rtc_refl.
Qed.

Lemma pool_stop_returns_witness :
  stop_left demo_stopping = 9%nat ∧ ∃ n y, stops n demo_stopping y ∧ ¬ in_stop y.
Proof.
  split; [by vm_compute|]. apply (pool_stop_returns 1 true demo_stopping demo_stopping_reachable); [done|].
  intros task k Hin. vm_compute in Hin. repeat (apply elem_of_cons in Hin as [[=]|Hin]).
  by apply not_elem_of_nil in Hin.
Defined.
