(* ===== verification/Connector.v ===== *)
(** [kaycc::net::Connector] ([src/net/connector.h], [src/net/connector.cpp]).

    The connector owns a socket while it tries to connect; [sockets] is the set
    of descriptors it is responsible for, so that leaks and double closes show.
    What socket(2), connect(2), SO_ERROR and the self-connect test answer is part
    of each operation.  Functors and timers it leaves with the loop are kept in
    [pending] and [timers]; [delays] logs the delay of every retry since the last
    fresh start. *)
From stdpp Require Import list gmap.
From S2P Require Import Prelude Channel Poller Sockets.

Inductive States := kDisconnected | kConnecting | kConnected.
#[export] Instance States_eq_dec : EqDecision States.
Proof. solve_decision. Defined.

(** The callbacks [connecting] binds into the channel. *)
Inductive conn_handler := OnWrite | OnError.

(** What the connector hands to its loop. *)
Inductive conn_functor := FStartInLoop | FStopInLoop | FResetChannel.
#[export] Instance conn_functor_eq_dec : EqDecision conn_functor.
Proof. solve_decision. Defined.

Definition kMaxRetryDelayMs : Z := 30 * 1000.
Definition kInitRetryDelayMs : Z := 500.

(** [C] is what stands for the channel: here the [Channel] itself; ConnectorLoop.v
    keeps the address of one. *)
Record Connector (C : Type) := mkConnector {
  connect_ : bool;
  state_ : States;
  channel_ : option C;
  retryDelayMs_ : Z;
  pending : list conn_functor;
  timers : nat;              (* startInLoop timers that have not fired *)
  delays : list Z;
  sockets : gset Z;
  delivered : list Z;        (* descriptors given to newConnectionCallback_ *)
  order : list (conn_functor + Z)   (* functors queued and descriptors given, in order *)
}.
Arguments mkConnector {C}. Arguments connect_ {C}. Arguments state_ {C}. Arguments channel_ {C}.
Arguments retryDelayMs_ {C}. Arguments pending {C}. Arguments timers {C}. Arguments delays {C}.
Arguments sockets {C}. Arguments delivered {C}. Arguments order {C}.

Section Fields.
Context {C : Type}.
Implicit Types c : Connector C.

Definition Connector_ctor : Connector C :=
  mkConnector false kDisconnected None kInitRetryDelayMs [] 0 [] ∅ [] [].

Definition set_connect b c := mkConnector b (state_ c) (channel_ c) (retryDelayMs_ c) (pending c)
  (timers c) (delays c) (sockets c) (delivered c) (order c).
Definition setState s c := mkConnector (connect_ c) s (channel_ c) (retryDelayMs_ c) (pending c)
  (timers c) (delays c) (sockets c) (delivered c) (order c).
Definition set_channel {D} (ch : option D) c := mkConnector (connect_ c) (state_ c) ch (retryDelayMs_ c)
  (pending c) (timers c) (delays c) (sockets c) (delivered c) (order c).
Definition set_pending q c := mkConnector (connect_ c) (state_ c) (channel_ c) (retryDelayMs_ c) q
  (timers c) (delays c) (sockets c) (delivered c) (order c).
Definition set_timers n c := mkConnector (connect_ c) (state_ c) (channel_ c) (retryDelayMs_ c)
  (pending c) n (delays c) (sockets c) (delivered c) (order c).
Definition set_delay d ds c := mkConnector (connect_ c) (state_ c) (channel_ c) d (pending c)
  (timers c) ds (sockets c) (delivered c) (order c).
Definition set_sockets s c := mkConnector (connect_ c) (state_ c) (channel_ c) (retryDelayMs_ c)
  (pending c) (timers c) (delays c) s (delivered c) (order c).
Definition deliver fd c := mkConnector (connect_ c) (state_ c) (channel_ c) (retryDelayMs_ c)
  (pending c) (timers c) (delays c) (sockets c ∖ {[ fd ]}) (delivered c ++ [fd]) (order c ++ [inr fd]).
Definition queueInLoop f c := mkConnector (connect_ c) (state_ c) (channel_ c) (retryDelayMs_ c)
  (pending c ++ [f]) (timers c) (delays c) (sockets c) (delivered c) (order c ++ [inl f]).

(** [sockets::close]; closing a descriptor one does not own is a bug. *)
Definition close (sockfd : Z) c : outcome (Connector C) :=
  if decide (sockfd ∈ sockets c) then Ok (set_sockets (sockets c ∖ {[ sockfd ]}) c) else Fail UB.

(** The retry delay is in milliseconds, the timer's in seconds; the timer holds a
    reference to the connector. *)
Definition retry (sockfd : Z) c : outcome (Connector C) :=
  c ← close sockfd c;
  let c := setState kDisconnected c in
  if connect_ c then
    Ok (set_delay (Z.min (retryDelayMs_ c * 2) kMaxRetryDelayMs) (delays c ++ [retryDelayMs_ c])
          (set_timers (S (timers c)) c))
  else Ok c.

(** Nothing under way, nothing to come and nothing to clean up. *)
Definition idle c : Prop := state_ c ≠ kConnecting ∧ timers c = 0%nat ∧ channel_ c = None.

Definition stop c : Connector C := queueInLoop FStopInLoop (set_connect false c).

Definition Connector_dtor c : outcome unit := assert_ (bool_decide (channel_ c = None)).
End Fields.

(** The three kinds of cases of [connect]'s switch. *)
Inductive connect_result := GoConnecting | GoRetry | GoClose.
Definition classify (savedErrno : Z) : connect_result :=
  if bool_decide (savedErrno ∈ [0; EINPROGRESS; EINTR; EISCONN]) then GoConnecting
  else if bool_decide (savedErrno ∈ [EAGAIN; EADDRINUSE; EADDRNOTAVAIL; ECONNREFUSED; ENETUNREACH])
  then GoRetry
  else if bool_decide (savedErrno ∈ [EACCES; EPERM; EAFNOSUPPORT; EALREADY; EBADF; EFAULT; ENOTSOCK])
  then GoClose
  else GoClose.

Implicit Types c : Connector (Channel conn_handler).

(** [setState(kConnecting)], the assertion, the new channel and its
    [enableWriting]. *)
Definition connecting (loop sockfd : Z) c : outcome (Connector (Channel conn_handler)) :=
  let c := setState kConnecting c in
  assert! bool_decide (channel_ c = None);;
  let ch := setErrorCallback OnError (setWriteCallback OnWrite (Channel_ctor loop sockfd)) in
  Ok (set_channel (Some (set_addedToLoop true (or_write ch))) c).

Definition removeAndResetChannel c : outcome (Z * Connector (Channel conn_handler)) :=
  match channel_ c with
  | None => Fail UB
  | Some ch =>
    let ch := set_addedToLoop true (clear_all ch) in
    assert! isNoneEvent ch;;
    let ch := set_addedToLoop false ch in
    Ok (fd_ ch, queueInLoop FResetChannel (set_channel (Some ch) c))
  end.

(** The scoped pointer deletes the channel, whose destructor asserts. *)
Definition resetChannel c : outcome (Connector (Channel conn_handler)) :=
  match channel_ c with
  | None => Ok c
  | Some ch =>
    assert! negb (eventHandling_ ch);;
    assert! negb (addedToLoop_ ch);;
    Ok (set_channel None c)
  end.

Section Operations.
(** The loop's address, and the answers to one operation: the descriptor
    socket(2) returns and connect(2)'s errno (0 for success). *)
Variable loop : Z.

Definition connect (sockfd savedErrno : Z) c : outcome (Connector (Channel conn_handler)) :=
  let c := set_sockets ({[ sockfd ]} ∪ sockets c) c in
  match classify savedErrno with
  | GoConnecting => connecting loop sockfd c
  | GoRetry => retry sockfd c
  | GoClose => close sockfd c
  end.

Definition startInLoop (in_loop : bool) (sockfd savedErrno : Z) c : outcome (Connector (Channel conn_handler)) :=
  _ ← assertInLoopThread in_loop;
  assert! bool_decide (state_ c = kDisconnected);;
  if connect_ c then connect sockfd savedErrno c else Ok c.

Definition start (in_loop : bool) (sockfd savedErrno : Z) c : outcome (Connector (Channel conn_handler)) :=
  let c := set_connect true c in
  if in_loop then startInLoop in_loop sockfd savedErrno c else Ok (queueInLoop FStartInLoop c).

Definition stopInLoop (in_loop : bool) c : outcome (Connector (Channel conn_handler)) :=
  _ ← assertInLoopThread in_loop;
  if bool_decide (state_ c = kConnecting) then
    let c := setState kDisconnected c in
    '(sockfd, c) ← removeAndResetChannel c;
    retry sockfd c
  else Ok c.

Definition restart (in_loop : bool) (sockfd savedErrno : Z) c : outcome (Connector (Channel conn_handler)) :=
  _ ← assertInLoopThread in_loop;
  let c := set_connect true (set_delay kInitRetryDelayMs [] (setState kDisconnected c)) in
  startInLoop in_loop sockfd savedErrno c.

(** [err]: SO_ERROR; [self]: [sockets::isSelfConnect]. *)
Definition handleWrite (err : Z) (self : bool) c : outcome (Connector (Channel conn_handler)) :=
  if bool_decide (state_ c = kConnecting) then
    '(sockfd, c) ← removeAndResetChannel c;
    if negb (err =? 0) then retry sockfd c
    else if self then retry sockfd c
    else
      let c := setState kConnected c in
      if connect_ c then Ok (deliver sockfd c) else close sockfd c
  else assert! bool_decide (state_ c = kDisconnected);; Ok c.

Definition handleError c : outcome (Connector (Channel conn_handler)) :=
  if bool_decide (state_ c = kConnecting) then
    '(sockfd, c) ← removeAndResetChannel c; retry sockfd c
  else Ok c.

(** [Channel::handleEvent] with the two callbacks the connector sets. *)
Definition handle_event (revents err : Z) (self : bool) c : outcome (Connector (Channel conn_handler)) :=
  c ← (if error_test revents then handleError c else Ok c);
  if write_test revents then handleWrite err self c else Ok c.

(** What can happen to a connector; the loop's thread runs everything but
    [CStop]. *)
Inductive connector_op :=
  | CStart (sockfd errno : Z)
  | CStop
  | CRestart (sockfd errno : Z)
  | CEvent (revents err : Z) (self : bool)   (* an event of its channel *)
  | CFunctor (sockfd errno : Z)         (* the oldest functor runs *)
  | CTimer (sockfd errno : Z).          (* a retry timer fires *)

Definition run_op (o : connector_op) c : outcome (Connector (Channel conn_handler)) :=
  match o with
  | CStart sockfd errno => start true sockfd errno c
  | CStop => Ok (stop c)
  | CRestart sockfd errno => restart true sockfd errno c
  | CEvent revents err self => handle_event revents err self c
  | CFunctor sockfd errno =>
    match pending c with
    | [] => Ok c
    | f :: q =>
      let c := set_pending q c in
      match f with
      | FStartInLoop => startInLoop true sockfd errno c
      | FStopInLoop => stopInLoop true c
      | FResetChannel => resetChannel c
      end
    end
  | CTimer sockfd errno => startInLoop true sockfd errno (set_timers (pred (timers c)) c)
  end.

(** What is asked of the owner, the kernel and the loop: a fresh start only when
    no attempt is under way, waiting for its timer or being cleaned up; events
    only of a channel that watches something; and the functors an iteration
    queued run before a timer set in it (500 ms at least) fires. *)
Definition op_ok (o : connector_op) c : Prop :=
  match o with
  | CStart _ _ => idle c ∧ state_ c = kDisconnected
  | CStop | CFunctor _ _ => True
  | CRestart _ _ => idle c
  | CEvent _ _ _ => ∃ ch, channel_ c = Some ch ∧ events_ ch ≠ 0
  | CTimer _ _ => (0 < timers c)%nat ∧ (FResetChannel ∉ pending c)
  end.

Definition connector_step c c' : Prop := ∃ o, op_ok o c ∧ run_op o c = Ok c'.

(** ** The invariant *)
Definition backoff (k : nat) : Z := Z.min (kInitRetryDelayMs * 2 ^ Z.of_nat k) kMaxRetryDelayMs.

Lemma backoff_succ k : Z.min (backoff k * 2) kMaxRetryDelayMs = backoff (S k).
Proof.
  unfold backoff, kInitRetryDelayMs, kMaxRetryDelayMs.
  rewrite Nat2Z.inj_succ, Z.pow_succ_r by lia. lia.
Qed.

Definition backs_off c : Prop :=
  retryDelayMs_ c = backoff (length (delays c)) ∧ ∀ k d, delays c !! k = Some d → d = backoff k.

(** The channel as [connecting] leaves it, and after [remove]. *)
Definition watching (ch : Channel conn_handler) : Prop :=
  eventHandling_ ch = false ∧ addedToLoop_ ch = true ∧ events_ ch = POLLOUT.
Definition removed (ch : Channel conn_handler) : Prop :=
  eventHandling_ ch = false ∧ addedToLoop_ ch = false ∧ events_ ch = 0.

Definition cleaning c : Prop :=
  (channel_ c = None ∧ (FResetChannel ∉ pending c)) ∨
  (∃ ch q1 q2, channel_ c = Some ch ∧ removed ch ∧ pending c = q1 ++ FResetChannel :: q2 ∧
     (FResetChannel ∉ q1 ++ q2)).

Record inv c : Prop := {
  inv_state :
    match state_ c with
    | kConnecting => timers c = 0%nat ∧ (FResetChannel ∉ pending c) ∧
                     ∃ ch, channel_ c = Some ch ∧ watching ch ∧ sockets c = {[ fd_ ch ]}
    | kDisconnected => (timers c ≤ 1)%nat ∧ sockets c = ∅ ∧ cleaning c
    | kConnected => timers c = 0%nat ∧ sockets c = ∅ ∧ cleaning c
    end;
  inv_start : FStartInLoop ∉ pending c;
  inv_delays : backs_off c
}.

Lemma inv_ctor : inv Connector_ctor.
Proof.
  constructor; simpl.
  - split_and!; [lia|done|]. left. split; [done|apply not_elem_of_nil].
  - apply not_elem_of_nil.
  - by split.
Qed.

(** An idle connector, seen through its fields. *)
Definition clean c : Prop :=
  timers c = 0%nat ∧ sockets c = ∅ ∧ channel_ c = None ∧ (FResetChannel ∉ pending c) ∧
  (FStartInLoop ∉ pending c) ∧ backs_off c.

Lemma close_own sockfd c : sockets c = {[ sockfd ]} → close sockfd c = Ok (set_sockets ∅ c).
Proof.
  intros E. unfold close. rewrite decide_True by (rewrite E; by apply elem_of_singleton).
  by rewrite E, difference_diag_L.
Qed.

(** [retry] gives up the socket, and sets the timer if it is to connect. *)
Lemma retry_inv sockfd c :
  sockets c = {[ sockfd ]} → timers c = 0%nat → cleaning c → (FStartInLoop ∉ pending c) → backs_off c →
  ∃ c', retry sockfd c = Ok c' ∧ inv c'.
Proof.
  intros Hs Ht Hc Hp [Hr Hd]. unfold retry. rewrite (close_own _ _ Hs). cbn [mbind outcome_bind].
  cbn [connect_ setState set_sockets]. destruct (connect_ c); eexists; (split; [done|]).
  - constructor; cbn; [|done|].
    + rewrite Ht. by split_and!.
    + split; cbn.
      * rewrite Hr, backoff_succ, length_app. simpl. f_equal. lia.
      * intros k d. rewrite lookup_app. destruct (delays c !! k) eqn:E; [by intros [= <-]; apply Hd|].
        apply lookup_ge_None in E. destruct (decide (k = length (delays c))) as [->|].
        { rewrite Nat.sub_diag. intros [= <-]. done. }
        rewrite list_lookup_singleton. by destruct (k - length (delays c))%nat eqn:E'; [lia|].
  - constructor; cbn; [|done|done]. split_and!; [lia|done|done].
Qed.

Lemma startInLoop_inv sockfd errno c :
  clean c → state_ c = kDisconnected → ∃ c', startInLoop true sockfd errno c = Ok c' ∧ inv c'.
Proof.
  intros (Ht & Hs & Hc & Hp & Hp' & Hb) Hst. unfold startInLoop. cbn [mbind outcome_bind assertInLoopThread].
  rewrite bool_decide_true by done. cbn [assert_ mbind outcome_bind].
  destruct (connect_ c).
  2:{ exists c. split; [done|]. constructor; [|done..]. rewrite Hst. split_and!; [lia|done|by left]. }
  unfold connect. set (c1 := set_sockets _ c).
  assert (sockets c1 = {[ sockfd ]}) as Hs1 by (cbn; rewrite Hs; by rewrite union_empty_r_L).
  destruct (classify errno).
  - unfold connecting. cbn [channel_ setState c1 set_sockets]. rewrite Hc.
    eexists. split; [done|]. constructor; cbn; [|done..]. split_and!; [done..|]. by eexists.
  - apply retry_inv; try done. by left.
  - rewrite (close_own _ _ Hs1). eexists. split; [done|].
    constructor; cbn; [|done..]. rewrite Hst. split_and!; [lia|done|by left].
Qed.

(** From [kConnecting], the channel is taken out and its deletion queued. *)
Lemma removeAndResetChannel_ok c : inv c → state_ c = kConnecting →
  ∃ sockfd c', (∀ s, removeAndResetChannel (setState s c) = Ok (sockfd, setState s c')) ∧
    sockets c' = {[ sockfd ]} ∧ timers c' = 0%nat ∧ cleaning c' ∧ (FStartInLoop ∉ pending c') ∧
    backs_off c' ∧ connect_ c' = connect_ c.
Proof.
  intros [Hi Hp Hb] Hst. rewrite Hst in Hi. destruct Hi as (Ht & Hr & ch & Hc & (He & Ha & Hev) & Hs).
  exists (fd_ ch), (queueInLoop FResetChannel (set_channel (Some (set_addedToLoop false
    (set_addedToLoop true (clear_all ch)))) c)).
  split_and!; try done.
  - intros s. unfold removeAndResetChannel. cbn [channel_ setState]. by rewrite Hc.
  - right. eexists _, (pending c), []. split_and!; try done. by rewrite app_nil_r.
  - cbn. rewrite not_elem_of_app. split; [done|]. by intros [[=]|[]%not_elem_of_nil]%elem_of_cons.
Qed.

Lemma setState_id c : setState (state_ c) c = c.
Proof. by destruct c. Qed.

Lemma handleError_inv c : inv c → ∃ c', handleError c = Ok c' ∧ inv c' ∧
  (state_ c = kConnecting → state_ c' = kDisconnected).
Proof.
  intros Hinv. unfold handleError. case_bool_decide as Hst; [|by exists c].
  destruct (removeAndResetChannel_ok c Hinv Hst) as (fd & c1 & E & ? & ? & ? & ? & ? & _).
  rewrite <-(setState_id c), Hst, E. cbn [mbind outcome_bind].
  destruct (retry_inv fd (setState kConnecting c1)) as (c2 & E2 & Hinv2); [done..|].
  exists c2. split_and!; [done..|]. intros _. unfold retry in E2.
  apply outcome_bind_ok in E2 as (c3 & _ & E3). destruct (connect_ _); by injection E3 as <-.
Qed.

Lemma handleWrite_inv err self c : inv c → state_ c ≠ kConnected →
  ∃ c', handleWrite err self c = Ok c' ∧ inv c'.
Proof.
  intros Hinv Hne. unfold handleWrite. case_bool_decide as Hst.
  - destruct (removeAndResetChannel_ok c Hinv Hst) as (fd & c1 & E & Hs & Ht & Hc & Hp & Hb & _).
    rewrite <-(setState_id c), Hst, E. cbn [mbind outcome_bind].
    destruct (negb (err =? 0)); [by apply retry_inv|]. destruct self; [by apply retry_inv|].
    cbn [connect_ setState]. destruct (connect_ c1).
    + eexists. split; [done|]. constructor; cbn; [|done..]. rewrite Hs.
      by rewrite difference_diag_L.
    + rewrite (close_own fd) by done. eexists. split; [done|]. by constructor; cbn.
  - rewrite bool_decide_true by by destruct (state_ c). by exists c.
Qed.

Lemma watched_connecting c ch : inv c → channel_ c = Some ch → events_ ch ≠ 0 → state_ c = kConnecting.
Proof.
  intros [Hi _ _] Hc He.
  assert (¬ cleaning c) as Hn.
  { intros [[? _]|(ch' & _ & _ & Hc' & (_ & _ & ?) & _)]; congruence. }
  destruct (state_ c); [|done|]; by destruct Hi as (_ & _ & ?).
Qed.

Lemma connector_event_inv revents err self c ch :
  inv c → channel_ c = Some ch → events_ ch ≠ 0 → ∃ c', handle_event revents err self c = Ok c' ∧ inv c'.
Proof.
  intros Hinv Hc He. pose proof (watched_connecting c ch Hinv Hc He) as Hst.
  unfold handle_event. destruct (error_test revents).
  - destruct (handleError_inv c Hinv) as (c1 & -> & Hinv1 & Hst1). cbn [mbind outcome_bind].
    destruct (write_test revents); [|by exists c1]. apply handleWrite_inv; [done|].
    by rewrite (Hst1 Hst).
  - cbn [mbind outcome_bind]. destruct (write_test revents); [|by exists c].
    apply handleWrite_inv; [done|]. by rewrite Hst.
Qed.

Lemma stopInLoop_inv c : inv c → ∃ c', stopInLoop true c = Ok c' ∧ inv c'.
Proof.
  intros Hinv. unfold stopInLoop. cbn [mbind outcome_bind assertInLoopThread].
  case_bool_decide as Hst; [|by exists c].
  destruct (removeAndResetChannel_ok c Hinv Hst) as (fd & c1 & E & ? & ? & ? & ? & ? & _).
  rewrite E. cbn [mbind outcome_bind]. by apply retry_inv.
Qed.

(** Taking the oldest functor out. *)
Lemma inv_popped f q c : inv c → pending c = f :: q → f ≠ FResetChannel → inv (set_pending q c).
Proof.
  intros [Hi Hp Hb] Hq Hf. rewrite Hq in *. apply not_elem_of_cons in Hp as [_ Hp].
  assert (cleaning c → cleaning (set_pending q c)) as Hclean.
  { intros [[? Hn]|(ch & q1 & q2 & ? & ? & E & Hn)].
    - left. rewrite Hq in Hn. by apply not_elem_of_cons in Hn as [_ ?].
    - right. rewrite Hq in E. destruct q1 as [|g q1]; injection E as -> ->; [done|].
      exists ch, q1, q2. rewrite <-app_comm_cons in Hn. by apply not_elem_of_cons in Hn as [_ ?]. }
  constructor; [|done..]. cbn. destruct (state_ c).
  - destruct Hi as (? & ? & ?). auto.
  - destruct Hi as (? & Hr & ?). apply not_elem_of_cons in Hr as [_ ?]. done.
  - destruct Hi as (? & ? & ?). auto.
Qed.

Lemma reset_inv q c : inv c → pending c = FResetChannel :: q →
  ∃ c', resetChannel (set_pending q c) = Ok c' ∧ inv c'.
Proof.
  intros [Hi Hp Hb] Hq.
  assert (state_ c ≠ kConnecting ∧ cleaning c) as [Hne Hc].
  { destruct (state_ c); [by destruct Hi as (_ & _ & ?)| |by destruct Hi as (_ & _ & ?)].
    destruct Hi as (_ & Hr & _). rewrite Hq in Hr. by apply not_elem_of_cons in Hr as [[] _]. }
  destruct Hc as [[_ Hr]|(ch & q1 & q2 & Hc & (He & Ha & _) & E & Hn)].
  { rewrite Hq in Hr. by apply not_elem_of_cons in Hr as [[] _]. }
  unfold resetChannel. cbn [channel_ set_pending]. rewrite Hc, He, Ha.
  rewrite Hq in *. apply not_elem_of_cons in Hp as [_ Hp].
  assert (q = q2 ∧ q1 = []) as [-> ->].
  { destruct q1 as [|g q1]; [by injection E|]. injection E as <- _.
    by apply not_elem_of_cons in Hn as [[] _]. }
  eexists. split; [done|]. constructor; [|done..]. cbn.
  assert (cleaning (set_channel None (set_pending q2 c))) as Hcl by by left.
  destruct (state_ c); [|done|]; by destruct Hi as (? & ? & _).
Qed.

Lemma cleaning_none c : cleaning c → channel_ c = None → FResetChannel ∉ pending c.
Proof. intros [[_ ?]|(ch & _ & _ & ? & _)] ?; [done|congruence]. Qed.

Lemma idle_clean c : inv c → idle c → clean c.
Proof.
  intros [Hi Hp Hb] (Hne & Ht & Hc). unfold clean.
  destruct (state_ c); [|done|]; destruct Hi as (_ & Hs & Hcl); pose proof (cleaning_none c Hcl Hc);
    by split_and!.
Qed.

Lemma cleaning_none_iff c : cleaning c → FResetChannel ∉ pending c → channel_ c = None.
Proof.
  intros [[? _]|(ch & q1 & q2 & _ & _ & E & _)] Hn; [done|]. destruct Hn. rewrite E.
  apply elem_of_app. right. apply elem_of_cons. by left.
Qed.

Lemma connector_op_inv o c : inv c → op_ok o c → ∃ c', run_op o c = Ok c' ∧ inv c'.
Proof.
  intros Hinv Hop. destruct o as [fd errno| |fd errno|revents err self|fd errno|fd errno]; simpl.
  - destruct Hop as [Hid Hst]. apply startInLoop_inv; [|done].
    destruct (idle_clean c Hinv Hid) as (? & ? & ? & ? & ? & ?). by split_and!.
  - eexists. split; [done|]. destruct Hinv as [Hi Hp Hb]. constructor; cbn; [|..|done].
    + assert (cleaning c → cleaning (stop c)) as Hc.
      { intros [[? Hn]|(ch & q1 & q2 & ? & ? & E & Hn)]; [left|right]; cbn.
        - split; [done|]. rewrite not_elem_of_app. split; [done|].
          by intros [[=]|[]%not_elem_of_nil]%elem_of_cons.
        - exists ch, q1, (q2 ++ [FStopInLoop]). split_and!; [done..| |].
          + by rewrite E, <-app_assoc.
          + rewrite app_assoc, not_elem_of_app. split; [done|].
            by intros [[=]|[]%not_elem_of_nil]%elem_of_cons. }
      destruct (state_ c); destruct Hi as (? & ? & ?); split_and!; auto.
      rewrite not_elem_of_app. split; [done|]. by intros [[=]|[]%not_elem_of_nil]%elem_of_cons.
    + rewrite not_elem_of_app. split; [done|]. by intros [[=]|[]%not_elem_of_nil]%elem_of_cons.
  - destruct (idle_clean c Hinv Hop) as (? & ? & ? & ? & ? & ?). unfold restart.
    cbn [mbind outcome_bind assertInLoopThread]. apply startInLoop_inv; [|done]. by split_and!.
  - destruct Hop as (ch & ? & ?). by eapply connector_event_inv.
  - destruct (pending c) as [|f q] eqn:Hq; [by exists c|].
    destruct f.
    + destruct Hinv as [_ Hp _]. rewrite Hq in Hp. by apply not_elem_of_cons in Hp as [[] _].
    + apply stopInLoop_inv. by eapply inv_popped.
    + by apply reset_inv.
  - destruct Hop as [Ht Hr]. pose proof Hinv as [Hi Hp Hb].
    destruct (state_ c) eqn:Hst; destruct Hi as (Ht' & Hs & Hcl); [|lia..].
    apply startInLoop_inv; [|done]. split_and!; cbn; try done; [lia|].
    by apply cleaning_none_iff.
Qed.

(** ** Who is given a socket

    Only the write event of a successful attempt delivers; [connect_] is the
    owner's wish and changes in [start], [restart] and [stop] only. *)
Definition keeps c c' : Prop := delivered c' = delivered c ∧ connect_ c' = connect_ c.

Lemma keeps_trans c1 c2 c3 : keeps c1 c2 → keeps c2 c3 → keeps c1 c3.
Proof. intros [] []. split; congruence. Qed.

Lemma close_keeps fd c c' : close fd c = Ok c' → keeps c c' ∧ state_ c' = state_ c.
Proof. unfold close. destruct (decide _); [|done]. by intros [= <-]. Qed.

Lemma retry_keeps fd c c' : retry fd c = Ok c' → keeps c c' ∧ state_ c' = kDisconnected.
Proof.
  unfold retry. intros H. inv_ok. destruct (close_keeps _ _ _ H0) as [[? ?] _].
  cbn [connect_ setState] in H. destruct (connect_ x) eqn:Ec; injection H as <-; repeat split; cbn; congruence.
Qed.

Lemma removeAndResetChannel_keeps c fd c' : removeAndResetChannel c = Ok (fd, c') →
  keeps c c' ∧ state_ c' = state_ c.
Proof.
  unfold removeAndResetChannel. destruct (channel_ c); [|done]. intros H. inv_ok. by subst.
Qed.

Lemma startInLoop_keeps fd errno c c' : startInLoop true fd errno c = Ok c' →
  keeps c c' ∧ state_ c = kDisconnected ∧ state_ c' ≠ kConnected.
Proof.
  unfold startInLoop. cbn [mbind outcome_bind assertInLoopThread]. intros H. inv_ok.
  apply bool_decide_eq_true in H0 as Hst. destruct (connect_ c) eqn:Ec.
  2:{ injection H as <-. rewrite Hst. by repeat split. }
  unfold connect in H. destruct (classify errno).
  - unfold connecting in H. inv_ok. subst c'. split; [done|]. by split.
  - destruct (retry_keeps _ _ _ H) as [[? ?] Hs]. rewrite Hs. by repeat split.
  - destruct (close_keeps _ _ _ H) as [[? ?] Hs]. split; [done|]. rewrite Hs. cbn. by rewrite Hst.
Qed.

Lemma stopInLoop_keeps c c' : stopInLoop true c = Ok c' →
  keeps c c' ∧ (state_ c ≠ kConnecting → c' = c) ∧ (state_ c = kConnecting → state_ c' = kDisconnected).
Proof.
  unfold stopInLoop. cbn [mbind outcome_bind assertInLoopThread]. case_bool_decide.
  - intros H'. inv_ok. destruct x as [fd c1]. destruct (removeAndResetChannel_keeps _ _ _ H0) as [[? ?] _].
    destruct (retry_keeps _ _ _ H') as [[? ?] ?]. split; [split; cbn in *; congruence|]. by split.
  - by intros [= <-].
Qed.

Lemma handleError_keeps c c' : handleError c = Ok c' →
  keeps c c' ∧ (state_ c = kConnecting → state_ c' = kDisconnected).
Proof.
  unfold handleError. case_bool_decide.
  - intros H'. inv_ok. destruct x as [fd c1]. destruct (removeAndResetChannel_keeps _ _ _ H0) as [[? ?] _].
    destruct (retry_keeps _ _ _ H') as [[? ?] ?]. split; [split; congruence|done].
  - by intros [= <-].
Qed.

Lemma handleWrite_delivers err self c c' : handleWrite err self c = Ok c' →
  keeps c c' ∨
  (∃ fd, delivered c' = delivered c ++ [fd] ∧ connect_ c' = connect_ c ∧ connect_ c = true ∧
     state_ c = kConnecting ∧ state_ c' = kConnected).
Proof.
  unfold handleWrite. case_bool_decide as Hst.
  - intros H'. inv_ok. destruct x as [fd c1]. destruct (removeAndResetChannel_keeps _ _ _ H) as [[? ?] _].
    destruct (negb (err =? 0)); [left; destruct (retry_keeps _ _ _ H') as [[? ?] _]; split; congruence|].
    destruct self; [left; destruct (retry_keeps _ _ _ H') as [[? ?] _]; split; congruence|].
    cbn [connect_ setState] in H'. destruct (connect_ c1) eqn:Ec.
    + right. injection H' as <-. exists fd. cbn. split_and!; congruence.
    + left. destruct (close_keeps _ _ _ H') as [[? ?] _]. cbn in *. split; congruence.
  - intros H'. inv_ok. subst. by left.
Qed.

Lemma event_delivers revents err self c c' : handle_event revents err self c = Ok c' →
  keeps c c' ∨
  (∃ fd, delivered c' = delivered c ++ [fd] ∧ connect_ c' = connect_ c ∧ connect_ c = true ∧
     state_ c = kConnecting ∧ state_ c' = kConnected).
Proof.
  unfold handle_event. intros H. apply outcome_bind_ok in H as (c1 & E1 & E2).
  destruct (error_test revents).
  - destruct (handleError_keeps _ _ E1) as [[Hd Hc] Hs].
    destruct (write_test revents); [|injection E2 as <-; left; by split].
    destruct (handleWrite_delivers _ _ _ _ E2) as [[? ?]|(fd & ? & ? & ? & Hk & ?)]; [left; split; congruence|].
    right. exists fd. split_and!; try congruence.
    unfold handleError in E1. case_bool_decide; [done|]. injection E1 as <-. done.
  - injection E1 as <-. destruct (write_test revents); [by apply handleWrite_delivers in E2|].
    injection E2 as <-. by left.
Qed.

(** [handleWrite] queues [resetChannel] before it hands the descriptor over. *)
Lemma handleWrite_order err self c c' fd : handleWrite err self c = Ok c' → delivered c' = delivered c ++ [fd] →
  order c' = order c ++ [inl FResetChannel; inr fd] ∧ pending c' = pending c ++ [FResetChannel].
Proof.
  intros E Hd.
  assert (¬ keeps c c') as Hk.
  { intros [Hk _]. rewrite Hk in Hd. apply (f_equal length) in Hd. rewrite length_app in Hd. cbn in Hd. lia. }
  unfold handleWrite in E. case_bool_decide; [|inv_ok; subst c'; by destruct Hk].
  apply outcome_bind_ok in E as ([sockfd c1] & E1 & E). destruct (removeAndResetChannel_keeps _ _ _ E1) as [Hk1 _].
  destruct (negb (err =? 0)).
  { destruct (retry_keeps _ _ _ E) as [Hk2 _]. by destruct Hk; eapply keeps_trans. }
  destruct self.
  { destruct (retry_keeps _ _ _ E) as [Hk2 _]. by destruct Hk; eapply keeps_trans. }
  cbn [connect_ setState] in E. destruct (connect_ c1).
  - injection E as <-. destruct Hk1 as [Hk1 _]. cbn in Hd. rewrite Hk1 in Hd. apply (inj (delivered c ++.)) in Hd.
    injection Hd as ->. unfold removeAndResetChannel in E1. destruct (channel_ c); [|done]. inv_ok. subst c1. cbn.
    by rewrite <-app_assoc.
  - destruct (close_keeps _ _ _ E) as [Hk2 _]. by destruct Hk; eapply (keeps_trans _ c1).
Qed.

Lemma event_order revents err self c c' fd : handle_event revents err self c = Ok c' →
  delivered c' = delivered c ++ [fd] →
  order c' = order c ++ [inl FResetChannel; inr fd] ∧ pending c' = pending c ++ [FResetChannel].
Proof.
  unfold handle_event. intros E Hd. apply outcome_bind_ok in E as (c1 & E1 & E2).
  assert (c1 = c) as ->.
  { destruct (error_test revents); [|by injection E1 as <-].
    destruct (handleError_keeps _ _ E1) as [[Hd1 _] Hs1].
    unfold handleError in E1. case_bool_decide; [|by injection E1 as <-]. exfalso.
    assert (delivered c' = delivered c) as Hsame.
    { destruct (write_test revents); [|by injection E2 as <-].
      destruct (handleWrite_delivers _ _ _ _ E2) as [[Hk _]|(? & _ & _ & _ & Hk & _)]; [congruence|].
      by rewrite Hs1 in Hk. }
    rewrite Hsame in Hd. apply (f_equal length) in Hd. rewrite length_app in Hd. cbn in Hd. lia. }
  destruct (write_test revents); [by eapply handleWrite_order|].
  injection E2 as <-. apply (f_equal length) in Hd. rewrite length_app in Hd. cbn in Hd. lia.
Qed.

(** What the owner does not call himself. *)
Definition on_its_own (o : connector_op) : Prop :=
  match o with CEvent _ _ _ | CFunctor _ _ | CTimer _ _ | CStop => True | _ => False end.

Lemma own_step_delivers o c c' : inv c → op_ok o c → on_its_own o → run_op o c = Ok c' →
  (delivered c' = delivered c ∧ (state_ c = kConnected → state_ c' = kConnected) ∧
   (connect_ c = false → connect_ c' = false)) ∨
  (∃ fd, delivered c' = delivered c ++ [fd] ∧ connect_ c = true ∧
     state_ c = kConnecting ∧ state_ c' = kConnected ∧ ∃ revents err self, o = CEvent revents err self).
Proof.
  intros Hinv Hop Ho E. destruct o as [| | |revents err self|fd errno|fd errno]; try done; cbn in E.
  - injection E as <-. by left.
  - destruct Hop as (ch & Hc & He). pose proof (watched_connecting _ _ Hinv Hc He) as Hst.
    destruct (event_delivers _ _ _ _ _ E) as [[? ?]|(fd & ? & ? & ? & ? & ?)]; [|right; exists fd; eauto 10].
    left. split_and!; [done|congruence|congruence].
  - left. destruct (pending c) as [|[] q]; [by injection E as <-|..].
    + destruct (startInLoop_keeps _ _ _ _ E) as ([? ?] & Hs & _). cbn in *. split_and!; congruence.
    + destruct (stopInLoop_keeps _ _ E) as ([? ?] & Hs & _). split_and!; [done| |cbn in *; congruence].
      intros Hst. rewrite Hs; [done|]. cbn. congruence.
    + unfold resetChannel in E. cbn [channel_ set_pending] in E.
      destruct (channel_ c); inv_ok; by subst.
  - left. destruct (startInLoop_keeps _ _ _ _ E) as ([? ?] & Hs & _). cbn in *. split_and!; congruence.
Qed.

(** ** What an operation leaves with the loop

    Functors are only appended; [resetChannel] only when an attempt is given up. *)
Definition posts c c' : Prop :=
  ∃ fs, pending c' = pending c ++ fs ∧ (FResetChannel ∈ fs → state_ c = kConnecting).

Lemma posts_same c c' : pending c' = pending c → posts c c'.
Proof. intros E. exists []. rewrite app_nil_r. split; [done|]. by intros []%not_elem_of_nil. Qed.

Lemma close_pending fd c c' : close fd c = Ok c' → pending c' = pending c.
Proof. unfold close. destruct (decide _); [|done]. by intros [= <-]. Qed.

Lemma retry_pending fd c c' : retry fd c = Ok c' → pending c' = pending c.
Proof.
  unfold retry. intros E. inv_ok. apply close_pending in H. destruct (connect_ _); by injection E as <-.
Qed.

Lemma removeAndResetChannel_pending c fd c' :
  removeAndResetChannel c = Ok (fd, c') → pending c' = pending c ++ [FResetChannel].
Proof. unfold removeAndResetChannel. destruct (channel_ c); [|done]. intros E. inv_ok. by subst. Qed.

Lemma startInLoop_pending fd errno c c' : startInLoop true fd errno c = Ok c' → pending c' = pending c.
Proof.
  unfold startInLoop. cbn [mbind outcome_bind assertInLoopThread]. intros E. inv_ok.
  destruct (connect_ c); [|by injection E as <-]. unfold connect in E. destruct (classify errno).
  - unfold connecting in E. inv_ok. by subst.
  - by apply retry_pending in E.
  - by apply close_pending in E.
Qed.

(** What gives the attempt up. *)
Lemma given_up_posts c c1 fd c' : state_ c = kConnecting → removeAndResetChannel c = Ok (fd, c1) →
  pending c' = pending c1 → posts c c'.
Proof.
  intros Hst E Hp. exists [FResetChannel]. by rewrite Hp, (removeAndResetChannel_pending _ _ _ E).
Qed.

Lemma stopInLoop_posts c c' : stopInLoop true c = Ok c' → posts c c'.
Proof.
  unfold stopInLoop. cbn [mbind outcome_bind assertInLoopThread].
  case_bool_decide; [|intros [= <-]; by apply posts_same]. intros E. inv_ok. destruct x as [fd c1].
  apply removeAndResetChannel_pending in H0. apply retry_pending in E.
  exists [FResetChannel]. by rewrite E, H0.
Qed.

Lemma handleError_posts c c' : handleError c = Ok c' → posts c c'.
Proof.
  unfold handleError. case_bool_decide; [|intros [= <-]; by apply posts_same].
  intros E. inv_ok. destruct x as [fd c1]. apply retry_pending in E. eauto using given_up_posts.
Qed.

Lemma handleWrite_posts err self c c' : handleWrite err self c = Ok c' → posts c c'.
Proof.
  unfold handleWrite. case_bool_decide.
  2:{ intros E. inv_ok. subst. by apply posts_same. }
  intros E. inv_ok. destruct x as [fd c1].
  destruct (negb (err =? 0)); [apply retry_pending in E; eauto using given_up_posts|].
  destruct self; [apply retry_pending in E; eauto using given_up_posts|].
  cbn [connect_ setState] in E. destruct (connect_ c1).
  - injection E as <-. eauto using given_up_posts.
  - apply close_pending in E. eauto using given_up_posts.
Qed.

Lemma event_posts revents err self c c' : inv c → handle_event revents err self c = Ok c' → posts c c'.
Proof.
  intros Hinv E. unfold handle_event in E. apply outcome_bind_ok in E as (c1 & E1 & E2).
  destruct (error_test revents) eqn:He; [|injection E1 as <-];
    (destruct (write_test revents); [|injection E2 as <-]).
  - destruct (handleError_inv c Hinv) as (c1' & E1' & _ & Hst). assert (c1' = c1) as -> by congruence.
    destruct (handleError_posts _ _ E1) as (fs1 & P1 & H1), (handleWrite_posts _ _ _ _ E2) as (fs2 & P2 & H2).
    exists (fs1 ++ fs2). rewrite P2, P1, app_assoc. split; [done|]. intros [?|Hr]%elem_of_app; [auto|].
    unfold handleError in E1. case_bool_decide as Hk; [done|]. injection E1 as ->. auto.
  - by apply handleError_posts.
  - by eapply handleWrite_posts.
  - by apply posts_same.
Qed.

(** The queue without the functor that runs. *)
Definition unqueued (o : connector_op) c : Connector (Channel conn_handler) :=
  match o with CFunctor _ _ => set_pending (tail (pending c)) c | _ => c end.

Lemma op_posts o c c' : inv c → run_op o c = Ok c' → posts (unqueued o c) c'.
Proof.
  intros Hinv E. destruct o as [fd errno| |fd errno|revents err self|fd errno|fd errno]; cbn [unqueued run_op] in *.
  - apply posts_same. by apply startInLoop_pending in E.
  - injection E as <-. exists [FStopInLoop]. split; [done|]. by intros ?%list_elem_of_singleton.
  - apply posts_same. by apply startInLoop_pending in E.
  - by eapply event_posts.
  - destruct (pending c) as [|f q] eqn:Hq; cbn [tail].
    { injection E as <-. by apply posts_same. }
    destruct f.
    + apply posts_same. by apply startInLoop_pending in E.
    + by apply stopInLoop_posts in E.
    + apply posts_same. unfold resetChannel in E. destruct (channel_ _); inv_ok; by subst.
  - apply posts_same. by apply startInLoop_pending in E.
Qed.

Lemma connector_reachable c : rtc connector_step Connector_ctor c → inv c.
Proof.
  intros Hrtc. apply (rtc_invariant connector_step inv) in Hrtc; [done| |apply inv_ctor].
  intros c1 c2 Hinv (o & Hop & E). destruct (connector_op_inv o c1 Hinv Hop) as (c' & E' & ?). congruence.
Qed.

(** ** Properties *)

(** A connector never trips an assertion, leaks a socket or closes one
    twice.  Whatever connect(2), the events, [stop] and the timers do, every
    operation its environment may perform succeeds; between operations the
    connector owns exactly the socket of the attempt under way, whose channel
    watches for writability, and otherwise none; and at most one retry timer is
    set. *)
Theorem connector_owns_one_socket c o :
  rtc connector_step Connector_ctor c → op_ok o c →
  (∃ c', run_op o c = Ok c') ∧ (timers c ≤ 1)%nat ∧
  match state_ c with
  | kConnecting => ∃ ch, channel_ c = Some ch ∧ events_ ch = POLLOUT ∧ sockets c = {[ fd_ ch ]}
  | _ => sockets c = ∅
  end.
Proof.
  intros Hrtc Hop. pose proof (connector_reachable c Hrtc) as Hinv.
  destruct (connector_op_inv o c Hinv Hop) as (c' & E & _). destruct Hinv as [Hi _ _].
  split_and!; [by exists c'|..].
  - destruct (state_ c); destruct Hi as (? & _); lia.
  - destruct (state_ c); destruct Hi as (? & Hs & Hc); [done| |done].
    destruct Hc as (ch & ? & (_ & _ & ?) & ?). by exists ch.
Qed.

(** C31: retries back off exponentially: since the connector was constructed or
    restarted, the k-th retry was delayed by 500 ms times 2^k, but never more
    than 30 seconds; and so the next one will be. *)
Theorem retries_back_off c :
  rtc connector_step Connector_ctor c →
  retryDelayMs_ c = Z.min (500 * 2 ^ Z.of_nat (length (delays c))) 30000 ∧
  ∀ k d, delays c !! k = Some d → d = Z.min (500 * 2 ^ Z.of_nat k) 30000.
Proof. intros Hrtc. apply (connector_reachable c Hrtc). Qed.

(** [start] aborts the process unless the connector is idle: called while an
    attempt is under way, or after a connection was made (only [restart] leaves
    [kConnected]), its own assertion fails; called while a retry timer is
    pending, it starts an attempt and the timer's [startInLoop] then fails the
    assertion. *)
Theorem start_when_not_idle_aborts c sockfd errno sockfd' errno' :
  rtc connector_step Connector_ctor c →
  (state_ c ≠ kDisconnected → run_op (CStart sockfd errno) c = Fail AssertFailure) ∧
  (state_ c = kDisconnected → (0 < timers c)%nat → FResetChannel ∉ pending c →
   classify errno = GoConnecting →
   ∃ c', run_op (CStart sockfd errno) c = Ok c' ∧
         run_op (CTimer sockfd' errno') c' = Fail AssertFailure).
Proof.
  intros Hrtc. split.
  - intros Hst. cbn. unfold start, startInLoop. cbn [mbind outcome_bind assertInLoopThread].
    by rewrite bool_decide_false by done.
  - intros Hst Ht Hr Hcl. pose proof (connector_reachable c Hrtc) as [Hi _ _]. rewrite Hst in Hi.
    destruct Hi as (_ & Hs & Hc). pose proof (cleaning_none_iff c Hc Hr) as Hn.
    cbn. unfold start, startInLoop. cbn [mbind outcome_bind assertInLoopThread].
    rewrite bool_decide_true by done. cbn [assert_ mbind outcome_bind connect_ set_connect].
    unfold connect. rewrite Hcl. unfold connecting. cbn [channel_ setState set_sockets set_connect].
    rewrite Hn. cbn. by eexists.
Qed.

(** The retry timer must not fire before [resetChannel] has run: then [connecting]
    finds the old channel and aborts.  The functor runs at the end of the
    iteration that set the timer, 500 ms or more before it is due; but if the
    timerfd became readable for another timer in that iteration, and a callback
    before it took that long, the timer fires first. *)
Theorem retry_before_reset_aborts c sockfd errno :
  rtc connector_step Connector_ctor c → state_ c = kDisconnected → connect_ c = true →
  FResetChannel ∈ pending c → classify errno = GoConnecting →
  run_op (CTimer sockfd errno) c = Fail AssertFailure.
Proof.
  intros Hrtc Hst Hcn Hr Hcl. pose proof (connector_reachable c Hrtc) as [Hi _ _]. rewrite Hst in Hi.
  destruct Hi as (_ & _ & [[_ ?]|(ch & _ & _ & Hc & _)]); [done|].
  cbn. unfold startInLoop. cbn [mbind outcome_bind assertInLoopThread state_ set_timers connect_].
  rewrite bool_decide_true, Hcn by done. cbn [assert_ mbind outcome_bind]. unfold connect. rewrite Hcl.
  unfold connecting. cbn [channel_ setState set_sockets set_timers]. by rewrite Hc.
Qed.
End Operations.

(** *** A concrete connector: the first attempt is refused. *)
Definition refused : Connector (Channel conn_handler) := from_ok Connector_ctor (run_op 1 (CStart 7 ECONNREFUSED) Connector_ctor).

Lemma refused_reachable : rtc (connector_step 1) Connector_ctor refused.
Proof.
  eapply rtc_l; [|apply rtc_refl]. exists (CStart 7 ECONNREFUSED). split; [|by vm_compute].
  split; [|done]. by split_and!.
Qed.

Lemma connector_owns_one_socket_witness :
  (∃ c', run_op 1 (CTimer 8 EINPROGRESS) refused = Ok c') ∧ (timers refused ≤ 1)%nat ∧
  sockets refused = ∅.
Proof.
  apply (connector_owns_one_socket 1 refused (CTimer 8 EINPROGRESS) refused_reachable).
  split; [vm_compute; lia|apply not_elem_of_nil].
Defined.

(** Every further attempt is refused too. *)
Definition refused_again (n : nat) : Connector (Channel conn_handler) :=
  Nat.iter n (λ c, from_ok c (run_op 1 (CTimer 7 ECONNREFUSED) c)) refused.

Lemma refused_again_reachable n : rtc (connector_step 1) Connector_ctor (refused_again n) ∧
  connect_ (refused_again n) = true ∧ state_ (refused_again n) = kDisconnected ∧
  channel_ (refused_again n) = None ∧ pending (refused_again n) = [] ∧ timers (refused_again n) = 1%nat ∧
  sockets (refused_again n) = ∅.
Proof.
  induction n as [|n (Hr & Hc & Hs & Hch & Hp & Ht & Hso)].
  { split; [exact refused_reachable|by vm_compute]. }
  set (c := refused_again n) in *.
  assert (run_op 1 (CTimer 7 ECONNREFUSED) c =
    Ok (set_delay (Z.min (retryDelayMs_ c * 2) kMaxRetryDelayMs) (delays c ++ [retryDelayMs_ c]) c)) as E.
  { destruct c. cbn in *. subst. unfold startInLoop, connect, retry, close. cbn.
    rewrite decide_True by set_solver. cbn. f_equal. }
  change (refused_again (S n)) with (from_ok c (run_op 1 (CTimer 7 ECONNREFUSED) c)). rewrite E. cbn [from_ok]. split; [|done].
  eapply rtc_r; [exact Hr|]. exists (CTimer 7 ECONNREFUSED). split; [|exact E].
  cbn. rewrite Ht, Hp. split; [lia|apply not_elem_of_nil].
Qed.

Lemma retries_back_off_witness :
  delays (refused_again 7) = [500; 1000; 2000; 4000; 8000; 16000; 30000; 30000] ∧
  retryDelayMs_ (refused_again 7) = Z.min (500 * 2 ^ Z.of_nat (length (delays (refused_again 7)))) 30000 ∧
  ∀ k d, delays (refused_again 7) !! k = Some d → d = Z.min (500 * 2 ^ Z.of_nat k) 30000.
Proof.
  split; [vm_compute; reflexivity|].
  exact (retries_back_off 1 (refused_again 7) (proj1 (refused_again_reachable 7))).
Defined.

Lemma start_when_not_idle_aborts_witness :
  ∃ c', run_op 1 (CStart 8 EINPROGRESS) refused = Ok c' ∧
        run_op 1 (CTimer 9 EINPROGRESS) c' = Fail AssertFailure.
Proof.
  apply (start_when_not_idle_aborts 1 refused 8 EINPROGRESS 9 EINPROGRESS refused_reachable);
    [reflexivity|vm_compute; lia|apply not_elem_of_nil|reflexivity].
Defined.

(** The second attempt fails in an event; its channel waits to be deleted. *)
Definition failed_again : Connector (Channel conn_handler) :=
  from_ok refused (run_op 1 (CEvent POLLERR 0 false) (from_ok refused (run_op 1 (CTimer 8 EINPROGRESS) refused))).

Lemma failed_again_reachable : rtc (connector_step 1) Connector_ctor failed_again.
Proof.
  eapply rtc_r; [eapply rtc_r; [exact refused_reachable|]|].
  - exists (CTimer 8 EINPROGRESS). split; [|by vm_compute]. split; [vm_compute; lia|apply not_elem_of_nil].
  - exists (CEvent POLLERR 0 false). split; [|by vm_compute]. eexists. split; [by vm_compute|done].
Qed.

Lemma retry_before_reset_aborts_witness :
  run_op 1 (CTimer 9 EINPROGRESS) failed_again = Fail AssertFailure.
Proof.
  apply (retry_before_reset_aborts 1 failed_again 9 EINPROGRESS failed_again_reachable);
    [reflexivity|reflexivity| |reflexivity].
  vm_compute. apply elem_of_cons. by left.
Defined.
