(* ===== verification/TcpServer.v ===== *)
(** [kaycc::net::TcpServer] ([src/net/tcpserver.h], [src/net/tcpserver.cpp]).

    The server hands work to its connections by posting functors on their loops;
    [posted] is the log of those calls, each with its loop.  What a connection
    does with them is TcpConnection.v's business: it is established once and
    calls [removeConnection] once. *)
From stdpp Require Import list gmap strings.
From S2P Require Import Prelude Timestamp Channel Poller EventLoopThreads.

(** A connection as the server sees it: [name()] and [getLoop()]. *)
Record conn_info := mkInfo { conn_name : string; conn_loop : Ptr }.

Inductive task := ConnectEstablished (conn : Ptr) | ConnectDestroyed (conn : Ptr).

Record TcpServer := mkServer {
  ipPort_ : string;
  name_ : string;
  threadPool_ : EventLoopThreadPool;
  started_ : Z;
  listenning : bool;
  nextConnId_ : Z;
  connections_ : gmap string Ptr;
  conns : gmap Ptr conn_info;      (* the TcpConnection objects made so far *)
  removing : list Ptr;             (* removeConnectionInLoop functors on loop_ *)
  posted : list (Ptr * task)
}.

Definition TcpServer_ctor (loop : Ptr) (ipPort name : string) : TcpServer :=
  mkServer ipPort name (EventLoopThreadPool_ctor loop name) 0 false 1 ∅ ∅ [] [].

Definition set_pool pool s := mkServer (ipPort_ s) (name_ s) pool (started_ s) (listenning s)
  (nextConnId_ s) (connections_ s) (conns s) (removing s) (posted s).
Definition set_removing l s := mkServer (ipPort_ s) (name_ s) (threadPool_ s) (started_ s)
  (listenning s) (nextConnId_ s) (connections_ s) (conns s) l (posted s).

Definition setThreadNum (numThreads : Z) s : outcome TcpServer :=
  assert! 0 <=? numThreads;;
  Ok (set_pool (EventLoopThreads.setThreadNum numThreads (threadPool_ s)) s).

(** The first call starts the threads and listens, on [loop_]. *)
Definition start (in_loop : bool) (startLoop : string → Ptr) (has_cb : bool) s : outcome TcpServer :=
  let '(old, now) := getAndSet 1 (started_ s) in
  let s := mkServer (ipPort_ s) (name_ s) (threadPool_ s) now (listenning s) (nextConnId_ s)
    (connections_ s) (conns s) (removing s) (posted s) in
  if old =? 0 then
    '(pool, _) ← EventLoopThreads.start in_loop startLoop has_cb (threadPool_ s);
    assert! negb (listenning s);;
    Ok (mkServer (ipPort_ s) (name_ s) pool (started_ s) true (nextConnId_ s)
      (connections_ s) (conns s) (removing s) (posted s))
  else Ok s.

(** [name_] and the 64-byte buffer. *)
Definition connection_name (name ipPort : string) (id : Z) : string :=
  name +:+ String.substring 0 63 ("-" +:+ ipPort +:+ "#" +:+ digits id).

(** [conn]: the address of the new TcpConnection. *)
Definition newConnection (in_loop : bool) (conn : Ptr) s : outcome TcpServer :=
  _ ← assertInLoopThread in_loop;
  '(ioLoop, pool) ← getNextLoop in_loop (threadPool_ s);
  let connName := connection_name (name_ s) (ipPort_ s) (nextConnId_ s) in
  if decide (nextConnId_ s < 2 ^ 31 - 1) then
    Ok (mkServer (ipPort_ s) (name_ s) pool (started_ s) (listenning s) (nextConnId_ s + 1)
      (<[connName := conn]> (connections_ s)) (<[conn := mkInfo connName ioLoop]> (conns s))
      (removing s) (posted s ++ [(ioLoop, ConnectEstablished conn)]))
  else Fail UB.

Definition removeConnectionInLoop (in_loop : bool) (conn : Ptr) s : outcome TcpServer :=
  _ ← assertInLoopThread in_loop;
  match conns s !! conn with
  | None => Fail UB
  | Some i =>
    assert! bool_decide (is_Some (connections_ s !! conn_name i));;
    Ok (mkServer (ipPort_ s) (name_ s) (threadPool_ s) (started_ s) (listenning s) (nextConnId_ s)
      (delete (conn_name i) (connections_ s)) (conns s) (removing s)
      (posted s ++ [(conn_loop i, ConnectDestroyed conn)]))
  end.

Definition removeConnection (in_loop : bool) (conn : Ptr) s : outcome TcpServer :=
  if in_loop then removeConnectionInLoop in_loop conn s
  else Ok (set_removing (removing s ++ [conn]) s).

(** The destructor's loop, over the connections in the map's order. *)
Fixpoint destroy_each (cs : list Ptr) s : outcome TcpServer :=
  match cs with
  | [] => Ok s
  | conn :: cs =>
    match conns s !! conn with
    | None => Fail UB
    | Some i => destroy_each cs (mkServer (ipPort_ s) (name_ s) (threadPool_ s) (started_ s)
        (listenning s) (nextConnId_ s) (connections_ s) (conns s) (removing s)
        (posted s ++ [(conn_loop i, ConnectDestroyed conn)]))
    end
  end.
Definition TcpServer_dtor (in_loop : bool) s : outcome TcpServer :=
  _ ← assertInLoopThread in_loop;
  destroy_each (map_to_list (connections_ s)).*2 s.

(** What happens to a started server.  [in_loop]: the connection's loop is the
    server's own. *)
Inductive server_op :=
  | NewConnection (conn : Ptr)
  | Closed (in_loop : bool) (conn : Ptr)   (* a connection's closeCallback_ *)
  | RunRemoval.                            (* loop_ runs the oldest removal *)

Definition run_op (o : server_op) s : outcome TcpServer :=
  match o with
  | NewConnection conn => newConnection true conn s
  | Closed in_loop conn => removeConnection in_loop conn s
  | RunRemoval =>
    match removing s with
    | [] => Ok s
    | conn :: l => removeConnectionInLoop true conn (set_removing l s)
    end
  end.

(** A connection the server keeps and that has not reported its end. *)
Definition live s (conn : Ptr) : Prop :=
  ∃ i, conns s !! conn = Some i ∧ connections_ s !! conn_name i = Some conn ∧ (conn ∉ removing s).

(** A new connection has an address of its own (the old objects are counted as
    taken), ids do not run out, and a connection closes once. *)
Definition op_ok (o : server_op) s : Prop :=
  match o with
  | NewConnection conn => conns s !! conn = None ∧ nextConnId_ s < 2 ^ 31 - 1
  | Closed _ conn => live s conn
  | RunRemoval => True
  end.

Definition server_step s s' : Prop := ∃ o, op_ok o s ∧ run_op o s = Ok s'.

(** ** Names *)
Lemma digits_inj n m : 0 ≤ n → 0 ≤ m → digits n = digits m → n = m.
Proof.
  intros Hn Hm E. pose proof (read_padded 0 n Hn) as H1. pose proof (read_padded 0 m Hm) as H2.
  simpl in H1, H2. rewrite E, H2 in H1. congruence.
Qed.

Lemma connection_name_inj name ipPort i j :
  (String.length ipPort ≤ 51)%nat → 0 ≤ i < 2 ^ 31 → 0 ≤ j < 2 ^ 31 →
  connection_name name ipPort i = connection_name name ipPort j → i = j.
Proof.
  intros Hl Hi Hj E. unfold connection_name in E. apply (inj (String.append name)) in E.
  assert (∀ k, 0 ≤ k < 2 ^ 31 → (String.length ("-" +:+ ipPort +:+ "#" +:+ digits k) ≤ 63)%nat) as Hk.
  { intros k Hk. pose proof (length_digits k 10 ltac:(lia) ltac:(lia)).
    rewrite !length_append. simpl. lia. }
  rewrite !substring_all in E by auto.
  apply (inj (String.append "-")) in E. apply (inj (String.append ipPort)) in E.
  apply (inj (String.append "#")) in E. apply digits_inj; [lia..|done].
Qed.

(** ** The invariant *)
Definition target (t : task) : Ptr :=
  match t with ConnectEstablished conn | ConnectDestroyed conn => conn end.
(** The calls posted for one connection, in order. *)
Definition posted_for (conn : Ptr) (l : list (Ptr * task)) : list (Ptr * task) :=
  filter (λ x, target x.2 = conn) l.
Arguments posted_for : simpl never.

Definition life (i : conn_info) (conn : Ptr) (over : bool) : list (Ptr * task) :=
  (conn_loop i, ConnectEstablished conn) ::
  (if over then [(conn_loop i, ConnectDestroyed conn)] else []).

Record server_inv s : Prop := {
  inv_pool : pool_ok (threadPool_ s);
  inv_next : 1 ≤ nextConnId_ s < 2 ^ 31;
  inv_ipPort : (String.length (ipPort_ s) ≤ 51)%nat;
  inv_names : ∀ conn i, conns s !! conn = Some i → ∃ id, 1 ≤ id < nextConnId_ s ∧
    conn_name i = connection_name (name_ s) (ipPort_ s) id;
  inv_unique : ∀ c1 c2 i1 i2, conns s !! c1 = Some i1 → conns s !! c2 = Some i2 →
    conn_name i1 = conn_name i2 → c1 = c2;
  inv_map : ∀ nm conn, connections_ s !! nm = Some conn →
    ∃ i, conns s !! conn = Some i ∧ conn_name i = nm;
  inv_removing : NoDup (removing s) ∧ ∀ conn, conn ∈ removing s →
    ∃ i, conns s !! conn = Some i ∧ connections_ s !! conn_name i = Some conn;
  inv_unknown : ∀ conn, conns s !! conn = None → posted_for conn (posted s) = [];
  inv_posted : ∀ conn i, conns s !! conn = Some i →
    posted_for conn (posted s) =
      life i conn (negb (bool_decide (connections_ s !! conn_name i = Some conn)))
}.

Lemma getNextLoop_ok p : pool_ok p → ∃ l p', getNextLoop true p = Ok (l, p') ∧ pool_ok p'.
Proof.
  intros Hok. destruct (decide (loops_ p = [])) as [He|Hne].
  - exists (baseLoop_ p), p. split; [|done]. unfold getNextLoop. cbn [mbind outcome_bind assertInLoopThread].
    destruct Hok as (-> & _). by rewrite He.
  - destruct (getNextLoop_nonempty p Hok Hne) as (l & E & Hl). eexists l, _. split; [exact E|].
    destruct Hok as (Hs & H0 & Hn). apply lookup_lt_Some in Hl. unfold pool_ok, sz in *. cbn in *.
    destruct (Z.leb_spec (Z.of_nat (length (loops_ p))) (next_ p + 1)); split_and!; (done || lia || left; lia).
Qed.

Lemma posted_for_app conn l l' : posted_for conn (l ++ l') = posted_for conn l ++ posted_for conn l'.
Proof. apply filter_app. Qed.

Lemma posted_for_one conn x :
  posted_for conn [x] = if decide (target x.2 = conn) then [x] else [].
Proof. unfold posted_for. rewrite filter_cons. by destruct (decide _). Qed.

Lemma new_inv conn s : server_inv s → op_ok (NewConnection conn) s →
  ∃ s', newConnection true conn s = Ok s' ∧ server_inv s'.
Proof.
  intros [Hp Hn Hl Hnm Hu Hm Hr Hk Hl'] [Hfresh Hmax]. unfold newConnection.
  cbn [mbind outcome_bind assertInLoopThread].
  destruct (getNextLoop_ok _ Hp) as (l & p' & -> & Hp'). cbn [mbind outcome_bind].
  rewrite decide_True by done. eexists. split; [done|].
  set (nm := connection_name _ _ _).
  assert (∀ c i, conns s !! c = Some i → conn_name i ≠ nm) as Hne.
  { intros c i Hc E. destruct (Hnm c i Hc) as (id & Hid & E'). rewrite E' in E.
    apply connection_name_inj in E; [lia|done|lia|lia]. }
  assert (connections_ s !! nm = None) as Hnone.
  { destruct (connections_ s !! nm) as [c|] eqn:E; [|done]. destruct (Hm _ _ E) as (i & Hc & Hi).
    by destruct (Hne c i Hc). }
  constructor; cbn.
  - done.
  - lia.
  - done.
  - intros c i [[<- <-]|[_ Hc]]%lookup_insert_Some; [exists (nextConnId_ s); split; [lia|done]|].
    destruct (Hnm c i Hc) as (id & ? & ?). exists id. split; [lia|done].
  - intros c1 c2 i1 i2 [[<- <-]|[? H1]]%lookup_insert_Some [[<- <-]|[? H2]]%lookup_insert_Some E; cbn in E.
    + done.
    + by destruct (Hne _ _ H2).
    + by destruct (Hne _ _ H1).
    + by eapply Hu.
  - intros nm' c [[<- <-]|[Hd Hc]]%lookup_insert_Some.
    { eexists. by rewrite lookup_insert_eq. }
    destruct (Hm _ _ Hc) as (i & Hi & ?). exists i. split; [|done].
    rewrite lookup_insert_ne; [done|]. intros ->. congruence.
  - destruct Hr as [Hnd Hr]. split; [done|]. intros c Hc. destruct (Hr c Hc) as (i & Hi & ?).
    exists i. rewrite !lookup_insert_ne; [done|by apply not_eq_sym, (Hne c)|]. intros ->. congruence.
  - intros c Hc. apply lookup_insert_None in Hc as [Hc Hd].
    rewrite posted_for_app, posted_for_one, decide_False by done. by rewrite Hk.
  - intros c i Hc. rewrite posted_for_app, posted_for_one. cbn.
    apply lookup_insert_Some in Hc as [[<- <-]|[Hd Hc]].
    + rewrite decide_True by done. rewrite (Hk _ Hfresh). cbn [conn_name].
      rewrite lookup_insert_eq, bool_decide_true by done. done.
    + rewrite decide_False by done. rewrite app_nil_r, (Hl' _ _ Hc).
      rewrite lookup_insert_ne; [done|]. by apply not_eq_sym, (Hne c).
Qed.

(** [removeConnectionInLoop] for a connection that is in the map. *)
Lemma remove_inv conn i s l :
  server_inv s → conns s !! conn = Some i → connections_ s !! conn_name i = Some conn →
  removing s = conn :: l ∨ (removing s = l ∧ (conn ∉ l)) →
  ∃ s', removeConnectionInLoop true conn (set_removing l s) = Ok s' ∧ server_inv s'.
Proof.
  intros [Hp Hn Hl Hnm Hu Hm [Hnd Hr] Hk Hl'] Hc Hin Hq. unfold removeConnectionInLoop.
  cbn [mbind outcome_bind assertInLoopThread conns set_removing]. rewrite Hc.
  cbn [connections_ set_removing]. rewrite Hin. cbn [bool_decide].
  rewrite bool_decide_true by by eexists. eexists. split; [done|].
  assert (NoDup l ∧ (conn ∉ l) ∧ ∀ c, c ∈ l → c ∈ removing s) as (Hnd' & Hnin & Hsub).
  { destruct Hq as [Hq|[<- ?]]; [|done]. rewrite Hq in *. apply NoDup_cons in Hnd as [? ?].
    split_and!; [done..|]. intros c Hc'. apply elem_of_cons. by right. }
  assert (∀ c i', conns s !! c = Some i' → c ≠ conn → conn_name i ≠ conn_name i') as Hne.
  { intros c i' Hc' Hd E. apply Hd. symmetry. by eapply Hu. }
  constructor; cbn; try done.
  - intros nm c [_ Hc']%lookup_delete_Some. by apply Hm.
  - split; [done|]. intros c Hc'. destruct (Hr c (Hsub c Hc')) as (i' & Hi' & ?). exists i'.
    split; [done|]. rewrite lookup_delete_ne; [done|]. apply (Hne c); [done|]. by intros ->.
  - intros c Hc'. rewrite posted_for_app, posted_for_one, (Hk _ Hc'). cbn.
    rewrite decide_False; [done|]. intros ->. congruence.
  - intros c i' Hc'. rewrite posted_for_app, posted_for_one, (Hl' _ _ Hc'). cbn.
    destruct (decide (conn = c)) as [<-|Hd].
    + rewrite Hc in Hc'. injection Hc' as <-. rewrite lookup_delete_eq, Hin.
      rewrite bool_decide_true, bool_decide_false by done. done.
    + rewrite app_nil_r, lookup_delete_ne; [done|]. by apply (Hne c), not_eq_sym.
Qed.

Lemma server_op_inv o s : server_inv s → op_ok o s → ∃ s', run_op o s = Ok s' ∧ server_inv s'.
Proof.
  intros Hinv Hop. destruct o as [conn|in_loop conn|].
  - by apply new_inv.
  - destruct Hop as (i & Hc & Hin & Hnr). simpl. unfold removeConnection. destruct in_loop.
    + assert (s = set_removing (removing s) s) as -> by by destruct s.
      apply (remove_inv conn i); try done. by right.
    + eexists. split; [done|]. destruct Hinv as [? ? ? ? ? ? [Hnd Hr] ? ?]. constructor; try done. cbn.
      split.
      * apply NoDup_app. split_and!; [done| |apply NoDup_singleton].
        intros c Hc' Hx%list_elem_of_singleton. by subst.
      * intros c [Hc'|Hx%list_elem_of_singleton]%elem_of_app; [by apply Hr|]. subst. by exists i.
  - simpl. destruct (removing s) as [|conn l] eqn:E; [by exists s|].
    destruct (proj2 (inv_removing s Hinv) conn) as (i & ? & ?).
    { rewrite E. apply elem_of_cons. by left. }
    apply (remove_inv conn i); try done. by left.
Qed.

(** What the operations change. *)
Definition pool_loops s : list Ptr := baseLoop_ (threadPool_ s) :: loops_ (threadPool_ s).

Lemma newConnection_maps conn s s' : newConnection true conn s = Ok s' →
  ∃ i, conns s' = <[conn := i]> (conns s) ∧ connections_ s' = <[conn_name i := conn]> (connections_ s) ∧
    posted s' = posted s ++ [(conn_loop i, ConnectEstablished conn)] ∧ removing s' = removing s ∧
    conn_loop i ∈ pool_loops s ∧ pool_loops s' = pool_loops s.
Proof.
  unfold newConnection. intros E. inv_ok. destruct x0 as [io pool]. rename H0 into Hg.
  destruct (decide _); [|done]. injection E as <-. eexists. split_and!; [done..| |]; cbn.
  - unfold getNextLoop in Hg. inv_ok. unfold pool_loops. destruct (loops_ (threadPool_ s)) as [|l0 ls] eqn:El.
    { injection Hg as <- _. apply elem_of_cons. by left. }
    destruct (_ !! _) as [l'|] eqn:E'; [|done]. injection Hg as <- _. apply elem_of_cons. right.
    by eapply list_elem_of_lookup_2.
  - unfold getNextLoop in Hg. inv_ok. unfold pool_loops; cbn.
    destruct (loops_ (threadPool_ s)) eqn:El; [by injection Hg as _ <-; rewrite El|].
    destruct (_ !! _); [|done]. by injection Hg as _ <-.
Qed.

Lemma removeConnectionInLoop_eq conn i s :
  conns s !! conn = Some i → connections_ s !! conn_name i = Some conn →
  removeConnectionInLoop true conn s =
    Ok (mkServer (ipPort_ s) (name_ s) (threadPool_ s) (started_ s) (listenning s) (nextConnId_ s)
      (delete (conn_name i) (connections_ s)) (conns s) (removing s)
      (posted s ++ [(conn_loop i, ConnectDestroyed conn)])).
Proof.
  intros Hc Hm. unfold removeConnectionInLoop. cbn [mbind outcome_bind assertInLoopThread].
  rewrite Hc, Hm. by rewrite bool_decide_true by by eexists.
Qed.

(** A server that has been constructed, given its threads and started. *)
Definition launch (loop : Ptr) (ipPort name : string) (n : Z) (startLoop : string → Ptr)
    (has_cb : bool) : outcome TcpServer :=
  s ← setThreadNum n (TcpServer_ctor loop ipPort name); start true startLoop has_cb s.

Lemma launch_inv loop ipPort name n startLoop has_cb s :
  (String.length ipPort ≤ 51)%nat → launch loop ipPort name n startLoop has_cb = Ok s → server_inv s.
Proof.
  intros Hl. unfold launch, setThreadNum. destruct (Z.leb_spec 0 n); [|done].
  cbn [mbind outcome_bind assert_]. unfold start. cbn [getAndSet started_ set_pool TcpServer_ctor Z.eqb].
  cbn [threadPool_ set_pool].
  destruct (start_ok startLoop has_cb (EventLoopThreads.setThreadNum n (EventLoopThreadPool_ctor loop name)))
    as (p' & b & E & Hp' & _); [done..|].
  cbn [threadPool_ TcpServer_ctor]. rewrite E. cbn [mbind outcome_bind listenning negb assert_].
  intros [= <-]. constructor; cbn; try done.
  split; [by apply NoDup_nil|]. by intros c ?%not_elem_of_nil.
Qed.

Lemma server_reachable s0 s : server_inv s0 → rtc server_step s0 s → server_inv s.
Proof.
  intros H0 Hrtc. apply (rtc_invariant server_step server_inv) in Hrtc; [done| |done].
  intros s1 s2 Hinv (o & Hop & E). destruct (server_op_inv o s1 Hinv Hop) as (s' & E' & ?). congruence.
Qed.

Lemma destroy_each_ok cs : ∀ s, (∀ c, c ∈ cs → is_Some (conns s !! c)) → NoDup cs →
  ∃ s', destroy_each cs s = Ok s' ∧ conns s' = conns s ∧
    ∀ c, posted_for c (posted s') = posted_for c (posted s) ++
      (if bool_decide (c ∈ cs) then match conns s !! c with
                                    | Some i => [(conn_loop i, ConnectDestroyed c)] | None => [] end
       else []).
Proof.
  induction cs as [|d cs IH]; intros s Hs Hnd; simpl.
  { exists s. split_and!; [done..|]. intros c. rewrite app_nil_r. done. }
  apply NoDup_cons in Hnd as [Hd Hnd].
  destruct (Hs d) as [i Hi]; [apply elem_of_cons; by left|]. rewrite Hi.
  edestruct (IH (mkServer (ipPort_ s) (name_ s) (threadPool_ s) (started_ s) (listenning s)
    (nextConnId_ s) (connections_ s) (conns s) (removing s)
    (posted s ++ [(conn_loop i, ConnectDestroyed d)]))) as (s' & E & Hc & Hp); [|done|].
  { intros c Hc. apply Hs, elem_of_cons. by right. }
  exists s'. split_and!; [done..|]. intros c. rewrite Hp. cbn [posted conns].
  rewrite posted_for_app, posted_for_one, <-app_assoc. cbn. f_equal.
  destruct (decide (d = c)) as [<-|Hne].
  - rewrite (bool_decide_false (d ∈ cs)), (bool_decide_true (d ∈ d :: cs)), Hi;
      [done|apply elem_of_cons; by left|done].
  - assert (bool_decide (c ∈ d :: cs) = bool_decide (c ∈ cs)) as ->; [|done].
    apply bool_decide_ext. rewrite elem_of_cons. split; [intros [?|?]; congruence|by right].
Qed.

(** The connections in the map are those not destroyed, each once. *)
Lemma map_conns s : server_inv s → NoDup (map_to_list (connections_ s)).*2 ∧
  (∀ conn, conn ∈ (map_to_list (connections_ s)).*2 → is_Some (conns s !! conn)) ∧
  ∀ conn i, conns s !! conn = Some i →
    conn ∈ (map_to_list (connections_ s)).*2 ↔ connections_ s !! conn_name i = Some conn.
Proof.
  intros Hinv.
  assert (∀ conn, conn ∈ (map_to_list (connections_ s)).*2 →
    ∃ i, conns s !! conn = Some i ∧ connections_ s !! conn_name i = Some conn) as Hin.
  { intros conn ([nm c] & -> & Hx%elem_of_map_to_list)%list_elem_of_fmap. cbn.
    destruct (inv_map s Hinv _ _ Hx) as (i & ? & <-). by exists i. }
  split_and!.
  - apply NoDup_fmap_2_strong; [|apply NoDup_map_to_list].
    intros [n1 c1] [n2 c2] H1%elem_of_map_to_list H2%elem_of_map_to_list E. cbn in E. subst c2.
    destruct (inv_map s Hinv _ _ H1) as (i1 & ? & <-), (inv_map s Hinv _ _ H2) as (i2 & ? & <-). congruence.
  - intros conn Hc. destruct (Hin conn Hc) as (i & ? & _). by exists i.
  - intros conn i Hi. split.
    + intros Hc. destruct (Hin conn Hc) as (i' & ? & ?). congruence.
    + intros Hc. apply list_elem_of_fmap. exists (conn_name i, conn). split; [done|].
      by apply elem_of_map_to_list.
Qed.

(** ** Properties *)

(** C22: a started server keeps exact books.  No operation fails an assertion: a
    connection that closes is found in the map under its name, because names are
    never reused.  Each connection is established exactly once, and destroyed
    exactly once and afterwards, on its own loop: when it has closed, or when the
    server is destroyed. *)
Theorem server_tracks_connections loop ipPort name n startLoop has_cb s0 s :
  (String.length ipPort ≤ 51)%nat →
  launch loop ipPort name n startLoop has_cb = Ok s0 → rtc server_step s0 s →
  (∀ o, op_ok o s → ∃ s', run_op o s = Ok s') ∧
  (∀ conn i, conns s !! conn = Some i →
     posted_for conn (posted s) = (conn_loop i, ConnectEstablished conn) ::
       (if decide (connections_ s !! conn_name i = Some conn) then []
        else [(conn_loop i, ConnectDestroyed conn)])) ∧
  (∃ s', TcpServer_dtor true s = Ok s' ∧ ∀ conn i, conns s !! conn = Some i →
     posted_for conn (posted s') =
       [(conn_loop i, ConnectEstablished conn); (conn_loop i, ConnectDestroyed conn)]).
Proof.
  intros Hl H0 Hrtc. pose proof (server_reachable s0 s (launch_inv _ _ _ _ _ _ _ Hl H0) Hrtc) as Hinv.
  split_and!.
  - intros o Hop. destruct (server_op_inv o s Hinv Hop) as (s' & ? & _). by exists s'.
  - intros conn i Hi. rewrite (inv_posted s Hinv _ _ Hi). unfold life.
    destruct (decide _); [by rewrite bool_decide_true|by rewrite bool_decide_false].
  - destruct (map_conns s Hinv) as (Hnd & Hsome & Hiff).
    destruct (destroy_each_ok _ s Hsome Hnd) as (s' & E & Hc & Hp).
    exists s'. split; [exact E|]. intros conn i Hi. rewrite Hp, (inv_posted s Hinv _ _ Hi), Hi.
    rewrite (bool_decide_ext _ _ (Hiff conn i Hi)). unfold life. by case_bool_decide.
Qed.

(** *** A server with two I/O threads *)
Definition demo_loop (name : string) : Ptr := if decide (name = "srv0") then 10 else 20.
Definition demo_server : TcpServer := from_ok (TcpServer_ctor 0 "" "")
  (launch 1 "127.0.0.1:80" "srv" 2 demo_loop false).
Definition demo_two : TcpServer := from_ok demo_server
  (s ← run_op (NewConnection 100) demo_server; run_op (NewConnection 200) s).

Lemma demo_two_reachable : rtc server_step demo_server demo_two.
Proof.
  eapply rtc_l; [exists (NewConnection 100); split; [split; [reflexivity|vm_compute; reflexivity]|]|].
  { vm_compute. reflexivity. }
  eapply rtc_l; [|apply rtc_refl]. exists (NewConnection 200).
  split; [split; [reflexivity|vm_compute; reflexivity]|]. vm_compute. reflexivity.
Qed.

Lemma server_tracks_connections_witness :
  posted_for 200 (posted demo_two) = [(20, ConnectEstablished 200)] ∧
  ∃ s', run_op (Closed false 200) demo_two = Ok s'.
Proof.
  destruct (server_tracks_connections 1 "127.0.0.1:80" "srv" 2 demo_loop false demo_server demo_two)
    as (Hok & Hposted & _); [simpl; lia|reflexivity|apply demo_two_reachable|].
  split.
  - exact (Hposted 200 (mkInfo "srv-127.0.0.1:80#2" 20) eq_refl).
  - apply Hok. exists (mkInfo "srv-127.0.0.1:80#2" 20). split; [reflexivity|].
    split; [reflexivity|apply not_elem_of_nil].
Defined.
