(* ===== verification/Acceptor.v ===== *)
(** [kaycc::net::Acceptor] ([src/net/acceptor.h], [src/net/acceptor.cpp]).

    The acceptor owns two descriptors, the listening socket and one it keeps idle
    to get out of a full descriptor table.  The table itself is the kernel's
    ([Descriptors]).  Calls of [newConnectionCallback_] are recorded in
    [accepted]. *)
From Stdlib Require Import Strings.Byte.
From stdpp Require Import gmap strings.
From S2P Require Import Prelude Endian Sockets Channel Poller EPollPoller Reactor.

(** A process's descriptor table and the queue of its listening socket.

    A call that makes a descriptor answers it, or -1, and [errno]; accept(2) also
    answers the peer's address, and may drop a connection that was aborted.  Below
    the limit a call fails only when the whole system is short ([short]). *)
Class Descriptors (K : Type) := {
  fds : K → gset Z;
  limit : K → nat;
  backlog : K → list (list byte);
  short : K → Prop;
  sys_socket : K → Z * Z * K;
  sys_open : K → Z * Z * K;
  sys_accept : K → Z * Z * list byte * K;
  sys_close : Z → K → K;

  socket_ok k fd e k' : sys_socket k = (fd, e, k') →
    (fd = -1 ∧ fds k' = fds k ∨ 0 ≤ fd ∧ (fd ∉ fds k) ∧ fds k' = {[ fd ]} ∪ fds k) ∧
    limit k' = limit k;
  open_ok k fd e k' : sys_open k = (fd, e, k') →
    (fd = -1 ∧ fds k' = fds k ∨ 0 ≤ fd ∧ (fd ∉ fds k) ∧ fds k' = {[ fd ]} ∪ fds k) ∧
    backlog k' = backlog k ∧ limit k' = limit k ∧
    ((size (fds k) < limit k)%nat → ¬ short k → fd ≠ -1);
  accept_ok k fd e addr k' : sys_accept k = (fd, e, addr, k') →
    (fd = -1 ∧ fds k' = fds k ∧ (backlog k' = backlog k ∨ backlog k' = tail (backlog k)) ∨
     0 ≤ fd ∧ (fd ∉ fds k) ∧ fds k' = {[ fd ]} ∪ fds k ∧ backlog k = addr :: backlog k') ∧
    limit k' = limit k ∧
    (fd = -1 → e = EMFILE → (limit k ≤ size (fds k))%nat ∧ backlog k' = backlog k) ∧
    ((size (fds k) < limit k)%nat → backlog k ≠ [] → ¬ short k → fd ≠ -1);
  close_ok fd k : fds (sys_close fd k) = fds k ∖ {[ fd ]} ∧
    backlog (sys_close fd k) = backlog k ∧ limit (sys_close fd k) = limit k
}.

Record Acceptor := mkAcceptor {
  acceptSocket_ : Z;
  acceptChannel_ : Ptr;
  has_callback : bool;          (* newConnectionCallback_ is set *)
  listenning_ : bool;
  idleFd_ : Z;
  accepted : list (Z * list byte)
}.

Definition set_idle fd a := mkAcceptor (acceptSocket_ a) (acceptChannel_ a) (has_callback a)
  (listenning_ a) fd (accepted a).
Definition set_listenning b a := mkAcceptor (acceptSocket_ a) (acceptChannel_ a) (has_callback a)
  b (idleFd_ a) (accepted a).
Definition deliver connfd peerAddr a := mkAcceptor (acceptSocket_ a) (acceptChannel_ a) (has_callback a)
  (listenning_ a) (idleFd_ a) (accepted a ++ [(connfd, peerAddr)]).
Definition setNewConnectionCallback a := mkAcceptor (acceptSocket_ a) (acceptChannel_ a) true
  (listenning_ a) (idleFd_ a) (accepted a).

Section Acceptor.
Context {CB P K : Type} `{!Poller CB P} `{!Descriptors K}.

(** The calling thread, and the callback bound to [Acceptor::handleRead]. *)
Variable tid : Z.
Variable OnRead : CB.

Abbreviation state := (objs CB * Loop P)%type.

(** [ch]: the address of the channel embedded in the new object.  A socket that
    cannot be made is logged and -1 is used. *)
Definition Acceptor_ctor (ch : Ptr) (st : state) (k : K) : outcome (Acceptor * state * K) :=
  let '(sockfd, _, k) := sys_socket k in
  let '(idle, _, k) := sys_open k in
  let c := Channel_ctor (self st.2) sockfd in
  assert! 0 <=? idle;;
  Ok (mkAcceptor sockfd ch false false idle [],
      (<[ch := setReadCallback OnRead c]> st.1, st.2), k).

Definition listen (a : Acceptor) (st : state) : outcome (Acceptor * state) :=
  _ ← assertInLoopThread (isInLoopThread tid st.2);
  st ← enableReading tid (acceptChannel_ a) st;
  Ok (set_listenning true a, st).

(** The destructor's body, then those of [acceptChannel_] and [acceptSocket_]. *)
Definition Acceptor_dtor (a : Acceptor) (st : state) (k : K) : outcome (state * K) :=
  st ← disableAll tid (acceptChannel_ a) st;
  st ← channel_remove tid (acceptChannel_ a) st;
  let k := sys_close (idleFd_ a) k in
  st ← Channel_dtor tid (acceptChannel_ a) st;
  Ok (st, sys_close (acceptSocket_ a) k).

End Acceptor.

Section HandleRead.
Context {K : Type} `{!Descriptors K}.

(** What [errno] is after a line was logged, and the host's byte order. *)
Variable log : Z → Z.
Variable host : endianness.

Definition handleRead (in_loop : bool) (mem : list byte) (a : Acceptor) (k : K) : outcome (Acceptor * K) :=
  _ ← assertInLoopThread in_loop;
  let peerAddr := InetAddress_ctor host mem 0 false false in
  let '(connfd, errno, addr, k) := sys_accept k in
  let '(connfd, errno, peerAddr) := Socket_accept log connfd errno addr peerAddr in
  if 0 <? connfd then
    if has_callback a then Ok (deliver connfd peerAddr a, k) else Ok (a, sys_close connfd k)
  else
    let errno := log errno in
    if errno =? EMFILE then
      let k := sys_close (idleFd_ a) k in
      let '(idle, _, _, k) := sys_accept k in
      let k := sys_close idle k in
      let '(idle, _, k) := sys_open k in
      Ok (set_idle idle a, k)
    else Ok (a, k).

(** What [errno] is when [handleRead] tests it, after accept(2) failed with [errno]:
    [Socket::accept] and [handleRead] itself have logged lines. *)
Definition errno_seen (errno : Z) : Z := log (if expected_errno errno then errno else log (log errno)).

(** ** What the acceptor owns *)
Definition owns (a : Acceptor) (k : K) : Prop :=
  acceptSocket_ a ∈ fds k ∧ (idleFd_ a = -1 ∨ idleFd_ a ∈ fds k) ∧ idleFd_ a ≠ acceptSocket_ a ∧
  (∀ fd, fd ∈ fds k → 0 ≤ fd).

(** The descriptors of the rest of the process. *)
Definition others (a : Acceptor) (k : K) : gset Z := fds k ∖ {[ acceptSocket_ a; idleFd_ a ]}.

Lemma owns_more a k k' : owns a k → fds k ⊆ fds k' → (∀ fd, fd ∈ fds k' → 0 ≤ fd) → owns a k'.
Proof.
  intros (Hs & Hi & Hne & _) Hsub Hpos. split_and!; auto. destruct Hi as [?|?]; auto.
Qed.

(** How a call that makes a descriptor, or fails, changes the table. *)
Definition grown (F F' : gset Z) (fd : Z) : Prop :=
  fd = -1 ∧ F' = F ∨ 0 ≤ fd ∧ (fd ∉ F) ∧ F' = {[ fd ]} ∪ F.

Lemma grown_close (F F' : gset Z) fd : (∀ x, x ∈ F → 0 ≤ x) → grown F F' fd → F' ∖ {[ fd ]} = F.
Proof.
  intros Hpos [[-> ->]|(_ & Hn & ->)].
  - apply difference_disjoint_L. intros x Hx ->%elem_of_singleton. by specialize (Hpos _ Hx).
  - rewrite difference_union_distr_l_L, difference_diag_L, union_empty_l_L.
    apply difference_disjoint_L. by intros x Hx ->%elem_of_singleton.
Qed.

Lemma grown_member (F F' : gset Z) fd : (∀ x, x ∈ F → 0 ≤ x) → grown F F' fd →
  F ⊆ F' ∧ (fd = -1 ∨ fd ∈ F') ∧ (fd ∉ F) ∧ ∀ x, x ∈ F' → 0 ≤ x.
Proof.
  intros Hpos [[-> ->]|(Hp & Hn & ->)]; split_and!; auto.
  - intros Hx. by specialize (Hpos _ Hx).
  - apply union_subseteq_r.
  - right. by apply elem_of_union_l, elem_of_singleton.
  - intros x [->%elem_of_singleton|Hx]%elem_of_union; auto.
Qed.

Lemma grown_others (F F' : gset Z) s fd : (∀ x, x ∈ F → 0 ≤ x) → grown F F' fd →
  F' ∖ {[ s; fd ]} = F ∖ {[ s ]}.
Proof.
  intros Hpos Hg. rewrite <-(grown_close _ _ _ Hpos Hg).
  by rewrite difference_difference_l_L, (union_comm_L {[ s ]}).
Qed.

(** What a failed or a successful way out of a full table leaves behind. *)
Lemma reject_ok a k : owns a k →
  let '(fd, _, _, k2) := sys_accept (sys_close (idleFd_ a) k) in
  let '(idle, _, k4) := sys_open (sys_close fd k2) in
  let a' := set_idle idle a in
  owns a' k4 ∧ others a' k4 = others a k ∧
  (idleFd_ a ≠ -1 → (size (fds k) ≤ limit k)%nat → backlog k ≠ [] → (∀ k, ¬ short k) →
   backlog k4 = tail (backlog k) ∧ idle ≠ -1).
Proof.
  intros (Hs & Hi & Hne & Hpos).
  destruct (close_ok (idleFd_ a) k) as (F1 & B1 & L1).
  destruct (sys_accept _) as [[[fd e] addr] k2] eqn:Ea. apply accept_ok in Ea.
  destruct (close_ok fd k2) as (F3 & B3 & L3).
  destruct (sys_open _) as [[idle e'] k4] eqn:Eo. apply open_ok in Eo.
  destruct Ea as (Ha & L2 & _ & Hroom2). destruct Eo as (Ho & B4 & L4 & Hroom4).
  assert (Hpos1 : ∀ x, x ∈ fds k ∖ {[ idleFd_ a ]} → 0 ≤ x).
  { intros x [Hx _]%elem_of_difference. auto. }
  assert (F3' : fds (sys_close fd k2) = fds k ∖ {[ idleFd_ a ]}).
  { rewrite F3. apply grown_close; [done|]. rewrite <-F1. unfold grown. tauto. }
  rewrite F3' in Ho. change (grown (fds k ∖ {[ idleFd_ a ]}) (fds k4) idle) in Ho.
  destruct (grown_member _ _ _ Hpos1 Ho) as (Hsub & Hin & Hnin & Hpos4).
  assert (Hs' : acceptSocket_ a ∈ fds k ∖ {[ idleFd_ a ]}).
  { apply elem_of_difference. split; [done|]. intros E%elem_of_singleton. congruence. }
  split; [|split].
  - unfold owns. cbn [set_idle acceptSocket_ idleFd_]. split_and!; [by apply Hsub|done| |done].
    intros ->. done.
  - unfold others. cbn [set_idle acceptSocket_ idleFd_].
    rewrite (grown_others _ _ _ _ Hpos1 Ho). by rewrite difference_difference_l_L, (union_comm_L {[ idleFd_ a ]}).
  - intros Hidle Hsz Hb Hshort. destruct Hi as [?|Hi]; [done|].
    assert (Hroom : (size (fds k ∖ {[ idleFd_ a ]}) < limit k)%nat).
    { rewrite size_difference by (by apply singleton_subseteq_l). rewrite size_singleton.
      assert (size (fds k) ≠ 0%nat) by (intros E%size_empty_inv; by apply E, elem_of_empty in Hi). lia. }
    rewrite F1, L1, B1 in Hroom2. specialize (Hroom2 Hroom Hb (Hshort _)).
    destruct Ha as [(-> & _)|(? & _ & _ & Hba)]; [done|].
    split; [by rewrite B4, B3, <-B1, Hba|].
    apply Hroom4; [|done]. by rewrite F3', L3, L2, L1.
Qed.

(** accept(2) answers a connection; descriptor 0 is taken, as it is in a process
    with a standard input. *)
Lemma handleRead_connection mem a k connfd errno addr k1 :
  owns a k → 0 ∈ fds k → sys_accept k = (connfd, errno, addr, k1) → 0 ≤ connfd →
  ∃ a' k', handleRead true mem a k = Ok (a', k') ∧ owns a' k' ∧
    acceptSocket_ a' = acceptSocket_ a ∧ acceptChannel_ a' = acceptChannel_ a ∧
    idleFd_ a' = idleFd_ a ∧ backlog k = addr :: backlog k' ∧
    if has_callback a then
      accepted a' = accepted a ++ [(connfd, splice 0 addr (replicate 28 x00))] ∧
      others a' k' = {[ connfd ]} ∪ others a k
    else accepted a' = accepted a ∧ others a' k' = others a k.
Proof.
  intros Hown H0 Ea Hp. pose proof Hown as (Hs & Hi & Hne & Hpos).
  destruct (accept_ok _ _ _ _ _ Ea) as ([(-> & _)|(_ & Hn & F1 & Hb)] & _); [lia|].
  assert (Hg : grown (fds k) (fds k1) connfd) by (right; auto).
  destruct (grown_member _ _ _ Hpos Hg) as (Hsub & _ & _ & Hpos1).
  assert (connfd ≠ 0) by congruence.
  unfold handleRead, Socket_accept, sockets_accept. rewrite Ea. cbn [mbind outcome_bind assertInLoopThread].
  rewrite (proj2 (Z.ltb_ge connfd 0)), (proj2 (Z.ltb_lt 0 connfd)), (proj2 (Z.leb_le 0 connfd)) by lia.
  destruct (has_callback a) eqn:Ecb; eexists _, _; (split; [reflexivity|]).
  - split; [by apply (owns_more a k)|]. do 4 (split; [done|]). split; [done|]. unfold others; cbn.
    rewrite F1. apply set_eq. intros x. rewrite elem_of_union, !elem_of_difference, elem_of_union, elem_of_singleton.
    split; [tauto|]. intros [->|?]; [|tauto]. split; [by left|]. apply not_elem_of_union.
    rewrite !not_elem_of_singleton. split; intros E; rewrite E in *; [done|].
    destruct Hi as [?|?]; [lia|done].
  - destruct (close_ok connfd k1) as (F2 & B2 & _).
    assert (E : fds (sys_close connfd k1) = fds k) by (by rewrite F2, (grown_close (fds k))).
    split; [unfold owns; by rewrite E|]. do 4 (split; [by rewrite ?B2|]).
    split; [done|]. unfold others. by rewrite E.
Qed.

(** accept(2) fails. *)
Lemma handleRead_failure mem a k errno addr k1 :
  owns a k → sys_accept k = (-1, errno, addr, k1) →
  ∃ a' k', handleRead true mem a k = Ok (a', k') ∧ owns a' k' ∧
    acceptSocket_ a' = acceptSocket_ a ∧ acceptChannel_ a' = acceptChannel_ a ∧
    accepted a' = accepted a ∧ others a' k' = others a k ∧
    (errno_seen errno ≠ EMFILE → a' = a ∧ k' = k1) ∧
    (errno = EMFILE → errno_seen errno = EMFILE → idleFd_ a ≠ -1 → (size (fds k) ≤ limit k)%nat →
       backlog k ≠ [] → (∀ k, ¬ short k) →
     backlog k' = tail (backlog k) ∧ idleFd_ a' ≠ -1).
Proof.
  intros Hown Ea. destruct (accept_ok _ _ _ _ _ Ea) as ([(_ & F1 & Hb)|(? & _)] & L1 & Hem & _); [|lia].
  assert (Hown1 : owns a k1) by (unfold owns; rewrite F1; exact Hown).
  assert (Ho1 : others a k1 = others a k) by (unfold others; by rewrite F1).
  unfold handleRead, Socket_accept, sockets_accept. rewrite Ea. cbn [mbind outcome_bind assertInLoopThread Z.ltb Z.compare].
  fold (errno_seen errno).
  destruct (errno_seen errno =? EMFILE) eqn:E; [apply Z.eqb_eq in E|apply Z.eqb_neq in E].
  - pose proof (reject_ok a k1 Hown1) as R.
    destruct (sys_accept (sys_close _ _)) as [[[fd e2] addr2] k2].
    destruct (sys_open (sys_close _ _)) as [[idle e4] k4].
    destruct R as (Ro & Roth & Rb). eexists _, _. split_and!; try done; [by rewrite Roth|].
    intros -> _ Hidle Hsz Hbl Hsh. destruct (Hem eq_refl eq_refl) as [_ HB].
      rewrite F1, L1, HB in Rb. by apply Rb.
  - eexists _, _. by split_and!.
Qed.

(** ** From construction to destruction

    Between [listen] and the destructor the loop calls [handleRead], and the rest
    of the process opens and closes descriptors of its own. *)
Inductive acceptor_step : Acceptor * K → Acceptor * K → Prop :=
  | StepRead mem a k a' k' :
      handleRead true mem a k = Ok (a', k') → acceptor_step (a, k) (a', k')
  | StepCallback a k : acceptor_step (a, k) (setNewConnectionCallback a, k)
  | StepOther a k k' : owns a k' → 0 ∈ others a k' → acceptor_step (a, k) (a, k').

Definition acceptor_inv (sock : Z) (ch : Ptr) (ak : Acceptor * K) : Prop :=
  owns ak.1 ak.2 ∧ 0 ∈ others ak.1 ak.2 ∧ acceptSocket_ ak.1 = sock ∧ acceptChannel_ ak.1 = ch.

Lemma acceptor_step_inv sock ch s s' :
  acceptor_inv sock ch s → acceptor_step s s' → acceptor_inv sock ch s'.
Proof.
  intros (Hown & H0 & Hs & Hch) Hst. destruct Hst as [mem a k a' k' E|a k|a k k']; [|done|done].
  cbn [fst snd] in *. assert (H0' : 0 ∈ fds k) by (unfold others in H0; by apply elem_of_difference in H0 as [? _]).
  destruct (sys_accept k) as [[[connfd errno] addr] k1] eqn:Ea.
  destruct (accept_ok _ _ _ _ _ Ea) as ([(-> & _)|(Hp & _)] & _).
  - destruct (handleRead_failure mem _ _ _ _ _ Hown Ea) as (a2 & k2 & E2 & ? & ? & ? & _ & Ho & _).
    rewrite E in E2. injection E2 as <- <-. unfold acceptor_inv; cbn. rewrite Ho. split_and!; congruence.
  - destruct (handleRead_connection mem _ _ _ _ _ _ Hown H0' Ea Hp)
      as (a2 & k2 & E2 & ? & ? & ? & _ & _ & Ho).
    rewrite E in E2. injection E2 as <- <-. unfold acceptor_inv; cbn. split_and!; try congruence.
    destruct (has_callback a); destruct Ho as [_ ->]; [|done]. by apply elem_of_union_r.
Qed.

(** C25: [Acceptor::handleRead] on every answer of accept(2), for a process that has
    descriptor 0 open (else a connection may be given it: [accept_zero_leaks]).  A
    connection goes to the callback with its peer's address, or is closed when there
    is none.  A failure loses no descriptor, and nothing else happens unless the
    [errno] that [handleRead] tests is EMFILE; it tests it after logging, which may
    have changed it ([errno_seen]).  If the table was full and it still is EMFILE,
    the idle descriptor is open, a connection waits and the system as a whole is not
    short of files, then that connection is taken and closed through the idle
    descriptor, which is open again afterwards. *)
Theorem acceptor_handles_every_answer mem a k : owns a k → 0 ∈ fds k →
  let '(connfd, errno, addr, k1) := sys_accept k in
  ∃ a' k', handleRead true mem a k = Ok (a', k') ∧ owns a' k' ∧
    (0 ≤ connfd → idleFd_ a' = idleFd_ a ∧ backlog k = addr :: backlog k' ∧
       if has_callback a then
         accepted a' = accepted a ++ [(connfd, splice 0 addr (replicate 28 x00))] ∧
         others a' k' = {[ connfd ]} ∪ others a k
       else accepted a' = accepted a ∧ others a' k' = others a k) ∧
    (connfd < 0 → accepted a' = accepted a ∧ others a' k' = others a k ∧
       (errno_seen errno ≠ EMFILE → a' = a ∧ k' = k1) ∧
       (errno = EMFILE → errno_seen errno = EMFILE → idleFd_ a ≠ -1 → (size (fds k) ≤ limit k)%nat →
          backlog k ≠ [] → (∀ k, ¬ short k) →
        backlog k' = tail (backlog k) ∧ idleFd_ a' ≠ -1)).
Proof.
  intros Hown H0. destruct (sys_accept k) as [[[connfd errno] addr] k1] eqn:Ea.
  destruct (accept_ok _ _ _ _ _ Ea) as ([(-> & _)|(Hp & _)] & _).
  - destruct (handleRead_failure mem _ _ _ _ _ Hown Ea) as (a' & k' & ? & ? & _ & _ & ? & ? & ? & ?).
    exists a', k'. split_and!; [done|done|lia|by intros _].
  - destruct (handleRead_connection mem _ _ _ _ _ _ Hown H0 Ea Hp) as (a' & k' & ? & ? & _ & _ & ? & ? & ?).
    exists a', k'. split_and!; [done|done|by intros _|lia].
Qed.

(** A connection that is given descriptor 0 is neither delivered nor closed. *)
Lemma accept_zero_leaks mem a k errno addr k1 :
  sys_accept k = (0, errno, addr, k1) → log errno ≠ EMFILE →
  handleRead true mem a k = Ok (a, k1) ∧ 0 ∈ fds k1.
Proof.
  intros Ea He. destruct (accept_ok _ _ _ _ _ Ea) as ([(? & _)|(_ & _ & F1 & _)] & _); [done|]. split.
  - unfold handleRead, Socket_accept, sockets_accept. rewrite Ea. simpl.
    by rewrite (proj2 (Z.eqb_neq _ _) He).
  - rewrite F1. by apply elem_of_union_l, elem_of_singleton.
Qed.

End HandleRead.

Section Lifecycle.
Context {CB P K : Type} `{!Poller CB P} `{!Descriptors K}.
Variable tid : Z.
Variable OnRead : CB.
Variable log : Z → Z.
Variable host : endianness.
Abbreviation state := (objs CB * Loop P)%type.

Lemma Acceptor_ctor_ok ch (st : state) k :
  loop_ok tid st.1 st.2 → st.1 !! ch = None → (∀ fd, fd ∈ fds k → 0 ≤ fd) →
  (∀ fd q, channels (poller_ st.2) !! fd = Some q → fd ∈ fds k) →
  (let '(fd, _, k1) := sys_socket k in fd ≠ -1 ∧ fd < 2 ^ 31 - 1 ∧ (sys_open k1).1.1 ≠ -1) →
  ∃ a (st1 : state) k1 c, Acceptor_ctor OnRead ch st k = Ok (a, st1, k1) ∧ owns a k1 ∧ others a k1 = fds k ∧
    acceptChannel_ a = ch ∧ loop_ok tid st1.1 st1.2 ∧ st1.2 = st.2 ∧ fresh st1.1 st1.2 ch c ∧
    fd_ c = acceptSocket_ a ∧ events_ c = 0 ∧ Channel.eventHandling_ c = false.
Proof.
  destruct st as [os l]. cbn [fst snd]. intros [Hinv Ht] Hnew Hpos Hreg. unfold Acceptor_ctor.
  destruct (sys_socket k) as [[sock e1] k1] eqn:Es. destruct (sys_open k1) as [[idle e2] k2] eqn:Eo.
  intros (Hs & Hs2 & Hi). cbn [fst snd] in Hi.
  destruct (socket_ok _ _ _ _ Es) as ([(? & _)|(Hsp & Hsn & F1)] & _); [done|].
  destruct (open_ok _ _ _ _ Eo) as ([(? & _)|(Hip & Hin & F2)] & _); [done|].
  rewrite (proj2 (Z.leb_le 0 idle)) by done. cbn [fst snd mbind outcome_bind assert_].
  assert (Hpos1 : ∀ x, x ∈ fds k1 → 0 ≤ x).
  { intros x. rewrite F1. intros [->%elem_of_singleton|Hx]%elem_of_union; auto. }
  assert (Hg1 : grown (fds k) (fds k1) sock) by (right; auto).
  assert (Hg2 : grown (fds k1) (fds k2) idle) by (right; auto).
  destruct (grown_member _ _ _ Hpos1 Hg2) as (Hsub & Hin2 & _ & Hpos2).
  destruct (new_channel_spec tid os l ch sock OnRead) as [Hok1 Hfr]; [by split|done|by split| |].
  { destruct (channels (poller_ l) !! sock) as [q|] eqn:Eq; [|done]. by apply Hreg in Eq. }
  eexists _, _, _, (setReadCallback OnRead (Channel_ctor (self l) sock)).
  split_and!; try reflexivity; cbn; [| |exact Hok1|exact Hfr].
  - unfold owns; cbn. assert (sock ∈ fds k1) by (rewrite F1; by apply elem_of_union_l, elem_of_singleton).
    split_and!; [by apply Hsub|done| |done]. intros ->. done.
  - unfold others; cbn. rewrite (grown_others _ _ _ _ Hpos1 Hg2). by apply grown_close.
Qed.

(** With either poller, an acceptor's life trips no assertion and leaks
    nothing.  The constructor takes two descriptors; after [listen] the loop
    watches the listening socket for reading; and whatever [handleRead] met and
    the rest of the process did in between, the destructor takes the channel out
    of the poller and closes exactly the two descriptors the acceptor then owns. *)
Theorem acceptor_lifecycle ch (st : state) k :
  loop_ok tid st.1 st.2 → st.1 !! ch = None → 0 ∈ fds k → (∀ fd, fd ∈ fds k → 0 ≤ fd) →
  (∀ fd q, channels (poller_ st.2) !! fd = Some q → fd ∈ fds k) →
  (let '(fd, _, k1) := sys_socket k in fd ≠ -1 ∧ fd < 2 ^ 31 - 1 ∧ (sys_open k1).1.1 ≠ -1) →
  ∃ a (st1 : state) k1 a2 (st2 : state) c,
    Acceptor_ctor OnRead ch st k = Ok (a, st1, k1) ∧ others a k1 = fds k ∧
    listen tid a st1 = Ok (a2, st2) ∧ listenning_ a2 = true ∧ loop_ok tid st2.1 st2.2 ∧
    registered st2.1 st2.2 ch c ∧ watch (poller_ st2.2) !! acceptSocket_ a = Some kReadEvent ∧
    ∀ a3 k3 (st3 : state), rtc (acceptor_step log host) (a2, k1) (a3, k3) →
      loop_ok tid st3.1 st3.2 → idle st3.2 → registered st3.1 st3.2 ch c →
      ∃ (st4 : state) k4, Acceptor_dtor tid a3 st3 k3 = Ok (st4, k4) ∧ fds k4 = others a3 k3 ∧
        loop_ok tid st4.1 st4.2 ∧ st4.1 !! ch = None ∧
        channels (poller_ st4.2) = delete (acceptSocket_ a) (channels (poller_ st3.2)).
Proof.
  intros Hok Hnew H0 Hpos Hreg Hcalls.
  destruct (Acceptor_ctor_ok ch st k Hok Hnew Hpos Hreg Hcalls)
    as (a & [os1 l1] & k1 & c & Ec & Hown & Hoth & Hch & Hok1 & _ & Hfr & Hfd & Hev & Heh).
  cbn [fst snd] in *. pose proof Hfr as (Hc & _).
  destruct (enable_fresh_spec tid os1 l1 ch c Hok1 Hfr Hev Heh)
    as (os2 & p2 & c2 & E2 & Hok2 & Hr2 & Ee & Ef & Eh & Hw & _).
  assert (Hsock : fd_ c2 = acceptSocket_ a) by congruence.
  exists a, (os1, l1), k1, (set_listenning true a), (os2, set_poller p2 l1), c2.
  split_and!; try done; [|by rewrite <-Hfd|].
  - unfold listen. cbn [snd]. rewrite (loop_ok_thread _ _ _ Hok1), Hch. cbn [mbind outcome_bind assertInLoopThread].
    by rewrite E2.
  - intros a3 k3 [os3 l3] Hrtc Hok3 Hidle Hr3. cbn [fst snd] in *.
    assert (Hi : acceptor_inv (acceptSocket_ a) ch (a3, k3)).
    { apply (rtc_invariant _ _ (acceptor_step_inv log host (acceptSocket_ a) ch) _ _ Hrtc). unfold acceptor_inv; cbn.
      split_and!; try done. change (0 ∈ others a k1). by rewrite Hoth. }
    destruct Hi as (Hown3 & _ & Hs3 & Hc3). cbn [fst snd] in *.
    destruct (teardown_spec tid os3 l3 ch c2 Hok3 Hidle Hr3)
      as (os4 & p4 & os5 & p5 & E4 & _ & E5 & E6 & Hok6 & Hch6 & _); [by rewrite Ee|congruence|].
    unfold Acceptor_dtor. rewrite Hc3, E4. cbn [mbind outcome_bind]. rewrite E5.
    cbn [mbind outcome_bind]. rewrite E6. cbn [mbind outcome_bind].
    eexists _, _. split_and!; [reflexivity| |done|apply lookup_delete_eq|cbn; by rewrite Hch6, Hsock].
    destruct (close_ok (acceptSocket_ a3) (sys_close (idleFd_ a3) k3)) as (-> & _).
    destruct (close_ok (idleFd_ a3) k3) as (-> & _). unfold others.
    by rewrite difference_difference_l_L, (union_comm_L {[ idleFd_ a3 ]}).
Qed.
End Lifecycle.

(** ** A descriptor table *)
Record table := mkTable { tab : gset Z; lim : nat; waiting : list (list byte) }.

Definition unused (t : table) : Z := Z.succ (foldr Z.max 0 (elements (tab t))).

Definition table_open (t : table) : Z * Z * table :=
  if decide (size (tab t) < lim t)%nat
  then (unused t, 0, mkTable ({[ unused t ]} ∪ tab t) (lim t) (waiting t)) else (-1, EMFILE, t).

Definition table_accept (t : table) : Z * Z * list byte * table :=
  if decide (size (tab t) < lim t)%nat then
    match waiting t with
    | [] => (-1, EAGAIN, [], t)
    | peer :: q => (unused t, 0, peer, mkTable ({[ unused t ]} ∪ tab t) (lim t) q)
    end
  else (-1, EMFILE, [], t).

Definition table_close (fd : Z) (t : table) : table := mkTable (tab t ∖ {[ fd ]}) (lim t) (waiting t).

Lemma unused_ok t : 0 ≤ unused t ∧ (unused t ∉ tab t).
Proof.
  assert (H : ∀ l, 0 ≤ foldr Z.max 0 l ∧ ∀ x, x ∈ l → x ≤ foldr Z.max 0 l).
  { induction l as [|y l [IH0 IH]]; [by split; [|intros x ?%elem_of_nil]|]. cbn. split; [lia|].
    intros x [->|Hx]%elem_of_cons; [lia|]. specialize (IH _ Hx). lia. }
  destruct (H (elements (tab t))) as [H0 Hmax]. unfold unused. split; [lia|].
  intros Hin%elem_of_elements%Hmax. lia.
Qed.

Lemma table_open_ok t fd e t' : table_open t = (fd, e, t') →
  (fd = -1 ∧ tab t' = tab t ∨ 0 ≤ fd ∧ (fd ∉ tab t) ∧ tab t' = {[ fd ]} ∪ tab t) ∧
  waiting t' = waiting t ∧ lim t' = lim t ∧ ((size (tab t) < lim t)%nat → fd ≠ -1).
Proof.
  unfold table_open. destruct (unused_ok t). destruct (decide _); intros [= <- <- <-]; cbn.
  - split_and!; auto. lia.
  - split_and!; auto.
Qed.

#[export] Program Instance table_descriptors : Descriptors table := {
  fds := tab; limit := lim; backlog := waiting; short _ := False;
  sys_socket := table_open; sys_open := table_open; sys_accept := table_accept; sys_close := table_close
}.
Next Obligation. intros k fd e k' (?&_&?&_)%table_open_ok. done. Qed.
Next Obligation. intros k fd e k' (?&?&?&?)%table_open_ok. split_and!; auto. Qed.
Next Obligation.
  intros k fd e addr k'. unfold table_accept. destruct (unused_ok k).
  destruct (decide _); [destruct (waiting k) eqn:Ew|]; intros [= <- <- <- <-]; cbn.
  - split_and!; [left; rewrite Ew; auto|done|done|congruence].
  - split_and!; [right; auto|done|lia|lia].
  - split_and!; [left; auto|done|split; [lia|done]|lia].
Qed.
Next Obligation. done. Qed.

(** Room for four descriptors: the table is full, and a client waits. *)
Definition full_table : table := mkTable {[ 0; 1; 3; 4 ]} 4 [[x02; x00]].
Definition demo_acceptor : Acceptor := mkAcceptor 3 100 true true 4 [].

Lemma acceptor_handles_every_answer_witness :
  ∃ a' k', handleRead id LittleEndian true [] demo_acceptor full_table = Ok (a', k') ∧
    backlog k' = [] ∧ idleFd_ a' ≠ -1 ∧ others a' k' = {[ 0; 1 ]}.
Proof.
  pose proof (acceptor_handles_every_answer id LittleEndian [] demo_acceptor full_table) as H.
  assert (owns demo_acceptor full_table) as Ho.
  { unfold owns. split_and!; [by vm_compute|by right; vm_compute|done|].
    intros fd Hfd. cbn in Hfd. rewrite !elem_of_union, !elem_of_singleton in Hfd. lia. }
  destruct (H Ho ltac:(by vm_compute)) as (a' & k' & E & _ & _ & Hf).
  destruct (Hf ltac:(done)) as (_ & Hoth & _ & Hfull).
  destruct Hfull as [Hb Hi]; [done..|by intros ? ?|].
  exists a', k'. split_and!; [exact E|exact Hb|exact Hi|]. rewrite Hoth. reflexivity.
Defined.

Definition free_table : table := mkTable {[ 0; 1; 2 ]} 100 [].

Lemma acceptor_lifecycle_witness :
  ∃ a st1 k1 a2 st2,
    Acceptor_ctor "read" 100 (∅ : objs string, life_loop) free_table = Ok (a, st1, k1) ∧
    listen 42 a st1 = Ok (a2, st2) ∧
    watch (CB:=string) (poller_ st2.2) !! acceptSocket_ a = Some kReadEvent.
Proof.
  destruct (acceptor_lifecycle 42 "read"%string id LittleEndian 100 (∅ : objs string, life_loop) free_table)
    as (a & st1 & k1 & a2 & st2 & _ & E & _ & E2 & _ & _ & _ & Hw & _).
  - split; [|done]. apply epoll_inv_ctor; [done|]. by intros ch c.
  - done.
  - by vm_compute.
  - intros fd Hfd. cbn in Hfd. rewrite !elem_of_union, !elem_of_singleton in Hfd. lia.
  - done.
  - by vm_compute.
  - exists a, st1, k1, a2, st2. by split_and!.
Defined.
