(* ===== verification/TcpClient.v ===== *)
(** [kaycc::net::TcpClient] ([src/net/tcpclient.h], [src/net/tcpclient.cpp]),
    on top of the [Connector] of Connector.v.

    The client makes a TcpConnection of every socket its connector hands over.
    [made] lists these connections: address, name and socket.  [calls] is the log
    of what the client asked of them; what a connection does then is
    TcpConnection.v's business: it calls its close callback once. *)
From stdpp Require Import list gmap strings.
From S2P Require Import Prelude Timestamp Channel Poller Sockets Connector.

Inductive conn_call :=
  | ConnectEstablished (conn : Ptr)
  | Shutdown (conn : Ptr)
  | ConnectDestroyed (conn : Ptr)      (* queued on the loop *)
  | SetCloseCallback (conn : Ptr)      (* detail::removeConnection, run or queued on the loop *)
  | ForceClose (conn : Ptr).

Record conn_made := mkMade { made_conn : Ptr; made_name : string; made_fd : Z }.

Record TcpClient := mkClient {
  connector_ : Connector (Channel conn_handler);
  name_ : string;
  retry_ : bool;
  connect_ : bool;
  nextConnId_ : Z;
  connection_ : option Ptr;
  made : list conn_made;
  calls : list conn_call
}.

Definition TcpClient_ctor (name : string) : TcpClient :=
  mkClient Connector_ctor name false true 1 None [] [].

Definition set_connector c s := mkClient c (name_ s) (retry_ s) (connect_ s) (nextConnId_ s)
  (connection_ s) (made s) (calls s).
Definition set_connect b s := mkClient (connector_ s) (name_ s) (retry_ s) b (nextConnId_ s)
  (connection_ s) (made s) (calls s).
Definition call_conn x s := mkClient (connector_ s) (name_ s) (retry_ s) (connect_ s) (nextConnId_ s)
  (connection_ s) (made s) (calls s ++ [x]).
Definition set_connection p s := mkClient (connector_ s) (name_ s) (retry_ s) (connect_ s)
  (nextConnId_ s) p (made s) (calls s).
Definition enableRetry s := mkClient (connector_ s) (name_ s) true (connect_ s) (nextConnId_ s)
  (connection_ s) (made s) (calls s).

Section Operations.
(** The loop's address. *)
Variable loop : Z.

(** [sockfd], [errno]: what socket(2) and connect(2) answer if an attempt starts. *)
Definition connect (in_loop : bool) (sockfd errno : Z) s : outcome TcpClient :=
  let s := set_connect true s in
  c ← Connector.start loop in_loop sockfd errno (connector_ s);
  Ok (set_connector c s).

Definition disconnect s : TcpClient :=
  let s := set_connect false s in
  match connection_ s with
  | Some conn => call_conn (Shutdown conn) s
  | None => s
  end.

Definition stop s : TcpClient :=
  let s := set_connect false s in
  set_connector (Connector.stop (connector_ s)) s.

(** [name_] and the 32-byte buffer. *)
Definition connection_name (name peer : string) (id : Z) : string :=
  name +:+ String.substring 0 31 (":" +:+ peer +:+ "#" +:+ digits id).

(** [conn]: the address of the new TcpConnection; [peer]: the text of the peer's
    address.  The connection is stored before it is established. *)
Definition newConnection (in_loop : bool) (conn : Ptr) (peer : string) (sockfd : Z) s : outcome TcpClient :=
  _ ← assertInLoopThread in_loop;
  let connName := connection_name (name_ s) peer (nextConnId_ s) in
  if decide (nextConnId_ s < 2 ^ 31 - 1) then
    let s := mkClient (connector_ s) (name_ s) (retry_ s) (connect_ s) (nextConnId_ s + 1)
      (Some conn) (made s ++ [mkMade conn connName sockfd]) (calls s) in
    Ok (call_conn (ConnectEstablished conn) s)
  else Fail UB.

Definition removeConnection (in_loop : bool) (conn : Ptr) (sockfd errno : Z) s : outcome TcpClient :=
  _ ← assertInLoopThread in_loop;
  assert! bool_decide (connection_ s = Some conn);;
  let s := call_conn (ConnectDestroyed conn) (set_connection None s) in
  if retry_ s && connect_ s then
    c ← Connector.restart loop in_loop sockfd errno (connector_ s);
    Ok (set_connector c s)
  else Ok s.

(** [unique]: no one else holds the connection. *)
Definition TcpClient_dtor (unique : bool) s : TcpClient :=
  match connection_ s with
  | Some conn =>
    let s := call_conn (SetCloseCallback conn) s in
    if unique then call_conn (ForceClose conn) s else s
  | None => set_connector (Connector.stop (connector_ s)) s
  end.

(** ** What can happen to a client *)
Inductive client_op :=
  | KConnect (sockfd errno : Z)
  | KDisconnect
  | KStop
  | KEnableRetry
  | KConnector (o : connector_op) (conn : Ptr) (peer : string)
      (* its connector's event, functor or timer; a delivered socket becomes [conn] *)
  | KClosed (conn : Ptr) (sockfd errno : Z).   (* the connection's closeCallback_ *)

Definition run_client (o : client_op) s : outcome TcpClient :=
  match o with
  | KConnect sockfd errno => connect true sockfd errno s
  | KDisconnect => Ok (disconnect s)
  | KStop => Ok (stop s)
  | KEnableRetry => Ok (enableRetry s)
  | KConnector o conn peer =>
    c ← run_op loop o (connector_ s);
    let s' := set_connector c s in
    match drop (length (delivered (connector_ s))) (delivered c) with
    | [] => Ok s'
    | sockfd :: _ => newConnection true conn peer sockfd s'
    end
  | KClosed conn sockfd errno => removeConnection true conn sockfd errno s
  end.

(** [connect] while the connector is at rest and not connected; a connection's
    close callback in an iteration after the one that made it, when the
    connector's functors of that iteration have run. *)
Definition client_ok (o : client_op) s : Prop :=
  match o with
  | KConnect _ _ => Connector.idle (connector_ s) ∧ state_ (connector_ s) = kDisconnected
  | KDisconnect | KStop | KEnableRetry => True
  | KConnector o conn _ =>
    op_ok o (connector_ s) ∧
    match o with CEvent _ _ _ | CFunctor _ _ | CTimer _ _ => True | _ => False end ∧
    (conn ∉ made_conn <$> made s) ∧ nextConnId_ s < 2 ^ 31 - 1
  | KClosed conn _ _ => connection_ s = Some conn ∧ (FResetChannel ∉ pending (connector_ s))
  end.

Definition client_step s s' : Prop := ∃ o, client_ok o s ∧ run_client o s = Ok s'.
End Operations.

(** ** The invariant *)

(** What was asked of one connection, leaving out [shutdown]. *)
Definition about (conn : Ptr) (x : conn_call) : bool :=
  match x with ConnectEstablished p | ConnectDestroyed p => bool_decide (p = conn) | _ => false end.
Definition calls_for (conn : Ptr) s : list conn_call := filter (λ x, about conn x = true) (calls s).

Definition expected (conn : Ptr) s : list conn_call :=
  ConnectEstablished conn ::
  (if decide (connection_ s = Some conn) then [] else [ConnectDestroyed conn]).

Record client_inv s : Prop := {
  ci_connector : inv (connector_ s);
  ci_connected conn : connection_ s = Some conn →
    state_ (connector_ s) = kConnected ∧ conn ∈ made_conn <$> made s;
  ci_made : made_fd <$> made s = delivered (connector_ s);
  ci_calls conn : calls_for conn s = if decide (conn ∈ made_conn <$> made s) then expected conn s else []
}.

Lemma calls_for_app conn x s :
  calls_for conn (call_conn x s) = calls_for conn s ++ (if about conn x then [x] else []).
Proof.
  unfold calls_for. cbn [calls call_conn]. rewrite filter_app. f_equal. rewrite filter_cons, filter_nil.
  by destruct (about conn x).
Qed.

Section Invariant.
Variable loop : Z.

(** The connector moves, and neither delivers nor disconnects. *)
Lemma client_inv_connector c s : client_inv s → inv c →
  delivered c = delivered (connector_ s) →
  (state_ (connector_ s) = kConnected → state_ c = kConnected) →
  client_inv (set_connector c s).
Proof.
  intros [Hi Hc Hm Hl] Hinv Hd Hst. constructor; cbn; [done| |congruence|done].
  intros conn Hconn. destruct (Hc _ Hconn). auto.
Qed.

Lemma client_inv_call x s : client_inv s → (∀ conn, about conn x = false) → client_inv (call_conn x s).
Proof.
  intros [Hi Hc Hm Hl] Hx. constructor; [done..|]. intros conn. rewrite calls_for_app, Hx, app_nil_r.
  exact (Hl conn).
Qed.

Lemma newConnection_inv conn peer fd c s :
  client_inv s → inv c → connection_ s = None → (conn ∉ made_conn <$> made s) →
  nextConnId_ s < 2 ^ 31 - 1 → state_ c = kConnected → delivered c = delivered (connector_ s) ++ [fd] →
  ∃ s', newConnection true conn peer fd (set_connector c s) = Ok s' ∧ client_inv s'.
Proof.
  intros [Hi Hc Hm Hl] Hinv Hn Hnew Hid Hst Hd. unfold newConnection.
  cbn [assertInLoopThread mbind outcome_bind nextConnId_ set_connector]. rewrite decide_True by done.
  eexists. split; [done|]. constructor.
  - done.
  - intros p [= <-]. split; [done|]. cbn. rewrite fmap_app. apply elem_of_app. right. by apply list_elem_of_singleton.
  - cbn. by rewrite fmap_app, Hm, Hd.
  - intros p. rewrite calls_for_app. change (calls_for p (mkClient _ _ _ _ _ _ _ (calls _))) with (calls_for p s).
    rewrite Hl. unfold expected. cbn. rewrite fmap_app, Hn. destruct (decide (conn = p)) as [->|Hne].
    + rewrite (bool_decide_true (p = p)) by done. rewrite (decide_False (P := p ∈ _)) by done.
      rewrite (decide_True (P := p ∈ _)) by (apply elem_of_app; right; by apply list_elem_of_singleton).
      by rewrite decide_True.
    + rewrite (bool_decide_false (conn = p)), app_nil_r by done.
      rewrite (decide_False (P := Some conn = Some p)) by congruence.
      rewrite (decide_False (P := None = Some p)) by done.
      destruct (decide (p ∈ made_conn <$> made s)) as [Hin|Hin].
      * rewrite decide_True; [done|]. apply elem_of_app. by left.
      * rewrite decide_False; [done|]. rewrite elem_of_app. intros [?|?%list_elem_of_singleton]; [done|].
        by subst.
Qed.

Lemma closed_inv conn s : client_inv s → connection_ s = Some conn →
  client_inv (call_conn (ConnectDestroyed conn) (set_connection None s)).
Proof.
  intros [Hi Hc Hm Hl] Hconn. constructor; [done| |done|]. { by intros p ?. }
  intros p. rewrite calls_for_app. change (calls_for p (set_connection None s)) with (calls_for p s).
  rewrite Hl. unfold expected. cbn. rewrite Hconn. destruct (decide (conn = p)) as [->|Hne].
  - rewrite (bool_decide_true (p = p)) by done. rewrite !(decide_True (P := p ∈ _)) by (by apply Hc).
    by rewrite decide_True.
  - rewrite (bool_decide_false (conn = p)), app_nil_r by done.
    by rewrite (decide_False (P := Some conn = Some p)) by congruence.
Qed.

(** A connected connector whose functors have run can be restarted. *)
Lemma connected_idle c : inv c → state_ c = kConnected → (FResetChannel ∉ pending c) → idle c.
Proof.
  intros [Hi _ _] Hst Hr. rewrite Hst in Hi. destruct Hi as (Ht & _ & Hcl). unfold idle.
  split_and!; [by rewrite Hst|done|by apply cleaning_none_iff].
Qed.

Lemma client_inv_flags s s' : client_inv s → connector_ s' = connector_ s → connection_ s' = connection_ s →
  made s' = made s → calls s' = calls s → client_inv s'.
Proof.
  intros [Hi Hc Hm Hl] E1 E2 E3 E4. constructor; rewrite ?E1, ?E2, ?E3; [done..|].
  intros conn. unfold calls_for, expected. rewrite E4, E2. apply Hl.
Qed.

Lemma connect_inv fd errno s : client_inv s → client_ok (KConnect fd errno) s →
  ∃ s', connect loop true fd errno s = Ok s' ∧ client_inv s'.
Proof.
  intros Hinv Hok. destruct (connector_op_inv loop (CStart fd errno) _ (ci_connector _ Hinv) Hok) as (c & E & Hc).
  unfold connect. cbn [connector_ set_connect]. cbn [run_op] in E. rewrite E. cbn [mbind outcome_bind].
  eexists. split; [done|]. unfold Connector.start in E.
  destruct (startInLoop_keeps _ _ _ _ _ E) as ([Hd _] & Hst & _).
  apply client_inv_connector; [by apply (client_inv_flags s)|done|done|].
  cbn. intros Hk. destruct Hok as [_ Hs]. congruence.
Qed.

Lemma own_connector_inv o conn peer s : client_inv s → client_ok (KConnector o conn peer) s →
  ∃ s', run_client loop (KConnector o conn peer) s = Ok s' ∧ client_inv s'.
Proof.
  intros Hinv (Hop & Ho & Hnew & Hid).
  destruct (connector_op_inv loop o _ (ci_connector _ Hinv) Hop) as (c & E & Hc).
  assert (on_its_own o) as Hown by by destruct o.
  cbn [run_client]. rewrite E. cbn [mbind outcome_bind].
  destruct (own_step_delivers loop _ _ _ (ci_connector _ Hinv) Hop Hown E)
    as [(Hd & Hst & _)|(fd & Hd & _ & Hst & Hst' & _)].
  - rewrite Hd, drop_all. eexists. split; [done|]. by apply client_inv_connector.
  - rewrite Hd, drop_app_length. apply newConnection_inv; try done.
    destruct (connection_ s) as [p|] eqn:Ep; [|done]. destruct (ci_connected _ Hinv _ Ep). congruence.
Qed.

Lemma removeConnection_inv conn fd errno s : client_inv s → client_ok (KClosed conn fd errno) s →
  ∃ s', removeConnection loop true conn fd errno s = Ok s' ∧ client_inv s' ∧ connection_ s' = None ∧
    if retry_ s && connect_ s then restart loop true fd errno (connector_ s) = Ok (connector_ s')
    else connector_ s' = connector_ s.
Proof.
  intros Hinv (Hconn & Hr). unfold removeConnection. cbn [assertInLoopThread mbind outcome_bind].
  rewrite bool_decide_true by done. cbn [assert_ mbind outcome_bind retry_ connect_ call_conn set_connection].
  pose proof (closed_inv _ _ Hinv Hconn) as Hinv'.
  destruct (retry_ s && connect_ s); [|by eexists].
  destruct (ci_connected _ Hinv _ Hconn) as [Hst _].
  pose proof (connected_idle _ (ci_connector _ Hinv) Hst Hr) as Hidle.
  destruct (connector_op_inv loop (CRestart fd errno) _ (ci_connector _ Hinv) Hidle) as (c & E & Hc).
  cbn [run_op] in E. cbn [connector_ call_conn set_connection]. rewrite E. cbn [mbind outcome_bind].
  eexists. split; [done|]. split; [|by split].
  unfold restart in E. cbn [assertInLoopThread mbind outcome_bind] in E.
  destruct (startInLoop_keeps _ _ _ _ _ E) as ([Hd _] & _ & _).
  destruct Hinv' as [H1 H2 H3 H4]. constructor; [done|by intros p ?|exact (eq_trans H3 (eq_sym Hd))|exact H4].
Qed.

Lemma client_op_inv o s : client_inv s → client_ok o s → ∃ s', run_client loop o s = Ok s' ∧ client_inv s'.
Proof.
  intros Hinv Hok. destruct o as [fd e| | | |o conn peer|conn fd e].
  - by apply connect_inv.
  - eexists. split; [done|]. unfold disconnect. cbn [connection_ set_connect].
    destruct (connection_ s); [apply client_inv_call; [|done]|]; by apply (client_inv_flags s).
  - eexists. split; [done|]. unfold stop.
    destruct (connector_op_inv loop CStop _ (ci_connector _ Hinv) I) as (c & [= <-] & Hc).
    apply client_inv_connector; [by apply (client_inv_flags s)|done|done|done].
  - eexists. split; [done|]. by apply (client_inv_flags s).
  - by apply own_connector_inv.
  - destruct (removeConnection_inv _ _ _ _ Hinv Hok) as (s' & ? & ? & _). by exists s'.
Qed.

Lemma client_ctor_inv name : client_inv (TcpClient_ctor name).
Proof. constructor; [apply inv_ctor|done|done|]. intros conn. cbn. rewrite decide_False; [done|]. apply not_elem_of_nil. Qed.

Lemma client_reachable name s : rtc (client_step loop) (TcpClient_ctor name) s → client_inv s.
Proof.
  intros Hrtc. apply (rtc_invariant (client_step loop) client_inv) in Hrtc; [done| |apply client_ctor_inv].
  intros s1 s2 Hinv (o & Hok & E). destruct (client_op_inv o s1 Hinv Hok) as (s' & E' & ?). congruence.
Qed.

(** C24: a client and its connector.  In every execution no operation trips an
    assertion; each socket the connector hands over becomes one connection, which
    is established once and, when it has closed, destroyed once; while it is up
    the connector makes no attempt; and when it closes the client reconnects
    exactly if it was told to retry and neither [stop] nor [disconnect] was called
    ([connect_]). *)
Theorem client_tracks_connection name s :
  rtc (client_step loop) (TcpClient_ctor name) s →
  (∀ o, client_ok o s → ∃ s', run_client loop o s = Ok s') ∧
  made_fd <$> made s = delivered (connector_ s) ∧
  (∀ conn, conn ∈ made_conn <$> made s → calls_for conn s =
     ConnectEstablished conn :: (if decide (connection_ s = Some conn) then [] else [ConnectDestroyed conn])) ∧
  (∀ conn, connection_ s = Some conn →
     state_ (connector_ s) = kConnected ∧ sockets (connector_ s) = ∅ ∧ timers (connector_ s) = 0%nat) ∧
  (∀ conn fd errno, client_ok (KClosed conn fd errno) s →
     ∃ s', run_client loop (KClosed conn fd errno) s = Ok s' ∧ connection_ s' = None ∧
       if retry_ s && connect_ s then restart loop true fd errno (connector_ s) = Ok (connector_ s')
       else connector_ s' = connector_ s).
Proof.
  intros Hrtc. pose proof (client_reachable _ _ Hrtc) as Hinv. pose proof Hinv as [Hi Hc Hm Hl]. split_and!.
  - intros o Hok. destruct (client_op_inv o s Hinv Hok) as (s' & ? & _). by exists s'.
  - done.
  - intros conn Hin. rewrite Hl, decide_True by done. done.
  - intros conn Hconn. destruct (Hc _ Hconn) as [Hst _]. destruct Hi as [Hi _ _]. rewrite Hst in Hi.
    by destruct Hi as (? & ? & _).
  - intros conn fd errno Hok. destruct (removeConnection_inv _ _ _ _ Hinv Hok) as (s' & ? & _ & ? & ?).
    by exists s'.
Qed.

(** ** After the client *)
Definition own_step c c' : Prop := ∃ o, op_ok o c ∧ on_its_own o ∧ run_op loop o c = Ok c'.

Definition silent_connector c : Prop := inv c ∧ (Connector.connect_ c = false ∨ state_ c = kConnected).

Lemma silent_step c c' : silent_connector c → own_step c c' →
  silent_connector c' ∧ delivered c' = delivered c.
Proof.
  intros [Hinv Hs] (o & Hop & Ho & E).
  destruct (connector_op_inv loop o c Hinv Hop) as (c2 & E2 & Hinv'). rewrite E in E2. injection E2 as <-.
  destruct (own_step_delivers loop _ _ _ Hinv Hop Ho E) as [(Hd & Hst & Hcon)|(fd & _ & Hcon & Hst & _)].
  - split; [|done]. split; [done|]. destruct Hs; auto.
  - destruct Hs; congruence.
Qed.

(** After the destructor the connector is silent. *)
Lemma dtor_silent unique s : client_inv s →
  silent_connector (connector_ (TcpClient_dtor unique s)) ∧
  delivered (connector_ (TcpClient_dtor unique s)) = delivered (connector_ s).
Proof.
  intros Hinv. unfold TcpClient_dtor. destruct (connection_ s) as [conn|] eqn:Ec.
  - replace (connector_ _) with (connector_ s) by by destruct unique.
    split; [|done]. split; [apply Hinv|]. right. by eapply ci_connected.
  - destruct (connector_op_inv loop CStop _ (ci_connector _ Hinv) I) as (c & [= <-] & Hc).
    split; [|done]. split; [done|]. by left.
Qed.

(** The destructor leaves nothing behind that calls the client.  Its
    connector, which lives on in queued functors and timers, never again delivers
    a socket, to whatever it was doing; a live connection gets a close callback
    that does not mention the client, and is closed when nobody else holds it. *)
Theorem destroyed_client_is_left_alone name s unique c' :
  rtc (client_step loop) (TcpClient_ctor name) s →
  let s' := TcpClient_dtor unique s in
  rtc own_step (connector_ s') c' →
  delivered c' = delivered (connector_ s) ∧
  (∀ conn, connection_ s = Some conn →
     calls s' = calls s ++ SetCloseCallback conn :: (if unique then [ForceClose conn] else [])).
Proof.
  intros Hrtc s' Hown. pose proof (client_reachable _ _ Hrtc) as Hinv. split.
  - destruct (dtor_silent unique s Hinv) as [Hs Hd0]. fold s' in Hs, Hd0. rewrite <-Hd0.
    clear Hd0. clearbody s'. clear Hrtc. induction Hown as [|c1 c2 c3 H12 H23 IH]; [done|].
    destruct (silent_step _ _ Hs H12) as [Hs2 Hd]. rewrite IH by done. exact Hd.
  - intros conn Hconn. unfold s', TcpClient_dtor. rewrite Hconn. destruct unique; cbn; [|done].
    by rewrite <-app_assoc.
Qed.

(** A client whose connection has closed, and that was not to retry, cannot be
    connected again: its connector still is in [kConnected], and [connect] trips
    the connector's assertion. *)
Theorem client_cannot_reconnect name s conn fd errno s' fd' errno' :
  rtc (client_step loop) (TcpClient_ctor name) s →
  client_ok (KClosed conn fd errno) s → retry_ s = false →
  run_client loop (KClosed conn fd errno) s = Ok s' →
  run_client loop (KConnect fd' errno') s' = Fail AssertFailure.
Proof.
  intros Hrtc Hok Hretry E. pose proof (client_reachable _ _ Hrtc) as Hinv.
  destruct (removeConnection_inv _ _ _ _ Hinv Hok) as (s2 & E2 & _ & _ & Hc).
  cbn [run_client] in E. rewrite E2 in E. injection E as <-. rewrite Hretry in Hc. cbn [andb] in Hc.
  destruct (ci_connected _ Hinv _ (proj1 Hok)) as [Hst _].
  cbn. unfold connect, Connector.start, startInLoop. cbn [connector_ set_connect]. rewrite Hc.
  cbn [assertInLoopThread mbind outcome_bind]. by rewrite bool_decide_false by (cbn; congruence).
Qed.
End Invariant.

(** *** A client connects, and the connection closes *)
Definition demo0 : TcpClient := TcpClient_ctor "c".
Definition demo_next (o : client_op) (s : TcpClient) : TcpClient := from_ok s (run_client 1 o s).
Definition demo1 : TcpClient := demo_next (KConnect 7 EINPROGRESS) demo0.
Definition demo2 : TcpClient := demo_next (KConnector (CEvent POLLOUT 0 false) 500 "10.0.0.7:80") demo1.
Definition demo3 : TcpClient := demo_next (KConnector (CFunctor 8 0) 501 "") demo2.

Lemma demo_reachable : rtc (client_step 1) demo0 demo3.
Proof.
  apply (rtc_l _ _ demo1).
  { exists (KConnect 7 EINPROGRESS). split; [|by vm_compute]. split; [|done]. by split_and!. }
  apply (rtc_l _ _ demo2).
  { exists (KConnector (CEvent POLLOUT 0 false) 500 "10.0.0.7:80"). split; [|by vm_compute].
    split_and!; [|done|apply not_elem_of_nil|done]. cbn. eexists. split; [by vm_compute|done]. }
  apply (rtc_l _ _ demo3); [|done].
  exists (KConnector (CFunctor 8 0) 501 ""). split; [|by vm_compute].
  split_and!; [done|done|by apply (bool_decide_unpack _); vm_compute|done].
Qed.

Lemma demo_closable : client_ok (KClosed 500 9 EINPROGRESS) demo3.
Proof. split; [done|]. by apply (bool_decide_unpack _); vm_compute. Qed.

Lemma client_tracks_connection_witness :
  made_fd <$> made demo3 = [7] ∧ calls_for 500 demo3 = [ConnectEstablished 500] ∧
  ∃ s', run_client 1 (KClosed 500 9 EINPROGRESS) demo3 = Ok s'.
Proof.
  destruct (client_tracks_connection 1 "c" demo3 demo_reachable) as (Hrun & Hm & Hc & _).
  split_and!; [exact Hm| |apply Hrun, demo_closable].
  apply (Hc 500). by apply (bool_decide_unpack _); vm_compute.
Defined.

Lemma destroyed_client_is_left_alone_witness :
  calls (TcpClient_dtor true demo3) = calls demo3 ++ [SetCloseCallback 500; ForceClose 500].
Proof.
  apply (destroyed_client_is_left_alone 1 "c" demo3 true (connector_ (TcpClient_dtor true demo3)) demo_reachable);
    [apply rtc_refl|reflexivity].
Defined.

Lemma client_cannot_reconnect_witness :
  run_client 1 (KConnect 9 EINPROGRESS) (demo_next (KClosed 500 9 EINPROGRESS) demo3) = Fail AssertFailure.
Proof.
  apply (client_cannot_reconnect 1 "c" demo3 500 9 EINPROGRESS); [apply demo_reachable|apply demo_closable|done|].
  by vm_compute.
Defined.

(** The 32-byte buffer cuts long names: an IPv6 peer's connections are all called
    alike. *)
Example long_names_collide :
  connection_name "c" "2001:db8:85a3::8a2e:370:7334:443" 1 = connection_name "c" "2001:db8:85a3::8a2e:370:7334:443" 2.
Proof. reflexivity. Qed.
