(* ===== verification/LoopLife.v ===== *)
(** The life of an event loop object: the constructors and destructors of
    [EventLoop] and [TimerQueue] with their channels and descriptors
    ([src/net/eventloop.cpp], [src/net/timerqueue.cpp]), and
    [t_loopInThisThread].

    The poller is any implementation of the [Poller] class, already constructed.
    The objects' addresses are given; [EventLoop.v] and [TimerQueue.v] say what
    happens between construction and destruction. *)
From stdpp Require Import gmap strings.
From S2P Require Import Prelude Channel Poller EPollPoller Reactor Timestamp TimerQueue Acceptor.

(** eventfd(2) and timerfd_create(2). *)
Class EventDescriptors (K : Type) `{!Descriptors K} := {
  sys_timerfd : K → Z * K;
  sys_eventfd : K → Z * K;
  timerfd_made k fd k' : sys_timerfd k = (fd, k') → grown (fds k) (fds k') fd;
  eventfd_made k fd k' : sys_eventfd k = (fd, k') → grown (fds k) (fds k') fd
}.

(** What the loop object owns of both: the timer queue's and its own. *)
Record parts := mkParts {
  timerfd : Z;
  timerfdChannel_ : Ptr;
  wakeupFd_ : Z;
  wakeupChannel_ : Ptr
}.

Section LoopLife.
Context {CB TCB P K : Type} `{!Poller CB P} `{!Descriptors K} `{!EventDescriptors K}.

(** The callbacks bound to [TimerQueue::handleRead] and [EventLoop::handleRead]. *)
Variables OnTimer OnWakeup : CB.
Abbreviation state := (objs CB * Loop P)%type.
Implicit Types (st : state) (k : K) (q : TimerQueue TCB).

(** A failure is only logged ... *)
Definition createTimerfd k : Z * K := sys_timerfd k.

(** ... or ends the process. *)
Definition createEventfd k : outcome (Z * K) :=
  let '(evtfd, k) := sys_eventfd k in
  if evtfd <? 0 then Fail Aborted else Ok (evtfd, k).

(** A channel made at [ch] for [fd], its read callback, and [enableReading]. *)
Definition open_channel (tid : Z) (cb : CB) (fd : Z) (ch : Ptr) st : outcome state :=
  enableReading tid ch (<[ch := setReadCallback cb (Channel_ctor (self st.2) fd)]> st.1, st.2).

Definition TimerQueue_open (tid : Z) (ch : Ptr) st k : outcome (Z * state * K) :=
  let '(fd, k) := createTimerfd k in
  st ← open_channel tid OnTimer fd ch st;
  Ok (fd, st, k).

(** The loop of [~TimerQueue] over [timers_]. *)
Fixpoint delete_timers (l : list Entry) q : outcome (TimerQueue TCB) :=
  match l with
  | [] => Ok q
  | e :: l' => _ ← get_timer e.2 q; delete_timers l' (set_heap (delete e.2 (heap q)) q)
  end.

Definition TimerQueue_dtor (tid : Z) (fd : Z) (ch : Ptr) q st k : outcome (TimerQueue TCB * state * K) :=
  st ← disableAll tid ch st;
  st ← channel_remove tid ch st;
  let k := sys_close fd k in
  q ← delete_timers (timers_ q) q;
  st ← Channel_dtor tid ch st;
  Ok (q, st, k).

(** [this]: the loop's address; [t_loop]: the thread's [t_loopInThisThread].
    A second loop in one thread is only logged. *)
Definition EventLoop_make (tid this : Z) (p : P) (tch wch : Ptr) (os : objs CB) k (t_loop : option Ptr)
    : outcome (parts * state * K * option Ptr) :=
  let l := mkLoop this tid false [] None p in
  '(tfd, st, k) ← TimerQueue_open tid tch (os, l) k;
  '(wfd, k) ← createEventfd k;
  let t_loop := match t_loop with Some _ => t_loop | None => Some this end in
  st ← open_channel tid OnWakeup wfd wch st;
  Ok (mkParts tfd tch wfd wch, st, k, t_loop).

Definition getEventLoopOfCurrentThread (t_loop : option Ptr) : option Ptr := t_loop.

(** The destructor's body, then those of [wakeupChannel_] and [timerQueue_]. *)
Definition EventLoop_dtor (tid : Z) (x : parts) q st k : outcome (TimerQueue TCB * state * K * option Ptr) :=
  st ← disableAll tid (wakeupChannel_ x) st;
  st ← channel_remove tid (wakeupChannel_ x) st;
  let k := sys_close (wakeupFd_ x) k in
  let t_loop := None in
  st ← Channel_dtor tid (wakeupChannel_ x) st;
  '(q, st, k) ← TimerQueue_dtor tid (timerfd x) (timerfdChannel_ x) q st k;
  Ok (q, st, k, t_loop).

(** ** Lemmas *)
Lemma delete_timers_ok l : ∀ q, NoDup l.*2 → (∀ e, e ∈ l → is_Some (heap q !! e.2)) →
  ∃ q', delete_timers l q = Ok q' ∧ dom (heap q') = dom (heap q) ∖ list_to_set l.*2.
Proof.
  induction l as [|e l IH]; intros q Hn Hl; cbn [delete_timers].
  { exists q. split; [done|]. cbn. by rewrite difference_empty_L. }
  csimpl in Hn. apply NoDup_cons in Hn as [He Hn].
  destruct (Hl e) as [t Ht]; [apply elem_of_cons; by left|].
  unfold get_timer. rewrite Ht. cbn [mbind outcome_bind].
  destruct (IH (set_heap (delete e.2 (heap q)) q) Hn) as (q' & E & Hd).
  - intros e' Hin. cbn. rewrite lookup_delete_ne; [apply Hl, elem_of_cons; by right|].
    intros Ee. apply He. rewrite Ee. apply list_elem_of_fmap. by exists e'.
  - exists q'. split; [done|]. rewrite Hd. cbn. by rewrite dom_delete_L, difference_difference_l_L.
Qed.

Lemma open_channel_ok tid cb fd ch os (l : Loop P) :
  loop_ok tid os l → os !! ch = None → fd_ok fd → channels (poller_ l) !! fd = None →
  ∃ os' p' c', open_channel tid cb fd ch (os, l) = Ok (os', set_poller p' l) ∧
    loop_ok tid os' (set_poller p' l) ∧ registered os' (set_poller p' l) ch c' ∧ events_ c' = kReadEvent ∧
    fd_ c' = fd ∧ Channel.eventHandling_ c' = false ∧ watch p' !! fd = Some kReadEvent ∧
    channels p' = <[fd := ch]> (channels (poller_ l)) ∧ (∀ ch', ch' ≠ ch → os' !! ch' = os !! ch') ∧
    ∀ fd', fd' ≠ fd → watch p' !! fd' = watch (poller_ l) !! fd'.
Proof.
  intros Hok Hnew Hfd Hn. destruct (new_channel_spec tid os l ch fd cb Hok Hnew Hfd Hn) as [Hok1 Hfr].
  destruct (enable_fresh_spec tid _ l ch _ Hok1 Hfr eq_refl eq_refl)
    as (os' & p' & c' & E & Hok' & Hr & He & Hf & Hh & Hw & Hch & Ho & Hw'). cbn in Hf, Hw, Hch, Hw'.
  exists os', p', c'. split_and!; try done. intros ch' Hq. rewrite Ho by done. by apply lookup_insert_ne.
Qed.

(** Off the loop's thread, a channel's [disableAll] aborts. *)
Lemma disableAll_elsewhere tid tid' os (l : Loop P) ch c :
  loop_ok tid os l → registered os l ch c → tid' ≠ tid → disableAll tid' ch (os, l) = Fail Aborted.
Proof.
  intros [_ Ht] (Hc & Hl & _) Hne.
  unfold disableAll, put, channel_update, put, loop_updateChannel, obj, isInLoopThread. cbn [fst snd].
  rewrite Hc. cbn [mbind outcome_bind fst snd]. rewrite lookup_insert_eq. cbn [mbind outcome_bind fst snd].
  rewrite lookup_insert_eq. cbn [mbind outcome_bind]. change (loop_ _) with (loop_ c).
  rewrite Hl, Z.eqb_refl, Ht, (proj2 (Z.eqb_neq tid tid')) by congruence. reflexivity.
Qed.
(** A channel of the loop's own, waiting for input. *)
Definition reading st (ch : Ptr) (fd : Z) : Prop :=
  ∃ c, registered st.1 st.2 ch c ∧ fd_ c = fd ∧ events_ c = kReadEvent ∧ Channel.eventHandling_ c = false.

Lemma reading_kept os (l : Loop P) os' p' ch fd :
  reading (os, l) ch fd → option_Forall2 same_but_index (os !! ch) (os' !! ch) →
  channels p' !! fd = channels (poller_ l) !! fd → watch p' !! fd = watch (poller_ l) !! fd →
  reading (os', set_poller p' l) ch fd.
Proof.
  intros (c & Hr & <- & He & Hh) Ho Hch Hw.
  destruct (registered_kept _ _ _ _ _ _ Hr Ho Hch Hw) as (c' & Hr' & Hs). exists c'.
  destruct (same_but_index_fields _ _ Hs) as (Ef & Ee & _ & Eh & _). cbn. split_and!; congruence || done.
Qed.

Lemma option_refl (os os' : objs CB) ch : os' !! ch = os !! ch →
  option_Forall2 same_but_index (os !! ch) (os' !! ch).
Proof. intros ->. by destruct (os !! ch); constructor. Qed.

(** Taking one of them down leaves the other. *)
Lemma teardown_ok tid os (l : Loop P) ch fd : loop_ok tid os l → idle l → reading (os, l) ch fd →
  ∃ os2 p2 os3 p3,
    disableAll tid ch (os, l) = Ok (os2, set_poller p2 l) ∧
    channel_remove tid ch (os2, set_poller p2 l) = Ok (os3, set_poller p3 l) ∧
    Channel_dtor tid ch (os3, set_poller p3 l) = Ok (delete ch os3, set_poller p3 l) ∧
    loop_ok tid (delete ch os3) (set_poller p3 l) ∧ channels p3 = delete fd (channels (poller_ l)) ∧
    ∀ ch' fd', ch' ≠ ch → fd' ≠ fd → reading (os, l) ch' fd' →
      reading (delete ch os3, set_poller p3 l) ch' fd'.
Proof.
  intros Hok Hidle (c & Hr & <- & He & Hh).
  destruct (teardown_spec tid os l ch c Hok Hidle Hr)
    as (os2 & p2 & os3 & p3 & E2 & _ & E3 & E4 & Hok4 & Hch & Hw & Ho); [by rewrite He|done|].
  exists os2, p2, os3, p3. split_and!; try done. intros ch' fd' Hne Hfd Hr'.
  apply (reading_kept os l); [done| | |by apply Hw].
  - rewrite lookup_delete_ne by done. by apply Ho.
  - by rewrite Hch, lookup_delete_ne.
Qed.

Lemma TimerQueue_dtor_ok tid fd ch q pend os (l : Loop P) k :
  loop_ok tid os l → idle l → reading (os, l) ch fd → tq_inv (q, pend) →
  ∃ q' os' p', TimerQueue_dtor tid fd ch q (os, l) k = Ok (q', (delete ch os', set_poller p' l), sys_close fd k) ∧
    loop_ok tid (delete ch os') (set_poller p' l) ∧ channels p' = delete fd (channels (poller_ l)) ∧
    (∀ ch', ch' ≠ ch → os !! ch' = None → os' !! ch' = None) ∧ dom (heap q') = pend.
Proof.
  intros Hok Hidle Hr Hq. pose proof (tq_consistent _ Hq) as Hc. cbn [fst] in Hc.
  destruct Hr as (c & Hr & <- & He & Hh).
  destruct (teardown_spec tid os l ch c Hok Hidle Hr)
    as (os2 & p2 & os3 & p3 & E2 & _ & E3 & E4 & Hok4 & Hch & _ & Ho); [by rewrite He|done|].
  destruct (delete_timers_ok (timers_ q) q (inv_nodup q Hc)) as (q' & E & Hd).
  { intros [e p] Hin. destruct (inv_timers q Hc e p Hin) as (t & ? & _). by exists t. }
  exists q', os3, p3. unfold TimerQueue_dtor. rewrite E2. cbn [mbind outcome_bind]. rewrite E3.
  cbn [mbind outcome_bind]. rewrite E. cbn [mbind outcome_bind]. rewrite E4. cbn [mbind outcome_bind].
  split_and!; try done.
  - intros ch' Hne Hn. specialize (Ho ch' Hne). rewrite Hn in Ho. by inversion Ho.
  - rewrite Hd. apply set_eq. intros p. rewrite elem_of_difference, elem_of_dom, elem_of_list_to_set. split.
    + intros [Hl Hns]. by destruct (tq_no_leak _ Hq p Hl).
    + intros Hp. exact (tq_pend _ Hq p Hp).
Qed.

Lemma EventLoop_dtor_ok tid (x : parts) q pend os (l : Loop P) k :
  loop_ok tid os l → idle l → reading (os, l) (timerfdChannel_ x) (timerfd x) →
  reading (os, l) (wakeupChannel_ x) (wakeupFd_ x) → tq_inv (q, pend) →
  timerfdChannel_ x ≠ wakeupChannel_ x → wakeupFd_ x ≠ timerfd x →
  ∃ q' st k', EventLoop_dtor tid x q (os, l) k = Ok (q', st, k', None) ∧
    loop_ok tid st.1 st.2 ∧ st.1 !! timerfdChannel_ x = None ∧ st.1 !! wakeupChannel_ x = None ∧
    channels (poller_ st.2) = delete (timerfd x) (delete (wakeupFd_ x) (channels (poller_ l))) ∧
    fds k' = fds k ∖ {[ wakeupFd_ x; timerfd x ]} ∧ dom (heap q') = pend.
Proof.
  destruct x as [t tch w wch]. cbn [timerfd timerfdChannel_ wakeupFd_ wakeupChannel_].
  intros Hok Hidle Hrt Hrw Hq Hne Hwt.
  destruct (teardown_ok tid os l wch w Hok Hidle Hrw)
    as (os4 & p4 & os5 & p5 & E4 & E5 & E6 & Hok6 & Hch6 & Hkeep).
  destruct (TimerQueue_dtor_ok tid t tch q pend (delete wch os5) (set_poller p5 l) (sys_close w k) Hok6)
    as (q' & os7 & p7 & E7 & Hok7 & Hch7 & Hn7 & Hd); [done|apply Hkeep; congruence|done|].
  unfold EventLoop_dtor. cbn [timerfd wakeupFd_ timerfdChannel_ wakeupChannel_]. rewrite E4.
  cbn [mbind outcome_bind]. rewrite E5. cbn [mbind outcome_bind]. rewrite E6. cbn [mbind outcome_bind].
  rewrite E7. cbn [mbind outcome_bind].
  eexists q', _, _. split_and!; [reflexivity|done|apply lookup_delete_eq| | | |done].
  - cbn. rewrite lookup_delete_ne by done. apply Hn7; [done|]. apply lookup_delete_eq.
  - cbn. by rewrite Hch7, <-Hch6.
  - destruct (close_ok t (sys_close w k)) as [-> _]. destruct (close_ok w k) as [-> _].
    by rewrite difference_difference_l_L.
Qed.

(** ** Property *)

(** C21: the life of an event loop, with either poller.  The constructor takes two
    descriptors, which the poller then watches for input, and registers the loop
    for its thread unless there is one already.  Whatever happened in between,
    the destructor, in the loop's thread, trips no assertion, takes its two
    channels out of the poller, closes exactly its two descriptors and frees every
    scheduled timer; the timers that remain are those another thread created and
    whose functor was still queued.  In any other thread it aborts. *)
Theorem loop_lifecycle tid this (p : P) tch wch (os : objs CB) k t_loop :
  loop_ok tid os (mkLoop this tid false [] None p) → channels p = ∅ →
  os !! tch = None → os !! wch = None → tch ≠ wch → (∀ fd, fd ∈ fds k → 0 ≤ fd) →
  (let '(t, k1) := sys_timerfd k in let '(w, _) := sys_eventfd k1 in
   t ≠ -1 ∧ w ≠ -1 ∧ t < 2 ^ 31 - 1 ∧ w < 2 ^ 31 - 1) →
  ∃ x st1 k1, EventLoop_make tid this p tch wch os k t_loop = Ok (x, st1, k1, Some (default this t_loop)) ∧
    loop_ok tid st1.1 st1.2 ∧ reading st1 tch (timerfd x) ∧ reading st1 wch (wakeupFd_ x) ∧
    watch (poller_ st1.2) !! timerfd x = Some kReadEvent ∧
    watch (poller_ st1.2) !! wakeupFd_ x = Some kReadEvent ∧
    fds k1 = {[ wakeupFd_ x; timerfd x ]} ∪ fds k ∧ fds k ## {[ wakeupFd_ x; timerfd x ]} ∧
    ∀ call q pend st2 k2, calls_use_api call → rtc (tq_step call) (TimerQueue_ctor, ∅) (q, pend) →
      loop_ok tid st2.1 st2.2 → idle st2.2 → reading st2 tch (timerfd x) → reading st2 wch (wakeupFd_ x) →
      (∃ q' st3 k3, EventLoop_dtor tid x q st2 k2 = Ok (q', st3, k3, None) ∧
         loop_ok tid st3.1 st3.2 ∧ st3.1 !! tch = None ∧ st3.1 !! wch = None ∧
         channels (poller_ st3.2) = delete (timerfd x) (delete (wakeupFd_ x) (channels (poller_ st2.2))) ∧
         fds k3 = fds k2 ∖ {[ wakeupFd_ x; timerfd x ]} ∧ dom (heap q') = pend) ∧
      (∀ tid', tid' ≠ tid → EventLoop_dtor tid' x q st2 k2 = Fail Aborted).
Proof.
  intros Hok Hp Ht Hw Hne Hpos. unfold EventLoop_make, TimerQueue_open, createTimerfd, createEventfd.
  destruct (sys_timerfd k) as [t k1] eqn:Et. destruct (sys_eventfd k1) as [w k2] eqn:Ew.
  intros (Ht1 & Hw1 & Ht2 & Hw2). set (l := mkLoop this tid false [] None p) in *.
  destruct (timerfd_made _ _ _ Et) as [[? _]|(Htp & Htn & F1)]; [done|].
  destruct (eventfd_made _ _ _ Ew) as [[? _]|(Hwp & Hwn & F2)]; [done|].
  assert (Hwt : w ≠ t) by (intros ->; apply Hwn; rewrite F1; by apply elem_of_union_l, elem_of_singleton).
  destruct (open_channel_ok tid OnTimer t tch os l Hok Ht)
    as (os1 & p1 & c1 & E1 & Hok1 & Hr1 & He1 & Hf1 & Hh1 & Hwt1 & Hch1 & Ho1 & _);
    [by split|cbn; by rewrite Hp|]. cbn [poller_ l] in Hch1.
  destruct (open_channel_ok tid OnWakeup w wch os1 (set_poller p1 l) Hok1)
    as (os2 & p2 & c2 & E2 & Hok2 & Hr2 & He2 & Hf2 & Hh2 & Hww2 & Hch2 & Ho2 & Hwo2);
    [by rewrite Ho1|by split|cbn; by rewrite Hch1, Hp, lookup_insert_ne|]. cbn [poller_ set_poller] in Hch2, Hwo2.
  rewrite E1. cbn [mbind outcome_bind]. rewrite Ew, (proj2 (Z.ltb_ge w 0)) by done. cbn [mbind outcome_bind].
  change (set_poller p2 (set_poller p1 l)) with (set_poller p2 l) in *. rewrite E2. cbn [mbind outcome_bind].
  exists (mkParts t tch w wch), (os2, set_poller p2 l), k2. cbn [timerfd wakeupFd_ timerfdChannel_ wakeupChannel_].
  split_and!.
  - by destruct t_loop.
  - done.
  - apply (reading_kept os1 (set_poller p1 l)); [by exists c1| | |by apply Hwo2].
    + apply option_refl. by apply Ho2.
    + by rewrite Hch2, lookup_insert_ne.
  - by exists c2.
  - cbn. by rewrite Hwo2.
  - done.
  - rewrite F2, F1. by rewrite (union_assoc_L {[ w ]}).
  - intros x Hx [->%elem_of_singleton| ->%elem_of_singleton]%elem_of_union; [|done].
    apply Hwn. rewrite F1. by apply elem_of_union_r.
  - intros call q pend [os3 l3] k3 Hcall Hrtc Hok3 Hidle Hrt Hrw. cbn [fst snd] in *. split.
    + assert (Hq : tq_inv (q, pend)).
      { apply (rtc_invariant (tq_step call) tq_inv (λ x y H, tq_step_inv call x y Hcall H) _ _ Hrtc).
        apply tq_inv_ctor. }
      exact (EventLoop_dtor_ok tid (mkParts t tch w wch) q pend os3 l3 k3 Hok3 Hidle Hrt Hrw Hq Hne Hwt).
    + intros tid' Htid. unfold EventLoop_dtor. cbn [timerfd wakeupFd_ timerfdChannel_ wakeupChannel_].
      destruct Hrw as (c & Hrw & _). by rewrite (disableAll_elsewhere tid tid' os3 l3 wch c).
Qed.
End LoopLife.

(** *** A loop on an epoll poller, in a process with three descriptors *)
Definition table_fd (t : table) : Z * table := ((table_open t).1.1, (table_open t).2).

Lemma table_fd_made (t : table) fd t' : table_fd t = (fd, t') → grown (fds t) (fds t') fd.
Proof. intros [= <- <-]. destruct (table_open t) as [[fd e] t'] eqn:E. by apply table_open_ok in E as [? _]. Qed.

#[export] Instance table_event_descriptors : EventDescriptors table :=
  { sys_timerfd := table_fd; sys_eventfd := table_fd; timerfd_made := table_fd_made; eventfd_made := table_fd_made }.

Abbreviation demo_poller := (EPollPoller_ctor (∅ : gmap Z epoll_event)).

Lemma new_loop_ok : loop_ok (CB:=string) 42 ∅ (mkLoop 1 42 false [] None demo_poller).
Proof. split; [|done]. apply epoll_inv_ctor; [done|]. by intros ch c Hc. Qed.

Lemma loop_lifecycle_witness :
  ∃ (x : parts) (st : objs string * Loop (EPollPoller (gmap Z epoll_event))) (k : table),
    EventLoop_make "timer" "wakeup" 42 1 demo_poller 100 101 ∅ free_table None =
      Ok (x, st, k, Some 1) ∧ watch (CB:=string) (poller_ st.2) !! wakeupFd_ x = Some kReadEvent ∧
    fds k = {[ wakeupFd_ x; timerfd x ]} ∪ {[ 0; 1; 2 ]}.
Proof.
  destruct (loop_lifecycle (TCB:=string) "timer" "wakeup" 42 1 demo_poller 100 101 ∅ free_table None new_loop_ok)
    as (x & st & k & E & _ & _ & _ & _ & Hw & Hf & _).
  - reflexivity.
  - reflexivity.
  - reflexivity.
  - done.
  - intros fd Hfd. cbn in Hfd. rewrite !elem_of_union, !elem_of_singleton in Hfd. lia.
  - vm_compute. split_and!; congruence.
  - exists x, st, k. by split_and!.
Defined.

(** A second loop in a thread leaves the first one registered, and its destructor
    leaves the thread with none. *)
Example second_loop_unregisters_first :
  ∃ x (st : objs string * Loop (EPollPoller (gmap Z epoll_event))) (k : table) q st' k',
    EventLoop_make "timer" "wakeup" 42 1 demo_poller 100 101 ∅ free_table (Some 7) = Ok (x, st, k, Some 7) ∧
    EventLoop_dtor 42 x (TimerQueue_ctor (CB:=string)) st k = Ok (q, st', k', getEventLoopOfCurrentThread None).
Proof. do 6 eexists. split; [vm_compute; reflexivity|]. vm_compute. reflexivity. Qed.
