(* ===== verification/ServerAccept.v ===== *)
(** A [TcpServer] with its [Acceptor] ([src/net/tcpserver.cpp],
    [src/net/acceptor.cpp]): the constructor binds [TcpServer::newConnection] to
    the acceptor, so a readable listening socket becomes a connection; the
    destructor of a TcpConnection closes its socket.

    Both models run as they are; new is who owns which descriptor. *)
From Stdlib Require Import Strings.Byte.
From stdpp Require Import gmap strings fin_map_dom.
From S2P Require Import Prelude Endian Sockets Channel Poller Timestamp EventLoopThreads TcpServer Acceptor.

Section ServerAccept.
Context {K : Type} `{!Descriptors K}.
Variable log : Z → Z.
Variable host : endianness.

(** The server, its acceptor, the descriptor table, the sockets of the
    TcpConnection objects, and the descriptors of the rest of the process. *)
Record world := mkWorld {
  server : TcpServer;
  acceptor_ : Acceptor;
  desc : K;
  sockets : gmap Ptr Z;
  rest : gset Z
}.
Implicit Types (w : world) (s : TcpServer) (k : K) (conn : Ptr).

(** [TcpServer::TcpServer] as far as the acceptor goes. *)
Definition server_ctor s (a : Acceptor) k : world :=
  mkWorld s (setNewConnectionCallback a) k ∅ (others a k).

(** [Acceptor::handleRead], whose callback is [TcpServer::newConnection];
    [conn] is the address the new TcpConnection gets. *)
Definition server_read (in_loop : bool) (mem : list byte) conn w : outcome world :=
  '(a, k) ← handleRead log host in_loop mem (acceptor_ w) (desc w);
  match drop (length (accepted (acceptor_ w))) (accepted a) with
  | (connfd, _) :: _ =>
    s ← newConnection in_loop conn (server w);
    Ok (mkWorld s a k (<[conn := connfd]> (sockets w)) (rest w))
  | [] => Ok (mkWorld (server w) a k (sockets w) (rest w))
  end.

(** The TcpConnection is freed, and its [socket_] closes the descriptor. *)
Definition free_connection conn w : outcome world :=
  match sockets w !! conn with
  | Some fd => Ok (mkWorld (server w) (acceptor_ w) (sys_close fd (desc w)) (delete conn (sockets w)) (rest w))
  | None => Fail UB
  end.

(** The server no longer has it in its map. *)
Definition erased s conn : Prop :=
  ∃ i, conns s !! conn = Some i ∧ connections_ s !! conn_name i ≠ Some conn.

Definition img (m : gmap Ptr Z) : gset Z := map_img m.

Definition fresh_connection conn w : Prop :=
  conns (server w) !! conn = None ∧ nextConnId_ (server w) < 2 ^ 31 - 1.

Inductive world_step : world → world → Prop :=
  | WRead mem conn w w' :
      fresh_connection conn w → server_read true mem conn w = Ok w' → world_step w w'
  | WServer o w s' :
      match o with NewConnection _ => False | _ => op_ok o (server w) end → run_op o (server w) = Ok s' →
      world_step w (mkWorld s' (acceptor_ w) (desc w) (sockets w) (rest w))
  | WFree conn w w' :
      erased (server w) conn → free_connection conn w = Ok w' → is_Some (sockets w !! conn) → world_step w w'
  | WOther w k' rest' :    (* the rest of the process opens and closes its own *)
      owns (acceptor_ w) k' → others (acceptor_ w) k' = rest' ∪ img (sockets w) → rest' ## img (sockets w) →
      0 ∈ rest' → world_step w (mkWorld (server w) (acceptor_ w) k' (sockets w) rest').

(** ** Lemmas *)
Lemma handleRead_callback in_loop mem (a : Acceptor) k a' k' :
  handleRead log host in_loop mem a k = Ok (a', k') → has_callback a' = has_callback a.
Proof.
  unfold handleRead. destruct in_loop; [|done]. cbn [mbind outcome_bind assertInLoopThread].
  destruct (sys_accept k) as [[[fd e] addr] k1]. destruct (Socket_accept _ _ _ _ _) as [[fd' e'] peer].
  destruct (0 <? fd'); [destruct (has_callback a) eqn:E; by intros [= <- _]|].
  destruct (_ =? EMFILE); [|by intros [= <- _]].
  destruct (sys_accept _) as [[[i x] y] k2]. destruct (sys_open _) as [[i' x'] k4]. by intros [= <- _].
Qed.

Lemma removeConnectionInLoop_maps b conn s s' : removeConnectionInLoop b conn s = Ok s' →
  conns s' = conns s ∧ connections_ s' ⊆ connections_ s.
Proof.
  unfold removeConnectionInLoop. intros E. inv_ok. destruct (conns s !! conn) as [i|]; [|done].
  inv_ok. subst s'. split; [done|]. apply delete_subseteq.
Qed.

Lemma run_op_maps o s s' : match o with NewConnection _ => False | _ => True end →
  run_op o s = Ok s' → conns s' = conns s ∧ connections_ s' ⊆ connections_ s.
Proof.
  destruct o as [|b conn|]; [done| |]; intros _; unfold run_op.
  - unfold removeConnection. destruct b; [by apply removeConnectionInLoop_maps|]. by intros [= <-].
  - destruct (removing s) as [|conn l]; [by intros [= <-]|].
    intros E. by apply removeConnectionInLoop_maps in E.
Qed.

Lemma elem_of_img m fd : fd ∈ img m ↔ ∃ conn, m !! conn = Some fd.
Proof. apply elem_of_map_img. Qed.

Lemma img_empty : img ∅ = ∅.
Proof. apply set_eq. intros x. rewrite elem_of_img. split; [|done]. by intros (c & ?). Qed.

Lemma others_open (a : Acceptor) k fd : fd ∈ others a k → fd ∈ fds k.
Proof. unfold others. by intros [? _]%elem_of_difference. Qed.

Lemma img_insert m conn fd : m !! conn = None → img (<[conn := fd]> m) = {[ fd ]} ∪ img m.
Proof. intros H. by apply map_img_insert_notin_L. Qed.

(** ** The invariant *)
Record world_inv w : Prop := {
  wi_server : server_inv (server w);
  wi_owns : owns (acceptor_ w) (desc w);
  wi_callback : has_callback (acceptor_ w) = true;
  wi_stdin : 0 ∈ rest w;
  wi_others : others (acceptor_ w) (desc w) = rest w ∪ img (sockets w);
  wi_disjoint : rest w ## img (sockets w);
  wi_inj : ∀ c1 c2 fd, sockets w !! c1 = Some fd → sockets w !! c2 = Some fd → c1 = c2;
  wi_known : ∀ conn, is_Some (sockets w !! conn) → is_Some (conns (server w) !! conn);
  wi_live : ∀ conn nm, connections_ (server w) !! nm = Some conn → is_Some (sockets w !! conn)
}.

(** Reading from the listening socket: a connection, or nothing. *)
Lemma server_read_ok mem conn w : world_inv w → fresh_connection conn w →
  ∃ w', server_read true mem conn w = Ok w' ∧ world_inv w' ∧ rest w' = rest w ∧
    let '(connfd, _, _, _) := sys_accept (desc w) in
    if 0 <=? connfd then
      sockets w' = <[conn := connfd]> (sockets w) ∧ (connfd ∉ fds (desc w)) ∧
      ∃ i, conns (server w') !! conn = Some i ∧ connections_ (server w') !! conn_name i = Some conn ∧
        posted (server w') = posted (server w) ++ [(conn_loop i, ConnectEstablished conn)]
    else server w' = server w ∧ sockets w' = sockets w.
Proof.
  intros [Hs Hown Hcb H0 Ho Hd Hi Hk Hl] [Hfresh Hmax]. unfold server_read.
  assert (H0' : 0 ∈ fds (desc w)).
  { apply (others_open (acceptor_ w)). rewrite Ho. by apply elem_of_union_l. }
  destruct (sys_accept (desc w)) as [[[connfd e] addr] k1] eqn:Ea.
  destruct (accept_ok _ _ _ _ _ Ea) as ([(-> & _)|(Hp & Hn & _)] & _).
  - destruct (handleRead_failure log host mem _ _ _ _ _ Hown Ea) as (a' & k' & E & Hown' & _ & _ & Hacc & Ho' & _).
    pose proof (handleRead_callback _ _ _ _ _ _ E) as Hcb'. rewrite E. cbn [mbind outcome_bind].
    rewrite Hacc, drop_all. eexists. split; [done|]. split; [|done].
    by constructor; cbn; [..|congruence| |rewrite Ho'| | | |].
  - destruct (handleRead_connection log host mem _ _ _ _ _ _ Hown H0' Ea Hp)
      as (a' & k' & E & Hown' & _ & _ & _ & _ & Hx).
    pose proof (handleRead_callback _ _ _ _ _ _ E) as Hcb'. rewrite Hcb in Hx. destruct Hx as [Hacc Ho'].
    destruct (new_inv conn (server w) Hs (conj Hfresh Hmax)) as (s' & Es & Hs').
    rewrite E. cbn [mbind outcome_bind]. rewrite Hacc, drop_app_length, Es. cbn [mbind outcome_bind].
    destruct (newConnection_maps _ _ _ Es) as (i & Hc & Hm & Hpost & _).
    assert (Hnone : sockets w !! conn = None).
    { destruct (sockets w !! conn) as [fd|] eqn:E1; [|done]. destruct (Hk conn) as [j Hj]; [by exists fd|]. congruence. }
    assert (Hnew : connfd ∉ others (acceptor_ w) (desc w)) by (by intros ?%others_open).
    rewrite Ho, not_elem_of_union in Hnew. destruct Hnew as [Hnr Hni].
    eexists. split; [done|]. rewrite (proj2 (Z.leb_le 0 connfd)) by done. split; [constructor; cbn|].
    + done.
    + done.
    + congruence.
    + done.
    + by rewrite Ho', Ho, img_insert, (union_assoc_L {[ connfd ]}), (union_comm_L {[ connfd ]}), <-(union_assoc_L (rest w)).
    + rewrite img_insert by done. apply disjoint_union_r. split; [|done]. by apply disjoint_singleton_r.
    + intros c1 c2 fd [[<- <-]|[? H1]]%lookup_insert_Some [[<- E2]|[? H2]]%lookup_insert_Some; try done.
      * destruct Hni. apply elem_of_img. by exists c2.
      * subst fd. destruct Hni. apply elem_of_img. by exists c1.
      * by eapply Hi.
    + intros c. rewrite Hc, !lookup_insert_is_Some. intros [->|[? ?]]; [by left|right; auto].
    + intros c nm. rewrite Hm, lookup_insert_is_Some.
      intros [[_ <-]|[_ H]]%lookup_insert_Some; [by left|]. destruct (decide (conn = c)); [by left|right; eauto].
    + cbn. split_and!; [done|done|done|]. exists i. rewrite Hc, Hm, !lookup_insert_eq. by split_and!.
Qed.
Lemma img_delete m conn fd : (∀ c1 c2 x, m !! c1 = Some x → m !! c2 = Some x → c1 = c2) →
  m !! conn = Some fd → img (delete conn m) = img m ∖ {[ fd ]}.
Proof.
  intros Hi Hc. apply set_eq. intros x. rewrite elem_of_difference, !elem_of_img, elem_of_singleton. split.
  - intros (c & [Hne Hx]%lookup_delete_Some). split; [by exists c|]. intros ->. by apply Hne, (Hi _ _ fd).
  - intros [(c & Hx) Hne]. exists c. apply lookup_delete_Some. split; [|done]. intros ->. congruence.
Qed.

Lemma free_connection_ok conn fd w : world_inv w → erased (server w) conn → sockets w !! conn = Some fd →
  ∃ w', free_connection conn w = Ok w' ∧ world_inv w' ∧ fds (desc w') = fds (desc w) ∖ {[ fd ]}.
Proof.
  intros [Hs Hown Hcb H0 Ho Hd Hi Hk Hl] (i & Hc & Hne) Hfd. unfold free_connection. rewrite Hfd.
  destruct (close_ok fd (desc w)) as [F _]. eexists. split; [done|]. split; [|done].
  assert (Hin : fd ∈ img (sockets w)) by (apply elem_of_img; by exists conn).
  assert (Hmine : fd ∈ others (acceptor_ w) (desc w)) by (rewrite Ho; by apply elem_of_union_r).
  unfold others in Hmine. apply elem_of_difference in Hmine as [_ Hmine].
  rewrite not_elem_of_union, !not_elem_of_singleton in Hmine. destruct Hmine as [Hns Hni].
  assert (Hnr : fd ∉ rest w) by (intros Hr; by apply (Hd fd)).
  constructor; cbn; try done.
  - destruct Hown as (Ha & Hidle & Hai & Hpos). unfold owns. rewrite F.
    split_and!; [|destruct Hidle; [by left|right]|done|by intros x [? _]%elem_of_difference; auto];
      apply elem_of_difference; (split; [done|]); by intros ?%elem_of_singleton.
  - unfold others in *. rewrite F, img_delete with (fd := fd) by done.
    rewrite difference_difference_l_L, (union_comm_L {[ fd ]}), <-difference_difference_l_L, Ho.
    rewrite difference_union_distr_l_L. f_equal. apply difference_disjoint_L.
    by intros x Hx ->%elem_of_singleton.
  - rewrite img_delete with (fd := fd) by done. intros x Hx [? _]%elem_of_difference. by apply (Hd x).
  - intros c1 c2 x [_ H1]%lookup_delete_Some [_ H2]%lookup_delete_Some. by eapply Hi.
  - intros c [x [_ Hx]%lookup_delete_Some]. apply Hk. by exists x.
  - intros c nm Hm. destruct (Hl c nm Hm) as [x Hx]. exists x. apply lookup_delete_Some. split; [|done].
    intros <-. destruct (inv_map _ Hs _ _ Hm) as (j & Hj & <-). congruence.
Qed.

Lemma world_step_inv w w' : world_inv w → world_step w w' → world_inv w'.
Proof.
  intros Hinv Hst. destruct Hst as [mem conn w w' Hfr E|o w s' Hok E|conn w w' He E [fd Hfd]|w k' rest' Hown Ho Hd H0].
  - destruct (server_read_ok mem conn w Hinv Hfr) as (w2 & E2 & ? & _). congruence.
  - destruct Hinv as [Hs Hown Hcb H0 Ho Hd Hi Hk Hl].
    destruct (run_op_maps o _ _ ltac:(by destruct o) E) as [Hc Hm].
    destruct (server_op_inv o (server w) Hs ltac:(by destruct o)) as (s2 & E2 & Hs2).
    rewrite E in E2. injection E2 as <-. constructor; cbn; try done.
    + intros conn. rewrite Hc. apply Hk.
    + intros conn nm Hnm. apply (Hl conn nm). by eapply lookup_weaken.
  - destruct (free_connection_ok conn fd w Hinv He Hfd) as (w2 & E2 & ? & _). congruence.
  - destruct Hinv. by constructor.
Qed.

Lemma server_ctor_inv s (a : Acceptor) k : server_inv s → connections_ s = ∅ → owns a k → 0 ∈ others a k →
  world_inv (server_ctor s a k).
Proof.
  intros Hs He Hown H0. constructor; cbn; try done.
  - by rewrite img_empty, union_empty_r_L.
  - by intros conn [fd ?].
  - intros conn nm. by rewrite He.
Qed.

Lemma launch_empty loop ipPort name n startLoop has_cb s :
  launch loop ipPort name n startLoop has_cb = Ok s → connections_ s = ∅.
Proof.
  unfold launch, setThreadNum. destruct (Z.leb_spec 0 n); [|done]. cbn [mbind outcome_bind assert_].
  unfold start. cbn [getAndSet started_ set_pool TcpServer_ctor Z.eqb].
  destruct (EventLoopThreads.start _ _ _ _) as [[pool l]|]; [|done]. by intros [= <-].
Qed.

(** ** Property *)

(** C23: a server and its acceptor own their descriptors exactly.  In every
    execution each TcpConnection object has a socket of its own, and the process's
    descriptors are those of the acceptor, of the connections, and of everyone
    else, without overlap: none leaks and none is closed twice.  A readable
    listening socket makes one established connection of the descriptor accept(2)
    answers, under a name of its own, or leaves server and connections as they
    were; and freeing a connection closes its socket and no other. *)
Theorem server_owns_sockets loop ipPort name n startLoop has_cb s0 a0 k0 w :
  (String.length ipPort ≤ 51)%nat → launch loop ipPort name n startLoop has_cb = Ok s0 →
  owns a0 k0 → 0 ∈ others a0 k0 → rtc world_step (server_ctor s0 a0 k0) w →
  others (acceptor_ w) (desc w) = rest w ∪ img (sockets w) ∧ rest w ## img (sockets w) ∧
  (∀ c1 c2 fd, sockets w !! c1 = Some fd → sockets w !! c2 = Some fd → c1 = c2) ∧
  (∀ nm conn, connections_ (server w) !! nm = Some conn → is_Some (sockets w !! conn)) ∧
  (∀ mem conn, fresh_connection conn w → ∃ w', server_read true mem conn w = Ok w' ∧
     let '(connfd, _, _, _) := sys_accept (desc w) in
     if 0 <=? connfd then
       sockets w' = <[conn := connfd]> (sockets w) ∧ (connfd ∉ fds (desc w)) ∧
       ∃ i, conns (server w') !! conn = Some i ∧ connections_ (server w') !! conn_name i = Some conn ∧
         posted (server w') = posted (server w) ++ [(conn_loop i, ConnectEstablished conn)]
     else server w' = server w ∧ sockets w' = sockets w) ∧
  (∀ conn fd, erased (server w) conn → sockets w !! conn = Some fd →
     ∃ w', free_connection conn w = Ok w' ∧ fds (desc w') = fds (desc w) ∖ {[ fd ]} ∧ sockets w' !! conn = None).
Proof.
  intros Hl E0 Hown H0 Hrtc. assert (Hinv : world_inv w).
  { apply (rtc_invariant world_step world_inv world_step_inv _ _ Hrtc), server_ctor_inv; try done.
    - by eapply launch_inv.
    - by eapply launch_empty. }
  split_and!.
  - apply Hinv.
  - apply Hinv.
  - apply Hinv.
  - intros nm conn. apply Hinv.
  - intros mem conn Hfr. destruct (server_read_ok mem conn w Hinv Hfr) as (w' & E & _ & _ & H). by exists w'.
  - intros conn fd He Hfd. destruct (free_connection_ok conn fd w Hinv He Hfd) as (w' & E & _ & F).
    exists w'. split_and!; [done|done|]. unfold free_connection in E. rewrite Hfd in E. injection E as <-.
    apply lookup_delete_eq.
Qed.
End ServerAccept.

(** *** A server accepts a connection, which closes and is freed *)
Definition listener : Acceptor := mkAcceptor 3 100 false true 4 [].
Definition waiting_table : table := mkTable {[ 0; 1; 3; 4 ]} 100 [[x02; x00]].
Definition accept_world0 : world := server_ctor demo_server listener waiting_table.
Definition accept_world1 : world := from_ok accept_world0 (server_read id LittleEndian true [] 200 accept_world0).

Lemma server_owns_sockets_witness :
  sockets accept_world1 = {[ 200 := 5 ]} ∧ others (acceptor_ accept_world1) (desc accept_world1) = {[ 0; 1; 5 ]}.
Proof.
  destruct (server_owns_sockets id LittleEndian 1 "127.0.0.1:80" "srv" 2 demo_loop false demo_server listener
    waiting_table accept_world1) as (Ho & _).
  - simpl. lia.
  - reflexivity.
  - unfold owns. cbn. split_and!; [done|by right|done|]. intros fd. rewrite !elem_of_union, !elem_of_singleton. lia.
  - by vm_compute.
  - apply rtc_once, (WRead _ _ [] 200); [split; [reflexivity|vm_compute; reflexivity]|vm_compute; reflexivity].
  - split; [vm_compute; reflexivity|]. rewrite Ho. vm_compute. reflexivity.
Defined.
