(* ===== verification/ServerConns.v ===== *)
(** A [TcpServer] and its [TcpConnection]s ([src/net/tcpserver.cpp],
    [src/net/tcpconnection.cpp]).

    Both models run as they are.  New is what connects them: the calls the server
    posts reach the connection's loop, a connection that closes calls
    [TcpServer::removeConnection], and a connection is freed when nothing refers
    to it any more.  What [TcpConnection.v] asks of a connection's owner
    ([OpEstablish], [OpOwnerPost], [OpRelease] at the right time), and what
    [TcpServer.v] asks of connections ([Closed] once), is proved here rather than
    assumed.  Destroying the server while it has connections is not part of these
    executions: see ServerLife.v. *)
From Stdlib Require Import Strings.Byte.
From stdpp Require Import list gmap strings.
From S2P Require Import Prelude Buffer Channel Poller Timestamp EventLoopThreads TcpServer TcpConnection ConnChannel.

Section ServerConns.
Context (user : Ptr → event → TcpConnection → list api).

Record system := mkSystem {
  server : TcpServer;
  objects : gmap Ptr TcpConnection;   (* the TcpConnection objects that exist *)
  establishing : list Ptr             (* connectEstablished functors waiting on other loops *)
}.
Implicit Types (y : system) (s : TcpServer) (c : TcpConnection) (conn : Ptr).

(** [loop_], on whose thread the server runs. *)
Definition base s : Ptr := baseLoop_ (threadPool_ s).

Definition on_conn conn (f : TcpConnection → outcome TcpConnection) y : outcome system :=
  match objects y !! conn with
  | None => Fail UB
  | Some c => c ← f c; Ok (mkSystem (server y) (<[conn := c]> (objects y)) (establishing y))
  end.

(** A call the server posts: [runInLoop] runs [connectEstablished] at once on the
    server's own loop and queues it on another; [connectDestroyed] is always
    queued. *)
Definition deliver (x : Ptr * task) y : outcome system :=
  match x with
  | (l, ConnectEstablished conn) =>
    if l =? base (server y)
    then on_conn conn (TcpConnection.run_op (user conn) (OpEstablish conn)) y
    else Ok (mkSystem (server y) (objects y) (establishing y ++ [conn]))
  | (_, ConnectDestroyed conn) => on_conn conn (TcpConnection.run_op (user conn) OpOwnerPost) y
  end.

Fixpoint deliver_all (xs : list (Ptr * task)) y : outcome system :=
  match xs with [] => Ok y | x :: xs' => y ← deliver x y; deliver_all xs' y end.

(** An operation of the server, and the calls it posts. *)
Definition newly_posted s s' : list (Ptr * task) := drop (length (posted s)) (posted s').
Definition server_do (o : server_op) y : outcome system :=
  s ← TcpServer.run_op o (server y);
  deliver_all (newly_posted (server y) s) (mkSystem s (objects y) (establishing y)).

Inductive sys_op :=
  | SysAccept (conn : Ptr) (sockfd : Z) (wc hw : bool)  (* newConnection; its callbacks *)
  | SysEstablish (conn : Ptr)         (* a loop runs a queued connectEstablished *)
  | SysConn (conn : Ptr) (o : op)     (* calls on a connection, events, functors *)
  | SysRemoval                        (* loop_ runs the oldest removeConnectionInLoop *)
  | SysFree (conn : Ptr).             (* the last reference goes *)

(** [TcpServer::newConnection] with the object it makes. *)
Definition sys_accept conn sockfd wc hw y : outcome system :=
  s ← TcpServer.run_op (NewConnection conn) (server y);
  match conns s !! conn with
  | None => Fail UB
  | Some i =>
    c ← TcpConnection_ctor (conn_loop i) sockfd wc hw;
    deliver_all (newly_posted (server y) s) (mkSystem s (<[conn := c]> (objects y)) (establishing y))
  end.

(** Did [handleClose] call [closeCallback_]? *)
Definition has_closed c c' : bool :=
  bool_decide (owner c = OwnerHas) && bool_decide (owner c' = OwnerNotified).

(** An operation of a connection, on its own loop; [closeCallback_] is the last
    call of [handleClose]. *)
Definition sys_conn conn (o : op) y : outcome system :=
  match objects y !! conn, conns (server y) !! conn with
  | Some c, Some i =>
    c' ← TcpConnection.run_op (user conn) o c;
    let y := mkSystem (server y) (<[conn := c']> (objects y)) (establishing y) in
    if has_closed c c' then server_do (Closed (conn_loop i =? base (server y)) conn) y else Ok y
  | _, _ => Fail UB
  end.

Definition sys_run (o : sys_op) y : outcome system :=
  match o with
  | SysAccept conn sockfd wc hw => sys_accept conn sockfd wc hw y
  | SysEstablish conn =>
    on_conn conn (TcpConnection.run_op (user conn) (OpEstablish conn))
      (mkSystem (server y) (objects y) (filter (λ x, x ≠ conn) (establishing y)))
  | SysConn conn o => sys_conn conn o y
  | SysRemoval => server_do RunRemoval y
  | SysFree conn =>
    y ← on_conn conn (TcpConnection.run_op (user conn) OpRelease) y;
    Ok (mkSystem (server y) (delete conn (objects y)) (establishing y))
  end.

(** The shared pointers to a connection: the server's map, the queued
    [removeConnectionInLoop]s and [connectEstablished]s, and the functors on its
    own loop that hold one.  A thread that has called [send] or [shutdown] is to
    keep one as well until its functor has run, which holds none
    ([late_calls_are_fatal]). *)
Definition unreferenced y conn c : Prop :=
  (∀ nm, connections_ (server y) !! nm ≠ Some conn) ∧ (conn ∉ removing (server y)) ∧
  (conn ∉ establishing y) ∧ Forall (λ f, needs_conn f = false) (queue c).

(** What is left to the environment: fresh addresses, connection numbers that do
    not run out, users and a kernel that behave ([TcpConnection.op_ok]). *)
Definition sys_ok (o : sys_op) y : Prop :=
  match o with
  | SysAccept conn _ _ _ => conns (server y) !! conn = None ∧ nextConnId_ (server y) < 2 ^ 31 - 1
  | SysEstablish conn => conn ∈ establishing y
  | SysConn conn o => own_op o = true ∧ ∃ c, objects y !! conn = Some c ∧
      state_ c ≠ kConnecting ∧ TcpConnection.op_ok o c
  | SysRemoval => True
  | SysFree conn => ∃ c, objects y !! conn = Some c ∧ unreferenced y conn c
  end.

Definition sys_step y y' : Prop := ∃ o, sys_ok o y ∧ sys_run o y = Ok y'.

(** ** The invariant *)
Context (Huser : ∀ conn, user_ok (user conn)).

Definition in_map s conn : Prop :=
  ∃ i, conns s !! conn = Some i ∧ connections_ s !! conn_name i = Some conn.

(** What the server's books say about a connection in each state of its owner. *)
Definition books s conn (o : owner_state) : Prop :=
  match o with
  | OwnerHas => in_map s conn ∧ (conn ∉ removing s)
  | OwnerNotified => in_map s conn ∧ conn ∈ removing s
  | OwnerPosted | OwnerGone => is_Some (conns s !! conn) ∧ ¬ in_map s conn
  end.

Record conn_good y conn c : Prop := {
  cg_alive : alive c = true;
  cg_life : born c ∨ (unborn c ∧ conn ∈ establishing y);
  cg_books : books (server y) conn (owner c)
}.

(** [but]: a connection whose closing the server has not been told of yet. *)
Record sys_inv_but (but : option Ptr) y : Prop := {
  si_server : server_inv (server y);
  si_loops : ∀ l, l ∈ pool_loops (server y) → l ≠ 0;
  si_est : NoDup (establishing y);
  si_waiting : ∀ conn, conn ∈ establishing y → ∃ c, objects y !! conn = Some c ∧ unborn c;
  si_conn : ∀ conn c, objects y !! conn = Some c → but ≠ Some conn → conn_good y conn c;
  si_map : ∀ nm conn, connections_ (server y) !! nm = Some conn → is_Some (objects y !! conn)
}.

Definition sys_inv : system → Prop := sys_inv_but None.

(** *** The server's books *)
Lemma books_known s conn o : books s conn o → is_Some (conns s !! conn).
Proof. destruct o; [intros [(i & ? & _) _]..|by intros [? _]|by intros [? _]]; by exists i. Qed.

Lemma books_in_map s conn o : books s conn o → in_map s conn ↔ o = OwnerHas ∨ o = OwnerNotified.
Proof.
  intros Hb. split.
  - intros Hi. destruct o; [by left|by right|by destruct Hb..].
  - by intros [-> | ->]; destruct Hb.
Qed.

Lemma books_live s conn o : books s conn o → o = OwnerHas ↔ TcpServer.live s conn.
Proof.
  intros Hb. split.
  - intros ->. destruct Hb as [(i & ? & ?) ?]. by exists i.
  - intros (i & Hi & Hx & Hn). assert (in_map s conn) by by exists i.
    destruct o; [done|by destruct Hb as [_ ?]..].
Qed.

(** Two servers that agree about a connection. *)
Lemma books_same s s' conn o :
  conns s' !! conn = conns s !! conn →
  (∀ i, conns s !! conn = Some i → connections_ s' !! conn_name i = connections_ s !! conn_name i) →
  (conn ∈ removing s' ↔ conn ∈ removing s) → books s conn o → books s' conn o.
Proof.
  intros Hc Hm Hr Hb. assert (in_map s' conn ↔ in_map s conn) as Hi.
  { unfold in_map. rewrite Hc. split; intros (i & Hi & Hx); exists i; (split; [done|]).
    - by rewrite <-(Hm i).
    - by rewrite (Hm i). }
  unfold books in *. destruct o; rewrite Hi, ?Hr, ?Hc; done.
Qed.

Lemma newly_posted_app s s' xs : posted s' = posted s ++ xs → newly_posted s s' = xs.
Proof. intros E. unfold newly_posted. by rewrite E, drop_app_length. Qed.

(** Names are unique, so what happens to one entry of the map leaves the others. *)
Lemma books_removed conn i s s' conn' o : server_inv s →
  conns s !! conn = Some i → conns s' = conns s → connections_ s' = delete (conn_name i) (connections_ s) →
  (conn' ∈ removing s' ↔ conn' ∈ removing s) → conn' ≠ conn → books s conn' o → books s' conn' o.
Proof.
  intros Hs Hi Hc Hm Hr Hne. apply books_same; [by rewrite Hc| |done].
  intros i' Hi'. rewrite Hm, lookup_delete_ne; [done|]. intros E. by apply Hne, (inv_unique _ Hs _ _ i' i).
Qed.

Lemma in_map_removed conn i s s' : conns s !! conn = Some i → conns s' = conns s →
  connections_ s' = delete (conn_name i) (connections_ s) → ¬ in_map s' conn.
Proof.
  intros Hi Hc Hm (i' & Hi' & Hx). rewrite Hc in Hi'. assert (i' = i) as -> by congruence.
  by rewrite Hm, lookup_delete_eq in Hx.
Qed.

(** [removeConnectionInLoop] of a connection that has closed: the server forgets
    it and its [connectDestroyed] is queued. *)
Lemma removal_inv conn c l y :
  sys_inv_but (Some conn) y → objects y !! conn = Some c → born c → alive c = true →
  owner c = OwnerNotified → in_map (server y) conn →
  removing (server y) = conn :: l ∨ (removing (server y) = l ∧ (conn ∉ l)) →
  ∃ s' y', removeConnectionInLoop true conn (set_removing l (server y)) = Ok s' ∧
    deliver_all (newly_posted (server y) s') (mkSystem s' (objects y) (establishing y)) = Ok y' ∧ sys_inv y'.
Proof.
  intros [Hs Hl Hest Hw Hc Hm] Ho Hb Ha Hown (i & Hi & Hx) Hq.
  destruct (remove_inv conn i (server y) l Hs Hi Hx Hq) as (s' & E & Hs').
  pose proof (removeConnectionInLoop_eq conn i (set_removing l (server y)) Hi Hx) as E'.
  rewrite E in E'. injection E' as E'.
  assert (conns s' = conns (server y) ∧ connections_ s' = delete (conn_name i) (connections_ (server y)) ∧
    removing s' = l ∧ posted s' = posted (server y) ++ [(conn_loop i, ConnectDestroyed conn)] ∧
    pool_loops s' = pool_loops (server y)) as (Fc & Fm & Fr & Fp & Fl) by by rewrite E'.
  destruct (post_born (user conn) (Huser conn) c Hb Hown) as (c' & Ec & Hb' & Ho' & Ha' & _).
  exists s', (mkSystem s' (<[conn := c']> (objects y)) (establishing y)). split; [exact E|]. split.
  { rewrite (newly_posted_app _ _ _ Fp). cbn [deliver_all deliver]. unfold on_conn. cbn [objects].
    rewrite Ho, Ec. reflexivity. }
  clear E E'.
  assert (∀ conn', conn' ≠ conn → conn' ∈ removing s' ↔ conn' ∈ removing (server y)) as Hr.
  { intros conn' Hne. rewrite Fr. destruct Hq as [Hq|[Hq _]]; rewrite Hq; [|done].
    rewrite elem_of_cons. split; [by right|by intros [?|?]]. }
  constructor; cbn; try done.
  - by rewrite Fl.
  - intros conn' Hw'. destruct (Hw conn' Hw') as (c2 & Hc2 & Hu). exists c2. rewrite lookup_insert_ne; [done|].
    intros <-. rewrite Ho in Hc2. injection Hc2 as ->. by apply (born_state c2 Hb), unborn_state.
  - intros conn' c2 [[<- <-]|[Hne Hc2]]%lookup_insert_Some _.
    + constructor; [congruence|by left|]. cbn. rewrite Ho'. cbn. split; [rewrite Fc; by exists i|].
      by apply (in_map_removed conn i (server y)).
    + destruct (Hc conn' c2 Hc2 ltac:(congruence)) as [? ? Hbk]. constructor; [done..|]. cbn.
      apply (books_removed conn i (server y)); [done..| |done|done]. by apply Hr, not_eq_sym.
  - intros nm conn'. rewrite Fm. intros [_ Hx']%lookup_delete_Some. apply lookup_insert_is_Some'. right. by eapply Hm.
Qed.

Lemma set_removing_same s : set_removing (removing s) s = s.
Proof. by destruct s. Qed.

(** [closeCallback_], on the server's loop or another. *)
Lemma told_closed_inv in_loop conn c y :
  sys_inv_but (Some conn) y → objects y !! conn = Some c → born c → alive c = true →
  owner c = OwnerNotified → in_map (server y) conn → (conn ∉ removing (server y)) →
  ∃ y', server_do (Closed in_loop conn) y = Ok y' ∧ sys_inv y'.
Proof.
  intros Hinv Ho Hb Ha Hown Hin Hnr. unfold server_do. cbn [TcpServer.run_op]. unfold removeConnection.
  destruct in_loop.
  { destruct (removal_inv conn c (removing (server y)) y) as (s' & y' & E & Ed & Hy'); [done..|by right|].
    rewrite set_removing_same in E. rewrite E. exists y'. by split. }
  set (s' := set_removing (removing (server y) ++ [conn]) (server y)).
  exists (mkSystem s' (objects y) (establishing y)). cbn [mbind outcome_bind].
  rewrite (newly_posted_app _ _ []) by by rewrite app_nil_r. split; [done|].
  destruct Hin as (i & Hi & Hx). pose proof Hinv as [Hs Hl Hest Hw Hc Hm].
  destruct (server_op_inv (Closed false conn) (server y) Hs) as (s2 & E2 & Hs2); [by exists i|].
  cbn in E2. injection E2 as <-. constructor; try done. intros conn' c' Hc' _.
  destruct (decide (conn' = conn)) as [->|Hne].
  - cbn in Hc'. rewrite Ho in Hc'. injection Hc' as <-. constructor; [done|by left|].
    rewrite Hown. split; [by exists i|]. apply elem_of_app. right. by apply list_elem_of_singleton.
  - destruct (Hc conn' c' Hc' ltac:(congruence)) as [? ? Hbk]. constructor; [done..|].
    apply (books_same (server y)); [done..| |done]. cbn. rewrite elem_of_app, list_elem_of_singleton. tauto.
Qed.

(** Putting an object back. *)
Lemma put_object conn c' y : sys_inv_but (Some conn) y → (conn ∉ establishing y) →
  sys_inv_but (Some conn) (mkSystem (server y) (<[conn := c']> (objects y)) (establishing y)).
Proof.
  intros [Hs Hl Hest Hw Hc Hm] Hnw. constructor; cbn; try done.
  - intros x Hx. destruct (Hw x Hx) as (cx & Hcx & Hu). exists cx. rewrite lookup_insert_ne; [done|]. by intros <-.
  - intros x cx [[<- _]|[Hne Hcx]]%lookup_insert_Some Hx; [done|].
    destruct (Hc x cx Hcx ltac:(done)). by constructor.
  - intros nm x Hx. apply lookup_insert_is_Some'. right. by eapply Hm.
Qed.

Lemma weaken_but but y : sys_inv y → sys_inv_but but y.
Proof. intros []. by constructor; auto. Qed.

Lemma born_not_waiting conn c y : sys_inv y → objects y !! conn = Some c → born c → conn ∉ establishing y.
Proof.
  intros Hinv Ho Hb Hx. destruct (si_waiting _ _ Hinv conn Hx) as (c2 & Hc2 & Hu).
  rewrite Ho in Hc2. injection Hc2 as ->. by apply (born_state c2 Hb), unborn_state.
Qed.

Lemma complete conn c y : sys_inv_but (Some conn) y → objects y !! conn = Some c →
  conn_good y conn c → sys_inv y.
Proof.
  intros [Hs Hl Hest Hw Hc Hm] Ho Hg. constructor; try done. intros x cx Hx _.
  destruct (decide (x = conn)) as [->|]; [|apply Hc; [done|congruence]]. congruence.
Qed.

(** What [owner_next] means for the books; [closeCallback_] is treated apart. *)
Lemma books_next s conn o o' : books s conn o → owner_next o o' →
  bool_decide (o = OwnerHas) && bool_decide (o' = OwnerNotified) = false → books s conn o'.
Proof. intros Hb [->|[[-> ->]|[-> ->]]] He; done. Qed.

Lemma sys_conn_inv conn o y : sys_inv y → sys_ok (SysConn conn o) y → safe (sys_conn conn o y) sys_inv.
Proof.
  intros Hinv (Hown & c & Ho & Hst & Hop). destruct (si_conn _ _ Hinv conn c Ho) as [Ha Hlife Hbk]; [done|].
  assert (born c) as Hb by (destruct Hlife as [?|[Hu _]]; [done|by destruct Hst; apply unborn_state]).
  unfold sys_conn. rewrite Ho. destruct (books_known _ _ _ Hbk) as [i Hi]. rewrite Hi.
  pose proof (own_op_born (user conn) (Huser conn) o c Hb Hown Hop) as Hsafe.
  destruct (TcpConnection.run_op (user conn) o c) as [c'|e] eqn:Eo; [|done].
  pose proof (op_alive _ _ _ _ Eo ltac:(by destruct o)) as Ha'. rewrite Ha in Ha'.
  destruct Hsafe as [Hb' Hnext]. cbn [mbind outcome_bind].
  pose proof (put_object conn c' y (weaken_but _ _ Hinv) (born_not_waiting _ _ _ Hinv Ho Hb)) as Hput. set (y1 := mkSystem _ _ _) in *.
  assert (objects y1 !! conn = Some c') as Ho1 by apply lookup_insert_eq.
  unfold has_closed. destruct (_ && _) eqn:He.
  - apply andb_true_iff in He as [E1%bool_decide_eq_true E2%bool_decide_eq_true].
    rewrite E1 in Hbk. destruct Hbk as [Hin Hnr].
    destruct (told_closed_inv (conn_loop i =? base (server y1)) conn c' y1) as (y' & E & Hy'); [done..|].
    by rewrite E.
  - apply (complete conn c'); [done..|]. constructor; [done|by left|]. by eapply books_next.
Qed.

Lemma removal_op_inv y : sys_inv y → safe (server_do RunRemoval y) sys_inv.
Proof.
  intros Hinv. unfold server_do. cbn [TcpServer.run_op]. destruct (removing (server y)) as [|conn l] eqn:Hr.
  { cbn [mbind outcome_bind]. rewrite (newly_posted_app _ _ []) by by rewrite app_nil_r. by destruct y. }
  assert (conn ∈ removing (server y)) as Hin by (rewrite Hr; apply elem_of_cons; by left).
  destruct (proj2 (inv_removing _ (si_server _ _ Hinv)) conn Hin) as (i & Hi & Hx).
  destruct (si_map _ _ Hinv _ _ Hx) as [c Hc].
  destruct (si_conn _ _ Hinv conn c Hc) as [Ha Hlife Hbk]; [done|].
  assert (in_map (server y) conn) as Him by by exists i.
  assert (owner c = OwnerNotified) as Hown by (destruct (owner c), Hbk; done).
  assert (born c) as Hb.
  { destruct Hlife as [?|[Hu _]]; [done|]. pose proof (unborn_owner _ Hu). congruence. }
  destruct (removal_inv conn c l y) as (s' & y' & E & Ed & Hy'); [by apply weaken_but|done..|by left|].
  rewrite E. cbn [mbind outcome_bind]. by rewrite Ed.
Qed.

(** [connectEstablished] of an object nobody has used yet. *)
Lemma establish_inv conn c y :
  sys_inv_but (Some conn) y → objects y !! conn = Some c → unborn c → (conn ∉ establishing y) →
  books (server y) conn OwnerHas →
  safe (on_conn conn (TcpConnection.run_op (user conn) (OpEstablish conn)) y) sys_inv.
Proof.
  intros Hinv Ho Hu Hnw Hbk. unfold on_conn. rewrite Ho.
  pose proof (establish_up (user conn) (Huser conn) conn c Hu) as Hsafe.
  destruct (TcpConnection.run_op _ _ c) as [c'|e] eqn:Eo; cbn [TcpConnection.run_op] in Eo; rewrite Eo in Hsafe; [|done].
  pose proof (op_alive _ (OpEstablish conn) _ _ Eo ltac:(done)) as Ha. rewrite (unborn_alive _ Hu) in Ha.
  cbn [mbind outcome_bind].
  apply (complete conn c'); [by apply put_object|apply lookup_insert_eq|].
  constructor; [done|left; exists 0; by left|]. by rewrite (up_owner _ _ _ Hsafe).
Qed.

Lemma sys_establish_inv conn y : sys_inv y → conn ∈ establishing y → safe (sys_run (SysEstablish conn) y) sys_inv.
Proof.
  intros Hinv Hin. destruct (si_waiting _ _ Hinv conn Hin) as (c & Ho & Hu).
  destruct (si_conn _ _ Hinv conn c Ho) as [_ _ Hbk]; [done|]. rewrite (unborn_owner _ Hu) in Hbk.
  cbn [sys_run]. apply (establish_inv conn c); try done.
  - destruct Hinv as [Hs Hl Hest Hw Hc Hm]. constructor; cbn; try done.
    + by apply NoDup_filter.
    + intros x [_ Hx]%list_elem_of_filter. by apply Hw.
    + intros x cx Hcx Hne. destruct (Hc x cx Hcx) as [Ha Hlife Hb]; [done|]. constructor; [done| |done].
      destruct Hlife as [?|[? Hx]]; [by left|right]. split; [done|]. apply list_elem_of_filter.
      split; [congruence|done].
  - cbn. by intros [? _]%list_elem_of_filter.
Qed.

Lemma sys_accept_inv conn sockfd wc hw y :
  sys_inv y → sys_ok (SysAccept conn sockfd wc hw) y → safe (sys_accept conn sockfd wc hw y) sys_inv.
Proof.
  intros Hinv Hok. pose proof Hinv as [Hs Hl Hest Hw Hc Hm]. destruct Hok as [Hfresh Hmax].
  unfold sys_accept. cbn [TcpServer.run_op].
  destruct (new_inv conn (server y) Hs (conj Hfresh Hmax)) as (s' & E & Hs'). rewrite E. cbn [mbind outcome_bind].
  destruct (newConnection_maps _ _ _ E) as (i & Fc & Fm & Fp & Fr & Fl & Fl').
  rewrite Fc, lookup_insert_eq, (newly_posted_app _ _ _ Fp).
  destruct (TcpConnection_ctor (conn_loop i) sockfd wc hw) as [c|e] eqn:Ec.
  2:{ exfalso. unfold TcpConnection_ctor in Ec. rewrite Buffer_ctor_default in Ec. cbn [mbind outcome_bind] in Ec.
      by rewrite (proj2 (Z.eqb_neq _ _) (Hl _ Fl)) in Ec. }
  pose proof (ctor_unborn _ _ _ _ _ Ec) as Hu. cbn [mbind outcome_bind].
  assert (objects y !! conn = None) as Hno.
  { destruct (objects y !! conn) as [c2|] eqn:E2; [|done]. destruct (Hc conn c2 E2) as [_ _ Hbk]; [done|].
    destruct (books_known _ _ _ Hbk). congruence. }
  assert (conn ∉ establishing y) as Hnw by (intros Hx; destruct (Hw conn Hx) as (? & ? & _); congruence).
  assert (∀ est, est = establishing y ∨ est = establishing y ++ [conn] →
    sys_inv_but (Some conn) (mkSystem s' (<[conn := c]> (objects y)) est)) as Hput.
  { intros est He. constructor; cbn; [done|by rewrite Fl'|..].
    - destruct He as [->| ->]; [done|]. apply NoDup_app. split_and!; [done| |apply NoDup_singleton].
      by intros x Hx ->%list_elem_of_singleton.
    - intros x Hx. destruct (decide (x = conn)) as [->|Hne]; [exists c; by rewrite lookup_insert_eq|].
      rewrite lookup_insert_ne by congruence. apply Hw.
      destruct He as [->| ->]; [done|]. by apply elem_of_app in Hx as [?|?%list_elem_of_singleton].
    - intros x cx [[<- _]|[Hne Hcx]]%lookup_insert_Some Hx; [done|].
      destruct (Hc x cx Hcx ltac:(done)) as [Ha Hlife Hbk]. constructor; [done|..].
      + destruct Hlife as [?|[? Hx']]; [by left|right]. split; [done|].
        destruct He as [->| ->]; [done|]. apply elem_of_app. by left.
      + destruct (books_known _ _ _ Hbk) as [ix Hix].
        cbn. apply (books_same (server y)); [by rewrite Fc, lookup_insert_ne| |by rewrite Fr|done].
        intros j Hj. cbn. rewrite Fm, lookup_insert_ne; [done|]. intros Heq.
        apply Hne, (inv_unique _ Hs' _ _ i j); rewrite ?Fc; [apply lookup_insert_eq|by rewrite lookup_insert_ne|done].
    - intros nm x Hx. rewrite Fm in Hx. apply lookup_insert_is_Some'.
      apply lookup_insert_Some in Hx as [[_ <-]|[_ Hx]]; [by left|right; by eapply Hm]. }
  assert (books s' conn OwnerHas) as Hbk.
  { split; [exists i; by rewrite Fc, Fm, !lookup_insert_eq|]. rewrite Fr. intros Hx.
    destruct (proj2 (inv_removing _ Hs) conn Hx) as (j & ? & _). congruence. }
  cbn [deliver_all deliver]. destruct (_ =? _).
  - pose proof (establish_inv conn c (mkSystem s' (<[conn := c]> (objects y)) (establishing y))
      (Hput _ (or_introl eq_refl)) (lookup_insert_eq _ _ _) Hu Hnw Hbk) as H.
    by destruct (on_conn _ _ _).
  - cbn. apply (complete conn c); [by apply Hput; right|apply lookup_insert_eq|].
    constructor; [by apply unborn_alive| |by rewrite (unborn_owner _ Hu)].
    right. split; [done|]. apply elem_of_app. right. by apply list_elem_of_singleton.
Qed.

(** *** The last reference

    A connection nobody refers to has been through [connectDestroyed]. *)
Lemma unreferenced_done conn c y : sys_inv y → objects y !! conn = Some c → unreferenced y conn c →
  log_down (log c) ∧ queue c = [] ∧ ∃ c', TcpConnection.run_op (user conn) OpRelease c = Ok c'.
Proof.
  intros Hinv Ho (Hnm & Hnr & Hne & Hq). destruct (si_conn _ _ Hinv conn c Ho) as [Ha Hlife Hbk]; [done|].
  destruct Hlife as [Hb|[_ ?]]; [|done].
  assert (¬ in_map (server y) conn) as Hni by (intros (i & _ & Hx); by apply (Hnm _ Hx)).
  apply given_up_done; [done..|]. by intros [E|E]; rewrite E in Hbk; destruct Hbk.
Qed.

Lemma sys_free_inv conn y : sys_inv y → sys_ok (SysFree conn) y → safe (sys_run (SysFree conn) y) sys_inv.
Proof.
  intros Hinv (c & Ho & Hun).
  destruct (unreferenced_done conn c y Hinv Ho Hun) as (_ & _ & c' & E).
  cbn [sys_run]. unfold on_conn. rewrite Ho, E. cbn. rewrite delete_insert_eq. destruct Hun as (Hnm & _ & Hne & _).
  destruct Hinv as [Hs Hl Hest Hw Hc Hm]. constructor; cbn; try done.
  - intros x Hx. rewrite lookup_delete_ne by congruence. by apply Hw.
  - intros x cx [Hx Hcx]%lookup_delete_Some _. destruct (Hc x cx Hcx) as [? ? ?]; [done|]. by constructor.
  - intros nm x Hx. rewrite lookup_delete_ne; [by eapply Hm|]. intros <-. by apply (Hnm nm).
Qed.

Lemma sys_op_inv o y : sys_inv y → sys_ok o y → safe (sys_run o y) sys_inv.
Proof.
  intros Hinv Hok. destruct o as [conn sockfd wc hw|conn|conn o| |conn].
  - by apply sys_accept_inv.
  - by apply sys_establish_inv.
  - by apply sys_conn_inv.
  - by apply removal_op_inv.
  - by apply sys_free_inv.
Qed.

(** *** From a server that has been started *)
Lemma launch_loops loop ipPort name n startLoop has_cb s :
  launch loop ipPort name n startLoop has_cb = Ok s → loop ≠ 0 → (∀ nm, startLoop nm ≠ 0) →
  (∀ l, l ∈ pool_loops s → l ≠ 0) ∧ connections_ s = ∅.
Proof.
  intros E Hb Hs. unfold launch, setThreadNum, TcpServer.start in E. inv_ok. subst.
  cbn [getAndSet started_ set_pool TcpServer_ctor Z.eqb threadPool_] in *. inv_ok. subst.
  destruct x as [pool b]. unfold EventLoopThreads.start in *. inv_ok. subst. split; [|done].
  unfold pool_loops. cbn. rewrite start_threads_base. cbn. intros l [->|Hl]%elem_of_cons; [done|].
  rewrite (proj1 (start_threads_loops _ _ _ _)) in Hl. cbn in Hl.
  apply list_elem_of_fmap in Hl as (k & -> & _). apply Hs.
Qed.

Definition sys_start s : system := mkSystem s ∅ [].

Lemma start_inv loop ipPort name n startLoop has_cb s :
  (String.length ipPort ≤ 51)%nat → launch loop ipPort name n startLoop has_cb = Ok s → loop ≠ 0 →
  (∀ nm, startLoop nm ≠ 0) → sys_inv (sys_start s).
Proof.
  intros Hl E Hb Hs. destruct (launch_loops _ _ _ _ _ _ _ E Hb Hs) as [Hloops Hmap].
  constructor; cbn; try done.
  - by eapply launch_inv.
  - by apply NoDup_nil.
  - by intros x ?%not_elem_of_nil.
  - intros nm x. rewrite Hmap. by intros ?%lookup_empty_Some.
Qed.

(** C7: a server and its connections, on one loop or many.  The server keeps the
    promises each TcpConnection relies on, and the other way round: whatever the
    peers, the users and the threads do, as far as [TcpConnection.op_ok] lets them,
    no operation of the server or of any connection fails an assertion.  (Calls of
    other threads are not atomic; the write of a [shutdown] or [forceClose] does not
    come after the connection closed, as for C1.)  The server's map holds exactly the
    connections that it has not been told are down.  Once nothing refers to a
    connection, and no [send] or [shutdown] of another thread is queued for it, [connectDestroyed] has run, its user has seen UP and DOWN, no
    functor is left that would use it, and its destructor succeeds. *)
Theorem server_and_connections loop ipPort name n startLoop has_cb s0 y :
  (String.length ipPort ≤ 51)%nat → launch loop ipPort name n startLoop has_cb = Ok s0 →
  loop ≠ 0 → (∀ nm, startLoop nm ≠ 0) → rtc sys_step (sys_start s0) y →
  (∀ o, sys_ok o y → (∃ y', sys_run o y = Ok y') ∨ sys_run o y = Fail LengthError) ∧
  (∀ nm conn, connections_ (server y) !! nm = Some conn → ∃ c, objects y !! conn = Some c) ∧
  ∀ conn c, objects y !! conn = Some c →
    (in_map (server y) conn ↔ owner c = OwnerHas ∨ owner c = OwnerNotified) ∧
    (owner c = OwnerHas ↔ TcpServer.live (server y) conn) ∧
    (conn ∈ establishing y → state_ c = kConnecting) ∧
    (unreferenced y conn c → log_down (log c) ∧ queue c = [] ∧ ∃ y', sys_run (SysFree conn) y = Ok y').
Proof.
  intros Hl E Hb Hs Hrtc. pose proof (start_inv _ _ _ _ _ _ _ Hl E Hb Hs) as Hinv.
  apply (rtc_invariant sys_step sys_inv) in Hrtc; [..|done].
  2:{ intros y1 y2 H1 (o & Hok & E2). exact (safe_ok _ _ _ (sys_op_inv o y1 H1 Hok) E2). }
  clear Hinv E. split_and!.
  - intros o Hok. pose proof (sys_op_inv o y Hrtc Hok) as H.
    destruct (sys_run o y); [left; eauto|right; by rewrite H].
  - intros nm conn Hx. destruct (si_map _ _ Hrtc _ _ Hx). eauto.
  - intros conn c Ho. destruct (si_conn _ _ Hrtc conn c Ho) as [Ha Hlife Hbk]; [done|].
    split_and!.
    + by apply books_in_map.
    + by apply books_live.
    + intros Hx. destruct (si_waiting _ _ Hrtc conn Hx) as (c2 & Hc2 & Hu). rewrite Ho in Hc2.
      injection Hc2 as <-. apply Hu.
    + intros Hun. destruct (unreferenced_done conn c y Hrtc Ho Hun) as (? & ? & c' & E).
      split_and!; [done..|]. eexists. cbn [sys_run]. unfold on_conn. by rewrite Ho, E.
Qed.
End ServerConns.

(** *** A connection on another loop, from accept to free *)
Definition quiet (conn : Ptr) : event → TcpConnection → list api := silent.
Definition demo_sys_do (o : sys_op) (y : system) : system := from_ok y (sys_run quiet o y).
Definition demo_accepted := demo_sys_do (SysAccept 100 7 true false) (sys_start demo_server).
Definition demo_running := demo_sys_do (SysEstablish 100) demo_accepted.
Definition demo_ended := demo_sys_do (SysConn 100 (OpEvent [] POLLIN eof 0)) demo_running.
Definition demo_removed := demo_sys_do SysRemoval demo_ended.
Definition demo_gone := demo_sys_do (SysConn 100 (OpFunctor take_one)) demo_removed.

Lemma demo_sys_step o y y0 : rtc (sys_step quiet) y0 y → sys_ok o y →
  is_ok (sys_run quiet o y) = true → rtc (sys_step quiet) y0 (demo_sys_do o y).
Proof.
  intros Hrtc Hok E. eapply rtc_r; [exact Hrtc|]. exists o. split; [done|].
  unfold demo_sys_do. by destruct (sys_run quiet o y).
Qed.

Lemma demo_accepted_reachable : rtc (sys_step quiet) (sys_start demo_server) demo_accepted.
Proof. apply (demo_sys_step (SysAccept 100 7 true false)); [apply rtc_refl|by vm_compute..]. Qed.

Lemma demo_running_reachable : rtc (sys_step quiet) (sys_start demo_server) demo_running.
Proof.
  apply (demo_sys_step (SysEstablish 100)); [apply demo_accepted_reachable| |by vm_compute].
  assert (establishing demo_accepted = [100]) as E by (vm_compute; reflexivity).
  cbn. rewrite E. by apply list_elem_of_singleton.
Qed.

Lemma demo_ended_reachable : rtc (sys_step quiet) (sys_start demo_server) demo_ended.
Proof.
  apply (demo_sys_step (SysConn 100 (OpEvent [] POLLIN eof 0))); [apply demo_running_reachable| |by vm_compute].
  split; [done|]. exists (default blank (objects demo_running !! 100)).
  split; [by vm_compute|]. split; [by vm_compute|]. apply eof_event_ok. by vm_compute.
Qed.

Lemma demo_gone_reachable : rtc (sys_step quiet) (sys_start demo_server) demo_gone.
Proof.
  apply (demo_sys_step (SysConn 100 (OpFunctor take_one))); [| |by vm_compute].
  - apply (demo_sys_step SysRemoval); [apply demo_ended_reachable|done|by vm_compute].
  - split; [done|]. exists (default blank (objects demo_removed !! 100)).
    split; [by vm_compute|]. split; [by vm_compute|]. split; [apply take_one_ok|by vm_compute].
Qed.

Lemma server_and_connections_witness :
  ∃ c y', objects demo_gone !! 100 = Some c ∧ log_down (log c) ∧ queue c = [] ∧
    sys_run quiet (SysFree 100) demo_gone = Ok y'.
Proof.
  destruct (server_and_connections quiet (λ _, silent_ok) 1 "127.0.0.1:80" "srv" 2 TcpServer.demo_loop false
    demo_server demo_gone) as (_ & _ & H).
  - simpl; lia.
  - reflexivity.
  - done.
  - intros nm. unfold TcpServer.demo_loop. by destruct (decide _).
  - apply demo_gone_reachable.
  - set (c := default blank (objects demo_gone !! 100)).
    assert (objects demo_gone !! 100 = Some c) as Hc by (vm_compute; reflexivity).
    destruct (H 100 c Hc) as (_ & _ & _ & Hun).
    destruct Hun as (Hlog & Hq & y' & E);
      [|exact (ex_intro _ c (ex_intro _ y' (conj Hc (conj Hlog (conj Hq E)))))].
    assert (connections_ (server demo_gone) = ∅) as Hm by (vm_compute; reflexivity).
    assert (removing (server demo_gone) = []) as Hr by (vm_compute; reflexivity).
    assert (establishing demo_gone = []) as He by (vm_compute; reflexivity).
    unfold unreferenced. rewrite Hm, Hr, He.
    split; [intros nm; by rewrite lookup_empty|]. split_and!; [by apply not_elem_of_nil..|by vm_compute].
Defined.
