(* ===== verification/ServerLife.v ===== *)
(** The end of a [TcpServer] ([TcpServer::~TcpServer], [src/net/tcpserver.cpp]).

    ServerConns.v has the server at work; here it is destroyed with connections
    open.  The destructor has each connection of the map run [connectDestroyed],
    at once if the connection's loop is the server's.  Then the server is gone: a
    connection that still called [closeCallback_] would call a freed object, which
    is undefined behaviour here.

    For a server on one loop ([setThreadNum] not called) that cannot happen
    ([server_destroyed_cleanly]); for a connection on another loop, whose
    [connectDestroyed] has to wait in a queue, it can
    ([destroyed_server_is_called]). *)
From Stdlib Require Import Strings.Byte.
From stdpp Require Import list gmap strings.
From S2P Require Import Prelude Buffer Channel Poller Timestamp EventLoopThreads TcpServer TcpConnection ConnChannel ServerConns.

Section ServerLife.
Context (user : Ptr → event → TcpConnection → list api).
Implicit Types (y : system) (s : TcpServer) (c : TcpConnection) (conn : Ptr).
Abbreviation system_run := (sys_run user).

(** [conn->getLoop()->runInLoop(bind(connectDestroyed, conn))]. *)
Definition destroy_in_loop (x : Ptr * task) y : outcome system :=
  match x with
  | (l, ConnectDestroyed conn) =>
    if l =? base (server y)
    then on_conn conn (TcpConnection.run_op (user conn) OpDestroy) y
    else on_conn conn (λ c, Ok (queueInLoop FConnectDestroyed c)) y
  | (_, ConnectEstablished _) => deliver user x y
  end.

Fixpoint destroy_in_loops (xs : list (Ptr * task)) y : outcome system :=
  match xs with [] => Ok y | x :: xs' => y ← destroy_in_loop x y; destroy_in_loops xs' y end.

(** The destructor, with what it makes the connections do. *)
Definition server_dtor y : outcome system :=
  s ← TcpServer_dtor true (server y);
  destroy_in_loops (newly_posted (server y) s) (mkSystem s (objects y) (establishing y)).

(** A server with its connections, or the connections a destroyed server left. *)
Inductive server_life := Serving (y : system) | Destroyed (objects : gmap Ptr TcpConnection).

Inductive life_op :=
  | LifeServe (o : sys_op)
  | LifeDestroy
  | LifeConn (conn : Ptr) (o : op)
  | LifeFree (conn : Ptr).

Definition life_run (o : life_op) (x : server_life) : outcome server_life :=
  match o, x with
  | LifeServe o, Serving y => Serving <$> system_run o y
  | LifeDestroy, Serving y => y ← server_dtor y; Ok (Destroyed (objects y))
  | LifeConn conn o, Destroyed os =>
    match os !! conn with
    | None => Fail UB
    | Some c =>
      c' ← TcpConnection.run_op (user conn) o c;
      if has_closed c c' then Fail UB                 (* closeCallback_ of the freed server *)
      else Ok (Destroyed (<[conn := c']> os))
    end
  | LifeFree conn, Destroyed os =>
    match os !! conn with
    | None => Fail UB
    | Some c => _ ← TcpConnection.run_op (user conn) OpRelease c; Ok (Destroyed (delete conn os))
    end
  | _, _ => Fail UB
  end.

(** What the destructor's caller has to see to: no connection is half closed
    ([destroy_while_disconnecting_aborts]), and no functor that holds a raw pointer
    is queued for one.  Otherwise as for [ServerConns] and [TcpConnection]. *)
Definition destroyable y : Prop :=
  ∀ nm conn c, connections_ (server y) !! nm = Some conn → objects y !! conn = Some c →
    state_ c = kConnected ∧ Forall (λ f, holds_ref f = true) (queue c).

Definition unheld c : Prop := Forall (λ f, needs_conn f = false) (queue c).

Definition life_ok (o : life_op) (x : server_life) : Prop :=
  match o, x with
  | LifeServe o, Serving y => sys_ok o y
  | LifeDestroy, Serving y => destroyable y
  | LifeConn conn o, Destroyed os => own_op o = true ∧ ∃ c, os !! conn = Some c ∧ TcpConnection.op_ok o c
  | LifeFree conn, Destroyed os => ∃ c, os !! conn = Some c ∧ unheld c
  | _, _ => False
  end.

Definition life_step x x' : Prop := ∃ o, life_ok o x ∧ life_run o x = Ok x'.

(** ** Servers on one loop *)
Definition one_loop s : Prop :=
  loops_ (threadPool_ s) = [] ∧ ∀ conn i, conns s !! conn = Some i → conn_loop i = base s.

Lemma one_loop_same s s' : threadPool_ s' = threadPool_ s → conns s' = conns s → one_loop s → one_loop s'.
Proof. intros Et Ec. unfold one_loop, base. by rewrite Et, Ec. Qed.

Lemma removed_same b conn s s' : removeConnectionInLoop b conn s = Ok s' →
  threadPool_ s' = threadPool_ s ∧ conns s' = conns s.
Proof.
  unfold removeConnectionInLoop. intros E. inv_ok. destruct (conns s !! conn) eqn:Hc; [|done]. inv_ok. by subst s'.
Qed.

Lemma one_loop_op o s s' : one_loop s → TcpServer.run_op o s = Ok s' → one_loop s'.
Proof.
  intros [Hl Hc] E. destruct o as [conn|[] conn|]; cbn [TcpServer.run_op removeConnection] in E.
  - destruct (newConnection_maps conn s s' E) as (i & Fc & _ & _ & _ & Fi & Fl).
    unfold pool_loops in *. rewrite Hl in *. injection Fl as Fb Fl. split; [done|].
    unfold base. rewrite Fc, Fb. apply list_elem_of_singleton in Fi.
    intros conn' i' [[_ <-]|[_ Hi]]%lookup_insert_Some; [done|by eapply Hc].
  - apply removed_same in E as [Et Ec]. by apply (one_loop_same s).
  - inv_ok. by subst s'.
  - destruct (removing s) as [|conn l]; inv_ok; [by subst s'|].
    apply removed_same in E as [Et Ec]. by apply (one_loop_same s).
Qed.

(** Only the server's operations change the server. *)
Lemma on_conn_server conn f y y' : on_conn conn f y = Ok y' → server y' = server y.
Proof. unfold on_conn. destruct (objects y !! conn); [|done]. intros E. inv_ok. by subst y'. Qed.

Lemma deliver_all_server xs : ∀ y y', deliver_all user xs y = Ok y' → server y' = server y.
Proof.
  induction xs as [|[l [conn|conn]] xs IH]; intros y y' E; cbn in E; [by injection E as <-|..];
    apply outcome_bind_ok in E as (y1 & E1 & E2); rewrite (IH _ _ E2).
  - destruct (_ =? _); [by eapply on_conn_server|by injection E1 as <-].
  - by eapply on_conn_server.
Qed.

Lemma server_do_server o y y' : server_do user o y = Ok y' → TcpServer.run_op o (server y) = Ok (server y').
Proof. unfold server_do. intros E. inv_ok. by rewrite (deliver_all_server _ _ _ E). Qed.

Lemma sys_run_server o y y' : system_run o y = Ok y' →
  server y' = server y ∨ ∃ so, TcpServer.run_op so (server y) = Ok (server y').
Proof.
  destruct o as [conn fd wc hw|conn|conn o| |conn]; cbn [sys_run]; intros E.
  - right. exists (NewConnection conn). unfold sys_accept in E.
    apply outcome_bind_ok in E as (s & Es & E). destruct (conns s !! conn); [|done].
    apply outcome_bind_ok in E as (cx & _ & E). by rewrite (deliver_all_server _ _ _ E).
  - left. by rewrite (on_conn_server _ _ _ _ E).
  - unfold sys_conn in E. destruct (objects y !! conn) as [c|]; [|done].
    destruct (conns (server y) !! conn); [|done]. inv_ok.
    destruct (has_closed c x); [|inv_ok; subst y'; by left].
    right. apply server_do_server in E. eauto.
  - right. apply server_do_server in E. eauto.
  - left. inv_ok. subst y'. cbn [server]. eapply on_conn_server; eassumption.
Qed.

(** ** The destructor *)
Lemma destroy_each_posts l cs : ∀ s, (∀ conn, conn ∈ cs → ∃ i, conns s !! conn = Some i ∧ conn_loop i = l) →
  ∃ s', destroy_each cs s = Ok s' ∧ threadPool_ s' = threadPool_ s ∧
    posted s' = posted s ++ ((λ conn, (l, ConnectDestroyed conn)) <$> cs).
Proof.
  induction cs as [|d cs IH]; intros s Hs; cbn; [exists s; by rewrite app_nil_r|].
  destruct (Hs d ltac:(apply elem_of_cons; by left)) as (i & Hi & El). rewrite Hi, El.
  match goal with |- ∃ _, destroy_each _ ?s1 = _ ∧ _ => destruct (IH s1) as (s' & E & Et & Ep) end.
  - intros conn Hin. apply (Hs conn), elem_of_cons. by right.
  - exists s'. split; [exact E|]. split; [exact Et|]. rewrite Ep. cbn. by rewrite <-app_assoc.
Qed.

(** A connection its owner has given up. *)
Definition given_up c : Prop := born c ∧ alive c = true ∧ (owner c = OwnerPosted ∨ owner c = OwnerGone).

Context (Huser : ∀ conn, user_ok (user conn)).

Lemma destroy_gives_up conn c : born c → alive c = true → TcpConnection.op_ok OpDestroy c →
  safe (TcpConnection.run_op (user conn) OpDestroy c) given_up.
Proof.
  intros Hb Ha Hop.
  pose proof (op_born (user conn) (Huser conn) OpDestroy c (or_intror Hb) (or_introl Hb) Hop) as Hs.
  destruct (TcpConnection.run_op (user conn) OpDestroy c) as [c'|e] eqn:E; [|done].
  pose proof (op_alive _ _ _ _ E ltac:(done)) as Ha'. split_and!; [done|congruence|].
  right. cbn [TcpConnection.run_op] in E. inv_ok. by subst c'.
Qed.

Lemma destroy_all_safe cs : ∀ y, NoDup cs →
  (∀ conn, conn ∈ cs → ∃ c, objects y !! conn = Some c ∧ born c ∧ alive c = true ∧ TcpConnection.op_ok OpDestroy c) →
  (∀ conn c, objects y !! conn = Some c → conn ∉ cs → given_up c) →
  safe (destroy_in_loops ((λ conn, (base (server y), ConnectDestroyed conn)) <$> cs) y)
    (λ y', ∀ conn c, objects y' !! conn = Some c → given_up c).
Proof.
  induction cs as [|d cs IH]; intros y Hnd Hin Hout.
  { intros conn c Hc. by apply (Hout conn), not_elem_of_nil. }
  apply NoDup_cons in Hnd as [Hd Hnd]. cbn [fmap list_fmap destroy_in_loops destroy_in_loop].
  rewrite Z.eqb_refl. destruct (Hin d) as (c & Ho & Hb & Ha & Hop); [apply elem_of_cons; by left|].
  unfold on_conn. rewrite Ho. pose proof (destroy_gives_up d c Hb Ha Hop) as Hg.
  destruct (TcpConnection.run_op _ _ c) as [c'|e]; [|done]. cbn [mbind outcome_bind].
  apply (IH (mkSystem (server y) (<[d := c']> (objects y)) (establishing y))); [done|..]; cbn.
  - intros conn Hc. rewrite lookup_insert_ne by congruence. apply Hin, elem_of_cons. by right.
  - intros conn cx [[<- <-]|[Hne Hc]]%lookup_insert_Some Hni; [done|].
    apply (Hout conn); [done|]. by intros [?|?]%elem_of_cons.
Qed.

Lemma destroyed_ok y : sys_inv y → one_loop (server y) → destroyable y →
  safe (server_dtor y) (λ y', ∀ conn c, objects y' !! conn = Some c → given_up c).
Proof.
  intros Hinv [Hl Hc] Hd. unfold server_dtor, TcpServer_dtor. cbn [assertInLoopThread mbind outcome_bind].
  destruct (map_conns _ (si_server _ _ Hinv)) as (Hnd & Hsome & Hiff).
  set (cs := (map_to_list (connections_ (server y))).*2) in *.
  destruct (destroy_each_posts (base (server y)) cs (server y)) as (s' & -> & Et & Ep).
  { intros conn Hin. destruct (Hsome conn Hin) as [i Hi]. eauto. }
  cbn [mbind outcome_bind]. rewrite (newly_posted_app _ _ _ Ep).
  assert (base (server y) = base s') as -> by (unfold base; by rewrite Et).
  apply (destroy_all_safe cs (mkSystem s' (objects y) (establishing y))); [done|..]; cbn.
  - intros conn Hin. destruct (Hsome conn Hin) as [i Hi]. pose proof (proj1 (Hiff conn i Hi) Hin) as Hm.
    destruct (si_map _ _ Hinv _ _ Hm) as [c Ho]. destruct (si_conn _ _ Hinv conn c Ho) as [Ha Hlife Hbk]; [done|].
    destruct (Hd _ _ _ Hm Ho) as [Hs Hq]. exists c.
    assert (born c) as Hb by (destruct Hlife as [?|[Hu _]]; [done|by rewrite (unborn_state _ Hu) in Hs]).
    split_and!; try done. pose proof Hb as (r & [Hup|(o & _ & Hdn)]); [apply Hup|].
    by rewrite (down_state _ _ _ _ Hdn) in Hs.
  - intros conn c Ho Hni. destruct (si_conn _ _ Hinv conn c Ho) as [Ha Hlife Hbk]; [done|].
    assert (¬ in_map (server y) conn) as Hnm.
    { intros (i & Hi & Hx). by apply Hni, (Hiff conn i Hi). }
    assert (owner c = OwnerPosted ∨ owner c = OwnerGone) as Ho'.
    { apply (books_in_map _ _ _) in Hbk. destruct (owner c); [tauto..|by left|by right]. }
    split_and!; [|done..]. destruct Hlife as [?|[Hu _]]; [done|]. rewrite (unborn_owner _ Hu) in Ho'. by destruct Ho'.
Qed.

(** *** Without the server *)
Definition life_inv (x : server_life) : Prop :=
  match x with
  | Serving y => sys_inv y ∧ one_loop (server y)
  | Destroyed os => ∀ conn c, os !! conn = Some c → given_up c
  end.

Lemma given_up_conn conn o c : given_up c → own_op o = true → TcpConnection.op_ok o c →
  safe (TcpConnection.run_op (user conn) o c) (λ c', given_up c' ∧ has_closed c c' = false).
Proof.
  intros (Hb & Ha & Ho) Hown Hop. pose proof (own_op_born (user conn) (Huser conn) o c Hb Hown Hop) as Hs.
  destruct (TcpConnection.run_op (user conn) o c) as [c'|e] eqn:E; [|done]. destruct Hs as [Hb' Hn].
  pose proof (op_alive _ _ _ _ E ltac:(by destruct o)) as Ha'.
  assert (owner c' = OwnerPosted ∨ owner c' = OwnerGone) as Ho'.
  { destruct Hn as [->|[[E1 _]|[_ ->]]]; [done| |by right]. rewrite E1 in Ho. by destruct Ho. }
  split; [split_and!; [done|congruence|done]|]. unfold has_closed. by destruct Ho as [->| ->].
Qed.

Lemma given_up_release conn c : given_up c → unheld c →
  log_down (log c) ∧ queue c = [] ∧ ∃ c', TcpConnection.run_op (user conn) OpRelease c = Ok c'.
Proof.
  intros (Hb & Ha & Ho) Hu. apply given_up_done; [done..|]. intros [E|E]; rewrite E in Ho; by destruct Ho.
Qed.

Lemma life_op_inv o x : life_inv x → life_ok o x → safe (life_run o x) life_inv.
Proof.
  intros Hinv Hok. destruct o as [o| |conn o|conn], x as [y|os]; try done; cbn [life_run].
  - destruct Hinv as [Hs Hl]. pose proof (sys_op_inv user Huser o y Hs Hok) as H.
    destruct (system_run o y) as [y'|e] eqn:E; [|done]. split; [done|].
    destruct (sys_run_server o y y' E) as [->|[so Es]]; [done|]. by eapply one_loop_op.
  - destruct Hinv as [Hs Hl]. eapply safe_bind; [by apply destroyed_ok|]. done.
  - destruct Hok as (Hown & c & Hc & Hop). rewrite Hc.
    eapply safe_bind; [apply (given_up_conn conn o c); [by eapply Hinv|done..]|].
    intros c' [Hg ->] conn' cx [[_ <-]|[_ Hx]]%lookup_insert_Some; [done|]. by eapply Hinv.
  - destruct Hok as (c & Hc & Hu). rewrite Hc.
    destruct (given_up_release conn c) as (_ & _ & c' & ->); [by eapply Hinv|done|].
    intros conn' cx [_ Hx]%lookup_delete_Some. by eapply Hinv.
Qed.

Lemma launch_one_loop loop ipPort name startLoop has_cb s :
  launch loop ipPort name 0 startLoop has_cb = Ok s → one_loop s.
Proof.
  intros E. unfold launch, setThreadNum, TcpServer.start in E. inv_ok. subst.
  cbn [getAndSet started_ set_pool TcpServer_ctor Z.eqb threadPool_] in *. inv_ok. subst.
  destruct x as [pool b]. unfold EventLoopThreads.start in *. inv_ok. subst.
  split; [done|]. intros conn i Hi. cbn in Hi. by rewrite lookup_empty in Hi.
Qed.

(** ** Properties *)

(** C8: a server on one loop can be destroyed with connections open.  If each of
    them is [kConnected] and has no functor with a raw pointer queued ([destroyable];
    a half-closed one aborts: [destroy_while_disconnecting_aborts]), the destructor
    returns, and so does everything the loop and the users do with the connections
    afterwards within [TcpConnection.op_ok]: no assertion fails, nobody calls the
    freed server.  Each connection it leaves has told its user DOWN, after UP and
    once, and can be freed as soon as no functor holds or uses it. *)
Theorem server_destroyed_cleanly loop ipPort name startLoop has_cb s0 x :
  (String.length ipPort ≤ 51)%nat → launch loop ipPort name 0 startLoop has_cb = Ok s0 →
  loop ≠ 0 → (∀ nm, startLoop nm ≠ 0) → rtc life_step (Serving (sys_start s0)) x →
  (∀ o, life_ok o x → (∃ x', life_run o x = Ok x') ∨ life_run o x = Fail LengthError) ∧
  ∀ os conn c, x = Destroyed os → os !! conn = Some c →
    log_down (log c) ∧
    (unheld c → queue c = [] ∧ life_run (LifeFree conn) x = Ok (Destroyed (delete conn os))).
Proof.
  intros Hl E Hb Hs Hrtc.
  assert (life_inv x) as Hinv.
  { apply (rtc_invariant life_step life_inv) in Hrtc; [done|..].
    - intros x1 x2 H1 (o & Hok & E2). exact (safe_ok _ _ _ (life_op_inv o x1 H1 Hok) E2).
    - split; [by eapply start_inv|by eapply launch_one_loop]. }
  split.
  - intros o Hok. pose proof (life_op_inv o x Hinv Hok) as H.
    destruct (life_run o x); [left; eauto|right; by rewrite H].
  - intros os conn c -> Hc. pose proof (Hinv conn c Hc) as Hg. split.
    + destruct Hg as ((r & [Hu|(o & _ & Hdn)]) & _ & Ho); [|apply Hdn].
      rewrite (up_owner _ _ _ Hu) in Ho. by destruct Ho.
    + intros Hu. destruct (given_up_release conn c Hg Hu) as (_ & ? & c' & E'). split; [done|].
      cbn [life_run]. by rewrite Hc, E'.
Qed.
End ServerLife.

(** *** A server on one loop, destroyed while a functor holds its connection *)
Definition life_quiet := life_run quiet.
Definition life_do (o : life_op) (x : server_life) : server_life := from_ok x (life_quiet o x).
Definition demo_one : TcpServer := from_ok (TcpServer_ctor 0 "" "")
  (launch 1 "127.0.0.1:80" "srv" 0 TcpServer.demo_loop false).
Definition life_accepted := life_do (LifeServe (SysAccept 100 7 true false)) (Serving (sys_start demo_one)).
Definition life_sent := life_do (LifeServe (SysConn 100 (OpApi (ASend [x61] take_one)))) life_accepted.
Definition life_ended := life_do LifeDestroy life_sent.
Definition life_last := life_do (LifeConn 100 (OpFunctor take_one)) life_ended.

Definition system_of (x : server_life) : system :=
  match x with Serving y => y | Destroyed os => mkSystem demo_one os [] end.
Definition conn_100 (x : server_life) : TcpConnection := default blank (objects (system_of x) !! 100).

Lemma life_do_step o x x0 : rtc (life_step quiet) x0 x → life_ok o x → is_ok (life_quiet o x) = true →
  rtc (life_step quiet) x0 (life_do o x).
Proof.
  intros Hrtc Hok E. eapply rtc_r; [exact Hrtc|]. exists o. split; [done|].
  unfold life_do, life_quiet in *. by destruct (life_run quiet o x).
Qed.

Lemma life_ended_reachable : rtc (life_step quiet) (Serving (sys_start demo_one)) life_ended.
Proof.
  apply (life_do_step LifeDestroy); [|..|by vm_compute].
  - apply (life_do_step (LifeServe (SysConn 100 (OpApi (ASend [x61] take_one))))); [|..|by vm_compute].
    + apply (life_do_step (LifeServe (SysAccept 100 7 true false))); [apply rtc_refl|by vm_compute..].
    + assert (life_accepted = Serving (system_of life_accepted)) as -> by (vm_compute; reflexivity).
      split; [done|]. exists (conn_100 life_accepted). split; [by vm_compute|]. split; [by vm_compute|].
      split; [by vm_compute|]. split; [by vm_compute|]. split; [apply take_one_ok|by vm_compute].
  - assert (life_sent = Serving (system_of life_sent)) as -> by (vm_compute; reflexivity).
    intros nm conn c Hm Hc.
    assert (conn = 100) as ->.
    { assert (objects (system_of life_sent) = {[100 := conn_100 life_sent]}) as E by (vm_compute; reflexivity).
      rewrite E in Hc. by apply lookup_singleton_Some in Hc as [<- _]. }
    assert (objects (system_of life_sent) !! 100 = Some (conn_100 life_sent)) as E by (vm_compute; reflexivity).
    rewrite E in Hc. injection Hc as <-. split; [by vm_compute|]. vm_compute. by repeat constructor.
Qed.

Lemma life_last_reachable : rtc (life_step quiet) (Serving (sys_start demo_one)) life_last.
Proof.
  apply (life_do_step (LifeConn 100 (OpFunctor take_one))); [apply life_ended_reachable| |by vm_compute].
  assert (life_ended = Destroyed (objects (system_of life_ended))) as -> by (vm_compute; reflexivity).
  split; [done|]. exists (conn_100 life_ended). split; [by vm_compute|]. split; [apply take_one_ok|by vm_compute].
Qed.

Lemma server_destroyed_cleanly_witness : ∃ os c, life_last = Destroyed os ∧ os !! 100 = Some c ∧
  log c = [EvUp; EvDown; EvWriteComplete] ∧ life_run quiet (LifeFree 100) life_last = Ok (Destroyed ∅).
Proof.
  destruct (server_destroyed_cleanly quiet (λ _, silent_ok) 1 "127.0.0.1:80" "srv" TcpServer.demo_loop false
    demo_one life_last) as [_ H].
  - simpl; lia.
  - reflexivity.
  - done.
  - intros nm. unfold TcpServer.demo_loop. by destruct (decide _).
  - apply life_last_reachable.
  - assert (life_last = Destroyed (objects (system_of life_last))) as E by (vm_compute; reflexivity).
    set (os := objects (system_of life_last)) in *.
    assert (os !! 100 = Some (conn_100 life_last)) as Hc by (vm_compute; reflexivity).
    destruct (H os 100 (conn_100 life_last) E Hc) as [_ Hf].
    destruct Hf as [_ Ef]; [by vm_compute|].
    assert (delete 100 os = ∅) as Ed by (vm_compute; reflexivity). rewrite Ed in Ef.
    exists os, (conn_100 life_last). split; [exact E|]. split; [exact Hc|]. split; [by vm_compute|exact Ef].
Defined.

(** A server with two I/O threads is destroyed; its connection's [connectDestroyed]
    waits on another loop, and before it runs the peer closes. *)
Definition life_remote := life_do LifeDestroy (Serving demo_running).

Theorem destroyed_server_is_called :
  rtc (sys_step quiet) (sys_start demo_server) demo_running ∧ destroyable demo_running ∧
  life_run quiet LifeDestroy (Serving demo_running) = Ok life_remote ∧
  queue (conn_100 life_remote) = [FConnectDestroyed] ∧
  life_ok (LifeConn 100 (OpEvent [] POLLIN eof 0)) life_remote ∧
  life_run quiet (LifeConn 100 (OpEvent [] POLLIN eof 0)) life_remote = Fail UB.
Proof.
  assert (objects demo_running = {[100 := conn_100 (Serving demo_running)]}) as E by (vm_compute; reflexivity).
  split; [apply demo_running_reachable|]. split.
  { intros nm conn c _ Hc. rewrite E in Hc. apply lookup_singleton_Some in Hc as [<- <-]. by vm_compute. }
  split; [by vm_compute|]. split; [by vm_compute|]. split; [|by vm_compute].
  assert (life_remote = Destroyed (objects (system_of life_remote))) as -> by (vm_compute; reflexivity).
  split; [done|]. exists (conn_100 life_remote). split; [by vm_compute|]. apply eof_event_ok. by vm_compute.
Qed.
