(* ===== verification/ClientConns.v ===== *)
(** A [TcpClient] and its [TcpConnection]s ([src/net/tcpclient.cpp],
    [src/net/tcpconnection.cpp]), on the loop they share.

    Both models run as they are, the client over its [Connector].  New is what
    connects them: the calls the client makes on a connection, the callback of a
    connection that closes, and the destructor, which gives a live connection
    [detail::removeConnection] for a callback and leaves it to close itself.  After
    that only the connector and the connections are left. *)
From Stdlib Require Import Strings.Byte.
From stdpp Require Import list gmap strings.
From S2P Require Import Prelude Buffer Channel Poller Timestamp Sockets Connector TcpClient TcpConnection ConnChannel.

Section ClientConns.
Variable loop : Z.
Context (user : Ptr → event → TcpConnection → list api).

Record client_system := mkClientSystem {
  client : TcpClient;                (* once destroyed, only its connector counts *)
  destroyed : bool;
  conn_objects : gmap Ptr TcpConnection;  (* the TcpConnection objects that exist *)
  detached : gset Ptr                (* those that call detail::removeConnection *)
}.
Implicit Types (y : client_system) (s : TcpClient) (c : TcpConnection) (conn : Ptr).

Definition with_objects os y : client_system := mkClientSystem (client y) (destroyed y) os (detached y).

Definition on_object conn (f : TcpConnection → outcome TcpConnection) y : outcome client_system :=
  match conn_objects y !! conn with
  | None => Fail UB
  | Some c => c ← f c; Ok (with_objects (<[conn := c]> (conn_objects y)) y)
  end.

(** A call the client makes on a connection. *)
Definition carry_out (x : TcpClient.conn_call) y : outcome client_system :=
  match x with
  | ConnectEstablished conn => on_object conn (TcpConnection.run_op (user conn) (OpEstablish conn)) y
  | Shutdown conn => on_object conn (TcpConnection.run_op (user conn) (OpApi AShutdown)) y
  | ConnectDestroyed conn => on_object conn (TcpConnection.run_op (user conn) OpOwnerPost) y
  | SetCloseCallback conn =>
      Ok (mkClientSystem (client y) (destroyed y) (conn_objects y) ({[ conn ]} ∪ detached y))
  | ForceClose conn => on_object conn (TcpConnection.run_op (user conn) (OpApi AForceClose)) y
  end.

Fixpoint carry_out_all (xs : list TcpClient.conn_call) y : outcome client_system :=
  match xs with [] => Ok y | x :: xs' => y ← carry_out x y; carry_out_all xs' y end.

(** The objects [newConnection] makes; [wc]: a write-complete callback is set. *)
Fixpoint make_objects (ms : list conn_made) (wc : bool) (os : gmap Ptr TcpConnection)
    : outcome (gmap Ptr TcpConnection) :=
  match ms with
  | [] => Ok os
  | m :: ms' =>
    c ← TcpConnection_ctor loop (made_fd m) wc false;
    make_objects ms' wc (<[made_conn m := c]> os)
  end.

(** An operation of the client has left [s]: its new objects, then its calls. *)
Definition follow_up s wc y : outcome client_system :=
  os ← make_objects (drop (length (made (client y))) (made s)) wc (conn_objects y);
  carry_out_all (drop (length (calls (client y))) (calls s))
    (mkClientSystem s (destroyed y) os (detached y)).

Definition client_do (o : client_op) wc y : outcome client_system :=
  s ← run_client loop o (client y); follow_up s wc y.

(** [closeCallback_], called with [conn] at the end of [handleClose]: the client's
    [removeConnection] (a freed client's would be a use after free) or the one of
    [detail]. *)
Definition close_callback conn (sockfd errno : Z) y : outcome client_system :=
  if bool_decide (conn ∈ detached y) then carry_out (ConnectDestroyed conn) y
  else if destroyed y then Fail UB
  else client_do (KClosed conn sockfd errno) false y.

Definition told_closed c c' : bool :=
  bool_decide (owner c = OwnerHas) && bool_decide (owner c' = OwnerNotified).

(** [sockfd], [errno]: for the attempt a closed connection may start. *)
Definition object_do conn (o : op) (sockfd errno : Z) y : outcome client_system :=
  match conn_objects y !! conn with
  | None => Fail UB
  | Some c =>
    c' ← TcpConnection.run_op (user conn) o c;
    let y := with_objects (<[conn := c']> (conn_objects y)) y in
    if told_closed c c' then close_callback conn sockfd errno y else Ok y
  end.

Inductive cs_op :=
  | CsClient (o : client_op) (wc : bool)              (* calls of the client, its connector's events *)
  | CsConn (conn : Ptr) (o : op) (sockfd errno : Z)   (* calls on a connection, events, functors *)
  | CsDestroy (unique : bool)                         (* the client's destructor *)
  | CsConnector (o : connector_op)                    (* what its connector does after that *)
  | CsFree (conn : Ptr).                              (* the last reference goes *)

Definition cs_run (o : cs_op) y : outcome client_system :=
  match o with
  | CsClient o wc => client_do o wc y
  | CsConn conn o sockfd errno => object_do conn o sockfd errno y
  | CsDestroy unique =>
    let s := TcpClient_dtor unique (client y) in
    y ← follow_up s false y;
    Ok (mkClientSystem (client y) true (conn_objects y) (detached y))
  | CsConnector o =>
    c ← Connector.run_op loop o (connector_ (client y));
    if decide (delivered c = delivered (connector_ (client y)))
    then Ok (mkClientSystem (set_connector c (client y)) (destroyed y) (conn_objects y) (detached y))
    else Fail UB   (* newConnectionCallback_ is bound to the freed client *)
  | CsFree conn =>
    y ← on_object conn (TcpConnection.run_op (user conn) OpRelease) y;
    Ok (with_objects (delete conn (conn_objects y)) y)
  end.

(** [connection_] and the functors that hold a reference are all that do; other
    threads keep theirs until the functors they queued have run. *)
Definition unheld y conn c : Prop :=
  (destroyed y = false → connection_ (client y) ≠ Some conn) ∧
  Forall (λ f, needs_conn f = false) (queue c).

(** What is left to the environment; the client is not destroyed while a functor
    holds its connection, so that [unique] is true. *)
Definition cs_allowed (o : cs_op) y : Prop :=
  match o with
  | CsClient o _ => destroyed y = false ∧ client_ok o (client y) ∧ (∀ conn fd e, o ≠ KClosed conn fd e)
  | CsConn conn o _ _ => own_op o = true ∧ ∃ c, conn_objects y !! conn = Some c ∧ TcpConnection.op_ok o c
  | CsDestroy unique => destroyed y = false ∧ ∀ conn c,
      connection_ (client y) = Some conn → conn_objects y !! conn = Some c →
      unique = true ∧ Forall (λ f, holds_ref f = false) (queue c)
  | CsConnector o => destroyed y = true ∧ Connector.op_ok o (connector_ (client y)) ∧ on_its_own o
  | CsFree conn => ∃ c, conn_objects y !! conn = Some c ∧ unheld y conn c
  end.

(** The connection that is up gets no event and runs no functor before the
    connector has deleted the channel it was made with, whose functor was queued
    first (ClientLoop.v proves this of the loop). *)
Definition in_order (o : cs_op) y : Prop :=
  match o with
  | CsConn conn (OpEvent _ _ _ _) _ _ | CsConn conn (OpFunctor _) _ _ =>
      destroyed y = false → connection_ (client y) = Some conn →
      FResetChannel ∉ pending (connector_ (client y))
  | _ => True
  end.

Definition cs_ok (o : cs_op) y : Prop := cs_allowed o y ∧ in_order o y.

Definition cs_step y y' : Prop := ∃ o, cs_ok o y ∧ cs_run o y = Ok y'.

Definition cs_start (name : string) : client_system := mkClientSystem (TcpClient_ctor name) false ∅ ∅.

(** ** The invariant *)
Context (Huser : ∀ conn, user_ok (user conn)) (Hloop : loop ≠ 0).

(** Who will close a connection that is up: the client knows it, or its own functor
    is queued. *)
Definition cared_for y conn c : Prop :=
  if destroyed y then conn ∈ detached y ∧ FForceCloseInLoop ∈ queue c
  else connection_ (client y) = Some conn.

Record object_good y conn c : Prop := {
  og_alive : alive c = true;
  og_born : born c;
  og_told : owner c ≠ OwnerNotified;
  og_up : owner c = OwnerHas → cared_for y conn c
}.

Record client_side y : Prop := {
  cl_inv : client_inv (client y);
  cl_detached : detached y = ∅;
  cl_up conn : connection_ (client y) = Some conn →
    ∃ c, conn_objects y !! conn = Some c ∧ owner c = OwnerHas;
  cl_made conn : is_Some (conn_objects y !! conn) → conn ∈ made_conn <$> made (client y)
}.

(** [but]: a connection that is just being handled. *)
Record cs_inv_but (but : option Ptr) y : Prop := {
  cs_objects conn c : conn_objects y !! conn = Some c → but ≠ Some conn → object_good y conn c;
  cs_side : if destroyed y then silent_connector (connector_ (client y)) else client_side y
}.
Definition cs_inv : client_system → Prop := cs_inv_but None.

(** *** One connection *)
Lemma up_or_gone c : born c → owner c = OwnerHas → ∃ r, up r false c.
Proof.
  intros (r & [Hu|(o & Hne & Hd)]) Ho; [by exists r|]. pose proof (down_owner _ _ _ _ Hd). congruence.
Qed.

(** Calls do not close a connection, they leave that to functors. *)
Lemma call_owner u (Hu : user_ok u) o c c' : born c → TcpConnection.op_ok o c →
  match o with OpApi _ | OpOther _ | OpDelayed => True | _ => False end →
  TcpConnection.run_op u o c = Ok c' → owner c' = owner c.
Proof.
  intros Hb Hop Ho E. destruct (match o with OpOther _ => true | _ => false end) eqn:Hx.
  { destruct o as [| |[]| | | | | |]; try done; by injection E as <-. }
  assert ((∃ in_loop a, call_ok in_loop (state_ c) a ∧ run_api in_loop a c = Ok c') ∨ c' = c)
    as [(il & a & Ha & Ea)| ->]; [|clear E|done].
  { destruct o as [|a|x| | | | | |]; try done.
    - left. exists true, a. split; [apply Hop|done].
    - cbn in E. unfold weak_forceClose, WeakCallback_call in E.
      destruct (alive c); [left; by exists true, AForceClose|right; by injection E as <-]. }
  clear Hop Ho. destruct Hb as (r & [Hup|(ow & Hne & Hd)]).
  - pose proof (api_up il r false a c Hup Ha) as H. rewrite Ea in H.
    by rewrite (up_owner _ _ _ H), (up_owner _ _ _ Hup).
  - rewrite (down_state _ _ _ _ Hd) in Ha. pose proof (api_down il r false ow a c Hd Ha) as H. rewrite Ea in H.
    by rewrite (down_owner _ _ _ _ (proj1 H)), (down_owner _ _ _ _ Hd).
Qed.

(** A queued [forceCloseInLoop] stays queued until it closes the connection. *)
Lemma force_close_closes w c c' u : born c → owner c = OwnerHas → alive c = true →
  run_functor true u FForceCloseInLoop w c = Ok c' → owner c' = OwnerNotified.
Proof.
  intros Hb Ho Ha E. destruct (up_or_gone c Hb Ho) as [r Hup]. unfold run_functor, forceCloseInLoop in E.
  rewrite Ha in E. cbn [negb mbind outcome_bind assertInLoopThread] in E.
  assert (bool_decide (state_ c = kConnected) || bool_decide (state_ c = kDisconnecting) = true) as Hs
    by (destruct (up_state _ _ _ Hup) as [->| ->]; done).
  rewrite Hs in E. unfold handleClose in E. inv_ok. by subst c'.
Qed.

Lemma closing_kept u o c c' : born c → alive c = true → own_op o = true →
  TcpConnection.run_op u o c = Ok c' → FForceCloseInLoop ∈ queue c →
  owner c = OwnerHas → owner c' = OwnerHas → FForceCloseInLoop ∈ queue c'.
Proof.
  intros Hb Ha Hown E Hq Ho Ho'.
  pose proof (op_within u o c ltac:(by destruct o)) as Hw. rewrite E in Hw. destruct Hw as (_ & _ & q & Hpre).
  rewrite Hpre. apply elem_of_app. left.
  destruct o as [self|a|a|pre revents k now|w| | | |]; try done. cbn [popped queue set_queue] in *.
  cbn [TcpConnection.run_op] in E. destruct (queue c) as [|f fs] eqn:Hqc; [by apply not_elem_of_nil in Hq|].
  apply elem_of_cons in Hq as [<-|?]; [|done].
  assert (owner c' = OwnerNotified); [|congruence].
  destruct (up_or_gone c Hb Ho) as [r Hup].
  eapply (force_close_closes w (set_queue fs c)); [|done|done|exact E].
  exists r. left. by eapply up_popped.
Qed.

(** *** Putting one connection back *)
Lemma cs_weaken but y : cs_inv y → cs_inv_but but y.
Proof. intros [H1 H2]. constructor; [|done]. intros conn c Hc _. by apply H1. Qed.

Lemma put_good y conn c' : cs_inv_but (Some conn) y → object_good y conn c' →
  is_Some (conn_objects y !! conn) →
  (destroyed y = false → connection_ (client y) = Some conn → owner c' = OwnerHas) →
  cs_inv (with_objects (<[conn := c']> (conn_objects y)) y).
Proof.
  intros [Hobj Hside] Hg Hin Hup. constructor; cbn [conn_objects with_objects].
  - intros x cx [[<- <-]|[Hne Hx]]%lookup_insert_Some _.
    + destruct Hg. by constructor.
    + destruct (Hobj x cx Hx) as [????]; [congruence|]. by constructor.
  - cbn. destruct (destroyed y); [done|]. destruct Hside as [H1 H2 H3 H4]. constructor; cbn; try done.
    + intros x Hx. destruct (decide (x = conn)) as [->|Hne].
      * exists c'. rewrite lookup_insert_eq. auto.
      * rewrite lookup_insert_ne by done. by apply H3.
    + intros x [<-|Hx]%lookup_insert_is_Some'; by apply H4.
Qed.

(** A closed connection is forgotten, and its [connectDestroyed] queued. *)
Lemma post_object y conn c : cs_inv_but (Some conn) y → is_Some (conn_objects y !! conn) →
  born c → alive c = true → owner c = OwnerNotified →
  (destroyed y = false → connection_ (client y) ≠ Some conn) →
  ∃ y', carry_out (ConnectDestroyed conn) (with_objects (<[conn := c]> (conn_objects y)) y) = Ok y' ∧ cs_inv y'.
Proof.
  intros Hinv Hin Hb Ha Hown Hno.
  destruct (post_born (user conn) (Huser conn) c Hb Hown) as (c' & E & Hb' & Ho' & Ha' & _).
  exists (with_objects (<[conn := c']> (conn_objects y)) y). split.
  - cbn [carry_out]. unfold on_object. cbn [conn_objects with_objects]. rewrite lookup_insert_eq, E.
    cbn [mbind outcome_bind]. unfold with_objects. cbn. by rewrite insert_insert_eq.
  - apply put_good; [done| |done|].
    + constructor; [congruence|done|congruence|]. by rewrite Ho'.
    + intros H1 H2. by destruct (Hno H1).
Qed.

(** What following up amounts to when no object was made. *)
Lemma follow_up_calls s wc y xs : made s = made (client y) → calls s = calls (client y) ++ xs →
  follow_up s wc y = carry_out_all xs (mkClientSystem s (destroyed y) (conn_objects y) (detached y)).
Proof. intros Hm Hc. unfold follow_up. by rewrite Hm, drop_all, Hc, drop_app_length. Qed.

Lemma removeConnection_calls conn fd e s s' : removeConnection loop true conn fd e s = Ok s' →
  calls s' = calls s ++ [ConnectDestroyed conn] ∧ made s' = made s.
Proof.
  unfold removeConnection. intros E. inv_ok. destruct (_ && _); inv_ok; by subst s'.
Qed.

(** *** Operations of a connection *)
Lemma closed_ok conn c fd e y : cs_inv y → is_Some (conn_objects y !! conn) → born c → alive c = true →
  owner c = OwnerNotified →
  (if destroyed y then conn ∈ detached y else connection_ (client y) = Some conn) →
  (destroyed y = false → FResetChannel ∉ pending (connector_ (client y))) →
  ∃ y', close_callback conn fd e (with_objects (<[conn := c]> (conn_objects y)) y) = Ok y' ∧ cs_inv y'.
Proof.
  intros Hinv Hin Hb Ha Hown Hcare Hreset. unfold close_callback. cbn [detached destroyed with_objects].
  destruct (destroyed y) eqn:Ed.
  - rewrite bool_decide_true by exact Hcare. apply post_object; try done; [by apply cs_weaken|]. by rewrite Ed.
  - pose proof Hinv as [Hobj Hside]. rewrite Ed in Hside. destruct Hside as [Hcl Hdet Hup Hmade].
    rewrite Hdet, bool_decide_false by apply not_elem_of_empty.
    destruct (removeConnection_inv loop conn fd e (client y) Hcl) as (s' & E & Hs' & Hnone & _);
      [split; [done|by apply Hreset]|].
    destruct (removeConnection_calls _ _ _ _ _ E) as [Hc Hm].
    unfold client_do. cbn [run_client client with_objects]. rewrite E. cbn [mbind outcome_bind].
    rewrite (follow_up_calls s' false (with_objects (<[conn := c]> (conn_objects y)) y) _ Hm Hc).
    cbn [carry_out_all with_objects destroyed conn_objects detached]. rewrite Ed.
    set (y2 := mkClientSystem s' false (conn_objects y) (detached y)).
    destruct (post_object y2 conn c) as (y' & E' & Hy'); [|done..|by intros _; cbn; rewrite Hnone|].
    { constructor.
      - intros x cx Hx Hne. destruct (Hobj x cx Hx) as [H1 H2 H3 H4]; [done|].
        constructor; [done..|]. intros Hh. specialize (H4 Hh). unfold cared_for in H4. rewrite Ed in H4. congruence.
      - cbn. constructor; cbn; [done|done|by rewrite Hnone|]. by rewrite Hm. }
    exists y'. split; [|done]. unfold with_objects in E'. cbn [y2 client destroyed conn_objects detached] in E'.
    by rewrite E'.
Qed.

Lemma object_do_inv conn o fd e y : cs_inv y → cs_ok (CsConn conn o fd e) y → safe (object_do conn o fd e y) cs_inv.
Proof.
  intros Hinv ((Hown & c & Ho & Hop) & Horder).
  destruct (cs_objects _ _ Hinv conn c Ho) as [Ha Hb Ht Hup]; [done|].
  unfold object_do. rewrite Ho. pose proof (own_op_born (user conn) (Huser conn) o c Hb Hown Hop) as Hsafe.
  destruct (TcpConnection.run_op (user conn) o c) as [c'|err] eqn:Eo; [|done].
  destruct Hsafe as [Hb' Hnext]. cbn [mbind outcome_bind].
  pose proof (op_alive _ _ _ _ Eo ltac:(by destruct o)) as Ha'. rewrite Ha in Ha'.
  unfold told_closed. destruct (_ && _) eqn:He.
  - apply andb_true_iff in He as [E1%bool_decide_eq_true E2%bool_decide_eq_true].
    pose proof (Hup E1) as Hc. unfold cared_for in Hc.
    destruct (closed_ok conn c' fd e y) as (y' & E & Hy'); try done.
    { by destruct (destroyed y); [apply Hc|]. }
    { intros Hd. rewrite Hd in Hc.
      destruct o; try done; try (by apply Horder);
        pose proof (call_owner _ (Huser conn) _ _ _ Hb Hop I Eo); congruence. }
    by rewrite E.
  - assert (owner c' = OwnerHas → owner c = OwnerHas) as Hback.
    { destruct Hnext as [->|[[_ ->]|[_ ->]]]; done. }
    apply put_good; [by apply cs_weaken| |by exists c|].
    + constructor; [done|done| |].
      * intros E. destruct Hnext as [En|[[E1 _]|[_ En]]]; [congruence| |congruence].
        by rewrite E1, E in He.
      * intros E. pose proof (Hup (Hback E)) as Hc. unfold cared_for in *.
        destruct (destroyed y); [|done]. split; [apply Hc|]. destruct Hc.
        by eapply (closing_kept (user conn) o c c'); [| | | | |apply Hback|].
    + intros Hd Hc. pose proof (cs_side _ _ Hinv) as Hs. rewrite Hd in Hs.
      destruct (cl_up _ Hs conn Hc) as (c2 & Hc2 & E2). rewrite Ho in Hc2. injection Hc2 as <-.
      destruct Hnext as [->|[[_ En]|[E1 _]]]; [done| |congruence]. by rewrite E2, En in He.
Qed.

(** *** Operations of the client *)

(** What they leave to do: nothing, a [shutdown], or a new connection. *)
Lemma client_effects o s s' : client_inv s → client_ok o s → (∀ conn fd e, o ≠ KClosed conn fd e) →
  run_client loop o s = Ok s' →
  (made s' = made s ∧ connection_ s' = connection_ s ∧ calls s' = calls s) ∨
  (∃ conn, connection_ s = Some conn ∧ connection_ s' = Some conn ∧ made s' = made s ∧
     calls s' = calls s ++ [Shutdown conn]) ∨
  (∃ conn nm fd, (conn ∉ made_conn <$> made s) ∧ connection_ s = None ∧ connection_ s' = Some conn ∧
     made s' = made s ++ [mkMade conn nm fd] ∧ calls s' = calls s ++ [ConnectEstablished conn]).
Proof.
  intros Hinv Hok Hnc E. destruct o as [fd e| | | |ko conn peer|conn fd e]; cbn [run_client] in E.
  - unfold connect in E. inv_ok. subst s'. by left.
  - injection E as <-. unfold disconnect. cbn [connection_ set_connect].
    destruct (connection_ s) as [conn|] eqn:Ec; [right; left; exists conn|left]; by rewrite ?Ec.
  - injection E as <-. by left.
  - injection E as <-. by left.
  - apply outcome_bind_ok in E as (c & Hx & E). destruct Hok as (Hop & Ho & Hnew & Hid).
    assert (on_its_own ko) as Hown by by destruct ko.
    destruct (own_step_delivers loop _ _ _ (ci_connector _ Hinv) Hop Hown Hx)
      as [(Hd & _)|(fd & Hd & _ & Hst & _)]; rewrite Hd in E.
    + rewrite drop_all in E. injection E as <-. by left.
    + rewrite drop_app_length in E. right. right. unfold newConnection in E. inv_ok.
      case_decide; inv_ok. subst s'. exists conn. do 2 eexists. split_and!; try done.
      destruct (connection_ s) as [p|] eqn:Ep; [|done]. destruct (ci_connected _ Hinv _ Ep). congruence.
  - by destruct (Hnc conn fd e).
Qed.

Lemma new_client s y : cs_inv y → destroyed y = false → client_inv s →
  connection_ s = connection_ (client y) → made s = made (client y) →
  cs_inv (mkClientSystem s (destroyed y) (conn_objects y) (detached y)).
Proof.
  intros [Hobj Hside] Hd Hs Hc Hm. rewrite Hd in Hside. destruct Hside as [H1 H2 H3 H4]. constructor.
  - intros x cx Hx _. destruct (Hobj x cx Hx) as [? ? ? Hup]; [done|]. constructor; [done..|].
    unfold cared_for in *. cbn. by rewrite Hd, Hc in *.
  - cbn. rewrite Hd. constructor; cbn; rewrite ?Hc, ?Hm; done.
Qed.

(** A call the client makes on the connection it holds. *)
Lemma shutdown_object conn y : cs_inv y → destroyed y = false → connection_ (client y) = Some conn →
  safe (carry_out (Shutdown conn) y) cs_inv.
Proof.
  intros Hinv Hd Hc. pose proof (cs_side _ _ Hinv) as Hs. rewrite Hd in Hs.
  destruct (cl_up _ Hs conn Hc) as (c & Ho & Hown).
  destruct (cs_objects _ _ Hinv conn c Ho) as [Ha Hb Ht Hup]; [done|].
  assert (TcpConnection.op_ok (OpApi AShutdown) c) as Hop by (split_and!; [by apply born_state|done|done]).
  cbn [carry_out]. unfold on_object. rewrite Ho.
  pose proof (own_op_born (user conn) (Huser conn) (OpApi AShutdown) c Hb eq_refl Hop) as Hsafe.
  destruct (TcpConnection.run_op _ _ c) as [c'|e] eqn:E; [|done]. cbn [mbind outcome_bind].
  pose proof (call_owner _ (Huser conn) _ _ _ Hb Hop I E) as Ho'.
  pose proof (op_alive _ _ _ _ E ltac:(done)) as Ha'.
  apply put_good; [by apply cs_weaken| |by exists c|by intros _ _; congruence].
  constructor; [congruence|apply Hsafe|congruence|]. intros _. unfold cared_for. by rewrite Hd.
Qed.

Lemma ctor_ok fd wc : ∃ c, TcpConnection_ctor loop fd wc false = Ok c ∧ unborn c.
Proof.
  destruct (TcpConnection_ctor loop fd wc false) as [c|e] eqn:E; [exists c; split; [done|by eapply ctor_unborn]|].
  unfold TcpConnection_ctor in E. rewrite Buffer_ctor_default in E. cbn [mbind outcome_bind] in E.
  by rewrite (proj2 (Z.eqb_neq _ _) Hloop) in E.
Qed.

(** [newConnection]: the new object is established at once. *)
Lemma establish_object conn c s y : cs_inv y → destroyed y = false → client_inv s → unborn c →
  connection_ (client y) = None → connection_ s = Some conn →
  (∀ x, x ∈ made_conn <$> made (client y) → x ∈ made_conn <$> made s) → conn ∈ made_conn <$> made s →
  safe (carry_out (ConnectEstablished conn)
    (mkClientSystem s (destroyed y) (<[conn := c]> (conn_objects y)) (detached y))) cs_inv.
Proof.
  intros Hinv Hd Hs Hu Hnone Hsome Hmade Hin. cbn [carry_out]. unfold on_object. cbn [conn_objects].
  rewrite lookup_insert_eq. pose proof (establish_up (user conn) (Huser conn) conn c Hu) as Hsafe.
  destruct (TcpConnection.run_op _ _ c) as [c'|e] eqn:E; cbn [TcpConnection.run_op] in E; rewrite E in Hsafe; [|done].
  pose proof (op_alive _ (OpEstablish conn) _ _ E ltac:(done)) as Ha. rewrite (unborn_alive _ Hu) in Ha.
  pose proof (up_owner _ _ _ Hsafe) as Hown. cbn [mbind outcome_bind].
  refine (put_good (mkClientSystem s (destroyed y) (<[conn := c]> (conn_objects y)) (detached y)) conn c' _ _ _ _).
  - pose proof (cs_side _ _ Hinv) as Hside. rewrite Hd in Hside. destruct Hside as [H1 H2 H3 H4]. constructor; cbn.
    + intros x cx [[<- _]|[Hne Hx]]%lookup_insert_Some Hb; [done|].
      destruct (cs_objects _ _ Hinv x cx Hx) as [? ? ? Hup]; [done|]. constructor; [done..|].
      intros Ho. specialize (Hup Ho). unfold cared_for in Hup. rewrite Hd in Hup. congruence.
    + rewrite Hd. constructor; cbn; [done|done|..].
      * intros x Hx. assert (x = conn) as -> by congruence. exists c. split; [apply lookup_insert_eq|by apply Hu].
      * intros x [<-|Hx]%lookup_insert_is_Some'; [done|]. by apply Hmade, H4.
  - constructor; [done|exists 0; by left|congruence|]. intros _. unfold cared_for. cbn. by rewrite Hd.
  - cbn. rewrite lookup_insert_eq. by exists c.
  - by intros _ _.
Qed.

Lemma client_do_inv o wc y : cs_inv y → cs_ok (CsClient o wc) y → safe (client_do o wc y) cs_inv.
Proof.
  intros Hinv ((Hd & Hok & Hnc) & _). pose proof (cs_side _ _ Hinv) as Hside. rewrite Hd in Hside.
  pose proof (cl_inv _ Hside) as Hcl. destruct (client_op_inv loop o (client y) Hcl Hok) as (s & E & Hs).
  unfold client_do. rewrite E. cbn [mbind outcome_bind].
  destruct (client_effects o _ s Hcl Hok Hnc E)
    as [(Hm & Hc & Hl)|[(conn & H1 & H2 & Hm & Hl)|(conn & nm & fd & Hnew & H1 & H2 & Hm & Hl)]].
  - rewrite (follow_up_calls s wc y [] Hm) by by rewrite app_nil_r. by apply new_client.
  - rewrite (follow_up_calls s wc y _ Hm Hl). cbn [carry_out_all].
    pose proof (shutdown_object conn (mkClientSystem s (destroyed y) (conn_objects y) (detached y))
      (new_client s y Hinv Hd Hs ltac:(congruence) Hm) Hd H2) as H.
    by destruct (carry_out _ _).
  - unfold follow_up. rewrite Hm, Hl, !drop_app_length. cbn [make_objects made_fd made_conn].
    destruct (ctor_ok fd wc) as (c & -> & Hu). cbn [mbind outcome_bind carry_out_all].
    pose proof (establish_object conn c s y Hinv Hd Hs Hu H1 H2) as H.
    destruct (carry_out _ _); apply H; rewrite Hm, fmap_app;
      try (intros x Hx); apply elem_of_app; [by left|right|by left|right]; by apply list_elem_of_singleton.
Qed.

(** *** The destructor, and after it *)
Lemma force_close_up r c u : up r false c → ∃ c',
  TcpConnection.run_op u (OpApi AForceClose) c = Ok c' ∧ up r false c' ∧ FForceCloseInLoop ∈ queue c'.
Proof.
  intros Hup. pose proof (forceClose_up r false c Hup) as H. cbn [TcpConnection.run_op run_api].
  unfold forceClose in *.
  assert (bool_decide (state_ c = kConnected) || bool_decide (state_ c = kDisconnecting) = true) as Hs
    by (destruct (up_state _ _ _ Hup) as [->| ->]; done).
  rewrite Hs in *. eexists. split_and!; [done|exact H|]. cbn. apply elem_of_app. right.
  by apply list_elem_of_singleton.
Qed.

Lemma destroy_inv unique y : cs_inv y → cs_ok (CsDestroy unique) y → safe (cs_run (CsDestroy unique) y) cs_inv.
Proof.
  intros Hinv ((Hd & Huniq) & _). pose proof (cs_side _ _ Hinv) as Hside. rewrite Hd in Hside.
  destruct Hside as [Hcl Hdet Hup Hmade]. destruct (dtor_silent loop unique (client y) Hcl) as [Hsil _].
  cbn [cs_run]. set (s := TcpClient_dtor unique (client y)) in *.
  destruct (connection_ (client y)) as [conn|] eqn:Ec.
  - destruct (Hup conn eq_refl) as (c & Ho & Hown). destruct (Huniq conn c eq_refl Ho) as [-> _].
    destruct (cs_objects _ _ Hinv conn c Ho) as [Ha Hb _ _]; [done|].
    destruct (up_or_gone c Hb Hown) as [r Hu]. destruct (force_close_up r c (user conn) Hu) as (c' & E & Hu' & Hq).
    rewrite (follow_up_calls s false y [SetCloseCallback conn; ForceClose conn]);
      [|by unfold s, TcpClient_dtor; rewrite Ec|].
    2:{ unfold s, TcpClient_dtor. rewrite Ec. cbn. by rewrite <-app_assoc. }
    cbn [carry_out_all carry_out mbind outcome_bind]. unfold on_object. cbn [conn_objects client destroyed detached].
    rewrite Ho, E. cbn [mbind outcome_bind]. constructor; cbn; [|done].
    intros x cx [[<- <-]|[Hne Hx]]%lookup_insert_Some _.
    + pose proof (op_alive _ _ _ _ E ltac:(done)) as Ha'. constructor; [congruence|exists r; by left| |].
      * rewrite (up_owner _ _ _ Hu'). done.
      * intros _. unfold cared_for. cbn. split; [|done]. by apply elem_of_union; left; apply elem_of_singleton.
    + destruct (cs_objects _ _ Hinv x cx Hx) as [? ? ? Hcare]; [done|]. constructor; [done..|].
      intros Ho'. specialize (Hcare Ho'). unfold cared_for in Hcare. rewrite Hd, Ec in Hcare. congruence.
  - rewrite (follow_up_calls s false y []);
      [|by unfold s, TcpClient_dtor; rewrite Ec|by unfold s, TcpClient_dtor; rewrite Ec, app_nil_r].
    cbn. constructor; cbn; [|done]. intros x cx Hx _.
    destruct (cs_objects _ _ Hinv x cx Hx) as [? ? ? Hcare]; [done|]. constructor; [done..|].
    intros Ho'. specialize (Hcare Ho'). unfold cared_for in Hcare. by rewrite Hd, Ec in Hcare.
Qed.

Lemma connector_do_inv o y : cs_inv y → cs_ok (CsConnector o) y → safe (cs_run (CsConnector o) y) cs_inv.
Proof.
  intros Hinv ((Hd & Hop & Hown) & _). pose proof (cs_side _ _ Hinv) as Hsil. rewrite Hd in Hsil.
  destruct (connector_op_inv loop o _ (proj1 Hsil) Hop) as (c & E & _).
  destruct (silent_step loop _ _ Hsil (ex_intro _ o (conj Hop (conj Hown E)))) as [Hsil' Hdel].
  cbn [cs_run]. rewrite E. cbn [mbind outcome_bind]. rewrite decide_True by done. constructor; cbn.
  - intros x cx Hx _. destruct (cs_objects _ _ Hinv x cx Hx) as [? ? ? Hcare]; [done|].
    constructor; [done..|]. intros Ho. specialize (Hcare Ho). unfold cared_for in *. by rewrite Hd in *.
  - by rewrite Hd.
Qed.

Lemma unheld_done conn c y : cs_inv y → conn_objects y !! conn = Some c → unheld y conn c →
  log_down (log c) ∧ queue c = [] ∧ ∃ c', TcpConnection.run_op (user conn) OpRelease c = Ok c'.
Proof.
  intros Hinv Ho [Hno Hq]. destruct (cs_objects _ _ Hinv conn c Ho) as [Ha Hb Ht Hup]; [done|].
  apply given_up_done; [done..|]. intros [E|E]; [|done]. specialize (Hup E). unfold cared_for in Hup.
  destruct (destroyed y); [|by apply Hno].
  destruct Hup as [_ Hin]. rewrite Forall_forall in Hq. by specialize (Hq _ Hin).
Qed.

Lemma cs_free_inv conn y : cs_inv y → cs_ok (CsFree conn) y → safe (cs_run (CsFree conn) y) cs_inv.
Proof.
  intros Hinv ((c & Ho & Hun) & _). destruct (unheld_done conn c y Hinv Ho Hun) as (_ & _ & c' & E).
  cbn [cs_run]. unfold on_object. rewrite Ho, E. cbn. rewrite delete_insert_eq. destruct Hinv as [Hobj Hside].
  constructor; cbn.
  - intros x cx [Hx Hcx]%lookup_delete_Some _. destruct (Hobj x cx Hcx) as [? ? ? ?]; [done|]. by constructor.
  - destruct (destroyed y) eqn:Ed; [done|]. destruct Hside as [H1 H2 H3 H4]. constructor; cbn; try done.
    + intros x Hx. destruct (H3 x Hx) as (cx & Hcx & ?). exists cx. rewrite lookup_delete_ne; [done|].
      intros <-. by apply (proj1 Hun Ed).
    + intros x [cx [_ Hx]%lookup_delete_Some]. apply H4. by exists cx.
Qed.

Lemma cs_op_inv o y : cs_inv y → cs_ok o y → safe (cs_run o y) cs_inv.
Proof.
  intros Hinv Hok. destruct o as [o wc|conn o fd e|unique|o|conn].
  - by apply (client_do_inv o wc).
  - by apply object_do_inv.
  - by apply destroy_inv.
  - by apply connector_do_inv.
  - by apply cs_free_inv.
Qed.

Lemma cs_start_inv name : cs_inv (cs_start name).
Proof.
  constructor; cbn; [by intros ? ? ?%lookup_empty_Some|]. constructor; cbn; [apply client_ctor_inv|done|done|].
  by intros conn [? ?%lookup_empty_Some].
Qed.

Lemma cs_reachable name y : rtc cs_step (cs_start name) y → cs_inv y.
Proof.
  intros Hrtc. apply (rtc_invariant cs_step cs_inv) in Hrtc; [done| |apply cs_start_inv].
  intros y1 y2 H1 (o & Hok & E). exact (safe_ok _ _ _ (cs_op_inv o y1 H1 Hok) E).
Qed.

End ClientConns.

(** ** A client destroyed while its connection has a functor queued

    The functor's reference makes [connection_.unique()] false, so the destructor
    does not close the connection.  The functor's was the last reference; the
    connection is then destroyed while it is up, and its destructor aborts. *)
Definition silent_user (conn : Ptr) : event → TcpConnection → list api := silent.

Theorem busy_client_destructor_aborts loop name y conn c w :
  loop ≠ 0 → rtc (cs_step loop silent_user) (cs_start name) y → destroyed y = false →
  connection_ (client y) = Some conn → conn_objects y !! conn = Some c → queue c = [FWriteComplete] →
  ∃ y1 y2 c2, cs_run loop silent_user (CsDestroy false) y = Ok y1 ∧
    cs_run loop silent_user (CsConn conn (OpFunctor w) 0 0) y1 = Ok y2 ∧
    conn_objects y2 !! conn = Some c2 ∧ unheld y2 conn c2 ∧
    cs_run loop silent_user (CsFree conn) y2 = Fail AssertFailure.
Proof.
  intros Hloop Hrtc Hd Hc Ho Hq.
  pose proof (cs_reachable loop silent_user (λ _, silent_ok) Hloop name y Hrtc) as Hinv.
  pose proof (cs_side _ _ Hinv) as Hside. rewrite Hd in Hside.
  destruct (cl_up _ Hside conn Hc) as (c2 & Hc2 & Hown). rewrite Ho in Hc2. injection Hc2 as <-.
  destruct (cs_objects _ _ Hinv conn c Ho) as [Ha Hb _ _]; [done|].
  destruct (up_or_gone c Hb Hown) as [r Hu].
  set (c2 := add_log EvWriteComplete (set_queue [] c)).
  set (s := TcpClient_dtor false (client y)).
  set (y1 := mkClientSystem s true (conn_objects y) ({[ conn ]} ∪ detached y)).
  exists y1, (with_objects (<[conn := c2]> (conn_objects y)) y1), c2. split_and!.
  - cbn [cs_run]. fold s. rewrite (follow_up_calls loop silent_user s false y [SetCloseCallback conn]);
      [done|by unfold s, TcpClient_dtor; rewrite Hc..].
  - cbn [cs_run]. unfold object_do. cbn [conn_objects y1]. rewrite Ho. cbn [TcpConnection.run_op]. rewrite Hq.
    unfold run_functor. cbn [alive set_queue]. rewrite Ha. cbn [negb]. unfold callback, silent_user, silent.
    cbn [run_apis mbind outcome_bind]. unfold told_closed. cbn [owner add_log set_queue]. rewrite Hown. done.
  - apply lookup_insert_eq.
  - split; [done|]. by apply Forall_nil.
  - cbn [cs_run]. unfold on_object. cbn [conn_objects with_objects]. rewrite lookup_insert_eq.
    cbn [TcpConnection.run_op]. unfold TcpConnection_dtor. cbn [state_ c2 add_log set_queue].
    rewrite bool_decide_false; [done|]. destruct (up_state _ _ _ Hu); congruence.
Qed.

(** *** A client connects, sends, and is destroyed *)
Definition cs_do (o : cs_op) (y : client_system) : client_system := from_ok y (cs_run 1 silent_user o y).
Definition client_begun := cs_do (CsClient (KConnect 7 EINPROGRESS) true) (cs_start "c").
Definition client_connected := cs_do (CsClient (KConnector (CEvent POLLOUT 0 false) 500 "10.0.0.7:80") true) client_begun.
Definition client_ready := cs_do (CsClient (KConnector (CFunctor 8 0) 501 "") true) client_connected.
Definition take_all : kernel_write := λ len, inr len.
Definition client_sent := cs_do (CsConn 500 (OpApi (ASend [x61; x62] take_all)) 0 0) client_ready.
Definition client_notified := cs_do (CsConn 500 (OpFunctor take_all) 0 0) client_sent.
Definition client_destroyed := cs_do (CsDestroy true) client_notified.
Definition client_closed := cs_do (CsConn 500 (OpFunctor take_all) 0 0) client_destroyed.
Definition client_gone := cs_do (CsConn 500 (OpFunctor take_all) 0 0) client_closed.

Lemma cs_do_step o y y0 : rtc (cs_step 1 silent_user) y0 y → cs_ok o y →
  is_ok (cs_run 1 silent_user o y) = true → rtc (cs_step 1 silent_user) y0 (cs_do o y).
Proof.
  intros Hrtc Hok E. eapply rtc_r; [exact Hrtc|]. exists o. split; [done|].
  unfold cs_do. by destruct (cs_run 1 silent_user o y).
Qed.

Lemma client_begun_reachable : rtc (cs_step 1 silent_user) (cs_start "c") client_begun.
Proof.
  apply cs_do_step; [apply rtc_refl| |by vm_compute]. split; [|done]. split_and!; [done| |done]. split; [|done]. by split_and!.
Qed.

Lemma client_connected_reachable : rtc (cs_step 1 silent_user) (cs_start "c") client_connected.
Proof.
  apply cs_do_step; [apply client_begun_reachable| |by vm_compute].
  split; [|done]. split_and!; [by vm_compute| |done]. split_and!; [|done|apply not_elem_of_nil|done].
  cbn. eexists. split; [by vm_compute|done].
Qed.

Lemma client_ready_reachable : rtc (cs_step 1 silent_user) (cs_start "c") client_ready.
Proof.
  apply cs_do_step; [apply client_connected_reachable| |by vm_compute].
  split; [|done]. split_and!; [by vm_compute| |done].
  split_and!; [done|done|by apply (bool_decide_unpack _); vm_compute|by vm_compute].
Qed.

Definition conn_at (y : client_system) : TcpConnection := default demo_conn (conn_objects y !! 500).

Lemma take_all_ok : write_ok take_all.
Proof. intros len Hlen. unfold take_all. lia. Qed.

(** A functor of the demo's connection may run. *)
Lemma client_functor_ok y : conn_objects y !! 500 = Some (conn_at y) → write_shut (conn_at y) = false →
  pending (connector_ (client y)) = [] → cs_ok (CsConn 500 (OpFunctor take_all) 0 0) y.
Proof.
  intros Ho Hw Hp. split.
  - split; [done|]. exists (conn_at y). split; [done|]. split; [apply take_all_ok|]. by rewrite Hw.
  - intros _ _. rewrite Hp. apply not_elem_of_nil.
Qed.

Lemma client_sent_reachable : rtc (cs_step 1 silent_user) (cs_start "c") client_sent.
Proof.
  apply cs_do_step; [apply client_ready_reachable| |by vm_compute].
  split; [|done]. split; [done|]. exists (conn_at client_ready). split; [by vm_compute|].
  split_and!; [by vm_compute|by vm_compute|split; [apply take_all_ok|by vm_compute]].
Qed.

Lemma client_notified_reachable : rtc (cs_step 1 silent_user) (cs_start "c") client_notified.
Proof. apply cs_do_step; [apply client_sent_reachable|apply client_functor_ok; by vm_compute|by vm_compute]. Qed.

Lemma client_destroyed_reachable : rtc (cs_step 1 silent_user) (cs_start "c") client_destroyed.
Proof.
  apply cs_do_step; [apply client_notified_reachable| |by vm_compute]. split; [|done]. split; [by vm_compute|].
  assert (connection_ (client client_notified) = Some 500) as Ec by (vm_compute; reflexivity).
  assert (conn_objects client_notified !! 500 = Some (conn_at client_notified)) as Eo by (vm_compute; reflexivity).
  intros conn c Hc Ho. split; [done|]. rewrite Ec in Hc. injection Hc as <-. rewrite Eo in Ho. injection Ho as <-.
  assert (queue (conn_at client_notified) = []) as -> by (vm_compute; reflexivity). by apply Forall_nil.
Qed.

Lemma client_closed_reachable : rtc (cs_step 1 silent_user) (cs_start "c") client_closed.
Proof. apply cs_do_step; [apply client_destroyed_reachable|apply client_functor_ok; by vm_compute|by vm_compute]. Qed.

Lemma client_gone_reachable : rtc (cs_step 1 silent_user) (cs_start "c") client_gone.
Proof. apply cs_do_step; [apply client_closed_reachable|apply client_functor_ok; by vm_compute|by vm_compute]. Qed.

Lemma client_gone_object : conn_objects client_gone !! 500 = Some (conn_at client_gone).
Proof. vm_compute. reflexivity. Qed.

Lemma client_gone_unheld : unheld client_gone 500 (conn_at client_gone).
Proof.
  split; [intros H; exfalso; revert H; by vm_compute|].
  assert (queue (conn_at client_gone) = []) as -> by (vm_compute; reflexivity). by apply Forall_nil.
Qed.


Lemma busy_client_destructor_aborts_witness :
  ∃ y1 y2 c2, cs_run 1 silent_user (CsDestroy false) client_sent = Ok y1 ∧
    cs_run 1 silent_user (CsConn 500 (OpFunctor take_all) 0 0) y1 = Ok y2 ∧
    conn_objects y2 !! 500 = Some c2 ∧ unheld y2 500 c2 ∧
    cs_run 1 silent_user (CsFree 500) y2 = Fail AssertFailure.
Proof.
  apply (busy_client_destructor_aborts 1 "c" client_sent 500 (conn_at client_sent) take_all);
    [done|apply client_sent_reachable|vm_compute; reflexivity..].
Defined.
