(* ===== verification/ClientLoop.v ===== *)
(** A client on one event loop ([src/net/eventloop.cpp], [src/net/tcpclient.cpp],
    [src/net/connector.cpp], [src/net/tcpconnection.cpp]).

    ClientConns.v lets the connector and the connections run their functors and
    events as they come, but for one condition on the order ([in_order]).  Here
    [EventLoop::loop] schedules them: it polls, dispatches the channels the poll
    found active, swaps the one queue of functors and runs them.  The queue holds
    for each functor whose it is; [client_on_one_loop] shows that the loop keeps the
    condition. *)
From stdpp Require Import list gmap strings.
From S2P Require Import Prelude Buffer Channel Poller Timestamp Sockets Connector TcpClient TcpConnection ConnChannel ClientConns.

(** Whose functor. *)
Inductive holder := OfConnector | OfConn (conn : Ptr).
#[export] Instance holder_eq_dec : EqDecision holder.
Proof. solve_decision. Defined.

Definition tally (h : holder) (hs : list holder) : nat := length (filter (h =.) hs).

Lemma tally_app h hs1 hs2 : tally h (hs1 ++ hs2) = (tally h hs1 + tally h hs2)%nat.
Proof. unfold tally. by rewrite filter_app, length_app. Qed.

Lemma tally_cons h x hs : tally h (x :: hs) = ((if decide (h = x) then 1 else 0) + tally h hs)%nat.
Proof. unfold tally. rewrite filter_cons. by destruct (decide (h = x)). Qed.

Lemma tally_pos h hs : (0 < tally h hs)%nat ↔ h ∈ hs.
Proof.
  induction hs as [|x hs IH]; [split; [cbn; lia|by intros ?%not_elem_of_nil]|].
  rewrite tally_cons, elem_of_cons. destruct (decide (h = x)); [split; [by left|intros _; lia]|].
  rewrite <-IH. split; [intros; right; lia|]. intros [?|?]; [done|lia].
Qed.

Section ClientLoop.
Variable loop : Z.
Context (user : Ptr → event → TcpConnection → list api).
Implicit Types (y : client_system) (s : TcpClient) (c : TcpConnection) (conn : Ptr).

Record client_loop := mkClientLoop {
  sys : client_system;
  dispatching : bool;         (* eventHandling_ *)
  batch : list holder;        (* what doPendingFunctors swapped out and has not run *)
  waiting : list holder;      (* pendingFunctors_ *)
  active : gset Ptr           (* connections that may be in activeChannels_ *)
}.
Implicit Types z : client_loop.

Definition queued (h : holder) y : nat :=
  match h with
  | OfConnector => length (pending (connector_ (client y)))
  | OfConn conn => match conn_objects y !! conn with Some c => length (queue c) | None => 0 end
  end.

(** The functor an operation takes from the queue. *)
Definition functor_of (o : cs_op) : option holder :=
  match o with
  | CsClient (KConnector (CFunctor _ _) _ _) _ | CsConnector (CFunctor _ _) => Some OfConnector
  | CsConn conn (OpFunctor _) _ _ => Some (OfConn conn)
  | _ => None
  end.

Definition taken (o : cs_op) (h : holder) : nat := if decide (functor_of o = Some h) then 1 else 0.

(** Functors run off the batch, in order; the connector's events and timer, and the
    events of active connections, while the loop dispatches; calls at any time. *)
Definition on_turn (o : cs_op) z : Prop :=
  match functor_of o with
  | Some h => dispatching z = false ∧ head (batch z) = Some h
  | None =>
    match o with
    | CsClient (KConnector _ _ _) _ | CsConnector (CEvent _ _ _) | CsConnector (CTimer _ _) =>
        dispatching z = true
    | CsConn conn (OpEvent _ _ _ _) _ _ => dispatching z = true ∧ conn ∈ active z
    | _ => True
    end
  end.

(** [hs]: what the operation appended to the queue.  If the connector called
    [newConnectionCallback_], what the connections queued in it stands where the
    connector made the call among the functors it queued itself. *)
Definition appended (o : cs_op) y y' (hs : list holder) : Prop :=
  let c := connector_ (client y) in let c' := connector_ (client y') in
  (∀ h, tally h hs = (queued h y' + taken o h - queued h y)%nat) ∧
  (delivered c' ≠ delivered c → ∃ ps1 fd ps2 hs', order c' = order c ++ ps1 ++ inr fd :: ps2 ∧
     hs = replicate (length ps1) OfConnector ++ hs' ++ replicate (length ps2) OfConnector ∧ (OfConnector ∉ hs')).

Inductive client_loop_step z : client_loop → Prop :=
  | step_op o y' hs :
      on_turn o z → cs_allowed o (sys z) → cs_run loop user o (sys z) = Ok y' → appended o (sys z) y' hs →
      client_loop_step z (mkClientLoop y' (dispatching z)
        (match functor_of o with Some _ => tail (batch z) | None => batch z end) (waiting z ++ hs) (active z))
  | step_poll :               (* poll returns; eventHandling_ = true *)
      dispatching z = false → batch z = [] →
      client_loop_step z (mkClientLoop (sys z) true [] (waiting z) (dom (conn_objects (sys z))))
  | step_swap :               (* doPendingFunctors *)
      dispatching z = true →
      client_loop_step z (mkClientLoop (sys z) false (waiting z) [] ∅).

Definition loop_start (name : string) : client_loop := mkClientLoop (cs_start name) false [] [] ∅.

(** ** What an operation does to the queue *)

(** No connection's queue gets shorter. *)
Definition longer (os os' : gmap Ptr TcpConnection) : Prop :=
  ∀ conn c, os !! conn = Some c → ∃ c', os' !! conn = Some c' ∧ (length (queue c) ≤ length (queue c'))%nat.

Lemma longer_refl os : longer os os.
Proof. intros conn c H. by exists c. Qed.

Lemma longer_trans os1 os2 os3 : longer os1 os2 → longer os2 os3 → longer os1 os3.
Proof.
  intros H1 H2 conn c Hc. destruct (H1 conn c Hc) as (c1 & Hc1 & ?). destruct (H2 conn c1 Hc1) as (c2 & ? & ?).
  exists c2. split; [done|lia].
Qed.

Lemma longer_insert conn c c' os : os !! conn = Some c → (length (queue c) ≤ length (queue c'))%nat →
  longer os (<[conn := c']> os).
Proof.
  intros Hc Hle x cx Hx. destruct (decide (conn = x)) as [<-|Hne].
  - exists c'. rewrite lookup_insert_eq. split; [done|]. congruence.
  - exists cx. by rewrite lookup_insert_ne.
Qed.

Lemma longer_new conn c os : os !! conn = None → longer os (<[conn := c]> os).
Proof. intros Hn x cx Hx. exists cx. rewrite lookup_insert_ne; [done|congruence]. Qed.

Lemma op_longer u o c c' : o ≠ OpRelease → (∀ w, o ≠ OpFunctor w) → TcpConnection.run_op u o c = Ok c' →
  (length (queue c) ≤ length (queue c'))%nat.
Proof.
  intros Hr Hf E. pose proof (op_within u o c Hr) as Hw. rewrite E in Hw. destruct Hw as (_ & _ & Hp).
  assert (popped o c = c) as Hc by (destruct o; try done; by destruct (Hf w)). rewrite Hc in Hp.
  by apply prefix_length.
Qed.

Lemma on_object_longer conn o y y' : o ≠ OpRelease → (∀ w, o ≠ OpFunctor w) →
  on_object conn (TcpConnection.run_op (user conn) o) y = Ok y' →
  longer (conn_objects y) (conn_objects y') ∧ client y' = client y ∧ destroyed y' = destroyed y.
Proof.
  intros Hr Hf E. unfold on_object in E. destruct (conn_objects y !! conn) as [c|] eqn:Hc; [|done].
  inv_ok. subst y'. split; [|done]. eapply longer_insert; [done|]. by eapply op_longer.
Qed.

Lemma carry_out_longer x y y' : carry_out user x y = Ok y' →
  longer (conn_objects y) (conn_objects y') ∧ client y' = client y ∧ destroyed y' = destroyed y.
Proof.
  destruct x; cbn; intros E; try (by eapply on_object_longer in E).
  injection E as <-. split; [apply longer_refl|done].
Qed.

Lemma carry_out_all_longer xs : ∀ y y', carry_out_all user xs y = Ok y' →
  longer (conn_objects y) (conn_objects y') ∧ client y' = client y ∧ destroyed y' = destroyed y.
Proof.
  induction xs as [|x xs IH]; intros y y' E; cbn in E.
  { injection E as <-. split; [apply longer_refl|done]. }
  apply outcome_bind_ok in E as (y1 & E1 & E2).
  destruct (carry_out_longer _ _ _ E1) as (H1 & H2 & H3). destruct (IH _ _ E2) as (H4 & H5 & H6).
  split_and!; [by eapply longer_trans|congruence|congruence].
Qed.

(** At most one new object, at a fresh address. *)
Definition news s y : Prop :=
  made s = made (client y) ∨ ∃ m, made s = made (client y) ++ [m] ∧ conn_objects y !! made_conn m = None.

Lemma follow_up_longer s wc y y' : news s y → follow_up loop user s wc y = Ok y' →
  longer (conn_objects y) (conn_objects y') ∧ client y' = s ∧ destroyed y' = destroyed y.
Proof.
  unfold follow_up. intros Hn E. apply outcome_bind_ok in E as (os & E1 & E2).
  destruct (carry_out_all_longer _ _ _ E2) as (H1 & H2 & H3). split_and!; [|done..].
  eapply longer_trans; [|exact H1]. cbn. destruct Hn as [Hm|(m & Hm & Hnew)]; rewrite Hm in E1.
  - rewrite drop_all in E1. injection E1 as <-. apply longer_refl.
  - rewrite drop_app_length in E1. cbn in E1. inv_ok. subst os. by apply longer_new.
Qed.

(** *** The connector's functors, and the client's connection *)
Definition left_over (o : client_op) s : Connector (Channel conn_handler) :=
  match o with KConnector ko _ _ => unqueued ko (connector_ s) | _ => connector_ s end.

Definition posted (c0 : Connector (Channel conn_handler)) (c c' : Connector (Channel conn_handler)) : Prop :=
  ∃ fs, pending c' = pending c ++ fs ∧ (FResetChannel ∈ fs → Connector.state_ c0 = Connector.kConnecting).

Lemma posted_op o (c c' : Connector (Channel conn_handler)) : inv c → Connector.run_op loop o c = Ok c' → posted c (unqueued o c) c'.
Proof.
  intros Hinv E. destruct (op_posts loop o c c' Hinv E) as (fs & E1 & E2). exists fs. split; [done|].
  intros H. specialize (E2 H). by destruct o.
Qed.

Lemma posted_refl (c0 c : Connector (Channel conn_handler)) : posted c0 c c.
Proof. exists []. rewrite app_nil_r. split; [done|]. by intros []%not_elem_of_nil. Qed.

(** A new connection comes out of an event of a connector that was connecting, which
    queues [resetChannel] first. *)
Definition handed_over (c0 c' : Connector (Channel conn_handler)) : Prop :=
  ∃ fd, delivered c' = delivered c0 ++ [fd] ∧ order c' = order c0 ++ [inl FResetChannel; inr fd] ∧
    pending c' = pending c0 ++ [FResetChannel].

Definition connected (o : client_op) s s' : Prop :=
  ∃ m revents err self conn peer, o = KConnector (CEvent revents err self) conn peer ∧
    connection_ s' = Some (made_conn m) ∧ made s' = made s ++ [m] ∧ (made_conn m ∉ made_conn <$> made s) ∧
    Connector.state_ (connector_ s) = Connector.kConnecting ∧ handed_over (connector_ s) (connector_ s').

Lemma closed_posts conn fd e s s' : inv (connector_ s) → run_client loop (KClosed conn fd e) s = Ok s' →
  posted (connector_ s) (connector_ s) (connector_ s') ∧ made s' = made s ∧ connection_ s' = None ∧
  delivered (connector_ s') = delivered (connector_ s).
Proof.
  intros Hc E. cbn [run_client] in E. unfold removeConnection in E. inv_ok. destruct (_ && _); inv_ok; subst s'.
  - split; [exact (posted_op (CRestart fd e) _ _ Hc H1)|]. split_and!; [done..|].
    unfold restart in H1. cbn [mbind outcome_bind assertInLoopThread] in H1.
    by destruct (startInLoop_keeps loop _ _ _ _ H1) as ([? _] & _).
  - split; [apply posted_refl|done].
Qed.

Lemma client_posts o s s' : client_inv s → client_ok o s → run_client loop o s = Ok s' →
  posted (connector_ s) (left_over o s) (connector_ s') ∧
  (made s' = made s ∧ (connection_ s' = connection_ s ∨ connection_ s' = None) ∧
   delivered (connector_ s') = delivered (connector_ s) ∨ connected o s s').
Proof.
  intros Hinv Hok E. pose proof (ci_connector _ Hinv) as Hc.
  destruct o as [fd e| | | |ko conn peer|conn fd e]; cbn [run_client left_over] in *.
  - unfold connect in E. inv_ok. subst s'. split; [exact (posted_op (CStart fd e) _ _ Hc H)|].
    left. split_and!; [done|by left|]. unfold start in H. cbn.
    by destruct (startInLoop_keeps loop _ _ _ _ H) as ([? _] & _).
  - injection E as <-. unfold disconnect. cbn [connection_ set_connect].
    destruct (connection_ s) eqn:Ec; (split; [apply posted_refl|]); cbn; rewrite ?Ec; auto.
  - injection E as <-. split; [|by auto]. exact (posted_op CStop _ _ Hc eq_refl).
  - injection E as <-. split; [apply posted_refl|by auto].
  - apply outcome_bind_ok in E as (c & Hx & E). destruct Hok as (Hop & Ho & Hnew & Hid).
    pose proof (posted_op ko _ _ Hc Hx) as Hp. assert (on_its_own ko) as Hown by by destruct ko.
    destruct (own_step_delivers loop _ _ _ Hc Hop Hown Hx)
      as [(Hd & _)|(fd & Hd & _ & Hst & _ & r & er & sf & ->)].
    + pose proof Hd as Hd'. rewrite Hd in E. rewrite drop_all in E. injection E as <-. split; [done|by auto].
    + pose proof (event_order _ _ _ _ _ _ Hx Hd) as Hord.
      rewrite Hd, drop_app_length in E. unfold newConnection in E. inv_ok. case_decide; inv_ok. subst s'.
      split; [done|]. right. eexists (mkMade conn _ fd), r, er, sf, conn, peer. split_and!; try done. by exists fd; split.
  - destruct (closed_posts conn fd e s s' Hc E) as (? & ? & ? & ?). by auto 10.
Qed.

(** *** One operation of the whole *)
Context (Huser : ∀ conn, user_ok (user conn)) (Hloop : loop ≠ 0).

Definition pend (o : cs_op) y : Connector (Channel conn_handler) :=
  match o with
  | CsClient ko _ => left_over ko (client y)
  | CsConnector ko => unqueued ko (connector_ (client y))
  | _ => connector_ (client y)
  end.

Record moved_on (o : cs_op) y y' : Prop := {
  mo_connector : posted (connector_ (client y)) (pend o y) (connector_ (client y'));
  mo_conn conn : (queued (OfConn conn) y ≤ queued (OfConn conn) y' + taken o (OfConn conn))%nat;
  mo_client : destroyed y' = false → destroyed y = false ∧
    (made (client y') = made (client y) ∧
       (connection_ (client y') = connection_ (client y) ∨ connection_ (client y') = None) ∨
     ∃ ko wc, o = CsClient ko wc ∧ connected ko (client y) (client y'));
  mo_delivered : delivered (connector_ (client y')) = delivered (connector_ (client y)) ∨
    functor_of o = None ∧ handed_over (connector_ (client y)) (connector_ (client y'))
}.

Lemma longer_queued o y y' : longer (conn_objects y) (conn_objects y') →
  ∀ conn, (queued (OfConn conn) y ≤ queued (OfConn conn) y' + taken o (OfConn conn))%nat.
Proof.
  intros H conn. cbn. destruct (conn_objects y !! conn) as [c|] eqn:Hc; [|lia].
  destruct (H conn c Hc) as (c' & -> & Hle). lia.
Qed.

Lemma client_moved o wc y y' : cs_inv y → cs_ok (CsClient o wc) y → cs_run loop user (CsClient o wc) y = Ok y' →
  moved_on (CsClient o wc) y y'.
Proof.
  intros Hinv ((Hd & Hok & Hnc) & _) E. pose proof (cs_side _ _ Hinv) as Hs. rewrite Hd in Hs.
  cbn [cs_run] in E. unfold client_do in E. apply outcome_bind_ok in E as (s & E1 & E2).
  destruct (client_posts o _ s (cl_inv _ Hs) Hok E1) as [Hp Hm].
  assert (news s y) as Hn.
  { destruct Hm as [[? _]|(m & _ & _ & _ & _ & _ & _ & _ & Em & Hnew & _)]; [by left|]. right. exists m.
    split; [done|]. destruct (conn_objects y !! made_conn m) as [c|] eqn:Ec; [|done].
    destruct Hnew. apply (cl_made _ Hs). by exists c. }
  destruct (follow_up_longer s wc y y' Hn E2) as (Hl & Hcl & Hde). constructor.
  - by rewrite Hcl.
  - by apply longer_queued.
  - intros _. split; [done|]. rewrite Hcl. destruct Hm as [(? & ? & _)|?]; [by left|]. right. by exists o, wc.
  - rewrite Hcl. destruct Hm as [(_ & _ & ?)|(m & r & er & sf & cn & pr & -> & _ & _ & _ & _ & ?)];
      [by left|by right].
Qed.

Lemma still_client y y' : client y' = client y → destroyed y' = destroyed y →
  (∀ o, pend o y = connector_ (client y) →
     (∀ conn, (queued (OfConn conn) y ≤ queued (OfConn conn) y' + taken o (OfConn conn))%nat) → moved_on o y y').
Proof.
  intros Hc Hd o Hp Hq. constructor; [rewrite Hp, Hc; apply posted_refl|done|..]; rewrite Hc, ?Hd; by auto.
Qed.

(** The connector's side of [closeCallback_]. *)
Lemma close_callback_moved conn fd e y y' : inv (connector_ (client y)) →
  close_callback loop user conn fd e y = Ok y' →
  longer (conn_objects y) (conn_objects y') ∧ destroyed y' = destroyed y ∧
  posted (connector_ (client y)) (connector_ (client y)) (connector_ (client y')) ∧
  made (client y') = made (client y) ∧
  (connection_ (client y') = connection_ (client y) ∨ connection_ (client y') = None) ∧
  delivered (connector_ (client y')) = delivered (connector_ (client y)).
Proof.
  intros Hc E. unfold close_callback in E. case_bool_decide.
  { destruct (carry_out_longer _ _ _ E) as (Hl & -> & Hd). split_and!; auto using posted_refl. }
  destruct (destroyed y) eqn:Hd; [done|]. unfold client_do in E. apply outcome_bind_ok in E as (s & E1 & E2).
  destruct (closed_posts conn fd e _ s Hc E1) as (Hp & Hm & Hn & Hdl).
  destruct (follow_up_longer s false y y' (or_introl Hm) E2) as (Hl & -> & Hde).
  split_and!; auto. congruence.
Qed.

Lemma object_moved conn o fd e y y' : cs_inv y → cs_ok (CsConn conn o fd e) y →
  cs_run loop user (CsConn conn o fd e) y = Ok y' → moved_on (CsConn conn o fd e) y y'.
Proof.
  intros Hinv ((Hown & c & Ho & Hop) & _) E. cbn [cs_run] in E. unfold object_do in E. rewrite Ho in E.
  apply outcome_bind_ok in E as (c' & E1 & E2).
  assert (inv (connector_ (client y))) as Hc.
  { pose proof (cs_side _ _ Hinv) as Hs. destruct (destroyed y); [apply Hs|apply Hs]. }
  set (y1 := with_objects (<[conn := c']> (conn_objects y)) y) in *.
  assert (length (queue c) ≤ length (queue c') + taken (CsConn conn o fd e) (OfConn conn))%nat as Hq.
  { pose proof (op_within (user conn) o c ltac:(by destruct o)) as Hw. rewrite E1 in Hw.
    destruct Hw as (_ & _ & Hp). apply prefix_length in Hp. unfold taken. cbn [functor_of].
    destruct o; try done; cbn [popped] in Hp; try lia. cbn in Hp. rewrite decide_True by done.
    destruct (queue c); cbn in *; lia. }
  assert (∀ x, (queued (OfConn x) y ≤ queued (OfConn x) y1 + taken (CsConn conn o fd e) (OfConn x))%nat) as Hq1.
  { intros x. cbn. destruct (decide (x = conn)) as [->|Hne].
    - by rewrite Ho, lookup_insert_eq.
    - rewrite lookup_insert_ne by done. destruct (conn_objects y !! x); lia. }
  destruct (told_closed c c').
  - destruct (close_callback_moved conn fd e y1 y' Hc E2) as (Hl & Hd & Hp & Hm & Hcn & Hdl). constructor.
    + exact Hp.
    + intros x. specialize (Hq1 x). pose proof (longer_queued (CsDestroy true) y1 y' Hl x) as H.
      unfold taken at 1 in H. cbn [functor_of] in H. rewrite decide_False in H by done. lia.
    + rewrite Hd. cbn in *. by auto.
    + by left.
  - injection E2 as <-. by apply still_client.
Qed.

Lemma cs_moved o y y' : cs_inv y → cs_ok o y → cs_run loop user o y = Ok y' → moved_on o y y'.
Proof.
  intros Hinv Hok E. destruct o as [o wc|conn o fd e|unique|o|conn].
  - by apply client_moved.
  - by apply object_moved.
  - destruct Hok as ((Hd & _) & _). cbn [cs_run] in E. apply outcome_bind_ok in E as (y1 & E1 & E2).
    injection E2 as <-. set (s := TcpClient_dtor unique (client y)) in *.
    assert (made s = made (client y) ∧ delivered (connector_ s) = delivered (connector_ (client y)) ∧
      posted (connector_ (client y)) (connector_ (client y)) (connector_ s)) as (Hm & Hdl & Hp).
    { unfold s, TcpClient_dtor. destruct (connection_ (client y)); [destruct unique|];
        (split; [done|split; [done|]]); try apply posted_refl.
      pose proof (cs_side _ _ Hinv) as Hs. rewrite Hd in Hs.
      exact (posted_op CStop _ _ (ci_connector _ (cl_inv _ Hs)) eq_refl). }
    destruct (follow_up_longer s false y y1 (or_introl Hm) E1) as (Hl & Hc & _). constructor; cbn; [|..|done|].
    + by rewrite Hc.
    + exact (longer_queued (CsDestroy unique) y y1 Hl).
    + left. by rewrite Hc.
  - destruct Hok as ((Hd & _) & _). pose proof (cs_side _ _ Hinv) as Hs. rewrite Hd in Hs. destruct Hs as [Hc _].
    cbn [cs_run] in E. apply outcome_bind_ok in E as (c & E1 & E2). destruct (decide _); [|done]. injection E2 as <-.
    constructor; cbn; [exact (posted_op o _ _ Hc E1)| |by rewrite Hd|by left].
    intros conn. destruct (conn_objects y !! conn); lia.
  - destruct Hok as ((c & Ho & Hun) & _). destruct (unheld_done user conn c y Hinv Ho Hun) as (_ & Hq & _).
    cbn [cs_run] in E. unfold on_object in E. rewrite Ho in E. inv_ok. subst.
    apply still_client; [done..|]. intros x. cbn. rewrite delete_insert_eq.
    destruct (decide (x = conn)) as [->|Hne]; [rewrite Ho, Hq; cbn; lia|].
    rewrite lookup_delete_ne by done. destruct (conn_objects y !! x); lia.
Qed.

(** ** The invariant *)
Definition head_batch z : list holder := if dispatching z then waiting z else batch z.

(** [resetChannel] is queued ahead of everything of the connection just made. *)
Definition reset_first z conn : Prop :=
  (conn ∉ active z) ∧
  ∃ hs1 hs2 fs1 fs2, head_batch z = hs1 ++ OfConnector :: hs2 ∧ (OfConn conn ∉ hs1) ∧
    pending (connector_ (client (sys z))) = fs1 ++ FResetChannel :: fs2 ∧ tally OfConnector hs1 = length fs1.

Record loop_inv z : Prop := {
  li_sys : cs_inv (sys z);
  li_batch : dispatching z = true → batch z = [];
  li_tally h : tally h (batch z ++ waiting z) = queued h (sys z);
  li_active conn : conn ∈ active z → destroyed (sys z) = false → conn ∈ made_conn <$> made (client (sys z));
  li_order conn : destroyed (sys z) = false → connection_ (client (sys z)) = Some conn →
    FResetChannel ∈ pending (connector_ (client (sys z))) → reset_first z conn
}.

Lemma on_turn_in_order o z : loop_inv z → on_turn o z → in_order o (sys z).
Proof.
  intros [_ _ _ _ Hord] Hs. destruct o as [|conn o fd e| | |]; try done.
  destruct o as [| | |pre r k now|w| | | |]; try done; cbn in Hs |- *; intros Hd Hc Hr;
    destruct (Hord conn Hd Hc Hr) as (Hna & hs1 & hs2 & _ & _ & Hb & Hn & _).
  - by destruct Hs.
  - destruct Hs as [Hdi Hh]. unfold head_batch in Hb. rewrite Hdi in Hb. rewrite Hb in Hh.
    destruct hs1 as [|h hs1]; [done|]. injection Hh as ->. apply Hn, elem_of_cons. by left.
Qed.

Lemma loop_start_inv name : loop_inv (loop_start name).
Proof.
  constructor; cbn; [apply cs_start_inv|done| |by intros ? ?%elem_of_empty|done].
  by intros [|conn]; cbn; rewrite ?lookup_empty.
Qed.

Lemma swap_inv z : loop_inv z → dispatching z = true →
  loop_inv (mkClientLoop (sys z) false (waiting z) [] ∅).
Proof.
  intros [H1 H2 H3 H4 H5] Hd. constructor; cbn; [done|done| |by intros ? ?%elem_of_empty|].
  - intros h. rewrite app_nil_r. specialize (H3 h). by rewrite H2 in H3.
  - intros conn Hde Hc Hr. destruct (H5 conn Hde Hc Hr) as (_ & Hx). split; [apply not_elem_of_empty|].
    unfold head_batch in *. by rewrite Hd in Hx.
Qed.

(** At a poll nothing of the last iteration is left, so [resetChannel] is not queued
    while a connection is up. *)
Lemma poll_inv z : loop_inv z → dispatching z = false → batch z = [] →
  loop_inv (mkClientLoop (sys z) true [] (waiting z) (dom (conn_objects (sys z)))).
Proof.
  intros [H1 H2 H3 H4 H5] Hd Hb. constructor; cbn; [done|done| | |].
  - intros h. specialize (H3 h). by rewrite Hb in H3.
  - intros conn Hin Hde. pose proof (cs_side _ _ H1) as Hs. rewrite Hde in Hs.
    apply (cl_made _ Hs). by apply elem_of_dom.
  - intros conn Hde Hc Hr. destruct (H5 conn Hde Hc Hr) as (_ & hs1 & hs2 & _ & _ & E & _).
    unfold head_batch in E. rewrite Hd, Hb in E. by destruct hs1.
Qed.

Lemma pend_pending o y :
  pending (pend o y) = (if decide (functor_of o = Some OfConnector) then tail else id)
    (pending (connector_ (client y))).
Proof. by destruct o as [[| | | |[]|]|? []| |[]|]. Qed.

Lemma op_tally o y' hs z : loop_inv z → on_turn o z → moved_on o (sys z) y' → appended o (sys z) y' hs →
  ∀ h, tally h (match functor_of o with Some _ => tail (batch z) | None => batch z end ++ waiting z ++ hs) = queued h y'.
Proof.
  intros Hinv Hs Hm [Hp _] h. pose proof (li_tally _ Hinv h) as Ht. rewrite !tally_app, Hp. rewrite tally_app in Ht.
  assert (queued h (sys z) ≤ queued h y' + taken o h)%nat as Hq.
  { destruct h as [|conn]; [|apply (mo_conn _ _ _ Hm)]. destruct (mo_connector _ _ _ Hm) as (fs & E & _).
    cbn. rewrite E, length_app, pend_pending. unfold taken. destruct (decide _); cbn; [|lia].
    destruct (pending (connector_ (client (sys z)))); cbn; lia. }
  assert (tally h (batch z) = taken o h +
    tally h match functor_of o with Some _ => tail (batch z) | None => batch z end)%nat as Hb; [|lia].
  unfold on_turn in Hs. unfold taken. destruct (functor_of o) as [h0|]; [|by rewrite decide_False].
  destruct Hs as [_ Hh]. destruct (batch z) as [|h1 hs1]; [done|]. injection Hh as ->. rewrite tally_cons.
  cbn [tail]. destruct (decide (h = h0)) as [->|Hne]; [by rewrite decide_True|].
  rewrite decide_False; [done|congruence].
Qed.

Lemma reset_unique (c : Connector (Channel conn_handler)) f1 f2 : inv c → pending c = f1 ++ FResetChannel :: f2 → FResetChannel ∉ f2.
Proof.
  intros [Hi _ _] E. assert (FResetChannel ∈ pending c) as Hin.
  { rewrite E. apply elem_of_app. right. apply elem_of_cons. by left. }
  assert (cleaning c → FResetChannel ∉ f2) as H.
  { intros [[_ ?]|(ch & q1 & q2 & _ & _ & E' & Hn)]; [done|]. rewrite E in E'.
    destruct (split_at_unique _ _ _ _ _ E' Hn) as [_ ->]. by apply not_elem_of_app in Hn as [_ ?]. }
  destruct (Connector.state_ c); [apply H, Hi|by destruct Hi as (_ & ? & _)|apply H, Hi].
Qed.

(** The loop after an operation. *)
Definition after (o : cs_op) y' hs z : client_loop :=
  mkClientLoop y' (dispatching z) (match functor_of o with Some _ => tail (batch z) | None => batch z end)
    (waiting z ++ hs) (active z).

(** The connection was there before: its place in the queue only comes nearer. *)
Lemma order_kept o y' hs z conn fs : loop_inv z → on_turn o z → reset_first z conn →
  inv (connector_ (client (sys z))) →
  pending (connector_ (client y')) = pending (pend o (sys z)) ++ fs → FResetChannel ∉ fs →
  FResetChannel ∈ pending (connector_ (client y')) → reset_first (after o y' hs z) conn.
Proof.
  intros Hinv Hs (Hna & hs1 & hs2 & fs1 & fs2 & Hb & Hn & Hp & Ht) Hc E Hfs Hr.
  split; [done|]. rewrite E in Hr. apply elem_of_app in Hr as [Hr|?]; [|done]. rewrite pend_pending in E, Hr.
  unfold head_batch, on_turn in *. cbn [dispatching waiting batch after sys] in *.
  destruct (functor_of o) as [h|].
  - destruct Hs as [Hd Hh]. rewrite Hd in *. rewrite Hb in *. destruct hs1 as [|h1 hs1].
    + injection Hh as <-. rewrite decide_True in Hr by done. destruct fs1; [|done]. rewrite Hp in Hr.
      by destruct (reset_unique _ [] fs2 Hc Hp).
    + injection Hh as <-. apply not_elem_of_cons in Hn as [Hn1 Hn]. rewrite tally_cons in Ht. cbn [tail app].
      destruct (decide (OfConnector = h1)) as [<-|Hne].
      * rewrite decide_True in E by done. destruct fs1 as [|f fs1]; [done|]. rewrite Hp in E.
        exists hs1, hs2, fs1, (fs2 ++ fs). split_and!; [done|done| |cbn in Ht; lia].
        rewrite E. cbn. by rewrite <-app_assoc.
      * rewrite decide_False in E by congruence. rewrite Hp in E. exists hs1, hs2, fs1, (fs2 ++ fs).
        split_and!; [done|done| |lia]. rewrite E. cbn. by rewrite <-app_assoc.
  - rewrite decide_False in E by done. rewrite Hp in E.
    exists hs1, (if dispatching z then hs2 ++ hs else hs2), fs1, (fs2 ++ fs). split_and!; [|done| |done].
    + destruct (dispatching z); rewrite Hb; [by rewrite <-app_assoc|done].
    + rewrite E. cbn. by rewrite <-app_assoc.
Qed.

Lemma tally_replicate h n : tally h (replicate n h) = n.
Proof. induction n as [|n IH]; [done|]. cbn [replicate]. rewrite tally_cons, decide_True, IH by done. done. Qed.

Lemma tally_none h hs : h ∉ hs → tally h hs = 0%nat.
Proof. rewrite <-tally_pos. lia. Qed.

Lemma tally_others h h' n : h ≠ h' → tally h (replicate n h') = 0%nat.
Proof. intros Hne. apply tally_none. by intros [? _]%elem_of_replicate. Qed.

(** What a connector that hands a descriptor over has appended starts with its own
    functor. *)
Lemma handed_first (ps1 ps2 : list (conn_functor + Z)) f fd fd' :
  [inl f; inr fd'] = ps1 ++ inr fd :: ps2 → ps1 = [inl f] ∧ ps2 = [].
Proof.
  destruct ps1 as [|x [|y [|w ps1]]]; intros [=]; by subst.
Qed.

(** A connection is made: [resetChannel] was queued in the same operation, and
    before what the connection queued, because [handleWrite] calls
    [removeAndResetChannel] before [newConnectionCallback_]. *)
Lemma order_made o y' hs z conn : loop_inv z → on_turn o z → appended o (sys z) y' hs →
  handed_over (connector_ (client (sys z))) (connector_ (client y')) →
  dispatching z = true → destroyed (sys z) = false →
  (conn ∉ made_conn <$> made (client (sys z))) → conn_objects (sys z) !! conn = None →
  reset_first (after o y' hs z) conn.
Proof.
  intros Hinv Hs [_ Hord] (fd & Edl & Eo & Ep) Hd Hde Hnew Hno.
  destruct Hord as (ps1 & fd' & ps2 & hs' & Eo' & Ehs & _).
  { rewrite Edl. intros E. apply (f_equal length) in E. rewrite length_app in E. cbn in E. lia. }
  rewrite Eo in Eo'. apply (inj (order _ ++.)) in Eo'. destruct (handed_first _ _ _ _ _ Eo') as [-> ->].
  assert (OfConn conn ∉ waiting z) as Hw.
  { pose proof (li_tally _ Hinv (OfConn conn)) as Ht. cbn in Ht. rewrite Hno, tally_app in Ht.
    rewrite <-tally_pos. lia. }
  split.
  - intros Hin. by destruct (Hnew (li_active _ Hinv conn Hin Hde)).
  - exists (waiting z), hs', (pending (connector_ (client (sys z)))), [].
    unfold head_batch. cbn [dispatching waiting after sys]. rewrite Hd. split_and!; [|done|done|].
    + rewrite Ehs. cbn. by rewrite app_nil_r.
    + pose proof (li_tally _ Hinv OfConnector) as Ht. by rewrite (li_batch _ Hinv Hd) in Ht.
Qed.

Lemma client_connector_inv y : cs_inv y → inv (connector_ (client y)).
Proof. intros Hinv. pose proof (cs_side _ _ Hinv) as Hs. destruct (destroyed y); apply Hs. Qed.

Lemma op_step_inv o y' hs z : loop_inv z → on_turn o z → cs_allowed o (sys z) →
  cs_run loop user o (sys z) = Ok y' → appended o (sys z) y' hs → loop_inv (after o y' hs z).
Proof.
  intros Hinv Hs Hal E Hp. pose proof (li_sys _ Hinv) as Hcs.
  assert (cs_ok o (sys z)) as Hok by (split; [done|by apply on_turn_in_order]).
  pose proof (cs_op_inv loop user Huser Hloop o (sys z) Hcs Hok) as Hcs'. rewrite E in Hcs'. cbn in Hcs'.
  pose proof (cs_moved o _ y' Hcs Hok E) as Hm. pose proof (client_connector_inv _ Hcs) as Hc. constructor.
  - done.
  - intros Hd. cbn in *. rewrite (li_batch _ Hinv Hd). by destruct (functor_of o).
  - cbn. by apply op_tally.
  - cbn. intros conn Hin Hde. destruct (mo_client _ _ _ Hm Hde) as [Hd Hx].
    pose proof (li_active _ Hinv conn Hin Hd) as Hmade.
    destruct Hx as [[-> _]|(ko & wc & _ & m & _ & _ & _ & _ & _ & _ & _ & -> & _)]; [done|].
    rewrite fmap_app. apply elem_of_app. by left.
  - cbn. intros conn Hde Hcn Hr. destruct (mo_client _ _ _ Hm Hde) as [Hd Hx].
    pose proof (cs_side _ _ Hcs) as Hside. rewrite Hd in Hside.
    destruct Hx as [[_ [Hsame|Hnone]]|(ko & wc & -> & m & r & er & sf & cn & pr & -> & Hnew & _ & Hfresh & Hst & Hho)];
      [|congruence|].
    + rewrite Hcn in Hsame. symmetry in Hsame.
      destruct (mo_connector _ _ _ Hm) as (fs & Efs & Hfs).
      assert (FResetChannel ∉ fs) as Hnf.
      { intros H. specialize (Hfs H). destruct (ci_connected _ (cl_inv _ Hside) conn Hsame). congruence. }
      apply (order_kept o y' hs z conn fs); try done. apply (li_order _ Hinv); [done..|].
      rewrite Efs in Hr. apply elem_of_app in Hr as [Hr|?]; [|done]. rewrite pend_pending in Hr.
      destruct (decide _); [|done]. destruct (pending _); [done|]. apply elem_of_cons. by right.
    + assert (conn = made_conn m) as -> by congruence.
      apply order_made; try done. destruct (conn_objects (sys z) !! made_conn m) as [c|] eqn:Eo; [|done].
      destruct Hfresh. apply (cl_made _ Hside). by exists c.
Qed.

Lemma loop_step_inv z z' : loop_inv z → client_loop_step z z' →
  loop_inv z' ∧ (sys z' = sys z ∨ cs_step loop user (sys z) (sys z')).
Proof.
  intros Hinv [o y' hs Hs Hal E Hp|Hd Hb|Hd].
  - split; [by apply (op_step_inv o y' hs)|]. right. exists o. split; [|done].
    split; [done|by apply on_turn_in_order].
  - split; [by apply poll_inv|by left].
  - split; [by apply swap_inv|by left].
Qed.

Lemma loop_reachable name z : rtc client_loop_step (loop_start name) z →
  loop_inv z ∧ rtc (cs_step loop user) (cs_start name) (sys z).
Proof.
  intros Hrtc. apply (rtc_invariant client_loop_step (λ z, loop_inv z ∧ rtc (cs_step loop user) (cs_start name) (sys z))) in Hrtc.
  - done.
  - intros z1 z2 [Hinv Hr] Hst. destruct (loop_step_inv z1 z2 Hinv Hst) as [Hinv2 [->|Hcs]]; [done|].
    split; [done|]. by eapply rtc_r.
  - split; [apply loop_start_inv|done].
Qed.

(** What an operation queued can always be appended. *)
Lemma tally_list (f : Ptr → nat) (conns : list Ptr) : NoDup conns → ∃ hs, (OfConnector ∉ hs) ∧
  ∀ conn, tally (OfConn conn) hs = if decide (conn ∈ conns) then f conn else 0%nat.
Proof.
  induction 1 as [|p conns Hp Hnd (hs & Hn & Hf)].
  { exists []. split; [by apply not_elem_of_nil|]. intros conn.
    rewrite decide_False by apply not_elem_of_nil. done. }
  exists (replicate (f p) (OfConn p) ++ hs). split.
  { rewrite not_elem_of_app. split; [|done]. by intros [? _]%elem_of_replicate. }
  intros conn. rewrite tally_app, Hf. destruct (decide (conn = p)) as [->|Hne].
  - rewrite tally_replicate, decide_False, decide_True by (done || (apply elem_of_cons; by left)). lia.
  - rewrite tally_others by congruence.
    cbn. apply decide_ext. rewrite elem_of_cons. split; [by right|by intros [|]].
Qed.

Lemma appended_exists o y' z : loop_inv z → on_turn o z → moved_on o (sys z) y' → ∃ hs, appended o (sys z) y' hs.
Proof.
  intros Hinv Hs Hm. set (d h := (queued h y' + taken o h - queued h (sys z))%nat).
  destruct (tally_list (λ conn, d (OfConn conn)) (elements (dom (conn_objects y'))) (NoDup_elements _))
    as (hs & Hn & Hf).
  exists (replicate (d OfConnector) OfConnector ++ hs). split.
  2:{ intros Hne. destruct (mo_delivered _ _ _ Hm) as [?|(Hfn & fd & _ & Eo & Ep)]; [done|].
      exists [inl FResetChannel], fd, [], hs. split_and!; [done| |done]. cbn [length replicate].
      rewrite app_nil_r. f_equal. assert (d OfConnector = 1%nat) as ->; [|done].
      unfold d, taken. rewrite Hfn, decide_False by done. cbn. rewrite Ep, length_app. cbn. lia. }
  intros [|conn]; rewrite tally_app.
  - rewrite tally_replicate, (tally_none _ _ Hn). unfold d. lia.
  - rewrite tally_others by done.
    rewrite Hf. destruct (decide _) as [|Hni]; [reflexivity|]. cbn.
    rewrite elem_of_elements, elem_of_dom, <-eq_None_not_Some in Hni. rewrite Hni.
    unfold taken. destruct (decide _) as [Ef|]; [|lia]. unfold on_turn in Hs. rewrite Ef in Hs.
    destruct Hs as [_ Hh]. pose proof (li_tally _ Hinv (OfConn conn)) as Ht. rewrite tally_app in Ht.
    assert (0 < tally (OfConn conn) (batch z))%nat as Hpos.
    { apply tally_pos. destruct (batch z); [done|]. injection Hh as ->. apply elem_of_cons. by left. }
    cbn in Ht. lia.
Qed.

(** ** Properties *)

(** C10: a client with its connector and connections on one event loop.  In every
    execution of the loop, polls, dispatches and batches of functors, whose calls
    are those the environment may make ([cs_allowed], as for C9), the condition
    [in_order] of C9 holds: a connection that is up gets no event and runs no
    functor before the connector has deleted the channel it was made with.  That
    follows from the order in which [Connector::handleWrite] queues its functor and
    hands the descriptor over ([order]).  So no operation fails, and the loop's
    queue holds exactly the functors of the connector and of the connections. *)
Theorem client_on_one_loop name z : rtc client_loop_step (loop_start name) z →
  rtc (cs_step loop user) (cs_start name) (sys z) ∧
  (∀ o, on_turn o z → cs_allowed o (sys z) →
     in_order o (sys z) ∧
     ((∃ y' hs, cs_run loop user o (sys z) = Ok y' ∧ client_loop_step z (after o y' hs z)) ∨
      cs_run loop user o (sys z) = Fail LengthError)) ∧
  ∀ h, tally h (batch z ++ waiting z) = queued h (sys z).
Proof.
  intros Hrtc. destruct (loop_reachable name z Hrtc) as [Hinv Hcs]. split; [done|]. split; [|apply Hinv].
  intros o Hs Hal. pose proof (on_turn_in_order o z Hinv Hs) as Hord. split; [done|].
  pose proof (cs_op_inv loop user Huser Hloop o (sys z) (li_sys _ Hinv) (conj Hal Hord)) as Hsafe.
  destruct (cs_run loop user o (sys z)) as [y'|e] eqn:E; [left|right; by rewrite Hsafe].
  pose proof (cs_moved o _ y' (li_sys _ Hinv) (conj Hal Hord) E) as Hm.
  destruct (appended_exists o y' z Hinv Hs Hm) as [hs Hp]. exists y', hs. split; [done|].
  by apply (step_op z o y' hs).
Qed.
End ClientLoop.

(** *** A client connects and sends from the connection callback; its functors run
    in the order they were queued *)
Definition sending_client := cs_do (CsConn 500 (OpApi (ASend [Byte.x61] take_all)) 0 0) client_connected.
Definition clean_client := cs_do (CsClient (KConnector (CFunctor 8 0) 501 "") true) sending_client.

Definition begun_loop : client_loop := mkClientLoop client_begun true [] [] ∅.
Definition sent_loop : client_loop := mkClientLoop sending_client true [] [OfConnector; OfConn 500] ∅.
Definition reset_loop : client_loop := mkClientLoop clean_client false [OfConn 500] [] ∅.

(** All connections of the demo are at 500. *)
Definition only_500 (y : client_system) : Prop := ∀ conn, conn ≠ 500 → conn_objects y !! conn = None.

Lemma only_500_empty y : conn_objects y = ∅ → only_500 y.
Proof. by intros E conn _; rewrite E. Qed.

Lemma only_500_one y : conn_objects y = {[500 := conn_at y]} → only_500 y.
Proof. intros E conn Hne. rewrite E. by apply lookup_singleton_ne. Qed.

(** The connector queued [n] functors before it handed a descriptor over, if it did. *)
Definition after_own (n : nat) (y y' : client_system) : Prop :=
  let c := connector_ (client y) in let c' := connector_ (client y') in
  delivered c' ≠ delivered c → ∃ ps fd, order c' = order c ++ ps ++ [inr fd] ∧ length ps = n.

Lemma appended_500 o y y' n m : only_500 y → only_500 y' → after_own n y y' →
  (∀ conn, conn ≠ 500 → functor_of o ≠ Some (OfConn conn)) →
  n = (queued OfConnector y' + taken o OfConnector - queued OfConnector y)%nat →
  m = (queued (OfConn 500) y' + taken o (OfConn 500) - queued (OfConn 500) y)%nat →
  appended o y y' (replicate n OfConnector ++ replicate m (OfConn 500)).
Proof.
  intros H1 H2 Hord Hf Hn Hm. split.
  - intros [|conn]; rewrite tally_app.
    + rewrite tally_replicate, tally_others by done. lia.
    + rewrite tally_others by done. destruct (decide (conn = 500)) as [->|Hne].
      { rewrite tally_replicate. lia. }
      rewrite tally_others by congruence. cbn. rewrite H1, H2 by done. unfold taken.
      by rewrite decide_False by by apply Hf.
  - intros Hne. destruct (Hord Hne) as (ps & fd & E & <-). exists ps, fd, [], (replicate m (OfConn 500)).
    split_and!; [done|by rewrite app_nil_r|]. by intros [? _]%elem_of_replicate.
Qed.

Abbreviation silent_step := (client_loop_step 1 silent_user).

(** An operation of the demo. *)
Lemma silent_op_step o y n m z z' : rtc silent_step (loop_start "c") z →
  on_turn o z → cs_allowed o (sys z) → cs_run 1 silent_user o (sys z) = Ok y →
  only_500 (sys z) → only_500 y → after_own n (sys z) y → (∀ conn, conn ≠ 500 → functor_of o ≠ Some (OfConn conn)) →
  n = (queued OfConnector y + taken o OfConnector - queued OfConnector (sys z))%nat →
  m = (queued (OfConn 500) y + taken o (OfConn 500) - queued (OfConn 500) (sys z))%nat →
  z' = after o y (replicate n OfConnector ++ replicate m (OfConn 500)) z →
  rtc silent_step (loop_start "c") z'.
Proof.
  intros Hr Hs Hal E H1 H2 Hord Hf Hn Hm ->. eapply rtc_r; [exact Hr|].
  apply step_op; [done|done|done|]. by apply appended_500.
Qed.

Lemma begun_loop_reachable : rtc silent_step (loop_start "c") begun_loop.
Proof.
  eapply rtc_r.
  - eapply (silent_op_step (CsClient (KConnect 7 EINPROGRESS) true) client_begun 0 0);
      [apply rtc_refl|done| |by vm_compute|by apply only_500_empty|by apply only_500_empty|intros Hne; destruct Hne; by vm_compute|done|
       by vm_compute|by vm_compute|reflexivity].
    split_and!; [done| |done]. split; [|done]. by split_and!.
  - exact (step_poll 1 silent_user (after (CsClient (KConnect 7 EINPROGRESS) true) client_begun [] (loop_start "c"))
      eq_refl eq_refl).
Qed.

Lemma connected_loop_reachable :
  rtc silent_step (loop_start "c") (mkClientLoop client_connected true [] [OfConnector] ∅).
Proof.
  eapply (silent_op_step (CsClient (KConnector (CEvent POLLOUT 0 false) 500 "10.0.0.7:80") true) client_connected 1 0);
    [exact begun_loop_reachable|done| |by vm_compute|by apply only_500_empty|by apply only_500_one; vm_compute|
     intros _; exists [inl FResetChannel], 7; split; by vm_compute|done|
     by vm_compute|by vm_compute|reflexivity].
  split_and!; [by vm_compute| |done]. split_and!; [|done|apply not_elem_of_nil|done].
  cbn. eexists. split; [by vm_compute|done].
Qed.

Lemma sent_loop_reachable : rtc silent_step (loop_start "c") sent_loop.
Proof.
  eapply (silent_op_step (CsConn 500 (OpApi (ASend [Byte.x61] take_all)) 0 0) sending_client 0 1);
    [exact connected_loop_reachable|done| |by vm_compute|by apply only_500_one; vm_compute|
     by apply only_500_one; vm_compute|intros Hne; destruct Hne; by vm_compute|done|by vm_compute|by vm_compute|reflexivity].
  split; [done|]. exists (conn_at client_connected). split; [by vm_compute|].
  split_and!; [by vm_compute|by vm_compute|split; [apply take_all_ok|by vm_compute]].
Qed.

Lemma reset_loop_reachable : rtc silent_step (loop_start "c") reset_loop.
Proof.
  eapply (silent_op_step (CsClient (KConnector (CFunctor 8 0) 501 "") true) clean_client 0 0);
    [eapply rtc_r; [exact sent_loop_reachable|exact (step_swap 1 silent_user sent_loop eq_refl)]|done| |
     by vm_compute|by apply only_500_one; vm_compute|by apply only_500_one; vm_compute|intros Hne; destruct Hne; by vm_compute|done|
     by vm_compute|by vm_compute|reflexivity].
  split_and!; [by vm_compute| |done].
  split_and!; [done|done|by apply (bool_decide_unpack _); vm_compute|by vm_compute].
Qed.

Lemma client_on_one_loop_witness :
  on_turn (CsConn 500 (OpFunctor take_all) 0 0) reset_loop ∧
  ∃ y', cs_run 1 silent_user (CsConn 500 (OpFunctor take_all) 0 0) (sys reset_loop) = Ok y'.
Proof.
  split; [done|].
  destruct (client_on_one_loop 1 silent_user (λ _, silent_ok) ltac:(done) "c" reset_loop reset_loop_reachable)
    as (_ & H & _).
  destruct (H (CsConn 500 (OpFunctor take_all) 0 0)) as (_ & [(y' & hs & E & _)|E]); [done| |by exists y'|].
  - split; [done|]. exists (conn_at clean_client). split; [by vm_compute|]. split; [apply take_all_ok|]. by vm_compute.
  - by vm_compute in E.
Defined.
