(* ===== verification/LoopRun.v ===== *)
(** [EventLoop::loop] as a whole ([src/net/eventloop.cpp], [loop] and
    [doPendingFunctors]): polling, the dispatch to active channels and the
    functors, in one machine, with other threads' calls in between.

    The channel side is [Reactor]'s, over either poller (classes [Poller] and
    [Polls]); the thread side is [EventLoop]'s, which this machine refines.  What
    callbacks and functors do to channels is a parameter; [Callbacks] is what they
    have to respect. *)
From stdpp Require Import list gmap relations.
From S2P Require Import Prelude Channel Poller EPollPoller Reactor EventLoop.

Section LoopRun.
Context {CB P F : Type} `{!Poller CB P, !Polls CB P}.
Variable tid : Z.

Abbreviation reactor := (objs CB * Loop P)%type.

(** A callback's work on channels, with the calls it makes on its loop; a
    functor's work, and its calls ([body]). *)
Context (call : CB → Z → reactor → outcome (reactor * list (loop_call F))).
Context (act : F → reactor → outcome reactor).
Context (body : F → list (loop_call F)).
(** Can the owner a channel is tied to be locked? *)
Context (lock : reactor → Ptr → bool).

Implicit Types (os : objs CB) (l : Loop P) (ch : Ptr) (c : config (F := F)).

Record running := mkRunning {
  objects : objs CB;
  reactor_ : Loop P;
  pollReturnTime_ : Z;
  left : list Ptr;             (* active channels still to handle *)
  conf : config (F := F)
}.

(** *** One active channel *)
Definition run_callback (cb : CB) (now : Z) (w : objs CB * Loop P * list (loop_call F))
    : outcome (objs CB * Loop P * list (loop_call F)) :=
  '(st, ks) ← call cb now w.1; Ok (st, w.2 ++ ks).

Definition handle_channel ch (pollReturnTime : Z) (st : reactor)
    : outcome (objs CB * Loop P * list (loop_call F)) :=
  handleEvent run_callback (λ w, lock w.1) ch pollReturnTime (st.1, set_current (Some ch) st.2, []).

(** [EventLoop]'s part of a step of the loop's thread. *)
Definition advance c : config :=
  let '(p, s) := loop_next body [] (pc c) (state c) in
  mkConfig s p (owed c) (queued c ++ queued_now (pc c)) (started c ++ started_now (pc c))
    (match pc c with Swap => false | _ => early c end).

Definition with_calls (ks : list (loop_call F)) c : config :=
  mkConfig (state c) (Events ks) (owed c) (queued c) (started c) (early c).

(** [runInLoop] on the loop's own thread runs the functor at once. *)
Definition call_effect (k : loop_call F) (st : reactor) : outcome reactor :=
  match k with CRunInLoop f => act f st | _ => Ok st end.

(** What the loop's thread does next; [answer] and [now] are what [poll] answers
    when that is next. *)
Definition move (answer : outcome (objs CB * P * list Ptr)) (now : Z) (r : running) : outcome running :=
  let '(mkRunning os l t chs c) := r in
  match pc c with
  | Idle | Swap | Run [] [] => Ok (mkRunning os l t chs (advance c))
  | Test => Ok (mkRunning os (if quit_ (state c) then l else set_active [] l) t chs (advance c))
  | Poll =>
    '(os, p, active) ← answer;
    Ok (mkRunning os (set_handling true (set_active active (set_poller p l))) now active (advance c))
  | Events [] =>
    match chs with
    | ch :: chs =>
      '(os, l, ks) ← handle_channel ch t (os, l);
      Ok (mkRunning os l t chs (with_calls ks c))
    | [] => Ok (mkRunning os (set_handling false (set_current None l)) t [] (advance c))
    end
  | Events (k :: _) | Run (k :: _) _ =>
    '(os, l) ← call_effect k (os, l); Ok (mkRunning os l t chs (advance c))
  | Run [] (f :: _) => '(os, l) ← act f (os, l); Ok (mkRunning os l t chs (advance c))
  end.

(** Entering [loop()]; other threads, and the loop's thread outside [loop()]. *)
Inductive outside : config → config → Prop :=
  | OutEnter s s' o qd st e : loop_enter s = Some s' →
      outside (mkConfig s Idle o qd st e) (mkConfig s' Test o qd st e)
  | OutIdleQueue s o qd st e f :
      outside (mkConfig s Idle o qd st e) (mkConfig (queueInLoop true f s) Idle o (qd ++ [f]) st true)
  | OutIdleQuit (s : EventLoop F) o qd st e : outside (mkConfig s Idle o qd st e) (mkConfig (quit true s) Idle o qd st e)
  | OutPush s p o qd st e f :
      outside (mkConfig s p o qd st e) (mkConfig (push_pending f s) p (S o) (qd ++ [f]) st e)
  | OutQuit (s : EventLoop F) p o qd st e : outside (mkConfig s p o qd st e) (mkConfig (set_quit true s) p (S o) qd st e)
  | OutWake (s : EventLoop F) p o qd st e : outside (mkConfig s p (S o) qd st e) (mkConfig (wakeup s) p o qd st e).

Inductive run_step : running → running → Prop :=
  | RunMove r answer now r' :
      (pc (conf r) = Poll → polled (objects r, poller_ (reactor_ r)) answer) →
      move answer now r = Ok r' → run_step r r'
  | RunOutside os l t chs c c' :
      outside c c' → run_step (mkRunning os l t chs c) (mkRunning os l t chs c').

(** ** Refinement: what the machine does is what [EventLoop] does *)
Lemma outside_step c c' : outside c c' → loop_step body c c'.
Proof. destruct 1; by constructor. Qed.

Lemma advance_step c : loop_step body c (advance c).
Proof.
  unfold advance. destruct c as [s p o qd st e]. cbn.
  destruct (loop_next body [] p s) as [p' s'] eqn:E. apply (StepLoop body s p o qd st e [] p' s'); [|done].
  by intros _ ?%not_elem_of_nil.
Qed.

Lemma with_calls_step ks c : pc c = Events [] → loop_step body c (with_calls ks c).
Proof. destruct c. cbn. intros ->. apply StepHandler. Qed.

Lemma run_step_refines r r' : run_step r r' → loop_step body (conf r) (conf r').
Proof.
  destruct 1 as [[os l t chs c] answer now r' Hans E|os l t chs c c' Hout]; [|by apply outside_step].
  cbn in *. destruct (pc c) as [| | |[|k todo]| |[|k todo] [|f fs]] eqn:Hp; inv_ok; subst; try apply advance_step.
  all: try (repeat match goal with x : _ * _ |- _ => destruct x end; inv_ok; subst; apply advance_step).
  destruct chs as [|ch chs]; inv_ok; [subst; apply advance_step|].
  destruct x as [[os' l'] ks]. inv_ok. subst. by apply with_calls_step.
Qed.

(** ** What callbacks must respect *)

(** Two versions of a channel that differ in what the poller and the dispatch
    store. *)
Definition same_but_dispatch (h h' : Channel CB) : Prop :=
  set_revents 0 (Channel.set_eventHandling false h) = set_revents 0 (Channel.set_eventHandling false h').

(** The loop's own bookkeeping changed, nothing else. *)
Definition loop_moved os l os' l' : Prop :=
  self l' = self l ∧ threadId_ l' = threadId_ l ∧
  channels (poller_ l') = channels (poller_ l) ∧ watch (poller_ l') = watch (poller_ l) ∧
  ∀ q, option_Forall2 same_but_dispatch (os !! q) (os' !! q).

(** What a callback or functor leaves alone: the loop's bookkeeping, and the
    objects of channels that wait to be handled. *)
Definition keeps os l os' l' : Prop :=
  self l' = self l ∧ threadId_ l' = threadId_ l ∧
  Reactor.eventHandling_ l' = Reactor.eventHandling_ l ∧
  activeChannels_ l' = activeChannels_ l ∧ currentActiveChannel_ l' = currentActiveChannel_ l ∧
  (Reactor.eventHandling_ l = true → ∀ ch, ch ∈ activeChannels_ l → is_Some (os !! ch) → is_Some (os' !! ch)).

Definition has_callback (h : Channel CB) (cb : CB) : Prop :=
  readCallback_ h = Some cb ∨ writeCallback_ h = Some cb ∨
  closeCallback_ h = Some cb ∨ errorCallback_ h = Some cb.

Class Callbacks := {
  cb_inv : objs CB → Loop P → Prop;
  cb_loop os l : cb_inv os l → loop_ok tid os l;
  cb_moved os l os' l' : cb_inv os l → loop_ok tid os' l' → loop_moved os l os' l' → cb_inv os' l';
  cb_call cb now os l ch h :
    cb_inv os l → currentActiveChannel_ l = Some ch → os !! ch = Some h → has_callback h cb →
    ∃ os' l' ks, call cb now (os, l) = Ok (os', l', ks) ∧ cb_inv os' l' ∧ keeps os l os' l';
  cb_act f os l : cb_inv os l → ∃ os' l', act f (os, l) = Ok (os', l') ∧ cb_inv os' l' ∧ keeps os l os' l'
}.
Context `{!Callbacks}.

Lemma same_but_dispatch_refl (h : Channel CB) : same_but_dispatch h h.
Proof. done. Qed.

Lemma objects_same os : ∀ q, option_Forall2 same_but_dispatch (os !! q) (os !! q).
Proof. intros q. destruct (os !! q); by constructor. Qed.

(** The loop's own steps. *)
Lemma cb_flags os l l' : cb_inv os l → self l' = self l → threadId_ l' = threadId_ l →
  poller_ l' = poller_ l → cb_inv os l'.
Proof.
  intros Hi Hs Ht Hp. apply (cb_moved os l); [done|..].
  - destruct (cb_loop _ _ Hi) as [Hok Hth]. split; [by rewrite Hp|congruence].
  - split_and!; [done|done|by rewrite Hp|by rewrite Hp|apply objects_same].
Qed.

Lemma cb_marked os l ch h b : cb_inv os l → os !! ch = Some h →
  cb_inv (<[ch := Channel.set_eventHandling b h]> os) l.
Proof.
  intros Hi Hh. apply (cb_moved os l); [done|..].
  - apply (loop_ok_frame1 tid os l ch h); [by apply cb_loop|done|by split_and!].
  - split_and!; [done..|]. intros q. destruct (decide (q = ch)) as [->|].
    + rewrite Hh, lookup_insert_eq. by constructor.
    + rewrite lookup_insert_ne by done. apply objects_same.
Qed.

(** *** Dispatching one channel *)
Record handling (ch : Ptr) (active : list Ptr) (w : objs CB * Loop P * list (loop_call F)) : Prop := {
  hd_inv : cb_inv w.1.1 w.1.2;
  hd_current : currentActiveChannel_ w.1.2 = Some ch;
  hd_active : activeChannels_ w.1.2 = active;
  hd_flag : Reactor.eventHandling_ w.1.2 = true;
  hd_alive : ∀ q, q ∈ active → is_Some (w.1.1 !! q)
}.

Lemma handling_mark ch active w b : ch ∈ active → handling ch active w →
  ∃ w', modify ch (Channel.set_eventHandling b) w = Ok w' ∧ handling ch active w'.
Proof.
  intros Hin [Hi Hc Ha Hf Hal]. destruct (Hal ch Hin) as [h Hh].
  exists (chan_insert ch (Channel.set_eventHandling b h) w). split.
  - unfold modify, deref. cbn [chan_lookup reactor_store]. by rewrite Hh.
  - constructor; cbn; [by apply cb_marked|done..|].
    intros q Hq. apply lookup_insert_is_Some'. right. by apply Hal.
Qed.

Lemma handling_dispatch1 ch active now test sel w :
  (∀ h cb, sel h = Some cb → has_callback h cb) → ch ∈ active → handling ch active w →
  ∃ w', dispatch1 run_callback ch now test sel w = Ok w' ∧ handling ch active w'.
Proof.
  intros Hsel Hin Hw. pose proof Hw as [Hi Hc Ha Hf Hal]. destruct (Hal ch Hin) as [h Hh].
  unfold dispatch1, deref. cbn [chan_lookup reactor_store]. rewrite Hh. cbn [mbind outcome_bind].
  destruct (test (revents_ h)); [|by exists w]. destruct (sel h) as [cb|] eqn:Hcb; [|by exists w].
  destruct w as [[os l] ks]. cbn in *.
  destruct (cb_call cb now os l ch h Hi Hc Hh (Hsel _ _ Hcb)) as (os' & l' & ks' & E & Hi' & Hk).
  destruct Hk as (_ & _ & Kf & Ka & Kc & Kal). eexists. split.
  - unfold run_callback. cbn. rewrite E. reflexivity.
  - constructor; cbn; [done|congruence..|]. intros q Hq. apply Kal; [done|congruence|by apply Hal].
Qed.

Lemma handle_channel_ok ch t os l : cb_inv os l → Reactor.eventHandling_ l = true →
  ch ∈ activeChannels_ l → (∀ q, q ∈ activeChannels_ l → is_Some (os !! q)) →
  ∃ w, handle_channel ch t (os, l) = Ok w ∧ handling ch (activeChannels_ l) w.
Proof.
  intros Hi Hf Hin Hal. unfold handle_channel. cbn [fst snd]. set (w := (os, _, [])).
  assert (handling ch (activeChannels_ l) w) as Hw by (constructor; cbn; [by apply (cb_flags os l)|done..]).
  destruct (Hal ch Hin) as [h Hh].
  rewrite (handleEvent_cases _ _ _ _ _ h) by exact Hh. destruct (_ && _); [by exists w|].
  clearbody w. unfold handleEventWithGuard.
  destruct (handling_mark ch _ w true Hin Hw) as (w1 & -> & Hw1). cbn [mbind outcome_bind].
  destruct (handling_dispatch1 ch (activeChannels_ l) t close_test closeCallback_ w1) as (w2 & -> & Hw2);
    [unfold has_callback; auto|done..|]. cbn [mbind outcome_bind].
  destruct (handling_dispatch1 ch (activeChannels_ l) t error_test errorCallback_ w2) as (w3 & -> & Hw3);
    [unfold has_callback; auto|done..|]. cbn [mbind outcome_bind].
  destruct (handling_dispatch1 ch (activeChannels_ l) t read_test readCallback_ w3) as (w4 & -> & Hw4);
    [unfold has_callback; auto|done..|]. cbn [mbind outcome_bind].
  destruct (handling_dispatch1 ch (activeChannels_ l) t write_test writeCallback_ w4) as (w5 & -> & Hw5);
    [unfold has_callback; auto|done..|]. cbn [mbind outcome_bind].
  by apply handling_mark.
Qed.

(** ** The invariant of the running loop *)
Definition in_events (p : place (F := F)) : bool := match p with Events _ => true | _ => false end.

Record run_inv (r : running) : Prop := {
  ri_cb : cb_inv (objects r) (reactor_ r);
  ri_flag : Reactor.eventHandling_ (reactor_ r) = in_events (pc (conf r));
  ri_left : if in_events (pc (conf r))
            then (∃ done, activeChannels_ (reactor_ r) = done ++ left r) ∧
                 ∀ q, q ∈ activeChannels_ (reactor_ r) → is_Some (objects r !! q)
            else left r = [] ∧ currentActiveChannel_ (reactor_ r) = None
}.

Lemma advance_pc c : pc (advance c) = (loop_next body [] (pc c) (state c)).1.
Proof. unfold advance. by destruct (loop_next _ _ _ _). Qed.

Lemma in_events_advance c : in_events (pc (advance c)) =
  match pc c with Poll | Events (_ :: _) => true | _ => false end.
Proof.
  rewrite advance_pc. destruct (pc c) as [| | |[|k todo]| |[|k todo] [|f fs]]; cbn; try done.
  - by destruct (quit_ (state c)).
  - by destruct (exec body k todo (state c)).
  - by destruct (exec body k todo (state c)).
  - by destruct (exec body k todo (state c)).
Qed.

(** A step outside the dispatch. *)
Lemma inv_outside os l l' t c c' : run_inv (mkRunning os l t [] c) → in_events (pc c) = false →
  self l' = self l → threadId_ l' = threadId_ l → poller_ l' = poller_ l →
  Reactor.eventHandling_ l' = false → currentActiveChannel_ l' = None → in_events (pc c') = false →
  run_inv (mkRunning os l' t [] c').
Proof.
  intros [Hi _ _] Hc Hs Ht Hp Hf Hcur Hc'. constructor; cbn; [by apply (cb_flags os l)|congruence|].
  by rewrite Hc'.
Qed.

(** A callback or functor has run. *)
Lemma inv_kept os l os' l' t chs c c' : run_inv (mkRunning os l t chs c) →
  cb_inv os' l' → keeps os l os' l' → in_events (pc c') = in_events (pc c) →
  run_inv (mkRunning os' l' t chs c').
Proof.
  intros [Hi Hf Hl] Hi' (_ & _ & Kf & Ka & Kc & Kal) Hp. cbn in *.
  constructor; cbn; [done|congruence|]. rewrite Hp, Ka, Kc. destruct (in_events (pc c)); [|done].
  destruct Hl as [Hd Hal]. split; [done|]. intros q Hq. apply Kal; [congruence|done|by apply Hal].
Qed.

Lemma call_effect_ok k os l : cb_inv os l →
  ∃ os' l', call_effect k (os, l) = Ok (os', l') ∧ cb_inv os' l' ∧ keeps os l os' l'.
Proof.
  intros Hi. destruct k as [|f|f|]; cbn; try (exists os, l; by split_and!). by apply cb_act.
Qed.

Lemma poll_move os l t c os' p' active now :
  run_inv (mkRunning os l t [] c) → polled (os, poller_ l) (Ok (os', p', active)) → pc c = Poll →
  run_inv (mkRunning os' (set_handling true (set_active active (set_poller p' l))) now active (advance c)).
Proof.
  intros [Hi Hf Hl] Hans Hp. cbn in *. destruct (cb_loop _ _ Hi) as [Hok Hth].
  destruct (poll_returns os (poller_ l) _ Hok Hans) as (os2 & p2 & act2 & [= <- <- <-] & Hok' & Hch & Hw & Hin & Hsame).
  assert (∀ q, option_Forall2 same_but_dispatch (os !! q) (os' !! q)) as Hd.
  { intros q. destruct (Hsame q) as [h h' Hs|]; constructor. unfold same_but_dispatch.
    destruct h, h'; cbn in *. by injection Hs as -> -> -> -> -> -> -> -> -> -> -> ->. }
  constructor; cbn; rewrite ?in_events_advance, ?Hp.
  - apply (cb_moved os l); [done|by split|by split_and!].
  - done.
  - split; [by exists []|]. intros q Hq. destruct (Hin q Hq) as (h & Hh & _). specialize (Hsame q).
    rewrite Hh in Hsame. inversion Hsame; subst. by eexists.
Qed.

(** The step the loop's thread is about to make does not fail. *)
Lemma move_inv r answer now : run_inv r →
  (pc (conf r) = Poll → polled (objects r, poller_ (reactor_ r)) answer) →
  ∃ r', move answer now r = Ok r' ∧ run_inv r'.
Proof.
  destruct r as [os l t chs c]. intros Hinv Hans. pose proof Hinv as [Hi Hf Hl]. cbn in *.
  pose proof (in_events_advance c) as Hadv.
  destruct (pc c) as [| | |[|k todo]| |[|k todo] [|f fs]] eqn:Hp; cbn in *.
  - destruct Hl as [-> Hcur]. eexists. split; [done|]. by apply (inv_outside os l _ t c); rewrite ?Hp.
  - destruct Hl as [-> Hcur]. eexists. split; [done|]. apply (inv_outside os l _ t c); rewrite ?Hp; try done;
      by destruct (quit_ (state c)).
  - destruct Hl as [-> Hcur]. specialize (Hans eq_refl). destruct (cb_loop _ _ Hi) as [Hok _].
    destruct (poll_returns os (poller_ l) _ Hok Hans) as (os' & p' & active & -> & _).
    eexists. split; [done|]. by eapply poll_move.
  - destruct Hl as [[done Hd] Hal]. destruct chs as [|ch chs].
    + eexists. split; [done|]. rewrite app_nil_r in Hd.
      constructor; cbn; [by apply (cb_flags os l)|by rewrite Hadv|by rewrite Hadv].
    + assert (ch ∈ activeChannels_ l) as Hin.
      { rewrite Hd. apply elem_of_app. right. apply elem_of_cons. by left. }
      destruct (handle_channel_ok ch t os l Hi Hf Hin Hal) as ([[os' l'] ks] & -> & [Hi' _ Ha' Hf' Hal']).
      eexists. split; [done|]. cbn in *. constructor; cbn; [done..|]. rewrite Ha'. split; [|done].
      exists (done ++ [ch]). by rewrite <-app_assoc.
  - destruct (call_effect_ok k os l Hi) as (os' & l' & -> & Hi' & Hk). eexists. split; [done|].
    by apply (inv_kept os l _ _ _ _ c); rewrite ?Hp.
  - destruct Hl as [-> Hcur]. eexists. split; [done|]. by apply (inv_outside os l _ t c); rewrite ?Hp.
  - destruct Hl as [-> Hcur]. eexists. split; [done|]. by apply (inv_outside os l _ t c); rewrite ?Hp.
  - destruct (cb_act f os l Hi) as (os' & l' & -> & Hi' & Hk). eexists. split; [done|].
    by apply (inv_kept os l _ _ _ _ c); rewrite ?Hp.
  - destruct (call_effect_ok k os l Hi) as (os' & l' & -> & Hi' & Hk). eexists. split; [done|].
    by apply (inv_kept os l _ _ _ _ c); rewrite ?Hp.
  - destruct (call_effect_ok k os l Hi) as (os' & l' & -> & Hi' & Hk). eexists. split; [done|].
    by apply (inv_kept os l _ _ _ _ c); rewrite ?Hp.
Qed.

Lemma outside_events c c' : outside c c' → in_events (pc c') = in_events (pc c).
Proof. by destruct 1. Qed.

Lemma run_step_inv r r' : run_inv r → run_step r r' → run_inv r'.
Proof.
  intros Hinv Hst. destruct Hst as [r answer now r' Hans E|os l t chs c c' Hout].
  - destruct (move_inv r answer now Hinv Hans) as (r2 & E2 & ?). congruence.
  - pose proof Hinv as [Hi Hf Hl]. cbn in *. rewrite <-(outside_events c c' Hout) in Hf, Hl. by constructor.
Qed.

(** A loop before [loop()] is called. *)
Definition run_start os l : running := mkRunning os l 0 [] loop_init.

Lemma start_run_inv os l : cb_inv os l → Reactor.eventHandling_ l = false →
  currentActiveChannel_ l = None → run_inv (run_start os l).
Proof. by constructor. Qed.

(** C11: the whole loop.  With callbacks and functors that respect the loop (they
    keep the channels that wait to be handled alive), nothing [loop()] does
    fails, whatever the kernel reports and other threads do: every active channel
    is alive when its turn comes, in the order [poll] reported them, and is the
    loop's current one.  Every execution is one of [EventLoop]'s machine, so
    functors run once and in order, and a loop that polls with work pending has
    its eventfd readable or about to be. *)
Theorem loop_runs os l r :
  cb_inv os l → Reactor.eventHandling_ l = false → currentActiveChannel_ l = None →
  rtc run_step (run_start os l) r →
  rtc (loop_step body) loop_init (conf r) ∧
  (Reactor.eventHandling_ (reactor_ r) = true ↔ ∃ todo, pc (conf r) = Events todo) ∧
  (Reactor.eventHandling_ (reactor_ r) = true →
     (∃ done, activeChannels_ (reactor_ r) = done ++ left r) ∧
     ∀ ch, ch ∈ activeChannels_ (reactor_ r) → is_Some (objects r !! ch)) ∧
  (started (conf r) ++ waiting (pc (conf r)) ++ pendingFunctors_ (state (conf r)) = queued (conf r)) ∧
  (bodies_ok body → pc (conf r) = Poll →
     (pendingFunctors_ (state (conf r)) ≠ [] ∧ early (conf r) = false) ∨ quit_ (state (conf r)) = true →
     0 < wakeupFd_ (state (conf r)) ∨ (0 < owed (conf r))%nat) ∧
  ∀ answer now, (pc (conf r) = Poll → polled (objects r, poller_ (reactor_ r)) answer) →
    ∃ r', move answer now r = Ok r' ∧ run_step r r'.
Proof.
  intros Hcb Hf Hcur Hrtc.
  assert (run_inv r) as Hinv.
  { apply (rtc_invariant run_step run_inv run_step_inv _ _ Hrtc). by apply start_run_inv. }
  assert (rtc (loop_step body) loop_init (conf r)) as Href.
  { change loop_init with (conf (run_start os l)). clear Hinv.
    induction Hrtc as [|r1 r2 r3 H12 _ IH]; [apply rtc_refl|].
    eapply rtc_l; [by apply run_step_refines|exact IH]. }
  split_and!; [done|..].
  - rewrite (ri_flag _ Hinv). destruct (pc (conf r)); cbn; split; (eauto || by intros [? [=]] || done).
  - rewrite (ri_flag _ Hinv). pose proof (ri_left _ Hinv) as Hl. by destruct (in_events _).
  - by apply (rtc_invariant (loop_step body) fifo (fifo_step body) loop_init).
  - intros Hb Hp Hwhy. destruct (loop_inv body _ Hb Href) as [_ (_ & _ & Hpend & Hquit)].
    rewrite Hp in Hpend. destruct Hwhy as [[? ?]|?]; [by apply Hpend|by apply Hquit].
  - intros answer now Hans. destruct (move_inv r answer now Hinv Hans) as (r' & E & _).
    exists r'. split; [done|]. by eapply RunMove.
Qed.
End LoopRun.

(** *** A loop woken up by another thread

    The only channel is the wakeup channel; its callback reads the eventfd. *)
Definition wakeup_call (cb : unit) (now : Z) (st : objs unit * Loop (EPollPoller (gmap Z epoll_event)))
    : outcome (objs unit * Loop (EPollPoller (gmap Z epoll_event)) * list (loop_call Z)) :=
  Ok (st, [CHandleRead]).
Definition no_act (f : Z) (st : objs unit * Loop (EPollPoller (gmap Z epoll_event))) := Ok st.
Definition unlocked (st : objs unit * Loop (EPollPoller (gmap Z epoll_event))) (p : Ptr) : bool := false.

#[export] Instance wakeup_callbacks : Callbacks 42 wakeup_call no_act.
Proof.
  refine {| cb_inv := loop_ok 42 |}.
  - done.
  - done.
  - intros cb now os l ch h Hi _ _ _. by exists os, l, [CHandleRead].
  - intros f os l Hi. by exists os, l.
Defined.

Definition bare_objs : objs unit := {[ 100 := setReadCallback tt (Channel_ctor 1 7) ]}.
Definition bare_loop : Loop (EPollPoller (gmap Z epoll_event)) :=
  mkLoop 1 42 false [] None (EPollPoller_ctor (∅ : gmap Z epoll_event)).
Definition ready_world := from_ok (bare_objs, bare_loop) (Reactor.enableReading 42 100 (bare_objs, bare_loop)).

Lemma ready_world_ok : loop_ok 42 ready_world.1 ready_world.2.
Proof.
  assert (loop_ok (CB := unit) 42 bare_objs bare_loop) as Hok.
  { split; [|done]. apply epoll_inv_ctor; [done|]. unfold bare_objs. by intros ch c [<- <-]%lookup_singleton_Some. }
  destruct (enable_fresh_spec 42 bare_objs bare_loop 100 (setReadCallback tt (Channel_ctor 1 7)) Hok)
    as (os' & p' & c' & E & Hok' & _); [by split_and!|done|done|].
  unfold ready_world. by rewrite E.
Qed.

Abbreviation wake_running := (running (CB := unit) (P := EPollPoller (gmap Z epoll_event)) (F := Z)).

(** epoll_wait: the eventfd is readable. *)
Definition eventfd_ready (n : Z) : Z + list epoll_event := if 0 <? n then inr [(POLLIN, 100)] else inl 4.
Definition eventfd_answer (r : wake_running) : outcome (objs unit * EPollPoller (gmap Z epoll_event) * list Ptr) :=
  (λ r, (r.1.1.1, r.1.1.2, r.1.2)) <$> EPollPoller.poll eventfd_ready 5 [] (objects r, poller_ (reactor_ r)).
Definition go (r : wake_running) : wake_running :=
  from_ok r (move wakeup_call no_act (λ _, []) unlocked (eventfd_answer r) 5 r).
Definition other (f : config (F := Z) → config (F := Z)) (r : wake_running) : wake_running :=
  mkRunning (objects r) (reactor_ r) (pollReturnTime_ r) (left r) (f (conf r)).

Definition entered : wake_running :=
  other (λ c, mkConfig (set_quit false (set_looping true (state c))) Test 0 [] [] false)
    (run_start ready_world.1 ready_world.2).
Definition polling : wake_running := go entered.
Definition pushed : wake_running :=
  other (λ c, mkConfig (push_pending 5 (state c)) (pc c) 1 (queued c ++ [5]) (started c) (early c)) polling.
Definition signalled : wake_running :=
  other (λ c, mkConfig (wakeup (state c)) (pc c) 0 (queued c) (started c) (early c)) pushed.
Definition woken : wake_running := go signalled.

Abbreviation wake_step := (run_step wakeup_call no_act (λ _ : Z, []) unlocked).

Lemma eventfd_polled (r : wake_running) :
  events_size (poller_ (reactor_ r)) = 16 →
  interest (epollfd_ (poller_ (reactor_ r))) !! 7 = Some (3, 100) →
  polled (objects r, poller_ (reactor_ r)) (eventfd_answer r).
Proof.
  intros Hsz Hi. exists eventfd_ready, 5. split_and!; [|cbn; rewrite Hsz; lia|cbn; rewrite Hsz; lia|done].
  intros n evs. unfold eventfd_ready. destruct (Z.ltb_spec 0 n); [|done]. intros [= <-]. split.
  - unfold sz. cbn. lia.
  - intros ev ->%list_elem_of_singleton. by exists 7, 3.
Qed.

Lemma go_step (r : wake_running) : is_ok (move wakeup_call no_act (λ _, []) unlocked (eventfd_answer r) 5 r) = true →
  (pc (conf r) = Poll → polled (objects r, poller_ (reactor_ r)) (eventfd_answer r)) → wake_step r (go r).
Proof.
  intros E Hp. apply (RunMove _ _ _ _ _ (eventfd_answer r) 5); [done|]. unfold go.
  by destruct (move _ _ _ _ _ _ _).
Qed.

Lemma woken_reachable : rtc wake_step (run_start ready_world.1 ready_world.2) woken.
Proof.
  eapply rtc_l; [apply (RunOutside _ _ _ _ _ _ _ _ loop_init (conf entered)); by constructor|].
  eapply rtc_l; [apply (go_step entered); [by vm_compute|done]|].
  eapply rtc_l; [apply (RunOutside _ _ _ _ _ _ _ _ (conf polling) (conf pushed)); by apply OutPush|].
  eapply rtc_l; [apply (RunOutside _ _ _ _ _ _ _ _ (conf pushed) (conf signalled)); by apply OutWake|].
  eapply rtc_l; [apply (go_step signalled); [by vm_compute|]|apply rtc_refl].
  intros _. apply eventfd_polled; by vm_compute.
Qed.

Lemma ready_cb : cb_inv 42 wakeup_call no_act ready_world.1 ready_world.2.
Proof. exact ready_world_ok. Qed.

Lemma loop_runs_witness :
  pc (conf woken) = Events [] ∧ left woken = [100] ∧ wakeupFd_ (state (conf woken)) = 1 ∧
  rtc (loop_step (λ _ : Z, [])) loop_init (conf woken) ∧
  ∃ r', move wakeup_call no_act (λ _, []) unlocked (eventfd_answer woken) 5 woken = Ok r'.
Proof.
  destruct (loop_runs 42 wakeup_call no_act (λ _ : Z, []) unlocked ready_world.1 ready_world.2 woken
    ready_cb eq_refl eq_refl woken_reachable) as (Href & _ & _ & _ & _ & Hmove).
  split; [by vm_compute|]. split; [by vm_compute|]. split; [by vm_compute|]. split; [exact Href|].
  destruct (Hmove (eventfd_answer woken) 5) as (r' & E & _); [|by exists r'].
  intros Hp. vm_compute in Hp. discriminate Hp.
Defined.
