(* ===== verification/LoopProgress.v ===== *)
(** [EventLoop::loop] gets things done ([src/net/eventloop.cpp]).

    LoopRun.v shows that the loop never fails; here it is shown not to stand
    still.  An execution is an infinite sequence of states; [fair] says what the
    scheduler and the kernel do for it, and no more: a poll is only known to
    return when the eventfd is readable, so that the loop's progress is owed to
    its own wakeups. *)
From stdpp Require Import list gmap relations.
From S2P Require Import Prelude Channel Poller EPollPoller Reactor EventLoop LoopRun.

Section LoopProgress.
Context {CB P F : Type} `{!Poller CB P, !Polls CB P}.
Abbreviation reactor := (objs CB * Loop P)%type.
Context (call : CB → Z → reactor → outcome (reactor * list (loop_call F))).
Context (act : F → reactor → outcome reactor).
Context (body : F → list (loop_call F)).
Context (lock : reactor → Ptr → bool).

Abbreviation running := (running (CB := CB) (P := P) (F := F)).
Implicit Types r : running.

(** The loop's thread makes a step of [loop()]; anything else does. *)
Definition moves r r' : Prop :=
  ∃ answer now, (pc (conf r) = Poll → polled (objects r, poller_ (reactor_ r)) answer) ∧
    move call act body lock answer now r = Ok r'.
Definition set_conf c r : running := mkRunning (objects r) (reactor_ r) (pollReturnTime_ r) (left r) c.
Definition others r r' : Prop := ∃ c, outside (conf r) c ∧ r' = set_conf c r.

(** A thread that has queued a functor, or called [quit], writes to the eventfd. *)
Definition wakes r r' : Prop :=
  ∃ o, owed (conf r) = S o ∧
    r' = set_conf (mkConfig (wakeup (state (conf r))) (pc (conf r)) o (queued (conf r)) (started (conf r))
           (early (conf r))) r.

Definition execution (tr : nat → running) : Prop := ∀ n, moves (tr n) (tr (S n)) ∨ others (tr n) (tr (S n)).

(** The loop's thread is scheduled again and again while it does not block, it is
    not left in [poll] when the eventfd is readable, and threads that owe a wakeup
    deliver it. *)
Record fair (tr : nat → running) : Prop := {
  fair_run n : pc (conf (tr n)) ≠ Poll → pc (conf (tr n)) ≠ Idle →
    ∃ m, (n ≤ m)%nat ∧ moves (tr m) (tr (S m));
  fair_poll n : pc (conf (tr n)) = Poll → 0 < wakeupFd_ (state (conf (tr n))) →
    ∃ m, (n ≤ m)%nat ∧ moves (tr m) (tr (S m));
  fair_wake n : (0 < owed (conf (tr n)))%nat → ∃ m, (n ≤ m)%nat ∧ wakes (tr m) (tr (S m))
}.

(** No functor makes the loop call it again at once for ever. *)
Definition bodies_end : Prop := well_founded (λ g f, CRunInLoop g ∈ body f).

(** *** Single steps *)
Lemma others_same r r' : others r r' → pc (conf r) ≠ Idle →
  pc (conf r') = pc (conf r) ∧ left r' = left r ∧ started (conf r') = started (conf r) ∧
  early (conf r') = early (conf r) ∧ queued (conf r) `prefix_of` queued (conf r') ∧
  (quit_ (state (conf r)) = true → quit_ (state (conf r')) = true).
Proof.
  intros (c & Hout & ->) Hp. cbn. destruct Hout; cbn in *; try done; split_and!; try done.
  - by apply prefix_app_r.
  - unfold wakeup. by destruct (_ <=? _).
Qed.

Lemma execution_step r r' : moves r r' ∨ others r r' → run_step call act body lock r r'.
Proof.
  intros [(answer & now & Hp & E)|(c & Hout & ->)]; [by eapply RunMove|].
  destruct r. by apply RunOutside.
Qed.

Lemma move_advances r r' : moves r r' → pc (conf r) ≠ Idle → (∀ todo, pc (conf r) ≠ Events todo) →
  conf r' = advance body (conf r) ∧ (pc (conf r) ≠ Poll → left r' = left r).
Proof.
  intros (answer & now & _ & E) Hne He. destruct r as [os l t chs c]. cbn in *.
  destruct (pc c) as [| | |todo| |[|k todo] [|f fs]] eqn:Hp; try done; [..|by destruct (He todo)| | | | |].
  all: inv_ok; subst; repeat match goal with x : _ * _ |- _ => destruct x end; inv_ok; subst; done.
Qed.

(** In the middle of the events. *)
Lemma move_events r r' todo : moves r r' → pc (conf r) = Events todo →
  match todo with
  | k :: todo => pc (conf r') = Events (exec body k todo (state (conf r))).1 ∧ left r' = left r
  | [] => match left r with
          | _ :: chs => ∃ ks, pc (conf r') = Events ks ∧ left r' = chs
          | [] => pc (conf r') = Swap
          end
  end.
Proof.
  intros (answer & now & _ & E) Hp. destruct r as [os l t chs c]. cbn in *. rewrite Hp in E.
  destruct todo as [|k todo]; [destruct chs as [|ch chs]|]; inv_ok; subst;
    repeat match goal with x : _ * _ |- _ => destruct x end; inv_ok; subst; cbn.
  - by rewrite advance_pc, Hp.
  - by eexists.
  - rewrite advance_pc, Hp. cbn. by destruct (exec body k todo (state c)).
Qed.

Lemma move_conf r r' : moves r r' →
  conf r' = advance body (conf r) ∨ pc (conf r) = Events [] ∧ ∃ ks, conf r' = with_calls ks (conf r).
Proof.
  intros (answer & now & _ & E). destruct r as [os l t chs c]. cbn in *.
  destruct (pc c) as [| | |[|k todo]| |[|k todo] [|f fs]]; [..|destruct chs| | | | | |]; inv_ok; subst;
    repeat match goal with x : _ * _ |- _ => destruct x end; inv_ok; subst; cbn; eauto.
Qed.

Lemma exec_todo k todo (s : EventLoop F) :
  (exec body k todo s).1 = match k with CRunInLoop f => body f ++ todo | _ => todo end.
Proof. by destruct k. Qed.

Definition in_poll (p : place (F := F)) : bool := match p with Poll => true | _ => false end.
Definition in_idle (p : place (F := F)) : bool := match p with Idle => true | _ => false end.

Section Execution.
Context (tr : nat → running) (Hexec : execution tr) (Hfair : fair tr).
Hypothesis Hwake : ∀ n, wake_inv (conf (tr n)).
Hypothesis Hfifo : ∀ n, fifo (conf (tr n)).
Hypothesis Hends : bodies_end.

Abbreviation at_ n := (pc (conf (tr n))).

(** The loop's next move, from a state that others leave alone. *)
Lemma first_move n d : at_ n ≠ Idle → moves (tr (n + d)) (tr (S (n + d))) →
  ∃ m, (n ≤ m ≤ n + d)%nat ∧ at_ m = at_ n ∧ left (tr m) = left (tr n) ∧ moves (tr m) (tr (S m)).
Proof.
  revert n. induction d as [|d IH]; intros n Hne Hm.
  { rewrite Nat.add_0_r in Hm. by exists n; split_and!; try lia. }
  destruct (Hexec n) as [Hmv|Ho]; [exists n; split_and!; (done || lia)|].
  destruct (others_same _ _ Ho Hne) as (Ep & El & _).
  destruct (IH (S n)) as (m & Hle & Ea & Ell & Hmv); [by rewrite Ep|by rewrite <-plus_n_Sm in Hm|].
  exists m. split_and!; [lia|lia|congruence|congruence|done].
Qed.

Lemma next_move n : at_ n ≠ Idle → at_ n ≠ Poll →
  ∃ m, (n ≤ m)%nat ∧ at_ m = at_ n ∧ left (tr m) = left (tr n) ∧ moves (tr m) (tr (S m)).
Proof.
  intros Hi Hp. destruct (fair_run _ Hfair n Hp Hi) as (k & Hk & Hm).
  destruct (first_move n (k - n) Hi) as (m & ? & ? & ? & ?); [by replace (n + (k - n))%nat with k by lia|].
  exists m. split_and!; (done || lia).
Qed.

Lemma still_or_moved d n : at_ n ≠ Idle →
  (∃ m, (n ≤ m)%nat ∧ moves (tr m) (tr (S m))) ∨ at_ (n + d) = at_ n.
Proof.
  revert n. induction d as [|d IH]; intros n Hp; [right; by rewrite Nat.add_0_r|].
  destruct (Hexec n) as [Hmv|Ho]; [left; exists n; split; [lia|done]|].
  destruct (others_same _ _ Ho Hp) as (Ep & _).
  destruct (IH (S n)) as [(m & ? & ?)|Hq]; [congruence|left; exists m; split; [lia|done]|].
  right. rewrite <-plus_n_Sm. exact (eq_trans Hq Ep).
Qed.

(** A poll returns if the loop is signalled. *)
Lemma next_poll n : at_ n = Poll → signals (state (conf (tr n))) (owed (conf (tr n))) →
  ∃ m, (n ≤ m)%nat ∧ at_ m = Poll ∧ moves (tr m) (tr (S m)).
Proof.
  intros Hp Hs. assert (∃ k, (n ≤ k)%nat ∧ moves (tr k) (tr (S k))) as (k & Hk & Hm).
  { destruct Hs as [Hs|Hs]; [by apply (fair_poll _ Hfair)|].
    destruct (fair_wake _ Hfair n Hs) as (k & Hk & o & _ & Ew).
    destruct (still_or_moved (k - n) n) as [?|Hq]; [by rewrite Hp|done|].
    replace (n + (k - n))%nat with k in Hq by lia.
    destruct (fair_poll _ Hfair (S k)) as (m & Hle & Hm); [by rewrite Ew; cbn; congruence| |exists m; split; [lia|done]].
    rewrite Ew. cbn. apply wakeup_positive, Hwake. }
  destruct (first_move n (k - n)) as (m & ? & Ea & _ & ?); [by rewrite Hp|by replace (n + (k - n))%nat with k by lia|].
  exists m. split_and!; [lia|congruence|done].
Qed.

(** *** From place to place *)

(** A list of calls is worked off, the ones they make at once included. *)
Section Calls.
Context (place_of : list (loop_call F) → place (F := F)).
Hypothesis Hblock : ∀ ks, place_of ks ≠ Idle ∧ place_of ks ≠ Poll.
Hypothesis Hcall : ∀ r r' k todo, moves r r' → pc (conf r) = place_of (k :: todo) →
  pc (conf r') = place_of (exec body k todo (state (conf r))).1 ∧ left r' = left r.

Definition ends (ks : list (loop_call F)) : Prop :=
  ∀ rest n, at_ n = place_of (ks ++ rest) →
    ∃ m, (n ≤ m)%nat ∧ at_ m = place_of rest ∧ left (tr m) = left (tr n).

Lemma ends_list ks : (∀ f, CRunInLoop f ∈ ks → ends (body f)) → ends ks.
Proof.
  induction ks as [|k ks IH]; intros Hb rest n Hp; [by exists n|].
  destruct (next_move n) as (m & Hm & Ep & El & Hmv); [rewrite Hp; apply Hblock..|].
  destruct (Hcall _ _ k (ks ++ rest) Hmv) as [Ep' El']; [by rewrite Ep, Hp|]. rewrite exec_todo in Ep'.
  assert (∃ m1, (S m ≤ m1)%nat ∧ at_ m1 = place_of (ks ++ rest) ∧ left (tr m1) = left (tr (S m)))
    as (m1 & Hm1 & Ep1 & El1).
  { destruct k as [|f|f|]; [by exists (S m)..| |by exists (S m)].
    apply (Hb f); [apply elem_of_cons; by left|done]. }
  destruct (IH (λ f Hf, Hb f (proj2 (elem_of_cons _ _ _) (or_intror Hf))) rest m1 Ep1) as (m2 & Hm2 & Ep2 & El2).
  exists m2. split_and!; [lia|done|congruence].
Qed.

Lemma calls_end ks : ends ks.
Proof. apply ends_list. intros f _. induction (Hends f) as [f _ IH]. by apply ends_list. Qed.
End Calls.

Lemma run_calls_end fs ks : ends (λ todo, Run todo fs) ks.
Proof.
  apply calls_end; [done|]. intros r r' k todo Hm Hp.
  destruct (move_advances _ _ Hm) as [E El]; [by rewrite Hp..|]. split; [|apply El; by rewrite Hp].
  rewrite E, advance_pc, Hp. cbn. by destruct (exec body k todo (state (conf r))).
Qed.

Lemma event_calls_end ks : ends Events ks.
Proof. apply calls_end; [done|]. intros r r' k todo Hm Hp. exact (move_events _ _ _ Hm Hp). Qed.

(** A move outside the events, as [loop_next] has it. *)
Lemma moved n p : at_ n = p → p ≠ Idle → (∀ ks, p ≠ Events ks) → moves (tr n) (tr (S n)) →
  at_ (S n) = (loop_next body [] p (state (conf (tr n)))).1.
Proof.
  intros Hp Hi He Hmv. destruct (move_advances _ _ Hmv) as [E _]; [by rewrite Hp..|].
  by rewrite E, advance_pc, Hp.
Qed.

Lemma run_to_test ks fs n : at_ n = Run ks fs → ∃ m, (n ≤ m)%nat ∧ at_ m = Test.
Proof.
  revert ks n. induction fs as [|f fs IH]; intros ks n Hp; rewrite <-(app_nil_r ks) in Hp;
    destruct (run_calls_end _ ks [] n Hp) as (m & Hm & Ep & _);
    (destruct (next_move m) as (m1 & Hm1 & Ep1 & _ & Hmv); [by rewrite Ep..|]); rewrite Ep in Ep1;
    pose proof (moved m1 _ Ep1 ltac:(done) ltac:(done) Hmv) as En; cbn in En.
  - exists (S m1). split; [lia|done].
  - destruct (IH _ _ En) as (m2 & ? & ?). exists m2. split; [lia|done].
Qed.

Lemma events_to_swap ks n : at_ n = Events ks → ∃ m, (n ≤ m)%nat ∧ at_ m = Swap.
Proof.
  remember (left (tr n)) as chs eqn:El. revert ks n El.
  induction chs as [|ch chs IH]; intros ks n El Hp; rewrite <-(app_nil_r ks) in Hp;
    destruct (event_calls_end ks [] n Hp) as (m & Hm & Ep & Em);
    (destruct (next_move m) as (m1 & Hm1 & Ep1 & Em1 & Hmv); [by rewrite Ep..|]); rewrite Ep in Ep1;
    pose proof (move_events _ _ _ Hmv Ep1) as H; cbn in H; rewrite Em1, Em, <-El in H.
  - exists (S m1). split; [lia|done].
  - destruct H as (ks' & Ep' & El'). destruct (IH ks' (S m1)) as (m2 & ? & ?); [done..|].
    exists m2. split; [lia|done].
Qed.

Lemma swap_to_run n : at_ n = Swap → ∃ m, (n ≤ m)%nat ∧ at_ m = Swap ∧ ∃ fs, at_ (S m) = Run [] fs.
Proof.
  intros Hp. destruct (next_move n) as (m & Hm & Ep & _ & Hmv); [by rewrite Hp..|]. rewrite Hp in Ep.
  exists m. split_and!; [done|done|]. eexists. by apply (moved m Swap).
Qed.

Lemma poll_to_swap n : at_ n = Poll → signals (state (conf (tr n))) (owed (conf (tr n))) →
  ∃ m, (n ≤ m)%nat ∧ at_ m = Swap.
Proof.
  intros Hp Hs. destruct (next_poll n Hp Hs) as (m & Hm & Ep & Hmv).
  destruct (events_to_swap [] (S m)) as (m1 & ? & ?); [by apply (moved m Poll)|].
  exists m1. split; [lia|done].
Qed.

Lemma swap_to_test n : at_ n = Swap → ∃ m, (n ≤ m)%nat ∧ at_ m = Test.
Proof.
  intros Hp. destruct (swap_to_run n Hp) as (m & Hm & _ & fs & Er).
  destruct (run_to_test _ _ _ Er) as (m1 & ? & ?). exists m1. split; [lia|done].
Qed.

(** Wherever the loop is, it is about to test [quit_], or it polls. *)
Lemma to_test n : at_ n ≠ Idle → at_ n ≠ Poll → ∃ m, (n ≤ m)%nat ∧ at_ m = Test.
Proof.
  intros Hi Hp. destruct (at_ n) as [| | |ks| |ks fs] eqn:E; try done; [by exists n|..].
  - destruct (events_to_swap _ _ E) as (m & ? & E1). destruct (swap_to_test _ E1) as (m1 & ? & ?).
    exists m1. split; [lia|done].
  - by apply swap_to_test.
  - by eapply run_to_test.
Qed.

(** *** What stays *)
Lemma grows_step n : started (conf (tr n)) `prefix_of` started (conf (tr (S n))) ∧
  queued (conf (tr n)) `prefix_of` queued (conf (tr (S n))).
Proof.
  pose proof (run_step_refines _ _ _ _ _ _ (execution_step _ _ (Hexec n))) as Hs.
  destruct Hs; cbn; split; done || by apply prefix_app_r.
Qed.

Lemma grows_to n m : (n ≤ m)%nat → started (conf (tr n)) `prefix_of` started (conf (tr m)) ∧
  queued (conf (tr n)) `prefix_of` queued (conf (tr m)).
Proof.
  induction 1 as [|m _ [IH1 IH2]]; [done|]. destruct (grows_step m). split; by etrans.
Qed.

Lemma exec_quit k todo (s : EventLoop F) : quit_ s = true → quit_ (exec body k todo s).2 = true.
Proof.
  intros H. destruct k; cbn; unfold quit, queueInLoop, wakeup; cbn; repeat case_match; done.
Qed.

Lemma quit_step n : at_ n ≠ Idle → quit_ (state (conf (tr n))) = true → quit_ (state (conf (tr (S n)))) = true.
Proof.
  intros Hi Hq. destruct (Hexec n) as [Hmv|Ho]; [|by apply (others_same _ _ Ho Hi)].
  destruct (move_conf _ _ Hmv) as [-> |(_ & ks & ->)]; [|done].
  unfold advance. destruct (at_ n) as [| | |[|k todo]| |[|k todo] [|f fs]] eqn:Hp; cbn; rewrite ?Hq; try done.
  all: pose proof (exec_quit k todo _ Hq); by destruct (exec body k todo _).
Qed.

(** From the swap on: the first [k] functors queued are started or in this round. *)
Definition counted (k : nat) (c : config (F := F)) : Prop :=
  match pc c with
  | Run _ fs => (k ≤ length (started c) + length fs)%nat
  | Swap => True
  | _ => (k ≤ length (started c))%nat
  end.

Lemma counted_advance k c : fifo c → (k ≤ length (queued c))%nat → pc c ≠ Idle →
  counted k c → counted k (advance body c).
Proof.
  unfold counted, fifo. intros Hf Hk Hi Hc. pose proof (advance_pc body c) as Hp. rewrite Hp. clear Hp.
  assert (started (advance body c) = started c ++ started_now (pc c)) as ->.
  { unfold advance. by destruct (loop_next _ _ _ _). }
  destruct (pc c) as [| | |[|x todo]| |[|x todo] [|f fs]]; cbn in *; rewrite ?app_nil_r; try done.
  - by destruct (quit_ (state c)).
  - by destruct (exec body x todo (state c)).
  - rewrite <-Hf in Hk. by rewrite length_app in Hk.
  - by rewrite Nat.add_0_r in Hc.
  - rewrite length_app. cbn. lia.
  - by destruct (exec body x todo (state c)).
  - by destruct (exec body x todo (state c)).
Qed.

Lemma counted_step k n : (k ≤ length (queued (conf (tr n))))%nat → at_ n ≠ Idle →
  counted k (conf (tr n)) → counted k (conf (tr (S n))).
Proof.
  intros Hk Hi Hc. destruct (Hexec n) as [Hmv|Ho].
  - destruct (move_conf _ _ Hmv) as [-> |(Ep & ks & ->)]; [by apply counted_advance; try apply Hfifo|].
    unfold counted in *. cbn. by rewrite Ep in Hc.
  - destruct (others_same _ _ Ho Hi) as (Ep & _ & Es & _). unfold counted in *. by rewrite Ep, Es.
Qed.

(** *** Functors *)
Section Running.
Context (n : nat) (Hin : at_ n ≠ Idle) (Hearly : early (conf (tr n)) = false).
Hypothesis Hnoquit : ∀ m, (n ≤ m)%nat → quit_ (state (conf (tr m))) = false.

Lemma stays_in m : (n ≤ m)%nat → at_ m ≠ Idle ∧ early (conf (tr m)) = false.
Proof.
  induction 1 as [|m Hle [IHi IHe]]; [done|]. destruct (Hexec m) as [Hmv|Ho].
  - destruct (move_conf _ _ Hmv) as [E|(Ep & ks & E)]; rewrite E; [|done]. split.
    + rewrite advance_pc. destruct (at_ m) as [| | |[|x todo]| |[|x todo] [|f fs]]; cbn; try done.
      * by rewrite Hnoquit.
      * by destruct (exec body x todo _).
      * by destruct (exec body x todo _).
      * by destruct (exec body x todo _).
    + unfold advance. destruct (loop_next _ _ _ _). cbn. by destruct (at_ m).
  - destruct (others_same _ _ Ho IHi) as (-> & _ & _ & -> & _). done.
Qed.

(** All that was queued has been started, or there is a swap to come. *)
Lemma to_swap : ∃ m, (n ≤ m)%nat ∧
  (at_ m = Swap ∨ (length (queued (conf (tr n))) ≤ length (started (conf (tr m))))%nat).
Proof.
  assert (∃ p, (n ≤ p)%nat ∧ at_ p = Poll) as (p & Hp & Ep).
  { destruct (decide (in_poll (at_ n))) as [Hd|Hd]; [exists n; by destruct (at_ n)|].
    destruct (to_test n Hin) as (m & Hm & Et); [by intros E; rewrite E in Hd|].
    destruct (next_move m) as (m1 & Hm1 & E1 & _ & Hmv); [by rewrite Et..|]. rewrite Et in E1.
    exists (S m1). split; [lia|]. rewrite (moved m1 Test) by done. cbn. by rewrite Hnoquit by lia. }
  destruct (decide (pendingFunctors_ (state (conf (tr p))) = [])) as [Hnil|Hne].
  - exists p. split; [done|right]. pose proof (Hfifo p) as Hf. unfold fifo in Hf.
    rewrite Ep, Hnil in Hf. cbn in Hf. rewrite app_nil_r in Hf. rewrite Hf.
    apply prefix_length, grows_to; lia.
  - destruct (poll_to_swap p Ep) as (m & Hm & E); [|exists m; split; [lia|by left]].
    destruct (Hwake p) as (_ & _ & Hs & _). rewrite Ep in Hs. apply Hs; [done|]. by apply stays_in.
Qed.

Lemma functors_started : ∃ m, (n ≤ m)%nat ∧ queued (conf (tr n)) `prefix_of` started (conf (tr m)).
Proof.
  set (k := length (queued (conf (tr n)))).
  assert (∃ m, (n ≤ m)%nat ∧ (k ≤ length (started (conf (tr m))))%nat) as (m & Hm & Hk).
  { destruct to_swap as (m & Hm & [Es|Hd]); [|by exists m]. destruct (swap_to_test m Es) as (m1 & Hm1 & Et).
    assert (∀ j, (m ≤ j)%nat → counted k (conf (tr j))) as Hc.
    { induction 1 as [|j Hj IH]; [by unfold counted; rewrite Es|]. apply counted_step; [|apply stays_in; lia|done].
      apply prefix_length, grows_to; lia. }
    exists m1. split; [lia|]. specialize (Hc m1 Hm1). unfold counted in Hc. by rewrite Et in Hc. }
  exists m. split; [done|]. destruct (grows_to n m Hm) as [_ Hq].
  assert (started (conf (tr m)) `prefix_of` queued (conf (tr m))) as Hs by (rewrite <-Hfifo; by apply prefix_app_r).
  destruct (prefix_weak_total _ _ _ Hq Hs) as [|Hp]; [done|]. by rewrite (prefix_length_eq _ _ Hp).
Qed.
End Running.

(** *** Quitting *)
Lemma quit_stays n m : (n ≤ m)%nat → at_ n ≠ Idle → quit_ (state (conf (tr n))) = true →
  (∃ j, (n ≤ j)%nat ∧ at_ j = Idle) ∨ at_ m ≠ Idle ∧ quit_ (state (conf (tr m))) = true.
Proof.
  induction 1 as [|m Hle IH]; intros Hi Hq; [by right|]. destruct (IH Hi Hq) as [?|[Hmi Hmq]]; [by left|].
  destruct (decide (in_idle (at_ (S m)))) as [Hd|Hd].
  - left. exists (S m). split; [lia|]. by destruct (at_ (S m)).
  - right. split; [by intros E; rewrite E in Hd|by apply quit_step].
Qed.

Lemma quit_returns n : at_ n ≠ Idle → quit_ (state (conf (tr n))) = true → ∃ m, (n ≤ m)%nat ∧ at_ m = Idle.
Proof.
  intros Hi Hq. assert (∃ m, (n ≤ m)%nat ∧ at_ m = Test) as (m & Hm & Et).
  { destruct (decide (in_poll (at_ n))) as [Hd|Hd].
    - assert (at_ n = Poll) as Ep by by destruct (at_ n).
      destruct (poll_to_swap n Ep) as (m & Hm & Es); [by apply Hwake|].
      destruct (swap_to_test m Es) as (m1 & ? & ?). exists m1. split; [lia|done].
    - apply to_test; [done|]. by intros E; rewrite E in Hd. }
  destruct (next_move m) as (m1 & Hm1 & E1 & _ & Hmv); [by rewrite Et..|]. rewrite Et in E1.
  destruct (quit_stays n m1) as [?|[_ Hq1]]; [lia|done|done|done|].
  exists (S m1). split; [lia|]. rewrite (moved m1 Test) by done. cbn. by rewrite Hq1.
Qed.
End Execution.

(** ** Properties *)

(** C12: the loop makes progress.  In every execution in which its thread is
    scheduled, readable eventfds end polls and threads deliver the wakeups they
    owe ([fair]: a poll need not return by its timeout), a loop that is running
    starts, after a while, every functor queued so far, in order, unless [quit] is
    called (or its own thread queued one before [loop()]); and once [quit] was
    called, by whichever thread, [loop()] returns. *)
Theorem loop_progresses tr os l :
  bodies_ok body → bodies_end → tr 0%nat = run_start os l → execution tr → fair tr →
  ∀ n, pc (conf (tr n)) ≠ Idle →
  (early (conf (tr n)) = false → (∀ m, (n ≤ m)%nat → quit_ (state (conf (tr m))) = false) →
     ∃ m, (n ≤ m)%nat ∧ queued (conf (tr n)) `prefix_of` started (conf (tr m))) ∧
  (quit_ (state (conf (tr n))) = true → ∃ m, (n ≤ m)%nat ∧ pc (conf (tr m)) = Idle).
Proof.
  intros Hb Hends H0 Hexec Hfair n Hn.
  assert (∀ n, rtc (loop_step body) loop_init (conf (tr n))) as Hreach.
  { induction n0 as [|j IH]; [by rewrite H0|]. eapply rtc_r; [exact IH|].
    eapply run_step_refines, execution_step, Hexec. }
  assert (∀ n, wake_inv (conf (tr n))) as Hwake by (intros j; apply (loop_inv body _ Hb (Hreach j))).
  assert (∀ n, fifo (conf (tr n))) as Hfifo.
  { intros j. by apply (rtc_invariant (loop_step body) fifo (fifo_step body) loop_init). }
  split.
  - intros He Hq. by apply functors_started.
  - by apply quit_returns.
Qed.
End LoopProgress.

(** *** The loop of LoopRun.v, woken up once and then idle

    epoll_wait is interrupted whenever it is called. *)
Definition idle_answer (r : wake_running) : outcome (objs unit * EPollPoller (gmap Z epoll_event) * list Ptr) :=
  Ok (objects r, poller_ (reactor_ r), []).
Definition idle_go (r : wake_running) : wake_running :=
  from_ok r (move wakeup_call no_act (λ _, []) unlocked (idle_answer r) 5 r).
Fixpoint idling (n : nat) : wake_running :=
  match n with O => signalled | S n' => idle_go (idling n') end.
Definition waking (n : nat) : wake_running :=
  match n with
  | 0 => run_start ready_world.1 ready_world.2 | 1 => entered | 2 => polling | 3 => pushed
  | S (S (S (S n'))) => idling n'
  end%nat.

Record idle_inv (r : wake_running) : Prop := {
  ii_poller : events_size (poller_ (reactor_ r)) = 16;
  ii_left : left r = [];
  ii_owed : owed (conf r) = 0%nat;
  ii_quit : quit_ (state (conf r)) = false;
  ii_pc : match pc (conf r) with Idle | Events (_ :: _) | Run (_ :: _) _ => False | _ => True end
}.

Lemma idle_polled (r : wake_running) : events_size (poller_ (reactor_ r)) = 16 →
  polled (objects r, poller_ (reactor_ r)) (idle_answer r).
Proof.
  intros Hsz. exists (λ _, inl 4), 5. split_and!; [done|cbn; rewrite Hsz; lia|cbn; rewrite Hsz; lia|].
  done.
Qed.

Abbreviation wake_moves := (moves wakeup_call no_act (λ _ : Z, []) unlocked).
Abbreviation wake_others := (others (CB := unit) (P := EPollPoller (gmap Z epoll_event)) (F := Z)).

Lemma idle_go_moves r : idle_inv r → wake_moves r (idle_go r) ∧ idle_inv (idle_go r).
Proof.
  intros [Hsz Hl Ho Hq Hp].
  assert (∃ r', move wakeup_call no_act (λ _, []) unlocked (idle_answer r) 5 r = Ok r' ∧ idle_inv r')
    as (r' & E & Hinv).
  { destruct r as [os l t chs c]. destruct l as [sf th ev act cur p]. cbn in *. subst chs.
    destruct (pc c) as [| | |[|k todo]| |[|k todo] [|f fs]] eqn:Ec; try done; eexists; (split; [reflexivity|]);
      unfold advance; rewrite Ec; cbn; rewrite ?Hq; by constructor. }
  unfold idle_go. rewrite E. split; [|done]. exists (idle_answer r), 5. split; [|done].
  intros _. by apply idle_polled.
Qed.

Lemma idling_inv n : idle_inv (idling n).
Proof. induction n as [|n IH]; [by constructor; vm_compute|by apply idle_go_moves]. Qed.

Lemma waking_execution : execution wakeup_call no_act (λ _, []) unlocked waking.
Proof.
  intros [|[|[|[|n]]]].
  - right. exists (conf entered). split; [by constructor|done].
  - left. exists (eventfd_answer entered), 5. split; [done|].
    assert (is_ok (move wakeup_call no_act (λ _, []) unlocked (eventfd_answer entered) 5 entered) = true) as E
      by by vm_compute.
    change (waking 2) with (go entered). unfold go. by destruct (move _ _ _ _ _ _ _).
  - right. exists (conf pushed). split; [by apply OutPush|done].
  - right. exists (conf signalled). split; [by apply OutWake|done].
  - left. apply idle_go_moves, idling_inv.
Qed.

Lemma waking_moves n : ∃ m, (n ≤ m)%nat ∧ wake_moves (waking m) (waking (S m)).
Proof. exists (4 + n)%nat. split; [lia|]. apply idle_go_moves, idling_inv. Qed.

Lemma waking_fair : fair wakeup_call no_act (λ _, []) unlocked waking.
Proof.
  split.
  - intros n _ _. apply waking_moves.
  - intros n _ _. apply waking_moves.
  - assert (∀ n, owed (conf (waking n)) = 0%nat → (0 < owed (conf (waking n)))%nat → False) as Hno by lia.
    intros [|[|[|[|n]]]] Ho; [by destruct (Hno 0%nat eq_refl Ho)|by destruct (Hno 1%nat eq_refl Ho)|
      destruct (Hno 2%nat ltac:(vm_compute; reflexivity) Ho)| |].
    + exists 3%nat. split; [lia|]. by exists 0%nat.
    + by destruct (Hno (4 + n)%nat (ii_owed _ (idling_inv n)) Ho).
Qed.

Lemma loop_progresses_witness :
  queued (conf (waking 3)) = [5] ∧ started (conf (waking 3)) = [] ∧
  ∃ m, (3 ≤ m)%nat ∧ [5] `prefix_of` started (conf (waking m)).
Proof.
  split; [by vm_compute|]. split; [by vm_compute|].
  apply (loop_progresses wakeup_call no_act (λ _, []) unlocked waking ready_world.1 ready_world.2).
  - intros f. apply not_elem_of_nil.
  - intros f. constructor. by intros g ?%not_elem_of_nil.
  - reflexivity.
  - exact waking_execution.
  - exact waking_fair.
  - by vm_compute.
  - by vm_compute.
  - intros m Hm. destruct m as [|[|[|[|m]]]]; [lia..|by vm_compute|]. apply (ii_quit _ (idling_inv m)).
Defined.
