(* ===== verification/ConnectorLoop.v ===== *)
(** The connector on its loop ([src/net/connector.cpp]).

    Connector.v keeps the connector's channel inside the connector and lets every
    call to the loop succeed.  Here the connector holds the address of a [Channel]
    object, its calls go through [Reactor] to any poller, and its callbacks run
    inside [Channel::handleEvent].  [connector_runs_on_loop] shows that this is the
    connector of Connector.v: every assertion of the channel, the loop and the
    poller holds, also when the socket that was handed out already has another
    channel while the old one waits to be deleted. *)
From stdpp Require Import list gmap.
From S2P Require Import Prelude Channel Poller EPollPoller Reactor Sockets Connector.

Section ConnectorLoop.
(** The loop's callbacks: the connector's two, and those of the other channels. *)
Context {B P : Type} `{!Poller (conn_handler + B) P}.
Local Abbreviation CB := (conn_handler + B)%type.
Local Abbreviation World := (objs CB * Loop P * Connector Ptr)%type.
Context (tid : Z) (lock : World → Ptr → bool) (other : B → Z → World → outcome World).
Implicit Types (os : objs CB) (l : Loop P) (w : World).

(** ** Operations *)

Definition on_connector (f : Connector Ptr → Connector Ptr) w : World := (w.1, f w.2).
Definition connector_do (f : Connector Ptr → outcome (Connector Ptr)) w : outcome World :=
  c ← f w.2; Ok (w.1, c).

(** [p]: the address [new Channel] returns. *)
Definition connecting (p : Ptr) (sockfd : Z) w : outcome World :=
  let w := on_connector (setState kConnecting) w in
  assert! bool_decide (channel_ w.2 = None);;
  let ch := setErrorCallback (inl OnError) (setWriteCallback (inl OnWrite)
              (Channel_ctor (self w.1.2) sockfd)) in
  st ← enableWriting tid p (<[p := ch]> w.1.1, w.1.2);
  Ok (st, set_channel (Some p) w.2).

Definition removeAndResetChannel w : outcome (Z * World) :=
  match channel_ w.2 with
  | None => Fail UB
  | Some p =>
    st ← disableAll tid p w.1;
    st ← channel_remove tid p st;
    ch ← obj st.1 p;
    Ok (fd_ ch, (st, queueInLoop FResetChannel w.2))
  end.

Definition resetChannel w : outcome World :=
  match channel_ w.2 with
  | None => Ok w
  | Some p => st ← Channel_dtor tid p w.1; Ok (st, set_channel None w.2)
  end.

Definition connect (p : Ptr) (sockfd savedErrno : Z) w : outcome World :=
  let w := on_connector (λ c, set_sockets ({[ sockfd ]} ∪ sockets c) c) w in
  match classify savedErrno with
  | GoConnecting => connecting p sockfd w
  | GoRetry => connector_do (retry sockfd) w
  | GoClose => connector_do (close sockfd) w
  end.

Definition startInLoop (p : Ptr) (sockfd savedErrno : Z) w : outcome World :=
  _ ← assertInLoopThread (isInLoopThread tid w.1.2);
  assert! bool_decide (state_ w.2 = kDisconnected);;
  if connect_ w.2 then connect p sockfd savedErrno w else Ok w.

Definition start (p : Ptr) (sockfd savedErrno : Z) w : outcome World :=
  let w := on_connector (set_connect true) w in
  if isInLoopThread tid w.1.2 then startInLoop p sockfd savedErrno w
  else Ok (on_connector (queueInLoop FStartInLoop) w).

Definition stopInLoop w : outcome World :=
  _ ← assertInLoopThread (isInLoopThread tid w.1.2);
  if bool_decide (state_ w.2 = kConnecting) then
    '(sockfd, w) ← removeAndResetChannel (on_connector (setState kDisconnected) w);
    connector_do (retry sockfd) w
  else Ok w.

Definition restart (p : Ptr) (sockfd savedErrno : Z) w : outcome World :=
  _ ← assertInLoopThread (isInLoopThread tid w.1.2);
  startInLoop p sockfd savedErrno
    (on_connector (λ c, set_connect true (set_delay kInitRetryDelayMs [] (setState kDisconnected c))) w).

Definition handleWrite (err : Z) (self : bool) w : outcome World :=
  if bool_decide (state_ w.2 = kConnecting) then
    '(sockfd, w) ← removeAndResetChannel w;
    if negb (err =? 0) then connector_do (retry sockfd) w
    else if self then connector_do (retry sockfd) w
    else
      let w := on_connector (setState kConnected) w in
      if connect_ w.2 then Ok (on_connector (deliver sockfd) w) else connector_do (close sockfd) w
  else assert! bool_decide (state_ w.2 = kDisconnected);; Ok w.

Definition handleError w : outcome World :=
  if bool_decide (state_ w.2 = kConnecting) then
    '(sockfd, w) ← removeAndResetChannel w; connector_do (retry sockfd) w
  else Ok w.

(** What a channel's callback does; [err] and [self] answer the connector's. *)
Definition call (err : Z) (self : bool) (cb : CB) (now : Z) w : outcome World :=
  match cb with
  | inl OnWrite => handleWrite err self w
  | inl OnError => handleError w
  | inr b => other b now w
  end.

(** The loop's step for one active channel: the body of [handle_active]. *)
Definition dispatch (err : Z) (self : bool) (now : Z) (p : Ptr) w : outcome World :=
  handleEvent (call err self) lock p now (on_loop (set_current (Some p)) w).

(** The operations of Connector.v; [p] is the address of a channel they may
    create, [now] when the poll returned. *)
Definition run_op (p : Ptr) (now : Z) (o : connector_op) w : outcome World :=
  match o with
  | CStart sockfd errno => start p sockfd errno w
  | CStop => Ok (on_connector stop w)
  | CRestart sockfd errno => restart p sockfd errno w
  | CEvent _ err self =>
    match channel_ w.2 with Some q => dispatch err self now q w | None => Fail UB end
  | CFunctor sockfd errno =>
    match pending w.2 with
    | [] => Ok w
    | f :: q =>
      let w := on_connector (set_pending q) w in
      match f with
      | FStartInLoop => startInLoop p sockfd errno w
      | FStopInLoop => stopInLoop w
      | FResetChannel => resetChannel w
      end
    end
  | CTimer sockfd errno =>
    startInLoop p sockfd errno (on_connector (λ c, set_timers (pred (timers c)) c) w)
  end.

(** ** The connector of Connector.v

    Its channel as an object: the same, but for what the poller and the dispatch
    store; [b] says whether the dispatch is running. *)
Record looks (b : bool) (loop : Ptr) (h : Channel conn_handler) (ch : Channel CB) : Prop := {
  looks_loop : loop_ ch = loop;
  looks_fd : fd_ ch = fd_ h;
  looks_events : events_ ch = events_ h;
  looks_handling : Channel.eventHandling_ ch = b;
  looks_added : addedToLoop_ ch = addedToLoop_ h;
  looks_tied : tied_ ch = false;
  looks_read : readCallback_ ch = None;
  looks_write : writeCallback_ ch = Some (inl OnWrite);
  looks_close : closeCallback_ ch = None;
  looks_error : errorCallback_ ch = Some (inl OnError)
}.

Definition unknown l (p : Ptr) : Prop := ∀ fd, channels (poller_ l) !! fd ≠ Some p.

Inductive slot (b : bool) os l : option Ptr → option (Channel conn_handler) → Prop :=
  | slot_none : slot b os l None None
  | slot_some p h ch :
      os !! p = Some ch → looks b (self l) h ch →
      (if addedToLoop_ h then registered os l p ch else unknown l p) →
      slot b os l (Some p) (Some h).

Record refines (b : bool) w (c : Connector (Channel conn_handler)) : Prop := {
  refines_loop : loop_ok tid w.1.1 w.1.2;
  refines_slot : slot b w.1.1 w.1.2 (channel_ w.2) (channel_ c);
  refines_rest : set_channel (channel_ c) w.2 = c
}.

(** The other channels stay registered; [x] is the connector's. *)
Definition neighbours (x : option Ptr) (st st' : objs CB * Loop P) : Prop :=
  self st'.2 = self st.2 ∧
  ∀ q ch, x ≠ Some q → registered st.1 st.2 q ch →
    ∃ ch', registered st'.1 st'.2 q ch' ∧ same_but_index ch ch'.

Lemma neighbours_refl x st : neighbours x st st.
Proof. split; [done|]. intros q ch _ H. by exists ch. Qed.

Lemma neighbours_trans x st1 st2 st3 : neighbours x st1 st2 → neighbours x st2 st3 → neighbours x st1 st3.
Proof.
  intros [E1 H1] [E2 H2]. split; [congruence|]. intros q ch Hq Hr.
  destruct (H1 q ch Hq Hr) as (ch1 & Hr1 & Hs1). destruct (H2 q ch1 Hq Hr1) as (ch2 & Hr2 & Hs2).
  exists ch2. split; [done|]. unfold same_but_index in *. congruence.
Qed.

(** One object and one descriptor change. *)
Lemma neighbours_of x os l os' p' fd :
  (∀ q, x ≠ Some q → is_Some (os !! q) → option_Forall2 same_but_index (os !! q) (os' !! q)) →
  (∀ fd', fd' ≠ fd → channels p' !! fd' = channels (poller_ l) !! fd' ∧
                     watch p' !! fd' = watch (poller_ l) !! fd') →
  (∀ q, x ≠ Some q → channels (poller_ l) !! fd ≠ Some q) →
  neighbours x (os, l) (os', set_poller p' l).
Proof.
  intros Ho Hfd Hown. split; [done|]. intros q ch Hq Hr. pose proof Hr as (Hc & _ & _ & _ & Hch & _).
  cbn in *. assert (fd_ ch ≠ fd) as Hne by (intros <-; by apply (Hown q)).
  destruct (Hfd _ Hne) as [E1 E2]. apply (registered_kept os l q ch os' p'); [done| |done|done].
  apply Ho; [done|by exists ch].
Qed.

(** [m] does what [mc] does, when that succeeds. *)
Definition follows (b : bool) w (m : outcome World) (mc : outcome (Connector (Channel conn_handler))) : Prop :=
  ∀ c', mc = Ok c' → returns m (λ w', refines b w' c' ∧ neighbours (channel_ w.2) w.1 w'.1).

(** What does not look at the channel. *)
Definition blind (f : ∀ C, Connector C → outcome (Connector C)) : Prop :=
  ∀ C D (x : option D) (c : Connector C),
    f D (set_channel x c) = (c' ← f C c; Ok (set_channel x c')) ∧
    ∀ c', f C c = Ok c' → channel_ c' = channel_ c.

Lemma blind_close fd : blind (λ C, close fd).
Proof.
  intros C D x c. unfold close. cbn [sockets set_channel]. destruct (decide _); [|done].
  split; [done|]. by intros ? [= <-].
Qed.

Lemma blind_retry fd : blind (λ C, retry fd).
Proof.
  intros C D x c. unfold retry. destruct (blind_close fd C D x c) as [-> Hk].
  destruct (close fd c) as [c1|]; [|done]. specialize (Hk c1 eq_refl).
  cbn [mbind outcome_bind connect_ setState set_channel]. destruct (connect_ c1); (split; [done|]);
    by intros ? [= <-].
Qed.

(** What the kernel reported for the connector's channel. *)
Definition reported w : option Z := p ← channel_ w.2; revents_ <$> w.1.1 !! p.

(** Nor does [m] create or delete the channel. *)
Definition keeping (b : bool) w (m : outcome World) (mc : outcome (Connector (Channel conn_handler))) : Prop :=
  ∀ c', mc = Ok c' → returns m (λ w', refines b w' c' ∧ neighbours (channel_ w.2) w.1 w'.1 ∧
    channel_ w'.2 = channel_ w.2 ∧ reported w' = reported w).

Lemma keeping_follows b w m mc : keeping b w m mc → follows b w m mc.
Proof. intros H c' E. eapply returns_mono; [by apply H|]. by intros w' (? & ? & _). Qed.

Lemma keeping_after b w w1 m mc :
  neighbours (channel_ w.2) w.1 w1.1 → channel_ w1.2 = channel_ w.2 → reported w1 = reported w →
  keeping b w1 m mc → keeping b w m mc.
Proof.
  intros Hn Hc Hr H c' E. eapply returns_mono; [by apply H|]. intros w' (? & Hn' & Hc' & Hr').
  rewrite Hc in Hn', Hc'. split_and!; [done| |done|congruence]. by eapply neighbours_trans.
Qed.

Lemma keeping_same b w w' c' : refines b w' c' → w'.1 = w.1 → channel_ w'.2 = channel_ w.2 →
  keeping b w (Ok w') (Ok c').
Proof.
  intros H E1 E2 ? [= <-]. cbn. unfold reported. rewrite E1, E2. split_and!; [done| |done..].
  apply neighbours_refl.
Qed.

Lemma connector_do_keeping b w c (f : ∀ C, Connector C → outcome (Connector C)) :
  refines b w c → blind f → keeping b w (connector_do (f Ptr) w) (f _ c).
Proof.
  intros [Hl Hs Hr] Hf c' E. destruct w as [st cc]. cbn in *.
  destruct (Hf Ptr _ (channel_ c) cc) as [E' Hk]. rewrite Hr, E in E'.
  unfold connector_do. cbn. destruct (f Ptr cc) as [cc'|]; [|done]. injection E' as ->.
  specialize (Hk cc' eq_refl). cbn [mbind outcome_bind].
  eapply (keeping_same b (st, cc)); [|done..]. constructor; cbn; [done| |done]. by rewrite Hk.
Qed.

(** Fields may be assigned. *)
Lemma refines_on b w c f g : refines b w c → channel_ (f w.2) = channel_ w.2 →
  (∀ x, x = channel_ c → set_channel x w.2 = c → set_channel x (f w.2) = g c ∧ channel_ (g c) = x) →
  refines b (on_connector f w) (g c).
Proof.
  intros [Hl Hs Hr] Hf Hg. destruct (Hg _ eq_refl Hr) as [E1 E2].
  constructor; cbn; [done| |]; rewrite E2; [by rewrite Hf|done].
Qed.

(** ** The three functions that touch the channel *)
Definition available (p : Ptr) (fd : Z) (st : objs CB * Loop P) : Prop :=
  fd_ok fd ∧ channels (poller_ st.2) !! fd = None ∧ st.1 !! p = None.

Lemma enableWriting_put os l p ch :
  os !! p = Some ch →
  enableWriting tid p (os, l) =
    (st ← put p (set_events (flag_events EnableWriting (events_ ch))) (os, l); channel_update tid p st).
Proof. exact (run_flag_put tid EnableWriting p ch os l). Qed.

Lemma disableAll_put os l p ch :
  os !! p = Some ch →
  disableAll tid p (os, l) = (st ← put p (set_events 0) (os, l); channel_update tid p st).
Proof. exact (run_flag_put tid DisableAll p ch os l). Qed.

Lemma connecting_follows p fd w c :
  refines false w c → available p fd w.1 →
  follows false w (connecting p fd w) (Connector.connecting (self w.1.2) fd c).
Proof.
  destruct w as [[os l] cc]. intros [Hl Hs Hr] (Hfd & Hn & Hp) c' E. cbn [fst snd] in *.
  unfold Connector.connecting in E. inv_ok.
  apply bool_decide_eq_true in H as Hc. cbn in Hc. rewrite Hc in Hs, Hr. inversion Hs as [Hcc|].
  unfold connecting. cbn [snd fst on_connector channel_ setState]. rewrite <-Hcc, bool_decide_true by done.
  cbn [assert_ mbind outcome_bind].
  set (ch := setErrorCallback _ _). set (os1 := <[p := ch]> os).
  assert (os1 !! p = Some ch) as Hch by apply lookup_insert_eq.
  assert (loop_ok tid os1 l) as Hl1 by by apply new_object_ok.
  assert (fresh os1 l p ch) as Hfr by by split_and!.
  destruct (update_spec tid os1 l p ch (flag_events EnableWriting (events_ ch)) Hl1 (or_introl Hfr))
    as (os2 & p2 & ch2 & E2 & Hl2 & Hr2 & Hs2 & Hch2 & _ & Ho2 & Hw2); [done|].
  rewrite (enableWriting_put os1 l p ch Hch), E2. cbn. split.
  - rewrite <-E, <-Hr. constructor; cbn; [done| |done]. apply (slot_some _ _ _ p _ ch2); [by destruct Hr2|..|done].
    unfold same_but_index in Hs2. destruct ch2. simplify_eq/=. by constructor.
  - apply (neighbours_of _ _ _ _ _ fd).
    + intros q _ [cq Hq]. assert (q ≠ p) as Hqp by congruence.
      rewrite Ho2 by done. unfold os1. rewrite lookup_insert_ne by done. rewrite Hq. by constructor.
    + intros fd' Hne. split; [|by apply Hw2]. rewrite Hch2. by rewrite lookup_insert_ne.
    + intros q _. congruence.
Qed.

(** [removeChannel]'s assertion, for the connector's channel. *)
Definition may_remove w : Prop := ∀ p, channel_ w.2 = Some p → removable w.1.2 p.

Lemma looks_same_index b loop h ch ch' : same_but_index ch ch' → looks b loop h ch → looks b loop h ch'.
Proof.
  unfold same_but_index. intros E []. destruct ch, ch'. simplify_eq/=. by constructor.
Qed.

Lemma looks_disabled b loop h ch :
  looks b loop h ch → looks b loop (set_addedToLoop true (clear_all h)) (set_addedToLoop true (set_events 0 ch)).
Proof. intros []. by constructor. Qed.

Lemma looks_removed b loop h ch :
  looks b loop h ch → looks b loop (set_addedToLoop false h) (set_addedToLoop false ch).
Proof. intros []. by constructor. Qed.

Lemma removeAndResetChannel_follows b w c h fd c' :
  refines b w c → channel_ c = Some h → watching h → may_remove w →
  Connector.removeAndResetChannel c = Ok (fd, c') →
  ∃ w', removeAndResetChannel w = Ok (fd, w') ∧ refines b w' c' ∧
    neighbours (channel_ w.2) w.1 w'.1 ∧ channel_ w'.2 = channel_ w.2 ∧ reported w' = reported w.
Proof.
  destruct w as [[os l] cc]. intros [Hl Hs Hr] Hc (Hh & Ha & He) Hrm E. cbn [fst snd] in *.
  unfold Connector.removeAndResetChannel in E. rewrite Hc in Hs, E, Hr.
  injection E as Efd Ec.
  inversion Hs as [|p h' ch Hch Hlk Hreg Hcc]; subst h'. rewrite Ha in Hreg.
  assert (fd_ ch = fd_ h) as Hfd by apply Hlk. assert (events_ ch ≠ 0) as Hne.
  { destruct Hlk as [_ _ -> _ _ _ _ _ _ _]. by rewrite He. }
  destruct (update_spec tid os l p ch 0 Hl (or_intror Hreg))
    as (os2 & p2 & ch2 & E2 & Hl2 & Hr2 & Hs2 & Hch2 & Hz2 & Ho2 & Hw2); [done|].
  destruct (same_but_index_more _ _ Hs2) as (Ee2 & Ef2 & El2 & _ & _). cbn in Ee2, Ef2.
  assert (watch p2 !! fd_ ch2 = None) as Hn2.
  { rewrite Ef2. apply Hz2; [done|]. destruct Hreg as (_ & _ & _ & _ & _ & _ & Hw & _).
    rewrite Hw by done. by eexists. }
  destruct (remove_spec tid os2 (set_poller p2 l) p ch2 Hl2 Hr2)
    as (os3 & p3 & ch3 & E3 & Hl3 & Hc3 & Hs3 & Ho3 & Hch3 & Hw3); [by apply (Hrm p)|done..|].
  assert (looks b (self l) (set_addedToLoop false (set_addedToLoop true (clear_all h))) ch3) as Hlk3.
  { eapply looks_same_index; [exact Hs3|]. apply looks_removed.
    eapply looks_same_index; [exact Hs2|]. by apply looks_disabled. }
  assert (channels p3 = delete (fd_ ch) (channels (poller_ l))) as Hall.
  { rewrite Hch3, Ef2. cbn. rewrite Hch2. apply delete_insert_eq. }
  exists (os3, set_poller p3 l, queueInLoop FResetChannel cc). unfold removeAndResetChannel.
  cbn [fst snd]. rewrite <-Hcc, (disableAll_put os l p ch Hch), E2. cbn [mbind outcome_bind]. rewrite E3.
  cbn [mbind outcome_bind fst snd]. unfold obj. rewrite Hc3. cbn [mbind outcome_bind]. split_and!.
  - do 2 f_equal. rewrite <-Efd. by apply Hlk3.
  - rewrite <-Ec, <-Hr. constructor; cbn; [done| |done]. rewrite <-Hcc.
    apply (slot_some _ _ _ p _ ch3); [done..|]. intros fd'. cbn. rewrite Hall.
    intros [Hne' Hp]%lookup_delete_Some. destruct Hl as [Hinv _].
    destruct (poller_registered _ _ _ _ Hinv Hp) as (ch' & Hch' & <-). congruence.
  - apply (neighbours_of _ _ _ _ _ (fd_ ch)).
    + intros q Hq _. rewrite <-(Ho2 q) by congruence. apply Ho3. congruence.
    + intros fd' Hfd'. cbn in Hw3. rewrite Hall, Hw3, lookup_delete_ne by done. split; [done|by apply Hw2].
    + intros q Hq. destruct Hreg as (_ & _ & _ & _ & -> & _). done.
  - by cbn.
  - unfold reported. cbn. rewrite <-Hcc. cbn. rewrite Hc3, Hch. cbn. f_equal.
    apply (f_equal revents_) in Hs2, Hs3. cbn in Hs2, Hs3. congruence.
Qed.

Lemma resetChannel_follows w c : refines false w c →
  (∀ h, channel_ c = Some h → removed h) → follows false w (resetChannel w) (Connector.resetChannel c).
Proof.
  destruct w as [[os l] cc]. intros [Hl Hs Hr] Hrem c' E. cbn [fst snd] in *.
  unfold Connector.resetChannel in E. unfold resetChannel. cbn [fst snd].
  destruct (channel_ c) as [h|] eqn:Hc.
  2:{ injection E as <-. inversion Hs as [Hcc|]. cbn. split; [|apply neighbours_refl].
      constructor; cbn; [done| |]; by rewrite ?Hc. }
  destruct (Hrem h eq_refl) as (Hh & Ha & _). rewrite Hh, Ha in E. injection E as <-.
  inversion Hs as [|p h' ch Hch Hlk Hun Hcc]; subst h'. rewrite Ha in Hun.
  destruct (dtor_spec tid os l p ch Hl Hch) as [E Hl']; [by apply Hlk|by apply Hlk| |done|].
  { destruct Hlk as [_ _ _ _ -> _ _ _ _ _]. done. }
  rewrite E. cbn. split.
  - rewrite <-Hr. by constructor; cbn; [done|constructor|].
  - split; [done|]. cbn. intros q ch' Hq (Hch' & Hreg). exists ch'. split; [|done].
    split; [|done]. by rewrite lookup_delete_ne by congruence.
Qed.

(** ** The operations *)

(** What follows [removeAndResetChannel]. *)
Lemma removed_then b w c h (k1 : Z * World → outcome World) k2 :
  refines b w c → channel_ c = Some h → watching h → may_remove w →
  (∀ fd w1 c1, refines b w1 c1 → keeping b w1 (k1 (fd, w1)) (k2 (fd, c1))) →
  keeping b w (removeAndResetChannel w ≫= k1) (Connector.removeAndResetChannel c ≫= k2).
Proof.
  intros Href Hc Hw Hrm Hk c' E. apply outcome_bind_ok in E as ([fd c1] & E1 & E2).
  destruct (removeAndResetChannel_follows b w c h fd c1 Href Hc Hw Hrm E1)
    as (w1 & -> & Href1 & Hn & Hch & Hre).
  cbn [mbind outcome_bind]. by apply (keeping_after b w w1 _ _ Hn Hch Hre (Hk fd w1 c1 Href1)).
Qed.

Lemma connecting_channel c : inv c → state_ c = kConnecting →
  ∃ h, channel_ c = Some h ∧ watching h.
Proof. intros [Hi _ _] Hst. rewrite Hst in Hi. destruct Hi as (_ & _ & h & ? & ? & _). by exists h. Qed.

(** The fields other than the channel are the same. *)
Lemma refines_fields b w c : refines b w c →
  state_ c = state_ w.2 ∧ connect_ c = connect_ w.2 ∧ pending c = pending w.2 ∧ timers c = timers w.2 ∧
  sockets c = sockets w.2.
Proof. by intros [_ _ <-]. Qed.

Lemma handleError_keeping b w c : refines b w c → inv c → may_remove w →
  keeping b w (handleError w) (Connector.handleError c).
Proof.
  intros Href Hinv Hrm. unfold handleError, Connector.handleError.
  destruct (refines_fields _ _ _ Href) as (<- & _). case_bool_decide as Hst; [|by apply keeping_same].
  destruct (connecting_channel c Hinv Hst) as (h & Hc & Hw).
  apply (removed_then b w c h); [done..|]. intros fd w1 c1 H.
  by apply (connector_do_keeping b w1 c1 (λ C, retry fd)), blind_retry.
Qed.

Lemma handleWrite_keeping b err self w c : refines b w c → inv c → (state_ c = kConnecting → may_remove w) →
  keeping b w (handleWrite err self w) (Connector.handleWrite err self c).
Proof.
  intros Href Hinv Hrm. unfold handleWrite, Connector.handleWrite.
  destruct (refines_fields _ _ _ Href) as (<- & _). case_bool_decide as Hst.
  2:{ destruct (bool_decide _); [by apply keeping_same|]. by intros ? [=]. }
  destruct (connecting_channel c Hinv Hst) as (h & Hc & Hw).
  apply (removed_then b w c h); [by auto..|]. intros fd w1 c1 H. cbn.
  assert (∀ f : ∀ C, Connector C → outcome (Connector C), blind f →
    keeping b w1 (connector_do (f Ptr) w1) (f _ c1)) as Hdo by by intros; apply connector_do_keeping.
  destruct (negb (err =? 0)); [apply (Hdo (λ C, retry fd)), blind_retry|].
  destruct self; [apply (Hdo (λ C, retry fd)), blind_retry|].
  destruct (refines_fields _ _ _ H) as (_ & <- & _).
  assert (refines b (on_connector (setState kConnected) w1) (setState kConnected c1)) as H1.
  { apply refines_on; [done..|]. by intros x -> <-. }
  destruct (connect_ c1).
  - apply keeping_same; [|done..].
    apply (refines_on _ _ _ (deliver fd) (deliver fd) H1); [done|]. by intros x -> <-.
  - apply (keeping_after b w1 (on_connector (setState kConnected) w1)); [apply neighbours_refl|done..|].
    by apply (connector_do_keeping b _ _ (λ C, close fd)), blind_close.
Qed.

Lemma stopInLoop_keeping w c : refines false w c → inv c → may_remove w →
  keeping false w (stopInLoop w) (Connector.stopInLoop true c).
Proof.
  intros Href Hinv Hrm. unfold stopInLoop, Connector.stopInLoop.
  rewrite (loop_ok_thread tid w.1.1) by apply Href. cbn [mbind outcome_bind assertInLoopThread].
  destruct (refines_fields _ _ _ Href) as (<- & _). case_bool_decide as Hst; [|by apply keeping_same].
  destruct (connecting_channel c Hinv Hst) as (h & Hc & Hw).
  apply (keeping_after false w (on_connector (setState kDisconnected) w)); [apply neighbours_refl|done..|].
  apply (removed_then false _ _ h); [|done..|].
  - apply refines_on; [done..|]. by intros x -> <-.
  - intros fd w1 c1 H. by apply (connector_do_keeping false w1 c1 (λ C, retry fd)), blind_retry.
Qed.

(** Assigning fields first changes nothing for the loop. *)
Lemma follows_on b w c f g m mc : refines b w c → channel_ (f w.2) = channel_ w.2 →
  (∀ x, x = channel_ c → set_channel x w.2 = c → set_channel x (f w.2) = g c ∧ channel_ (g c) = x) →
  (refines b (on_connector f w) (g c) → follows b (on_connector f w) m mc) → follows b w m mc.
Proof.
  intros Href Hf Hg H c' E. eapply returns_mono; [apply (H (refines_on b w c f g Href Hf Hg) c' E)|].
  cbn. intros w' [? ?]. by rewrite Hf in *.
Qed.

Local Tactic Notation "assign" uconstr(f) "as" ident(H) :=
  eapply (follows_on _ _ _ f f); [done|done|by intros x -> <-|intros H].

Lemma startInLoop_follows p fd errno w c : refines false w c → available p fd w.1 →
  follows false w (startInLoop p fd errno w) (Connector.startInLoop (self w.1.2) true fd errno c).
Proof.
  intros Href Hav. unfold startInLoop, Connector.startInLoop.
  rewrite (loop_ok_thread tid w.1.1) by apply Href. cbn [mbind outcome_bind assertInLoopThread].
  destruct (refines_fields _ _ _ Href) as (<- & <- & _).
  destruct (bool_decide _); [|by intros ? [=]]. cbn [assert_ mbind outcome_bind].
  destruct (connect_ c); [|by apply keeping_follows, keeping_same].
  unfold connect, Connector.connect.
  assign (λ c, set_sockets ({[fd]} ∪ sockets c) c) as H.
  destruct (classify errno).
  - by apply (connecting_follows p fd _ _ H).
  - by apply keeping_follows, (connector_do_keeping false _ _ (λ C, retry fd)), blind_retry.
  - by apply keeping_follows, (connector_do_keeping false _ _ (λ C, close fd)), blind_close.
Qed.

Lemma start_follows p fd errno w c : refines false w c → available p fd w.1 →
  follows false w (start p fd errno w) (Connector.start (self w.1.2) true fd errno c).
Proof.
  intros Href Hav. unfold start, Connector.start. cbn [fst on_connector].
  rewrite (loop_ok_thread tid w.1.1) by apply Href.
  assign (set_connect true) as H. by apply (startInLoop_follows p fd errno _ _ H).
Qed.

Lemma restart_follows p fd errno w c : refines false w c → available p fd w.1 →
  follows false w (restart p fd errno w) (Connector.restart (self w.1.2) true fd errno c).
Proof.
  intros Href Hav. unfold restart, Connector.restart.
  rewrite (loop_ok_thread tid w.1.1) by apply Href. cbn [mbind outcome_bind assertInLoopThread].
  assign (λ c, set_connect true (set_delay kInitRetryDelayMs [] (setState kDisconnected c))) as H.
  by apply (startInLoop_follows p fd errno _ _ H).
Qed.

(** *** An event *)
Lemma refines_channel b w c p : refines b w c → channel_ w.2 = Some p →
  ∃ h ch, w.1.1 !! p = Some ch ∧ looks b (self w.1.2) h ch ∧ channel_ c = Some h.
Proof. intros [_ Hs _] Hp. rewrite Hp in Hs. inversion Hs; subst. by eexists _, _. Qed.

(** [eventHandling_] is set around the callbacks. *)
Lemma handling_keeping b b' w c p : refines b w c → channel_ w.2 = Some p →
  returns (modify p (set_eventHandling b') w) (λ w', refines b' w' c ∧
    neighbours (channel_ w.2) w.1 w'.1 ∧ channel_ w'.2 = channel_ w.2 ∧ reported w' = reported w ∧
    w'.1.2 = w.1.2).
Proof.
  intros Href Hp. destruct (refines_channel b w c p Href Hp) as (h & ch & Hch & Hlk & Hc).
  destruct Href as [Hl Hs Hr]. destruct w as [[os l] cc]. cbn in *.
  rewrite (modify_ok p _ _ ch) by done. cbn. rewrite Hp, Hc in *. inversion Hs as [|? ? ch' Hch' _ Hreg]; subst.
  assert (ch' = ch) as -> by congruence. split_and!; [|split; [done|]|done| |done].
  - constructor; cbn; [by apply (loop_ok_frame1 tid os l p ch)| |done]. rewrite Hp. apply (slot_some _ _ _ p h (set_eventHandling b' ch)).
    + apply lookup_insert_eq.
    + destruct Hlk. by constructor.
    + destruct (addedToLoop_ h); [|done]. destruct Hreg as (_ & Hreg).
      split; [by rewrite lookup_insert_eq|done].
  - intros q chq Hq (Hcq & Hrq). exists chq. split; [|done]. split; [|done].
    cbn. by rewrite lookup_insert_ne by congruence.
  - unfold reported. cbn. rewrite Hp. cbn. by rewrite lookup_insert_eq, Hch.
Qed.

(** One of the [if]s. *)
Lemma dispatch1_channel err self p now test callback w ch :
  w.1.1 !! p = Some ch →
  dispatch1 (call err self) p now test callback w =
    if test (revents_ ch)
    then match callback ch with Some cb => call err self cb now w | None => Ok w end else Ok w.
Proof. intros Hch. unfold dispatch1, deref. cbn. by rewrite Hch. Qed.

Lemma dispatch1_callback b err self p now test (callback : Channel CB → option CB) w c r cb :
  refines b w c → channel_ w.2 = Some p → reported w = Some r →
  (∀ h ch, looks b (Reactor.self w.1.2) h ch → callback ch = cb) →
  dispatch1 (call err self) p now test callback w =
    if test r then match cb with Some cb => call err self cb now w | None => Ok w end else Ok w.
Proof.
  intros Href Hp Hr Hcb. destruct (refines_channel b w c p Href Hp) as (h & ch & Hch & Hlk & _).
  rewrite (dispatch1_channel _ _ _ _ _ _ _ ch) by done. rewrite (Hcb h ch Hlk).
  unfold reported in Hr. rewrite Hp in Hr. cbn in Hr. rewrite Hch in Hr. by injection Hr as ->.
Qed.

Lemma keeping_bind b w m m2 mc mc2 :
  keeping b w m mc →
  (∀ w1 c1, m = Ok w1 → mc = Ok c1 → refines b w1 c1 → channel_ w1.2 = channel_ w.2 →
     reported w1 = reported w → keeping b w1 (m2 w1) (mc2 c1)) →
  keeping b w (m ≫= m2) (mc ≫= mc2).
Proof.
  intros H Hk c' E. apply outcome_bind_ok in E as (c1 & E1 & E2).
  specialize (H c1 E1). destruct m as [w1|]; [|done]. destruct H as (Hr1 & Hn1 & Hc1 & Hre1). cbn.
  apply (keeping_after b w w1 _ (mc2 c1)); [done..| |done]. by apply Hk.
Qed.

(** The dispatch of the connector's channel, [eventHandling_] being set. *)
Lemma callbacks_keeping err self now p w c r :
  refines true w c → inv c → may_remove w → channel_ w.2 = Some p → reported w = Some r →
  keeping true w
    (w ← dispatch1 (call err self) p now close_test closeCallback_ w;
     w ← dispatch1 (call err self) p now error_test errorCallback_ w;
     w ← dispatch1 (call err self) p now read_test readCallback_ w;
     dispatch1 (call err self) p now write_test writeCallback_ w)
    (Connector.handle_event r err self c).
Proof.
  intros Href Hinv Hrm Hp Hr. unfold Connector.handle_event.
  rewrite (dispatch1_callback true _ _ _ _ _ closeCallback_ w c r None) by (done || by intros ?? []).
  replace (if close_test r then Ok w else Ok w) with (Ok w) by by destruct (close_test r).
  cbn [mbind outcome_bind].
  rewrite (dispatch1_callback true _ _ _ _ _ errorCallback_ w c r (Some (inl OnError)))
    by (done || by intros ?? []). cbn [call].
  apply (keeping_bind true w _
    (λ w, w ← dispatch1 (call err self) p now read_test readCallback_ w;
          dispatch1 (call err self) p now write_test writeCallback_ w)).
  { destruct (error_test r); [by apply handleError_keeping|by apply keeping_same]. }
  intros w1 c1 Ew E1 Href1 Hp1 Hr1. rewrite Hp in Hp1. rewrite Hr in Hr1.
  rewrite (dispatch1_callback true _ _ _ _ _ readCallback_ w1 c1 r None) by (done || by intros ?? []).
  replace (if read_test r then Ok w1 else Ok w1) with (Ok w1) by by destruct (read_test r).
  cbn [mbind outcome_bind].
  rewrite (dispatch1_callback true _ _ _ _ _ writeCallback_ w1 c1 r (Some (inl OnWrite)))
    by (done || by intros ?? []). cbn [call].
  destruct (write_test r); [|by apply keeping_same].
  destruct (error_test r).
  - destruct (handleError_inv c Hinv) as (c1' & E1' & Hinv1 & Hst). assert (c1' = c1) as -> by congruence.
    apply handleWrite_keeping; [done..|]. intros Hst1. unfold Connector.handleError in E1.
    case_bool_decide as Hst0; [by rewrite Hst in Hst1|]. congruence.
  - injection Ew as <-. injection E1 as <-. by apply handleWrite_keeping.
Qed.

Lemma bind_last {A} (m : outcome A) (f g h k : A → outcome A) :
  (a ← m; a ← f a; a ← g a; a ← h a; k a) = (a ← m; a ← f a; a ← g a; h a) ≫= k.
Proof.
  destruct m as [a|]; [|done]. cbn. destruct (f a) as [a1|]; [|done]. cbn.
  by destruct (g a1).
Qed.

Lemma dispatch_follows err self now p w c r :
  refines false w c → inv c → channel_ w.2 = Some p → reported w = Some r →
  follows false w (dispatch err self now p w) (Connector.handle_event r err self c).
Proof.
  intros Href Hinv Hp Hr c' E. unfold dispatch, handleEvent.
  set (w0 := on_loop (set_current (Some p)) w).
  assert (refines false w0 c) as Href0.
  { destruct Href as [Hl Hs Hre]. constructor; [exact Hl| |exact Hre]. cbn.
    destruct Hs; [constructor|]. by apply (slot_some _ _ _ p0 h ch). }
  destruct (refines_channel false w0 c p Href0 Hp) as (h & ch & Hch & Hlk & _).
  unfold deref. cbn [chan_lookup reactor_store]. rewrite Hch. cbn [mbind outcome_bind].
  rewrite (looks_tied _ _ _ _ Hlk). unfold handleEventWithGuard.
  apply (returns_bind _ _ _ _ (handling_keeping false true w0 c p Href0 Hp)).
  intros w1 (Href1 & Hn1 & Hc1 & Hr1 & Hl1).
  assert (may_remove w1) as Hrm.
  { intros q Hq _. left. rewrite Hl1. cbn. rewrite Hc1 in Hq. cbn in Hq. congruence. }
  rewrite bind_last. change (reported w0) with (reported w) in Hr1. rewrite Hr in Hr1.
  change (channel_ w0.2) with (channel_ w.2) in *. rewrite <-Hc1 in Hp.
  eapply returns_bind; [by apply (callbacks_keeping err self now p w1 c r)|].
  intros w2 (Href2 & Hn2 & Hc2 & _). rewrite <-Hc2 in Hp.
  eapply returns_mono; [by apply (handling_keeping true false w2 c' p)|].
  intros w3 (Href3 & Hn3 & _). split; [done|]. rewrite Hc2, Hc1 in Hn3. rewrite Hc1 in Hn2.
  eapply neighbours_trans; [exact Hn1|]. by eapply neighbours_trans.
Qed.

(** ** The connector among the loop's other users

    [Connector.op_ok], and what the loop and the kernel add to it: socket(2)
    returns a descriptor that no open channel has, functors run after the
    dispatch, and an event is one reported for a channel that watches something. *)
Definition op_ok (p : Ptr) (o : connector_op) w : Prop :=
  match o with
  | CStart fd _ => Connector.idle w.2 ∧ state_ w.2 = kDisconnected ∧ available p fd w.1
  | CStop => True
  | CRestart fd _ => Connector.idle w.2 ∧ available p fd w.1
  | CEvent revents _ _ => reported w = Some revents ∧
      ∃ q ch, channel_ w.2 = Some q ∧ w.1.1 !! q = Some ch ∧ events_ ch ≠ 0
  | CFunctor _ _ => Reactor.idle w.1.2
  | CTimer fd _ => (0 < timers w.2)%nat ∧ (FResetChannel ∉ pending w.2) ∧ available p fd w.1
  end.

(** Whatever else happens on the loop leaves the connector's channel alone, but for
    what a poll stores in it; its descriptor, once it is removed, may be used again. *)
Definition others_step w w' : Prop :=
  w'.2 = w.2 ∧ loop_ok tid w'.1.1 w'.1.2 ∧ self w'.1.2 = self w.1.2 ∧
  ∀ p, channel_ w.2 = Some p →
    option_Forall2 (λ ch ch', set_revents 0 (set_index 0 ch) = set_revents 0 (set_index 0 ch'))
      (w.1.1 !! p) (w'.1.1 !! p) ∧
    ∀ fd, (channels (poller_ w'.1.2) !! fd = Some p ↔ channels (poller_ w.1.2) !! fd = Some p) ∧
      (channels (poller_ w.1.2) !! fd = Some p →
       watch (poller_ w'.1.2) !! fd = watch (poller_ w.1.2) !! fd).

Inductive world_step w w' : Prop :=
  | step_own p now o : op_ok p o w → run_op p now o w = Ok w' → world_step w w'
  | step_others : others_step w w' → world_step w w'.

Lemma idle_refines b w c : refines b w c → Connector.idle w.2 → Connector.idle c.
Proof.
  intros Href (Hst & Ht & Hn). destruct (refines_fields _ _ _ Href) as (E1 & _ & _ & E2 & _).
  unfold Connector.idle. rewrite E1, E2. split_and!; [done..|]. destruct Href as [_ Hs _]. rewrite Hn in Hs.
  by inversion Hs.
Qed.

Lemma op_ok_refines p o w c : refines false w c → op_ok p o w → Connector.op_ok o c.
Proof.
  intros Href Hop. destruct (refines_fields _ _ _ Href) as (E1 & _ & E3 & E4 & _).
  pose proof (idle_refines _ _ _ Href) as Hid.
  destruct o as [fd errno| |fd errno|revents err self|fd errno|fd errno]; cbn in *; try done.
  - rewrite E1. by destruct Hop as (? & ? & _); auto.
  - destruct Hop; auto.
  - destruct Hop as (_ & q & ch & Hq & Hch & He).
    destruct (refines_channel _ _ _ _ Href Hq) as (h & ch' & Hch' & Hlk & Hc).
    exists h. split; [done|]. assert (ch' = ch) as -> by congruence. by rewrite <-(looks_events _ _ _ _ Hlk).
  - rewrite E3, E4. by destruct Hop as (? & ? & _).
Qed.

Lemma removed_channel c h : inv c → state_ c ≠ kConnecting → channel_ c = Some h → removed h.
Proof.
  intros [Hi _ _] Hst Hc. assert (cleaning c → removed h) as H.
  { intros [[? _]|(h' & _ & _ & Hc' & ? & _)]; [congruence|]. by assert (h' = h) as -> by congruence. }
  destruct (state_ c); [|done|]; apply H, Hi.
Qed.

Lemma run_follows p now o w c : refines false w c → inv c → op_ok p o w →
  follows false w (run_op p now o w) (Connector.run_op (self w.1.2) o c).
Proof.
  intros Href Hinv Hop. destruct (refines_fields _ _ _ Href) as (_ & _ & E3 & _).
  destruct o as [fd errno| |fd errno|revents err self|fd errno|fd errno]; cbn -[start restart].
  - apply start_follows; [done|]. by destruct Hop as (_ & _ & ?).
  - apply keeping_follows, keeping_same; [|done..]. apply refines_on; [done..|]. by intros x -> <-.
  - apply restart_follows; [done|]. by destruct Hop as (_ & ?).
  - destruct Hop as (Hr & q & ch & Hq & _). rewrite Hq. by apply dispatch_follows.
  - rewrite <-E3. destruct (pending c) as [|f q] eqn:Hp; [by apply keeping_follows, keeping_same|].
    assign (set_pending q) as H. destruct f.
    + destruct Hinv as [_ Hi _]. rewrite Hp in Hi. by apply not_elem_of_cons in Hi as [[] _].
    + apply keeping_follows, (stopInLoop_keeping _ _ H); [by eapply inv_popped|].
      intros q' _. by apply idle_removable.
    + apply (resetChannel_follows _ _ H). intros h Hc. apply (removed_channel c); [done| |done].
      intros Hst. destruct Hinv as [Hi _ _]. rewrite Hst, Hp in Hi. destruct Hi as (_ & Hi & _).
      by apply not_elem_of_cons in Hi as [[] _].
  - assign (λ c, set_timers (pred (timers c)) c) as H. apply (startInLoop_follows p fd errno _ _ H).
    by destruct Hop as (_ & _ & ?).
Qed.

Lemma others_refine w w' c : refines false w c → others_step w w' → refines false w' c.
Proof.
  destruct w as [[os l] cc], w' as [[os' l'] cc']. intros [Hl Hs Hr] (E & Hl' & Hse & Ho). cbn in *. subst cc'.
  constructor; cbn; [done| |done]. inversion Hs as [|p h ch Hch Hlk Hreg E1 E2]; [constructor|].
  destruct (Ho p (eq_sym E1)) as [Hob Hfd]. rewrite Hch in Hob.
  inversion Hob as [? ch' Hsame E3 Hch'|]. subst. apply (slot_some _ _ _ p h ch'); [done|..].
  - rewrite Hse. destruct ch, ch', Hlk. simplify_eq/=. by constructor.
  - destruct (addedToLoop_ h).
    + destruct Hreg as (_ & R1 & R2 & R3 & R4 & R5 & R6 & R7).
      assert (loop_ ch' = loop_ ch ∧ fd_ ch' = fd_ ch ∧ events_ ch' = events_ ch ∧
              addedToLoop_ ch' = addedToLoop_ ch) as (F1 & F2 & F3 & F4)
        by (clear -Hsame; destruct ch, ch'; by simplify_eq/=).
      destruct (Hfd (fd_ ch)) as [Hiff Hw]. rewrite <-Hw in R6, R7 by done.
      unfold registered. rewrite F1, F2, F3, F4, Hse. split_and!; try done. by apply Hiff.
    + intros fd Hp. by apply (Hreg fd), Hfd.
Qed.

(** A poll is such a step, whatever it reports. *)
Lemma poll_others `{!Polls CB P} os l c os' p' active : loop_ok tid os l →
  polled (os, poller_ l) (Ok (os', p', active)) →
  others_step (os, l, c) (os', set_active active (set_poller p' l), c).
Proof.
  intros [Hinv Ht] Hp. destruct (poll_returns os (poller_ l) _ Hinv Hp)
    as (? & ? & ? & [= <- <- <-] & Hinv' & Hch & Hw & _ & Hob).
  split_and!; [done|by split|done|]. intros p _. cbn. split.
  - destruct (Hob p) as [c1 c2 Hs|]; constructor. by apply (f_equal (set_index 0)) in Hs.
  - intros fd. rewrite Hch, Hw. by split.
Qed.

Lemma step_refines me w w' c :
  rtc (connector_step me) Connector_ctor c → self w.1.2 = me → refines false w c → world_step w w' →
  ∃ c', rtc (connector_step me) Connector_ctor c' ∧ self w'.1.2 = me ∧ refines false w' c'.
Proof.
  intros Hrtc Hl Href [p now o Hop E|Hot].
  - pose proof (connector_reachable me c Hrtc) as Hinv.
    pose proof (op_ok_refines p o w c Href Hop) as Hop'.
    destruct (connector_op_inv me o c Hinv Hop') as (c' & Ec & _).
    assert (follows false w (run_op p now o w) (Connector.run_op me o c)) as Hf
      by (rewrite <-Hl; by apply run_follows).
    specialize (Hf c' Ec). rewrite E in Hf. destruct Hf as [Href' [Hse _]].
    exists c'. split_and!; [|congruence|done]. eapply rtc_r; [done|]. by exists o.
  - exists c. split_and!; [done| |by eapply others_refine]. destruct Hot as (_ & _ & -> & _). done.
Qed.

Lemma steps_refine os l w : loop_ok tid os l → rtc world_step (os, l, Connector_ctor) w →
  ∃ c, rtc (connector_step (self l)) Connector_ctor c ∧ self w.1.2 = self l ∧ refines false w c.
Proof.
  intros Hl Hrtc. apply (rtc_invariant world_step (λ w, ∃ c, rtc (connector_step (self l)) Connector_ctor c ∧
    self w.1.2 = self l ∧ refines false w c)) in Hrtc; [done|..].
  - intros w1 w2 (c & Hc & Hs & Href) Hm. by apply (step_refines (self l) w1 w2 c).
  - exists Connector_ctor. split_and!; [done|done|]. by constructor; [|constructor|].
Qed.

(** ** Properties *)

(** C14: the connector's channel is safe on any poller, among any other channels.
    Every execution is one of the connector of Connector.v with its channel on the
    loop, so every operation returns: no assertion of [Channel], [EventLoop] or the
    poller fails, the other channels keep what they have, and the new descriptors
    may be those of channels that were removed but not yet deleted.  While a
    connection is attempted the kernel watches its socket for writability and
    nothing else; at any other time the poller does not know the connector. *)
Theorem connector_runs_on_loop os l w : loop_ok tid os l → rtc world_step (os, l, Connector_ctor) w →
  (∃ c, rtc (connector_step (self l)) Connector_ctor c ∧ set_channel (channel_ c) w.2 = c) ∧
  (∀ p now o, op_ok p o w → ∃ w', run_op p now o w = Ok w' ∧ loop_ok tid w'.1.1 w'.1.2 ∧
     neighbours (channel_ w.2) w.1 w'.1) ∧
  match state_ w.2 with
  | kConnecting => ∃ p ch, channel_ w.2 = Some p ∧ registered w.1.1 w.1.2 p ch ∧
      watch (poller_ w.1.2) !! fd_ ch = Some POLLOUT ∧ sockets w.2 = {[ fd_ ch ]}
  | _ => sockets w.2 = ∅ ∧ ∀ p, channel_ w.2 = Some p → unknown w.1.2 p
  end.
Proof.
  intros Hl Hrtc. destruct (steps_refine os l w Hl Hrtc) as (c & Hc & Hself & Href).
  pose proof (connector_reachable _ c Hc) as Hinv. split_and!.
  - exists c. split; [done|apply Href].
  - intros p now o Hop. destruct (connector_op_inv (self w.1.2) o c Hinv (op_ok_refines p o w c Href Hop))
      as (c' & Ec & _). pose proof (run_follows p now o w c Href Hinv Hop c' Ec) as Hs.
    apply returns_iff in Hs as (w' & E & Href' & Hn). exists w'. split; [done|]. split; [apply Href'|exact Hn].
  - destruct (refines_fields _ _ _ Href) as (<- & _ & _ & _ & <-).
    assert (state_ c ≠ kConnecting → sockets c = ∅ →
      sockets c = ∅ ∧ ∀ p, channel_ w.2 = Some p → unknown w.1.2 p) as Hun.
    { intros Hst Hso. split; [done|]. intros p Hp. destruct Href as [_ Hs _]. rewrite Hp in Hs.
      inversion Hs as [|? h ch _ _ Hreg E1 E2]. destruct (removed_channel c h Hinv Hst) as (_ & Ha & _); [done|].
      by rewrite Ha in Hreg. }
    pose proof Hinv as [Hi _ _]. destruct (state_ c) eqn:Hst; destruct Hi as (_ & Hi & Hi2); [by apply Hun| |by apply Hun].
    destruct Hi2 as (h & Hh & (_ & Ha & He) & Hso). destruct Href as [_ Hs _]. rewrite Hh in Hs.
    inversion Hs as [|p h' ch Hch Hlk Hreg E1 E2]. subst h'. rewrite Ha in Hreg. exists p, ch.
    rewrite (looks_fd _ _ _ _ Hlk). split_and!; [done..| |done].
    destruct Hreg as (_ & _ & _ & _ & _ & _ & Hw & _).
    rewrite (looks_events _ _ _ _ Hlk), (looks_fd _ _ _ _ Hlk), He in Hw. by apply Hw.
Qed.
End ConnectorLoop.

(** *** A connector on an epoll loop: connected, and its descriptor in use again
    before its channel is deleted *)
Abbreviation DemoWorld := (objs (conn_handler + unit) * Loop (EPollPoller (gmap Z epoll_event)) * Connector Ptr)%type.

Definition demo_loop : Loop (EPollPoller (gmap Z epoll_event)) :=
  mkLoop 1 42 false [] None (EPollPoller_ctor (∅ : gmap Z epoll_event)).
Definition demo_begin : DemoWorld := (∅, demo_loop, Connector_ctor).
Definition demo_op (p : Ptr) (o : connector_op) (w : DemoWorld) : DemoWorld :=
  from_ok w (run_op 42 (λ _ _, false) (λ _ _, Ok) p 0 o w).
(** The poll reports that the socket is writable. *)
Definition demo_poll (w : DemoWorld) : DemoWorld := (from_ok w.1 (put 100 (set_revents POLLOUT) w.1), w.2).
(** The new connection's channel, at 200, for the same descriptor. *)
Definition demo_reuse (w : DemoWorld) : DemoWorld :=
  (from_ok w.1 (enableReading 42 200
    (<[200 := setReadCallback (inr tt) (Channel_ctor (self w.1.2) 7)]> w.1.1, w.1.2)), w.2).

Definition demo_started := demo_op 100 (CStart 7 EINPROGRESS) demo_begin.
Definition demo_reported := demo_poll demo_started.
Definition demo_connected := demo_op 0 (CEvent POLLOUT 0 false) demo_reported.
Definition demo_reused := demo_reuse demo_connected.

Abbreviation demo_step := (world_step 42 (λ _ _, false) (λ _ _, Ok)).

Lemma demo_begin_ok : loop_ok 42 demo_begin.1.1 demo_loop.
Proof. split; [|done]. apply epoll_inv_ctor; [done|]. done. Qed.

Lemma demo_started_reachable : rtc demo_step demo_begin demo_started.
Proof.
  eapply rtc_l; [|apply rtc_refl]. apply (step_own _ _ _ _ _ 100 0 (CStart 7 EINPROGRESS)).
  - by split_and!.
  - by vm_compute.
Qed.

Lemma demo_ok w : rtc demo_step demo_begin w → loop_ok 42 w.1.1 w.1.2.
Proof. intros H. by destruct (steps_refine _ _ _ ∅ demo_loop w demo_begin_ok H) as (c & _ & _ & []). Qed.

Lemma demo_reported_reachable : rtc demo_step demo_begin demo_reported.
Proof.
  eapply rtc_r; [exact demo_started_reachable|]. apply step_others. split_and!; [done| |done|].
  - pose proof (demo_ok _ demo_started_reachable) as Hok. unfold demo_reported, demo_poll. cbn [fst snd].
    destruct (demo_started.1.1 !! 100) as [ch|] eqn:E; [|by vm_compute in E].
    unfold put, obj. rewrite E. by apply (loop_ok_frame1 42 _ _ _ ch).
  - intros p Hp. vm_compute in Hp. injection Hp as <-. split; [|done]. by vm_compute; constructor.
Qed.

Lemma demo_connected_reachable : rtc demo_step demo_begin demo_connected.
Proof.
  eapply rtc_r; [exact demo_reported_reachable|]. apply (step_own _ _ _ _ _ 0 0 (CEvent POLLOUT 0 false)).
  - split; [by vm_compute|]. eexists 100, _. split_and!; by vm_compute.
  - by vm_compute.
Qed.

Lemma reuse_iff (m m' : gmap Z Ptr) (fd : Z) (same : Prop) : m = ∅ → m' = {[7 := 200]} →
  (m' !! fd = Some 100 ↔ m !! fd = Some 100) ∧ (m !! fd = Some 100 → same).
Proof.
  intros -> ->. rewrite lookup_empty, lookup_singleton_Some. split; [|done]. split; [|done]. by intros [_ ?].
Qed.

Lemma demo_reused_reachable : rtc demo_step demo_begin demo_reused.
Proof.
  eapply rtc_r; [exact demo_connected_reachable|]. apply step_others.
  split; [by vm_compute|]. split; [|split; [by vm_compute|]].
  - pose proof (demo_ok _ demo_connected_reachable) as Hok.
    destruct (new_channel_spec 42 demo_connected.1.1 demo_connected.1.2 200 7 (inr tt) Hok)
      as [Hok1 Hfr]; [by vm_compute..|].
    destruct (enable_fresh_spec 42 _ _ 200 _ Hok1 Hfr) as (os' & p' & c' & E & Hok2 & _); [done..|].
    unfold demo_reused, demo_reuse. cbn [fst snd].
    by rewrite E.
  - intros p Hp. vm_compute in Hp. injection Hp as <-. split; [by vm_compute; constructor|].
    intros fd. apply reuse_iff; by vm_compute.
Qed.

Lemma connector_runs_on_loop_witness :
  (∃ w', run_op 42 (λ _ _, false) (λ _ _, Ok) 0 0 (CFunctor 0 0) demo_reused = Ok w' ∧
     loop_ok 42 w'.1.1 w'.1.2) ∧
  unknown (B := unit) demo_reused.1.2 100 ∧ channels (CB := conn_handler + unit) (poller_ demo_reused.1.2) !! 7 = Some 200.
Proof.
  destruct (connector_runs_on_loop 42 (λ _ _, false) (λ _ _, Ok) ∅ demo_loop demo_reused
    demo_begin_ok demo_reused_reachable) as (_ & Hrun & Hst).
  split; [|split].
  - destruct (Hrun 0 0 (CFunctor 0 0)) as (w' & E & Hok & _); [by vm_compute|].
    exists w'. split; [exact E|exact Hok].
  - assert (state_ demo_reused.2 = kConnected) as E by by vm_compute. rewrite E in Hst.
    apply (proj2 Hst). by vm_compute.
  - by vm_compute.
Defined.
